(* ===== verification/_CoqProject ===== *)
-Q . S2P
Prelude.v
Bits.v
Hash.v
Buffer.v
Resp.v
RespSpec.v
RespFacts.v
RespWire.v
RespProps.v
Entry.v
Table.v
TableLinks.v
TableData.v
TableInv.v
TableGrow.v
TableAssign.v
TableRemove.v
TableWalk.v
TableProps.v
Store.v
StoreInv.v
StoreEvict.v
StoreOps.v
StoreCycle.v
StoreSpec.v
StoreProps.v
Command.v
CommandSpec.v
CommandProps.v
Kernel.v
World.v
Stream.v
Connection.v
Server.v
Main.v
NetInv.v
ConnFacts.v
NetSpec.v
NetIdeal.v
AcceptFacts.v
ServerFacts.v
Loopback.v
FdProps.v
ConnProps.v
ExpiryProps.v
ServerProps.v
IdealProps.v
MainProps.v
