(* ===== verification/Prelude.v ===== *)
(** * A verification of tiny-redis

    tiny-redis is a single-threaded, in-memory key/value server that speaks the
    Redis wire protocol.  An epoll loop ([net/event_loop.cpp]) wakes the listener,
    which accepts clients ([net/server.cpp]), and the connections
    ([net/connection.cpp]).  Bytes read from a socket go into a [Buffer]; the
    request parser ([core/resp.cpp]) cuts commands out of it; the dispatcher
    ([core/command.cpp]) runs each command on the [Store] ([core/store.cpp]:
    deadlines, eviction, the expire cycle), which keeps its entries in a chained
    hash table ([core/table.cpp]) of pooled 64-byte entries ([core/entry.h]) keyed
    by SipHash ([core/hash.cpp]); the reply encoders append the answer to the
    connection's output buffer, which is written out as the kernel takes it.
    This library models that code as executable functions and proves what it
    promises, up to whole runs of the server.

    ** How the code is modelled

    - Integers are [Z], with the wrap-around of unsigned types written out as
      [u64] and [u32]; a signed operation that would overflow is a fault.
    - Bytes are [Strings.Byte.byte]; a [string_view] is the list of bytes it
      covers; a vector or array is a list, every access bounds-checked.
    - The heap of the table is explicit: a finite map from addresses to entries,
      and one from addresses to spill blocks whose cells may be uninitialised.
      Pointers are addresses, so aliasing, double frees and leaks can be stated.
    - A function that can leave the defined behaviour of C++ returns a [result]:
      a failing [assert], a null or dangling dereference, an out-of-range or
      uninitialised read, a bad [delete[]], an overflow and an exception nobody
      catches are all [Fault]s.  [returns r Q] is total correctness: no fault,
      and [Q] of the value.  Theorems therefore show that asserts hold and that
      no undefined behaviour is reached, and never only "if it returns".
    - Loops whose recursion is not structural carry fuel.  The fuel is computed
      from the state (the length of the line, the number of live entries, of
      buckets, of arguments) and running out is the fault [FFuel]: since the
      theorems prove that no fault happens, they prove the bound is enough, which
      is termination.  The sampling loop of [evictOne] may take up to [2 ^ 64]
      rounds of a binary loop ([iter_until]); it ends because the generator has
      full period ([Bits.splitmix64_covers]).
    - The pool allocator is a git submodule and not part of the source tree:
      it is the class [Entry.PoolAllocator], whose laws are its documented
      contract, with the instance [set_pool] for the witnesses.
      [std::random_device] is an argument.
    - The operating system is the class [Kernel] of the system calls the code
      makes, on a state of which only observations are known (open descriptors,
      the interest list, the clock, the bytes read and written), and [KernelLaws] states what
      their manual pages promise: partial writes, interrupted calls, failures of
      every kind are possible answers.  [Loopback] is an executable instance.
    - Connections are objects of a heap that the epoll instance, the server's map
      and its list of retired connections point to; the handlers are state
      transformers over heap, server and kernel ([World]), so that touching a
      freed connection is a fault.  A loop over system calls is bounded by the
      bytes to move and by the connections and signals the outside world still
      has in store ([k_budget]), which each repetition uses up.  The event loop
      itself need not end: [run n] is [n] rounds of it, for every [n].

    ** Files

    - [Prelude]: faults, the result monad, loops, bytes, arrays.
    - [Bits] ([core/bits.cpp]): powers of two, the reverse-binary scan cursor,
      splitmix64.  A scan visits every bucket exactly once, also when the table
      doubles in the middle of it.
    - [Hash] ([core/hash.cpp]): the streaming SipHash-1-3 code, equal to an
      independent textbook definition.
    - [Buffer] ([core/buffer.cpp]): the growable buffer refines a byte queue.
    - [Resp] ([core/resp.cpp], [core/resp.h]): request parser and reply encoders
      as written.  [RespSpec] is a reference parser built from combinators,
      [RespFacts] proves the two equal, [RespWire] relates it to the encoders, and
      [RespProps] holds the theorems: totality, independence from how the stream
      is cut, finality of errors, the exact grammar, round trips.
    - [Entry] ([core/entry.h], [core/entry.cpp], [core/clock.h]): entries and
      their inline or spilled storage; the allocator's interface.
    - [Table] ([core/table.cpp], [core/table.h]): all table operations.
      [TableLinks] (chains as linked lists in the heap), [TableData] (what the
      bytes of entries and blocks mean), [TableInv] (the invariant, and lookup),
      [TableGrow] (insertion and rehashing), [TableAssign], [TableRemove] and
      [TableWalk] (clear, scanning, sampling) prove each operation;
      [TableProps] puts them together: the table refines a finite map.
    - [Store] ([core/store.cpp], [core/store.h]): all store operations.
      [StoreInv], [StoreEvict], [StoreOps] and [StoreCycle] give each one's effect
      on a map of records; [StoreSpec] is the ideal map with deadlines, with and
      without a cap, and the simulation; [StoreProps] holds the theorems: refinement over traces,
      outcomes of [set], eviction, soundness and completeness of the expire cycle.
    - [Command] ([core/command.cpp], [core/command.h]): the command table, the
      argument checks and all handlers.  [CommandSpec] gives each request's
      meaning as store operations and a reply, a client's reply decoder, and
      proves the dispatcher equal to that meaning; [CommandProps] has the
      theorems: the dispatcher never faults and always answers once, a session
      writes exactly the encoded replies of the ideal map, and the client's decoder,
      which accepts canonical encodings only, determines the bytes it reads.

    - [Kernel] ([net/unique_fd.cpp] and the system calls), [World] (the objects
      and the transformers over them, [EventLoop]'s registrations, [Server::now],
      [Server::retire]), [Connection] ([net/connection.cpp]: all handlers),
      [Server] ([net/server.cpp], [net/event_loop.cpp]: construction, accepting,
      shedding and pausing, the timer, dispatching events, running, destruction).
    - [Stream] is a connection as a consumer of a byte stream; [NetInv] the
      invariant of the running server (who owns which descriptor and connection,
      what epoll watches, room in the buffers); [ConnFacts], [AcceptFacts] and
      [ServerFacts] prove it of each handler, of accepting and of whole rounds;
      [NetSpec] is the abstract server: client streams over one store;
      [NetIdeal] replaces that store by a map that answers for it, through the
      interface [answers_for] of [CommandProps] that the ideal map with deadlines meets with a cap or
      without: one trace of the requests of all clients, with the map's replies.
    - [Main] ([main.cpp]): the command line, the signals, the server object from
      construction to destruction, the exit code.
    - [Loopback], [FdProps], [ConnProps], [ServerProps]: the kernel the witnesses
      run on, and the theorems: descriptors have one owner; requests are answered
      in order however the stream is cut, closing is final, flushing loses
      nothing and ends; any run refines the abstract server without a fault, gives
      every client one reply per request read from it, loses no wake-up, leaks
      nothing, and stops when it is told to.
    - [ExpiryProps]: the timer of an idle server removes everything expired.
    - [IdealProps] composes all of it: on any kernel, the clients of the running
      program talk to one ideal map with deadlines.  [MainProps]: which command
      lines are accepted, and that the program ends with nothing left open.

    ** Bounds chosen

    Buffers are assumed to hold at most [2 ^ 61] bytes ([Buf.kMaxContent]), which
    the address space enforces; a key and its value together are below [2 ^ 32]
    bytes, as the 64 MiB limit of the parser ensures; times are between 500 ms and
    [2 ^ 63 - 1] ms in the theorems on the dispatcher, because TTL's rounding can
    overflow otherwise ([ttl_rounding_overflow]).  The code does not
    bound the output it buffers for a client, so the theorems on the running
    server assume that the clients together send at most [2 ^ 34] bytes
    ([can_start]), which keeps every reply buffer below [Buf.kMaxContent].  The
    steady clock counts nanoseconds, of which [nowMs] makes milliseconds; it starts
    above 500 ms and stays a 64-bit number.  Keys may be
    more than the cap, under either policy: the ideal map then refuses a new key
    or drops another ([capped_run]), and only when the keys alive and perhaps some
    that have expired are as many as the cap.  Which key is dropped, given the
    sample that was drawn, is what [eviction_policy] is about.

    ** Not modelled

    - The words of the C++ library: its text for an error number, and [what] of a
      [std::system_error] and of a [std::length_error], are parameters.  What the
      program prints around them is in the model, and printing is a call of the
      kernel that changes nothing the server relies on.
    - Memory running out ([std::bad_alloc]).  The one exception of the containers
      that a number on the command line can cause, [std::length_error], is.
    - A signal interrupts between two steps of the model: a handler runs at the
      wait of a round, or, for the finding [late_signal_dangles], after [main].
      Signals that arrive before the handlers are installed kill the process.
    - The order in which [unordered_map] destroys its elements, which the model
      fixes.  [std::random_device]: its numbers are arguments.
    - Tests, benchmarks and scripts. *)

From Stdlib Require Import ZArith Lia Strings.Byte.
From Stdlib Require String.
From stdpp Require Import base list gmap strings numbers.

#[global] Set Default Goal Selector "!".
Local Open Scope Z_scope.

(** ** Machine integers *)

Definition u64 (z : Z) : Z := z mod 2 ^ 64.
Definition u32 (z : Z) : Z := z mod 2 ^ 32.
Definition SIZE_MAX : Z := 2 ^ 64 - 1.
Definition INT64_MAX : Z := 2 ^ 63 - 1.
Definition INT64_MIN : Z := - 2 ^ 63.
(** [std::vector<char>::max_size()]: PTRDIFF_MAX. *)
Definition MAX_VECTOR : Z := 2 ^ 63 - 1.

(** ** Faults and the result monad

    Every definition that can leave the defined behaviour of C++ returns a
    [result].  A fault is the exact point where the source would throw an
    exception nobody on the path catches, hit a failing [assert], or execute an
    operation whose behaviour is undefined. *)

Inductive fault :=
| FAssert      (* a failing assert *)
| FNull        (* dereference of nullptr or of a pointer to a dead object *)
| FBounds      (* access outside an array, a vector or a view *)
| FUninit      (* read of an indeterminate byte, or of the wrong union member *)
| FBadFree     (* delete[] of a pointer that is not a live block *)
| FLength      (* std::length_error thrown by vector::resize *)
| FOverflow    (* signed overflow, or an unrepresentable std::bit_ceil *)
| FFuel.       (* a loop bound of the model was exhausted *)

Inductive result (A : Type) :=
| Ok (a : A)
| Fault (f : fault).
Arguments Ok {A} _.
Arguments Fault {A} _.

Definition rbind {A B} (m : result A) (k : A → result B) : result B :=
  match m with
  | Ok a => k a
  | Fault f => Fault f
  end.

Declare Scope result_scope.
Delimit Scope result_scope with res.
Notation "'let*' x ':=' m 'in' k" := (rbind m (λ x, k))
  (at level 10, x pattern, m at level 100, k at level 200,
   format "'[v' 'let*'  x  ':='  m  'in' '/' k ']'") : result_scope.
Notation "'check' b 'or' f ';' k" := (if b then k else Fault f)
  (at level 10, b at level 100, f at level 9, k at level 200,
   format "'[v' 'check'  b  'or'  f  ';' '/' k ']'") : result_scope.
#[global] Open Scope result_scope.

(** Total correctness of a computation: it returns, and the value satisfies the
    postcondition. *)
Definition returns {A} (r : result A) (Q : A → Prop) : Prop :=
  match r with
  | Ok a => Q a
  | Fault _ => False
  end.

Lemma returns_Ok {A} (a : A) (Q : A → Prop) : Q a → returns (Ok a) Q.
Proof. done. Qed.

Lemma returns_bind {A B} (m : result A) (k : A → result B) P Q :
  returns m P → (∀ a, P a → returns (k a) Q) → returns (rbind m k) Q.
Proof. destruct m; simpl; naive_solver. Qed.

Lemma returns_mono {A} (r : result A) (P Q : A → Prop) :
  returns r P → (∀ a, P a → Q a) → returns r Q.
Proof. destruct r; simpl; naive_solver. Qed.

Lemma returns_inv {A} (r : result A) (Q : A → Prop) :
  returns r Q ↔ ∃ a, r = Ok a ∧ Q a.
Proof. destruct r; simpl; naive_solver. Qed.

Lemma rbind_Ok {A B} (m : result A) (k : A → result B) b :
  rbind m k = Ok b ↔ ∃ a, m = Ok a ∧ k a = Ok b.
Proof. destruct m; simpl; naive_solver. Qed.

Lemma rbind_assoc {A B C} (m : result A) (k : A → result B) (j : B → result C) :
  rbind (rbind m k) j = rbind m (λ a, rbind (k a) j).
Proof. by destruct m. Qed.

(** ** Loops

    [iter_until p step s] runs [step] at most [p] times and stops at the first
    [inr].  Its recursion is on the binary structure of the bound, so a bound
    of [2 ^ 64] is a closed, executable constant. *)

Fixpoint iter_until {S R} (p : positive) (step : S → S + R) (s : S) : S + R :=
  match p with
  | xH => step s
  | xO p =>
      match iter_until p step s with
      | inl s' => iter_until p step s'
      | inr r => inr r
      end
  | xI p =>
      match step s with
      | inl s0 =>
          match iter_until p step s0 with
          | inl s' => iter_until p step s'
          | inr r => inr r
          end
      | inr r => inr r
      end
  end.

(** The same loop with a unary bound, to reason by induction. *)
Fixpoint iter_nat {S R} (n : nat) (step : S → S + R) (s : S) : S + R :=
  match n with
  | O => inl s
  | Datatypes.S n =>
      match step s with
      | inl s' => iter_nat n step s'
      | inr r => inr r
      end
  end.

Lemma iter_nat_add {S R} (n m : nat) (step : S → S + R) s :
  iter_nat (n + m) step s =
    match iter_nat n step s with
    | inl s' => iter_nat m step s'
    | inr r => inr r
    end.
Proof.
  revert s. induction n as [|n IH]; intros s; [done|]. simpl.
  destruct (step s); [apply IH|done].
Qed.

Lemma iter_until_nat {S R} p (step : S → S + R) s :
  iter_until p step s = iter_nat (Pos.to_nat p) step s.
Proof.
  revert s. induction p as [p IH|p IH|]; intros s.
  - rewrite Pos2Nat.inj_xI. simpl. destruct (step s) as [s0|]; [|done].
    rewrite Nat.add_0_r, iter_nat_add, !IH. destruct (iter_nat _ _ _); [apply IH|done].
  - rewrite Pos2Nat.inj_xO. simpl. rewrite Nat.add_0_r, iter_nat_add, IH.
    destruct (iter_nat _ _ _); [apply IH|done].
  - change (Pos.to_nat 1) with 1%nat. simpl. by destruct (step s).
Qed.

(** A loop whose state carries an invariant, and whose [n]-th state would stop
    it at the latest, stops. *)
Lemma iter_nat_stops {S R} (I : nat → S → Prop) (Q : R → Prop) (step : S → S + R) n s :
  I 0%nat s →
  (∀ i s, (i < n)%nat → I i s →
     match step s with inl s' => I (Datatypes.S i) s' | inr r => Q r end) →
  (∀ s, ¬ I n s) →
  ∃ r, iter_nat n step s = inr r ∧ Q r.
Proof.
  intros H0 Hstep Hn.
  assert (∀ m i s, (i + m = n)%nat → I i s → ∃ r, iter_nat m step s = inr r ∧ Q r) as H.
  { induction m as [|m IH]; intros i s' Him Hi.
    - rewrite Nat.add_0_r in Him. subst i. by destruct (Hn s').
    - simpl. specialize (Hstep i s' ltac:(lia) Hi).
      destruct (step s') as [s''|r]; [|by eauto].
      apply (IH (Datatypes.S i)); [lia|done]. }
  by apply (H n 0%nat).
Qed.

(** ** Bytes and byte strings *)

#[global] Instance byte_eq_dec : EqDecision byte := Byte.byte_eq_dec.

#[global] Program Instance byte_countable : Countable byte :=
  inj_countable Byte.to_N Byte.of_N _.
Next Obligation. intros b. apply Byte.of_to_N. Qed.

Abbreviation bytes := (list byte).

(** The numeric value of a byte.  The source only compares [char]s with ASCII
    constants, where a signed and an unsigned [char] give the same verdict. *)
Definition code (b : byte) : Z := Z.of_N (Byte.to_N b).

Definition byte_of_code (z : Z) : byte :=
  match Byte.of_N (Z.to_N z) with Some b => b | None => x00 end.

Definition CR : byte := x0d.
Definition LF : byte := x0a.
Definition CRLF : bytes := [CR; LF].

Definition bstr (s : String.string) : bytes := String.list_byte_of_string s.

Lemma code_range b : 0 ≤ code b < 256.
Proof. unfold code. pose proof (Byte.to_N_bounded b). lia. Qed.

Lemma code_inj a b : code a = code b → a = b.
Proof.
  unfold code. intros H%N2Z.inj.
  pose proof (Byte.of_to_N a) as Ha. pose proof (Byte.of_to_N b) as Hb. congruence.
Qed.

Lemma code_byte_of_code z : 0 ≤ z < 256 → code (byte_of_code z) = z.
Proof.
  intros Hz. unfold byte_of_code.
  destruct (Byte.of_N (Z.to_N z)) as [b|] eqn:E.
  - apply Byte.to_of_N in E. unfold code. rewrite E. lia.
  - apply Byte.of_N_None_iff in E. lia.
Qed.

Lemma byte_of_code_code b : byte_of_code (code b) = b.
Proof. apply code_inj, code_byte_of_code, code_range. Qed.

(** ** Arrays and views indexed by [size_t]

    A buffer is a list, a [size_t] index or length is a non-negative [Z]. *)

Abbreviation zlen l := (Z.of_nat (length l)).

(** The sub-list of [n] elements from index [i]; clipped to the list. *)
Definition slice {A} (l : list A) (i n : Z) : list A :=
  take (Z.to_nat n) (drop (Z.to_nat i) l).

(** Reading one element, with the bounds the language leaves unchecked. *)
Definition at_ {A} (l : list A) (i : Z) : result A :=
  if 0 <=? i then
    match l !! Z.to_nat i with
    | Some x => Ok x
    | None => Fault FBounds
    end
  else Fault FBounds.

(** [memcpy(&l[i], s.data(), s.size())]. *)
Definition store_at {A} (l : list A) (i : Z) (s : list A) : result (list A) :=
  if (0 <=? i) && (i + zlen s <=? zlen l) then
    Ok (take (Z.to_nat i) l ++ s ++ drop (Z.to_nat (i + zlen s)) l)
  else Fault FBounds.

Section slices.
Context {A : Type}.
Implicit Types (l s : list A) (x : A) (i n : Z).

Lemma slice_length l i n :
  0 ≤ i → 0 ≤ n → i + n ≤ zlen l → zlen (slice l i n) = n.
Proof. intros. unfold slice. rewrite length_take, length_drop. lia. Qed.

Lemma slice_length_le l i n : 0 ≤ n → zlen (slice l i n) ≤ n.
Proof. intros. unfold slice. rewrite length_take. lia. Qed.

Lemma slice_whole l n : zlen l ≤ n → slice l 0 n = l.
Proof. intros. unfold slice. rewrite drop_0. apply take_ge. lia. Qed.

Lemma slice_0 l i : slice l i 0 = [].
Proof. done. Qed.

Lemma slice_app_l l s i n :
  0 ≤ i → 0 ≤ n → i + n ≤ zlen l → slice (l ++ s) i n = slice l i n.
Proof.
  intros. unfold slice. rewrite drop_app_le by lia. rewrite take_app_le; [done|].
  rewrite length_drop. lia.
Qed.

Lemma slice_app_r l s i n :
  zlen l ≤ i → slice (l ++ s) i n = slice s (i - zlen l) n.
Proof.
  intros. unfold slice. rewrite drop_app_ge by lia. do 2 f_equal. lia.
Qed.

Lemma slice_split l i n m :
  0 ≤ i → 0 ≤ n → 0 ≤ m → slice l i (n + m) = slice l i n ++ slice l (i + n) m.
Proof.
  intros. unfold slice. rewrite !Z2Nat.inj_add by lia.
  by rewrite <-drop_drop, take_take_drop.
Qed.

Lemma slice_to_end l i n : 0 ≤ i → zlen l ≤ i + n → slice l i n = drop (Z.to_nat i) l.
Proof. intros. unfold slice. apply take_ge. rewrite length_drop. lia. Qed.

Lemma slice_take l i n k :
  0 ≤ i → 0 ≤ n → i + n ≤ k → slice (take (Z.to_nat k) l) i n = slice l i n.
Proof.
  intros. unfold slice. rewrite (take_drop_commute l).
  rewrite (take_drop_commute (take _ _)), take_take. do 2 f_equal. lia.
Qed.

Lemma slice_take_nat l i n k :
  0 ≤ i → 0 ≤ n → i + n ≤ Z.of_nat k → slice (take k l) i n = slice l i n.
Proof. intros. rewrite <-(Nat2Z.id k). apply slice_take; lia. Qed.

Lemma at_Ok l i x : at_ l i = Ok x ↔ 0 ≤ i ∧ l !! Z.to_nat i = Some x.
Proof.
  unfold at_. destruct (Z.leb_spec 0 i); [|naive_solver lia].
  destruct (l !! Z.to_nat i); naive_solver.
Qed.

Lemma at_inside l i : 0 ≤ i < zlen l → ∃ x, at_ l i = Ok x ∧ l !! Z.to_nat i = Some x.
Proof.
  intros. destruct (lookup_lt_is_Some_2 l (Z.to_nat i)) as [x Hx]; [lia|].
  exists x. split; [|done]. apply at_Ok. split; [lia|done].
Qed.

Lemma at_outside l i : i < 0 ∨ zlen l ≤ i → at_ l i = Fault FBounds.
Proof.
  intros Hi. unfold at_. destruct (Z.leb_spec 0 i); [|done].
  rewrite lookup_ge_None_2 by lia. done.
Qed.

Lemma store_at_inside l i s :
  0 ≤ i → i + zlen s ≤ zlen l →
  ∃ l', store_at l i s = Ok l' ∧ length l' = length l ∧
        take (Z.to_nat i) l' = take (Z.to_nat i) l ∧
        slice l' i (zlen s) = s ∧
        drop (Z.to_nat (i + zlen s)) l' = drop (Z.to_nat (i + zlen s)) l.
Proof.
  intros Hi Hs. unfold store_at.
  rewrite (proj2 (Z.leb_le 0 i)), (proj2 (Z.leb_le (i + _) _)) by lia. simpl.
  eexists. split; [done|].
  assert (length (take (Z.to_nat i) l) = Z.to_nat i) as Hlen by (rewrite length_take; lia).
  split_and!.
  - rewrite !length_app, length_drop, Hlen. lia.
  - rewrite take_app_le by lia. by rewrite take_ge by lia.
  - rewrite slice_app_r by lia. rewrite Hlen.
    replace (i - Z.of_nat (Z.to_nat i)) with 0 by lia.
    rewrite slice_app_l by lia. by rewrite slice_whole by lia.
  - rewrite drop_app_ge by (rewrite Hlen; lia). rewrite Hlen.
    rewrite drop_app_ge by lia.
    replace (Z.to_nat (i + zlen s) - Z.to_nat i - length s)%nat with 0%nat by lia. done.
Qed.

End slices.
