(* ===== verification/Bits.v ===== *)
(** * Bit tricks ([src/core/bits.cpp])

    [nextPow2], the reverse-binary scan cursor [nextCursor] and the [splitmix64]
    generator, with: the rounding is minimal; one cursor cycle is a permutation
    of the buckets and survives a doubling of the table; every 64-bit output of
    the generator is reached from every state. *)

From Stdlib Require Import ZArith Lia.
From stdpp Require Import base list numbers.
From S2P Require Import Prelude.

Local Open Scope Z_scope.

(** ** Operations *)

(** The loop of [reverseBits]: [m] counts the bits left.  A 64-bit mask is
    exhausted after 64 shifts, which is the fuel. *)
Fixpoint reverseBits_loop (fuel : nat) (m out v : Z) : Z :=
  match fuel with
  | O => out
  | S fuel =>
      if m =? 0 then out
      else reverseBits_loop fuel (Z.shiftr m 1)
             (Z.lor (u64 (Z.shiftl out 1)) (Z.land v 1)) (Z.shiftr v 1)
  end.

Definition reverseBits (v mask : Z) : Z := reverseBits_loop 64 mask 0 v.

(** [std::bit_ceil] on a 64-bit unsigned: undefined when the result does not
    fit. *)
Definition bit_ceil (n : Z) : result Z :=
  if n <=? 2 ^ 63 then Ok (2 ^ Z.log2_up n) else Fault FOverflow.

Definition nextPow2 (n : Z) : result Z :=
  if n =? 0 then Ok 1 else bit_ceil n.

Definition nextCursor (cursor mask : Z) : Z :=
  let r := u64 (reverseBits cursor mask + 1) in
  if r >? mask then 0 else reverseBits r mask.

(** Returns the advanced state and the output. *)
Definition splitmix64 (state : Z) : Z * Z :=
  let state := u64 (state + 0x9e3779b97f4a7c15) in
  let z := state in
  let z := u64 (Z.lxor z (Z.shiftr z 30) * 0xbf58476d1ce4e5b9) in
  let z := u64 (Z.lxor z (Z.shiftr z 27) * 0x94d049bb133111eb) in
  (state, Z.lxor z (Z.shiftr z 31)).

(** ** The arithmetic meaning of bit reversal *)

(** [bitrev k v]: the low [k] bits of [v], read backwards. *)
Fixpoint bitrev (k : nat) (v : Z) : Z :=
  match k with
  | O => 0
  | S k => 2 ^ Z.of_nat k * (v mod 2) + bitrev k (v / 2)
  end.

Lemma pow2_S k : 2 ^ Z.of_nat (S k) = 2 * 2 ^ Z.of_nat k.
Proof. rewrite Nat2Z.inj_succ, Z.pow_succ_r; lia. Qed.

Lemma pow2_pos k : 0 < 2 ^ Z.of_nat k.
Proof. apply Z.pow_pos_nonneg; lia. Qed.

Lemma bitrev_range k v : 0 ≤ bitrev k v < 2 ^ Z.of_nat k.
Proof.
  revert v. induction k as [|k IH]; intros v; [done|].
  cbn [bitrev]. rewrite pow2_S. specialize (IH (v / 2)).
  pose proof (Z.mod_pos_bound v 2). nia.
Qed.

(** Peeling the top bit instead of the bottom one. *)
Lemma bitrev_snoc k v : bitrev (S k) v = 2 * bitrev k v + (v / 2 ^ Z.of_nat k) mod 2.
Proof.
  revert v. induction k as [|k IH]; intros v.
  - cbn [bitrev]. rewrite Z.div_1_r. lia.
  - change (bitrev (S (S k)) v) with (2 ^ Z.of_nat (S k) * (v mod 2) + bitrev (S k) (v / 2)).
    rewrite IH. cbn [bitrev]. rewrite pow2_S, Z.div_div by (pose proof (pow2_pos k); lia).
    ring.
Qed.

Lemma bitrev_mod k v : bitrev k (v mod 2 ^ Z.of_nat k) = bitrev k v.
Proof.
  revert v. induction k as [|k IH]; intros v; [done|].
  cbn [bitrev]. pose proof (pow2_pos k). rewrite pow2_S.
  rewrite <-(IH (v / 2)), <-(IH (_ / 2)).
  assert (v mod (2 * 2 ^ Z.of_nat k) = v mod 2 + (v / 2) mod 2 ^ Z.of_nat k * 2) as ->
    by (rewrite Z.rem_mul_r by lia; lia).
  rewrite Z.div_add, Z.mod_add by lia.
  rewrite (Z.div_small (v mod 2)) by (pose proof (Z.mod_pos_bound v 2); lia).
  by rewrite Z.add_0_l, !Z.mod_mod by lia.
Qed.

Lemma bitrev_rev k v : bitrev k (bitrev k v) = v mod 2 ^ Z.of_nat k.
Proof.
  revert v. induction k as [|k IH]; intros v; [cbn; by rewrite Z.mod_1_r|].
  pose proof (pow2_pos k). pose proof (bitrev_range k (v / 2)).
  assert (bitrev (S k) v = bitrev k (v / 2) + (v mod 2) * 2 ^ Z.of_nat k) as ->
    by (cbn [bitrev]; lia).
  rewrite bitrev_snoc, <-(bitrev_mod k (_ + _)).
  rewrite Z.mod_add, Z.div_add, bitrev_mod, IH by lia.
  rewrite (Z.div_small (bitrev k _)), Z.add_0_l, Z.mod_mod by lia.
  rewrite pow2_S, (Z.rem_mul_r v 2) by lia. lia.
Qed.

Lemma bitrev_rev_small k v : 0 ≤ v < 2 ^ Z.of_nat k → bitrev k (bitrev k v) = v.
Proof. intros. rewrite bitrev_rev. by apply Z.mod_small. Qed.

Lemma bitrev_inj k v w :
  0 ≤ v < 2 ^ Z.of_nat k → 0 ≤ w < 2 ^ Z.of_nat k → bitrev k v = bitrev k w → v = w.
Proof.
  intros Hv Hw H. rewrite <-(bitrev_rev_small k v), <-(bitrev_rev_small k w) by done. by rewrite H.
Qed.

(** Adding [j] bits on top shifts the reversal: the reversal of [v] over [k + j]
    bits, divided by [2 ^ j], is the reversal over [k] bits. *)
Lemma bitrev_add k j v :
  bitrev (j + k) v = 2 ^ Z.of_nat j * bitrev k v + bitrev j (v / 2 ^ Z.of_nat k).
Proof.
  revert v. induction j as [|j IH]; intros v.
  - cbn [bitrev Nat.add]. lia.
  - cbn [Nat.add]. rewrite bitrev_snoc, IH, (bitrev_snoc j), pow2_S.
    rewrite Z.div_div by (pose proof (pow2_pos k); pose proof (pow2_pos j); lia).
    rewrite Nat2Z.inj_add, (Z.add_comm (Z.of_nat j)), Z.pow_add_r by lia. ring.
Qed.

Lemma bitrev_add_div k j v : bitrev (j + k) v / 2 ^ Z.of_nat j = bitrev k v.
Proof.
  rewrite bitrev_add, (Z.mul_comm (2 ^ _)), Z.div_add_l by (pose proof (pow2_pos j); lia).
  rewrite Z.div_small by apply bitrev_range. lia.
Qed.

(** ** The loop computes the reversal *)

Lemma lor_double_bit a b : 0 ≤ a → b = 0 ∨ b = 1 → Z.lor (2 * a) b = 2 * a + b.
Proof. intros Ha [-> | ->]; [by rewrite Z.lor_0_r, Z.add_0_r|]. destruct a; [done|done|lia]. Qed.

Lemma reverseBits_loop_spec k fuel out v :
  (k ≤ fuel)%nat → 0 ≤ out → (out + 1) * 2 ^ Z.of_nat k ≤ 2 ^ 64 →
  reverseBits_loop fuel (2 ^ Z.of_nat k - 1) out v = out * 2 ^ Z.of_nat k + bitrev k v.
Proof.
  revert fuel out v. induction k as [|k IH]; intros fuel out v Hf Ho Hlt.
  - change (2 ^ Z.of_nat 0) with 1. change (1 - 1) with 0.
    destruct fuel; cbn [reverseBits_loop bitrev Z.eqb]; lia.
  - destruct fuel as [|fuel]; [lia|]. pose proof (pow2_pos k). rewrite pow2_S in *.
    cbn [reverseBits_loop bitrev]. rewrite (proj2 (Z.eqb_neq _ _)) by lia.
    rewrite Z.shiftr_div_pow2, Z.shiftr_div_pow2, Z.shiftl_mul_pow2 by lia.
    change (2 ^ 1) with 2.
    assert ((2 * 2 ^ Z.of_nat k - 1) / 2 = 2 ^ Z.of_nat k - 1) as ->
      by (Z.div_mod_to_equations; lia).
    rewrite (Z.land_ones v 1 ltac:(lia) : Z.land v 1 = v mod 2).
    assert (v mod 2 = 0 ∨ v mod 2 = 1) as Hb by (pose proof (Z.mod_pos_bound v 2); lia).
    unfold u64. rewrite Z.mod_small by nia.
    rewrite (Z.mul_comm out 2), lor_double_bit by done.
    rewrite IH; [nia|lia|lia|nia].
Qed.

Lemma reverseBits_spec k v :
  (k ≤ 64)%nat → reverseBits v (2 ^ Z.of_nat k - 1) = bitrev k v.
Proof.
  intros. unfold reverseBits. rewrite reverseBits_loop_spec; [done|lia|lia|].
  rewrite Z.mul_1_l. apply Z.pow_le_mono_r; lia.
Qed.

(** ** The scan cursor *)

Lemma land_mask h k : Z.land h (2 ^ Z.of_nat k - 1) = h mod 2 ^ Z.of_nat k.
Proof.
  rewrite <-Z.land_ones by lia. f_equal. rewrite Z.ones_equiv. lia.
Qed.

Lemma nextCursor_spec k c :
  (k ≤ 63)%nat → 0 ≤ c < 2 ^ Z.of_nat k →
  nextCursor c (2 ^ Z.of_nat k - 1) =
    if bitrev k c + 1 =? 2 ^ Z.of_nat k then 0 else bitrev k (bitrev k c + 1).
Proof.
  intros Hk Hc. unfold nextCursor. rewrite reverseBits_spec by lia.
  pose proof (bitrev_range k c).
  assert (2 ^ Z.of_nat k ≤ 2 ^ 63) by (apply Z.pow_le_mono_r; lia).
  unfold u64. rewrite Z.mod_small by lia.
  destruct (Z.gtb_spec (bitrev k c + 1) (2 ^ Z.of_nat k - 1)),
    (Z.eqb_spec (bitrev k c + 1) (2 ^ Z.of_nat k)); try lia.
  by rewrite reverseBits_spec by lia.
Qed.

Lemma bitrev_0 k : bitrev k 0 = 0.
Proof.
  induction k as [|k IH]; [done|]. cbn [bitrev].
  change (0 / 2) with 0. change (0 mod 2) with 0. lia.
Qed.

Lemma nextCursor_range k c :
  (k ≤ 63)%nat → 0 ≤ c < 2 ^ Z.of_nat k →
  0 ≤ nextCursor c (2 ^ Z.of_nat k - 1) < 2 ^ Z.of_nat k.
Proof.
  intros. rewrite nextCursor_spec by done. pose proof (pow2_pos k).
  case_match; [lia|apply bitrev_range].
Qed.

(** The step in reversed coordinates: the reversed cursor counts up by one and
    ends the cycle at [2 ^ k]. *)
Lemma nextCursor_rev k c :
  (k ≤ 63)%nat → 0 ≤ c < 2 ^ Z.of_nat k →
  let c' := nextCursor c (2 ^ Z.of_nat k - 1) in
  (bitrev k c + 1 = 2 ^ Z.of_nat k ∧ c' = 0) ∨
  (bitrev k c' = bitrev k c + 1 ∧ bitrev k c + 1 < 2 ^ Z.of_nat k ∧ c' ≠ 0).
Proof.
  intros Hk Hc c'. subst c'. rewrite nextCursor_spec by done.
  pose proof (bitrev_range k c). destruct (Z.eqb_spec (bitrev k c + 1) (2 ^ Z.of_nat k)).
  - by left.
  - right. rewrite bitrev_rev_small by lia. split_and!; [done|lia|].
    intros H0. apply (f_equal (bitrev k)) in H0.
    rewrite bitrev_rev_small, bitrev_0 in H0 by lia. lia.
Qed.

(** The buckets a scan visits from cursor [c] to the end of its cycle: the
    calls of [nextCursor] up to the one that returns 0; [None] when [fuel] calls
    did not return 0. *)
Fixpoint cursors_from (fuel : nat) (c mask : Z) : option (list Z) :=
  match fuel with
  | O => None
  | S fuel =>
      let c' := nextCursor c mask in
      if c' =? 0 then Some [c] else cons c <$> cursors_from fuel c' mask
  end.

(** The first [n] cursors of a cycle started at 0, and the cursor after them. *)
Fixpoint cursors_first (n : nat) (c mask : Z) : list Z * Z :=
  match n with
  | O => ([], c)
  | S n => let '(l, c') := cursors_first n (nextCursor c mask) mask in (c :: l, c')
  end.

Lemma cursors_from_spec k fuel c :
  (k ≤ 63)%nat → 0 ≤ c < 2 ^ Z.of_nat k →
  2 ^ Z.of_nat k - bitrev k c ≤ Z.of_nat fuel →
  cursors_from fuel c (2 ^ Z.of_nat k - 1) =
    Some (bitrev k <$> seqZ (bitrev k c) (2 ^ Z.of_nat k - bitrev k c)).
Proof.
  intros Hk. revert c. induction fuel as [|fuel IH]; intros c Hc Hf.
  { pose proof (bitrev_range k c). lia. }
  pose proof (bitrev_range k c) as Hr. cbn [cursors_from].
  rewrite (seqZ_cons (bitrev k c)) by lia. csimpl. rewrite bitrev_rev_small by done.
  pose proof (nextCursor_range k c Hk Hc).
  destruct (nextCursor_rev k c Hk Hc) as [[H1 ->]|(H1 & H2 & H3)].
  - replace (Z.pred (2 ^ Z.of_nat k - bitrev k c)) with 0 by lia. done.
  - rewrite (proj2 (Z.eqb_neq _ _)) by done. rewrite IH by (done || lia).
    rewrite H1. cbn. do 4 f_equal; lia.
Qed.

Lemma cursors_first_spec k n c :
  (k ≤ 63)%nat → 0 ≤ c < 2 ^ Z.of_nat k →
  bitrev k c + Z.of_nat n < 2 ^ Z.of_nat k →
  cursors_first n c (2 ^ Z.of_nat k - 1) =
    (bitrev k <$> seqZ (bitrev k c) (Z.of_nat n), bitrev k (bitrev k c + Z.of_nat n)).
Proof.
  intros Hk. revert c. induction n as [|n IH]; intros c Hc Hn.
  - cbn. rewrite Z.add_0_r, bitrev_rev_small by done. done.
  - cbn [cursors_first]. pose proof (nextCursor_range k c Hk Hc).
    destruct (nextCursor_rev k c Hk Hc) as [[H1 ->]|(H1 & H2 & H3)]; [lia|].
    rewrite IH by (done || lia). rewrite H1.
    rewrite (seqZ_cons (bitrev k c)) by lia. csimpl. rewrite bitrev_rev_small by done.
    replace (Z.pred (Z.of_nat (S n))) with (Z.of_nat n) by lia.
    replace (bitrev k c + Z.of_nat (S n)) with (bitrev k c + 1 + Z.of_nat n) by lia.
    by rewrite Z.add_1_r.
Qed.

Lemma NoDup_bitrev_seqZ k i n :
  0 ≤ i → i + n ≤ 2 ^ Z.of_nat k → NoDup (bitrev k <$> seqZ i n).
Proof.
  intros. apply NoDup_fmap_2_strong; [|apply NoDup_seqZ].
  intros x y [??]%elem_of_seqZ [??]%elem_of_seqZ. apply bitrev_inj; lia.
Qed.

(** The end of a cycle entered at reversed position [i]: exactly the buckets
    whose reversal is at least [i], each once. *)
Lemma cursors_from_end k i :
  (k ≤ 63)%nat → 0 ≤ i < 2 ^ Z.of_nat k →
  ∃ l, cursors_from (Z.to_nat (2 ^ Z.of_nat k)) (bitrev k i) (2 ^ Z.of_nat k - 1) = Some l ∧ NoDup l ∧
    ∀ b, 0 ≤ b < 2 ^ Z.of_nat k → b ∈ l ↔ i ≤ bitrev k b.
Proof.
  intros Hk Hi. pose proof (bitrev_range k i). eexists.
  split; [apply cursors_from_spec; rewrite ?bitrev_rev_small by done; lia|]. rewrite bitrev_rev_small by done.
  split; [apply NoDup_bitrev_seqZ; lia|]. intros b Hb. pose proof (bitrev_range k b).
  rewrite list_elem_of_fmap. split.
  - intros (x & -> & [Hx1 Hx2]%elem_of_seqZ). rewrite bitrev_rev_small by lia. lia.
  - intros. exists (bitrev k b). rewrite bitrev_rev_small by done.
    split; [done|]. apply elem_of_seqZ. lia.
Qed.

(** C36: one scan cycle of [nextCursor] over a table of [2 ^ k] buckets, from
    cursor 0, returns 0 again after [2 ^ k] calls at most, and has then visited
    every bucket exactly once. *)
Theorem scan_cycle_permutation (k : nat) (Hk : (k ≤ 63)%nat) :
  ∃ l, cursors_from (Z.to_nat (2 ^ Z.of_nat k)) 0 (2 ^ Z.of_nat k - 1) = Some l ∧
    l ≡ₚ seqZ 0 (2 ^ Z.of_nat k).
Proof.
  pose proof (pow2_pos k).
  destruct (cursors_from_end k 0 Hk ltac:(lia)) as (l & Hl & Hnd & Hin). rewrite bitrev_0 in Hl. exists l. split; [done|].
  rewrite cursors_from_spec in Hl by (rewrite ?bitrev_0; lia). injection Hl as <-.
  apply NoDup_Permutation; [done|apply NoDup_seqZ|]. intros b. rewrite elem_of_seqZ. split.
  - intros (x & -> & _)%list_elem_of_fmap. pose proof (bitrev_range k x). lia.
  - intros. apply Hin; [lia|]. apply bitrev_range.
Qed.

Lemma scan_cycle_permutation_witness :
  (3 ≤ 63)%nat ∧
  ∃ l, cursors_from (Z.to_nat (2 ^ Z.of_nat 3)) 0 (2 ^ Z.of_nat 3 - 1) = Some l ∧ l ≡ₚ seqZ 0 (2 ^ Z.of_nat 3).
Proof. split; [lia|]. apply (scan_cycle_permutation 3). lia. Defined.

(** C35: a scan that has visited [n] buckets of a table of [2 ^ k] buckets, and
    continues after the table has grown to [2 ^ (j + k)] buckets, ends, and meets
    every hash exactly once: a hash belongs to a bucket visited before the
    growth if and only if its new bucket is not visited after it, and neither
    part of the scan repeats a bucket. *)
Theorem scan_survives_growth (k j n : nat) (h : Z)
    (Hk : (j + k ≤ 63)%nat) (Hn : Z.of_nat n < 2 ^ Z.of_nat k) (Hh : 0 ≤ h) :
  let '(before, c) := cursors_first n 0 (2 ^ Z.of_nat k - 1) in
  let grown := 2 ^ Z.of_nat (j + k) - 1 in
  ∃ after, cursors_from (Z.to_nat (2 ^ Z.of_nat (j + k))) c grown = Some after ∧
    NoDup before ∧ NoDup after ∧
    (Z.land h (2 ^ Z.of_nat k - 1) ∈ before ↔ ¬ Z.land h grown ∈ after).
Proof.
  pose proof (pow2_pos k) as Hpk. pose proof (pow2_pos j) as Hpj.
  rewrite cursors_first_spec by (rewrite ?bitrev_0; lia). rewrite bitrev_0, Z.add_0_l.
  assert (2 ^ Z.of_nat (j + k) = 2 ^ Z.of_nat j * 2 ^ Z.of_nat k) as Hp
    by (rewrite Nat2Z.inj_add, Z.pow_add_r; lia).
  (* the cursor over the grown table *)
  assert (bitrev k (Z.of_nat n) = bitrev (j + k) (Z.of_nat n * 2 ^ Z.of_nat j)) as Hc.
  { rewrite (Nat.add_comm j k), (bitrev_add j k), Z.div_mul by lia.
    rewrite <-(bitrev_mod j (_ * _)), Z.mod_mul, bitrev_0 by lia. lia. }
  assert (0 ≤ Z.of_nat n * 2 ^ Z.of_nat j < 2 ^ Z.of_nat (j + k)) as Hnj
    by (rewrite Hp; clear - Hn Hpk Hpj; nia).
  cbv zeta. rewrite Hc. destruct (cursors_from_end (j + k) _ Hk Hnj) as (after & Ha & Hnd & Hin).
  exists after. split; [exact Ha|]. rewrite !land_mask.
  pose proof (Z.mod_pos_bound h _ (pow2_pos k)) as Hhk.
  pose proof (Z.mod_pos_bound h _ (pow2_pos (j + k))) as Hhjk.
  split; [apply NoDup_bitrev_seqZ; lia|]. split; [exact Hnd|].
  rewrite Hin by done. rewrite bitrev_mod, list_elem_of_fmap.
  pose proof (bitrev_add_div k j h) as Hdiv. pose proof (bitrev_range (j + k) h).
  assert (Z.of_nat n * 2 ^ Z.of_nat j ≤ bitrev (j + k) h ↔ Z.of_nat n ≤ bitrev k h) as ->.
  { rewrite <-Hdiv. split; intros.
    - apply Z.div_le_lower_bound; lia.
    - pose proof (Z.mul_div_le (bitrev (j + k) h) (2 ^ Z.of_nat j) Hpj). nia. }
  split.
  - intros (x & Hx & [??]%elem_of_seqZ). rewrite <-(bitrev_mod k h), Hx, bitrev_rev_small; lia.
  - intros. exists (bitrev k h). rewrite bitrev_rev. split; [done|].
    apply elem_of_seqZ. pose proof (bitrev_range k h). lia.
Qed.

Lemma scan_survives_growth_witness :
  (1 + 2 ≤ 63)%nat ∧ Z.of_nat 3 < 2 ^ Z.of_nat 2 ∧ 0 ≤ 13 ∧
  let '(before, c) := cursors_first 3 0 (2 ^ Z.of_nat 2 - 1) in
  let grown := 2 ^ Z.of_nat (1 + 2) - 1 in
  ∃ after, cursors_from (Z.to_nat (2 ^ Z.of_nat (1 + 2))) c grown = Some after ∧
    NoDup before ∧ NoDup after ∧
    (Z.land 13 (2 ^ Z.of_nat 2 - 1) ∈ before ↔ ¬ Z.land 13 grown ∈ after).
Proof.
  split; [lia|]. split; [lia|]. split; [lia|].
  apply (scan_survives_growth 2 1 3 13); lia.
Defined.

(** ** [nextPow2] *)

Lemma nextPow2_pow n p :
  0 ≤ n → nextPow2 n = Ok p → ∃ k, (k ≤ 63)%nat ∧ p = 2 ^ Z.of_nat k ∧ n ≤ p.
Proof.
  intros Hn. unfold nextPow2, bit_ceil. destruct (Z.eqb_spec n 0) as [->|].
  { intros [= <-]. exists 0%nat. split_and!; [lia|done|lia]. }
  destruct (Z.leb_spec n (2 ^ 63)); [|done]. intros [= <-].
  exists (Z.to_nat (Z.log2_up n)). rewrite Z2Nat.id by apply Z.log2_up_nonneg.
  assert (Z.log2_up n ≤ 63).
  { transitivity (Z.log2_up (2 ^ 63)); [by apply Z.log2_up_le_mono|]. by rewrite Z.log2_up_pow2. }
  split_and!; [lia|done|]. apply Z.log2_log2_up_spec. lia.
Qed.

(** C39: [nextPow2] returns the smallest power of two that is at least its
    argument, 1 for 0, and is defined exactly up to [2 ^ 63]: above that the
    power does not fit a [size_t] and [std::bit_ceil] is undefined. *)
Theorem nextPow2_smallest (n : Z) (Hn : 0 ≤ n) :
  (n ≤ 2 ^ 63 →
   ∃ k, 0 ≤ k ≤ 63 ∧ nextPow2 n = Ok (2 ^ k) ∧ n ≤ 2 ^ k ∧
        ∀ j, 0 ≤ j → n ≤ 2 ^ j → 2 ^ k ≤ 2 ^ j) ∧
  (2 ^ 63 < n → nextPow2 n = Fault FOverflow).
Proof.
  unfold nextPow2, bit_ceil. destruct (Z.eqb_spec n 0) as [->|Hn0].
  - split; [|lia]. intros _. exists 0. split_and!; [lia..|done|lia|].
    intros. apply Z.pow_le_mono_r; lia.
  - split; intros H; [rewrite (proj2 (Z.leb_le _ _)) by lia
                     |by rewrite (proj2 (Z.leb_gt _ _)) by lia].
    exists (Z.log2_up n). pose proof (Z.log2_up_nonneg n). split_and!; [done| |done| |].
    + rewrite <-(Z.log2_up_pow2 63) by lia. by apply Z.log2_up_le_mono.
    + apply Z.log2_log2_up_spec. lia.
    + intros j Hj Hnj. apply Z.pow_le_mono_r; [lia|]. apply Z.log2_up_le_pow2; lia.
Qed.

Lemma nextPow2_smallest_witness :
  0 ≤ 1000 ∧
  ((1000 ≤ 2 ^ 63 →
    ∃ k, 0 ≤ k ≤ 63 ∧ nextPow2 1000 = Ok (2 ^ k) ∧ 1000 ≤ 2 ^ k ∧
         ∀ j, 0 ≤ j → 1000 ≤ 2 ^ j → 2 ^ k ≤ 2 ^ j) ∧
   (2 ^ 63 < 1000 → nextPow2 1000 = Fault FOverflow)).
Proof. split; [lia|]. apply (nextPow2_smallest 1000). lia. Defined.

(** ** [splitmix64] *)

Section splitmix.

Lemma u64_range z : 0 ≤ u64 z < 2 ^ 64.
Proof. apply Z.mod_pos_bound. lia. Qed.

Lemma u64_small z : 0 ≤ z < 2 ^ 64 → u64 z = z.
Proof. apply Z.mod_small. Qed.

Lemma shiftr_range a s : 0 ≤ s → 0 ≤ a < 2 ^ 64 → 0 ≤ Z.shiftr a s < 2 ^ 64.
Proof.
  intros. rewrite Z.shiftr_div_pow2 by done.
  assert (0 < 2 ^ s) by (apply Z.pow_pos_nonneg; lia). split.
  - apply Z.div_pos; lia.
  - apply Z.div_lt_upper_bound; nia.
Qed.

Lemma range_of_bits a k :
  0 ≤ k → 0 ≤ a → (∀ i, k ≤ i → Z.testbit a i = false) → a < 2 ^ k.
Proof.
  intros Hk Ha Hbits. destruct (Z.eq_dec a 0) as [->|]; [apply Z.pow_pos_nonneg; lia|].
  apply Z.log2_lt_pow2; [lia|]. apply Z.nle_gt. intros Hle.
  pose proof (Z.bit_log2 a ltac:(lia)) as Hb. rewrite Hbits in Hb by done. done.
Qed.

Lemma testbit_high a k i : 0 ≤ a < 2 ^ k → 0 ≤ k ≤ i → Z.testbit a i = false.
Proof.
  intros. rewrite <-(Z.mod_small a (2 ^ k)) by done. apply Z.mod_pow2_bits_high. lia.
Qed.

Lemma lxor_range k a b : 0 ≤ k → 0 ≤ a < 2 ^ k → 0 ≤ b < 2 ^ k → 0 ≤ Z.lxor a b < 2 ^ k.
Proof.
  intros Hk Ha Hb. assert (0 ≤ Z.lxor a b) by (apply Z.lxor_nonneg; lia). split; [done|].
  apply range_of_bits; [done..|]. intros i Hi.
  rewrite Z.lxor_spec, !(testbit_high _ k) by lia. done.
Qed.

Lemma lor_range k a b : 0 ≤ k → 0 ≤ a < 2 ^ k → 0 ≤ b < 2 ^ k → 0 ≤ Z.lor a b < 2 ^ k.
Proof.
  intros Hk Ha Hb. assert (0 ≤ Z.lor a b) by (apply Z.lor_nonneg; lia). split; [done|].
  apply range_of_bits; [done..|]. intros i Hi.
  rewrite Z.lor_spec, !(testbit_high _ k) by lia. done.
Qed.

(** A xor-shift step, and its inverse for shifts of at least 22 bits. *)
Definition xorshift (s z : Z) : Z := Z.lxor z (Z.shiftr z s).
Definition unxorshift (s z : Z) : Z := Z.lxor z (Z.lxor (Z.shiftr z s) (Z.shiftr z (2 * s))).

Lemma xorshift_range s z : 0 ≤ s → 0 ≤ z < 2 ^ 64 → 0 ≤ xorshift s z < 2 ^ 64.
Proof. intros. apply lxor_range; [lia|done|by apply shiftr_range]. Qed.

Lemma unxorshift_range s z : 0 ≤ s → 0 ≤ z < 2 ^ 64 → 0 ≤ unxorshift s z < 2 ^ 64.
Proof. intros. repeat (apply lxor_range || apply shiftr_range); lia. Qed.

Lemma xorshift_unxorshift s z :
  22 ≤ s → 0 ≤ z < 2 ^ 64 → xorshift s (unxorshift s z) = z.
Proof.
  intros Hs Hz. apply Z.bits_inj'. intros i Hi. unfold xorshift, unxorshift.
  repeat rewrite ?Z.lxor_spec, ?Z.shiftr_spec by lia.
  rewrite (testbit_high z 64 (i + s + 2 * s)) by lia.
  replace (i + s + s) with (i + 2 * s) by lia.
  by destruct (Z.testbit z i), (Z.testbit z (i + s)), (Z.testbit z (i + 2 * s)).
Qed.

(** Multiplication by an odd constant modulo [2 ^ 64] has an inverse. *)
Lemma u64_mul_inv a b z :
  u64 (a * b) = 1 → 0 ≤ z < 2 ^ 64 → u64 (u64 (z * a) * b) = z.
Proof.
  intros Hab Hz. unfold u64 in *. rewrite Z.mul_mod_idemp_l by lia.
  rewrite <-Z.mul_assoc, <-Z.mul_mod_idemp_r, Hab, Z.mul_1_r by lia. by apply Z.mod_small.
Qed.

Definition mix (z : Z) : Z :=
  xorshift 31 (u64 (xorshift 27 (u64 (xorshift 30 z * 0xbf58476d1ce4e5b9)) * 0x94d049bb133111eb)).

Definition unmix (z : Z) : Z :=
  unxorshift 30 (u64 (unxorshift 27 (u64 (unxorshift 31 z * 3573116690164977347))
                      * 10871156337175269513)).

Lemma mix_unmix z : 0 ≤ z < 2 ^ 64 → mix (unmix z) = z.
Proof.
  intros Hz. unfold mix, unmix.
  rewrite xorshift_unxorshift by (lia || apply u64_range).
  rewrite (u64_mul_inv 10871156337175269513 0xbf58476d1ce4e5b9);
    [|by vm_compute|apply unxorshift_range; [lia|apply u64_range]].
  rewrite xorshift_unxorshift by (lia || apply u64_range).
  rewrite (u64_mul_inv 3573116690164977347 0x94d049bb133111eb);
    [|by vm_compute|apply unxorshift_range; lia].
  apply xorshift_unxorshift; lia.
Qed.

Lemma unmix_range z : 0 ≤ z < 2 ^ 64 → 0 ≤ unmix z < 2 ^ 64.
Proof. intros. apply unxorshift_range; [lia|apply u64_range]. Qed.

Lemma splitmix64_mix s :
  splitmix64 s = (u64 (s + 0x9e3779b97f4a7c15), mix (u64 (s + 0x9e3779b97f4a7c15))).
Proof. done. Qed.

Lemma splitmix64_range s : 0 ≤ (splitmix64 s).2 < 2 ^ 64.
Proof.
  rewrite splitmix64_mix. cbn [snd]. apply xorshift_range; [lia|apply u64_range].
Qed.

End splitmix.

(** The state after [n] draws. *)
Definition splitmix64_skip (n : Z) (s : Z) : Z := u64 (s + n * 0x9e3779b97f4a7c15).

Lemma splitmix64_skip_succ n s :
  (splitmix64 (splitmix64_skip n s)).1 = splitmix64_skip (n + 1) s.
Proof.
  rewrite splitmix64_mix. unfold splitmix64_skip, u64. cbn [fst].
  rewrite Z.add_mod_idemp_l by lia. f_equal. lia.
Qed.

Lemma splitmix64_hits (s t : Z) :
  0 ≤ t < 2 ^ 64 → ∃ n, 0 ≤ n < 2 ^ 64 ∧ (splitmix64 (splitmix64_skip n s)).2 = t.
Proof.
  intros Ht.
  (* the golden-ratio increment is odd, so its multiples reach every state *)
  set (n := u64 ((unmix t - s) * 17428512612931826493 - 1)).
  exists n. split; [apply u64_range|]. rewrite splitmix64_mix. cbn [snd].
  transitivity (mix (unmix t)); [|by apply mix_unmix]. f_equal.
  subst n. unfold splitmix64_skip, u64. rewrite Z.add_mod_idemp_l by lia.
  rewrite (Z.mod_eq (_ - 1)) by lia. set (d := unmix t - s). set (q := _ / 2 ^ 64).
  replace (s + _ + _)
    with (unmix t + (d * 10771413168148108919 - q * 0x9e3779b97f4a7c15) * 2 ^ 64)
    by (subst d; ring).
  rewrite Z.mod_add by lia. by apply Z.mod_small, unmix_range.
Qed.

Lemma splitmix64_u64 s : splitmix64 (u64 s) = splitmix64 s.
Proof. rewrite !splitmix64_mix. unfold u64. by rewrite Z.add_mod_idemp_l by lia. Qed.

(** The generator has full period and no blind spot: from any state, every
    64-bit value is the output of one of the next [2 ^ 64] draws. *)
Theorem splitmix64_covers (s t : Z) (Ht : 0 ≤ t < 2 ^ 64) :
  ∃ n, 0 ≤ n < 2 ^ 64 ∧ (splitmix64 (splitmix64_skip n s)).2 = t.
Proof. by apply splitmix64_hits. Qed.

Lemma splitmix64_covers_witness :
  0 ≤ 7 < 2 ^ 64 ∧ ∃ n, 0 ≤ n < 2 ^ 64 ∧ (splitmix64 (splitmix64_skip n 42)).2 = 7.
Proof. split; [lia|]. apply (splitmix64_covers 42 7). lia. Defined.
