(* ===== verification/Hash.v ===== *)
(** * Key hashing ([src/core/hash.cpp])

    SipHash-1-3 as the source computes it, word loop and fall-through tail
    switch included, proved equal to the textbook definition over the padded
    message.  Every byte access is bounds-checked, so the equality is also the
    memory safety of the routine. *)

From Stdlib Require Import ZArith Lia Strings.Byte.
From stdpp Require Import base list numbers strings.
From S2P Require Import Prelude Bits.

Local Open Scope Z_scope.

(** ** Operations *)

Fixpoint le_combine (l : bytes) : Z :=
  match l with
  | [] => 0
  | b :: l => code b + 256 * le_combine l
  end.

(** Eight bytes at [p + i], little-endian on every host. *)
Definition load64le (p : bytes) (i : Z) : result Z :=
  check (0 <=? i) && (i + 8 <=? zlen p) or FBounds;
  Ok (le_combine (slice p i 8)).

Definition rotl (x r : Z) : Z := u64 (Z.lor (Z.shiftl x r) (Z.shiftr x (64 - r))).

Record SipState := { v0 : Z; v1 : Z; v2 : Z; v3 : Z }.

Definition round (s : SipState) : SipState :=
  let '{| v0 := v0; v1 := v1; v2 := v2; v3 := v3 |} := s in
  let v0 := u64 (v0 + v1) in
  let v1 := rotl v1 13 in
  let v1 := Z.lxor v1 v0 in
  let v0 := rotl v0 32 in
  let v2 := u64 (v2 + v3) in
  let v3 := rotl v3 16 in
  let v3 := Z.lxor v3 v2 in
  let v0 := u64 (v0 + v3) in
  let v3 := rotl v3 21 in
  let v3 := Z.lxor v3 v0 in
  let v2 := u64 (v2 + v1) in
  let v1 := rotl v1 17 in
  let v1 := Z.lxor v1 v2 in
  let v2 := rotl v2 32 in
  {| v0 := v0; v1 := v1; v2 := v2; v3 := v3 |}.

Definition compress (m : Z) (s : SipState) : SipState :=
  let s := {| v0 := v0 s; v1 := v1 s; v2 := v2 s; v3 := Z.lxor (v3 s) m |} in
  let s := round s in
  {| v0 := Z.lxor (v0 s) m; v1 := v1 s; v2 := v2 s; v3 := v3 s |}.

Definition sip_init (k0 k1 : Z) : SipState :=
  {| v0 := Z.lxor k0 0x736f6d6570736575;
     v1 := Z.lxor k1 0x646f72616e646f6d;
     v2 := Z.lxor k0 0x6c7967656e657261;
     v3 := Z.lxor k1 0x7465646279746573 |}.

(** [for (; p != end; p += 8) s.compress(load64le(p))], with [p] as the offset
    [i].  One iteration consumes eight bytes, so the length bounds them. *)
Fixpoint sip_words_loop (fuel : nat) (p : bytes) (i end_ : Z) (s : SipState) : result SipState :=
  match fuel with
  | O => Fault FFuel
  | S fuel =>
      if i =? end_ then Ok s
      else
        let* w := load64le p i in
        sip_words_loop fuel p (i + 8) end_ (compress w s)
  end.

(** One case of the tail switch: taken when [len & 7] is at least [j], which is
    what falling through from a higher case amounts to. *)
Definition tail_case (p : bytes) (i r j b : Z) : result Z :=
  if j <=? r then
    let* c := at_ p (i + (j - 1)) in
    Ok (Z.lor b (Z.shiftl (code c) (8 * (j - 1))))
  else Ok b.

Definition sipHash13 (p : bytes) (k0 k1 : Z) : result Z :=
  let len := zlen p in
  let end_ := Z.land len (SIZE_MAX - 7) in
  let* s := sip_words_loop (S (length p)) p 0 end_ (sip_init k0 k1) in
  let r := Z.land len 7 in
  let b := u64 (Z.shiftl len 56) in
  let* b := tail_case p end_ r 7 b in
  let* b := tail_case p end_ r 6 b in
  let* b := tail_case p end_ r 5 b in
  let* b := tail_case p end_ r 4 b in
  let* b := tail_case p end_ r 3 b in
  let* b := tail_case p end_ r 2 b in
  let* b := tail_case p end_ r 1 b in
  let s := compress b s in
  let s := {| v0 := v0 s; v1 := v1 s; v2 := Z.lxor (v2 s) 0xff; v3 := v3 s |} in
  let s := round (round (round s)) in
  Ok (Z.lxor (Z.lxor (Z.lxor (v0 s) (v1 s)) (v2 s)) (v3 s)).

Definition hashBytes (p : bytes) (seed : Z) : result Z :=
  let state := seed in
  let '(state, k0) := splitmix64 state in
  let '(state, k1) := splitmix64 state in
  sipHash13 p k0 k1.

(** ** The textbook definition

    SipHash-c-d pads the message with zeros and the length byte to a whole
    number of 64-bit words, compresses each word with [c] rounds and finishes
    with [d].  The round is written as the paper writes it, both halves side by
    side, and the initial state from the 32 characters its constants spell; the
    definition shares with the code only the rotation and the addition modulo
    [2 ^ 64]. *)

Fixpoint le_words (l : bytes) : list Z :=
  match l with
  | b0 :: b1 :: b2 :: b3 :: b4 :: b5 :: b6 :: b7 :: l =>
      le_combine [b0; b1; b2; b3; b4; b5; b6; b7] :: le_words l
  | _ => []
  end.

Definition sip_pad (m : bytes) : bytes :=
  m ++ replicate (7 - length m mod 8) x00 ++ [byte_of_code (zlen m mod 256)].

Definition sip_round (s : SipState) : SipState :=
  let a0 := u64 (v0 s + v1 s) in
  let a2 := u64 (v2 s + v3 s) in
  let a1 := Z.lxor (rotl (v1 s) 13) a0 in
  let a3 := Z.lxor (rotl (v3 s) 16) a2 in
  let b2 := u64 (a2 + a1) in
  let b0 := u64 (rotl a0 32 + a3) in
  {| v0 := b0;
     v1 := Z.lxor (rotl a1 17) b2;
     v2 := rotl b2 32;
     v3 := Z.lxor (rotl a3 21) b0 |}.

(** Eight characters, the first in the highest byte. *)
Definition be_combine (l : bytes) : Z := foldl (λ x b, 256 * x + code b) 0 l.

Definition sip_start (k0 k1 : Z) : SipState :=
  {| v0 := Z.lxor k0 (be_combine (bstr "somepseu"));
     v1 := Z.lxor k1 (be_combine (bstr "dorandom"));
     v2 := Z.lxor k0 (be_combine (bstr "lygenera"));
     v3 := Z.lxor k1 (be_combine (bstr "tedbytes")) |}.

Definition sip_compress (c : nat) (s : SipState) (w : Z) : SipState :=
  let s := Nat.iter c sip_round {| v0 := v0 s; v1 := v1 s; v2 := v2 s; v3 := Z.lxor (v3 s) w |} in
  {| v0 := Z.lxor (v0 s) w; v1 := v1 s; v2 := v2 s; v3 := v3 s |}.

Definition siphash_spec (c d : nat) (m : bytes) (k0 k1 : Z) : Z :=
  let s := foldl (sip_compress c) (sip_start k0 k1) (le_words (sip_pad m)) in
  let s := Nat.iter d sip_round {| v0 := v0 s; v1 := v1 s; v2 := Z.lxor (v2 s) 0xff; v3 := v3 s |} in
  Z.lxor (Z.lxor (Z.lxor (v0 s) (v1 s)) (v2 s)) (v3 s).

Example siphash_vector_7 :
  sipHash13 (byte_of_code <$> seqZ 0 7) 0 0 = Ok 0x2F098AB0C751325A.
Proof. vm_compute. reflexivity. Qed.
Example siphash_vector_63 :
  sipHash13 (byte_of_code <$> seqZ 0 63) 0 0 = Ok 0x385D3E39E5F37359.
Proof. vm_compute. reflexivity. Qed.
Example siphash_vector_text :
  sipHash13 (bstr "user:1000:session") 0 0 = Ok 0xF3AEE0B115FA8CB6.
Proof. vm_compute. reflexivity. Qed.
Example siphash_spec_vector_63 :
  siphash_spec 1 3 (byte_of_code <$> seqZ 0 63) 0 0 = 0x385D3E39E5F37359.
Proof. vm_compute. reflexivity. Qed.

(** ** Lemmas *)

Lemma le_combine_range l : 0 ≤ le_combine l < 256 ^ zlen l.
Proof.
  induction l as [|b l IH]; [done|]. cbn [le_combine length].
  rewrite Nat2Z.inj_succ, Z.pow_succ_r by lia. pose proof (code_range b). lia.
Qed.

Lemma le_words_cons8 (a l : bytes) :
  length a = 8%nat → le_words (a ++ l) = le_combine a :: le_words l.
Proof. intros. do 8 (destruct a as [|? a]; [done|]). by destruct a. Qed.

Lemma round_sip_round s : round s = sip_round s.
Proof. by destruct s. Qed.

Lemma sip_init_start k0 k1 : sip_init k0 k1 = sip_start k0 k1.
Proof. reflexivity. Qed.

Lemma compress_sip_compress w s : compress w s = sip_compress 1 s w.
Proof. unfold compress, sip_compress. cbn [Nat.iter]. by rewrite round_sip_round. Qed.

Lemma sip_words_loop_spec n fuel pre w t s i e :
  length w = (8 * n)%nat → (n < fuel)%nat → i = zlen pre → e = i + zlen w →
  sip_words_loop fuel (pre ++ w ++ t) i e s = Ok (foldl (sip_compress 1) s (le_words w)).
Proof.
  revert fuel pre w s i. induction n as [|n IH]; intros fuel pre w s i Hw Hf Hi He.
  - destruct w; [|done]. destruct fuel; [lia|].
    cbn [sip_words_loop]. by rewrite (proj2 (Z.eqb_eq i e)) by (cbn in He; lia).
  - destruct fuel as [|fuel]; [lia|]. cbn [sip_words_loop].
    rewrite (proj2 (Z.eqb_neq i e)) by lia. unfold load64le.
    rewrite (proj2 (Z.leb_le 0 _)), (proj2 (Z.leb_le (_ + 8) _)) by (rewrite ?length_app; lia).
    cbn [andb rbind].
    assert (∃ a w', w = a ++ w' ∧ length a = 8%nat) as (a & w' & -> & Ha).
    { exists (take 8 w), (drop 8 w). rewrite take_drop, length_take. split; [done|lia]. }
    rewrite length_app in Hw, He. rewrite le_words_cons8 by done.
    assert (slice (pre ++ (a ++ w') ++ t) i 8 = a) as ->.
    { rewrite slice_app_r, <-app_assoc, slice_app_l by lia.
      replace (i - zlen pre) with 0 by lia. apply slice_whole. lia. }
    rewrite <-(app_assoc a), (app_assoc pre).
    rewrite (IH fuel (pre ++ a) w' (compress (le_combine a) s)); [done|lia|lia| |lia].
    rewrite length_app. lia.
Qed.

Lemma land_not7 z : 0 ≤ z < 2 ^ 64 → Z.land z (SIZE_MAX - 7) = z - z mod 8.
Proof.
  intros Hz. change (SIZE_MAX - 7) with (Z.ldiff (Z.ones 64) (Z.ones 3)).
  assert (Z.land z (Z.ldiff (Z.ones 64) (Z.ones 3)) =
          Z.ldiff (Z.land z (Z.ones 64)) (Z.ones 3)) as ->.
  { apply Z.bits_inj'. intros i Hi. rewrite !Z.land_spec, !Z.ldiff_spec, Z.land_spec.
    by destruct (Z.testbit z i). }
  rewrite Z.land_ones, Z.mod_small, Z.ldiff_ones_r by lia.
  rewrite Z.shiftl_mul_pow2, Z.shiftr_div_pow2 by lia. change (2 ^ 3) with 8.
  pose proof (Z.div_mod z 8). lia.
Qed.

Lemma lor_disjoint a b k : 0 ≤ k → 0 ≤ b < 2 ^ k → Z.lor (a * 2 ^ k) b = a * 2 ^ k + b.
Proof.
  intros Hk Hb. rewrite <-Z.add_lor_land.
  assert (Z.land (a * 2 ^ k) b = 0) as ->; [|lia].
  apply Z.bits_inj'. intros i Hi. rewrite Z.land_spec, Z.bits_0.
  destruct (Z.lt_ge_cases i k).
  - by rewrite Z.mul_pow2_bits_low.
  - rewrite (testbit_high b k) by lia. apply andb_false_r.
Qed.

(** What the tail switch adds: byte by byte, the next lower digit in base 256. *)
Lemma lor_next_digit B c k :
  0 ≤ k → Z.lor (B * 2 ^ (8 * (k + 1))) (Z.shiftl (code c) (8 * k)) =
          (B * 256 + code c) * 2 ^ (8 * k).
Proof.
  intros. pose proof (code_range c).
  replace (8 * (k + 1)) with (8 + 8 * k) by lia. rewrite Z.pow_add_r by lia.
  rewrite Z.shiftl_mul_pow2, Z.mul_assoc by lia.
  assert (0 < 2 ^ (8 * k)) by (apply Z.pow_pos_nonneg; lia).
  replace (B * 2 ^ 8 * 2 ^ (8 * k)) with (B * 2 ^ (8 + 8 * k)) by (rewrite Z.pow_add_r; lia).
  rewrite lor_disjoint; [rewrite Z.pow_add_r by lia; ring|lia|].
  rewrite Z.pow_add_r by lia. change (2 ^ 8) with 256. nia.
Qed.

Lemma at_app_r {A} (l s : list A) i : 0 ≤ i → at_ (l ++ s) (zlen l + i) = at_ s i.
Proof.
  intros. unfold at_. rewrite !(proj2 (Z.leb_le 0 _)) by lia.
  rewrite lookup_app_r by lia. by replace (Z.to_nat (zlen l + i) - length l)%nat with (Z.to_nat i) by lia.
Qed.

Lemma tail_case_taken (p w t : bytes) j b c :
  p = w ++ t → 1 ≤ j ≤ zlen t → t !! Z.to_nat (j - 1) = Some c →
  ∀ B, b = B * 2 ^ (8 * j) →
  tail_case p (zlen w) (zlen t) j b = Ok ((B * 256 + code c) * 2 ^ (8 * (j - 1))).
Proof.
  intros -> Hj Hc B ->. unfold tail_case. rewrite (proj2 (Z.leb_le j _)) by lia.
  rewrite at_app_r by lia. rewrite (proj2 (at_Ok t (j - 1) c)) by (split; [lia|done]).
  cbn [rbind]. replace (8 * j) with (8 * (j - 1 + 1)) by lia. by rewrite lor_next_digit by lia.
Qed.

Lemma tail_case_skipped (p w t : bytes) j b B :
  zlen t < j → 1 ≤ j → b = B * 2 ^ (8 * j) →
  tail_case p (zlen w) (zlen t) j b = Ok ((B * 256 + code x00) * 2 ^ (8 * (j - 1))).
Proof.
  intros Hj Hj1 ->. unfold tail_case. rewrite (proj2 (Z.leb_gt j _)) by lia.
  replace (8 * j) with (8 + 8 * (j - 1)) by lia. rewrite Z.pow_add_r by lia.
  change (2 ^ 8) with 256. change (code x00) with 0. f_equal. ring.
Qed.

(** One step of the switch appends the zero-padded byte [j - 1] of the tail. *)
Lemma tail_case_step (w t : bytes) j B :
  1 ≤ j ≤ 7 →
  tail_case (w ++ t) (zlen w) (zlen t) j (B * 2 ^ (8 * j)) =
    Ok ((B * 256 + code (default x00 (t !! Z.to_nat (j - 1)))) * 2 ^ (8 * (j - 1))).
Proof.
  intros Hj. destruct (Z.le_gt_cases j (zlen t)).
  - destruct (lookup_lt_is_Some_2 t (Z.to_nat (j - 1))) as [c Hc]; [lia|].
    rewrite Hc. apply tail_case_taken; [done|lia|done|done].
  - rewrite lookup_ge_None_2 by lia. apply tail_case_skipped; [lia|lia|done].
Qed.

Lemma le_words_app n (a l : bytes) :
  length a = (8 * n)%nat → le_words (a ++ l) = le_words a ++ le_words l.
Proof.
  revert a. induction n as [|n IH]; intros a Ha; [destruct a; [done|cbn in Ha; lia]|].
  assert (∃ x y, a = x ++ y ∧ length x = 8%nat) as (x & y & -> & Hx).
  { exists (take 8 a), (drop 8 a). rewrite take_drop, length_take. split; [done|lia]. }
  rewrite length_app in Ha. rewrite <-app_assoc, (le_words_cons8 x (y ++ l)), (le_words_cons8 x y), IH by lia. done.
Qed.

Lemma le_combine_pad_tail (t : bytes) L :
  (length t < 8)%nat → 0 ≤ L < 256 →
  let d i := code (default x00 (t !! i)) in
  le_words (t ++ replicate (7 - length t) x00 ++ [byte_of_code L]) =
    [((((((L * 256 + d 6%nat) * 256 + d 5%nat) * 256 + d 4%nat) * 256 + d 3%nat) * 256
        + d 2%nat) * 256 + d 1%nat) * 256 + d 0%nat].
Proof.
  intros Ht HL.
  do 8 (destruct t as [|? t];
        [cbn [length app replicate Nat.sub le_words le_combine lookup list_lookup default id];
         rewrite code_byte_of_code by done; change (code x00) with 0; f_equal; lia|]).
  cbn in Ht. lia.
Qed.

(** A message is its whole words and a tail shorter than a word. *)
Lemma split_words (p : bytes) :
  ∃ n w t, p = w ++ t ∧ length w = (8 * n)%nat ∧ (length t < 8)%nat ∧
           length t = (length p mod 8)%nat.
Proof.
  pose proof (Nat.div_mod_eq (length p) 8). pose proof (Nat.mod_upper_bound (length p) 8).
  exists (length p / 8)%nat, (take (8 * (length p / 8)) p), (drop (8 * (length p / 8)) p).
  rewrite take_drop, length_take, length_drop. split_and!; [done|lia..].
Qed.

Lemma sipHash13_spec p k0 k1 :
  zlen p < 2 ^ 64 → sipHash13 p k0 k1 = Ok (siphash_spec 1 3 p k0 k1).
Proof.
  intros Hp. destruct (split_words p) as (n & w & t & -> & Hw & Ht & Hm).
  pose proof (length_app w t) as Hlen. unfold sipHash13, siphash_spec, sip_pad.
  rewrite sip_init_start.
  rewrite <-Hm. set (L := zlen (w ++ t)) in *.
  assert (L mod 8 = zlen t) as HL8.
  { subst L. rewrite Hlen, Nat2Z.inj_add, Hw. rewrite Nat2Z.inj_mul.
    rewrite Z.add_comm, Z.mul_comm, Z.mod_add by lia. apply Z.mod_small. lia. }
  assert (Z.land L (SIZE_MAX - 7) = zlen w) as -> by (rewrite land_not7; lia).
  assert (Z.land L 7 = zlen t) as ->.
  { change 7 with (Z.ones 3). by rewrite Z.land_ones by lia. }
  assert (u64 (Z.shiftl L 56) = (L mod 256) * 2 ^ (8 * 7)) as ->.
  { unfold u64. rewrite Z.shiftl_mul_pow2 by lia. change (2 ^ 64) with (256 * 2 ^ 56).
    rewrite Z.mul_mod_distr_r by lia. done. }
  rewrite (sip_words_loop_spec n _ [] w t) by (cbn; lia). cbn [rbind].
  do 7 (rewrite tail_case_step by lia; cbn [rbind];
        match goal with |- context [tail_case _ _ _ ?j (_ * 2 ^ (8 * ?k))] => change k with j
                   | |- context [?x * 2 ^ (8 * (?k - 1))] => change (x * 2 ^ (8 * (k - 1))) with (x * 1)
        end).
  rewrite <-app_assoc, (le_words_app n), le_combine_pad_tail, foldl_app
    by (lia || (apply Z.mod_pos_bound; lia)).
  cbn [foldl Nat.iter]. by rewrite compress_sip_compress, Z.mul_1_r, !round_sip_round.
Qed.

Lemma sip_round_range s :
  let r := sip_round s in
  0 ≤ v0 r < 2 ^ 64 ∧ 0 ≤ v1 r < 2 ^ 64 ∧ 0 ≤ v2 r < 2 ^ 64 ∧ 0 ≤ v3 r < 2 ^ 64.
Proof.
  destruct s. cbn -[u64 Z.lxor rotl Z.pow]. unfold rotl.
  refine (conj _ (conj _ (conj _ _))); try (apply lxor_range; [lia| |]); apply u64_range.
Qed.

(** The hash of a key under a seed: SipHash-1-3 keyed with the first two draws
    of the generator. *)
Definition key_hash (p : bytes) (seed : Z) : Z :=
  let '(state, k0) := splitmix64 seed in
  let '(_, k1) := splitmix64 state in
  siphash_spec 1 3 p k0 k1.

Lemma hashBytes_ok p seed : zlen p < 2 ^ 64 → hashBytes p seed = Ok (key_hash p seed).
Proof.
  intros. unfold hashBytes, key_hash.
  destruct (splitmix64 seed) as [st k0]. destruct (splitmix64 st) as [? k1].
  by apply sipHash13_spec.
Qed.

Lemma siphash_range m k0 k1 : 0 ≤ siphash_spec 1 3 m k0 k1 < 2 ^ 64.
Proof.
  unfold siphash_spec. set (s := Nat.iter 3 sip_round _).
  assert (∃ s', s = sip_round s') as [s' ->] by (by eexists (sip_round (sip_round _))).
  pose proof (sip_round_range s') as (?&?&?&?). set (r := sip_round s') in *. clearbody r.
  repeat (apply lxor_range; [lia| |]); done.
Qed.

Lemma key_hash_range p seed : 0 ≤ key_hash p seed < 2 ^ 64.
Proof.
  unfold key_hash. destruct (splitmix64 seed) as [st k0]. destruct (splitmix64 st).
  apply siphash_range.
Qed.

(** C37: [hashBytes] reads no byte outside its input and returns the textbook
    SipHash-1-3 of the message, under the 128-bit key that two [splitmix64]
    draws make of the seed; the result is a 64-bit word. *)
Theorem hashBytes_is_siphash (p : bytes) (seed : Z) (Hp : zlen p < 2 ^ 64) :
  let k0 := splitmix64 seed in
  let k1 := splitmix64 k0.1 in
  ∃ h, hashBytes p seed = Ok h ∧ h = siphash_spec 1 3 p k0.2 k1.2 ∧ 0 ≤ h < 2 ^ 64.
Proof.
  exists (key_hash p seed). split; [by apply hashBytes_ok|]. split; [|apply key_hash_range].
  cbv zeta. unfold key_hash. destruct (splitmix64 seed) as [st k0]. cbn [fst snd].
  by destruct (splitmix64 st).
Qed.

Lemma hashBytes_is_siphash_witness :
  zlen (bstr "key:000000000042") < 2 ^ 64 ∧
  let k0 := splitmix64 7 in
  let k1 := splitmix64 k0.1 in
  ∃ h, hashBytes (bstr "key:000000000042") 7 = Ok h ∧
       h = siphash_spec 1 3 (bstr "key:000000000042") k0.2 k1.2 ∧ 0 ≤ h < 2 ^ 64.
Proof.
  split; [vm_compute; reflexivity|].
  apply (hashBytes_is_siphash (bstr "key:000000000042") 7). vm_compute; reflexivity.
Defined.

(** From here on only the range of the hash matters; conversion must not unfold
    it. *)
#[global] Opaque key_hash.
