(* ===== verification/Buffer.v ===== *)
(** * Growable byte buffer ([src/core/buffer.cpp])

    The buffer of a connection: a vector with a read and a write cursor.  The
    abstraction is the byte string [readable] returns; every operation is shown
    to implement the queue operation it stands for, and to stay inside the
    vector. *)

From Stdlib Require Import ZArith Lia Strings.Byte.
From stdpp Require Import base list numbers strings.
From S2P Require Import Prelude.

Local Open Scope Z_scope.

Module Buf.

Record Buffer := mk { buf_ : bytes; readIdx_ : Z; writeIdx_ : Z }.

Definition kDefaultCapacity : Z := 16 * 1024.

(** [std::vector<char>::resize]: new elements are value-initialised. *)
Definition resize (v : bytes) (n : Z) : result bytes :=
  check (n <=? MAX_VECTOR) or FLength;
  Ok (take (Z.to_nat n) v ++ replicate (Z.to_nat n - length v) x00).

Definition make (initialCapacity : Z) : result Buffer :=
  let* v := resize [] initialCapacity in
  Ok (mk v 0 0).

Definition size (b : Buffer) : Z := u64 (writeIdx_ b - readIdx_ b).

Definition readable (b : Buffer) : bytes := slice (buf_ b) (readIdx_ b) (size b).

Definition empty (b : Buffer) : bool := readIdx_ b =? writeIdx_ b.

Definition capacity (b : Buffer) : Z := zlen (buf_ b).

Definition writableBytes (b : Buffer) : Z := u64 (zlen (buf_ b) - writeIdx_ b).

(** [memmove(data, data + readIdx_, size())], then both cursors rebased. *)
Definition compact (b : Buffer) : result Buffer :=
  let curSize := size b in
  check (readIdx_ b + curSize <=? zlen (buf_ b)) or FBounds;
  let* v := store_at (buf_ b) 0 (slice (buf_ b) (readIdx_ b) curSize) in
  Ok (mk v 0 curSize).

Definition ensureWritable (n : Z) (b : Buffer) : result Buffer :=
  if n <=? writableBytes b then Ok b
  else
    let* b := compact b in
    if n <=? writableBytes b then Ok b
    else
      let* v := resize (buf_ b) (Z.max (u64 (2 * capacity b)) (u64 (size b + n))) in
      Ok (mk v (readIdx_ b) (writeIdx_ b)).

Definition commit (n : Z) (b : Buffer) : result Buffer :=
  check n <=? writableBytes b or FAssert;
  Ok (mk (buf_ b) (readIdx_ b) (u64 (writeIdx_ b + n))).

Definition consume (n : Z) (b : Buffer) : result Buffer :=
  check n <=? size b or FAssert;
  let b := mk (buf_ b) (u64 (readIdx_ b + n)) (writeIdx_ b) in
  if empty b then Ok (mk (buf_ b) 0 0) else Ok b.

(** Bytes stored from [writePtr()] on, by [memcpy] or by [read(2)]. *)
Definition fill (s : bytes) (b : Buffer) : result Buffer :=
  let* v := store_at (buf_ b) (writeIdx_ b) s in
  Ok (mk v (readIdx_ b) (writeIdx_ b)).

Definition append (s : bytes) (b : Buffer) : result Buffer :=
  match s with
  | [] => Ok b
  | _ =>
      let n := zlen s in
      let* b := ensureWritable n b in
      let* b := fill s b in
      commit n b
  end.

Definition appendByte (c : byte) (b : Buffer) : result Buffer :=
  let* b := ensureWritable 1 b in
  let* b := fill [c] b in
  commit 1 b.

Definition clear (b : Buffer) : Buffer := mk (buf_ b) 0 0.

(** ** Well-formedness

    The cursors are ordered inside the vector, and the vector is far from the
    address space: growth at most doubles what the content needs, so a content
    below [2 ^ 61] bytes keeps the vector below [2 ^ 62]. *)

Definition kMaxContent : Z := 2 ^ 61.

Record wf (b : Buffer) : Prop := {
  wf_read : 0 ≤ readIdx_ b;
  wf_order : readIdx_ b ≤ writeIdx_ b;
  wf_write : writeIdx_ b ≤ zlen (buf_ b);
  wf_cap : zlen (buf_ b) ≤ 2 ^ 62;
}.

Ltac destruct_wf :=
  repeat match goal with
  | H : wf ?b |- _ => destruct H as [? ? ? ?]
  end.

Lemma size_wf b : wf b → size b = writeIdx_ b - readIdx_ b.
Proof. intros. destruct_wf. unfold size, u64. apply Z.mod_small. lia. Qed.

Lemma writable_wf b : wf b → writableBytes b = zlen (buf_ b) - writeIdx_ b.
Proof. intros. destruct_wf. unfold writableBytes, u64. apply Z.mod_small. lia. Qed.

Lemma readable_length b : wf b → zlen (readable b) = size b.
Proof.
  intros Hb. pose proof (size_wf b Hb). destruct_wf. unfold readable.
  apply slice_length; lia.
Qed.

Lemma empty_readable b : wf b → empty b = true ↔ readable b = [].
Proof.
  intros Hb. pose proof (readable_length b Hb) as Hl. rewrite (size_wf b Hb) in Hl.
  unfold empty. rewrite Z.eqb_eq. split; intros H.
  - apply length_zero_iff_nil. lia.
  - rewrite H in Hl. cbn in Hl. lia.
Qed.

Lemma buffer_make_spec n :
  0 ≤ n ≤ 2 ^ 62 →
  returns (make n) (λ b, wf b ∧ readable b = [] ∧ capacity b = n).
Proof.
  intros Hn. unfold make, resize. rewrite (proj2 (Z.leb_le _ _)) by (unfold MAX_VECTOR; lia).
  cbn [rbind returns]. rewrite take_nil, Nat.sub_0_r. unfold capacity. cbn -[replicate].
  rewrite length_replicate. split_and!; [|done|lia].
  split; cbn -[replicate]; rewrite ?length_replicate; lia.
Qed.

Lemma compact_spec b :
  wf b →
  returns (compact b) (λ b', wf b' ∧ readable b' = readable b ∧ readIdx_ b' = 0 ∧
                             writeIdx_ b' = size b ∧ length (buf_ b') = length (buf_ b)).
Proof.
  intros Hb. pose proof (size_wf b Hb) as Hs. pose proof (readable_length b Hb) as Hr.
  destruct_wf. unfold compact. rewrite (proj2 (Z.leb_le _ _)) by lia.
  fold (readable b). destruct (store_at_inside (buf_ b) 0 (readable b)) as (v & -> & Hl & _ & Hv & _);
    [lia|lia|].
  cbn [rbind returns buf_ readIdx_ writeIdx_].
  assert (wf (mk v 0 (size b))) as Hwf by (split; cbn; lia).
  split_and!; try done. unfold readable at 1. rewrite (size_wf _ Hwf). cbn [buf_ readIdx_ writeIdx_].
  by rewrite Z.sub_0_r, <-Hr.
Qed.

Lemma resize_grow v n :
  zlen v ≤ n → n ≤ MAX_VECTOR →
  resize v n = Ok (v ++ replicate (Z.to_nat n - length v) x00).
Proof.
  intros. unfold resize. rewrite (proj2 (Z.leb_le _ _)) by lia. by rewrite take_ge by lia.
Qed.

Lemma ensureWritable_spec n b :
  wf b → 0 ≤ n → size b + n ≤ kMaxContent →
  returns (ensureWritable n b)
    (λ b', wf b' ∧ readable b' = readable b ∧ n ≤ writableBytes b').
Proof.
  intros Hb Hn Hmax. unfold ensureWritable. destruct (Z.leb_spec n (writableBytes b)); [done|].
  pose proof (size_wf b Hb) as Hs0. eapply returns_bind; [by apply compact_spec|].
  intros b1 (Hb1 & Hr1 & Hi1 & Hw1 & Hl1). destruct (Z.leb_spec n (writableBytes b1)); [done|].
  pose proof (writable_wf b1 Hb1). pose proof (size_wf b1 Hb1) as Hs.
  destruct Hb1 as [????], Hb as [????]. unfold capacity, kMaxContent, u64 in *.
  rewrite !Z.mod_small by lia. rewrite resize_grow by (unfold MAX_VECTOR; lia).
  cbn [rbind returns buf_ readIdx_ writeIdx_].
  set (v := buf_ b1 ++ _). assert (zlen v = Z.max (2 * zlen (buf_ b1)) (size b1 + n)) as Hv.
  { subst v. rewrite length_app, length_replicate. lia. }
  assert (wf (mk v (readIdx_ b1) (writeIdx_ b1))) as Hwf by (split; cbn; lia).
  split_and!; [done| |].
  - rewrite <-Hr1. unfold readable. rewrite (size_wf _ Hwf), Hs. cbn [buf_ readIdx_ writeIdx_].
    apply slice_app_l; lia.
  - rewrite (writable_wf _ Hwf). cbn [buf_ writeIdx_]. lia.
Qed.

Lemma fill_spec s b :
  wf b → zlen s ≤ writableBytes b →
  returns (fill s b)
    (λ b', wf b' ∧ readable b' = readable b ∧ writableBytes b' = writableBytes b ∧
           slice (buf_ b') (writeIdx_ b') (zlen s) = s).
Proof.
  intros Hb Hs. pose proof (writable_wf b Hb) as Hw. pose proof (size_wf b Hb) as Hsz.
  destruct Hb as [????]. unfold fill.
  destruct (store_at_inside (buf_ b) (writeIdx_ b) s) as (v & -> & Hl & Ht & Hv & _); [lia..|].
  cbn [rbind returns].
  assert (wf (mk v (readIdx_ b) (writeIdx_ b))) as Hwf by (split; cbn; lia).
  split_and!; [done| | |done].
  - unfold readable. rewrite (size_wf _ Hwf), Hsz. cbn [buf_ readIdx_ writeIdx_].
    rewrite <-(slice_take v _ _ (writeIdx_ b)), <-(slice_take (buf_ b) _ _ (writeIdx_ b)) by lia.
    by rewrite Ht.
  - rewrite (writable_wf _ Hwf). cbn [buf_ writeIdx_]. lia.
Qed.

(** Publishing bytes that were stored past the write cursor. *)
Lemma commit_spec s b :
  wf b → zlen s ≤ writableBytes b → slice (buf_ b) (writeIdx_ b) (zlen s) = s →
  returns (commit (zlen s) b) (λ b', wf b' ∧ readable b' = readable b ++ s).
Proof.
  intros Hb Hs Hsl. pose proof (writable_wf b Hb) as Hw. pose proof (size_wf b Hb) as Hsz.
  destruct Hb as [????]. unfold commit. rewrite (proj2 (Z.leb_le _ _)) by done.
  unfold u64. rewrite Z.mod_small by lia. cbn [returns].
  assert (wf (mk (buf_ b) (readIdx_ b) (writeIdx_ b + zlen s))) as Hwf by (split; cbn; lia).
  split; [done|]. unfold readable. rewrite (size_wf _ Hwf), Hsz. cbn [buf_ readIdx_ writeIdx_].
  replace (writeIdx_ b + zlen s - readIdx_ b) with (writeIdx_ b - readIdx_ b + zlen s) by lia.
  rewrite slice_split by lia. f_equal. rewrite <-Hsl at 2. f_equal. lia.
Qed.

Lemma fill_commit_spec s b :
  wf b → zlen s ≤ writableBytes b →
  returns (let* b := fill s b in commit (zlen s) b) (λ b', wf b' ∧ readable b' = readable b ++ s).
Proof.
  intros Hb Hs. eapply returns_bind; [by apply fill_spec|].
  intros b1 (Hb1 & Hr & Hw & Hsl). rewrite <-Hr. apply commit_spec; [done|lia|done].
Qed.

Lemma append_spec s b :
  wf b → size b + zlen s ≤ kMaxContent →
  returns (append s b) (λ b', wf b' ∧ readable b' = readable b ++ s).
Proof.
  intros Hb Hmax. destruct s as [|c s].
  { simpl. by rewrite app_nil_r. }
  unfold append. eapply returns_bind; [apply ensureWritable_spec; [done|lia|done]|].
  intros b1 (Hb1 & Hr & Hw). rewrite <-Hr. by apply fill_commit_spec.
Qed.

Lemma appendByte_spec c b :
  wf b → size b + 1 ≤ kMaxContent →
  returns (appendByte c b) (λ b', wf b' ∧ readable b' = readable b ++ [c]).
Proof.
  intros Hb Hmax. unfold appendByte.
  eapply returns_bind; [apply ensureWritable_spec; [done|lia|done]|].
  intros b1 (Hb1 & Hr & Hw). rewrite <-Hr. by apply (fill_commit_spec [c]).
Qed.

Lemma consume_spec n b :
  wf b → 0 ≤ n ≤ size b →
  returns (consume n b) (λ b', wf b' ∧ readable b' = drop (Z.to_nat n) (readable b)).
Proof.
  intros Hb Hn. pose proof (size_wf b Hb) as Hsz. pose proof (readable_length b Hb) as Hl.
  destruct Hb as [????]. unfold consume. rewrite (proj2 (Z.leb_le _ _)) by lia.
  unfold u64. rewrite Z.mod_small by lia. unfold empty. cbn [buf_ readIdx_ writeIdx_].
  destruct (Z.eqb_spec (readIdx_ b + n) (writeIdx_ b)); cbn [returns].
  - split; [split; cbn; lia|]. rewrite drop_ge by lia. done.
  - assert (wf (mk (buf_ b) (readIdx_ b + n) (writeIdx_ b))) as Hwf by (split; cbn; lia).
    split; [done|]. unfold readable. rewrite (size_wf _ Hwf), Hsz. cbn [buf_ readIdx_ writeIdx_].
    unfold slice. rewrite Z2Nat.inj_add, <-drop_drop by lia.
    rewrite (take_drop_commute _ _ (Z.to_nat n)). do 2 f_equal. lia.
Qed.

Lemma buffer_clear_spec b : wf b → wf (clear b) ∧ readable (clear b) = [] ∧ capacity (clear b) = capacity b.
Proof. intros [????]. split_and!; [split; cbn; lia|done|done]. Qed.

(** ** The buffer implements a byte queue *)

(** What a caller does to a buffer, and what it means for the bytes queued in
    it.  [Received s] is a [read(2)] of [s] straight into the writable tail:
    room for [n] bytes is made first, and [s] fits in it. *)
Inductive op :=
| Append (s : bytes)
| AppendByte (c : byte)
| Received (n : Z) (s : bytes)
| Consume (n : Z)
| Clear.

Definition run_op (o : op) (b : Buffer) : result Buffer :=
  match o with
  | Append s => append s b
  | AppendByte c => appendByte c b
  | Received n s =>
      let* b := ensureWritable n b in
      let* b := fill s b in
      commit (zlen s) b
  | Consume n => consume n b
  | Clear => Ok (clear b)
  end.

Fixpoint run_ops (os : list op) (b : Buffer) : result Buffer :=
  match os with
  | [] => Ok b
  | o :: os => let* b := run_op o b in run_ops os b
  end.

(** The queue of bytes the operations mean, [None] when an operation is used
    outside its contract or the content passes [kMaxContent]. *)
Definition queue_op (o : op) (q : bytes) : option bytes :=
  match o with
  | Append s => if zlen q + zlen s <=? kMaxContent then Some (q ++ s) else None
  | AppendByte c => if zlen q + 1 <=? kMaxContent then Some (q ++ [c]) else None
  | Received n s =>
      if (zlen s <=? n) && (zlen q + n <=? kMaxContent) then Some (q ++ s) else None
  | Consume n => if (0 <=? n) && (n <=? zlen q) then Some (drop (Z.to_nat n) q) else None
  | Clear => Some []
  end.

Fixpoint queue_ops (os : list op) (q : bytes) : option bytes :=
  match os with
  | [] => Some q
  | o :: os => match queue_op o q with Some q => queue_ops os q | None => None end
  end.

Lemma run_op_spec o b q :
  wf b → queue_op o (readable b) = Some q →
  returns (run_op o b) (λ b', wf b' ∧ readable b' = q).
Proof.
  intros Hb. pose proof (readable_length b Hb) as Hl. destruct o as [s|c|n s|n|]; simpl; rewrite ?Hl.
  - destruct (Z.leb_spec (size b + zlen s) kMaxContent); [|done]. intros [= <-]. by apply append_spec.
  - destruct (Z.leb_spec (size b + 1) kMaxContent); [|done]. intros [= <-]. by apply appendByte_spec.
  - destruct (Z.leb_spec (zlen s) n), (Z.leb_spec (size b + n) kMaxContent); try done.
    intros [= <-]. eapply returns_bind; [apply ensureWritable_spec; [done|lia|done]|].
    intros b1 (Hb1 & Hr & Hw). rewrite <-Hr. apply fill_commit_spec; [done|lia].
  - destruct (Z.leb_spec 0 n), (Z.leb_spec n (size b)); try done.
    intros [= <-]. apply consume_spec; [done|lia].
  - intros [= <-]. by destruct (buffer_clear_spec b Hb) as (? & ? & ?).
Qed.

(** C30: the buffer refines a byte queue.  From a well-formed buffer, any
    sequence of operations used within their contract runs to the end with no
    assertion failure, no access outside the vector and no exception, keeps the
    buffer well-formed, and leaves exactly the queued bytes readable. *)
Theorem buffer_refines_queue (os : list op) (b : Buffer) (q : bytes)
    (Hb : wf b) (Hq : queue_ops os (readable b) = Some q) :
  ∃ b', run_ops os b = Ok b' ∧ wf b' ∧ readable b' = q.
Proof.
  apply returns_inv. revert b Hb Hq. induction os as [|o os IH]; intros b Hb; simpl.
  { intros [= <-]. done. }
  destruct (queue_op o (readable b)) as [q1|] eqn:E; [|done]. intros Hq.
  eapply returns_bind; [by apply run_op_spec|]. intros b1 [Hb1 <-]. by apply IH.
Qed.

Lemma buffer_refines_queue_witness :
  wf (mk (replicate 4 x00) 0 0) ∧
  queue_ops [Append (bstr "abcd"); Consume 3; Received 6 (bstr "efghij"); Consume 2]
            (readable (mk (replicate 4 x00) 0 0)) = Some (bstr "fghij") ∧
  ∃ b', run_ops [Append (bstr "abcd"); Consume 3; Received 6 (bstr "efghij"); Consume 2]
                (mk (replicate 4 x00) 0 0) = Ok b' ∧ wf b' ∧ readable b' = bstr "fghij".
Proof.
  assert (wf (mk (replicate 4 x00) 0 0)) as Hwf by (split; cbn; lia).
  split; [done|]. split; [vm_compute; reflexivity|].
  apply (buffer_refines_queue
           [Append (bstr "abcd"); Consume 3; Received 6 (bstr "efghij"); Consume 2]
           (mk (replicate 4 x00) 0 0) (bstr "fghij")); [done|vm_compute; reflexivity].
Defined.

End Buf.
