(* ===== verification/Resp.v ===== *)
(** * RESP requests and replies ([src/core/resp.cpp], [src/core/resp.h])

    The request parser, both wire forms, and the reply encoders, as the source
    computes them: offsets into the input, [npos] arithmetic, unchecked array
    writes and all.  [RespSpec] and [RespFacts] relate them to a reference
    parser. *)

From Stdlib Require Import ZArith Lia Strings.Byte.
From stdpp Require Import base list numbers strings.
From S2P Require Import Prelude Buffer.

Local Open Scope Z_scope.

(** ** [std::string_view] *)

Definition npos : Z := SIZE_MAX.

(** First index from [i] on whose byte satisfies [P]; [npos] when there is
    none. *)
Fixpoint find_idx (P : byte → bool) (s : bytes) (i : Z) : Z :=
  match s with
  | [] => npos
  | b :: s => if P b then i else find_idx P s (i + 1)
  end.

Definition sv_find_if (P : byte → bool) (s : bytes) (from : Z) : Z :=
  if from <=? zlen s then find_idx P (drop (Z.to_nat from) s) from else npos.

(** [substr] clips the count and throws [out_of_range] past the end. *)
Definition sv_substr (s : bytes) (pos n : Z) : result bytes :=
  check pos <=? zlen s or FBounds;
  Ok (slice s pos (Z.min n (zlen s - pos))).

Definition is_byte (c b : byte) : bool := Byte.eqb b c.

(** ** Data *)

Inductive Error := kArgLength | kBulkLength | kInlineLength.

Definition errorToString (e : Error) : bytes :=
  match e with
  | kArgLength => bstr "ERR Protocol error: invalid multibulk length"
  | kBulkLength => bstr "ERR Protocol error: invalid bulk length"
  | kInlineLength => bstr "ERR Protocol error: too big inline request"
  end.

Definition kMaxArgs : Z := 16.
Definition kMaxBulkLength : Z := 64 * 1024 * 1024.
Definition kMaxInlineLength : Z := 64 * 1024.
Definition kMaxHeaderLength : Z := 32.

Record Command := mkCommand { argv : list bytes; argc : Z }.

Inductive ParseStatus := PS_kOk | PS_kIncomplete | PS_kProtocolError.

Record ParseResult := mkParseResult { status : ParseStatus; consumed : Z; error : bytes }.

Inductive LineStatus := LS_kFound | LS_kIncomplete | LS_kTooLong | LS_kBadTrailer.

Record Line := mkLine { lstatus : LineStatus; text : bytes; next : Z }.

Inductive Framing := kStrict | kInline.

Definition framing_eqb (a b : Framing) : bool :=
  match a, b with kStrict, kStrict | kInline, kInline => true | _, _ => false end.

(** ** Request parsing *)

Definition incomplete : ParseResult := mkParseResult PS_kIncomplete 0 [].

Definition fail (e : Error) : ParseResult :=
  mkParseResult PS_kProtocolError 0 (errorToString e).

(** [cmd.argv[i] = v], unchecked in the source. *)
Definition set_arg (i : Z) (v : bytes) (out : Command) : result Command :=
  check (0 <=? i) && (i <? zlen (argv out)) or FBounds;
  Ok (mkCommand (<[Z.to_nat i := v]> (argv out)) (argc out)).

Definition clear (cmd : Command) : Command :=
  mkCommand (replicate (length (argv cmd)) []) 0.

(** [fill_n] from slot [n] on, over [kMaxArgs - n] slots. *)
Definition publish (n : Z) (out : Command) : result Command :=
  check (0 <=? n) && (n <=? kMaxArgs) && (kMaxArgs <=? zlen (argv out)) or FBounds;
  Ok (mkCommand (take (Z.to_nat n) (argv out) ++ replicate (Z.to_nat (kMaxArgs - n)) []
                 ++ drop (Z.to_nat kMaxArgs) (argv out)) n).

Fixpoint readInt_loop (s : bytes) (v : Z) : option Z :=
  match s with
  | [] => Some v
  | c :: s =>
      if (code c <? code "0"%byte) || (code "9"%byte <? code c) then None
      else
        let d := code c - code "0"%byte in
        if (SIZE_MAX - d) / 10 <? v then None
        else readInt_loop s (u64 (v * 10 + d))
  end.

Definition readInt (s : bytes) : option Z :=
  match s with
  | [] => None
  | c :: _ =>
      if bool_decide (s = bstr "0") then Some 0
      else if (code c <? code "1"%byte) || (code "9"%byte <? code c) then None
      else readInt_loop s 0
  end.

Definition headerValue (line : bytes) (type : byte) (limit : Z) : option Z :=
  match line with
  | [] => None
  | c :: rest =>
      if negb (is_byte type c) then None
      else
        match readInt rest with
        | None => None
        | Some v => if limit <? v then None else Some v
        end
  end.

Definition takeBytes (in_ : bytes) (at_off len : Z) : result Line :=
  let res := mkLine LS_kIncomplete [] 0 in
  if zlen in_ <? at_off then Ok res
  else
    let avail := u64 (zlen in_ - at_off) in
    if (avail <? 2) || (u64 (avail - 2) <? len) then Ok res
    else
      let* c0 := at_ in_ (u64 (at_off + len)) in
      let* bad :=
        (if negb (is_byte CR c0) then Ok true
         else let* c1 := at_ in_ (u64 (at_off + len + 1)) in Ok (negb (is_byte LF c1))) in
      if bad then Ok (mkLine LS_kBadTrailer [] 0)
      else
        let* t := sv_substr in_ at_off len in
        Ok (mkLine LS_kFound t (u64 (at_off + len + 2))).

(** The terminator search of [readLine]: [Some (lf, cr)] where the loop breaks,
    [None] where [find] returns [npos].  Each round moves past one LF, so the
    window bounds the rounds. *)
Fixpoint readLine_loop (fuel : nat) (scan : bytes) (framing : Framing) (from : Z) :
    result (option (Z * bool)) :=
  match fuel with
  | O => Fault FFuel
  | S fuel =>
      let lf := sv_find_if (is_byte LF) scan from in
      if lf =? npos then Ok None
      else
        let* cr :=
          (if 0 <? lf then let* p := at_ scan (lf - 1) in Ok (is_byte CR p) else Ok false) in
        if cr || framing_eqb framing kInline then Ok (Some (lf, cr))
        else readLine_loop fuel scan framing (u64 (lf + 1))
  end.

Definition readLine (in_ : bytes) (at_off maxLen : Z) (framing : Framing) : result Line :=
  let res := mkLine LS_kIncomplete [] 0 in
  if zlen in_ <=? at_off then Ok res
  else
    let avail := u64 (zlen in_ - at_off) in
    let window := Z.min avail (maxLen + 2) in
    let* scan := sv_substr in_ at_off window in
    let* found := readLine_loop (S (length scan)) scan framing 0 in
    match found with
    | None =>
        let* tooLong :=
          (if maxLen + 2 <=? avail then Ok true
           else if avail =? maxLen + 1 then
             let* last := at_ scan (zlen scan - 1) in Ok (negb (is_byte CR last))
           else Ok false) in
        if tooLong then Ok (mkLine LS_kTooLong [] 0) else Ok res
    | Some (lf, cr) =>
        let len := if cr then lf - 1 else lf in
        if maxLen <? len then Ok (mkLine LS_kTooLong [] 0)
        else
          let* t := sv_substr in_ at_off len in
          Ok (mkLine LS_kFound t (u64 (at_off + lf + 1)))
    end.

(** The element loop of [parseArray], [todo] elements to go from index [i]:
    the cursor after the last one, or the result to return early. *)
Fixpoint array_loop (todo : nat) (in_ : bytes) (i cursor : Z) (out : Command) :
    result ((ParseResult + Z) * Command) :=
  match todo with
  | O => Ok (inr cursor, out)
  | S todo =>
      let* elem := readLine in_ cursor kMaxHeaderLength kStrict in
      match lstatus elem with
      | LS_kIncomplete => Ok (inl incomplete, out)
      | LS_kTooLong => Ok (inl (fail kBulkLength), out)
      | _ =>
          match headerValue (text elem) "$"%byte kMaxBulkLength with
          | None => Ok (inl (fail kBulkLength), out)
          | Some len =>
              let* payload := takeBytes in_ (next elem) len in
              match lstatus payload with
              | LS_kIncomplete => Ok (inl incomplete, out)
              | LS_kBadTrailer => Ok (inl (fail kBulkLength), out)
              | _ =>
                  let* out := set_arg i (text payload) out in
                  array_loop todo in_ (i + 1) (next payload) out
              end
          end
      end
  end.

Definition parseArray (in_ : bytes) (out : Command) : result (ParseResult * Command) :=
  let* header := readLine in_ 0 kMaxHeaderLength kStrict in
  match lstatus header with
  | LS_kIncomplete => Ok (incomplete, out)
  | LS_kTooLong => Ok (fail kArgLength, out)
  | _ =>
      match headerValue (text header) "*"%byte kMaxArgs with
      | None => Ok (fail kArgLength, out)
      | Some count =>
          let* (r, out) := array_loop (Z.to_nat count) in_ 0 (next header) out in
          match r with
          | inl res => Ok (res, out)
          | inr cursor =>
              let* out := publish count out in
              Ok (mkParseResult PS_kOk cursor [], out)
          end
      end
  end.

Definition is_blank (b : byte) : bool := is_byte " "%byte b || is_byte "009"%byte b.

(** The token loop of [parseInline]: the argument count, or the early failure.
    Each round but the last takes at least one byte of the line. *)
Fixpoint inline_loop (fuel : nat) (text : bytes) (n pos : Z) (out : Command) :
    result ((ParseResult + Z) * Command) :=
  match fuel with
  | O => Fault FFuel
  | S fuel =>
      let pos := sv_find_if (λ b, negb (is_blank b)) text pos in
      if pos =? npos then Ok (inr n, out)
      else
        let start := pos in
        let pos := sv_find_if is_blank text start in
        if n =? kMaxArgs then Ok (inl (fail kArgLength), out)
        else
          let* tok := sv_substr text start (u64 (pos - start)) in
          let* out := set_arg n tok out in
          inline_loop fuel text (n + 1) pos out
  end.

Definition parseInline (in_ : bytes) (out : Command) : result (ParseResult * Command) :=
  let* line := readLine in_ 0 kMaxInlineLength kInline in
  match lstatus line with
  | LS_kIncomplete => Ok (incomplete, out)
  | LS_kTooLong => Ok (fail kInlineLength, out)
  | _ =>
      let* (r, out) := inline_loop (S (length (text line))) (text line) 0 0 out in
      match r with
      | inl res => Ok (res, out)
      | inr n =>
          let* out := publish n out in
          Ok (mkParseResult PS_kOk (next line) [], out)
      end
  end.

Definition parseCommand (in_ : bytes) (out : Command) : result (ParseResult * Command) :=
  match in_ with
  | [] => Ok (incomplete, clear out)
  | front :: _ =>
      let* (res, out) :=
        (if is_byte "*"%byte front then parseArray in_ out else parseInline in_ out) in
      match status res with
      | PS_kOk => Ok (res, out)
      | _ => Ok (res, clear out)
      end
  end.

(** ** Reply encoding *)

Definition digit (d : Z) : byte := byte_of_code (code "0"%byte + d).

(** Decimal digits of a non-negative number, most significant first. *)
Fixpoint dec (fuel : nat) (n : Z) : bytes :=
  match fuel with
  | O => []
  | S fuel => (if n <? 10 then [] else dec fuel (n / 10)) ++ [digit (n mod 10)]
  end.

(** [std::to_chars], base 10.  Twenty digits hold any 64-bit magnitude. *)
Definition to_chars (v : Z) : bytes :=
  if v <? 0 then "-"%byte :: dec 20 (- v) else dec 20 v.

Definition appendLine (type : byte) (body : bytes) (out : Buf.Buffer) : result Buf.Buffer :=
  let* out := Buf.appendByte type out in
  let* out := Buf.append body out in
  Buf.append CRLF out.

Definition appendNumber (type : byte) (v : Z) (out : Buf.Buffer) : result Buf.Buffer :=
  let digits := to_chars v in
  check zlen digits <=? 24 or FAssert;
  appendLine type digits out.

Module reply.

Definition simpleString (s : bytes) (out : Buf.Buffer) : result Buf.Buffer :=
  check sv_find_if (λ b, is_byte CR b || is_byte LF b) s 0 =? npos or FAssert;
  appendLine "+"%byte s out.

Definition error (msg : bytes) (out : Buf.Buffer) : result Buf.Buffer :=
  appendLine "-"%byte msg out.

Definition integer (v : Z) (out : Buf.Buffer) : result Buf.Buffer :=
  appendNumber ":"%byte v out.

Definition bulk (s : bytes) (out : Buf.Buffer) : result Buf.Buffer :=
  let* out := appendNumber "$"%byte (zlen s) out in
  let* out := Buf.append s out in
  Buf.append CRLF out.

Definition nullBulk (out : Buf.Buffer) : result Buf.Buffer :=
  Buf.append (bstr "$-1" ++ CRLF) out.

Definition arrayHeader (n : Z) (out : Buf.Buffer) : result Buf.Buffer :=
  appendNumber "*"%byte n out.

End reply.

(** ** Examples from the test suite *)

Definition crlf_text (s : string) : bytes :=
  mjoin ((λ b, if is_byte "|"%byte b then CRLF else [b]) <$> bstr s).

Definition emptyCommand : Command := mkCommand (replicate 16 []) 0.

Example parses_set :
  parseCommand (crlf_text "*3|$3|SET|$3|foo|$3|bar|PING|") emptyCommand =
    Ok (mkParseResult PS_kOk 31 [],
        mkCommand ([bstr "SET"; bstr "foo"; bstr "bar"] ++ replicate 13 []) 3).
Proof. vm_compute. reflexivity. Qed.
Example parses_inline :
  parseCommand (crlf_text "  SET   foo   bar  |") emptyCommand =
    Ok (mkParseResult PS_kOk 21 [],
        mkCommand ([bstr "SET"; bstr "foo"; bstr "bar"] ++ replicate 13 []) 3).
Proof. vm_compute. reflexivity. Qed.
Example rejects_17_args :
  parseCommand (crlf_text "*17|$4|MSET|") emptyCommand = Ok (fail kArgLength, emptyCommand).
Proof. vm_compute. reflexivity. Qed.
Example rejects_bad_trailer :
  parseCommand (crlf_text "*1|$3|foo!|") emptyCommand = Ok (fail kBulkLength, emptyCommand).
Proof. vm_compute. reflexivity. Qed.
Example incomplete_line :
  parseCommand (bstr "PING") emptyCommand = Ok (incomplete, emptyCommand).
Proof. vm_compute. reflexivity. Qed.
Example encodes_min :
  to_chars INT64_MIN = bstr "-9223372036854775808".
Proof. vm_compute. reflexivity. Qed.
