(* ===== verification/RespSpec.v ===== *)
(** * Reference parser for RESP requests

    The request grammar as a small parser over the unread bytes, built from
    combinators.  [Incremental] is what a parser of a TCP stream owes its
    caller: a verdict depends only on the bytes it consumed, more input never
    changes a verdict, and less input gives [More].  It is closed under
    sequencing, so the whole grammar has it by composition. *)

From Stdlib Require Import ZArith Lia Strings.Byte.
From stdpp Require Import base list numbers strings.
From S2P Require Import Prelude Resp.

Local Open Scope Z_scope.

Lemma is_byte_true c b : is_byte c b = true ↔ b = c.
Proof.
  unfold is_byte. split; [apply Byte.byte_dec_bl|]. intros ->. by apply Byte.byte_dec_lb.
Qed.

Lemma is_byte_refl c : is_byte c c = true.
Proof. by apply is_byte_true. Qed.

Lemma is_byte_false c b : is_byte c b = false ↔ b ≠ c.
Proof. rewrite <-is_byte_true. by destruct (is_byte c b). Qed.

(** ** Outcomes and combinators *)

Inductive outcome (A : Type) :=
| Done (a : A) (n : Z)
| More
| Bad (e : Error).
Arguments Done {A} _ _.
Arguments More {A}.
Arguments Bad {A} _.

Definition pret {A} (a : A) (s : bytes) : outcome A := Done a 0.

Definition plift {A} (o : option A) (e : Error) (s : bytes) : outcome A :=
  match o with Some a => Done a 0 | None => Bad e end.

Definition pbind {A B} (P : bytes → outcome A) (f : A → bytes → outcome B) (s : bytes) : outcome B :=
  match P s with
  | Done a n =>
      match f a (drop (Z.to_nat n) s) with
      | Done b m => Done b (n + m)
      | More => More
      | Bad e => Bad e
      end
  | More => More
  | Bad e => Bad e
  end.

Class Incremental {A} (P : bytes → outcome A) : Prop := {
  inc_len s a n : P s = Done a n → 0 ≤ n ≤ zlen s;
  inc_local s a n : P s = Done a n → P (take (Z.to_nat n) s) = Done a n;
  inc_ext s e a n : P s = Done a n → P (s ++ e) = Done a n;
  inc_bad s e x : P s = Bad x → P (s ++ e) = Bad x;
  inc_pre s a n k : P s = Done a n → 0 ≤ k < n → P (take (Z.to_nat k) s) = More;
}.

#[global] Instance incremental_pret {A} (a : A) : Incremental (pret a).
Proof. split; unfold pret; intros; simplify_eq; try done; lia. Qed.

#[global] Instance incremental_plift {A} (o : option A) e : Incremental (plift o e).
Proof. split; unfold plift; intros; destruct o; simplify_eq; try done; lia. Qed.

(** A verdict is the same on every prefix that holds the consumed bytes. *)
Lemma inc_take {A} (P : bytes → outcome A) `{!Incremental P} s a n k :
  P s = Done a n → n ≤ k → P (take (Z.to_nat k) s) = Done a n.
Proof.
  intros H Hk. pose proof (inc_len _ _ _ H).
  replace (take (Z.to_nat k) s)
    with (take (Z.to_nat n) s ++ take (Z.to_nat (k - n)) (drop (Z.to_nat n) s)).
  - by apply inc_ext, inc_local.
  - rewrite take_take_drop. f_equal. lia.
Qed.

Lemma drop_app_Z (s e : bytes) n : 0 ≤ n ≤ zlen s → drop (Z.to_nat n) (s ++ e) = drop (Z.to_nat n) s ++ e.
Proof. intros. apply drop_app_le. lia. Qed.

Lemma drop_take_Z (s : bytes) n k :
  0 ≤ n ≤ k → drop (Z.to_nat n) (take (Z.to_nat k) s) = take (Z.to_nat (k - n)) (drop (Z.to_nat n) s).
Proof. intros. rewrite (take_drop_commute s). do 2 f_equal. lia. Qed.

(** Sequencing; the continuation need only be incremental for the values the
    first parser returns. *)
Lemma incremental_pbind_strong {A B} (P : bytes → outcome A) (f : A → bytes → outcome B) :
  Incremental P → (∀ s a n, P s = Done a n → Incremental (f a)) → Incremental (pbind P f).
Proof.
  intros HP Hf. split; unfold pbind.
  - intros s b n. destruct (P s) as [a n1| |] eqn:E; [|done..]. specialize (Hf _ _ _ E).
    destruct (f a _) as [b' m| |] eqn:E2; [|done..]. intros [= -> <-].
    pose proof (inc_len _ _ _ E). pose proof (inc_len _ _ _ E2) as Hm.
    rewrite length_drop in Hm. lia.
  - intros s b n. destruct (P s) as [a n1| |] eqn:E; [|done..]. specialize (Hf _ _ _ E).
    destruct (f a _) as [b' m| |] eqn:E2; [|done..]. intros [= -> <-].
    pose proof (inc_len _ _ _ E). pose proof (inc_len _ _ _ E2) as Hm.
    rewrite (inc_take P s a n1) by (done || lia). rewrite drop_take_Z by lia.
    replace (n1 + m - n1) with m by lia. by rewrite (inc_local _ _ _ E2).
  - intros s e b n. destruct (P s) as [a n1| |] eqn:E; [|done..]. specialize (Hf _ _ _ E).
    pose proof (inc_len _ _ _ E). rewrite (inc_ext s e a n1 E), drop_app_Z by done.
    destruct (f a _) as [b' m| |] eqn:E2; [|done..]. intros [= -> <-].
    by rewrite (inc_ext _ e _ _ E2).
  - intros s e x. destruct (P s) as [a n1| |x'] eqn:E; [|done|].
    + specialize (Hf _ _ _ E). pose proof (inc_len _ _ _ E).
      rewrite (inc_ext s e a n1 E), drop_app_Z by done.
      destruct (f a _) as [| |x'] eqn:E2; [done..|]. intros [= ->]. by rewrite (inc_bad _ e _ E2).
    + intros [= ->]. by rewrite (inc_bad _ e _ E).
  - intros s b n k. destruct (P s) as [a n1| |] eqn:E; [|done..]. specialize (Hf _ _ _ E).
    destruct (f a _) as [b' m| |] eqn:E2; [|done..]. intros [= -> <-] Hk.
    pose proof (inc_len _ _ _ E). destruct (Z.lt_ge_cases k n1).
    + by rewrite (inc_pre s a n1 k E) by lia.
    + rewrite (inc_take P s a n1) by (done || lia). rewrite drop_take_Z by lia.
      by rewrite (inc_pre _ _ _ (k - n1) E2) by lia.
Qed.

#[global] Instance incremental_pbind {A B} (P : bytes → outcome A) (f : A → bytes → outcome B) :
  Incremental P → (∀ a, Incremental (f a)) → Incremental (pbind P f).
Proof. intros. by apply incremental_pbind_strong. Qed.

(** ** Lines *)

(** First line terminator: its LF index and whether a CR precedes it.
    [prev_cr] says whether the byte before [s] is a CR, [i] is the index of the
    first byte of [s]. *)
Fixpoint scan_term (fr : Framing) (prev_cr : bool) (s : bytes) (i : Z) : option (Z * bool) :=
  match s with
  | [] => None
  | b :: s =>
      if is_byte LF b && (prev_cr || framing_eqb fr kInline) then Some (i, prev_cr)
      else scan_term fr (is_byte CR b) s (i + 1)
  end.

Definition ends_with_cr (s : bytes) : bool :=
  match last s with Some b => is_byte CR b | None => false end.

Definition line_p (fr : Framing) (maxLen : Z) (err : Error) (s : bytes) : outcome bytes :=
  match scan_term fr false (take (Z.to_nat (maxLen + 2)) s) 0 with
  | Some (lf, cr) =>
      let len := if cr then lf - 1 else lf in
      if maxLen <? len then Bad err else Done (take (Z.to_nat len) s) (lf + 1)
  | None =>
      if (maxLen + 2 <=? zlen s) || ((zlen s =? maxLen + 1) && negb (ends_with_cr s))
      then Bad err else More
  end.

Lemma scan_term_range fr pc s i lf cr :
  scan_term fr pc s i = Some (lf, cr) → i ≤ lf < i + zlen s.
Proof.
  revert pc i. induction s as [|b s IH]; intros pc i; [done|]. cbn [scan_term length].
  case_match; [intros [= <- <-]; lia|]. intros Hs%IH. lia.
Qed.

(** Where the terminator is: nothing earlier ends the line, and [cr] reads the
    byte before the LF. *)
Lemma scan_term_Some fr pc s i lf cr :
  scan_term fr pc s i = Some (lf, cr) →
  s !! Z.to_nat (lf - i) = Some LF ∧
  cr = (if lf =? i then pc else ends_with_cr (take (Z.to_nat (lf - i)) s)) ∧
  (fr = kStrict → cr = true).
Proof.
  revert pc i. induction s as [|b s IH]; intros pc i; [done|]. cbn [scan_term].
  destruct (is_byte LF b && _) eqn:E.
  - intros [= <- <-]. apply andb_true_iff in E as [E1 E2]. rewrite Z.sub_diag, Z.eqb_refl.
    apply is_byte_true in E1 as ->. split_and!; [done..|]. intros ->. by destruct pc.
  - intros H. pose proof (scan_term_range _ _ _ _ _ _ H). destruct (IH _ _ H) as (H1 & H2 & H3).
    rewrite (proj2 (Z.eqb_neq lf i)) by lia.
    replace (Z.to_nat (lf - i)) with (S (Z.to_nat (lf - (i + 1)))) by lia.
    split_and!; [done| |done]. rewrite H2. destruct (Z.eqb_spec lf (i + 1)) as [->|].
    + rewrite Z.sub_diag. done.
    + unfold ends_with_cr. cbn [take]. rewrite last_cons.
      destruct (last (take _ s)) eqn:El; [done|]. apply last_None in El.
      apply (f_equal length) in El. rewrite length_take in El. cbn in El. lia.
Qed.

Lemma scan_term_app fr pc s e i :
  scan_term fr pc (s ++ e) i =
    match scan_term fr pc s i with
    | Some r => Some r
    | None => scan_term fr (match last s with Some b => is_byte CR b | None => pc end) e (i + zlen s)
    end.
Proof.
  revert pc i. induction s as [|b s IH]; intros pc i.
  { cbn [app scan_term last length]. by rewrite Z.add_0_r. }
  cbn [scan_term app]. destruct (is_byte LF b && _); [done|]. rewrite IH.
  destruct (scan_term fr _ s _); [done|].
  rewrite last_cons. replace (i + 1 + zlen s) with (i + zlen (b :: s)) by (cbn [length]; lia).
  by destruct (last s).
Qed.

(** Cutting the input before or at the terminator leaves no terminator. *)
Lemma scan_term_take fr pc s i lf cr k :
  scan_term fr pc s i = Some (lf, cr) →
  (lf - i < Z.of_nat k → scan_term fr pc (take k s) i = Some (lf, cr)) ∧
  (Z.of_nat k ≤ lf - i → scan_term fr pc (take k s) i = None).
Proof.
  intros H. rewrite <-(take_drop k s), scan_term_app in H.
  destruct (scan_term fr pc (take k s) i) as [[lf' cr']|] eqn:E.
  - simplify_eq. split; [done|]. intros. apply scan_term_range in E. rewrite length_take in E. lia.
  - split; [|done]. intros Hk. apply scan_term_range in H.
    rewrite length_take, length_drop in H. lia.
Qed.

(** The window only bounds the work: the verdict is the one on the whole
    input. *)
Lemma line_p_whole fr M err s :
  0 ≤ M →
  line_p fr M err s =
    match scan_term fr false s 0 with
    | Some (lf, cr) =>
        let len := if cr : bool then lf - 1 else lf in
        if M <? len then Bad err else Done (take (Z.to_nat len) s) (lf + 1)
    | None =>
        if (M + 2 <=? zlen s) || ((zlen s =? M + 1) && negb (ends_with_cr s))
        then Bad err else More
    end.
Proof.
  intros HM. unfold line_p.
  destruct (scan_term fr false s 0) as [[lf cr]|] eqn:E.
  - pose proof (scan_term_range _ _ _ _ _ _ E).
    destruct (scan_term_take _ _ _ _ _ _ (Z.to_nat (M + 2)) E) as [H1 H2].
    destruct (Z.lt_ge_cases lf (M + 2)); [by rewrite H1 by lia|].
    rewrite H2, (proj2 (Z.leb_le (M + 2) _)) by lia. cbn [orb].
    destruct cr; by rewrite (proj2 (Z.ltb_lt _ _)) by lia.
  - rewrite <-(take_drop (Z.to_nat (M + 2)) s), scan_term_app in E at 1.
    by destruct (scan_term fr false (take _ s) 0).
Qed.

Lemma scan_term_cr_len fr s lf cr :
  scan_term fr false s 0 = Some (lf, cr) →
  0 ≤ (if cr then lf - 1 else lf) ≤ lf ∧ lf < zlen s.
Proof.
  intros H. pose proof (scan_term_range _ _ _ _ _ _ H) as ?.
  destruct (scan_term_Some _ _ _ _ _ _ H) as (_ & Hcr & _). destruct cr; [|lia].
  destruct (Z.eqb_spec lf 0); [done|]. lia.
Qed.

(** The length of the text before a terminator. *)
Abbreviation text_len lf cr := (if (cr : bool) then (lf - 1)%Z else lf%Z).

(** No terminator, and no legal line can still arrive. *)
Definition overlong (M : Z) (s : bytes) : Prop :=
  M + 2 ≤ zlen s ∨ zlen s = M + 1 ∧ ends_with_cr s = false.

Lemma overlong_bool M s :
  ((M + 2 <=? zlen s) || ((zlen s =? M + 1) && negb (ends_with_cr s))) = true ↔ overlong M s.
Proof.
  unfold overlong. by rewrite orb_true_iff, andb_true_iff, Z.leb_le, Z.eqb_eq, negb_true_iff.
Qed.

Lemma line_p_Done fr M err s t n :
  0 ≤ M →
  line_p fr M err s = Done t n ↔
  ∃ lf cr, scan_term fr false s 0 = Some (lf, cr) ∧ text_len lf cr ≤ M ∧
           t = take (Z.to_nat (text_len lf cr)) s ∧ n = lf + 1.
Proof.
  intros HM. rewrite line_p_whole by done.
  destruct (scan_term fr false s 0) as [[lf cr]|]; cbn zeta.
  - destruct (Z.ltb_spec M (text_len lf cr)); naive_solver lia.
  - destruct (_ || _); naive_solver.
Qed.

Lemma line_p_Bad fr M err s x :
  0 ≤ M →
  line_p fr M err s = Bad x ↔
  x = err ∧ match scan_term fr false s 0 with
            | Some (lf, cr) => M < text_len lf cr
            | None => overlong M s
            end.
Proof.
  intros HM. rewrite line_p_whole by done.
  destruct (scan_term fr false s 0) as [[lf cr]|]; cbn zeta.
  - destruct (Z.ltb_spec M (text_len lf cr)); naive_solver lia.
  - rewrite <-overlong_bool. destruct (_ || _); naive_solver.
Qed.

Lemma line_p_More fr M err s :
  0 ≤ M → scan_term fr false s 0 = None → ¬ overlong M s → line_p fr M err s = More.
Proof.
  intros HM E HL. rewrite line_p_whole, E by done.
  rewrite <-overlong_bool in HL. by destruct (_ || _).
Qed.

(** More input cannot rescue an overlong line. *)
Lemma line_p_Bad_ext fr M err s e x :
  0 ≤ M → line_p fr M err s = Bad x → line_p fr M err (s ++ e) = Bad x.
Proof.
  intros HM. rewrite !line_p_Bad, scan_term_app by done. intros [-> H]. split; [done|].
  destruct (scan_term fr false s 0) as [[lf cr]|]; [done|]. fold (ends_with_cr s).
  rewrite Z.add_0_l. destruct (scan_term fr (ends_with_cr s) e _) as [[lf cr]|] eqn:E2.
  - pose proof (scan_term_range _ _ _ _ _ _ E2).
    destruct (scan_term_Some _ _ _ _ _ _ E2) as (_ & Hcr & _).
    destruct cr, H as [|[H1 H2]]; try lia. destruct (Z.eqb_spec lf (zlen s)); [congruence|lia].
  - destruct e as [|b e]; [by rewrite app_nil_r|].
    left. rewrite length_app. cbn [length]. destruct H; lia.
Qed.

(** A line cut short of its terminator is not overlong. *)
Lemma line_p_Done_pre fr M err s t n k :
  0 ≤ M → line_p fr M err s = Done t n → 0 ≤ k < n →
  line_p fr M err (take (Z.to_nat k) s) = More.
Proof.
  intros HM (lf & cr & E & HMl & -> & ->)%line_p_Done Hk; [|done].
  pose proof (scan_term_cr_len _ _ _ _ E) as [??].
  destruct (scan_term_Some _ _ _ _ _ _ E) as (_ & Hcr & _).
  destruct (scan_term_take _ _ _ _ _ _ (Z.to_nat k) E) as [_ H2].
  apply line_p_More; [done|apply H2; lia|].
  unfold overlong. rewrite length_take, Nat.min_l, Z2Nat.id by lia.
  intros [?|[-> Hend]]; destruct cr; try lia.
  rewrite (proj2 (Z.eqb_neq lf 0)) in Hcr by lia.
  replace (lf - 0) with (M + 1) in Hcr by lia. congruence.
Qed.

#[global] Instance incremental_line_p fr M err : TCEq (0 <=? M) true → Incremental (line_p fr M err).
Proof.
  intros HM. assert (0 ≤ M) as HM0 by (apply Z.leb_le; by destruct HM). clear HM. split.
  - intros s a n (lf & cr & E & _ & _ & ->)%line_p_Done; [|done].
    pose proof (scan_term_range _ _ _ _ _ _ E). lia.
  - intros s a n (lf & cr & E & HM & -> & ->)%line_p_Done; [|done].
    pose proof (scan_term_cr_len _ _ _ _ E) as [??].
    apply line_p_Done; [done|]. exists lf, cr. split_and!; [|done| |done].
    + destruct (scan_term_take _ _ _ _ _ _ (Z.to_nat (lf + 1)) E) as [H1 _]. apply H1. lia.
    + rewrite take_take. f_equal. lia.
  - intros s e a n (lf & cr & E & HM & -> & ->)%line_p_Done; [|done].
    pose proof (scan_term_cr_len _ _ _ _ E) as [??].
    apply line_p_Done; [done|]. exists lf, cr. rewrite scan_term_app, E, take_app_le by lia. done.
  - intros s e x. by apply line_p_Bad_ext.
  - intros s a n k. by apply line_p_Done_pre.
Qed.

(** ** Payloads *)

Definition take_p (len : Z) (s : bytes) : outcome bytes :=
  if zlen s <? len + 2 then More
  else if bool_decide (slice s len 2 = CRLF) then Done (take (Z.to_nat len) s) (len + 2)
  else Bad kBulkLength.

Lemma incremental_take_p len : 0 ≤ len → Incremental (take_p len).
Proof.
  intros Hl. split; unfold take_p; intros s.
  - intros a n. destruct (Z.ltb_spec (zlen s) (len + 2)); [done|].
    case_bool_decide; [|done]. intros [= _ <-]. lia.
  - intros a n. destruct (Z.ltb_spec (zlen s) (len + 2)); [done|].
    case_bool_decide as E; [|done]. intros [= <- <-]. rewrite length_take.
    rewrite (proj2 (Z.ltb_ge _ _)) by lia. rewrite slice_take by lia.
    rewrite bool_decide_true by done. rewrite take_take. do 2 f_equal. lia.
  - intros e a n. destruct (Z.ltb_spec (zlen s) (len + 2)); [done|].
    case_bool_decide as E; [|done]. intros [= <- <-]. rewrite length_app.
    rewrite (proj2 (Z.ltb_ge _ _)) by lia. rewrite slice_app_l by lia.
    rewrite bool_decide_true by done. by rewrite take_app_le by lia.
  - intros e x. destruct (Z.ltb_spec (zlen s) (len + 2)); [done|].
    case_bool_decide as E; [done|]. intros [= <-]. rewrite length_app.
    rewrite (proj2 (Z.ltb_ge _ _)) by lia. rewrite slice_app_l by lia.
    by rewrite bool_decide_false.
  - intros a n k. destruct (Z.ltb_spec (zlen s) (len + 2)); [done|].
    case_bool_decide as E; [|done]. intros [= <- <-] Hk.
    by rewrite length_take, (proj2 (Z.ltb_lt _ _)) by lia.
Qed.

(** ** The grammar *)

Definition header_p (type : byte) (limit : Z) (err : Error) : bytes → outcome Z :=
  pbind (line_p kStrict kMaxHeaderLength err) (λ t, plift (headerValue t type limit) err).

Definition elem_p : bytes → outcome bytes :=
  pbind (header_p "$"%byte kMaxBulkLength kBulkLength) take_p.

Fixpoint many_p (n : nat) : bytes → outcome (list bytes) :=
  match n with
  | O => pret []
  | S n => pbind elem_p (λ a, pbind (many_p n) (λ l, pret (a :: l)))
  end.

Definition array_p : bytes → outcome (list bytes) :=
  pbind (header_p "*"%byte kMaxArgs kArgLength) (λ c, many_p (Z.to_nat c)).

(** Maximal runs of non-blank bytes; [acc] is the run in progress. *)
Fixpoint tokens (acc s : bytes) : list bytes :=
  match s with
  | [] => if bool_decide (acc = []) then [] else [acc]
  | b :: s =>
      if is_blank b then (if bool_decide (acc = []) then tokens [] s else acc :: tokens [] s)
      else tokens (acc ++ [b]) s
  end.

Definition inline_p : bytes → outcome (list bytes) :=
  pbind (line_p kInline kMaxInlineLength kInlineLength)
        (λ t, let toks := tokens [] t in
              plift (if zlen toks <=? kMaxArgs then Some toks else None) kArgLength).

Definition command_p (s : bytes) : outcome (list bytes) :=
  match s with
  | [] => More
  | b :: _ => if is_byte "*"%byte b then array_p s else inline_p s
  end.

(** ** The grammar is incremental *)

Lemma readInt_loop_range s v r : 0 ≤ v ≤ SIZE_MAX → readInt_loop s v = Some r → 0 ≤ r ≤ SIZE_MAX.
Proof.
  revert v. induction s as [|c s IH]; intros v Hv; cbn [readInt_loop]; [by intros [= <-]|].
  destruct (_ || _); [done|]. destruct (_ <? _); [done|]. apply IH.
  unfold u64, SIZE_MAX. pose proof (Z.mod_pos_bound (v * 10 + (code c - code "0"%byte)) (2 ^ 64)). lia.
Qed.

Lemma headerValue_range l t limit v : headerValue l t limit = Some v → 0 ≤ v ≤ limit.
Proof.
  unfold headerValue. destruct l as [|c l]; [done|]. destruct (negb _); [done|].
  destruct (readInt l) as [r|] eqn:E; [|done]. destruct (Z.ltb_spec limit r); [done|].
  intros [= <-]. split; [|done]. unfold readInt in E. destruct l as [|d l]; [done|].
  case_bool_decide; [by simplify_eq|]. destruct (_ || _); [done|].
  apply readInt_loop_range in E; [lia|unfold SIZE_MAX; lia].
Qed.

Lemma header_p_range t limit err s v n : header_p t limit err s = Done v n → 0 ≤ v ≤ limit.
Proof.
  unfold header_p, pbind. destruct (line_p _ _ _ s) as [l ?| |]; [|done..]. unfold plift.
  destruct (headerValue l t limit) eqn:E; [|done]. intros [= -> _].
  by apply headerValue_range in E.
Qed.

#[global] Instance incremental_header_p t limit err : Incremental (header_p t limit err).
Proof. unfold header_p. apply _. Qed.

#[global] Instance incremental_elem_p : Incremental elem_p.
Proof.
  apply incremental_pbind_strong; [apply _|]. intros s v n ?%header_p_range.
  apply incremental_take_p. lia.
Qed.

#[global] Instance incremental_many_p n : Incremental (many_p n).
Proof. induction n; cbn [many_p]; apply _. Qed.

#[global] Instance incremental_array_p : Incremental array_p.
Proof. unfold array_p. apply _. Qed.

#[global] Instance incremental_inline_p : Incremental inline_p.
Proof. unfold inline_p. apply _. Qed.

(** A complete line has at least its terminator. *)
Lemma line_first_pos {B} fr M err (f : bytes → bytes → outcome B) s b n :
  0 ≤ M → (∀ a, Incremental (f a)) → pbind (line_p fr M err) f s = Done b n → 0 < n.
Proof.
  intros HM Hf. unfold pbind. destruct (line_p fr M err s) as [t k| |] eqn:E; [|done..].
  apply line_p_Done in E as (lf & cr & E & _ & _ & ->); [|done].
  pose proof (scan_term_range _ _ _ _ _ _ E).
  destruct (f t _) eqn:E2; [|done..]. intros [= -> <-]. apply inc_len in E2. lia.
Qed.

Lemma command_p_pos s a n : command_p s = Done a n → 0 < n.
Proof.
  destruct s as [|b s]; [done|]. unfold command_p. case_match.
  - unfold array_p, pbind at 1. destruct (header_p _ _ _ _) as [v k| |] eqn:E; [|done..].
    apply line_first_pos in E; [|done|apply _].
    destruct (many_p _ _) eqn:E2; [|done..]. intros [= -> <-]. apply inc_len in E2. lia.
  - apply line_first_pos; [done|apply _].
Qed.

#[global] Instance incremental_command_p : Incremental command_p.
Proof.
  split.
  - intros s a n. destruct s as [|b s]; [done|]. unfold command_p. case_match; apply inc_len.
  - intros s a n H. pose proof (command_p_pos _ _ _ H). destruct s as [|b s]; [done|].
    revert H. destruct (Z.to_nat n) as [|n'] eqn:En; [lia|]. cbn [take command_p].
    rewrite <-(firstn_cons n' b s), <-En. case_match; apply inc_local.
  - intros s e a n. destruct s as [|b s]; [done|]. cbn [app command_p].
    rewrite (app_comm_cons s e b). case_match; apply inc_ext.
  - intros s e x. destruct s as [|b s]; [done|]. cbn [app command_p].
    rewrite (app_comm_cons s e b). case_match; apply inc_bad.
  - intros s a n k H Hk. destruct s as [|b s]; [done|].
    destruct (Z.to_nat k) as [|k'] eqn:Ek; [done|]. revert H. cbn [take command_p].
    rewrite <-(firstn_cons k' b s), <-Ek. intros H. revert H Hk. case_match; apply inc_pre.
Qed.
