(* ===== verification/RespFacts.v ===== *)
(** * The RESP parser implements the reference grammar

    Every routine of [Resp] is shown equal to its counterpart in [RespSpec]:
    no out-of-range access, no [size_t] wrap, no exhausted loop.  The
    properties of the parser the server relies on follow. *)

From Stdlib Require Import ZArith Lia Strings.Byte.
From stdpp Require Import base list numbers strings.
From S2P Require Import Prelude Buffer Resp RespSpec.

Local Open Scope Z_scope.

(** ** Searching *)

Lemma find_idx_None P s i :
  Forall (λ b, P b = false) s → find_idx P s i = npos.
Proof. intros H. revert i. induction H as [|b s Hb _ IH]; intros i; cbn; [done|]. by rewrite Hb. Qed.

Lemma find_idx_Some P a b c i :
  Forall (λ b, P b = false) a → P b = true → find_idx P (a ++ b :: c) i = i + zlen a.
Proof.
  intros Ha Hb. revert i. induction Ha as [|x a Hx _ IH]; intros i; cbn [app find_idx length].
  - rewrite Hb. lia.
  - rewrite Hx, IH. lia.
Qed.

(** A list either has no match or splits at its first one. *)
Lemma first_match (P : byte → bool) s :
  Forall (λ b, P b = false) s ∨
  ∃ a b c, s = a ++ b :: c ∧ Forall (λ b, P b = false) a ∧ P b = true.
Proof.
  induction s as [|x s [IH|(a & b & c & -> & Ha & Hb)]]; [by left| |].
  - destruct (P x) eqn:E; [right; by exists [], x, s|left; by constructor].
  - right. destruct (P x) eqn:E; [by exists [], x, (a ++ b :: c)|].
    exists (x :: a), b, c. split_and!; [done|by constructor|done].
Qed.

Lemma sv_find_if_None P s from :
  0 ≤ from → Forall (λ b, P b = false) (drop (Z.to_nat from) s) → sv_find_if P s from = npos.
Proof. intros. unfold sv_find_if. case_match; [by apply find_idx_None|done]. Qed.

Lemma sv_find_if_Some P s from a b c :
  0 ≤ from → drop (Z.to_nat from) s = a ++ b :: c →
  Forall (λ b, P b = false) a → P b = true → sv_find_if P s from = from + zlen a.
Proof.
  intros Hf Hs Ha Hb. unfold sv_find_if.
  assert (from ≤ zlen s).
  { apply (f_equal length) in Hs. rewrite length_drop, length_app in Hs. cbn in Hs. lia. }
  rewrite (proj2 (Z.leb_le _ _)), Hs by done. by apply find_idx_Some.
Qed.

(** ** Lines *)

Lemma scan_term_no_LF fr pc a i :
  Forall (λ b, is_byte LF b = false) a → scan_term fr pc a i = None.
Proof.
  intros H. revert pc i. induction H as [|b a Hb _ IH]; intros pc i; cbn [scan_term]; [done|].
  by rewrite Hb, IH.
Qed.

Lemma ends_with_cr_at (s : bytes) i :
  0 < i ≤ zlen s →
  (let* p := at_ s (i - 1) in Ok (is_byte CR p)) = Ok (ends_with_cr (take (Z.to_nat i) s)).
Proof.
  intros Hi. destruct (at_inside s (i - 1)) as (x & -> & Hx); [lia|]. cbn [rbind].
  unfold ends_with_cr. rewrite last_lookup, length_take.
  rewrite lookup_take_lt by lia.
  replace (pred (Z.to_nat i `min` length s)) with (Z.to_nat (i - 1)) by lia. by rewrite Hx.
Qed.

Lemma readLine_loop_spec fuel scan fr from :
  0 ≤ from ≤ zlen scan → zlen scan < 2 ^ 63 → (length scan - Z.to_nat from < fuel)%nat →
  readLine_loop fuel scan fr from =
    Ok (scan_term fr (ends_with_cr (take (Z.to_nat from) scan)) (drop (Z.to_nat from) scan) from).
Proof.
  revert from. induction fuel as [|fuel IH]; intros from Hf Hs Hfuel; [lia|]. cbn [readLine_loop].
  destruct (first_match (is_byte LF) (drop (Z.to_nat from) scan)) as [Hno|(a & b & c & Hd & Ha & Hb)].
  { rewrite sv_find_if_None, Z.eqb_refl by (done || lia). by rewrite scan_term_no_LF. }
  rewrite (sv_find_if_Some _ _ _ a b c) by (done || lia). set (lf := from + zlen a).
  assert (zlen scan = from + zlen a + 1 + zlen c) as Hlen.
  { pose proof (f_equal length Hd) as Hl. rewrite length_drop, length_app in Hl. cbn in Hl. lia. }
  rewrite (proj2 (Z.eqb_neq lf npos)) by (unfold npos, SIZE_MAX; lia).
  (* the CR test reads the byte before the LF *)
  assert (take (Z.to_nat lf) scan = take (Z.to_nat from) scan ++ a) as Htake.
  { rewrite <-(take_drop (Z.to_nat from) scan) at 1. rewrite Hd.
    rewrite take_app_ge by (rewrite length_take; lia). f_equal.
    apply take_app_length'. rewrite length_take. lia. }
  assert ((if 0 <? lf then let* p := at_ scan (lf - 1) in Ok (is_byte CR p) else Ok false) =
          Ok (ends_with_cr (take (Z.to_nat lf) scan))) as ->.
  { destruct (Z.ltb_spec 0 lf); [apply ends_with_cr_at; lia|]. by replace lf with 0 by lia. }
  cbn [rbind]. rewrite Hd, scan_term_app, scan_term_no_LF by done. cbn [scan_term]. rewrite Hb.
  assert (match last a with Some b0 => is_byte CR b0
          | None => ends_with_cr (take (Z.to_nat from) scan) end =
          ends_with_cr (take (Z.to_nat lf) scan)) as ->.
  { rewrite Htake. unfold ends_with_cr. rewrite last_app. by destruct (last a). }
  cbn [andb]. fold lf. destruct (ends_with_cr (take (Z.to_nat lf) scan) || _); [done|].
  apply is_byte_true in Hb as ->. unfold u64. rewrite Z.mod_small by lia.
  rewrite IH by lia.
  assert (take (Z.to_nat (lf + 1)) scan = take (Z.to_nat lf) scan ++ [LF] ∧
          drop (Z.to_nat (lf + 1)) scan = c) as [-> ->].
  { replace (Z.to_nat (lf + 1)) with (S (Z.to_nat lf)) by lia.
    assert (drop (Z.to_nat lf) scan = LF :: c) as Hdl.
    { replace (Z.to_nat lf) with (Z.to_nat from + length a)%nat by lia.
      rewrite <-drop_drop, Hd. by apply drop_app_length. }
    split.
    - apply take_S_r. by rewrite <-(Nat.add_0_r (Z.to_nat lf)), <-lookup_drop, Hdl.
    - by rewrite <-Nat.add_1_r, <-drop_drop, Hdl. }
  unfold ends_with_cr at 1. by rewrite last_snoc.
Qed.

(** What a [Line] says about an outcome of the reference parser. *)
Definition line_of (at_off : Z) (o : outcome bytes) (bad : LineStatus) : Line :=
  match o with
  | Done t n => mkLine LS_kFound t (at_off + n)
  | More => mkLine LS_kIncomplete [] 0
  | Bad _ => mkLine bad [] 0
  end.

Lemma readLine_spec in_ at_off M fr err :
  0 ≤ at_off → 0 ≤ M < 2 ^ 62 → zlen in_ < 2 ^ 63 →
  readLine in_ at_off M fr =
    Ok (line_of at_off (line_p fr M err (drop (Z.to_nat at_off) in_)) LS_kTooLong).
Proof.
  intros Ha HM Hlen. unfold readLine. set (s := drop (Z.to_nat at_off) in_).
  destruct (Z.leb_spec (zlen in_) at_off).
  { subst s. rewrite drop_ge by lia. rewrite line_p_More; [done|lia|done|].
    unfold overlong. cbn. lia. }
  assert (zlen s = zlen in_ - at_off) as Hs by (subst s; rewrite length_drop; lia).
  unfold u64. rewrite Z.mod_small, <-Hs by lia.
  unfold sv_substr. rewrite (proj2 (Z.leb_le _ _)), <-Hs by lia. cbn [rbind].
  assert (∀ n, slice in_ at_off n = take (Z.to_nat n) s) as Hsl by done. rewrite Hsl.
  rewrite Z.min_l by lia.
  assert (take (Z.to_nat (Z.min (zlen s) (M + 2))) s = take (Z.to_nat (M + 2)) s) as ->.
  { destruct (Z.min_spec (zlen s) (M + 2)) as [[? ->]|[? ->]]; [|done].
    rewrite Nat2Z.id, !take_ge by lia. done. }
  set (w := take (Z.to_nat (M + 2)) s).
  assert (length w ≤ length s)%nat by (subst w; rewrite length_take; lia).
  rewrite readLine_loop_spec by lia. cbn [rbind]. rewrite drop_0.
  unfold line_p. fold w. change (ends_with_cr (take (Z.to_nat 0) w)) with false.
  destruct (scan_term fr false w 0) as [[lf cr]|] eqn:E.
  - pose proof (scan_term_range _ _ _ _ _ _ E). cbn zeta.
    pose proof (scan_term_cr_len _ _ _ _ E) as [??].
    destruct (M <? text_len lf cr); [done|]. rewrite Hsl.
    replace (Z.min _ _) with (text_len lf cr) by lia. cbn [rbind line_of].
    rewrite Z.mod_small by lia. do 2 f_equal. lia.
  - destruct (Z.leb_spec (M + 2) (zlen s)); [done|]. cbn [rbind orb].
    destruct (Z.eqb_spec (zlen s) (M + 1)); [|done]. cbn [andb].
    assert (w = s) as -> by (subst w; apply take_ge; lia).
    destruct (at_inside s (zlen s - 1)) as (x & -> & Hx); [lia|]. cbn [rbind].
    unfold ends_with_cr. rewrite last_lookup.
    replace (pred (length s)) with (Z.to_nat (zlen s - 1)) by lia. rewrite Hx.
    by destruct (is_byte CR x).
Qed.

Lemma takeBytes_spec in_ at_off len :
  0 ≤ at_off → 0 ≤ len ≤ SIZE_MAX → zlen in_ < 2 ^ 63 →
  takeBytes in_ at_off len =
    Ok (line_of at_off (take_p len (drop (Z.to_nat at_off) in_)) LS_kBadTrailer).
Proof.
  intros Ha Hl Hlen. unfold takeBytes, take_p. set (s := drop (Z.to_nat at_off) in_).
  destruct (Z.ltb_spec (zlen in_) at_off).
  { subst s. rewrite drop_ge by lia. by rewrite (proj2 (Z.ltb_lt _ _)) by (cbn; lia). }
  assert (zlen s = zlen in_ - at_off) as Hs by (subst s; rewrite length_drop; lia).
  unfold u64. rewrite (Z.mod_small (zlen in_ - _)), <-Hs by lia.
  destruct (Z.ltb_spec (zlen s) 2); [by rewrite (proj2 (Z.ltb_lt (zlen s) _)) by lia|].
  rewrite (Z.mod_small (zlen s - 2)) by lia. cbn [orb].
  destruct (Z.ltb_spec (zlen s - 2) len); [by rewrite (proj2 (Z.ltb_lt (zlen s) _)) by lia|].
  rewrite (proj2 (Z.ltb_ge (zlen s) _)), !Z.mod_small by lia.
  destruct (at_inside in_ (at_off + len)) as (c0 & -> & Hc0); [lia|]. cbn [rbind].
  destruct (at_inside in_ (at_off + len + 1)) as (c1 & -> & Hc1); [lia|]. cbn [rbind].
  assert (slice s len 2 = [c0; c1]) as ->.
  { unfold slice. subst s. rewrite drop_drop. apply list_eq. intros [|[|i]].
    - rewrite lookup_take_lt, lookup_drop by lia.
      by replace (Z.to_nat at_off + Z.to_nat len + 0)%nat with (Z.to_nat (at_off + len)) by lia; rewrite Hc0.
    - rewrite lookup_take_lt, lookup_drop by lia.
      by replace (Z.to_nat at_off + Z.to_nat len + 1)%nat with (Z.to_nat (at_off + len + 1)) by lia; rewrite Hc1.
    - rewrite lookup_take_ge by lia. done. }
  unfold CRLF. destruct (is_byte CR c0) eqn:E0; cbn [negb rbind].
  - destruct (is_byte LF c1) eqn:E1; cbn [negb].
    + apply is_byte_true in E0 as ->. apply is_byte_true in E1 as ->.
      rewrite bool_decide_true by done. unfold sv_substr.
      rewrite (proj2 (Z.leb_le _ _)), Z.min_l by lia. cbn [rbind line_of]. by rewrite Z.add_assoc.
    + apply is_byte_false in E1. rewrite bool_decide_false by congruence. done.
  - apply is_byte_false in E0. rewrite bool_decide_false by congruence. done.
Qed.

(** ** Commands *)

Lemma set_arg_spec i v out :
  0 ≤ i < zlen (argv out) →
  set_arg i v out = Ok (mkCommand (<[Z.to_nat i := v]> (argv out)) (argc out)).
Proof.
  intros. unfold set_arg.
  by rewrite (proj2 (Z.leb_le 0 i)), (proj2 (Z.ltb_lt i _)) by lia.
Qed.

(** [out'] is [out] with [args] stored from slot [i] on. *)
Definition stored (i : Z) (args : list bytes) (out out' : Command) : Prop :=
  length (argv out') = length (argv out) ∧
  take (Z.to_nat i + length args) (argv out') = take (Z.to_nat i) (argv out) ++ args.

Lemma stored_nil i out : stored i [] out out.
Proof. unfold stored. by rewrite Nat.add_0_r, app_nil_r. Qed.

Lemma stored_cons i a args out out' :
  0 ≤ i < zlen (argv out) →
  stored (i + 1) args (mkCommand (<[Z.to_nat i := a]> (argv out)) (argc out)) out' →
  stored i (a :: args) out out'.
Proof.
  unfold stored. cbn [argv length]. rewrite length_insert. intros Hi [Hl Ht]. split; [done|].
  replace (Z.to_nat i + S (length args))%nat with (Z.to_nat (i + 1) + length args)%nat by lia.
  rewrite Ht. replace (Z.to_nat (i + 1)) with (S (Z.to_nat i)) by lia.
  rewrite (take_S_r _ _ a) by (apply list_lookup_insert_eq; lia).
  rewrite take_insert_ge by lia. by rewrite <-app_assoc.
Qed.

(** The verdict of a loop or a parser against the reference outcome: the same
    verdict, and on success the arguments in their slots. *)
Definition agrees (i cursor : Z) (o : outcome (list bytes)) (out : Command)
    (r : (ParseResult + Z) * Command) : Prop :=
  match o with
  | Done args n => r.1 = inr (cursor + n) ∧ stored i args out r.2
  | More => r.1 = inl incomplete ∧ length (argv r.2) = length (argv out)
  | Bad e => r.1 = inl (fail e) ∧ length (argv r.2) = length (argv out)
  end.

Lemma array_loop_spec todo in_ i cursor out :
  0 ≤ i → i + Z.of_nat todo ≤ zlen (argv out) → 0 ≤ cursor → zlen in_ < 2 ^ 63 →
  returns (array_loop todo in_ i cursor out)
          (agrees i cursor (many_p todo (drop (Z.to_nat cursor) in_)) out).
Proof.
  revert i cursor out. induction todo as [|todo IH]; intros i cursor out Hi Hn Hc Hlen.
  { cbn. rewrite Z.add_0_r. split; [done|apply stored_nil]. }
  cbn [array_loop many_p]. set (s := drop (Z.to_nat cursor) in_).
  rewrite (readLine_spec _ _ _ _ kBulkLength) by (done || lia). cbn [rbind]. fold s.
  unfold pbind at 1, elem_p, pbind at 1, header_p, pbind at 1.
  destruct (line_p kStrict kMaxHeaderLength kBulkLength s) as [t n| |x] eqn:El; cbn [line_of lstatus].
  2: { done. }
  2: { apply line_p_Bad in El as [-> _]; [done|done]. }
  pose proof (inc_len _ _ _ El) as Hnl. cbn [text next]. unfold plift.
  destruct (headerValue t "$" kMaxBulkLength) as [len|] eqn:Eh; [|done].
  apply headerValue_range in Eh. rewrite Z.add_0_r.
  rewrite takeBytes_spec by (unfold SIZE_MAX, kMaxBulkLength in *; lia). cbn [rbind].
  replace (drop (Z.to_nat (cursor + n)) in_) with (drop (Z.to_nat n) s)
    by (subst s; rewrite drop_drop; f_equal; lia).
  destruct (take_p len _) as [a m| |x] eqn:Et; cbn [line_of lstatus]; [|done|].
  2: { unfold take_p in Et. repeat (case_match || case_bool_decide); by simplify_eq/=. }
  pose proof (inc_len (P := take_p len) (Incremental := incremental_take_p len ltac:(lia)) _ _ _ Et) as Hm.
  rewrite length_drop in Hm. cbn [text next]. rewrite set_arg_spec by lia. cbn [rbind].
  eapply returns_mono.
  { apply IH; cbn [argv]; rewrite ?length_insert; lia. }
  unfold pbind. intros [r out'].
  replace (drop (Z.to_nat (cursor + n + m)) in_) with (drop (Z.to_nat (n + m)) s)
    by (subst s; rewrite drop_drop; f_equal; lia).
  destruct (many_p todo _) as [args k| |]; cbn [pret agrees fst snd argv]; rewrite ?length_insert.
  - intros [-> Hst]. split; [f_equal; lia|]. apply stored_cons; [lia|done].
  - done.
  - done.
Qed.

Lemma many_p_length n s args k : many_p n s = Done args k → length args = n.
Proof.
  revert s args k. induction n as [|n IH]; intros s args k; cbn [many_p]; [by intros [= <- _]|].
  unfold pbind at 1. destruct (elem_p s); [|done..]. unfold pbind.
  destruct (many_p n _) as [l ?| |] eqn:E; [|done..]. intros [= <- _]. cbn. f_equal. by eapply IH.
Qed.

(** The command a successful parse leaves: the arguments, then blank slots. *)
Definition command_of (args : list bytes) : Command :=
  mkCommand (args ++ replicate (16 - length args) []) (zlen args).

Lemma publish_spec args out out' :
  length (argv out) = 16%nat → stored 0 args out out' → zlen args ≤ kMaxArgs →
  publish (zlen args) out' = Ok (command_of args).
Proof.
  intros Hout [Hl Ht] Ha. cbn [take app] in Ht. unfold publish, kMaxArgs in *.
  rewrite (proj2 (Z.leb_le 0 _)), (proj2 (Z.leb_le (zlen args) _)), (proj2 (Z.leb_le 16 _)) by lia.
  cbn [andb]. unfold command_of. do 2 f_equal.
  rewrite (drop_ge (argv out')), app_nil_r by lia.
  replace (Z.to_nat (zlen args)) with (Z.to_nat 0 + length args)%nat by lia. rewrite Ht. f_equal.
  f_equal. lia.
Qed.

Lemma parseArray_spec in_ out :
  length (argv out) = 16%nat → zlen in_ < 2 ^ 63 →
  returns (parseArray in_ out) (λ '(res, out'),
    match array_p in_ with
    | Done args n => res = mkParseResult PS_kOk n [] ∧ out' = command_of args
    | More => res = incomplete ∧ length (argv out') = 16%nat
    | Bad e => res = fail e ∧ length (argv out') = 16%nat
    end).
Proof.
  intros Hout Hlen. unfold parseArray.
  rewrite (readLine_spec _ _ _ _ kArgLength) by (done || lia). cbn [rbind]. rewrite drop_0.
  unfold array_p, pbind at 1, header_p, pbind at 1.
  destruct (line_p kStrict kMaxHeaderLength kArgLength in_) as [t n| |x] eqn:El; cbn [line_of lstatus].
  2: { done. }
  2: { apply line_p_Bad in El as [-> _]; [done|done]. }
  pose proof (inc_len _ _ _ El) as Hnl. cbn [text next]. unfold plift.
  destruct (headerValue t "*" kMaxArgs) as [count|] eqn:Eh; [|done].
  apply headerValue_range in Eh. unfold kMaxArgs in Eh. rewrite Z.add_0_r.
  eapply returns_bind; [apply array_loop_spec; lia|].
  intros [r out1]. rewrite Z.add_0_l.
  destruct (many_p _ _) as [args k| |] eqn:Em; cbn [agrees fst snd].
  - intros [-> Hst]. pose proof (many_p_length _ _ _ _ Em).
    replace count with (zlen args) by lia.
    rewrite (publish_spec args out) by (done || unfold kMaxArgs; lia). done.
  - intros [-> Hl]. cbn. split; [done|lia].
  - intros [-> Hl]. cbn. split; [done|lia].
Qed.

(** ** Inline commands *)

Lemma tokens_skip a s : Forall (λ b, is_blank b = true) a → tokens [] (a ++ s) = tokens [] s.
Proof. induction 1 as [|b a Hb _ IH]; cbn [app tokens]; [done|]. by rewrite Hb. Qed.

Lemma tokens_run acc t s :
  Forall (λ b, is_blank b = false) t → tokens acc (t ++ s) = tokens (acc ++ t) s.
Proof.
  intros Ht. revert acc. induction Ht as [|b t Hb _ IH]; intros acc; cbn [app tokens].
  - by rewrite app_nil_r.
  - by rewrite Hb, IH, <-app_assoc.
Qed.

(** A token ends at the end of the line or at a blank, which is then skipped. *)
Lemma tokens_token t s :
  Forall (λ b, is_blank b = false) t → t ≠ [] →
  (s = [] ∨ ∃ b s', s = b :: s' ∧ is_blank b = true) →
  tokens [] (t ++ s) = t :: tokens [] s.
Proof.
  intros Ht Hne Hs. rewrite tokens_run by done. cbn [app].
  destruct Hs as [->|(b & s' & -> & Hb)]; cbn [tokens]; rewrite ?Hb, bool_decide_false by done; done.
Qed.

Lemma tokens_blank s : Forall (λ b, negb (is_blank b) = false) s → tokens [] s = [].
Proof.
  intros H. rewrite <-(app_nil_r s), tokens_skip; [done|].
  eapply Forall_impl; [exact H|]. intros b; cbn beta; by destruct (is_blank b).
Qed.

(** One round of the token loop, from the first non-blank byte on: the token
    it takes, and where the next round starts. *)
Lemma next_token text start b c :
  0 ≤ start → drop (Z.to_nat start) text = b :: c → is_blank b = false → zlen text < 2 ^ 63 →
  let pos := sv_find_if is_blank text start in
  ∃ t, sv_substr text start (u64 (pos - start)) = Ok t ∧ 0 ≤ pos ∧
       tokens [] (b :: c) = t :: tokens [] (drop (Z.to_nat pos) text) ∧
       (length (drop (Z.to_nat pos) text) < length (b :: c))%nat.
Proof.
  intros Hst Hd Hb Hlen pos.
  assert (zlen text = start + zlen (b :: c)) as Hlt.
  { rewrite <-Hd, length_drop. assert (drop (Z.to_nat start) text ≠ []) by congruence.
    destruct (Z.le_gt_cases (zlen text) start); [|lia]. by rewrite drop_ge in Hd by lia. }
  unfold sv_substr. rewrite (proj2 (Z.leb_le start _)) by lia. unfold slice. rewrite Hd.
  destruct (first_match is_blank (b :: c)) as [Hno|(t & x & s & Hbc & Ht & Hx)].
  - assert (pos = npos) as -> by (apply sv_find_if_None; [done|by rewrite Hd]).
    exists (b :: c). rewrite (drop_ge text) by (unfold npos, SIZE_MAX; lia). split_and!.
    + f_equal. apply take_ge. unfold u64, npos, SIZE_MAX. rewrite Z.mod_small by lia. lia.
    + unfold npos, SIZE_MAX. lia.
    + rewrite <-(app_nil_r (b :: c)) at 1. apply tokens_token; [done|done|by left].
    + cbn. lia.
  - assert (pos = start + zlen t) as Hpos
      by (by apply (sv_find_if_Some _ _ _ t x s); [|rewrite Hd|..]).
    assert (length (b :: c) = length t + S (length s))%nat as Hl
      by (rewrite Hbc, length_app; done).
    assert (drop (Z.to_nat pos) text = x :: s) as Hdp.
    { rewrite Hpos. replace (Z.to_nat (start + zlen t)) with (Z.to_nat start + length t)%nat by lia.
      rewrite <-drop_drop, Hd, Hbc. by apply drop_app_length. }
    exists t. rewrite Hdp. split_and!.
    + f_equal. rewrite Hbc. apply take_app_length'. unfold u64. rewrite Z.mod_small by lia. lia.
    + lia.
    + rewrite Hbc. apply tokens_token; [done| |right; by exists x, s].
      intros ->. cbn in Hbc. congruence.
    + destruct t; cbn in *; [congruence|lia].
Qed.

Lemma inline_loop_spec fuel text n pos out :
  0 ≤ pos → (length (drop (Z.to_nat pos) text) < fuel)%nat →
  0 ≤ n ≤ kMaxArgs → zlen (argv out) = kMaxArgs → zlen text < 2 ^ 63 →
  returns (inline_loop fuel text n pos out) (λ '(res, out'),
    let toks := tokens [] (drop (Z.to_nat pos) text) in
    if n + zlen toks <=? kMaxArgs then res = inr (n + zlen toks) ∧ stored n toks out out'
    else res = inl (fail kArgLength) ∧ length (argv out') = length (argv out)).
Proof.
  revert n pos out. induction fuel as [|fuel IH]; intros n pos out Hpos Hf Hn Hout Hlen; [lia|].
  cbn [inline_loop].
  destruct (first_match (λ b, negb (is_blank b)) (drop (Z.to_nat pos) text))
    as [Hno|(a & b & c & Hr & Ha & Hb)].
  { rewrite sv_find_if_None, Z.eqb_refl, tokens_blank by done. cbn [returns length].
    rewrite Z.add_0_r, (proj2 (Z.leb_le _ _)) by lia. split; [done|apply stored_nil]. }
  rewrite (sv_find_if_Some _ _ _ a b c) by done. set (start := pos + zlen a).
  assert (drop (Z.to_nat start) text = b :: c) as Hds.
  { replace (Z.to_nat start) with (Z.to_nat pos + length a)%nat by lia.
    rewrite <-drop_drop, Hr. by apply drop_app_length. }
  apply negb_true_iff in Hb.
  destruct (next_token text start b c) as (t & Hsub & Hp' & Htoks & Hshort); [lia|done..|].
  assert (start < zlen text).
  { destruct (Z.le_gt_cases (zlen text) start); [|done]. by rewrite drop_ge in Hds by lia. }
  rewrite (proj2 (Z.eqb_neq start npos)) by (unfold npos, SIZE_MAX; lia).
  rewrite Hr, tokens_skip, Htoks in *
    by (eapply Forall_impl; [exact Ha|]; intros x; cbn beta; by destruct (is_blank x)).
  cbn [length]. set (pos' := sv_find_if is_blank text start) in *.
  destruct (Z.eqb_spec n kMaxArgs) as [->|].
  { cbn [returns]. rewrite (proj2 (Z.leb_gt _ _)) by lia. done. }
  rewrite Hsub. cbn [rbind]. rewrite set_arg_spec by lia. cbn [rbind].
  eapply returns_mono.
  { apply IH; cbn [argv]; rewrite ?length_insert; [done| |lia|done|done].
    rewrite length_app in Hf. lia. }
  intros [res out'] Hres. cbn zeta in *. cbn [argv] in Hres. rewrite length_insert in Hres.
  replace (n + Z.of_nat (S (length (tokens [] (drop (Z.to_nat pos') text)))))
    with (n + 1 + zlen (tokens [] (drop (Z.to_nat pos') text))) by lia.
  destruct (_ <=? kMaxArgs); [|done]. destruct Hres as [-> Hst]. split; [done|].
  apply stored_cons; [lia|done].
Qed.

Lemma parseInline_spec in_ out :
  length (argv out) = 16%nat → zlen in_ < 2 ^ 63 →
  returns (parseInline in_ out) (λ '(res, out'),
    match inline_p in_ with
    | Done args n => res = mkParseResult PS_kOk n [] ∧ out' = command_of args
    | More => res = incomplete ∧ length (argv out') = 16%nat
    | Bad e => res = fail e ∧ length (argv out') = 16%nat
    end).
Proof.
  intros Hout Hlen. unfold parseInline.
  rewrite (readLine_spec _ _ _ _ kInlineLength) by (done || lia). cbn [rbind]. rewrite drop_0.
  unfold inline_p, pbind.
  destruct (line_p kInline kMaxInlineLength kInlineLength in_) as [t n| |x] eqn:El; cbn [line_of lstatus].
  2: { done. }
  2: { apply line_p_Bad in El as [-> _]; [done|done]. }
  assert (length t ≤ length in_)%nat.
  { apply line_p_Done in El as (lf & cr & _ & _ & -> & _); [|done]. rewrite length_take. lia. }
  cbn [text next]. eapply returns_bind.
  { apply (inline_loop_spec _ t 0 0 out); [done| |done| |lia].
    - rewrite drop_0. lia.
    - by rewrite Hout. }
  intros [r out1]. cbn zeta. rewrite drop_0, Z.add_0_l.
  destruct (Z.leb_spec (zlen (tokens [] t)) kMaxArgs); cbn [plift]; intros [-> Hst].
  - rewrite (publish_spec _ out) by done. cbn. by rewrite Z.add_0_r.
  - cbn. split; [done|]. by rewrite Hst.
Qed.

(** The parser, in full, against the reference grammar. *)
Definition parsed (o : outcome (list bytes)) : ParseResult * Command :=
  match o with
  | Done args n => (mkParseResult PS_kOk n [], command_of args)
  | More => (incomplete, emptyCommand)
  | Bad e => (fail e, emptyCommand)
  end.

Lemma clear_16 out : length (argv out) = 16%nat → clear out = emptyCommand.
Proof. unfold clear. by intros ->. Qed.

Lemma parseCommand_spec in_ out :
  length (argv out) = 16%nat → zlen in_ < 2 ^ 63 →
  parseCommand in_ out = Ok (parsed (command_p in_)).
Proof.
  intros Hout Hlen. unfold parseCommand, command_p.
  destruct in_ as [|b in_]; [by rewrite clear_16|].
  destruct (is_byte "*" b).
  - pose proof (parseArray_spec (b :: in_) out Hout Hlen) as H.
    destruct (parseArray (b :: in_) out) as [[res out']|]; [|done]. cbn [returns rbind] in *.
    destruct (array_p (b :: in_)) as [args n| |e]; destruct H as [-> H]; cbn [parsed status incomplete fail].
    + by rewrite H.
    + by rewrite clear_16.
    + by rewrite clear_16.
  - pose proof (parseInline_spec (b :: in_) out Hout Hlen) as H.
    destruct (parseInline (b :: in_) out) as [[res out']|]; [|done]. cbn [returns rbind] in *.
    destruct (inline_p (b :: in_)) as [args n| |e]; destruct H as [-> H]; cbn [parsed status incomplete fail].
    + by rewrite H.
    + by rewrite clear_16.
    + by rewrite clear_16.
Qed.
