(* ===== verification/RespWire.v ===== *)
(** * The wire format

    Decimal numbers, the canonical encoding of a request, and replies: what the
    encoders write, what the parser accepts, and that the two match. *)

From Stdlib Require Import ZArith Lia Strings.Byte.
From stdpp Require Import base list numbers strings.
From S2P Require Import Prelude Buffer Resp RespSpec RespFacts.

Local Open Scope Z_scope.

(** ** Decimal numbers *)

Lemma code_digit d : 0 ≤ d < 10 → code (digit d) = 48 + d.
Proof. intros. unfold digit. rewrite code_byte_of_code; change (code "0") with 48; lia. Qed.

Lemma digit_of_code c : 48 ≤ code c ≤ 57 → c = digit (code c - 48).
Proof. intros. apply code_inj. rewrite code_digit; lia. Qed.

Lemma readInt_loop_app a b v :
  readInt_loop (a ++ b) v =
    match readInt_loop a v with Some v' => readInt_loop b v' | None => None end.
Proof.
  revert v. induction a as [|c a IH]; intros v; [done|]. cbn [app readInt_loop].
  destruct (_ || _); [done|]. destruct (_ <? _); [done|]. apply IH.
Qed.

(** One digit: accepted exactly when the number still fits a [size_t]. *)
Lemma readInt_loop_digit c v r :
  0 ≤ v → readInt_loop [c] v = Some r ↔
          48 ≤ code c ≤ 57 ∧ r = v * 10 + (code c - 48) ∧ r ≤ SIZE_MAX.
Proof.
  intros Hv. cbn [readInt_loop]. change (code "0") with 48. change (code "9") with 57.
  destruct (Z.ltb_spec (code c) 48), (Z.ltb_spec 57 (code c)); cbn [orb];
    try (split; [done|lia]).
  pose proof (Z.div_mod (SIZE_MAX - (code c - 48)) 10 ltac:(lia)).
  pose proof (Z.mod_pos_bound (SIZE_MAX - (code c - 48)) 10 ltac:(lia)).
  destruct (Z.ltb_spec ((SIZE_MAX - (code c - 48)) / 10) v).
  - split; [done|]. lia.
  - unfold u64. rewrite Z.mod_small by (unfold SIZE_MAX in *; lia).
    split; [intros [= <-]; lia|]. intros (_ & -> & _). done.
Qed.

Lemma dec_S f n :
  dec (S f) n = (if n <? 10 then [] else dec f (n / 10)) ++ [digit (n mod 10)].
Proof. done. Qed.

Lemma dec_more f n : 0 ≤ n < 10 ^ Z.of_nat (S f) → dec (S (S f)) n = dec (S f) n.
Proof.
  revert n. induction f as [|f IH]; intros n Hn; rewrite !(dec_S _ n).
  - rewrite (proj2 (Z.ltb_lt _ _)) by (cbn in Hn; lia). done.
  - destruct (Z.ltb_spec n 10); [done|]. f_equal. apply IH.
    rewrite (Nat2Z.inj_succ (S f)), Z.pow_succ_r in Hn by lia.
    Z.div_mod_to_equations. lia.
Qed.

Lemma readInt_loop_dec f n :
  0 ≤ n < 10 ^ Z.of_nat f → n ≤ SIZE_MAX → readInt_loop (dec f n) 0 = Some n.
Proof.
  revert n. induction f as [|f IH]; intros n Hn Hmax; [cbn in *; f_equal; lia|].
  rewrite dec_S, readInt_loop_app. rewrite Nat2Z.inj_succ, Z.pow_succ_r in Hn by lia.
  pose proof (Z.div_mod n 10 ltac:(lia)). pose proof (Z.mod_pos_bound n 10 ltac:(lia)).
  assert (readInt_loop (if n <? 10 then [] else dec f (n / 10)) 0 = Some (n / 10)) as ->.
  { destruct (Z.ltb_spec n 10); [cbn; f_equal; lia|]. apply IH; lia. }
  apply readInt_loop_digit; [lia|]. rewrite code_digit by lia. lia.
Qed.

Lemma dec_head f n :
  0 < n < 10 ^ Z.of_nat f → ∃ c s, dec f n = c :: s ∧ 49 ≤ code c ≤ 57.
Proof.
  revert n. induction f as [|f IH]; intros n Hn; [cbn in Hn; lia|].
  rewrite dec_S. rewrite Nat2Z.inj_succ, Z.pow_succ_r in Hn by lia.
  destruct (Z.ltb_spec n 10).
  - exists (digit (n mod 10)), []. split; [done|].
    rewrite code_digit, Z.mod_small by (rewrite ?Z.mod_small; lia). lia.
  - destruct (IH (n / 10)) as (c & s & -> & Hc); [Z.div_mod_to_equations; lia|].
    by exists c, (s ++ [digit (n mod 10)]).
Qed.

Lemma dec_20_bound : SIZE_MAX < 10 ^ Z.of_nat 20.
Proof. by vm_compute. Qed.

Lemma readInt_cons c s :
  readInt (c :: s) =
    if bool_decide (c :: s = bstr "0") then Some 0
    else if (code c <? 49) || (57 <? code c) then None else readInt_loop (c :: s) 0.
Proof. done. Qed.

Lemma readInt_dec n : 0 ≤ n ≤ SIZE_MAX → readInt (dec 20 n) = Some n.
Proof.
  intros Hn. pose proof dec_20_bound. destruct (Z.eq_dec n 0) as [->|]; [done|].
  pose proof (readInt_loop_dec 20 n ltac:(lia) ltac:(lia)) as Hl.
  destruct (dec_head 20 n) as (c & s & E & Hc); [lia|]. rewrite E in *. rewrite readInt_cons.
  rewrite bool_decide_false by (intros [= -> ->]; change (code _) with 48 in Hc; lia).
  by rewrite (proj2 (Z.ltb_ge _ _)), (proj2 (Z.ltb_ge 57 _)) by lia.
Qed.

(** A digit string with no leading zero is the decimal form of its value. *)
Lemma readInt_loop_canonical s c v :
  head s = Some c → 49 ≤ code c ≤ 57 → readInt_loop s 0 = Some v →
  0 < v ≤ SIZE_MAX ∧ s = dec 20 v.
Proof.
  revert v. induction s as [|d s IH] using rev_ind; intros v Hh Hc; [done|].
  rewrite readInt_loop_app. destruct s as [|c' s'].
  - cbn in Hh. injection Hh as ->. cbn [readInt_loop].
    intros (_ & -> & Hm)%(readInt_loop_digit c 0); [|done]. split; [lia|].
    rewrite dec_S, (proj2 (Z.ltb_lt _ _)) by lia. cbn [app]. f_equal.
    rewrite Z.mod_small by lia. apply digit_of_code. lia.
  - destruct (readInt_loop (c' :: s') 0) as [v'|] eqn:E; [|done].
    destruct (IH v') as [Hv' Hs]; [done..|].
    intros (Hd & -> & Hm)%readInt_loop_digit; [|lia]. split; [lia|].
    rewrite (dec_S 19), (proj2 (Z.ltb_ge _ _)) by lia.
    replace ((v' * 10 + (code d - 48)) / 10) with v' by (Z.div_mod_to_equations; lia).
    replace ((v' * 10 + (code d - 48)) mod 10) with (code d - 48) by (Z.div_mod_to_equations; lia).
    rewrite <-digit_of_code by lia. f_equal. rewrite Hs. apply dec_more.
    assert (SIZE_MAX < 10 * 10 ^ Z.of_nat 19) by (by vm_compute). lia.
Qed.

Lemma to_chars_nonneg v : 0 ≤ v → to_chars v = dec 20 v.
Proof. intros. unfold to_chars. by rewrite (proj2 (Z.ltb_ge _ _)) by lia. Qed.

Lemma readInt_iff (s : bytes) (v : Z) :
  readInt s = Some v ↔ 0 ≤ v ≤ SIZE_MAX ∧ s = to_chars v.
Proof.
  split.
  - destruct s as [|c s]; [done|]. rewrite readInt_cons. case_bool_decide as E0.
    { intros [= <-]. rewrite E0. split; [by vm_compute|done]. }
    destruct (Z.ltb_spec (code c) 49), (Z.ltb_spec 57 (code c)); cbn [orb]; try done.
    intros Hl%(readInt_loop_canonical _ c); [|done|lia]. destruct Hl as [? ->].
    split; [lia|]. by rewrite to_chars_nonneg by lia.
  - intros [Hv ->]. rewrite to_chars_nonneg by lia. by apply readInt_dec.
Qed.

(** The header number reader accepts exactly the canonical decimal form of
    the [size_t] values, and returns the value: leading zeros, signs, blanks,
    the empty string and anything past [SIZE_MAX] are refused. *)
Theorem readInt_canonical (s : bytes) (v : Z) :
  readInt s = Some v ↔ 0 ≤ v ≤ SIZE_MAX ∧ s = to_chars v.
Proof. apply readInt_iff. Qed.

Lemma dec_length f n : (length (dec f n) ≤ f)%nat.
Proof.
  revert n. induction f as [|f IH]; intros n; [done|]. rewrite dec_S, length_app. cbn.
  specialize (IH (n / 10)). destruct (n <? 10); cbn; lia.
Qed.

Lemma to_chars_length v : (length (to_chars v) ≤ 21)%nat.
Proof.
  unfold to_chars. destruct (v <? 0); cbn [length].
  - pose proof (dec_length 20 (- v)). lia.
  - pose proof (dec_length 20 v). lia.
Qed.

Lemma dec_digits f n : 0 ≤ n → Forall (λ c, 48 ≤ code c ≤ 57) (dec f n).
Proof.
  revert n. induction f as [|f IH]; intros n Hn; [done|]. rewrite dec_S. apply Forall_app. split.
  - destruct (n <? 10); [done|]. apply IH. apply Z.div_pos; lia.
  - constructor; [|done]. pose proof (Z.mod_pos_bound n 10). rewrite code_digit; lia.
Qed.

(** ** Emitting bytes

    [emits f w]: on a well-formed buffer with room for [w], [f] returns and
    appends exactly [w]. *)

Definition emits (f : Buf.Buffer → result Buf.Buffer) (w : bytes) : Prop :=
  ∀ b, Buf.wf b → Buf.size b + zlen w ≤ Buf.kMaxContent →
       returns (f b) (λ b', Buf.wf b' ∧ Buf.readable b' = Buf.readable b ++ w).

Create HintDb emits.

Lemma emits_append s : emits (Buf.append s) s.
Proof. intros b Hb Hroom. by apply Buf.append_spec. Qed.

Lemma emits_appendByte c : emits (Buf.appendByte c) [c].
Proof. intros b Hb Hroom. by apply Buf.appendByte_spec. Qed.

Lemma emits_Ok : emits Ok [].
Proof. intros b Hb Hroom. cbn. by rewrite app_nil_r. Qed.

Lemma emits_seq f g w1 w2 :
  emits f w1 → emits g w2 → emits (λ b, let* b := f b in g b) (w1 ++ w2).
Proof.
  intros Hf Hg b Hb Hroom. rewrite length_app in Hroom.
  eapply returns_bind; [apply Hf; [done|lia]|]. intros b1 [Hb1 Hr1].
  eapply returns_mono; [apply Hg; [done|]|].
  - rewrite <-(Buf.readable_length b1), Hr1, length_app by done.
    rewrite <-(Buf.readable_length b) in Hroom by done. lia.
  - intros b2 [Hb2 Hr2]. by rewrite Hr2, Hr1, app_assoc.
Qed.

Lemma emits_eq f w w' : emits f w → w = w' → emits f w'.
Proof. by intros ? <-. Qed.

#[export] Hint Resolve emits_append emits_appendByte emits_Ok emits_seq : emits.

Lemma emits_appendLine type body : emits (appendLine type body) (type :: body ++ CRLF).
Proof. change (type :: body ++ CRLF) with ([type] ++ body ++ CRLF). unfold appendLine. eauto with emits. Qed.

Lemma emits_appendNumber type v : emits (appendNumber type v) (type :: to_chars v ++ CRLF).
Proof.
  intros b Hb Hroom. unfold appendNumber. pose proof (to_chars_length v).
  rewrite (proj2 (Z.leb_le _ _)) by lia. by apply emits_appendLine.
Qed.

#[export] Hint Resolve emits_appendLine emits_appendNumber : emits.

(** ** Requests on the wire *)

Definition encode_bulk (a : bytes) : bytes := "$"%byte :: to_chars (zlen a) ++ CRLF ++ a ++ CRLF.

Definition encode_request (args : list bytes) : bytes :=
  "*"%byte :: to_chars (zlen args) ++ CRLF ++ mjoin (encode_bulk <$> args).

(** A request written with the reply encoders, which share the wire types. *)
Fixpoint write_bulks (args : list bytes) (out : Buf.Buffer) : result Buf.Buffer :=
  match args with
  | [] => Ok out
  | a :: args => let* out := reply.bulk a out in write_bulks args out
  end.

Definition write_request (args : list bytes) (out : Buf.Buffer) : result Buf.Buffer :=
  let* out := reply.arrayHeader (zlen args) out in
  write_bulks args out.

Lemma emits_bulk a : emits (reply.bulk a) (encode_bulk a).
Proof.
  unfold reply.bulk, encode_bulk. eapply emits_eq; [eauto with emits|].
  by rewrite app_comm_cons, <-!app_assoc.
Qed.

Lemma emits_request args : emits (write_request args) (encode_request args).
Proof.
  unfold write_request, encode_request.
  assert (∀ l, emits (write_bulks l) (mjoin (encode_bulk <$> l))) as Hl.
  { induction l as [|a l IH]; [apply emits_Ok|].
    apply (emits_seq _ _ (encode_bulk a)); [apply emits_bulk|apply IH]. }
  eapply emits_eq; [apply emits_seq; [apply emits_appendNumber|apply Hl]|].
  cbn [app]. by rewrite <-app_assoc.
Qed.

(** ** The header line *)

Lemma scan_term_text fr text rest :
  Forall (λ b, is_byte LF b = false) text →
  scan_term fr false (text ++ CRLF ++ rest) 0 = Some (zlen text + 1, true).
Proof.
  intros Hno. rewrite scan_term_app, scan_term_no_LF by done. cbn [app CRLF scan_term].
  change (is_byte LF CR) with false. change (is_byte LF LF) with true.
  change (is_byte CR CR) with true. done.
Qed.

Lemma line_p_text fr M err text rest :
  0 ≤ M → zlen text ≤ M → Forall (λ b, is_byte LF b = false) text →
  line_p fr M err (text ++ CRLF ++ rest) = Done text (zlen text + 2).
Proof.
  intros HM Ht Hno. apply line_p_Done; [done|]. exists (zlen text + 1), true.
  rewrite scan_term_text by done. split_and!; [done|lia| |lia].
  rewrite take_app_length' by lia. done.
Qed.

(** A strict line is its text and a CRLF. *)
Lemma line_p_strict M err s t n :
  0 ≤ M → line_p kStrict M err s = Done t n →
  ∃ rest, s = t ++ CRLF ++ rest ∧ n = zlen t + 2.
Proof.
  intros HM (lf & cr & E & _ & -> & ->)%line_p_Done; [|done].
  pose proof (scan_term_cr_len _ _ _ _ E) as [??].
  destruct (scan_term_Some _ _ _ _ _ _ E) as (Hlf & Hcr & Hst). rewrite Hst in * by done. clear Hst.
  destruct (Z.eqb_spec lf 0); [done|]. rewrite Z.sub_0_r in *.
  exists (drop (Z.to_nat (lf + 1)) s). rewrite length_take. split; [|lia].
  assert (s !! Z.to_nat (lf - 1) = Some CR) as HCR.
  { unfold ends_with_cr in Hcr. rewrite last_lookup, length_take, lookup_take_lt in Hcr by lia.
    replace (pred (Z.to_nat lf `min` length s)) with (Z.to_nat (lf - 1)) in Hcr by lia.
    destruct (s !! Z.to_nat (lf - 1)) as [x|]; [|done]. symmetry in Hcr.
    apply is_byte_true in Hcr. by subst. }
  rewrite <-(take_drop_middle s _ _ HCR) at 1. f_equal. cbn [CRLF app]. f_equal.
  replace (S (Z.to_nat (lf - 1))) with (Z.to_nat lf) by lia.
  rewrite (drop_S s LF) by done. do 2 f_equal. lia.
Qed.

Lemma headerValue_spec line type limit v :
  limit ≤ SIZE_MAX →
  headerValue line type limit = Some v ↔ 0 ≤ v ≤ limit ∧ line = type :: to_chars v.
Proof.
  intros Hlim. split.
  - intros H. pose proof (headerValue_range _ _ _ _ H). split; [done|]. revert H.
    unfold headerValue. destruct line as [|c s]; [done|].
    destruct (is_byte type c) eqn:Ec; [|done]. apply is_byte_true in Ec as ->. cbn [negb].
    destruct (readInt s) eqn:Ei; [|done]. destruct (_ <? _); [done|]. intros [= ->].
    apply readInt_iff in Ei as [_ ->]. done.
  - intros [Hv ->]. cbn [headerValue]. rewrite is_byte_refl. cbn [negb].
    assert (readInt (to_chars v) = Some v) as -> by (apply readInt_iff; split; [lia|done]).
    by rewrite (proj2 (Z.ltb_ge _ _)) by lia.
Qed.

Lemma to_chars_no_LF v : 0 ≤ v → Forall (λ b, is_byte LF b = false) (to_chars v).
Proof.
  intros. rewrite to_chars_nonneg by done. eapply Forall_impl; [by apply dec_digits|].
  intros c Hc. apply is_byte_false. intros ->. vm_compute in Hc. naive_solver.
Qed.

Lemma header_p_iff type limit err s v n :
  0 ≤ limit ≤ SIZE_MAX → is_byte LF type = false →
  header_p type limit err s = Done v n ↔
  0 ≤ v ≤ limit ∧ ∃ rest, s = (type :: to_chars v ++ CRLF) ++ rest ∧ n = zlen (type :: to_chars v ++ CRLF).
Proof.
  intros Hlim Hty. unfold header_p, pbind, plift. split.
  - destruct (line_p _ _ _ s) as [t k| |] eqn:El; [|done..].
    apply line_p_strict in El as (rest & -> & ->); [|done].
    destruct (headerValue t type limit) as [v'|] eqn:Eh; [|done]. intros [= -> <-].
    apply headerValue_spec in Eh as [Hv ->]; [|lia]. split; [done|]. exists rest.
    cbn [app length]. rewrite <-app_assoc, length_app. split; [done|]. cbn. lia.
  - intros (Hv & rest & -> & ->). rewrite app_comm_cons, <-app_assoc.
    pose proof (to_chars_length v).
    rewrite line_p_text; [|done|unfold kMaxHeaderLength; cbn [length]; lia|].
    + assert (headerValue (type :: to_chars v) type limit = Some v) as ->
        by (apply headerValue_spec; [lia|done]).
      f_equal. rewrite length_app. cbn [length CRLF]. lia.
    + constructor; [done|]. apply to_chars_no_LF. lia.
Qed.

Definition bulk_ok (a : bytes) : Prop := zlen a ≤ kMaxBulkLength.

Lemma elem_p_iff s a n :
  elem_p s = Done a n ↔ bulk_ok a ∧ ∃ rest, s = encode_bulk a ++ rest ∧ n = zlen (encode_bulk a).
Proof.
  unfold elem_p, pbind, bulk_ok, encode_bulk. split.
  - destruct (header_p _ _ _ s) as [len k| |] eqn:Eh; [|done..].
    apply header_p_iff in Eh as (Hlen & rest & -> & ->); [|done|done].
    rewrite drop_app_length' by lia. unfold take_p.
    destruct (Z.ltb_spec (zlen rest) (len + 2)); [done|]. case_bool_decide as Ec; [|done].
    intros [= <- <-].
    assert (zlen (take (Z.to_nat len) rest) = len) as Hl by (rewrite length_take; lia).
    rewrite Hl. split; [lia|]. exists (drop (Z.to_nat (len + 2)) rest).
    assert (rest = take (Z.to_nat len) rest ++ CRLF ++ drop (Z.to_nat (len + 2)) rest) as Hr.
    { rewrite <-Ec. unfold slice. rewrite <-(take_drop (Z.to_nat len) rest) at 1. f_equal.
      rewrite <-(take_drop (Z.to_nat 2) (drop (Z.to_nat len) rest)) at 1. f_equal.
      rewrite drop_drop. f_equal. lia. }
    split; [|cbn [length]; rewrite !length_app; cbn; lia].
    cbn [app]. rewrite <-!app_assoc. do 3 f_equal. exact Hr.
  - intros (Ha & rest & -> & ->).
    assert (("$"%byte :: to_chars (zlen a) ++ CRLF ++ a ++ CRLF) ++ rest =
            ("$"%byte :: to_chars (zlen a) ++ CRLF) ++ (a ++ CRLF ++ rest)) as ->
      by (cbn [app]; by rewrite <-!app_assoc).
    assert (header_p "$" kMaxBulkLength kBulkLength
              (("$"%byte :: to_chars (zlen a) ++ CRLF) ++ (a ++ CRLF ++ rest)) =
            Done (zlen a) (zlen ("$"%byte :: to_chars (zlen a) ++ CRLF))) as ->
      by (apply header_p_iff; [done..|]; split; [lia|eauto]).
    rewrite drop_app_length' by lia.
    unfold take_p. rewrite !length_app. rewrite (proj2 (Z.ltb_ge _ _)) by (cbn; lia).
    rewrite slice_app_r, Z.sub_diag, slice_app_l, slice_whole, bool_decide_true by (done || cbn; lia).
    rewrite take_app_length' by lia. f_equal. cbn [length]. rewrite !length_app. cbn. lia.
Qed.

Lemma mjoin_bulks a l :
  mjoin (encode_bulk <$> a :: l) = encode_bulk a ++ mjoin (encode_bulk <$> l).
Proof. done. Qed.

Lemma many_p_iff k s args n :
  many_p k s = Done args n ↔
  length args = k ∧ Forall bulk_ok args ∧
  ∃ rest, s = mjoin (encode_bulk <$> args) ++ rest ∧ n = zlen (mjoin (encode_bulk <$> args)).
Proof.
  revert s args n. induction k as [|k IH]; intros s args n; cbn [many_p].
  { unfold pret. split.
    - intros [= <- <-]. split_and!; [done|by constructor|by exists s].
    - intros (Hl & _ & rest & _ & Hn). destruct args; [|done]. by rewrite Hn. }
  unfold pbind at 1. split.
  - destruct (elem_p s) as [a m| |] eqn:Ee; [|done..].
    apply elem_p_iff in Ee as (Ha & rest & -> & ->). rewrite drop_app_length' by lia.
    unfold pbind. destruct (many_p k rest) as [l m| |] eqn:Em; [|done..].
    apply IH in Em as (Hl & Hall & rest' & -> & ->). cbn [pret].
    remember (encode_bulk a) as ea eqn:Hea. intros [= <- <-].
    split_and!; [by rewrite <-Hl|by constructor|]. exists rest'.
    rewrite mjoin_bulks, <-Hea, <-app_assoc, length_app. split; [done|lia].
  - intros (Hl & Hall & rest & -> & ->). destruct args as [|a args]; [done|].
    inversion_clear Hall as [|?? Ha Hall']. rewrite mjoin_bulks, <-app_assoc.
    rewrite (proj2 (elem_p_iff _ a (zlen (encode_bulk a)))) by eauto.
    rewrite drop_app_length' by lia. unfold pbind.
    rewrite (proj2 (IH _ args (zlen (mjoin (encode_bulk <$> args))))) by (cbn in Hl; eauto with lia).
    cbn [pret]. f_equal. rewrite length_app. lia.
Qed.

Definition request_ok (args : list bytes) : Prop := zlen args ≤ kMaxArgs ∧ Forall bulk_ok args.

Lemma array_p_iff s args n :
  array_p s = Done args n ↔
  request_ok args ∧ ∃ rest, s = encode_request args ++ rest ∧ n = zlen (encode_request args).
Proof.
  unfold array_p, pbind, request_ok, encode_request.
  assert (∀ l : list bytes, "*"%byte :: to_chars (zlen l) ++ CRLF ++ mjoin (encode_bulk <$> l) =
    ("*"%byte :: to_chars (zlen l) ++ CRLF) ++ mjoin (encode_bulk <$> l)) as Heq
    by (intros l; cbn [app]; by rewrite <-app_assoc).
  rewrite Heq. split.
  - destruct (header_p _ _ _ s) as [c k| |] eqn:Eh; [|done..].
    apply header_p_iff in Eh as (Hc & rest & -> & ->); [|done|done].
    rewrite drop_app_length' by lia.
    destruct (many_p _ rest) as [l m| |] eqn:Em; [|done..].
    apply many_p_iff in Em as (Hl & Hall & rest' & -> & ->).
    assert (c = zlen l) as -> by lia.
    remember ("*"%byte :: to_chars (zlen l) ++ CRLF) as h eqn:Hh. intros [= <- <-].
    split; [split; [lia|done]|]. exists rest'.
    rewrite <-Hh, <-app_assoc, length_app. split; [done|lia].
  - intros ([Hn Hall] & rest & -> & ->). rewrite <-app_assoc.
    rewrite (proj2 (header_p_iff "*" kMaxArgs kArgLength _ (zlen args)
               (zlen ("*"%byte :: to_chars (zlen args) ++ CRLF)) ltac:(done) ltac:(done)))
      by (split; [lia|eauto]).
    rewrite drop_app_length' by lia. rewrite Nat2Z.id.
    rewrite (proj2 (many_p_iff _ _ args (zlen (mjoin (encode_bulk <$> args))))) by eauto.
    f_equal. rewrite length_app. lia.
Qed.

Lemma command_p_request args rest :
  request_ok args → command_p (encode_request args ++ rest) = Done args (zlen (encode_request args)).
Proof. intros. cbn [command_p encode_request app]. apply array_p_iff. eauto. Qed.
