(* ===== verification/RespProps.v ===== *)
(** * What the server relies on from the protocol layer

    The theorems about [parseCommand] and the encoders, stated on the source's
    own functions: totality, independence from how the stream is cut, finality
    of errors, and the round trip between encoder and parser. *)

From Stdlib Require Import ZArith Lia Strings.Byte.
From stdpp Require Import base list numbers strings.
From S2P Require Import Prelude Buffer Resp RespSpec RespFacts RespWire.

Local Open Scope Z_scope.

Lemma tokens_bound acc s : Forall (λ t, zlen t ≤ zlen acc + zlen s) (tokens acc s).
Proof.
  revert acc. induction s as [|b s IH]; intros acc; cbn [tokens length].
  - case_bool_decide; [done|]. constructor; [lia|done].
  - destruct (is_blank b); [|eapply Forall_impl; [apply IH|]; intros t; cbn beta; rewrite length_app; cbn; lia].
    pose proof (IH []) as IH0. cbn [length] in IH0.
    case_bool_decide; [|constructor; [lia|]]; (eapply Forall_impl; [exact IH0|]); intros t; cbn beta; lia.
Qed.

Lemma command_p_ok s args n : command_p s = Done args n → request_ok args.
Proof.
  destruct s as [|b s]; [done|]. unfold command_p. destruct (is_byte "*" b).
  { by intros [? _]%array_p_iff. }
  unfold inline_p, pbind. destruct (line_p _ _ _ _) as [t k| |] eqn:E; [|done..]. unfold plift.
  destruct (Z.leb_spec (zlen (tokens [] t)) kMaxArgs); [|done]. intros [= <- _].
  split; [done|]. apply line_p_Done in E as (lf & cr & Es & HM & -> & _); [|done].
  pose proof (scan_term_cr_len _ _ _ _ Es) as [? _].
  eapply Forall_impl; [apply tokens_bound|]. intros t. cbn beta. unfold bulk_ok.
  rewrite length_take. unfold kMaxInlineLength, kMaxBulkLength in *. cbn [length]. lia.
Qed.

(** ** The parser as a function of the stream *)

(** A command the dispatcher can read: sixteen slots, the ones past [argc]
    blank, and no argument over the bulk limit. *)
Definition command_wf (cmd : Command) : Prop :=
  length (argv cmd) = 16%nat ∧ 0 ≤ argc cmd ≤ kMaxArgs ∧
  Forall bulk_ok (argv cmd) ∧ Forall (λ a, a = []) (drop (Z.to_nat (argc cmd)) (argv cmd)).

Lemma command_of_wf args : request_ok args → command_wf (command_of args).
Proof.
  intros [Hn Hall]. unfold command_wf, command_of, kMaxArgs in *. cbn [argv argc].
  split; [rewrite length_app, length_replicate; lia|]. split; [lia|]. split.
  - apply Forall_app. split; [done|]. by apply Forall_replicate.
  - rewrite Nat2Z.id, drop_app_length. by apply Forall_replicate.
Qed.

Lemma emptyCommand_wf : command_wf emptyCommand.
Proof. apply (command_of_wf []). split; [done|constructor]. Qed.

Section parser.
Context (in_ : bytes) (out : Command).
Hypothesis Hout : length (argv out) = 16%nat.
Hypothesis Hin : zlen in_ < 2 ^ 63.

(** C17: on any input the parser returns, reading nothing outside the input and
    writing nothing outside the sixteen slots.  The command it leaves is always
    well-formed; [kOk] consumes at least one byte and no more than there are;
    otherwise nothing is consumed, the command is cleared, and there is an
    error text exactly for a protocol error. *)
Theorem parse_total :
  ∃ r cmd, parseCommand in_ out = Ok (r, cmd) ∧ command_wf cmd ∧
    match status r with
    | PS_kOk => 0 < consumed r ≤ zlen in_ ∧ error r = []
    | PS_kIncomplete => consumed r = 0 ∧ cmd = emptyCommand ∧ error r = []
    | PS_kProtocolError => consumed r = 0 ∧ cmd = emptyCommand ∧ ∃ e, error r = errorToString e
    end.
Proof.
  rewrite parseCommand_spec by done. pose proof emptyCommand_wf.
  destruct (command_p in_) as [args n| |e] eqn:E; eexists _, _; (split; [done|]); cbn.
  - pose proof (command_p_pos _ _ _ E). apply inc_len in E as HL.
    apply command_p_ok, command_of_wf in E. split; [done|]. split; [lia|done].
  - done.
  - split_and!; [done..|]. by exists e.
Qed.

Lemma parse_Done r cmd :
  parseCommand in_ out = Ok (r, cmd) → status r = PS_kOk →
  ∃ args, command_p in_ = Done args (consumed r) ∧ cmd = command_of args ∧
          r = mkParseResult PS_kOk (consumed r) [].
Proof.
  rewrite parseCommand_spec by done. destruct (command_p in_) as [args n| |e]; intros [= <- <-]; [|done..].
  intros _. by exists args.
Qed.

Lemma parse_Bad r cmd :
  parseCommand in_ out = Ok (r, cmd) → status r = PS_kProtocolError →
  ∃ e, command_p in_ = Bad e ∧ r = fail e ∧ cmd = emptyCommand.
Proof.
  rewrite parseCommand_spec by done. destruct (command_p in_) as [args n| |e]; intros [= <- <-]; [done..|].
  intros _. by exists e.
Qed.

End parser.

Lemma parse_total_witness :
  ∃ r cmd, parseCommand (crlf_text "*1|$3|foo!|") emptyCommand = Ok (r, cmd) ∧ command_wf cmd ∧
    status r = PS_kProtocolError ∧ error r = errorToString kBulkLength.
Proof.
  destruct (parse_total (crlf_text "*1|$3|foo!|") emptyCommand) as (r & cmd & H & Hwf & _);
    [reflexivity|vm_compute; reflexivity|].
  exists r, cmd. split; [exact H|]. split; [exact Hwf|].
  vm_compute in H. injection H as <- _. split; reflexivity.
Defined.

(** C9: framing does not depend on how the stream is cut.  When a command is
    accepted with [consumed] bytes, every shorter prefix is [kIncomplete] (so
    the caller waits), and those bytes followed by anything at all parse to the
    same command and the same count. *)
Theorem parse_framing (in_ : bytes) (out : Command) (r : ParseResult) (cmd : Command)
    (Hout : length (argv out) = 16%nat) (Hin : zlen in_ < 2 ^ 63)
    (Hp : parseCommand in_ out = Ok (r, cmd)) (Hok : status r = PS_kOk) :
  (∀ k, 0 ≤ k < consumed r →
        parseCommand (take (Z.to_nat k) in_) out = Ok (incomplete, emptyCommand)) ∧
  (∀ rest, zlen (take (Z.to_nat (consumed r)) in_ ++ rest) < 2 ^ 63 →
           parseCommand (take (Z.to_nat (consumed r)) in_ ++ rest) out = Ok (r, cmd)).
Proof.
  destruct (parse_Done in_ out Hout Hin r cmd Hp Hok) as (args & E & -> & ->). cbn [consumed] in *.
  split.
  - intros k Hk. rewrite parseCommand_spec; [|done|rewrite length_take; lia].
    by rewrite (inc_pre _ _ _ _ E Hk).
  - intros rest Hr. rewrite parseCommand_spec by done.
    by rewrite (inc_ext _ rest _ _ (inc_local _ _ _ E)).
Qed.

Lemma parse_framing_witness :
  let in_ := crlf_text "*2|$3|GET|$1|k|PING|" in
  let r := mkParseResult PS_kOk 20 [] in
  parseCommand in_ emptyCommand = Ok (r, command_of [bstr "GET"; bstr "k"]) ∧
  parseCommand (take (Z.to_nat 19) in_) emptyCommand = Ok (incomplete, emptyCommand) ∧
  parseCommand (take (Z.to_nat 20) in_ ++ bstr "garbage") emptyCommand =
    Ok (r, command_of [bstr "GET"; bstr "k"]).
Proof.
  set (in_ := crlf_text "*2|$3|GET|$1|k|PING|"). set (r := mkParseResult PS_kOk 20 []).
  assert (parseCommand in_ emptyCommand = Ok (r, command_of [bstr "GET"; bstr "k"])) as Hp
    by (vm_compute; reflexivity).
  destruct (parse_framing in_ emptyCommand r (command_of [bstr "GET"; bstr "k"]))
    as [H1 H2]; [reflexivity|vm_compute; reflexivity|exact Hp|reflexivity|].
  split; [exact Hp|]. split.
  - apply (H1 19). cbn. lia.
  - apply (H2 (bstr "garbage")). vm_compute. reflexivity.
Defined.

(** C33: a protocol error is final: whatever else arrives on the connection, the
    parser reports the same error, so answering and closing at once loses
    nothing. *)
Theorem parse_error_final (in_ more : bytes) (out : Command) (r : ParseResult) (cmd : Command)
    (Hout : length (argv out) = 16%nat) (Hin : zlen (in_ ++ more) < 2 ^ 63)
    (Hp : parseCommand in_ out = Ok (r, cmd)) (Hbad : status r = PS_kProtocolError) :
  parseCommand (in_ ++ more) out = Ok (r, cmd).
Proof.
  destruct (parse_Bad in_ out Hout) with r cmd as (e & E & -> & ->); [|done..|].
  { rewrite length_app in Hin. lia. }
  rewrite parseCommand_spec by done. by rewrite (inc_bad _ more _ E).
Qed.

Lemma parse_error_final_witness :
  parseCommand (crlf_text "*1|$3|foo!|") emptyCommand = Ok (fail kBulkLength, emptyCommand) ∧
  parseCommand (crlf_text "*1|$3|foo!|" ++ bstr "x") emptyCommand = Ok (fail kBulkLength, emptyCommand).
Proof.
  split; [vm_compute; reflexivity|].
  apply (parse_error_final (crlf_text "*1|$3|foo!|") (bstr "x"));
    [reflexivity|vm_compute; reflexivity|vm_compute; reflexivity|reflexivity].
Defined.

(** ** Encoder and parser *)

Lemma encode_bulk_length a : bulk_ok a → zlen (encode_bulk a) ≤ 2 ^ 27.
Proof.
  unfold bulk_ok, encode_bulk, kMaxBulkLength. intros Ha. pose proof (to_chars_length (zlen a)).
  cbn [length]. rewrite !length_app. cbn [length CRLF]. lia.
Qed.

Lemma encode_request_length args : request_ok args → zlen (encode_request args) ≤ 2 ^ 32.
Proof.
  intros [Hn Hall]. unfold encode_request. pose proof (to_chars_length (zlen args)).
  assert (zlen (mjoin (encode_bulk <$> args)) ≤ 2 ^ 27 * zlen args) as Hm.
  { clear Hn H. induction Hall as [|a l Ha Hl IH]; [done|].
    rewrite mjoin_bulks, length_app. pose proof (encode_bulk_length a Ha). cbn [length]. lia. }
  unfold kMaxArgs in Hn. cbn [length]. rewrite !length_app. cbn [length CRLF]. lia.
Qed.

(** C24: what the encoders write, the parser reads back.  A request written with
    [arrayHeader] and [bulk] after whatever the buffer holds appends some bytes
    [w]; with any bytes behind them, the parser consumes exactly [w] and
    returns exactly the arguments, whatever bytes they contain. *)
Theorem request_roundtrip (args : list bytes) (b : Buf.Buffer) (out : Command)
    (Hok : request_ok args) (Hb : Buf.wf b) (Hroom : Buf.size b ≤ 2 ^ 60)
    (Hout : length (argv out) = 16%nat) :
  ∃ b' w, write_request args b = Ok b' ∧ Buf.wf b' ∧ Buf.readable b' = Buf.readable b ++ w ∧
    ∀ rest, zlen rest < 2 ^ 62 →
      parseCommand (w ++ rest) out = Ok (mkParseResult PS_kOk (zlen w) [], command_of args).
Proof.
  pose proof (encode_request_length args Hok) as HL.
  pose proof (emits_request args b Hb) as H. unfold Buf.kMaxContent in H.
  specialize (H ltac:(lia)). apply returns_inv in H as (b' & H1 & H2 & H3).
  exists b', (encode_request args). split_and!; [done..|]. intros rest Hr.
  rewrite parseCommand_spec; [|done|rewrite length_app; lia].
  by rewrite command_p_request.
Qed.

Lemma request_roundtrip_witness :
  ∃ b' w, write_request [bstr "ECHO"; CRLF; []] (Buf.mk [] 0 0) = Ok b' ∧
    parseCommand (w ++ bstr "!") emptyCommand =
      Ok (mkParseResult PS_kOk (zlen w) [], command_of [bstr "ECHO"; CRLF; []]).
Proof.
  destruct (request_roundtrip [bstr "ECHO"; CRLF; []] (Buf.mk [] 0 0) emptyCommand)
    as (b' & w & H1 & _ & _ & H2).
  - split; [vm_compute; discriminate|]. repeat constructor; vm_compute; discriminate.
  - split; vm_compute; discriminate.
  - vm_compute. discriminate.
  - reflexivity.
  - exists b', w. split; [exact H1|]. apply (H2 (bstr "!")). vm_compute. reflexivity.
Defined.

(** C29: on input that starts with a star the parser accepts exactly the
    canonical encodings: at most sixteen bulks of at most 64 MiB each, every
    length in canonical decimal, every payload and header ended by CRLF. *)
Theorem array_grammar (in_ : bytes) (out : Command) (n : Z) (cmd : Command)
    (Hout : length (argv out) = 16%nat) (Hin : zlen in_ < 2 ^ 63)
    (Hstar : head in_ = Some "*"%byte) :
  parseCommand in_ out = Ok (mkParseResult PS_kOk n [], cmd) ↔
  ∃ args rest, request_ok args ∧ in_ = encode_request args ++ rest ∧
               n = zlen (encode_request args) ∧ cmd = command_of args.
Proof.
  rewrite parseCommand_spec by done.
  assert (command_p in_ = array_p in_) as -> by (destruct in_; [done|]; cbn in *; by simplify_eq).
  split.
  - destruct (array_p in_) as [args k| |] eqn:E; [|done..]. unfold parsed. intros Heq.
    injection Heq as <- <-.
    apply array_p_iff in E as (Hok & rest & -> & ->). by exists args, rest.
  - intros (args & rest & Hok & Hi & -> & ->).
    by rewrite (proj2 (array_p_iff in_ args (zlen (encode_request args)))) by eauto.
Qed.

Lemma array_grammar_witness :
  parseCommand (crlf_text "*1|$4|PING|+") emptyCommand =
    Ok (mkParseResult PS_kOk 14 [], command_of [bstr "PING"]) ∧
  ¬ (∃ cmd, parseCommand (crlf_text "*1|$04|PING|") emptyCommand =
              Ok (mkParseResult PS_kOk 15 [], cmd)).
Proof.
  split.
  - apply (proj2 (array_grammar (crlf_text "*1|$4|PING|+") emptyCommand 14 (command_of [bstr "PING"])
             eq_refl eq_refl eq_refl)).
    exists [bstr "PING"], (bstr "+"). split; [|vm_compute; repeat split; reflexivity].
    split; [vm_compute; discriminate|]. repeat constructor; vm_compute; discriminate.
  - intros [cmd H]. vm_compute in H. discriminate H.
Defined.

(** ** Inline commands *)

(** [words s ts]: [ts] are the maximal runs of [s] without a blank, in order.  A
    run ends where [s] does or at a blank. *)
Inductive words : bytes → list bytes → Prop :=
| words_nil : words [] []
| words_blank b s ts : is_blank b = true → words s ts → words (b :: s) ts
| words_run t s ts :
    t ≠ [] → Forall (λ b, is_blank b = false) t → (∀ b, head s = Some b → is_blank b = true) →
    words s ts → words (t ++ s) (t :: ts).

Lemma tokens_words acc s :
  Forall (λ b, is_blank b = false) acc → if bool_decide (acc = []) then words s (tokens acc s) else
    words (acc ++ s) (tokens acc s).
Proof.
  revert acc. induction s as [|b s IH]; intros acc Hacc; cbn [tokens]; case_bool_decide as Ea.
  - constructor.
  - by apply words_run; [..|constructor].
  - subst acc. destruct (is_blank b) eqn:Eb.
    + specialize (IH [] Hacc). rewrite bool_decide_true in IH by done. by apply words_blank.
    + specialize (IH [b] ltac:(by repeat constructor)). by rewrite bool_decide_false in IH by done.
  - destruct (is_blank b) eqn:Eb.
    + specialize (IH [] ltac:(constructor)). rewrite bool_decide_true in IH by done.
      apply words_run; [done|done| |by apply words_blank]. by intros ? [= <-].
    + specialize (IH (acc ++ [b])). rewrite <-app_assoc, bool_decide_false in IH by (by destruct acc).
      apply IH, Forall_app. by repeat constructor.
Qed.

(** Where a run ends is determined. *)
Lemma run_unique t1 t2 s1 s2 :
  t1 ++ s1 = t2 ++ s2 → Forall (λ b, is_blank b = false) t1 → Forall (λ b, is_blank b = false) t2 →
  (∀ b, head s1 = Some b → is_blank b = true) → (∀ b, head s2 = Some b → is_blank b = true) → t1 = t2 ∧ s1 = s2.
Proof.
  revert t2. induction t1 as [|b t1 IH]; intros [|c t2] E H1 H2 E1 E2; cbn in E; [done| | |].
  - subst s1. apply Forall_cons in H2 as [Hc _]. by rewrite (E1 c eq_refl) in Hc.
  - subst s2. apply Forall_cons in H1 as [Hb _]. by rewrite (E2 b eq_refl) in Hb.
  - injection E as -> E. apply Forall_cons in H1 as [_ H1]. apply Forall_cons in H2 as [_ H2].
    by destruct (IH t2 E H1 H2 E1 E2) as [-> ->].
Qed.

Lemma words_unique s ts1 ts2 : words s ts1 → words s ts2 → ts1 = ts2.
Proof.
  intros H. revert ts2. induction H as [|b s ts Hb _ IH|t s ts Hne Ht Hs _ IH]; intros ts2 H2.
  - remember [] as s0 eqn:E. destruct H2 as [|b s ts|t s ts Hne]; [done..|]. by destruct t.
  - remember (b :: s) as s0 eqn:E. destruct H2 as [|b' s' ts' _ H'|t s' ts' Hne Ht]; [done| |].
    + injection E as -> ->. by apply IH.
    + destruct t as [|c t]; [done|]. injection E as -> _. apply Forall_cons in Ht as [Hc _]. congruence.
  - remember (t ++ s) as s0 eqn:E. destruct H2 as [|b s' ts' Hb|t' s' ts' _ Ht' Hs' H'].
    + by destruct t.
    + destruct t as [|c t]; [done|]. injection E as -> _. apply Forall_cons in Ht as [Hc _]. congruence.
    + apply run_unique in E as [-> ->]; [|done..]. by rewrite (IH _ H').
Qed.

Lemma scan_term_inline text crlf rest :
  Forall (λ b, is_byte LF b = false) text → (crlf = false → ends_with_cr text = false) →
  scan_term kInline false (text ++ (if crlf then CRLF else [LF]) ++ rest) 0 =
    Some (zlen text + (if crlf then 1 else 0), crlf).
Proof.
  intros Hno Hcr. rewrite scan_term_app, scan_term_no_LF by done. destruct crlf.
  - cbn [app CRLF scan_term]. change (is_byte LF CR) with false. change (is_byte LF LF) with true.
    change (is_byte CR CR) with true. cbn. do 2 f_equal.
  - cbn [app scan_term]. change (is_byte LF LF) with true.
    fold (ends_with_cr text). rewrite Hcr by done. cbn. do 2 f_equal. lia.
Qed.

(** C34: an inline line.  A line of at most 64 KiB that does not start with a
    star, ended by CRLF or by a bare LF, is split into its maximal blank-free
    runs, of which there is one list.  Up to sixteen of them make the command;
    one more is a protocol error. *)
Theorem inline_grammar (text rest : bytes) (crlf : bool) (out : Command)
    (Hout : length (argv out) = 16%nat) (Hrest : zlen rest < 2 ^ 62)
    (Hlen : zlen text ≤ kMaxInlineLength)
    (Hstar : head text ≠ Some "*"%byte)
    (HnoLF : Forall (λ b, is_byte LF b = false) text)
    (Hcr : crlf = false → ends_with_cr text = false) :
  let eol := if crlf then CRLF else [LF] in
  ∃ toks,
    words text toks ∧ (∀ toks', words text toks' → toks' = toks) ∧
    parseCommand (text ++ eol ++ rest) out =
      Ok (if bool_decide (zlen toks ≤ kMaxArgs)
          then (mkParseResult PS_kOk (zlen text + zlen eol) [], command_of toks)
          else (fail kArgLength, emptyCommand)).
Proof.
  intros eol. exists (tokens [] text).
  pose proof (tokens_words [] text ltac:(constructor)) as Hw. rewrite bool_decide_true in Hw by done.
  split; [done|]. split; [intros toks' H'; by eapply words_unique|].
  rewrite parseCommand_spec;
    [|done|rewrite !length_app; unfold kMaxInlineLength, eol in *; destruct crlf; cbn; lia].
  assert (command_p (text ++ eol ++ rest) = inline_p (text ++ eol ++ rest)) as ->.
  { destruct text as [|c text]; [by destruct crlf|]. cbn [app command_p]. cbn in Hstar.
    rewrite (proj2 (is_byte_false _ _)); [done|]. congruence. }
  unfold inline_p, pbind.
  assert (line_p kInline kMaxInlineLength kInlineLength (text ++ eol ++ rest) =
          Done text (zlen text + zlen eol)) as ->.
  { apply line_p_Done; [done|].
    exists (zlen text + (if crlf then 1 else 0)), crlf.
    unfold eol. rewrite scan_term_inline by done. split_and!; [done|destruct crlf; lia| |destruct crlf; cbn; lia].
    by rewrite take_app_length' by (destruct crlf; lia). }
  unfold plift. case_bool_decide as Hn.
  - rewrite (proj2 (Z.leb_le _ _)) by done. by rewrite Z.add_0_r.
  - by rewrite (proj2 (Z.leb_gt _ _)) by lia.
Qed.

Lemma inline_grammar_witness :
  words (bstr "  SET k  v ") [bstr "SET"; bstr "k"; bstr "v"] ∧
    parseCommand (bstr "  SET k  v " ++ [LF] ++ bstr "rest") emptyCommand =
      Ok (mkParseResult PS_kOk (11 + 1) [], command_of [bstr "SET"; bstr "k"; bstr "v"]).
Proof.
  destruct (inline_grammar (bstr "  SET k  v ") (bstr "rest") false emptyCommand)
    as (toks & H1 & Hu & H2);
    [reflexivity|vm_compute; reflexivity|vm_compute; discriminate|vm_compute; discriminate
    |repeat constructor|reflexivity|].
  assert (words (bstr "  SET k  v ") [bstr "SET"; bstr "k"; bstr "v"]) as Hw
    by exact (tokens_words [] (bstr "  SET k  v ") ltac:(constructor)).
  split; [exact Hw|]. rewrite <-(Hu _ Hw) in H2. exact H2.
Defined.
