(* ===== verification/Entry.v ===== *)
(** * Entries, the clock constants and the entry pool
    ([src/core/entry.h], [src/core/entry.cpp], [src/core/clock.h], and the use of
    the pool in [src/core/table.h])

    An entry keeps the source's fields.  Its union is either 32 inline cells or
    a pointer to a block of cells; a cell is [None] while its byte is
    indeterminate.  The pool allocator is a third-party header: it is a
    parameter of the model, with the behaviour the table relies on as laws. *)

From Stdlib Require Import ZArith Lia Strings.Byte.
From stdpp Require Import base list gmap numbers.
From S2P Require Import Prelude.

Local Open Scope Z_scope.

(** Addresses of entries and of [new char[]] blocks (two disjoint spaces). *)
Abbreviation addr := positive.
Abbreviation cells := (list (option byte)).

Definition kNoExpiry : Z := -1.

(** [nowMs], from the nanoseconds of the steady clock; the cast rounds to zero. *)
Definition nowMs (ns : Z) : Z := Z.quot ns 1000000.
Definition kInlineCap : Z := 32.
Definition kPoolCapacity : Z := Z.shiftl 1 18.

(** redis-benchmark's default pair. *)
Definition kBenchKeyLen : Z := 16.
Definition kBenchValLen : Z := 3.

Module Ent.

Inductive storage :=
| inlineBuf (c : cells)
| bufPtr (p : addr).

Record Entry := mkEntry {
  next : option addr;
  expiresAtMs : Z;
  hash : Z;
  lruClock : Z;
  keyLen : Z;
  valLen : Z;
  union_ : storage;
}.

(** [n] rounded up to a multiple of [align]. *)
Definition round_up (n align : Z) : Z := (n + align - 1) / align * align.

(** Size and alignment of the members, in order, on a 64-bit machine.  A union is
    as large as its largest member and as aligned as the strictest. *)
Definition union_layout (l : list (Z * Z)) : Z * Z :=
  let align := foldr Z.max 1 l.*2 in
  (round_up (foldr Z.max 0 l.*1) align, align).

Definition layout : list (Z * Z) :=
  [(8, 8); (8, 8); (4, 4); (4, 4); (4, 4); (4, 4); union_layout [(kInlineCap, 1); (8, 8)]].

(** [sizeof], and the bytes of it that are padding. *)
Definition end_of (l : list (Z * Z)) : Z := foldl (λ off '(size, align), round_up off align + size) 0 l.
Definition alignof_Entry : Z := foldr Z.max 64 layout.*2.
Definition sizeof_Entry : Z := round_up (end_of layout) alignof_Entry.
Definition padding_Entry : Z := sizeof_Entry - foldr Z.add 0 layout.*1.

Definition set_next (x : option addr) (e : Entry) : Entry :=
  mkEntry x (expiresAtMs e) (hash e) (lruClock e) (keyLen e) (valLen e) (union_ e).
Definition set_expiresAtMs (x : Z) (e : Entry) : Entry :=
  mkEntry (next e) x (hash e) (lruClock e) (keyLen e) (valLen e) (union_ e).
Definition set_hash (x : Z) (e : Entry) : Entry :=
  mkEntry (next e) (expiresAtMs e) x (lruClock e) (keyLen e) (valLen e) (union_ e).
Definition set_lruClock (x : Z) (e : Entry) : Entry :=
  mkEntry (next e) (expiresAtMs e) (hash e) x (keyLen e) (valLen e) (union_ e).
Definition set_keyLen (x : Z) (e : Entry) : Entry :=
  mkEntry (next e) (expiresAtMs e) (hash e) (lruClock e) x (valLen e) (union_ e).
Definition set_valLen (x : Z) (e : Entry) : Entry :=
  mkEntry (next e) (expiresAtMs e) (hash e) (lruClock e) (keyLen e) x (union_ e).
Definition set_union (x : storage) (e : Entry) : Entry :=
  mkEntry (next e) (expiresAtMs e) (hash e) (lruClock e) (keyLen e) (valLen e) x.

(** A block fresh from the pool: every byte of the union is indeterminate.  The
    scalar fields are indeterminate too; [insert] writes each before anything
    reads it. *)
Definition raw : Entry := mkEntry None 0 0 0 0 0 (inlineBuf (replicate (Z.to_nat kInlineCap) None)).

Definition spilled (e : Entry) : bool := kInlineCap <? u32 (keyLen e + valLen e).

(** The cells [getBufData] points into: reading the inactive member of the union
    or a freed block is a fault. *)
Definition cells_of (blocks : gmap addr cells) (e : Entry) : result cells :=
  if spilled e then
    match union_ e with
    | bufPtr p => match blocks !! p with Some c => Ok c | None => Fault FNull end
    | inlineBuf _ => Fault FUninit
    end
  else
    match union_ e with
    | inlineBuf c => Ok c
    | bufPtr _ => Fault FUninit
    end.

(** The bytes of a range of cells, all of which must be initialised. *)
Definition read_cells (c : cells) (start n : Z) : result bytes :=
  check (0 <=? start) && (start + n <=? zlen c) or FBounds;
  match mapM id (slice c start n) with
  | Some s => Ok s
  | None => Fault FUninit
  end.

Definition getBufData (blocks : gmap addr cells) (e : Entry) (start size : Z) : result bytes :=
  let* c := cells_of blocks e in
  read_cells c start size.

Definition key (blocks : gmap addr cells) (e : Entry) : result bytes :=
  getBufData blocks e 0 (keyLen e).

Definition value (blocks : gmap addr cells) (e : Entry) : result bytes :=
  getBufData blocks e (keyLen e) (valLen e).

Definition expired (now : Z) (e : Entry) : bool :=
  if expiresAtMs e =? kNoExpiry then false else expiresAtMs e <? now.

(** Cells that start with the bytes [a ++ s] hold [s] after [a]. *)
Lemma read_cells_ok (c : cells) (a s : bytes) :
  take (length (a ++ s)) c = Some <$> (a ++ s) → read_cells c (zlen a) (zlen s) = Ok s.
Proof.
  intros Hc. unfold read_cells.
  assert (length (a ++ s) ≤ length c)%nat as Hl.
  { apply (f_equal length) in Hc. rewrite length_take, length_fmap in Hc. lia. }
  rewrite length_app in Hl.
  rewrite (proj2 (Z.leb_le 0 _)), (proj2 (Z.leb_le _ _)) by lia. cbn [andb].
  assert (slice c (zlen a) (zlen s) = Some <$> s) as ->.
  { rewrite <-(slice_take_nat c _ _ (length (a ++ s))), Hc by (rewrite ?length_app; lia).
    rewrite fmap_app, slice_app_r by (rewrite length_fmap; lia).
    rewrite length_fmap, Z.sub_diag. apply slice_whole. rewrite length_fmap. lia. }
  assert (mapM id (Some <$> s) = Some s) as ->; [|done].
  apply mapM_Some, Forall2_fmap_l, Forall_Forall2_diag, Forall_true. done.
Qed.

Lemma expired_spec now e :
  expired now e = true ↔ expiresAtMs e ≠ kNoExpiry ∧ expiresAtMs e < now.
Proof.
  unfold expired. destruct (Z.eqb_spec (expiresAtMs e) kNoExpiry); [naive_solver|].
  rewrite Z.ltb_lt. naive_solver.
Qed.

(** The assertions of the header, the one on padding included. *)
Lemma layout_asserts :
  sizeof_Entry = 64 ∧ alignof_Entry = 64 ∧ padding_Entry = 0 ∧ kBenchKeyLen + kBenchValLen ≤ kInlineCap.
Proof. by vm_compute. Qed.

End Ent.

(** ** The pool

    [PoolAllocator<Entry, kPoolCapacity>] hands out blocks of one slab and never
    grows ([table.h]).  [pool_live] observes which blocks are handed out. *)
Class PoolAllocator (P : Type) := {
  pool_empty : P;
  tryAllocate : P → option addr * P;
  deallocate : addr → P → P;
  pool_live : P → gset addr;
  pool_empty_live : pool_live pool_empty = ∅;
  (* a block is handed out only below the capacity, and never one in use *)
  tryAllocate_Some p a p' :
    tryAllocate p = (Some a, p') →
    (a ∉ pool_live p) ∧ (Z.of_nat (size (pool_live p)) < kPoolCapacity)%Z ∧
    pool_live p' = {[a]} ∪ pool_live p;
  (* nullptr only when every block is handed out *)
  tryAllocate_None p p' :
    tryAllocate p = (None, p') →
    kPoolCapacity ≤ Z.of_nat (size (pool_live p)) ∧ pool_live p' = pool_live p;
  deallocate_live a p :
    a ∈ pool_live p → pool_live (deallocate a p) = pool_live p ∖ {[a]};
}.

(** An allocator that satisfies the laws: the pool is the set of blocks handed
    out. *)
Definition set_tryAllocate (p : gset addr) : option addr * gset addr :=
  if Z.of_nat (size p) <? kPoolCapacity then (Some (fresh p), {[fresh p]} ∪ p) else (None, p).

#[global] Program Instance set_pool : PoolAllocator (gset addr) := {
  pool_empty := ∅;
  tryAllocate := set_tryAllocate;
  deallocate a p := p ∖ {[a]};
  pool_live p := p;
}.
Next Obligation. done. Qed.
Next Obligation.
  intros p a p'. unfold set_tryAllocate.
  destruct (Z.ltb_spec (Z.of_nat (size p)) kPoolCapacity) as [Hs|Hs]; [|done].
  intros [= <- <-]. split; [apply is_fresh|done].
Qed.
Next Obligation.
  intros p p'. unfold set_tryAllocate.
  destruct (Z.ltb_spec (Z.of_nat (size p)) kPoolCapacity) as [Hs|Hs]; [done|]. by intros [= <-].
Qed.
Next Obligation. done. Qed.
