(* ===== verification/Table.v ===== *)
(** * The hash table ([src/core/table.h], [src/core/table.cpp])

    Chains of entries linked by address through a heap of entries ([mem]), spill
    blocks in a heap of character arrays ([blocks]), and the pool.  Every
    dereference, array access, [new] and [delete] of the source is a step here,
    and a wrong one is a fault. *)

From Stdlib Require Import ZArith Lia Strings.Byte.
From stdpp Require Import base list gmap numbers strings.
From S2P Require Import Prelude Bits Hash Entry.

Local Open Scope Z_scope.

Module Tbl.
Import Ent.

Definition kMinBuckets : Z := 4.

(** [std::vector<Entry*>::max_size()]. *)
Definition MAX_POINTERS : Z := 2 ^ 60 - 1.

Section table.
Context {P : Type} `{!PoolAllocator P}.

Record Table := mkTable {
  buckets_ : list (option addr);
  pool_ : P;
  liveCount_ : Z;
  hashSeed_ : Z;
  mem : gmap addr Entry;
  blocks : gmap addr cells;
}.

Definition with_buckets (x : list (option addr)) (t : Table) : Table :=
  mkTable x (pool_ t) (liveCount_ t) (hashSeed_ t) (mem t) (blocks t).
Definition with_pool (x : P) (t : Table) : Table :=
  mkTable (buckets_ t) x (liveCount_ t) (hashSeed_ t) (mem t) (blocks t).
Definition with_liveCount (x : Z) (t : Table) : Table :=
  mkTable (buckets_ t) (pool_ t) x (hashSeed_ t) (mem t) (blocks t).
Definition with_mem (x : gmap addr Entry) (t : Table) : Table :=
  mkTable (buckets_ t) (pool_ t) (liveCount_ t) (hashSeed_ t) x (blocks t).
Definition with_blocks (x : gmap addr cells) (t : Table) : Table :=
  mkTable (buckets_ t) (pool_ t) (liveCount_ t) (hashSeed_ t) (mem t) x.

(** ** Memory *)

Definition entry_at (t : Table) (a : addr) : result Entry :=
  match mem t !! a with
  | Some e => Ok e
  | None => Fault FNull
  end.

(** A store through [Entry*]: [f] is the field assignment. *)
Definition upd (a : addr) (f : Entry → Entry) (t : Table) : result Table :=
  let* e := entry_at t a in
  Ok (with_mem (<[a := f e]> (mem t)) t).

(** [new char[n]]. *)
Definition new_chars (n : Z) (t : Table) : addr * Table :=
  let p := fresh (dom (blocks t)) in
  (p, with_blocks (<[p := replicate (Z.to_nat n) None]> (blocks t)) t).

(** [delete[] p]; deleting nullptr does nothing. *)
Definition delete_chars (p : option addr) (t : Table) : result Table :=
  match p with
  | None => Ok t
  | Some p =>
      match blocks t !! p with
      | Some _ => Ok (with_blocks (delete p (blocks t)) t)
      | None => Fault FBadFree
      end
  end.

(** [pool_.deallocate(e)]: the block must be one the pool handed out. *)
Definition pool_free (a : addr) (t : Table) : result Table :=
  match mem t !! a with
  | Some _ => Ok (with_pool (deallocate a (pool_ t)) (with_mem (delete a (mem t)) t))
  | None => Fault FBadFree
  end.

(** [e->bufPtr] read: the pointer must be the active member. *)
Definition get_bufPtr (t : Table) (a : addr) : result addr :=
  let* e := entry_at t a in
  match union_ e with
  | bufPtr p => Ok p
  | inlineBuf _ => Fault FUninit
  end.

(** [memcpy] of [s] to offset [off] of the block [p]. *)
Definition write_block (p : addr) (off : Z) (s : bytes) (t : Table) : result Table :=
  match blocks t !! p with
  | Some c =>
      let* c := store_at c off (Some <$> s) in
      Ok (with_blocks (<[p := c]> (blocks t)) t)
  | None => Fault FNull
  end.

(** [memcpy] of [s] to offset [off] of [e->inlineBuf]; a write over the pointer
    makes the array the active member. *)
Definition write_inline (a : addr) (off : Z) (s : bytes) (t : Table) : result Table :=
  let* e := entry_at t a in
  let c := match union_ e with
           | inlineBuf c => c
           | bufPtr _ => replicate (Z.to_nat kInlineCap) None
           end in
  let* c := store_at c off (Some <$> s) in
  upd a (set_union (inlineBuf c)) t.

(** [memcpy(dst + off, ...)] where [dst] is [e->bufPtr] or [e->inlineBuf.data()]. *)
Definition write_dst (spill : bool) (a : addr) (off : Z) (s : bytes) (t : Table) : result Table :=
  if spill then let* p := get_bufPtr t a in write_block p off s t
  else write_inline a off s t.

(** ** Reading the table *)

Definition size (t : Table) : Z := liveCount_ t.
Definition bucketCount (t : Table) : Z := zlen (buckets_ t).
Definition used (t : Table) : Z := size t.

Definition bucketOf (t : Table) (h : Z) : Z := Z.land h (u64 (bucketCount t - 1)).

(** [buckets_[i] = x]. *)
Definition set_bucket (i : Z) (x : option addr) (l : list (option addr)) : result (list (option addr)) :=
  check (0 <=? i) && (i <? zlen l) or FBounds;
  Ok (<[Z.to_nat i := x]> l).

Definition hash32 (t : Table) (k : bytes) : result Z :=
  let* h := hashBytes k (hashSeed_ t) in
  Ok (u32 h).

(** A walk meets each entry of the heap at most once. *)
Definition chain_fuel (t : Table) : nat := S (base.size (mem t)).

Fixpoint find_loop (fuel : nat) (t : Table) (h32 : Z) (k : bytes) (e : option addr) :
    result (option addr) :=
  match fuel with
  | O => Fault FFuel
  | S fuel =>
      match e with
      | None => Ok None
      | Some a =>
          let* x := entry_at t a in
          let* same :=
            (if (hash x =? h32) && (keyLen x =? zlen k) then
               let* k' := key (blocks t) x in Ok (bool_decide (k' = k))
             else Ok false) in
          if same : bool then Ok (Some a) else find_loop fuel t h32 k (next x)
      end
  end.

Definition find (k : bytes) (t : Table) : result (option addr) :=
  let* h32 := hash32 t k in
  let* e := at_ (buckets_ t) (bucketOf t h32) in
  find_loop (chain_fuel t) t h32 k e.

(** ** Growth *)

(** The state of [rehash]'s loops: the new bucket array, and the table whose
    links are being rewritten. *)
Fixpoint rehash_chain (fuel : nat) (mask : Z) (e : option addr)
    (nx : list (option addr)) (t : Table) : result (list (option addr) * Table) :=
  match fuel with
  | O => Fault FFuel
  | S fuel =>
      match e with
      | None => Ok (nx, t)
      | Some a =>
          let* x := entry_at t a in
          let after := next x in
          let i := Z.land (hash x) mask in
          let* slot := at_ nx i in
          let* t := upd a (set_next slot) t in
          let* nx := set_bucket i (Some a) nx in
          rehash_chain fuel mask after nx t
      end
  end.

Fixpoint rehash_heads (heads : list (option addr)) (mask : Z)
    (nx : list (option addr)) (t : Table) : result (list (option addr) * Table) :=
  match heads with
  | [] => Ok (nx, t)
  | head :: heads =>
      let* (nx, t) := rehash_chain (chain_fuel t) mask head nx t in
      rehash_heads heads mask nx t
  end.

Definition has_single_bit (n : Z) : bool := (0 <? n) && (Z.land n (n - 1) =? 0).

Definition rehash (newBucketCount : Z) (t : Table) : result Table :=
  check has_single_bit newBucketCount && (bucketCount t <=? newBucketCount) or FAssert;
  check newBucketCount <=? MAX_POINTERS or FLength;
  let nx := replicate (Z.to_nat newBucketCount) None in
  let mask := u64 (newBucketCount - 1) in
  let* (nx, t) := rehash_heads (buckets_ t) mask nx t in
  Ok (with_buckets nx t).

Definition maybeGrow (t : Table) : result Table :=
  if bucketCount t <? liveCount_ t then rehash (u64 (bucketCount t * 2)) t else Ok t.

(** ** Changing the table *)

Definition insert (k v : bytes) (t : Table) : result (option addr * Table) :=
  let klen := u32 (zlen k) in
  let vlen := u32 (zlen v) in
  let spill := kInlineCap <? u32 (klen + vlen) in
  let '(heap, t) :=
    if spill then let '(p, t) := new_chars (u32 (klen + vlen)) t in (Some p, t) else (None, t) in
  let '(e, pl) := tryAllocate (pool_ t) in
  let t := with_pool pl t in
  match e with
  | None => let* t := delete_chars heap t in Ok (None, t)
  | Some a =>
      let t := with_mem (<[a := raw]> (mem t)) t in
      let* h := hash32 t k in
      let* t := upd a (set_hash h) t in
      let* t := upd a (set_keyLen klen) t in
      let* t := upd a (set_valLen vlen) t in
      let* t := upd a (set_expiresAtMs kNoExpiry) t in
      let* t := upd a (set_lruClock 0) t in
      let* t := match heap with Some p => upd a (set_union (bufPtr p)) t | None => Ok t end in
      let* t := write_dst spill a 0 (take (Z.to_nat klen) k) t in
      let* t := write_dst spill a klen (take (Z.to_nat vlen) v) t in
      let* x := entry_at t a in
      let i := bucketOf t (hash x) in
      let* head := at_ (buckets_ t) i in
      let* t := upd a (set_next head) t in
      let* bs := set_bucket i (Some a) (buckets_ t) in
      let t := with_buckets bs t in
      let t := with_liveCount (u64 (liveCount_ t + 1)) t in
      let* t := maybeGrow t in
      Ok (Some a, t)
  end.

Definition assign (a : addr) (v : bytes) (t : Table) : result Table :=
  let vlen := u32 (zlen v) in
  let* e := entry_at t a in
  let wasSpilled := spilled e in
  let willSpill := kInlineCap <? u32 (keyLen e + vlen) in
  let* old := (if wasSpilled then let* p := get_bufPtr t a in Ok (Some p) else Ok None) in
  let* (old, t) :=
    (if willSpill && (negb wasSpilled || (valLen e <? vlen)) then
       let '(p, t) := new_chars (u32 (keyLen e + vlen)) t in
       let* k := key (blocks t) e in
       let* t := write_block p 0 k t in
       let* t := upd a (set_union (bufPtr p)) t in
       Ok (old, t)
     else if negb willSpill && wasSpilled then
       let* k := (match old with
                  | Some p => match blocks t !! p with
                              | Some c => read_cells c 0 (keyLen e)
                              | None => Fault FNull
                              end
                  | None => Fault FNull
                  end) in
       let* t := write_inline a 0 k t in
       Ok (old, t)
     else Ok (None, t)) in
  let* t := write_dst willSpill a (keyLen e) (take (Z.to_nat vlen) v) t in
  let* t := upd a (set_valLen vlen) t in
  delete_chars old t.

(** [Entry** link]: the bucket slot or some entry's [next]. *)
Inductive link :=
| LBucket (i : Z)
| LNext (a : addr).

Definition read_link (l : link) (t : Table) : result (option addr) :=
  match l with
  | LBucket i => at_ (buckets_ t) i
  | LNext a => let* e := entry_at t a in Ok (next e)
  end.

Definition write_link (l : link) (x : option addr) (t : Table) : result Table :=
  match l with
  | LBucket i => let* bs := set_bucket i x (buckets_ t) in Ok (with_buckets bs t)
  | LNext a => upd a (set_next x) t
  end.

Fixpoint remove_loop (fuel : nat) (a : addr) (l : link) (t : Table) : result link :=
  match fuel with
  | O => Fault FFuel
  | S fuel =>
      let* cur := read_link l t in
      if bool_decide (cur = Some a) then Ok l
      else
        match cur with
        | None => Fault FAssert
        | Some b => remove_loop fuel a (LNext b) t
        end
  end.

(** [if (e->spilled()) delete[] e->bufPtr; pool_.deallocate(e);] *)
Definition free_entry (a : addr) (t : Table) : result Table :=
  let* e := entry_at t a in
  let* t := (if spilled e then let* p := get_bufPtr t a in delete_chars (Some p) t else Ok t) in
  pool_free a t.

Definition remove (a : addr) (t : Table) : result Table :=
  let* e := entry_at t a in
  let* l := remove_loop (S (chain_fuel t)) a (LBucket (bucketOf t (hash e))) t in
  let* t := write_link l (next e) t in
  let* t := free_entry a t in
  Ok (with_liveCount (u64 (liveCount_ t - 1)) t).

Fixpoint clear_chain (fuel : nat) (e : option addr) (t : Table) : result Table :=
  match fuel with
  | O => Fault FFuel
  | S fuel =>
      match e with
      | None => Ok t
      | Some a =>
          let* x := entry_at t a in
          let nx := next x in
          let* t := free_entry a t in
          clear_chain fuel nx t
      end
  end.

(** The bucket loop of [clear], [todo] buckets to go from index [i]. *)
Fixpoint clear_buckets (todo : nat) (i : Z) (t : Table) : result Table :=
  match todo with
  | O => Ok t
  | S todo =>
      let* head := at_ (buckets_ t) i in
      let* t := clear_chain (chain_fuel t) head t in
      let* bs := set_bucket i None (buckets_ t) in
      clear_buckets todo (i + 1) (with_buckets bs t)
  end.

Definition clear (t : Table) : result Table :=
  let* t := clear_buckets (length (buckets_ t)) 0 t in
  Ok (with_liveCount 0 t).

(** The destructor: the buckets and the pool go with it. *)
Definition destroy (t : Table) : result Table := clear t.

Definition make (initialBuckets seed : Z) : result Table :=
  let* n := nextPow2 initialBuckets in
  let n := Z.max kMinBuckets n in
  check n <=? MAX_POINTERS or FLength;
  Ok (mkTable (replicate (Z.to_nat n) None) pool_empty 0 seed ∅ ∅).

(** ** Walks *)

(** [scanBucket] over a caller's state [S] that contains the table, since the
    visitor may change both. *)
Section scan.
Context {S : Type} (table_ : S → Table) (visit : addr → S → result S).

Fixpoint scan_loop (fuel : nat) (e : option addr) (s : S) : result S :=
  match fuel with
  | O => Fault FFuel
  | Datatypes.S fuel =>
      match e with
      | None => Ok s
      | Some a =>
          let* x := entry_at (table_ s) a in
          let nx := next x in
          let* s := visit a s in
          scan_loop fuel nx s
      end
  end.

Definition scanBucket (cursor : Z) (s : S) : result (Z * S) :=
  let mask := u64 (bucketCount (table_ s) - 1) in
  let* head := at_ (buckets_ (table_ s)) (Z.land cursor mask) in
  let* s := scan_loop (chain_fuel (table_ s)) head s in
  Ok (nextCursor cursor mask, s).
End scan.

(** The inner loop of [sampleSome]: [acc] is what is written so far. *)
Fixpoint sample_chain (fuel : nat) (cap : Z) (t : Table) (e : option addr) (acc : list addr) :
    result (list addr) :=
  match fuel with
  | O => Fault FFuel
  | S fuel =>
      match e with
      | None => Ok acc
      | Some a =>
          if zlen acc <? cap then
            let* x := entry_at t a in
            sample_chain fuel cap t (next x) (acc ++ [a])
          else Ok acc
      end
  end.

Fixpoint sample_buckets (budget : nat) (cap mask idx : Z) (t : Table) (acc : list addr) :
    result (list addr) :=
  match budget with
  | O => Ok acc
  | S budget =>
      if zlen acc <? cap then
        let* head := at_ (buckets_ t) idx in
        let* acc := sample_chain (chain_fuel t) cap t head acc in
        sample_buckets budget cap mask (Z.land (u64 (idx + 1)) mask) t acc
      else Ok acc
  end.

(** The entries written to a span of [cap] slots, and the advanced generator. *)
Definition sampleSome (cap rngState : Z) (t : Table) : result (list addr * Z) :=
  if (size t =? 0) || (cap =? 0) then Ok ([], rngState)
  else
    let mask := u64 (bucketCount t - 1) in
    let budget := Z.min (u64 (cap * 10)) (bucketCount t) in
    let '(rngState, r) := splitmix64 rngState in
    let* l := sample_buckets (Z.to_nat budget) cap mask (Z.land r mask) t [] in
    Ok (l, rngState).

End table.

Arguments Table P : clear implicits.

(** ** Examples *)

Definition demo : result (Table (gset addr)) :=
  let* t := make 4 42 in
  let* (_, t) := insert (bstr "alpha") (bstr "1") t in
  let* (_, t) := insert (bstr "beta") (replicate 40 x62) t in
  let* (_, t) := insert (bstr "gamma") (bstr "3") t in
  let* (_, t) := insert (bstr "delta") [] t in
  let* (_, t) := insert (bstr "epsilon") (bstr "5") t in
  Ok t.

Definition lookup_value {P} `{!PoolAllocator P} (k : bytes) (t : Table P) : result (option bytes) :=
  let* p := find k t in
  match p with
  | None => Ok None
  | Some a => let* e := entry_at t a in let* v := value (blocks t) e in Ok (Some v)
  end.

(** The fifth insertion grew the table; every key is still there. *)
Example demo_grown :
  (let* t := demo in
   let* b := lookup_value (bstr "beta") t in
   let* c := lookup_value (bstr "epsilon") t in
   let* d := lookup_value (bstr "zeta") t in
   Ok (bucketCount t, liveCount_ t, b, c, d)) =
  Ok (8, 5, Some (replicate 40 x62), Some (bstr "5"), None).
Proof. vm_compute. reflexivity. Qed.

(** Shrinking a spilled value to an inline one frees its block; removing the
    entry empties the bucket. *)
Example demo_assign :
  (let* t := demo in
   let* p := find (bstr "beta") t in
   match p with
   | None => Fault FNull
   | Some a =>
       let* t := assign a (bstr "short") t in
       let* v := lookup_value (bstr "beta") t in
       let n := base.size (blocks t) in
       let* t := remove a t in
       let* w := lookup_value (bstr "beta") t in
       Ok (v, n, w, liveCount_ t)
   end) = Ok (Some (bstr "short"), 0%nat, None, 4).
Proof. vm_compute. reflexivity. Qed.

End Tbl.
