(* ===== verification/TableLinks.v ===== *)
(** * The linked structure of the table, in isolation

    A link map gives each entry's [next] and [hash]; [links] says that bucket
    heads and links form disjoint lists, each entry in the bucket its hash picks.
    Pushing at a head and unlinking anywhere preserve it. *)

From Stdlib Require Import ZArith Lia.
From stdpp Require Import base gmap numbers list.
From S2P Require Import Prelude Entry.

Local Open Scope Z_scope.

(** ** Joined buckets *)

Section buckets.
Context {A : Type}.
Implicit Types (bs : list (list A)) (l : list A).

Lemma bucket_join bs i l : bs !! i = Some l → mjoin bs ≡ₚ l ++ mjoin (delete i bs).
Proof. intros Hi. by rewrite (delete_Permutation _ _ _ Hi) at 1. Qed.

Lemma bucket_join_insert bs i l l' :
  bs !! i = Some l → mjoin (<[i := l']> bs) ≡ₚ l' ++ mjoin (delete i bs).
Proof.
  intros Hi. apply lookup_lt_Some in Hi as Hlt.
  rewrite (delete_Permutation (<[i := l']> bs) i l') by by apply list_lookup_insert_eq.
  rewrite !delete_take_drop, take_insert_ge, drop_insert_lt by lia. done.
Qed.

Lemma elem_of_bucket bs i l a : bs !! i = Some l → a ∈ l → a ∈ mjoin bs.
Proof. intros Hi Ha. apply list_elem_of_join. exists l. split; [done|]. by eapply list_elem_of_lookup_2. Qed.

Lemma elem_of_join_bucket bs a : a ∈ mjoin bs → ∃ i l, bs !! i = Some l ∧ a ∈ l.
Proof. intros (l & Ha & [i Hi]%list_elem_of_lookup)%list_elem_of_join. eauto. Qed.

Lemma bucket_NoDup bs i l : NoDup (mjoin bs) → bs !! i = Some l → NoDup l.
Proof. intros Hnd Hi. rewrite (bucket_join _ _ _ Hi) in Hnd. by apply NoDup_app in Hnd as (? & _). Qed.

Lemma bucket_disjoint bs i j l l' a :
  NoDup (mjoin bs) → bs !! i = Some l → bs !! j = Some l' → i ≠ j → a ∈ l → a ∉ l'.
Proof.
  intros Hnd Hi Hj Hij Ha Ha'. rewrite (bucket_join _ _ _ Hi) in Hnd.
  apply NoDup_app in Hnd as (_ & Hd & _). apply (Hd a Ha).
  apply list_elem_of_join. exists l'. split; [done|].
  rewrite delete_take_drop, elem_of_app. destruct (decide (j < i)%nat).
  - left. apply (list_elem_of_lookup_2 _ j). by rewrite lookup_take_lt.
  - right. apply (list_elem_of_lookup_2 _ (j - S i)). rewrite lookup_drop. by replace (S i + (j - S i))%nat with j by lia.
Qed.

End buckets.

(** An element that occurs once splits a list in one way. *)
Lemma app_cons_unique {A} (l1 l2 k1 k2 : list A) a :
  l1 ++ a :: l2 = k1 ++ a :: k2 → a ∉ l1 → a ∉ k1 → l1 = k1 ∧ l2 = k2.
Proof.
  revert k1. induction l1 as [|b l1 IH]; intros [|c k1]; cbn; intros Heq Hl Hk.
  - by injection Heq.
  - injection Heq as -> _. destruct Hk. by left.
  - injection Heq as <- _. destruct Hl. by left.
  - injection Heq as -> Heq. destruct (IH k1 Heq) as [-> ->]; [..|done].
    + intros ?. apply Hl. by right.
    + intros ?. apply Hk. by right.
Qed.

(** ** Segments of a chain *)

Abbreviation link_map := (gmap addr (option addr * Z)).

(** The links from [p] run through [l] and end at [q]. *)
Fixpoint seg (lm : link_map) (p : option addr) (l : list addr) (q : option addr) : Prop :=
  match l with
  | [] => p = q
  | a :: l => p = Some a ∧ ∃ n h, lm !! a = Some (n, h) ∧ seg lm n l q
  end.

Abbreviation chain lm p l := (seg lm p l None).

Lemma seg_frame lm lm' p l q :
  seg lm p l q → (∀ a, a ∈ l → lm' !! a = lm !! a) → seg lm' p l q.
Proof.
  revert p. induction l as [|a l IH]; intros p; [done|]. cbn. intros (-> & n & h & Ha & Hs) Hlm.
  split; [done|]. exists n, h. rewrite Hlm by set_solver. split; [done|].
  apply IH; [done|]. intros b Hb. apply Hlm. set_solver.
Qed.

Lemma seg_app lm p l1 l2 q : seg lm p (l1 ++ l2) q ↔ ∃ m, seg lm p l1 m ∧ seg lm m l2 q.
Proof.
  revert p. induction l1 as [|a l1 IH]; intros p; cbn.
  - split; [by exists p|]. by intros (m & -> & ?).
  - split.
    + intros (-> & n & h & Ha & (m & H1 & H2)%IH). exists m. split; [|done]. split; [done|]. by exists n, h.
    + intros (m & (-> & n & h & Ha & H1) & H2). split; [done|]. exists n, h. split; [done|].
      apply IH. by exists m.
Qed.

Lemma seg_elem lm p l q a : seg lm p l q → a ∈ l → is_Some (lm !! a).
Proof.
  intros Hs (l1 & l2 & ->)%list_elem_of_split. apply seg_app in Hs as (m & _ & (_ & n & h & Ha & _)).
  by eexists.
Qed.

(** Redirecting the last link of a segment. *)
Lemma seg_redirect lm p l b q n' h :
  seg lm p (l ++ [b]) q → b ∉ l → lm !! b = Some (q, h) →
  seg (<[b := (n', h)]> lm) p (l ++ [b]) n'.
Proof.
  intros (m & H1 & (-> & _))%seg_app Hb Hh. apply seg_app. exists (Some b). split.
  - eapply seg_frame; [done|]. intros a Ha. by rewrite lookup_insert_ne by set_solver.
  - cbn. split; [done|]. exists n', h. by rewrite lookup_insert_eq.
Qed.

Lemma seg_last lm p l b q : seg lm p (l ++ [b]) q → ∃ h, lm !! b = Some (q, h).
Proof. intros (m & _ & (-> & n & h & Hb & Hn))%seg_app. cbn in Hn. subst. by exists h. Qed.

(** ** The whole structure *)

Record links (mask : Z) (bk : list (option addr)) (lm : link_map) (bs : list (list addr)) : Prop := {
  lk_len : length bs = length bk;
  lk_chain i p l : bk !! i = Some p → bs !! i = Some l → chain lm p l;
  lk_place i l a n h : bs !! i = Some l → a ∈ l → lm !! a = Some (n, h) → Z.land h mask = Z.of_nat i;
  lk_nodup : NoDup (mjoin bs);
}.

Section links.
Context (mask : Z) (bk : list (option addr)) (lm : link_map) (bs : list (list addr)).
Hypothesis HL : links mask bk lm bs.

Lemma links_bucket i p : bk !! i = Some p → ∃ l, bs !! i = Some l ∧ chain lm p l.
Proof.
  intros Hi. apply lookup_lt_Some in Hi as Hlt. rewrite <-(lk_len _ _ _ _ HL) in Hlt.
  apply lookup_lt_is_Some_2 in Hlt as [l Hl]. exists l. split; [done|]. by eapply lk_chain.
Qed.

Lemma links_heads i l : bs !! i = Some l → ∃ p, bk !! i = Some p ∧ chain lm p l.
Proof.
  intros Hi. apply lookup_lt_Some in Hi as Hlt. rewrite (lk_len _ _ _ _ HL) in Hlt.
  apply lookup_lt_is_Some_2 in Hlt as [p Hp]. exists p. split; [done|]. by eapply lk_chain.
Qed.

Lemma links_frame lm' :
  (∀ a, a ∈ mjoin bs → lm' !! a = lm !! a) → links mask bk lm' bs.
Proof.
  intros Hlm. split.
  - by apply (lk_len _ _ _ _ HL).
  - intros i p l Hp Hl. eapply seg_frame; [by eapply lk_chain|].
    intros a Ha. apply Hlm. by eapply elem_of_bucket.
  - intros i l a n h Hl Ha Hh. eapply lk_place; [done..|]. rewrite <-Hlm; [done|]. by eapply elem_of_bucket.
  - by apply (lk_nodup _ _ _ _ HL).
Qed.

(** [e->next = head; head = e;] for an entry in no bucket. *)
Lemma links_push i p l a h :
  a ∉ mjoin bs → bk !! i = Some p → bs !! i = Some l → Z.land h mask = Z.of_nat i →
  links mask (<[i := Some a]> bk) (<[a := (p, h)]> lm) (<[i := a :: l]> bs).
Proof.
  intros Ha Hp Hl Hh. pose proof (lookup_lt_Some _ _ _ Hp). pose proof (lookup_lt_Some _ _ _ Hl).
  assert (∀ j l', bs !! j = Some l' → ∀ b, b ∈ l' → b ≠ a) as Hne.
  { intros j l' Hj b Hb ->. by eapply Ha, elem_of_bucket. }
  assert (∀ j l', bs !! j = Some l' → ∀ b, b ∈ l' → <[a := (p, h)]> lm !! b = lm !! b) as Hfr.
  { intros j l' Hj b Hb. apply lookup_insert_ne. intros <-. by eapply Hne. }
  split.
  - rewrite !length_insert. by apply (lk_len _ _ _ _ HL).
  - intros j q l'. destruct (decide (i = j)) as [<-|Hij].
    + rewrite !list_lookup_insert_eq by done. intros [= <-] [= <-]. cbn. split; [done|].
      exists p, h. rewrite lookup_insert_eq. split; [done|].
      eapply seg_frame; [by eapply lk_chain|]. eauto.
    + rewrite !list_lookup_insert_ne by done. intros Hq Hl'.
      eapply seg_frame; [by eapply lk_chain|]. eauto.
  - intros j l' b n h'. destruct (decide (b = a)) as [->|Hba].
    + rewrite lookup_insert_eq. destruct (decide (i = j)) as [<-|Hij]; [by intros _ _ [= _ <-]|].
      rewrite list_lookup_insert_ne by done. intros Hl' Hal'. by destruct (Hne j l' Hl' a Hal').
    + rewrite lookup_insert_ne by done. destruct (decide (i = j)) as [<-|Hij].
      * rewrite list_lookup_insert_eq by done. intros [= <-] Hb Hb2.
        eapply lk_place; [done|done| |done]. set_solver.
      * rewrite list_lookup_insert_ne by done. intros. by eapply lk_place.
  - rewrite (bucket_join_insert _ _ _ _ Hl). cbn [app]. rewrite NoDup_cons, <-(bucket_join _ _ _ Hl).
    split; [done|]. by apply (lk_nodup _ _ _ _ HL).
Qed.

(** [*link = e->next;] where [l1] precedes the entry: the link is the bucket head
    or the [next] of the last entry of [l1]. *)
Definition unlinked_heads (i : nat) (l1 : list addr) (n : option addr) : list (option addr) :=
  match last l1 with Some _ => bk | None => <[i := n]> bk end.

Definition unlinked_map (l1 : list addr) (n : option addr) : link_map :=
  match last l1 with
  | Some b => match lm !! b with Some (_, h) => <[b := (n, h)]> lm | None => lm end
  | None => lm
  end.

Lemma unlinked_map_other l1 n b : last l1 ≠ Some b → unlinked_map l1 n !! b = lm !! b.
Proof.
  intros Hb. unfold unlinked_map. destruct (last l1) as [c|]; [|done].
  destruct (lm !! c) as [[m h]|]; [|done]. by rewrite lookup_insert_ne by congruence.
Qed.

Lemma unlinked_map_hash l1 n b : snd <$> unlinked_map l1 n !! b = snd <$> lm !! b.
Proof.
  unfold unlinked_map. destruct (last l1) as [c|]; [|done].
  destruct (lm !! c) as [[m h]|] eqn:Ec; [|done].
  destruct (decide (c = b)) as [<-|]; [by rewrite lookup_insert_eq, Ec|by rewrite lookup_insert_ne].
Qed.

Lemma links_unlink i l1 a l2 n h :
  bs !! i = Some (l1 ++ a :: l2) → lm !! a = Some (n, h) →
  links mask (unlinked_heads i l1 n) (delete a (unlinked_map l1 n)) (<[i := l1 ++ l2]> bs).
Proof.
  intros Hl Ha. destruct (links_heads _ _ Hl) as (p & Hp & Hc).
  pose proof (lookup_lt_Some _ _ _ Hp) as Hip. pose proof (lookup_lt_Some _ _ _ Hl) as Hil.
  pose proof (lk_nodup _ _ _ _ HL) as Hnd.
  pose proof (bucket_NoDup _ _ _ Hnd Hl) as Hnd_l.
  assert ((a ∉ l1) ∧ (a ∉ l2)) as [Ha1 Ha2].
  { apply NoDup_app in Hnd_l as (_ & Hd & Hr). apply NoDup_cons in Hr as [? _]. set_solver. }
  assert (∀ b, b ∈ l2 → last l1 ≠ Some b) as Hlast2.
  { intros b Hb Hlb. apply NoDup_app in Hnd_l as (_ & Hd & _).
    apply last_Some in Hlb as (l' & ->). apply (Hd b); set_solver. }
  split.
  - unfold unlinked_heads. rewrite length_insert. pose proof (lk_len _ _ _ _ HL).
    destruct (last l1); by rewrite ?length_insert.
  - intros j q l'. destruct (decide (i = j)) as [<-|Hij].
    + rewrite list_lookup_insert_eq by done. intros Hq [= <-].
      apply seg_app in Hc as (m & Hc1 & (-> & n' & h' & Ha' & Hc2)). simplify_eq.
      apply seg_app. exists n. split.
      * eapply (seg_frame (unlinked_map l1 n)); [|intros b Hb; apply lookup_delete_ne; set_solver].
        unfold unlinked_heads, unlinked_map in *. destruct l1 as [|b l1] using rev_ind.
        { cbn in *. rewrite list_lookup_insert_eq in Hq by done. by simplify_eq. }
        clear IHl1. rewrite last_snoc in *. assert (q = p) as -> by congruence.
        destruct (seg_last _ _ _ _ _ Hc1) as [hb Hb]. rewrite Hb.
        eapply seg_redirect; [done| |done].
        rewrite <-app_assoc in Hnd_l. apply NoDup_app in Hnd_l as (_ & Hd & _). set_solver.
      * eapply seg_frame; [done|]. intros b Hb. rewrite lookup_delete_ne by set_solver.
        apply unlinked_map_other. eauto.
    + rewrite list_lookup_insert_ne by done. intros Hq Hl'.
      assert (bk !! j = Some q) as Hq'.
      { unfold unlinked_heads in Hq. destruct (last l1); [done|]. by rewrite list_lookup_insert_ne in Hq. }
      eapply seg_frame; [by eapply lk_chain|]. intros b Hb.
      assert (b ∉ l1 ++ a :: l2) as Hnb.
      { intros Hb'. by eapply (bucket_disjoint bs i j). }
      rewrite lookup_delete_ne by set_solver. apply unlinked_map_other.
      intros (l'' & ->)%last_Some. set_solver.
  - intros j l' b n' h' Hl' Hb [Hab Hb2]%lookup_delete_Some.
    assert (∃ m, lm !! b = Some (m, h')) as [m Hm].
    { pose proof (unlinked_map_hash l1 n b) as E. rewrite Hb2 in E. cbn in E.
      destruct (lm !! b) as [[m h'']|]; [|done]. cbn in E. exists m. congruence. }
    destruct (decide (i = j)) as [<-|Hij].
    + rewrite list_lookup_insert_eq in Hl' by done. simplify_eq.
      eapply lk_place; [done|exact Hl| |exact Hm]. set_solver.
    + rewrite list_lookup_insert_ne in Hl' by done. by eapply lk_place.
  - rewrite (bucket_join_insert _ _ _ _ Hl). rewrite (bucket_join _ _ _ Hl) in Hnd.
    rewrite <-(Permutation_middle l1 l2 a) in Hnd. cbn [app] in Hnd. by apply NoDup_cons in Hnd as [_ ?].
Qed.

(** The addresses after unlinking. *)
Lemma unlink_join i l1 a l2 :
  bs !! i = Some (l1 ++ a :: l2) → mjoin bs ≡ₚ a :: mjoin (<[i := l1 ++ l2]> bs).
Proof.
  intros Hl. rewrite (bucket_join_insert _ _ _ _ Hl), (bucket_join _ _ _ Hl).
  by rewrite <-(Permutation_middle l1 l2 a).
Qed.

End links.
