(* ===== verification/TableData.v ===== *)
(** * What the table's memory holds

    The contents of the heap against an abstract map from entry addresses to a
    key and a record: each entry represents its pair, each spill block has
    exactly one owner (so nothing leaks and nothing is shared), keys are
    distinct. *)

From Stdlib Require Import ZArith Lia Strings.Byte.
From stdpp Require Import base gmap numbers list.
From S2P Require Import Prelude Bits Hash Entry.

Local Open Scope Z_scope.

(** A stored value with its deadline and its last-use clock. *)
Record arec := mkRec { a_value : bytes; a_expires : Z; a_lru : Z }.

Abbreviation contents := (gmap addr (bytes * arec)).

(** Cells whose first bytes are [s]. *)
Definition holds (c : cells) (s : bytes) : Prop := take (length s) c = Some <$> s.

Lemma holds_length c s : holds c s → (length s ≤ length c)%nat.
Proof. intros H%(f_equal length). rewrite length_take, length_fmap in H. lia. Qed.

Lemma holds_app_l c s1 s2 : holds c (s1 ++ s2) → holds c s1.
Proof.
  intros H. pose proof (holds_length _ _ H) as Hl. unfold holds in *. rewrite length_app in *.
  apply (f_equal (take (length s1))) in H. rewrite take_take, Nat.min_l in H by lia.
  rewrite H, fmap_app, take_app_length' by (by rewrite length_fmap). done.
Qed.

(** [memcpy] of the value behind the key. *)
Lemma holds_store c s1 s2 :
  holds c s1 → (length (s1 ++ s2) ≤ length c)%nat →
  ∃ c', store_at c (zlen s1) (Some <$> s2) = Ok c' ∧ length c' = length c ∧ holds c' (s1 ++ s2).
Proof.
  intros H1 Hl. rewrite length_app in Hl.
  destruct (store_at_inside c (zlen s1) (Some <$> s2)) as (c' & E & Hlen & Ht & Hs & _);
    [lia|rewrite length_fmap; lia|]. exists c'. split_and!; [done..|].
  unfold holds. rewrite length_app, fmap_app, <-take_take_drop.
  rewrite length_fmap in Hs. unfold slice in Hs. rewrite !Nat2Z.id in *. by rewrite Ht, H1, Hs.
Qed.

Lemma holds_nil c : holds c [].
Proof. done. Qed.

Module Data.
Import Ent.

Definition entry_rep (seed : Z) (bl : gmap addr cells) (e : Entry) (k : bytes) (r : arec) : Prop :=
  keyLen e = zlen k ∧ valLen e = zlen (a_value r) ∧ zlen k + zlen (a_value r) < 2 ^ 32 ∧
  hash e = u32 (key_hash k seed) ∧ expiresAtMs e = a_expires r ∧ lruClock e = a_lru r ∧
  match union_ e with
  | inlineBuf c => zlen c = kInlineCap ∧ zlen k + zlen (a_value r) ≤ kInlineCap ∧ holds c (k ++ a_value r)
  | bufPtr p => kInlineCap < zlen k + zlen (a_value r) ∧ ∃ c, bl !! p = Some c ∧ holds c (k ++ a_value r)
  end.

Record data_ok (seed : Z) (m : gmap addr Entry) (bl : gmap addr cells) (G : contents) : Prop := {
  do_dom a : is_Some (G !! a) ↔ is_Some (m !! a);
  do_rep a e k r : m !! a = Some e → G !! a = Some (k, r) → entry_rep seed bl e k r;
  do_own p : is_Some (bl !! p) → ∃ a e, m !! a = Some e ∧ union_ e = bufPtr p;
  do_inj a1 a2 e1 e2 p : m !! a1 = Some e1 → m !! a2 = Some e2 →
    union_ e1 = bufPtr p → union_ e2 = bufPtr p → a1 = a2;
  do_keys a1 a2 k r1 r2 : G !! a1 = Some (k, r1) → G !! a2 = Some (k, r2) → a1 = a2;
}.

Section rep.
Context (seed : Z) (bl : gmap addr cells) (e : Entry) (k : bytes) (r : arec).
Hypothesis He : entry_rep seed bl e k r.

Lemma rep_spilled : spilled e = (kInlineCap <? zlen k + zlen (a_value r)).
Proof.
  destruct He as (Hk & Hv & Hb & _). unfold spilled, u32.
  by rewrite Hk, Hv, Z.mod_small by lia.
Qed.

Lemma rep_cells : ∃ c, cells_of bl e = Ok c ∧ holds c (k ++ a_value r).
Proof.
  unfold cells_of. rewrite rep_spilled. destruct He as (_ & _ & _ & _ & _ & _ & Hu).
  destruct (union_ e) as [c|p].
  - destruct Hu as (_ & Hs & Hh). rewrite (proj2 (Z.ltb_ge _ _)) by done. by exists c.
  - destruct Hu as (Hs & c & Hc & Hh). rewrite (proj2 (Z.ltb_lt _ _)) by done. rewrite Hc. by exists c.
Qed.

(** Both views read initialised bytes of live memory, and read them right. *)
Lemma rep_key : key bl e = Ok k.
Proof.
  unfold key, getBufData. destruct rep_cells as (c & -> & Hh%holds_app_l). cbn [rbind].
  destruct He as (-> & _). by apply (read_cells_ok c [] k).
Qed.

Lemma rep_value : value bl e = Ok (a_value r).
Proof.
  unfold value, getBufData. destruct rep_cells as (c & -> & Hh). cbn [rbind].
  destruct He as (-> & -> & _). by apply read_cells_ok.
Qed.

Lemma rep_expired now :
  expired now e = if a_expires r =? kNoExpiry then false else a_expires r <? now.
Proof. destruct He as (_ & _ & _ & _ & Hx & _). unfold expired. by rewrite Hx. Qed.

End rep.

Lemma entry_rep_blocks seed bl bl' e k r :
  (∀ p, union_ e = bufPtr p → bl' !! p = bl !! p) →
  entry_rep seed bl e k r → entry_rep seed bl' e k r.
Proof.
  unfold entry_rep. intros Hbl. destruct (union_ e) as [c|p]; [done|]. by rewrite Hbl.
Qed.

Section data.
Context (seed : Z) (m : gmap addr Entry) (bl : gmap addr cells) (G : contents).
Hypothesis HD : data_ok seed m bl G.

Lemma data_entry a k r : G !! a = Some (k, r) → ∃ e, m !! a = Some e ∧ entry_rep seed bl e k r.
Proof.
  intros Hg. assert (is_Some (m !! a)) as [e He] by (apply (do_dom _ _ _ _ HD); by eexists).
  exists e. split; [done|]. by eapply do_rep.
Qed.

Lemma data_abs a e : m !! a = Some e → ∃ k r, G !! a = Some (k, r) ∧ entry_rep seed bl e k r.
Proof.
  intros He. assert (is_Some (G !! a)) as [[k r] Hg] by (apply (do_dom _ _ _ _ HD); by eexists).
  exists k, r. split; [done|]. by eapply do_rep.
Qed.

(** Writing one entry, new or old, with a change of blocks that is none of the
    other entries' business. *)
Lemma data_set bl' a e k r :
  entry_rep seed bl' e k r →
  (∀ b r', b ≠ a → G !! b ≠ Some (k, r')) →
  (∀ b x p, b ≠ a → m !! b = Some x → union_ x = bufPtr p → bl' !! p = bl !! p ∧ union_ e ≠ bufPtr p) →
  (∀ p, is_Some (bl' !! p) →
        union_ e = bufPtr p ∨ ∃ b x, b ≠ a ∧ m !! b = Some x ∧ union_ x = bufPtr p) →
  data_ok seed (<[a := e]> m) bl' (<[a := (k, r)]> G).
Proof.
  intros Hrep Hk Hother Hown. split.
  - intros b. destruct (decide (a = b)) as [<-|]; [by rewrite !lookup_insert_eq|].
    rewrite !lookup_insert_ne by done. apply HD.
  - intros b e' k' r'. destruct (decide (a = b)) as [<-|]; [rewrite !lookup_insert_eq; naive_solver|].
    rewrite !lookup_insert_ne by done. intros He' Hg.
    eapply entry_rep_blocks; [|by eapply do_rep]. intros p Hp. by eapply Hother.
  - intros p [Hp|(b & x & Hb & Hx & Hu)]%Hown.
    + exists a, e. by rewrite lookup_insert_eq.
    + exists b, x. by rewrite lookup_insert_ne.
  - intros a1 a2 e1 e2 p.
    destruct (decide (a = a1)) as [<-|], (decide (a = a2)) as [<-|];
      rewrite ?lookup_insert_eq, ?lookup_insert_ne by done; [done|..].
    + intros [= <-] H2 Hu1 Hu2. by destruct (Hother a2 e2 p).
    + intros H1 [= <-] Hu1 Hu2. by destruct (Hother a1 e1 p).
    + by eapply (do_inj _ _ _ _ HD).
  - intros a1 a2 k' r1 r2.
    destruct (decide (a = a1)) as [<-|], (decide (a = a2)) as [<-|];
      rewrite ?lookup_insert_eq, ?lookup_insert_ne by done; [done|..].
    + intros [= <- <-] H2. by destruct (Hk a2 r2).
    + intros H1 [= <- <-]. by destruct (Hk a1 r1).
    + by eapply (do_keys _ _ _ _ HD).
Qed.

Lemma other_keys a k r : G !! a = Some (k, r) → ∀ b r', b ≠ a → G !! b ≠ Some (k, r').
Proof. intros Ha b r' Hb Hg. apply Hb. by eapply (do_keys _ _ _ _ HD). Qed.

(** A write to fields other than the lengths, the hash and the storage. *)
Lemma data_fields a e e' k r r' :
  m !! a = Some e → G !! a = Some (k, r) → entry_rep seed bl e' k r' → union_ e' = union_ e →
  data_ok seed (<[a := e']> m) bl (<[a := (k, r')]> G).
Proof.
  intros He Hg Hrep Hu. apply data_set; [done|by eapply other_keys|..].
  - intros b x p Hb Hx Hp. split; [done|]. rewrite Hu. intros Hp'. apply Hb. by eapply (do_inj _ _ _ _ HD).
  - intros p (b & x & Hx & Hp)%(do_own _ _ _ _ HD). destruct (decide (b = a)) as [->|].
    + left. assert (x = e) as -> by congruence. congruence.
    + right. by exists b, x.
Qed.

(** The blocks left when the entry [e] gives up its block. *)
Definition without_block (e : Entry) : gmap addr cells :=
  match union_ e with bufPtr p => delete p bl | inlineBuf _ => bl end.

Lemma without_block_other a e b x p :
  m !! a = Some e → b ≠ a → m !! b = Some x → union_ x = bufPtr p → without_block e !! p = bl !! p.
Proof.
  intros He Hb Hx Hp. unfold without_block. destruct (union_ e) as [c|q] eqn:Eu; [done|].
  rewrite lookup_delete_ne; [done|]. intros ->. apply Hb. by eapply (do_inj _ _ _ _ HD).
Qed.

Lemma without_block_owned a e p :
  m !! a = Some e → is_Some (without_block e !! p) → ∃ b x, b ≠ a ∧ m !! b = Some x ∧ union_ x = bufPtr p.
Proof.
  intros He Hs.
  assert (is_Some (bl !! p) ∧ union_ e ≠ bufPtr p) as [Hb Hne].
  { unfold without_block in Hs. destruct (union_ e) as [c|q]; [done|].
    destruct (decide (q = p)) as [->|]; [rewrite lookup_delete_eq in Hs; by destruct Hs|].
    rewrite lookup_delete_ne in Hs by done. split; [done|congruence]. }
  destruct (do_own _ _ _ _ HD _ Hb) as (b & x & Hx & Hu). exists b, x. split; [|done].
  intros ->. by simplify_eq.
Qed.

(** The blocks once the entry holds its pair as [e'] does: its old block is gone,
    and a block of its own has taken its place if [e'] points to one. *)
Definition own_blocks (e e' : Entry) (bl' : gmap addr cells) : Prop :=
  match union_ e' with
  | inlineBuf _ => bl' = without_block e
  | bufPtr p => without_block e !! p = None ∧ ∃ c, bl' = <[p := c]> (without_block e)
  end.

Lemma data_reassign a e e' bl' k r r' :
  m !! a = Some e → G !! a = Some (k, r) → entry_rep seed bl' e' k r' → own_blocks e e' bl' →
  data_ok seed (<[a := e']> m) bl' (<[a := (k, r')]> G).
Proof.
  intros He Hg Hrep Hbl. apply data_set; [done|by eapply other_keys|..]; unfold own_blocks in Hbl.
  - intros b x p Hb Hx Hp. pose proof (without_block_other _ _ _ _ _ He Hb Hx Hp) as Hw.
    destruct (union_ e') as [c|q]; [by subst|]. destruct Hbl as (Hq & c & ->).
    assert (is_Some (bl !! p)) as [cp Hcp].
    { destruct (data_abs _ _ Hx) as (k' & r0 & _ & (_ & _ & _ & _ & _ & _ & Hu)). rewrite Hp in Hu.
      destruct Hu as (_ & cp & Hcp & _). by eexists. }
    split; [|intros [= ->]; congruence]. rewrite lookup_insert_ne; [done|]. intros ->. congruence.
  - intros p Hp. destruct (union_ e') as [c|q].
    + subst. right. by eapply without_block_owned.
    + destruct Hbl as (Hq & c & ->). apply lookup_insert_is_Some in Hp as [->|[_ Hp]]; [by left|].
      right. by eapply without_block_owned.
Qed.

Lemma data_delete a e :
  m !! a = Some e → data_ok seed (delete a m) (without_block e) (delete a G).
Proof.
  intros He. split.
  - intros b. destruct (decide (a = b)) as [<-|]; [by rewrite !lookup_delete_eq|].
    rewrite !lookup_delete_ne by done. apply HD.
  - intros b x k r [Hb Hx]%lookup_delete_Some [_ Hg]%lookup_delete_Some.
    eapply entry_rep_blocks; [|by eapply do_rep]. intros p Hp. by eapply without_block_other.
  - intros p (b & x & Hb & Hx & Hu)%(without_block_owned a e); [|done].
    exists b, x. by rewrite lookup_delete_ne.
  - intros a1 a2 e1 e2 p [_ H1]%lookup_delete_Some [_ H2]%lookup_delete_Some. by eapply (do_inj _ _ _ _ HD).
  - intros a1 a2 k r1 r2 [_ H1]%lookup_delete_Some [_ H2]%lookup_delete_Some. by eapply (do_keys _ _ _ _ HD).
Qed.

End data.

(** The links are not data. *)
Lemma data_next seed m m' bl G :
  set_next None <$> m' = set_next None <$> m → data_ok seed m bl G → data_ok seed m' bl G.
Proof.
  intros Heq [H1 H2 H3 H4 H5].
  assert (∀ a e', m' !! a = Some e' → ∃ e, m !! a = Some e ∧ set_next None e' = set_next None e) as Hm.
  { intros a e' He'. assert ((set_next None <$> m') !! a = Some (set_next None e')) as E
      by (by rewrite lookup_fmap, He').
    rewrite Heq, lookup_fmap in E. destruct (m !! a) as [e|]; [|done]. exists e. split; [done|]. by apply (inj Some) in E. }
  assert (∀ a e, m !! a = Some e → ∃ e', m' !! a = Some e' ∧ set_next None e' = set_next None e) as Hm'.
  { intros a e He. assert ((set_next None <$> m) !! a = Some (set_next None e)) as E
      by (by rewrite lookup_fmap, He).
    rewrite <-Heq, lookup_fmap in E. destruct (m' !! a) as [e'|]; [|done]. exists e'. split; [done|]. by apply (inj Some) in E. }
  assert (∀ e e', set_next None e' = set_next None e → union_ e' = union_ e) as Hu
    by (intros e e' E; by injection E).
  split.
  - intros a. rewrite H1. split; intros [e He]; [destruct (Hm' _ _ He) as (? & ? & _)|destruct (Hm _ _ He) as (? & ? & _)];
      by eexists.
  - intros a e' k r He' Hg. destruct (Hm _ _ He') as (e & He & E). pose proof (H2 _ _ _ _ He Hg) as Hr.
    unfold entry_rep in *. injection E. intros -> -> -> -> -> ->. done.
  - intros p (a & e & He & Hp)%H3. destruct (Hm' _ _ He) as (e' & He' & E%Hu). exists a, e'. split; [done|congruence].
  - intros a1 a2 e1 e2 p (x1 & Hx1 & E1%Hu)%Hm (x2 & Hx2 & E2%Hu)%Hm Hu1 Hu2.
    apply (H4 a1 a2 x1 x2 p); [exact Hx1|exact Hx2|congruence|congruence].
  - done.
Qed.

End Data.

Abbreviation kvmap := (gmap bytes arec).

(** ** Contents as a map from keys *)

Definition abs (G : contents) (M : kvmap) : Prop :=
  ∀ k r, M !! k = Some r ↔ ∃ a, G !! a = Some (k, r).

Definition ukeys (G : contents) : Prop :=
  ∀ a1 a2 k r1 r2, G !! a1 = Some (k, r1) → G !! a2 = Some (k, r2) → a1 = a2.

Lemma abs_empty : abs ∅ ∅.
Proof. intros k r. rewrite lookup_empty. split; [done|]. intros [a Ha]. by rewrite lookup_empty in Ha. Qed.

Lemma abs_lookup G M a k r : abs G M → G !! a = Some (k, r) → M !! k = Some r.
Proof. intros HA Ha. apply HA. by exists a. Qed.

Lemma abs_None G M k : abs G M → (∀ a r, G !! a ≠ Some (k, r)) → M !! k = None.
Proof. intros HA Hk. apply eq_None_not_Some. intros [r (a & Ha)%HA]. by apply (Hk a r). Qed.

Lemma abs_set G M a k r :
  abs G M → (∀ b r', b ≠ a → G !! b ≠ Some (k, r')) → (∀ x, G !! a = Some x → x.1 = k) →
  abs (<[a := (k, r)]> G) (<[k := r]> M).
Proof.
  intros HA Hother Ha k' r'. destruct (decide (k = k')) as [<-|Hk].
  - rewrite lookup_insert_eq. split.
    + intros [= <-]. exists a. by rewrite lookup_insert_eq.
    + intros (b & Hb). destruct (decide (a = b)) as [<-|]; [rewrite lookup_insert_eq in Hb; congruence|].
      rewrite lookup_insert_ne in Hb by done. by destruct (Hother b r').
  - rewrite lookup_insert_ne, (HA k' r') by done. split; intros (b & Hb); exists b.
    + rewrite lookup_insert_ne; [done|]. intros <-. apply Ha in Hb. by cbn in Hb.
    + destruct (decide (a = b)) as [<-|]; [rewrite lookup_insert_eq in Hb; congruence|].
      by rewrite lookup_insert_ne in Hb.
Qed.

Lemma abs_delete G M a k r :
  abs G M → ukeys G → G !! a = Some (k, r) → abs (delete a G) (delete k M).
Proof.
  intros HA HU Ha k' r'. destruct (decide (k = k')) as [<-|Hk].
  - rewrite lookup_delete_eq. split; [done|]. intros (b & [Hab Hb]%lookup_delete_Some).
    by destruct Hab; eapply HU.
  - rewrite lookup_delete_ne, (HA k' r') by done. split; intros (b & Hb); exists b.
    + rewrite lookup_delete_ne; [done|]. intros <-. congruence.
    + by apply lookup_delete_Some in Hb as [_ ?].
Qed.

Lemma abs_size G M : ukeys G → abs G M → base.size M = base.size G.
Proof.
  revert M. induction G as [|a [k r] G Ha IH] using map_ind; intros M HU HA.
  - assert (M = ∅) as ->; [|done]. apply map_empty. intros k. apply eq_None_not_Some.
    intros [r (a & Hx)%HA]. by rewrite lookup_empty in Hx.
  - assert (M !! k = Some r) as Hk by (apply HA; exists a; by rewrite lookup_insert_eq).
    rewrite map_size_insert_None by done. rewrite <-(IH (delete k M)).
    + rewrite <-(insert_delete_id M k r Hk) at 1. by rewrite map_size_insert_None by apply lookup_delete_eq.
    + intros a1 a2 k' r1 r2 H1 H2. apply (HU a1 a2 k' r1 r2); (rewrite lookup_insert_ne; [done|congruence]).
    + assert (delete a (<[a := (k, r)]> G) = G) as <- by (by apply delete_insert_id).
      apply (abs_delete _ _ a k r); [done|done|by rewrite lookup_insert_eq].
Qed.
