(* ===== verification/TableInv.v ===== *)
(** * The table invariant, and the operations that keep the links as they are

    [core_inv t bs G]: the chains are [bs], the contents are [G], and counters,
    pool and heap agree.  [table_inv] adds the load bound that holds between
    operations. *)

From Stdlib Require Import ZArith Lia Strings.Byte.
From stdpp Require Import base gmap numbers list.
From S2P Require Import Prelude Bits Hash Entry Table TableLinks TableData.

Local Open Scope Z_scope.

Module TblInv.
Import Ent Tbl Data.

Definition shape (e : Entry) : option addr * Z := (next e, hash e).

Section inv.
Context {P : Type} `{!PoolAllocator P}.
Implicit Types (t : Table P) (bs : list (list addr)) (G : contents).

Record core_inv t bs G : Prop := {
  ti_seed : 0 ≤ hashSeed_ t < 2 ^ 64;
  ti_pow : ∃ n : nat, (2 ≤ n ≤ 59)%nat ∧ bucketCount t = 2 ^ Z.of_nat n;
  ti_links : links (bucketCount t - 1) (buckets_ t) (shape <$> mem t) bs;
  ti_all a : a ∈ mjoin bs ↔ is_Some (mem t !! a);
  ti_data : data_ok (hashSeed_ t) (mem t) (blocks t) G;
  ti_live : liveCount_ t = Z.of_nat (base.size (mem t));
  ti_pool : pool_live (pool_ t) = dom (mem t);
  ti_cap : Z.of_nat (base.size (mem t)) ≤ kPoolCapacity;
}.

Record table_inv t bs G : Prop := {
  ti_core : core_inv t bs G;
  ti_load : liveCount_ t ≤ bucketCount t;
}.

(** ** Consequences *)

Lemma core_mask t bs G : core_inv t bs G → u64 (bucketCount t - 1) = bucketCount t - 1.
Proof.
  intros [_ (n & Hn & ->) _ _ _ _ _ _]. apply u64_small.
  assert (2 ^ Z.of_nat n ≤ 2 ^ 59) by (apply Z.pow_le_mono_r; lia). lia.
Qed.

Lemma core_bucket_pos t bs G : core_inv t bs G → 4 ≤ bucketCount t ≤ 2 ^ 59.
Proof.
  intros [_ (n & Hn & ->) _ _ _ _ _ _].
  split; [change 4 with (2 ^ 2)|]; apply Z.pow_le_mono_r; lia.
Qed.

(** Any masked index is in range. *)
Lemma core_land t bs G h : core_inv t bs G → 0 ≤ h → 0 ≤ Z.land h (bucketCount t - 1) < bucketCount t.
Proof.
  intros [_ (n & Hn & ->) _ _ _ _ _ _] Hh. rewrite land_mask. apply Z.mod_pos_bound.
  by apply Z.pow_pos_nonneg; lia.
Qed.

Lemma core_bucketOf t bs G h : core_inv t bs G → bucketOf t h = Z.land h (bucketCount t - 1).
Proof. intros HI. unfold bucketOf. by rewrite (core_mask _ _ _ HI). Qed.

Lemma core_bucket t bs G i :
  core_inv t bs G → 0 ≤ i < bucketCount t →
  ∃ p l, at_ (buckets_ t) i = Ok p ∧ buckets_ t !! Z.to_nat i = Some p ∧ bs !! Z.to_nat i = Some l ∧
         chain (shape <$> mem t) p l.
Proof.
  intros HI Hi. destruct (at_inside (buckets_ t) i Hi) as (p & Hat & Hp).
  destruct (links_bucket _ _ _ _ (ti_links _ _ _ HI) _ _ Hp) as (l & Hl & Hc). by exists p, l.
Qed.

Lemma bound_by_mem t bs G l :
  core_inv t bs G → NoDup l → (∀ a, a ∈ l → a ∈ mjoin bs) → (length l ≤ base.size (mem t))%nat.
Proof.
  intros HI Hnd Hl. rewrite <-size_dom, <-(size_list_to_set (C := gset addr)) by done.
  apply subseteq_size. intros a Ha. apply elem_of_dom, (ti_all _ _ _ HI), Hl. set_solver.
Qed.

Lemma bucket_fuel t bs G i l : core_inv t bs G → bs !! i = Some l → (length l < chain_fuel t)%nat.
Proof.
  intros HI Hl. pose proof (lk_nodup _ _ _ _ (ti_links _ _ _ HI)) as Hnd.
  pose proof (bound_by_mem t bs G l HI (bucket_NoDup _ _ _ Hnd Hl)) as H.
  unfold chain_fuel. specialize (H (λ a Ha, elem_of_bucket _ _ _ _ Hl Ha)). lia.
Qed.

Lemma contents_size t bs G : core_inv t bs G → base.size G = base.size (mem t).
Proof.
  intros HI. rewrite <-(size_dom (D := gset addr) G), <-(size_dom (D := gset addr) (mem t)). f_equal.
  apply leibniz_equiv. intros a. rewrite !elem_of_dom. apply (ti_data _ _ _ HI).
Qed.

Lemma core_size t bs G : core_inv t bs G → size t = Z.of_nat (base.size G).
Proof. intros HI. unfold size. by rewrite (contents_size _ _ _ HI), (ti_live _ _ _ HI). Qed.

Lemma core_elem t bs G a : core_inv t bs G → a ∈ mjoin bs ↔ is_Some (G !! a).
Proof. intros HI. by rewrite (ti_all _ _ _ HI), (do_dom _ _ _ _ (ti_data _ _ _ HI)). Qed.

(** An entry of the table: where it is in memory and what it holds. *)
Lemma core_entry t bs G a k r :
  core_inv t bs G → G !! a = Some (k, r) →
  ∃ e, mem t !! a = Some e ∧ entry_rep (hashSeed_ t) (blocks t) e k r.
Proof. intros HI. apply data_entry, HI. Qed.

Lemma core_entry_at t bs G a k r :
  core_inv t bs G → G !! a = Some (k, r) →
  ∃ e, entry_at t a = Ok e ∧ entry_rep (hashSeed_ t) (blocks t) e k r.
Proof.
  intros HI Hg. destruct (core_entry _ _ _ _ _ _ HI Hg) as (e & He & Hr). exists e.
  unfold entry_at. by rewrite He.
Qed.

(** A pointer stored in an entry points to a live block. *)
Lemma core_entry_block t bs G a e p :
  core_inv t bs G → mem t !! a = Some e → union_ e = bufPtr p → ∃ c, blocks t !! p = Some c.
Proof.
  intros HI He Hu. destruct (data_abs _ _ _ _ (ti_data _ _ _ HI) _ _ He) as (k & r & _ & Hr).
  destruct Hr as (_ & _ & _ & _ & _ & _ & Hr). rewrite Hu in Hr. destruct Hr as (_ & c & Hc & _). by exists c.
Qed.

(** The head of a non-empty segment, in the heap. *)
Lemma seg_mem (m : gmap addr Entry) p a l q :
  seg (shape <$> m) p (a :: l) q → ∃ e, p = Some a ∧ m !! a = Some e ∧ seg (shape <$> m) (next e) l q.
Proof.
  intros (-> & n & h & Ha & Hs). rewrite lookup_fmap in Ha. destruct (m !! a) as [e|] eqn:E; [|done].
  cbn in Ha. unfold shape in Ha. injection Ha as <- <-. by exists e.
Qed.

(** ** Lookup *)

Definition has_key G (k : bytes) (a : addr) : Prop := ∃ r, G !! a = Some (k, r).

Lemma hash32_spec t k : zlen k < 2 ^ 64 → hash32 t k = Ok (u32 (key_hash k (hashSeed_ t))).
Proof. intros Hk. unfold hash32. by rewrite hashBytes_ok. Qed.

Lemma find_loop_spec t bs G k fuel p l :
  core_inv t bs G → chain (shape <$> mem t) p l → (length l < fuel)%nat →
  returns (find_loop fuel t (u32 (key_hash k (hashSeed_ t))) k p) (λ o,
    match o with
    | Some a => a ∈ l ∧ has_key G k a
    | None => ∀ a, a ∈ l → ¬ has_key G k a
    end).
Proof.
  intros HI. revert fuel p. induction l as [|a l IH]; intros fuel p Hc Hf.
  { destruct fuel; [lia|]. cbn in Hc. subst. cbn. set_solver. }
  destruct fuel as [|fuel]; [cbn in Hf; lia|]. cbn [length] in Hf.
  apply seg_mem in Hc as (e & -> & He & Hc). cbn [find_loop]. unfold entry_at. rewrite He. cbn [rbind].
  destruct (data_abs _ _ _ _ (ti_data _ _ _ HI) _ _ He) as (k' & r & Hg & Hr).
  rewrite (rep_key _ _ _ _ _ Hr). destruct Hr as (Hkl & _ & _ & Hh & _). rewrite Hkl, Hh. cbn [rbind].
  assert ((if (u32 (key_hash k' (hashSeed_ t)) =? u32 (key_hash k (hashSeed_ t))) && (zlen k' =? zlen k)
           then Ok (bool_decide (k' = k)) else Ok false) = Ok (bool_decide (k' = k))) as ->.
  { case_bool_decide as Hk; [by rewrite Hk, !Z.eqb_refl|]. by destruct (_ && _). }
  cbn [rbind]. case_bool_decide as Hk.
  - subst. cbn. split; [by left|by exists r].
  - eapply returns_mono; [by apply IH; [|lia]|]. intros [b|].
    + intros [??]. split; [by right|done].
    + intros Hno b [->|]%elem_of_cons; [|by apply Hno]. intros [r' Hg']. congruence.
Qed.

Lemma core_placed t bs G i l a k r :
  core_inv t bs G → bs !! i = Some l → a ∈ l → G !! a = Some (k, r) →
  bucketOf t (u32 (key_hash k (hashSeed_ t))) = Z.of_nat i.
Proof.
  intros HI Hl Ha Hg. rewrite (core_bucketOf _ _ _ _ HI).
  destruct (core_entry _ _ _ _ _ _ HI Hg) as (e & He & (_ & _ & _ & Hh & _)).
  rewrite <-Hh. eapply (lk_place _ _ _ _ (ti_links _ _ _ HI)); [done..|]. rewrite lookup_fmap, He. done.
Qed.

(** The bucket of an entry. *)
Lemma core_bucket_of t bs G a k r :
  core_inv t bs G → G !! a = Some (k, r) →
  ∃ i l, bs !! i = Some l ∧ a ∈ l ∧ bucketOf t (u32 (key_hash k (hashSeed_ t))) = Z.of_nat i.
Proof.
  intros HI Hg. assert (a ∈ mjoin bs) as (i & l & Hl & Ha)%elem_of_join_bucket
    by (apply (core_elem _ _ _ _ HI); by eexists).
  exists i, l. split_and!; [done..|]. by eapply core_placed.
Qed.

Lemma u32_nonneg x : 0 ≤ u32 x.
Proof. apply Z.mod_pos_bound. lia. Qed.

Lemma find_spec t bs G k :
  core_inv t bs G → zlen k < 2 ^ 64 →
  returns (find k t) (λ o,
    match o with
    | Some a => has_key G k a
    | None => ∀ a, ¬ has_key G k a
    end).
Proof.
  intros HI Hk. unfold find. rewrite (hash32_spec _ _ Hk). cbn [rbind].
  set (h := u32 _). pose proof (u32_nonneg (key_hash k (hashSeed_ t))) as Hh. fold h in Hh.
  pose proof (core_land _ _ _ h HI Hh) as Hr. rewrite <-(core_bucketOf _ _ _ _ HI) in Hr.
  destruct (core_bucket _ _ _ _ HI Hr) as (p & l & -> & _ & Hl & Hc). cbn [rbind].
  eapply returns_mono; [apply (find_loop_spec _ _ _ _ _ _ _ HI Hc); by eapply bucket_fuel|].
  intros [a|]; [by intros [_ ?]|]. intros Hno a [r Hg].
  destruct (core_bucket_of _ _ _ _ _ _ HI Hg) as (i & l' & Hl' & Ha & Hi). fold h in Hi.
  rewrite Hi, Nat2Z.id in Hl. assert (l' = l) as -> by congruence. apply (Hno a Ha). by exists r.
Qed.

(** ** Stores through an entry pointer *)

Lemma upd_at t a e f :
  mem t !! a = Some e → upd a f t = Ok (with_mem (<[a := f e]> (mem t)) t).
Proof. intros He. unfold upd, entry_at. by rewrite He. Qed.

Lemma fmap_insert_same {A B} (f : A → B) (m : gmap addr A) a x y :
  m !! a = Some x → f y = f x → f <$> <[a := y]> m = f <$> m.
Proof. intros Hx Hf. rewrite fmap_insert, Hf. apply insert_id. by rewrite lookup_fmap, Hx. Qed.

Lemma size_insert_same {A} (m : gmap addr A) a x y :
  m !! a = Some x → base.size (<[a := y]> m) = base.size m.
Proof. intros Hx. apply map_size_insert_Some. by eexists. Qed.

(** Rewriting an entry in place, links and hash aside. *)
Lemma core_replace t bs G a e e' bl' G' :
  core_inv t bs G → mem t !! a = Some e → shape e' = shape e →
  data_ok (hashSeed_ t) (<[a := e']> (mem t)) bl' G' →
  core_inv (with_blocks bl' (with_mem (<[a := e']> (mem t)) t)) bs G'.
Proof.
  intros [H1 H2 H3 H4 H5 H6 H7 H8] He Hs Hd. split; cbn.
  - done.
  - done.
  - by rewrite (fmap_insert_same _ _ _ _ _ He Hs).
  - intros b. rewrite H4. destruct (decide (a = b)) as [<-|]; [|by rewrite lookup_insert_ne].
    rewrite lookup_insert_eq, He. split; by eexists.
  - done.
  - by rewrite (size_insert_same _ _ _ _ He).
  - rewrite dom_insert_lookup_L; [done|by eexists].
  - by rewrite (size_insert_same _ _ _ _ He).
Qed.

Lemma upd_fields_spec t bs G a k r f r' :
  core_inv t bs G → G !! a = Some (k, r) →
  (∀ e, shape (f e) = shape e ∧ union_ (f e) = union_ e) →
  (∀ bl e, entry_rep (hashSeed_ t) bl e k r → entry_rep (hashSeed_ t) bl (f e) k r') →
  ∃ t', upd a f t = Ok t' ∧ core_inv t' bs (<[a := (k, r')]> G) ∧
        bucketCount t' = bucketCount t ∧ liveCount_ t' = liveCount_ t ∧ hashSeed_ t' = hashSeed_ t.
Proof.
  intros HI Hg Hf Hr. destruct (core_entry _ _ _ _ _ _ HI Hg) as (e & He & Hrep).
  rewrite (upd_at _ _ _ _ He). eexists. split; [done|]. split; [|done].
  eapply (core_replace t bs G a e (f e) (blocks t)); [done..|apply Hf|].
  eapply data_fields; [apply HI|done|done|by apply Hr|apply Hf].
Qed.

Definition rec_lru (x : Z) (r : arec) : arec := mkRec (a_value r) (a_expires r) x.
Definition rec_expires (x : Z) (r : arec) : arec := mkRec (a_value r) x (a_lru r).
Definition rec_value (v : bytes) (r : arec) : arec := mkRec v (a_expires r) (a_lru r).

(** [e->lruClock = x]. *)
Lemma upd_lru_spec t bs G a k r x :
  core_inv t bs G → G !! a = Some (k, r) →
  ∃ t', upd a (set_lruClock x) t = Ok t' ∧ core_inv t' bs (<[a := (k, rec_lru x r)]> G) ∧
        bucketCount t' = bucketCount t ∧ liveCount_ t' = liveCount_ t ∧ hashSeed_ t' = hashSeed_ t.
Proof.
  intros HI Hg. apply (upd_fields_spec t bs G a k r); [done..|].
  intros bl e. unfold entry_rep. cbn. tauto.
Qed.

(** [e->expiresAtMs = x]. *)
Lemma upd_expires_spec t bs G a k r x :
  core_inv t bs G → G !! a = Some (k, r) →
  ∃ t', upd a (set_expiresAtMs x) t = Ok t' ∧ core_inv t' bs (<[a := (k, rec_expires x r)]> G) ∧
        bucketCount t' = bucketCount t ∧ liveCount_ t' = liveCount_ t ∧ hashSeed_ t' = hashSeed_ t.
Proof.
  intros HI Hg. apply (upd_fields_spec t bs G a k r); [done..|].
  intros bl e. unfold entry_rep. cbn. tauto.
Qed.

End inv.
End TblInv.
