(* ===== verification/TableGrow.v ===== *)
(** * Growth and insertion

    [rehash] relinks every entry into the new bucket array and touches nothing
    else; [insert] adds exactly the new pair, or gives the spill block back when
    the pool is exhausted. *)

From Stdlib Require Import ZArith Lia Strings.Byte.
From stdpp Require Import base gmap numbers list.
From S2P Require Import Prelude Bits Hash Entry Table TableLinks TableData TableInv.

Local Open Scope Z_scope.

Module TblGrow.
Import Ent Tbl Data TblInv.

(** Projections of an updated table. *)
Ltac tproj :=
  cbn [mem blocks pool_ buckets_ liveCount_ hashSeed_
       with_mem with_blocks with_pool with_buckets with_liveCount rbind].

Lemma set_bucket_ok (i : nat) x (l : list (option addr)) :
  (i < length l)%nat → set_bucket (Z.of_nat i) x l = Ok (<[i := x]> l).
Proof.
  intros Hi. unfold set_bucket. rewrite (proj2 (Z.leb_le 0 _)), (proj2 (Z.ltb_lt _ _)) by lia.
  by rewrite Nat2Z.id.
Qed.

Lemma at_nat {A} (l : list A) (i : nat) x : l !! i = Some x → at_ l (Z.of_nat i) = Ok x.
Proof. intros Hx. apply at_Ok. rewrite Nat2Z.id. split; [lia|done]. Qed.

Lemma with_mem_mem {P} (x y : gmap addr Entry) (t : Table P) : with_mem x (with_mem y t) = with_mem x t.
Proof. done. Qed.

(** One field store on the entry just written. *)
Ltac store_step :=
  erewrite upd_at by (tproj; apply lookup_insert_eq); tproj; rewrite ?insert_insert_eq, ?with_mem_mem.

Section grow.
Context {P : Type} `{!PoolAllocator P}.
Implicit Types (t : Table P) (bs : list (list addr)) (G : contents).

(** [t'] is [t] with other links: only [next] fields differ. *)
Record relinked t t' : Prop := {
  rl_next : set_next None <$> mem t' = set_next None <$> mem t;
  rl_rest : t' = with_mem (mem t') t;
}.

Lemma relinked_refl t : relinked t t.
Proof. split; [done|by destruct t]. Qed.

Lemma relinked_upd t t' a e x :
  relinked t t' → mem t' !! a = Some e →
  relinked t (with_mem (<[a := set_next x e]> (mem t')) t').
Proof.
  intros [H1 H2] He. split; tproj.
  - rewrite <-H1. by apply (fmap_insert_same _ _ _ e).
  - rewrite H2. done.
Qed.

Lemma relinked_hash t t' a e' :
  relinked t t' → mem t' !! a = Some e' → ∃ e, mem t !! a = Some e ∧ hash e' = hash e.
Proof.
  intros [H1 _] He. apply (f_equal (.!! a)) in H1. rewrite !lookup_fmap, He in H1.
  destruct (mem t !! a) as [e|]; [|done]. exists e. split; [done|]. by injection H1.
Qed.

Lemma relinked_dom t t' : relinked t t' → dom (mem t') = dom (mem t).
Proof.
  intros [H1 _]. apply (f_equal dom) in H1. by rewrite !dom_fmap_L in H1.
Qed.

Lemma relinked_size t t' : relinked t t' → base.size (mem t') = base.size (mem t).
Proof.
  intros H. by rewrite <-(size_dom (D := gset addr) (mem t')), <-(size_dom (D := gset addr) (mem t)), (relinked_dom _ _ H).
Qed.

(** What a round of the rehash loops keeps: the new buckets [nx] are [nbs], the
    lists still to walk are intact and disjoint from them. *)
Record rehashing mask t t' nx nbs (todo : list (option addr)) (rest : list (list addr)) : Prop := {
  rh_rel : relinked t t';
  rh_links : links mask nx (shape <$> mem t') nbs;
  rh_todo : Forall2 (λ p l, chain (shape <$> mem t') p l) todo rest;
  rh_nodup : NoDup (mjoin nbs ++ mjoin rest);
}.

Lemma chains_frame lm lm' todo rest :
  Forall2 (λ p l, chain lm p l) todo rest →
  (∀ b, b ∈ mjoin rest → lm' !! b = lm !! b) → Forall2 (λ p l, chain lm' p l) todo rest.
Proof.
  intros H Hb. induction H as [|p l todo rest Hp _ IH]; constructor.
  - eapply seg_frame; [exact Hp|]. intros b Hbl. apply Hb. apply elem_of_app. by left.
  - apply IH. intros b Hbr. apply Hb. apply elem_of_app. by right.
Qed.

Section rehash.
Context (n : nat) (t : Table P).
Abbreviation mask := (2 ^ Z.of_nat n - 1)%Z.
Hypothesis Hhash : ∀ a e, mem t !! a = Some e → 0 ≤ hash e.

Lemma rehash_slot nx (nbs : list (list addr)) lm e :
  links mask nx lm nbs → zlen nx = 2 ^ Z.of_nat n → 0 ≤ hash e →
  ∃ i p l, Z.land (hash e) mask = Z.of_nat i ∧ nx !! i = Some p ∧ nbs !! i = Some l ∧ (i < length nx)%nat.
Proof.
  intros HL Hn He.
  assert (0 ≤ Z.land (hash e) mask < zlen nx) as Hi.
  { rewrite land_mask, Hn. apply Z.mod_pos_bound. lia. }
  exists (Z.to_nat (Z.land (hash e) mask)).
  destruct (lookup_lt_is_Some_2 nx (Z.to_nat (Z.land (hash e) mask))) as [p Hp]; [lia|].
  destruct (links_bucket _ _ _ _ HL _ _ Hp) as (l & Hl & _).
  exists p, l. split_and!; [lia|done|done|lia].
Qed.

Lemma rehash_chain_spec fuel l p t' nx nbs todo rest :
  rehashing mask t t' nx nbs (p :: todo) (l :: rest) → zlen nx = 2 ^ Z.of_nat n →
  (length l < fuel)%nat →
  returns (rehash_chain fuel mask p nx t') (λ '(nx', t''), ∃ nbs',
    rehashing mask t t'' nx' nbs' todo rest ∧ zlen nx' = 2 ^ Z.of_nat n ∧
    mjoin nbs' ≡ₚ mjoin nbs ++ l).
Proof.
  revert fuel p t' nx nbs. induction l as [|a l IH]; intros fuel p t' nx nbs HR Hn Hf.
  - destruct fuel as [|fuel]; [cbn in Hf; lia|]. destruct HR as [H1 H2 H3 H4].
    apply Forall2_cons in H3 as [Hp H3]. cbn in Hp. subst p. cbn.
    exists nbs. split; [|split; [done|by rewrite app_nil_r]].
    split; [done|done|done|exact H4].
  - destruct fuel as [|fuel]; [cbn in Hf; lia|]. cbn [length] in Hf.
    destruct HR as [H1 H2 H3 H4]. apply Forall2_cons in H3 as [Hp H3].
    apply seg_mem in Hp as (e & -> & He & Hc). cbn [rehash_chain]. unfold entry_at. rewrite He. tproj.
    destruct (relinked_hash _ _ _ _ H1 He) as (e0 & He0 & Hh0).
    destruct (rehash_slot nx nbs _ e H2 Hn) as (i & q & lq & Hi & Hq & Hlq & Hlt); [rewrite Hh0; eauto|].
    rewrite Hi, (at_nat _ _ _ Hq). tproj. rewrite (upd_at _ _ _ _ He). tproj.
    rewrite set_bucket_ok by done. tproj.
    assert ((a ∉ mjoin nbs) ∧ (a ∉ l) ∧ (a ∉ mjoin rest)) as (Ha1 & Ha2 & Ha3).
    { change (mjoin ((a :: l) :: rest)) with (a :: l ++ mjoin rest) in H4.
      apply NoDup_app in H4 as (_ & Hd & Hr). apply NoDup_cons in Hr as [Hr _].
      rewrite not_elem_of_app in Hr. split; [|done]. intros Ha. apply (Hd a Ha). by left. }
    assert (∀ b, b ≠ a → (shape <$> <[a := set_next q e]> (mem t')) !! b = (shape <$> mem t') !! b) as Hfr
      by (intros b Hb; by rewrite fmap_insert, lookup_insert_ne).
    eapply returns_mono; [apply (IH fuel _ _ _ (<[i := a :: lq]> nbs)); [|by rewrite length_insert|lia]|].
    + split; tproj.
      * by apply relinked_upd.
      * rewrite fmap_insert. by apply links_push.
      * constructor.
        { eapply seg_frame; [exact Hc|]. intros b Hb. apply Hfr. by intros ->. }
        eapply chains_frame; [exact H3|]. intros b Hb. apply Hfr. by intros ->.
      * rewrite (bucket_join_insert _ _ _ _ Hlq). rewrite (bucket_join _ _ _ Hlq) in H4.
        revert H4. apply NoDup_Permutation_proper.
        change (mjoin ((a :: l) :: rest)) with (a :: l ++ mjoin rest).
        change (mjoin (l :: rest)) with (l ++ mjoin rest). cbn [app]. by rewrite <-Permutation_middle.
    + intros [nx' t''] (nbs' & HR' & Hn' & Hp'). exists nbs'. split_and!; [done..|].
      rewrite Hp', (bucket_join_insert _ _ _ _ Hlq), (bucket_join _ _ _ Hlq). cbn [app].
      by rewrite <-Permutation_middle.
Qed.

Lemma rehash_heads_spec t' nx nbs todo rest :
  rehashing mask t t' nx nbs todo rest → zlen nx = 2 ^ Z.of_nat n →
  (∀ l, l ∈ rest → (length l < chain_fuel t)%nat) →
  returns (rehash_heads todo mask nx t') (λ '(nx', t''), ∃ nbs',
    rehashing mask t t'' nx' nbs' [] [] ∧ zlen nx' = 2 ^ Z.of_nat n ∧
    mjoin nbs' ≡ₚ mjoin nbs ++ mjoin rest).
Proof.
  revert t' nx nbs rest. induction todo as [|p todo IH]; intros t' nx nbs rest HR Hn Hf.
  - pose proof (rh_todo _ _ _ _ _ _ _ HR) as Hnil. apply Forall2_nil_inv_l in Hnil as ->. cbn.
    exists nbs. split; [done|]. split; [done|]. by rewrite app_nil_r.
  - pose proof (rh_todo _ _ _ _ _ _ _ HR) as Hc.
    apply Forall2_cons_inv_l in Hc as (l & rest' & _ & _ & ->). cbn [rehash_heads].
    eapply returns_bind.
    + apply (rehash_chain_spec _ l _ _ _ nbs todo rest'); [done|done|].
      unfold chain_fuel. rewrite (relinked_size _ _ (rh_rel _ _ _ _ _ _ _ HR)). apply Hf. by left.
    + intros [nx' t''] (nbs' & HR' & Hn' & Hp').
      eapply returns_mono; [apply (IH t'' nx' nbs' rest'); [done|done|]|].
      { intros l' Hl'. apply Hf. by right. }
      intros [nx2 t2] (nbs2 & HR2 & Hn2 & Hp2). exists nbs2. split; [done|]. split; [done|].
      rewrite Hp2, Hp'. by rewrite <-app_assoc.
Qed.
End rehash.

Lemma mjoin_replicate_nil {A} m : mjoin (replicate m ([] : list A)) = [].
Proof. induction m; [done|]. done. Qed.

Lemma links_empty mask lm m : links mask (replicate m None) lm (replicate m []).
Proof.
  split.
  - by rewrite !length_replicate.
  - intros i p l [-> _]%lookup_replicate [-> _]%lookup_replicate. done.
  - intros i l a x h [-> _]%lookup_replicate Ha. by apply not_elem_of_nil in Ha.
  - rewrite mjoin_replicate_nil. constructor.
Qed.

Lemma single_bit_pow (m : nat) : has_single_bit (2 ^ Z.of_nat m) = true.
Proof.
  unfold has_single_bit. pose proof (pow2_pos m). rewrite (proj2 (Z.ltb_lt _ _)) by lia.
  rewrite land_mask, Z.mod_same by lia. done.
Qed.

Lemma core_hash_nonneg t bs G a e : core_inv t bs G → mem t !! a = Some e → 0 ≤ hash e.
Proof.
  intros HI He. destruct (data_abs _ _ _ _ (ti_data _ _ _ HI) _ _ He) as (k & r & _ & (_ & _ & _ & -> & _)).
  apply u32_nonneg.
Qed.

Lemma rehash_spec (m : nat) t bs G :
  core_inv t bs G → (m ≤ 59)%nat → bucketCount t ≤ 2 ^ Z.of_nat m →
  returns (rehash (2 ^ Z.of_nat m) t) (λ t', ∃ bs', core_inv t' bs' G ∧
    bucketCount t' = 2 ^ Z.of_nat m ∧ liveCount_ t' = liveCount_ t ∧ hashSeed_ t' = hashSeed_ t).
Proof.
  intros HI Hm Hb. unfold rehash. rewrite single_bit_pow, (proj2 (Z.leb_le _ _)) by done. cbn [andb].
  assert (2 ^ Z.of_nat m ≤ 2 ^ 59) by (apply Z.pow_le_mono_r; lia). pose proof (pow2_pos m).
  rewrite (proj2 (Z.leb_le _ MAX_POINTERS)) by (unfold MAX_POINTERS; lia). cbv zeta.
  rewrite u64_small by lia.
  eapply returns_bind.
  { apply (rehash_heads_spec m t (λ a e, core_hash_nonneg _ _ _ _ _ HI) t
             (replicate (Z.to_nat (2 ^ Z.of_nat m)) None)
             (replicate (Z.to_nat (2 ^ Z.of_nat m)) []) (buckets_ t) bs).
    - split.
      + apply relinked_refl.
      + apply links_empty.
      + apply Forall2_same_length_lookup. split; [symmetry; apply (ti_links _ _ _ HI)|].
        intros i p l Hp Hl. by eapply (lk_chain _ _ _ _ (ti_links _ _ _ HI)).
      + rewrite mjoin_replicate_nil. apply (ti_links _ _ _ HI).
    - rewrite length_replicate. lia.
    - intros l [i Hi]%list_elem_of_lookup. by eapply bucket_fuel. }
  intros [nx t'] (nbs & [H1 H2 _ _] & Hn & Hp). rewrite mjoin_replicate_nil in Hp. cbn [app] in Hp. cbn.
  exists nbs. pose proof (relinked_dom _ _ H1) as Hd. pose proof (relinked_size _ _ H1) as Hs.
  pose proof (rl_rest _ _ H1) as Hrest. pose proof (core_bucket_pos _ _ _ HI).
  split; [|rewrite Hrest; done]. destruct HI as [I1 I2 I3 I4 I5 I6 I7 I8].
  split; unfold bucketCount; tproj.
  - rewrite Hrest. done.
  - exists m. split; [|done]. split; [|done].
    destruct I2 as (n & Hn2 & E). rewrite E in Hb. apply Z.pow_le_mono_r_iff in Hb; lia.
  - by rewrite Hn.
  - intros a. rewrite Hp, I4. by rewrite <-!elem_of_dom, Hd.
  - rewrite Hrest. tproj. eapply data_next; [apply H1|done].
  - rewrite Hs, Hrest. done.
  - rewrite Hd, Hrest. done.
  - by rewrite Hs.
Qed.

(** The growth step of [insert]: one entry too many doubles the table. *)
Lemma maybeGrow_spec t bs G :
  core_inv t bs G → liveCount_ t ≤ bucketCount t + 1 →
  returns (maybeGrow t) (λ t', ∃ bs', table_inv t' bs' G ∧
    bucketCount t ≤ bucketCount t' ∧ liveCount_ t' = liveCount_ t ∧ hashSeed_ t' = hashSeed_ t).
Proof.
  intros HI Hl. unfold maybeGrow. destruct (Z.ltb_spec (bucketCount t) (liveCount_ t)) as [Hlt|].
  - destruct (ti_pow _ _ _ HI) as (n & Hn & E).
    pose proof (ti_cap _ _ _ HI) as Hcap. rewrite <-(ti_live _ _ _ HI) in Hcap.
    assert (kPoolCapacity = 2 ^ 18) as Hk by done.
    assert (n < 18)%nat as Hn18.
    { assert (2 ^ Z.of_nat n < 2 ^ 18) as Hp by lia. apply Z.pow_lt_mono_r_iff in Hp; lia. }
    assert (u64 (bucketCount t * 2) = 2 ^ Z.of_nat (S n)) as ->.
    { rewrite E, pow2_S, Z.mul_comm. apply u64_small.
      assert (2 ^ Z.of_nat n ≤ 2 ^ 18) by (apply Z.pow_le_mono_r; lia). lia. }
    pose proof (pow2_S n) as HS.
    eapply returns_mono; [apply (rehash_spec (S n) t bs G HI); lia|].
    intros t' (bs' & HI' & Hb' & Hl' & Hs'). exists bs'. split; [|split; [lia|done]].
    split; [done|]. pose proof (core_bucket_pos _ _ _ HI). lia.
  - cbn. exists bs. split; [|done]. by split.
Qed.

(** ** Writing key and value *)

Lemma write_inline_spec t a e c s1 s2 :
  mem t !! a = Some e → union_ e = inlineBuf c → holds c s1 → (length (s1 ++ s2) ≤ length c)%nat →
  ∃ c', write_inline a (zlen s1) s2 t = Ok (with_mem (<[a := set_union (inlineBuf c') e]> (mem t)) t) ∧
        length c' = length c ∧ holds c' (s1 ++ s2).
Proof.
  intros He Hu Hh Hl. destruct (holds_store c s1 s2 Hh Hl) as (c' & E & Hl' & Hh'). exists c'.
  unfold write_inline, entry_at. rewrite He. cbn [rbind]. rewrite Hu, E. cbn [rbind].
  by rewrite (upd_at _ _ _ _ He).
Qed.

Lemma write_block_spec t p c s1 s2 :
  blocks t !! p = Some c → holds c s1 → (length (s1 ++ s2) ≤ length c)%nat →
  ∃ c', write_block p (zlen s1) s2 t = Ok (with_blocks (<[p := c']> (blocks t)) t) ∧
        length c' = length c ∧ holds c' (s1 ++ s2).
Proof.
  intros Hc Hh Hl. destruct (holds_store c s1 s2 Hh Hl) as (c' & E & Hl' & Hh'). exists c'.
  unfold write_block. by rewrite Hc, E.
Qed.

Lemma get_bufPtr_ok t a e p : mem t !! a = Some e → union_ e = bufPtr p → get_bufPtr t a = Ok p.
Proof. intros He Hu. unfold get_bufPtr, entry_at. rewrite He. cbn [rbind]. by rewrite Hu. Qed.

(** Both copies of [insert], into the entry... *)
Lemma write_pair_inline t a e c k v :
  mem t !! a = Some e → union_ e = inlineBuf c → (length (k ++ v) ≤ length c)%nat →
  ∃ c', (let* t := write_dst false a 0 k t in write_dst false a (zlen k) v t) =
          Ok (with_mem (<[a := set_union (inlineBuf c') e]> (mem t)) t) ∧
        length c' = length c ∧ holds c' (k ++ v).
Proof.
  intros He Hu Hl. cbn [write_dst].
  destruct (write_inline_spec t a e c [] k He Hu (holds_nil c)) as (c1 & E1 & Hl1 & Hh1).
  { rewrite length_app in Hl. cbn. lia. }
  change (zlen (@nil byte)) with 0 in E1. cbn [app] in Hh1. rewrite E1. cbn [rbind].
  destruct (write_inline_spec (with_mem (<[a := set_union (inlineBuf c1) e]> (mem t)) t)
              a (set_union (inlineBuf c1) e) c1 k v) as (c2 & E2 & Hl2 & Hh2);
    [by apply lookup_insert_eq|done|done|lia|].
  rewrite E2. exists c2. tproj. rewrite insert_insert_eq. split; [done|]. split; [lia|done].
Qed.

(** ... or into the block. *)
Lemma write_pair_block t a e p c k v :
  mem t !! a = Some e → union_ e = bufPtr p → blocks t !! p = Some c →
  (length (k ++ v) ≤ length c)%nat →
  ∃ c', (let* t := write_dst true a 0 k t in write_dst true a (zlen k) v t) =
          Ok (with_blocks (<[p := c']> (blocks t)) t) ∧ holds c' (k ++ v).
Proof.
  intros He Hu Hc Hl. unfold write_dst. rewrite (get_bufPtr_ok _ _ _ _ He Hu). cbn [rbind].
  destruct (write_block_spec t p c [] k Hc (holds_nil c)) as (c1 & E1 & Hl1 & Hh1).
  { rewrite length_app in Hl. cbn. lia. }
  change (zlen (@nil byte)) with 0 in E1. cbn [app] in Hh1. rewrite E1. cbn [rbind].
  rewrite (get_bufPtr_ok (with_blocks (<[p := c1]> (blocks t)) t) a e p He Hu). cbn [rbind].
  destruct (write_block_spec (with_blocks (<[p := c1]> (blocks t)) t) p c1 k v) as (c2 & E2 & Hl2 & Hh2);
    [by apply lookup_insert_eq|done|lia|].
  rewrite E2. exists c2. tproj. by rewrite insert_insert_eq.
Qed.

(** ** Linking the new entry *)

(** The table with the new entry [e] in memory but in no chain yet. *)
Record pending t (t1 : Table P) (a : addr) (e : Entry) (k v : bytes) : Prop := {
  pd_fresh : mem t !! a = None;
  pd_mem : mem t1 = <[a := e]> (mem t);
  pd_buckets : buckets_ t1 = buckets_ t;
  pd_live : liveCount_ t1 = liveCount_ t;
  pd_seed : hashSeed_ t1 = hashSeed_ t;
  pd_pool : pool_live (pool_ t1) = {[a]} ∪ pool_live (pool_ t);
  pd_room : Z.of_nat (base.size (mem t)) < kPoolCapacity;
  pd_rep : entry_rep (hashSeed_ t) (blocks t1) e k (mkRec v kNoExpiry 0);
  pd_other b x p : mem t !! b = Some x → union_ x = bufPtr p →
    blocks t1 !! p = blocks t !! p ∧ union_ e ≠ bufPtr p;
  pd_owned p : is_Some (blocks t1 !! p) → union_ e = bufPtr p ∨ is_Some (blocks t !! p);
}.

Lemma pending_data t bs G t1 a e k v :
  core_inv t bs G → pending t t1 a e k v → (∀ a, ¬ has_key G k a) →
  data_ok (hashSeed_ t) (mem t1) (blocks t1) (<[a := (k, mkRec v kNoExpiry 0)]> G).
Proof.
  intros HI HP Hk. rewrite (pd_mem _ _ _ _ _ _ HP). eapply data_set.
  - apply (ti_data _ _ _ HI).
  - apply (pd_rep _ _ _ _ _ _ HP).
  - intros b r' _ Hb. apply (Hk b). by exists r'.
  - intros b x p _ Hx Hp. by eapply pd_other.
  - intros p [Hp|Hp]%(pd_owned _ _ _ _ _ _ HP); [by left|right].
    destruct (do_own _ _ _ _ (ti_data _ _ _ HI) _ Hp) as (b & x & Hx & Hu). exists b, x. split; [|done].
    intros ->. pose proof (pd_fresh _ _ _ _ _ _ HP). congruence.
Qed.

(** [e->next = head; head = e; ++liveCount_; maybeGrow();] *)
Lemma link_new_spec t bs G t1 a e k v :
  table_inv t bs G → pending t t1 a e k v → (∀ a, ¬ has_key G k a) →
  returns
    (let* x := entry_at t1 a in
     let i := bucketOf t1 (hash x) in
     let* head := at_ (buckets_ t1) i in
     let* t := upd a (set_next head) t1 in
     let* bk := set_bucket i (Some a) (buckets_ t) in
     let t := with_buckets bk t in
     let t := with_liveCount (u64 (liveCount_ t + 1)) t in
     let* t := maybeGrow t in
     Ok (Some a, t))
    (λ '(o, t'), o = Some a ∧ ∃ bs', table_inv t' bs' (<[a := (k, mkRec v kNoExpiry 0)]> G) ∧
       bucketCount t ≤ bucketCount t' ∧ hashSeed_ t' = hashSeed_ t).
Proof.
  intros [HI Hload] HP Hk. pose proof (pending_data _ _ _ _ _ _ _ _ HI HP Hk) as Hdata.
  destruct HP as [Hfresh Hm Hbk Hlv Hsd Hpool Hroom Hrep Hother Howned].
  assert (mem t1 !! a = Some e) as He by (rewrite Hm; apply lookup_insert_eq).
  unfold entry_at. rewrite He. cbn [rbind]. cbv zeta.
  assert (bucketOf t1 (hash e) = bucketOf t (hash e)) as -> by (unfold bucketOf, bucketCount; by rewrite Hbk).
  rewrite (core_bucketOf _ _ _ _ HI).
  assert (0 ≤ hash e) as Hh by (destruct Hrep as (_ & _ & _ & -> & _); apply u32_nonneg).
  pose proof (core_land _ _ _ _ HI Hh) as Hi.
  destruct (core_bucket _ _ _ _ HI Hi) as (p & l & Hat & Hp & Hl & Hc).
  set (i := Z.land (hash e) (bucketCount t - 1)) in *.
  rewrite Hbk, Hat. cbn [rbind]. rewrite (upd_at _ _ _ _ He). tproj.
  assert (i = Z.of_nat (Z.to_nat i)) as Hin by lia. rewrite Hin at 1.
  rewrite set_bucket_ok by (rewrite Hbk; unfold bucketCount in Hi; lia). tproj. rewrite Hbk, Hlv.
  pose proof (ti_live _ _ _ HI) as Hlive. assert (kPoolCapacity = 2 ^ 18) as HcapE by done.
  rewrite u64_small by lia.
  assert (core_inv (with_liveCount (liveCount_ t + 1) (with_buckets (<[Z.to_nat i := Some a]> (buckets_ t))
            (with_mem (<[a := set_next p e]> (mem t1)) t1))) (<[Z.to_nat i := a :: l]> bs)
            (<[a := (k, mkRec v kNoExpiry 0)]> G)) as HI'.
  { assert (a ∉ mjoin bs) as Hna by (rewrite (ti_all _ _ _ HI), Hfresh; by intros []).
    assert (<[a := set_next p e]> (mem t1) = <[a := set_next p e]> (mem t)) as Hmm
      by (rewrite Hm; apply insert_insert_eq).
    split; unfold bucketCount; tproj; rewrite ?length_insert, ?Hmm, ?Hsd.
    - apply HI.
    - apply HI.
    - rewrite fmap_insert. apply links_push; [apply HI|done|done|done|by rewrite <-Hin].
    - intros b. rewrite (bucket_join_insert _ _ _ _ Hl). cbn [app].
      rewrite elem_of_cons, <-(bucket_join _ _ _ Hl), (ti_all _ _ _ HI), lookup_insert_is_Some'. split; (intros [->|]; [by left|by right]).
    - rewrite <-Hmm. eapply data_next; [|exact Hdata]. by apply (fmap_insert_same _ _ _ e).
    - rewrite map_size_insert_None by done. lia.
    - rewrite Hpool, (ti_pool _ _ _ HI), dom_insert_L. done.
    - rewrite map_size_insert_None by done. lia. }
  eapply returns_bind; [apply (maybeGrow_spec _ _ _ HI')|].
  { unfold bucketCount in *. tproj. rewrite length_insert. lia. }
  intros t' (bs' & HT & Hb & Hl' & Hs'). cbn. split; [done|]. exists bs'. split; [done|].
  unfold bucketCount in Hb. cbn in Hb, Hs'. rewrite length_insert in Hb. unfold bucketCount.
  split; [done|congruence].
Qed.

(** ** Insertion *)

(** The entry once its scalar fields are written. *)
Definition new_entry (h : Z) (k v : bytes) (u : storage) : Entry :=
  mkEntry None kNoExpiry h 0 (zlen k) (zlen v) u.

Lemma core_with_pool t bs G pl :
  core_inv t bs G → pool_live pl = pool_live (pool_ t) → core_inv (with_pool pl t) bs G.
Proof. intros [H1 H2 H3 H4 H5 H6 H7 H8] Hp. split; tproj; try done. by rewrite Hp. Qed.

Section insert.
Context (t : Table P) (bs : list (list addr)) (G : contents) (k v : bytes).
Hypothesis HT : table_inv t bs G.
Hypothesis Hlen : zlen k + zlen v < 2 ^ 32.
Hypothesis Hnew : ∀ a, ¬ has_key G k a.

Definition insert_post (o : option addr) (t' : Table P) : Prop :=
  match o with
  | Some a =>
      G !! a = None ∧ Z.of_nat (base.size G) < kPoolCapacity ∧
      ∃ bs', table_inv t' bs' (<[a := (k, mkRec v kNoExpiry 0)]> G) ∧
             bucketCount t ≤ bucketCount t' ∧ hashSeed_ t' = hashSeed_ t
  | None =>
      kPoolCapacity ≤ Z.of_nat (base.size G) ∧
      table_inv t' bs G ∧ bucketCount t' = bucketCount t ∧ hashSeed_ t' = hashSeed_ t
  end.

Lemma insert_lengths :
  u32 (zlen k) = zlen k ∧ u32 (zlen v) = zlen v ∧ u32 (zlen k + zlen v) = zlen k + zlen v.
Proof. unfold u32. rewrite !Z.mod_small by lia. done. Qed.

Lemma insert_fresh a pl :
  tryAllocate (pool_ t) = (Some a, pl) →
  mem t !! a = None ∧ Z.of_nat (base.size (mem t)) < kPoolCapacity ∧
  pool_live pl = {[a]} ∪ pool_live (pool_ t) ∧ G !! a = None.
Proof.
  pose proof (ti_core _ _ _ HT) as HI. intros (Hfresh & Hroom & Hlive)%tryAllocate_Some.
  rewrite (ti_pool _ _ _ HI) in Hfresh, Hroom. rewrite size_dom in Hroom. apply not_elem_of_dom in Hfresh.
  split_and!; [done..|]. apply eq_None_not_Some. rewrite (do_dom _ _ _ _ (ti_data _ _ _ HI)), Hfresh. by intros [].
Qed.

(** The pool is exhausted: whatever was done to the blocks is undone. *)
Lemma insert_full pl :
  tryAllocate (pool_ t) = (None, pl) → insert_post None (with_pool pl t).
Proof.
  pose proof (ti_core _ _ _ HT) as HI. intros [Hcap Hl]%tryAllocate_None.
  rewrite (ti_pool _ _ _ HI), size_dom in Hcap. rewrite <-(contents_size _ _ _ HI) in Hcap.
  split; [done|]. split; [|done]. split; [by apply core_with_pool|apply HT].
Qed.

(** The tail of [insert], once memory is as [pending] describes it. *)
Lemma insert_linked t1 a e :
  pending t t1 a e k v → G !! a = None →
  returns
    (let* x := entry_at t1 a in
     let i := bucketOf t1 (hash x) in
     let* head := at_ (buckets_ t1) i in
     let* t := upd a (set_next head) t1 in
     let* bk := set_bucket i (Some a) (buckets_ t) in
     let t := with_buckets bk t in
     let t := with_liveCount (u64 (liveCount_ t + 1)) t in
     let* t := maybeGrow t in
     Ok (Some a, t)) (λ '(o, t'), insert_post o t').
Proof.
  intros HP Ha. eapply returns_mono; [by eapply (link_new_spec t bs G t1 a e k v)|].
  intros [o t'] (-> & bs' & H). cbn. split; [done|].
  rewrite (contents_size _ _ _ (ti_core _ _ _ HT)). split; [apply HP|]. by exists bs'.
Qed.

Lemma insert_inline :
  zlen k + zlen v ≤ kInlineCap → returns (insert k v t) (λ '(o, t'), insert_post o t').
Proof.
  intros Hs. unfold insert. destruct insert_lengths as (-> & -> & ->).
  rewrite (proj2 (Z.ltb_ge _ _)) by done. cbv zeta.
  destruct (tryAllocate (pool_ t)) as [[a|] pl] eqn:Ea; [|by apply insert_full].
  destruct (insert_fresh _ _ Ea) as (Hfresh & Hroom & Hlive & Hga).
  rewrite hash32_spec by lia. tproj. do 5 store_step. rewrite !Nat2Z.id, !firstn_all.
  set (e := set_lruClock 0 _). set (t0 := with_mem _ (with_pool pl t)).
  destruct (write_pair_inline t0 a e (replicate 32 None) k v) as (c & E & Hc & Hh).
  { apply lookup_insert_eq. } { done. } { unfold kInlineCap in Hs. rewrite length_app, length_replicate. lia. }
  rewrite <-(rbind_assoc _ (λ t, write_dst false a (zlen k) v t)), E. cbn [rbind].
  apply (insert_linked _ a (set_union (inlineBuf c) e)); [|done].
  split; tproj; try done.
  - apply insert_insert_eq.
  - unfold entry_rep. cbn. unfold kInlineCap in *. rewrite Hc, length_replicate. split_and!; done || lia.
  - intros p. by right.
Qed.

Lemma insert_spill :
  kInlineCap < zlen k + zlen v → returns (insert k v t) (λ '(o, t'), insert_post o t').
Proof.
  intros Hs. unfold insert. destruct insert_lengths as (-> & -> & ->).
  rewrite (proj2 (Z.ltb_lt _ _)) by done. unfold new_chars. cbv zeta.
  set (p := fresh (dom (blocks t))). tproj.
  assert (blocks t !! p = None) as Hp by (apply not_elem_of_dom, is_fresh).
  destruct (tryAllocate (pool_ t)) as [[a|] pl] eqn:Ea.
  2: { unfold delete_chars. tproj. rewrite lookup_insert_eq. tproj. cbn [returns].
       rewrite delete_insert_id by done. pose proof (insert_full _ Ea) as H. by destruct t. }
  destruct (insert_fresh _ _ Ea) as (Hfresh & Hroom & Hlive & Hga).
  rewrite hash32_spec by lia. tproj. do 6 store_step. rewrite !Nat2Z.id, !firstn_all.
  set (e := set_union (bufPtr p) _). set (t0 := with_mem _ (with_pool pl _)).
  destruct (write_pair_block t0 a e p (replicate (Z.to_nat (zlen k + zlen v)) None) k v) as (c & E & Hh).
  { apply lookup_insert_eq. } { done. } { apply lookup_insert_eq. }
  { rewrite length_app, length_replicate. lia. }
  rewrite <-(rbind_assoc _ (λ t, write_dst true a (zlen k) v t)), E. cbn [rbind].
  assert (blocks (with_blocks (<[p := c]> (blocks t0)) t0) = <[p := c]> (blocks t)) as Hbl
    by apply insert_insert_eq.
  apply (insert_linked _ a e); [|done].
  split; try done.
  - rewrite Hbl. unfold entry_rep. cbn. split_and!; try (done || lia). exists c. by rewrite lookup_insert_eq.
  - intros b x q Hx Hq. rewrite Hbl.
    destruct (core_entry_block t bs G b x q) as [cq Hcq]; [apply HT|done|done|].
    rewrite lookup_insert_ne by congruence. split; [done|]. intros [= ->]. congruence.
  - intros q. rewrite Hbl. intros [<-|[_ Hq]]%lookup_insert_is_Some; [by left|]. by right.
Qed.

(** [insert] of an absent key. *)
Lemma insert_spec : returns (insert k v t) (λ '(o, t'), insert_post o t').
Proof.
  destruct (Z.le_gt_cases (zlen k + zlen v) kInlineCap); [by apply insert_inline|by apply insert_spill].
Qed.

End insert.

End grow.
End TblGrow.
