(* ===== verification/TableAssign.v ===== *)
(** * Assignment, removal and clearing

    [assign] moves a value between inline and spilled storage in every
    direction; [remove] and [clear] free exactly what the entries own. *)

From Stdlib Require Import ZArith Lia Strings.Byte.
From stdpp Require Import base gmap numbers list.
From S2P Require Import Prelude Bits Hash Entry Table TableLinks TableData TableInv TableGrow.

Local Open Scope Z_scope.

Module TblAssign.
Import Ent Tbl Data TblInv TblGrow.

Section assign.
Context {P : Type} `{!PoolAllocator P}.

Section one.
Context (t : Table P) (bs : list (list addr)) (G : contents).
Context (a : addr) (e : Entry) (k v : bytes) (r : arec).
Hypothesis HI : core_inv t bs G.
Hypothesis Hg : G !! a = Some (k, r).
Hypothesis He : mem t !! a = Some e.
Hypothesis Hrep : entry_rep (hashSeed_ t) (blocks t) e k r.
Hypothesis Hlen : zlen k + zlen v < 2 ^ 32.

Abbreviation post t' :=
  (core_inv t' bs (<[a := (k, rec_value v r)]> G) ∧ bucketCount t' = bucketCount t ∧
   liveCount_ t' = liveCount_ t ∧ hashSeed_ t' = hashSeed_ t).

(** The entry with its new value, wherever it is stored. *)
Abbreviation assigned u := (set_valLen (zlen v) (set_union u e)).

Lemma assigned_post u bl' t' :
  t' = with_blocks bl' (with_mem (<[a := assigned u]> (mem t)) t) →
  own_blocks (blocks t) e (assigned u) bl' →
  match u with
  | inlineBuf c => zlen c = kInlineCap ∧ zlen k + zlen v ≤ kInlineCap ∧ holds c (k ++ v)
  | bufPtr p => kInlineCap < zlen k + zlen v ∧ ∃ c, bl' !! p = Some c ∧ holds c (k ++ v)
  end → post t'.
Proof.
  intros -> Hbl Hu. split; [|done]. apply (core_replace t bs G a e); [done..|].
  eapply data_reassign; [apply HI|done|done| |done].
  destruct Hrep as (H1 & H2 & H3 & H4 & H5 & H6 & _). unfold entry_rep.
  refine (conj H1 (conj eq_refl (conj Hlen (conj H4 (conj H5 (conj H6 _)))))). by destruct u.
Qed.

Lemma assign_lengths : u32 (zlen v) = zlen v ∧ u32 (keyLen e + zlen v) = zlen k + zlen v.
Proof. destruct Hrep as (-> & _). unfold u32. rewrite !Z.mod_small by lia. done. Qed.

(** Inline to inline. *)
Lemma assign_inline c :
  union_ e = inlineBuf c → zlen k + zlen v ≤ kInlineCap → returns (assign a v t) (λ t', post t').
Proof.
  intros Hu Hs. unfold assign, entry_at. rewrite He. cbn [rbind].
  destruct assign_lengths as [-> ->]. rewrite (rep_spilled _ _ _ _ _ Hrep).
  pose proof Hrep as (Hk & Hv & _ & _ & _ & _ & Hc). rewrite Hu in Hc. destruct Hc as (Hcl & Hold & Hh).
  rewrite !(proj2 (Z.ltb_ge _ _)) by done. cbn [rbind negb andb].
  rewrite Hk, Nat2Z.id, firstn_all. cbn [write_dst].
  destruct (write_inline_spec t a e c k v) as (c' & E & Hl' & Hh'); [done|done|by eapply holds_app_l| |].
  { unfold kInlineCap in *. rewrite length_app. lia. }
  rewrite E. cbn [rbind]. store_step. cbn [delete_chars returns].
  eapply (assigned_post (inlineBuf c') (blocks t)); [by destruct t| |].
  - unfold own_blocks, without_block. cbn. by rewrite Hu.
  - split; [lia|done].
Qed.

(** Spilled to inline: the key moves back and the block is freed. *)
Lemma assign_unspill p :
  union_ e = bufPtr p → zlen k + zlen v ≤ kInlineCap → returns (assign a v t) (λ t', post t').
Proof.
  intros Hu Hs. unfold assign, entry_at. rewrite He. cbn [rbind].
  destruct assign_lengths as [-> ->]. rewrite (rep_spilled _ _ _ _ _ Hrep).
  pose proof Hrep as (Hk & Hv & _ & _ & _ & _ & Hc). rewrite Hu in Hc. destruct Hc as (Hold & c & Hc & Hh).
  rewrite (proj2 (Z.ltb_ge _ (zlen k + zlen v))), (proj2 (Z.ltb_lt _ _)) by done. cbn [negb andb].
  rewrite (get_bufPtr_ok _ _ _ _ He Hu). cbn [rbind negb andb orb]. rewrite Hc, Hk.
  assert (read_cells c 0 (zlen k) = Ok k) as ->
    by (apply (read_cells_ok c [] k); by eapply holds_app_l). cbn [rbind].
  rewrite Nat2Z.id, firstn_all.
  set (c0 := replicate (Z.to_nat kInlineCap) None : cells).
  assert (length c0 = 32%nat) as Hc0 by done.
  destruct (holds_store c0 [] k (holds_nil _)) as (c1 & E1 & Hl1 & Hh1).
  { unfold kInlineCap in *. cbn [app]. lia. }
  assert (write_inline a 0 k t = Ok (with_mem (<[a := set_union (inlineBuf c1) e]> (mem t)) t)) as ->.
  { unfold write_inline, entry_at. rewrite He. cbn [rbind]. rewrite Hu. fold c0.
    change (zlen (@nil byte)) with 0 in E1. rewrite E1. cbn [rbind]. by rewrite (upd_at _ _ _ _ He). }
  cbn [rbind write_dst app] in *.
  destruct (write_inline_spec (with_mem (<[a := set_union (inlineBuf c1) e]> (mem t)) t) a
              (set_union (inlineBuf c1) e) c1 k v) as (c' & E & Hl' & Hh');
    [by apply lookup_insert_eq|done|done|unfold kInlineCap in *; rewrite length_app; lia|].
  rewrite E. tproj. store_step. unfold delete_chars. tproj. rewrite Hc. cbn [returns].
  eapply (assigned_post (inlineBuf c') (delete p (blocks t))); [by destruct t| |].
  - unfold own_blocks, without_block. cbn. by rewrite Hu.
  - unfold kInlineCap in *. split; [lia|done].
Qed.

(** Spilled to spilled, no longer than before: the block is reused. *)
Lemma assign_reuse p :
  union_ e = bufPtr p → kInlineCap < zlen k + zlen v → zlen v ≤ zlen (a_value r) →
  returns (assign a v t) (λ t', post t').
Proof.
  intros Hu Hs Hle. unfold assign, entry_at. rewrite He. cbn [rbind].
  destruct assign_lengths as [-> ->]. rewrite (rep_spilled _ _ _ _ _ Hrep).
  pose proof Hrep as (Hk & Hv & _ & _ & _ & _ & Hc). rewrite Hu in Hc. destruct Hc as (Hold & c & Hc & Hh).
  rewrite (proj2 (Z.ltb_lt _ (zlen k + zlen v))), (proj2 (Z.ltb_lt _ _)) by done.
  rewrite (get_bufPtr_ok _ _ _ _ He Hu). cbn [rbind negb andb orb].
  rewrite Hv, (proj2 (Z.ltb_ge _ _)) by done. cbn [rbind].
  rewrite Hk, Nat2Z.id, firstn_all. unfold write_dst. rewrite (get_bufPtr_ok _ _ _ _ He Hu). cbn [rbind].
  pose proof (holds_length _ _ Hh) as Hcl. rewrite length_app in Hcl.
  destruct (write_block_spec t p c k v) as (c' & E & Hl' & Hh'); [done|by eapply holds_app_l| |].
  { rewrite length_app. lia. }
  rewrite E. cbn [rbind]. rewrite (upd_at _ _ e) by done. cbn [rbind delete_chars returns].
  eapply (assigned_post (bufPtr p) (<[p := c']> (blocks t))).
  - unfold set_union, set_valLen. cbn. by rewrite <-Hu.
  - unfold own_blocks, without_block. cbn. rewrite Hu, lookup_delete_eq. split; [done|].
    exists c'. by rewrite insert_delete_eq.
  - split; [done|]. exists c'. by rewrite lookup_insert_eq.
Qed.

(** To a block that did not exist: a value that grew, or one that spills now. *)
Lemma assign_new_block :
  kInlineCap < zlen k + zlen v →
  (spilled e = true → zlen (a_value r) < zlen v) →
  returns (assign a v t) (λ t', post t').
Proof.
  intros Hs Hgrow. unfold assign, entry_at. rewrite He. cbn [rbind].
  destruct assign_lengths as [-> ->].
  pose proof Hrep as (Hk & Hv & _ & _ & _ & _ & Hc).
  rewrite (proj2 (Z.ltb_lt _ (zlen k + zlen v))) by done.
  set (p := fresh (dom (blocks t))).
  assert (blocks t !! p = None) as Hp by (apply not_elem_of_dom, is_fresh).
  assert (∃ old, (if spilled e then let* q := get_bufPtr t a in Ok (Some q) else Ok None) = Ok old ∧
            match old with
            | Some q => union_ e = bufPtr q ∧ is_Some (blocks t !! q)
            | None => ∃ c, union_ e = inlineBuf c
            end) as (old & -> & Hold).
  { rewrite (rep_spilled _ _ _ _ _ Hrep). destruct (union_ e) as [c|q] eqn:Eu.
    - rewrite (proj2 (Z.ltb_ge _ _)) by apply Hc. exists None. eauto.
    - destruct Hc as (Hl & c & Hc & _). rewrite (proj2 (Z.ltb_lt _ _)) by done.
      rewrite (get_bufPtr_ok _ _ _ _ He Eu). exists (Some q). rewrite Hc. eauto. }
  cbn [rbind]. rewrite Hv.
  assert (true && (negb (spilled e) || (zlen (a_value r) <? zlen v)) = true) as ->.
  { destruct (spilled e); [|done]. cbn. apply Z.ltb_lt. by apply Hgrow. }
  unfold new_chars. fold p. tproj.
  assert (key (<[p := replicate (Z.to_nat (zlen k + zlen v)) None]> (blocks t)) e = Ok k) as ->.
  { eapply rep_key, entry_rep_blocks; [|exact Hrep]. intros q Hq.
    destruct (core_entry_block t bs G a e q) as [cq Hcq]; [done..|].
    rewrite lookup_insert_ne by congruence. done. }
  tproj. set (c0 := replicate (Z.to_nat (zlen k + zlen v)) None : cells).
  set (t0 := with_blocks (<[p := c0]> (blocks t)) t).
  assert (zlen c0 = zlen k + zlen v) as Hc0 by (unfold c0; rewrite length_replicate; lia).
  destruct (write_block_spec t0 p c0 [] k) as (c1 & E1 & Hl1 & Hh1);
    [by apply lookup_insert_eq|by apply holds_nil|cbn [app]; lia|].
  change (zlen (@nil byte)) with 0 in E1. cbn [app] in Hh1. rewrite E1. tproj.
  rewrite (upd_at _ _ e) by done. tproj. rewrite Nat2Z.id, firstn_all, Hk.
  unfold write_dst. rewrite (get_bufPtr_ok _ a (set_union (bufPtr p) e) p) by (apply lookup_insert_eq || done). tproj.
  set (t1 := with_mem _ (with_blocks _ t0)).
  destruct (write_block_spec t1 p c1 k v) as (c2 & E2 & Hl2 & Hh2);
    [by apply lookup_insert_eq|done|rewrite length_app; lia|].
  rewrite E2. tproj. store_step. subst t1 t0. unfold delete_chars. tproj. rewrite !insert_insert_eq.
  destruct old as [q|].
  - destruct Hold as [Hu [cq Hcq]]. assert (q ≠ p) as Hqp by congruence.
    rewrite lookup_insert_ne, Hcq by done. cbn [returns].
    eapply (assigned_post (bufPtr p) (delete q (<[p := c2]> (blocks t)))); [by destruct t| |].
    + unfold own_blocks, without_block. cbn. rewrite Hu, lookup_delete_ne by done. split; [done|].
      exists c2. by rewrite delete_insert_ne.
    + split; [done|]. exists c2. by rewrite lookup_delete_ne, lookup_insert_eq.
  - destruct Hold as [c Hu]. cbn [returns].
    eapply (assigned_post (bufPtr p) (<[p := c2]> (blocks t))); [by destruct t| |].
    + unfold own_blocks, without_block. cbn. rewrite Hu. split; [done|]. by exists c2.
    + split; [done|]. exists c2. by rewrite lookup_insert_eq.
Qed.

End one.

(** [assign] replaces the value and nothing else, in every storage transition. *)
Lemma assign_spec (t : Table P) bs G a k v r :
  core_inv t bs G → G !! a = Some (k, r) → zlen k + zlen v < 2 ^ 32 →
  returns (assign a v t) (λ t',
    core_inv t' bs (<[a := (k, rec_value v r)]> G) ∧ bucketCount t' = bucketCount t ∧
    liveCount_ t' = liveCount_ t ∧ hashSeed_ t' = hashSeed_ t).
Proof.
  intros HI Hg Hlen. destruct (core_entry _ _ _ _ _ _ HI Hg) as (e & He & Hrep).
  pose proof (rep_spilled _ _ _ _ _ Hrep) as Hsp. pose proof Hrep as (_ & _ & _ & _ & _ & _ & Hu).
  destruct (Z.le_gt_cases (zlen k + zlen v) kInlineCap) as [Hs|Hs], (union_ e) as [c|p] eqn:Eu.
  - by eapply assign_inline.
  - by eapply assign_unspill.
  - eapply assign_new_block; [done..|]. rewrite Hsp, (proj2 (Z.ltb_ge _ _)); [done|apply Hu].
  - destruct (Z.le_gt_cases (zlen v) (zlen (a_value r))); [by eapply assign_reuse|].
    by eapply assign_new_block.
Qed.

End assign.
End TblAssign.
