(* ===== verification/TableRemove.v ===== *)
(** * Removal, clearing and walks

    [remove] unlinks and frees exactly one entry; [clear] frees everything;
    [scanBucket] hands its visitor each entry of a bucket once, even when the
    visitor removes it; [sampleSome] returns distinct live entries. *)

From Stdlib Require Import ZArith Lia Strings.Byte.
From stdpp Require Import base gmap numbers list.
From S2P Require Import Prelude Bits Hash Entry Table TableLinks TableData TableInv TableGrow.

Local Open Scope Z_scope.

Module TblRemove.
Import Ent Tbl Data TblInv TblGrow.

Section remove.
Context {P : Type} `{!PoolAllocator P}.
Implicit Types (t : Table P) (bs : list (list addr)) (G : contents).

(** ** Freeing one entry *)

Definition freed (a : addr) (e : Entry) t : Table P :=
  with_pool (deallocate a (pool_ t))
    (with_mem (delete a (mem t)) (with_blocks (without_block (blocks t) e) t)).

Lemma free_entry_spec t seed G a e :
  data_ok seed (mem t) (blocks t) G → mem t !! a = Some e → free_entry a t = Ok (freed a e t).
Proof.
  intros HD He. destruct (data_abs _ _ _ _ HD _ _ He) as (k & r & Hg & Hrep).
  unfold free_entry, entry_at. rewrite He. cbn [rbind]. rewrite (rep_spilled _ _ _ _ _ Hrep).
  destruct Hrep as (_ & _ & _ & _ & _ & _ & Hu).
  unfold freed, without_block. destruct (union_ e) as [c|p] eqn:Eu.
  - rewrite (proj2 (Z.ltb_ge _ _)) by apply Hu. cbn [rbind]. unfold pool_free. rewrite He. by destruct t.
  - destruct Hu as (Hs & c & Hc & _). rewrite (proj2 (Z.ltb_lt _ _)) by done.
    rewrite (get_bufPtr_ok _ _ _ _ He Eu). cbn [rbind delete_chars]. rewrite Hc. cbn [rbind].
    unfold pool_free. tproj. by rewrite He.
Qed.

(** ** Unlinking *)

(** The link that precedes an entry whose predecessors are [l1]. *)
Definition link_after (i : nat) (l1 : list addr) : link :=
  match last l1 with Some b => LNext b | None => LBucket (Z.of_nat i) end.

Lemma link_after_snoc i l1 b : link_after i (l1 ++ [b]) = LNext b.
Proof. unfold link_after. by rewrite last_snoc. Qed.

(** Reading that link gives where the predecessors' segment ends. *)
Lemma read_link_after t i p l1 q :
  buckets_ t !! i = Some p → seg (shape <$> mem t) p l1 q → read_link (link_after i l1) t = Ok q.
Proof.
  intros Hp Hs. destruct l1 as [|b l1 _] using rev_ind.
  - cbn in Hs. subst. cbn. by apply at_nat.
  - rewrite link_after_snoc. apply seg_last in Hs as [h Hb]. rewrite lookup_fmap in Hb.
    cbn. unfold entry_at. destruct (mem t !! b) as [x|]; [|done]. cbn in *. unfold shape in Hb. congruence.
Qed.

Lemma remove_loop_spec t i p a l2 l1 l1' fuel :
  buckets_ t !! i = Some p → chain (shape <$> mem t) p (l1 ++ l1' ++ a :: l2) →
  a ∉ l1' → (length l1' < fuel)%nat →
  remove_loop fuel a (link_after i l1) t = Ok (link_after i (l1 ++ l1')).
Proof.
  revert l1 fuel. induction l1' as [|b l1' IH]; intros l1 fuel Hp Hc Ha Hf;
    (destruct fuel as [|fuel]; [cbn in Hf; lia|]); cbn [length] in Hf; cbn [remove_loop].
  - rewrite app_nil_r. apply seg_app in Hc as (q & H1 & (-> & _)).
    rewrite (read_link_after _ _ _ _ _ Hp H1). cbn [rbind]. by rewrite bool_decide_true.
  - pose proof Hc as Hc'. apply seg_app in Hc' as (q & H1 & (-> & _)).
    rewrite (read_link_after _ _ _ _ _ Hp H1). cbn [rbind].
    rewrite bool_decide_false by (intros [= ->]; apply Ha; by left).
    rewrite <-(link_after_snoc i l1 b), (IH (l1 ++ [b])).
    + by rewrite <-app_assoc.
    + done.
    + by rewrite <-app_assoc.
    + intros ?. apply Ha. by right.
    + lia.
Qed.

(** Writing that link: the heads and links of [links_unlink]. *)
Lemma write_link_after t i l1 n :
  (i < length (buckets_ t))%nat → (∀ b, last l1 = Some b → is_Some (mem t !! b)) →
  ∃ m', write_link (link_after i l1) n t =
          Ok (with_buckets (unlinked_heads (buckets_ t) i l1 n) (with_mem m' t)) ∧
        shape <$> m' = unlinked_map (shape <$> mem t) l1 n ∧
        set_next None <$> m' = set_next None <$> mem t.
Proof.
  intros Hi Hb. unfold link_after, unlinked_heads, unlinked_map. destruct (last l1) as [b|].
  - destruct (Hb b eq_refl) as [x Hx]. exists (<[b := set_next n x]> (mem t)).
    cbn [write_link]. rewrite (upd_at _ _ _ _ Hx). split_and!; [by destruct t| |by apply (fmap_insert_same _ _ _ x)].
    rewrite lookup_fmap, Hx, fmap_insert. done.
  - exists (mem t). cbn [write_link]. rewrite set_bucket_ok by done. split_and!; [by destruct t|done|done].
Qed.

Lemma lookup_next_only (m m' : gmap addr Entry) a e :
  set_next None <$> m' = set_next None <$> m → m !! a = Some e →
  ∃ e', m' !! a = Some e' ∧ set_next None e' = set_next None e.
Proof.
  intros Heq He. apply (f_equal (.!! a)) in Heq. rewrite !lookup_fmap, He in Heq.
  destruct (m' !! a) as [e'|]; [|done]. exists e'. split; [done|]. by apply (inj Some) in Heq.
Qed.

Lemma dom_next_only (m m' : gmap addr Entry) :
  set_next None <$> m' = set_next None <$> m → dom m' = dom m.
Proof. intros Heq%(f_equal dom). by rewrite !dom_fmap_L in Heq. Qed.

Lemma size_delete_dom (m m' : gmap addr Entry) a e :
  dom m' = dom m → m !! a = Some e → S (base.size (delete a m')) = base.size m.
Proof.
  intros Hd He. assert (a ∈ dom m') as [e' He']%elem_of_dom by (rewrite Hd; apply elem_of_dom; by eexists).
  rewrite <-(size_dom (D := gset addr) m), <-Hd, size_dom.
  rewrite <-(insert_delete_id m' a e' He') at 2. by rewrite map_size_insert_None by apply lookup_delete_eq.
Qed.

(** [remove] of an entry of the table: it leaves its bucket, its memory is freed,
    and every other entry is as before. *)
Lemma remove_spec t bs G a k r :
  core_inv t bs G → G !! a = Some (k, r) →
  ∃ t' i l1 l2, remove a t = Ok t' ∧ bs !! i = Some (l1 ++ a :: l2) ∧
    core_inv t' (<[i := l1 ++ l2]> bs) (delete a G) ∧
    bucketCount t' = bucketCount t ∧ liveCount_ t' = liveCount_ t - 1 ∧ hashSeed_ t' = hashSeed_ t.
Proof.
  intros HI Hg. destruct (core_entry _ _ _ _ _ _ HI Hg) as (e & He & Hrep).
  destruct (core_bucket_of _ _ _ _ _ _ HI Hg) as (i & l & Hl & (l1 & l2 & ->)%list_elem_of_split & Hi).
  pose proof (ti_links _ _ _ HI) as HL. destruct (links_heads _ _ _ _ HL _ _ Hl) as (p & Hp & Hc).
  pose proof (bucket_NoDup _ _ _ (lk_nodup _ _ _ _ HL) Hl) as Hnd.
  assert (a ∉ l1) as Ha1 by (apply NoDup_app in Hnd as (_ & Hd & _); intros Ha; apply (Hd a Ha); by left).
  unfold remove, entry_at. rewrite He. cbn [rbind].
  pose proof Hrep as (_ & _ & _ & Hh & _). rewrite Hh, Hi.
  pose proof (bucket_fuel _ _ _ _ _ HI Hl) as Hf. rewrite length_app in Hf. cbn [length] in Hf.
  change (LBucket (Z.of_nat i)) with (link_after i []).
  rewrite (remove_loop_spec t i p a l2 [] l1 (S (chain_fuel t)) Hp Hc Ha1 ltac:(lia)). cbn [rbind app].
  destruct (write_link_after t i l1 (next e)) as (m' & -> & Hshape & Hnext).
  { by apply lookup_lt_Some in Hp. }
  { intros b (l1' & ->)%last_Some. apply (ti_all _ _ _ HI). eapply elem_of_bucket; [exact Hl|].
    rewrite <-app_assoc. apply elem_of_app. right. by left. }
  cbn [rbind]. destruct (lookup_next_only _ _ _ _ Hnext He) as (e' & He' & Hee').
  pose proof (data_next _ _ _ _ _ Hnext (ti_data _ _ _ HI)) as Hd'.
  set (t1 := with_buckets _ (with_mem m' t)).
  rewrite (free_entry_spec t1 (hashSeed_ t) G a e' Hd' He'). cbn [rbind].
  eexists _, i, l1, l2. split; [done|]. split; [done|].
  pose proof (dom_next_only _ _ Hnext) as Hdom. pose proof (size_delete_dom _ _ _ _ Hdom He) as Hsz.
  pose proof (ti_live _ _ _ HI) as Hlive. pose proof (ti_cap _ _ _ HI) as Hcap.
  assert (kPoolCapacity = 2 ^ 18) as HcapE by done.
  assert (u64 (liveCount_ t - 1) = liveCount_ t - 1) as Hlv by (apply u64_small; lia).
  assert (length (unlinked_heads (buckets_ t) i l1 (next e)) = length (buckets_ t)) as Hlen
    by (unfold unlinked_heads; destruct (last l1); by rewrite ?length_insert).
  split; [|unfold bucketCount, freed; subst t1; tproj; rewrite Hlen; exact (conj eq_refl (conj Hlv eq_refl))].
  unfold freed. subst t1. split; unfold bucketCount; tproj; rewrite ?Hlen.
  - apply HI.
  - apply HI.
  - rewrite fmap_delete, Hshape. eapply links_unlink; [done|done|]. rewrite lookup_fmap, He. done.
  - intros b. pose proof (unlink_join bs _ _ _ _ Hl) as Hj.
    rewrite lookup_delete_is_Some. rewrite <-(elem_of_dom m'), Hdom, elem_of_dom, <-(ti_all _ _ _ HI), Hj, elem_of_cons.
    assert (a ∉ mjoin (<[i := l1 ++ l2]> bs)) as Hna.
    { pose proof (lk_nodup _ _ _ _ HL) as Hn. rewrite Hj in Hn. by apply NoDup_cons in Hn as [? _]. }
    split; [intros Hb; split; [intros ->; contradiction|right; exact Hb]|].
    intros [Hne [->|Hb]]; [contradiction|exact Hb].
  - by apply data_delete.
  - rewrite Hlv. lia.
  - rewrite deallocate_live, (ti_pool _ _ _ HI), dom_delete_L, Hdom; [done|].
    rewrite (ti_pool _ _ _ HI). apply elem_of_dom. by eexists.
  - lia.
Qed.

End remove.
End TblRemove.
