(* ===== verification/TableWalk.v ===== *)
(** * Clearing, scanning and sampling

    [clear] frees every entry and every block; [scanBucket] hands its visitor each
    entry of a bucket once, even when the visitor removes it; [sampleSome]
    returns distinct live entries. *)

From Stdlib Require Import ZArith Lia Strings.Byte.
From stdpp Require Import base gmap numbers list.
From S2P Require Import Prelude Bits Hash Entry Table TableLinks TableData TableInv TableGrow.
From S2P Require Import TableRemove.

Local Open Scope Z_scope.

Module TblWalk.
Import Ent Tbl Data TblInv TblGrow TblRemove.

Section walk.
Context {P : Type} `{!PoolAllocator P}.
Implicit Types (t : Table P) (bs : list (list addr)) (G : contents).

(** ** Clear *)

(** Midway through [clear]: [l] is the rest of the chain at hand, [todo] and
    [rest] the buckets not reached. *)
Record clearing t (p : option addr) (l : list addr) (todo : list (option addr))
    (rest : list (list addr)) (G : contents) : Prop := {
  cl_chain : chain (shape <$> mem t) p l;
  cl_todo : Forall2 (λ p l, chain (shape <$> mem t) p l) todo rest;
  cl_nodup : NoDup (l ++ mjoin rest);
  cl_all a : a ∈ l ++ mjoin rest ↔ is_Some (mem t !! a);
  cl_data : data_ok (hashSeed_ t) (mem t) (blocks t) G;
  cl_pool : pool_live (pool_ t) = dom (mem t);
}.

Lemma clearing_free t p a l todo rest G e :
  clearing t p (a :: l) todo rest G → mem t !! a = Some e →
  clearing (freed a e t) (next e) l todo rest (delete a G).
Proof.
  intros [H1 H2 H3 H4 H5 H6] He. apply seg_mem in H1 as (e' & _ & He' & Hc).
  assert (e' = e) as -> by congruence. cbn [app] in H3. apply NoDup_cons in H3 as [Ha Hnd].
  assert (∀ b, b ∈ l ++ mjoin rest →
            (shape <$> mem (freed a e t)) !! b = (shape <$> mem t) !! b) as Hfr.
  { intros b Hb. unfold freed. tproj. rewrite fmap_delete, lookup_delete_ne; [done|]. by intros ->. }
  split.
  - eapply seg_frame; [exact Hc|]. intros b Hb. apply Hfr. apply elem_of_app. by left.
  - eapply chains_frame; [exact H2|]. intros b Hb. apply Hfr. apply elem_of_app. by right.
  - done.
  - intros b. unfold freed. tproj. rewrite lookup_delete_is_Some, <-H4. cbn [app]. rewrite elem_of_cons.
    split; [intros Hb; split; [by intros ->|by right]|]. intros [Hne [->|Hb]]; done.
  - unfold freed. tproj. by apply data_delete.
  - unfold freed. tproj. rewrite deallocate_live, H6, dom_delete_L; [done|].
    rewrite H6. apply elem_of_dom. by eexists.
Qed.

Lemma clear_chain_spec t p l todo rest G fuel :
  clearing t p l todo rest G → (length l < fuel)%nat →
  returns (clear_chain fuel p t) (λ t', ∃ G', clearing t' None [] todo rest G' ∧
    buckets_ t' = buckets_ t ∧ hashSeed_ t' = hashSeed_ t).
Proof.
  revert t p G fuel. induction l as [|a l IH]; intros t p G fuel HC Hf;
    (destruct fuel as [|fuel]; [cbn in Hf; lia|]); cbn [length] in Hf; cbn [clear_chain].
  - pose proof (cl_chain _ _ _ _ _ _ HC) as Hp. cbn in Hp. subst p. cbn. by exists G.
  - pose proof (cl_chain _ _ _ _ _ _ HC) as Hc. apply seg_mem in Hc as (e & -> & He & _).
    unfold entry_at. rewrite He. cbn [rbind].
    rewrite (free_entry_spec t _ G a e (cl_data _ _ _ _ _ _ HC) He). cbn [rbind].
    eapply returns_mono; [eapply IH; [by eapply clearing_free|lia]|].
    intros t' (G' & HC' & Hb & Hs). exists G'. split; [done|]. by rewrite Hb, Hs.
Qed.

Lemma clearing_fuel t p l todo rest G : clearing t p l todo rest G → (length l < chain_fuel t)%nat.
Proof.
  intros HC. unfold chain_fuel. rewrite <-(size_dom (D := gset addr)).
  pose proof (cl_nodup _ _ _ _ _ _ HC) as Hnd. apply NoDup_app in Hnd as (Hnd & _ & _).
  rewrite <-(size_list_to_set (C := gset addr) l) by done. apply Nat.lt_succ_r, subseteq_size.
  intros a Ha. apply elem_of_dom, (cl_all _ _ _ _ _ _ HC). apply elem_of_app. left. set_solver.
Qed.

Lemma clear_buckets_spec t (i : nat) todo rest G :
  clearing t None [] todo rest G → drop i (buckets_ t) = todo → (i ≤ length (buckets_ t))%nat →
  Forall (λ p, p = None) (take i (buckets_ t)) →
  returns (clear_buckets (length todo) (Z.of_nat i) t) (λ t', ∃ G',
    clearing t' None [] [] [] G' ∧ buckets_ t' = replicate (length (buckets_ t)) None ∧
    hashSeed_ t' = hashSeed_ t).
Proof.
  revert t i rest G. induction todo as [|p todo IH]; intros t i rest G HC Hd Hi Hn.
  - cbn. exists G. pose proof (cl_todo _ _ _ _ _ _ HC) as Hr. apply Forall2_nil_inv_l in Hr as ->.
    split; [done|]. split; [|done]. apply (f_equal length) in Hd. rewrite length_drop in Hd. cbn in Hd.
    rewrite take_ge in Hn by lia. clear -Hn. induction Hn as [|? ? -> _ IH]; [done|]. cbn. by f_equal.
  - pose proof (cl_todo _ _ _ _ _ _ HC) as Hr. apply Forall2_cons_inv_l in Hr as (l & rest' & Hc & Hr & ->).
    assert (buckets_ t !! i = Some p) as Hp.
    { rewrite <-(Nat.add_0_r i), <-lookup_drop, Hd. done. }
    apply lookup_lt_Some in Hp as Hlt. cbn [length clear_buckets]. rewrite (at_nat _ _ _ Hp). cbn [rbind].
    assert (clearing t p l todo rest' G) as HC1 by (destruct HC; by split).
    eapply returns_bind; [apply (clear_chain_spec _ _ _ _ _ _ _ HC1); by eapply clearing_fuel|].
    intros t1 (G1 & HC2 & Hb1 & Hs1). rewrite Hb1, set_bucket_ok by done. cbn [rbind].
    replace (Z.of_nat i + 1) with (Z.of_nat (S i)) by lia.
    eapply returns_mono; [apply (IH _ (S i) rest' G1)|].
    + by destruct HC2; split.
    + tproj. rewrite drop_insert_lt by lia. replace (S i) with (i + 1)%nat by lia.
      by rewrite <-drop_drop, Hd.
    + tproj. rewrite length_insert. lia.
    + tproj. rewrite (take_S_r _ _ None) by (by apply list_lookup_insert_eq).
      rewrite take_insert_ge by lia. apply Forall_app. split; [done|by repeat constructor].
    + intros t' (G' & HC' & Hb' & Hs'). exists G'. split; [done|]. tproj. revert Hb' Hs'. tproj.
      rewrite length_insert. intros -> ->. done.
Qed.

(** [clear] leaves an empty table of the same size, with no entry and no block
    alive. *)
Lemma clear_spec t bs G :
  core_inv t bs G →
  returns (clear t) (λ t', table_inv t' (replicate (length (buckets_ t)) []) ∅ ∧
    mem t' = ∅ ∧ blocks t' = ∅ ∧ bucketCount t' = bucketCount t ∧ hashSeed_ t' = hashSeed_ t).
Proof.
  intros HI. unfold clear. eapply returns_bind.
  - apply (clear_buckets_spec t 0 (buckets_ t) bs G); [|done|lia|constructor].
    destruct HI as [I1 I2 I3 I4 I5 I6 I7 I8]. split; [done| |apply I3|done|done|done].
    apply Forall2_same_length_lookup. split; [symmetry; apply I3|].
    intros i p l Hp Hl. by eapply (lk_chain _ _ _ _ I3).
  - intros t' (G' & [H1 H2 H3 H4 H5 H6] & Hb & Hs). cbn [returns].
    assert (mem t' = ∅) as Hm.
    { apply map_empty. intros a. apply eq_None_not_Some. rewrite <-H4. apply not_elem_of_nil. }
    assert (blocks t' = ∅) as Hbl.
    { apply map_empty. intros p. apply eq_None_not_Some. intros (a & e & He & _)%(do_own _ _ _ _ H5).
      by rewrite Hm in He. }
    assert (zlen (buckets_ t') = zlen (buckets_ t)) as Hlen by (by rewrite Hb, length_replicate).
    pose proof (core_bucket_pos _ _ _ HI) as Hbp.
    split; [|split; [done|split; [done|split; [done|done]]]].
    split; [|unfold bucketCount in *; tproj; lia].
    split; unfold bucketCount in *; tproj; rewrite ?Hm, ?Hbl, ?Hs, ?Hlen.
    + apply HI.
    + apply HI.
    + rewrite Hb, fmap_empty. apply links_empty.
    + intros a. rewrite mjoin_replicate_nil. rewrite lookup_empty. split; [by intros ?%not_elem_of_nil|by intros []].
    + split.
      * intros a. by rewrite !lookup_empty.
      * intros a e k r He. by rewrite lookup_empty in He.
      * intros p [? He]. by rewrite lookup_empty in He.
      * intros a1 a2 e1 e2 p He. by rewrite lookup_empty in He.
      * intros a1 a2 k r1 r2 He. by rewrite lookup_empty in He.
    + done.
    + by rewrite H6, Hm.
    + done.
Qed.

(** ** Buckets as sets *)

(** An entry is in the bucket its key's hash picks. *)
Lemma core_bucket_elem t bs G i l a k r :
  core_inv t bs G → bs !! i = Some l → G !! a = Some (k, r) →
  a ∈ l ↔ bucketOf t (u32 (key_hash k (hashSeed_ t))) = Z.of_nat i.
Proof.
  intros HI Hl Hg. split; [intros Ha; by eapply core_placed|]. intros Hi.
  destruct (core_bucket_of _ _ _ _ _ _ HI Hg) as (j & l' & Hl' & Ha & Hj).
  assert (i = j) as -> by lia. by simplify_eq.
Qed.

(** ** Scan *)

Lemma chain_head lm p l : chain lm p l → p = head l.
Proof. destruct l; [done|]. by intros [-> _]. Qed.

Section scan.
Context {S : Type} (table_ : S → Table P) (visit : addr → S → result S).
(** What the caller knows after [vis] were visited, with contents [G]. *)
Context (Inv : list addr → S → contents → Prop).

(** The visitor leaves the table alone or removes the entry it was handed. *)
Hypothesis Hvisit : ∀ vis a s bs G,
  Inv vis s G → core_inv (table_ s) bs G → is_Some (G !! a) → a ∉ vis →
  returns (visit a s) (λ s',
    table_ s' = table_ s ∧ Inv (vis ++ [a]) s' G ∨
    remove a (table_ s) = Ok (table_ s') ∧ Inv (vis ++ [a]) s' (delete a G)).

Lemma scan_loop_spec fuel i vis kept l p s bs G :
  core_inv (table_ s) bs G → bs !! i = Some (kept ++ l) → p = head l → NoDup (vis ++ l) →
  Inv vis s G → (length l < fuel)%nat →
  returns (scan_loop table_ visit fuel p s) (λ s', ∃ bs' G',
    core_inv (table_ s') bs' G' ∧ Inv (vis ++ l) s' G' ∧
    bucketCount (table_ s') = bucketCount (table_ s) ∧ hashSeed_ (table_ s') = hashSeed_ (table_ s)).
Proof.
  revert fuel vis kept p s bs G. induction l as [|a l IH]; intros fuel vis kept p s bs G HI Hl Hp Hnd HInv Hf;
    (destruct fuel as [|fuel]; [cbn in Hf; lia|]); cbn [length] in Hf; subst p; cbn [scan_loop head].
  { cbn. exists bs, G. rewrite app_nil_r. done. }
  destruct (links_heads _ _ _ _ (ti_links _ _ _ HI) _ _ Hl) as (p & Hp & Hc).
  apply seg_app in Hc as (q & _ & (e & _ & He & Hc)%seg_mem).
  unfold entry_at. rewrite He. cbn [rbind].
  assert (is_Some (G !! a)) as Hga by (apply (do_dom _ _ _ _ (ti_data _ _ _ HI)); by eexists).
  assert (a ∉ vis) as Hav.
  { apply NoDup_app in Hnd as (_ & Hd & _). intros Ha. apply (Hd a Ha). by left. }
  assert (NoDup ((vis ++ [a]) ++ l)) as Hnd' by (by rewrite <-app_assoc).
  eapply returns_bind; [by apply (Hvisit vis a s bs G)|]. intros s' [[Ht HI']|[Hr HI']].
  - rewrite (chain_head _ _ _ Hc).
    eapply returns_mono; [apply (IH fuel (vis ++ [a]) (kept ++ [a]) _ s' bs G)|].
    + by rewrite Ht.
    + by rewrite <-app_assoc.
    + done.
    + done.
    + done.
    + lia.
    + rewrite Ht, <-app_assoc. done.
  - destruct Hga as [[k r] Hg].
    destruct (remove_spec _ _ _ _ _ _ HI Hg) as (t' & j & l1 & l2 & Hr' & Hl' & HC' & Hb & Hlv & Hs).
    assert (t' = table_ s') as -> by congruence.
    pose proof (lk_nodup _ _ _ _ (ti_links _ _ _ HI)) as Hndb.
    assert (j = i) as ->.
    { destruct (decide (j = i)) as [|Hji]; [done|]. exfalso.
      eapply (bucket_disjoint bs j i _ _ a Hndb Hl' Hl Hji); apply elem_of_app; right; by left. }
    assert (l1 = kept ∧ l2 = l) as [-> ->].
    { assert (l1 ++ a :: l2 = kept ++ a :: l) as Heq by congruence.
      pose proof (bucket_NoDup _ _ _ Hndb Hl) as Hndl. pose proof (bucket_NoDup _ _ _ Hndb Hl') as Hndl'.
      apply app_cons_unique in Heq; [done|..].
      - apply NoDup_app in Hndl' as (_ & Hd & _). intros Ha. apply (Hd a Ha). by left.
      - apply NoDup_app in Hndl as (_ & Hd & _). intros Ha. apply (Hd a Ha). by left. }
    rewrite (chain_head _ _ _ Hc).
    eapply returns_mono; [apply (IH fuel (vis ++ [a]) kept _ s' (<[i := kept ++ l]> bs) (delete a G))|].
    + done.
    + apply list_lookup_insert_eq. by apply lookup_lt_Some in Hl.
    + done.
    + done.
    + done.
    + lia.
    + rewrite Hb, Hs, <-app_assoc. done.
Qed.

(** One bucket: the visitor sees each of its entries exactly once. *)
Lemma scanBucket_spec cursor s bs G :
  core_inv (table_ s) bs G → 0 ≤ cursor → Inv [] s G →
  returns (scanBucket table_ visit cursor s) (λ '(c, s'),
    c = nextCursor cursor (bucketCount (table_ s) - 1) ∧
    bucketCount (table_ s') = bucketCount (table_ s) ∧ hashSeed_ (table_ s') = hashSeed_ (table_ s) ∧
    ∃ l bs' G', bs !! Z.to_nat (Z.land cursor (bucketCount (table_ s) - 1)) = Some l ∧
                core_inv (table_ s') bs' G' ∧ Inv l s' G').
Proof.
  intros HI Hcur HInv. unfold scanBucket. rewrite (core_mask _ _ _ HI).
  destruct (core_bucket _ _ _ _ HI (core_land _ _ _ cursor HI Hcur)) as (p & l & -> & Hp & Hl & Hc).
  cbn [rbind]. eapply returns_bind.
  - apply (scan_loop_spec _ _ [] [] l p s bs G HI Hl (chain_head _ _ _ Hc)); [|done|by eapply bucket_fuel].
    eapply bucket_NoDup; [apply (ti_links _ _ _ HI)|exact Hl].
  - intros s' (bs' & G' & H1 & H2 & H3 & H4). cbn. split; [done|]. split; [done|]. split; [done|].
    by exists l, bs', G'.
Qed.

End scan.

(** ** Sampling *)

(** The entries of [budget] buckets from [idx] on, wrapping at [n]. *)
Fixpoint walk (bs : list (list addr)) (n : Z) (budget : nat) (idx : Z) : list addr :=
  match budget with
  | O => []
  | S budget => default [] (bs !! Z.to_nat idx) ++ walk bs n budget ((idx + 1) mod n)
  end.

Lemma elem_of_walk bs n budget idx a :
  0 < n → 0 ≤ idx < n → a ∈ walk bs n budget idx →
  ∃ j l, 0 ≤ j < Z.of_nat budget ∧ bs !! Z.to_nat ((idx + j) mod n) = Some l ∧ a ∈ l.
Proof.
  intros Hn. revert idx. induction budget as [|budget IH]; intros idx Hi; cbn [walk].
  { by intros ?%not_elem_of_nil. }
  intros [Ha|Ha]%elem_of_app.
  - destruct (bs !! Z.to_nat idx) as [l|] eqn:E; [|by apply not_elem_of_nil in Ha].
    exists 0, l. rewrite Z.add_0_r, Z.mod_small by done. split; [lia|done].
  - destruct (IH _ (Z.mod_pos_bound (idx + 1) n Hn) Ha) as (j & l & Hj & Hl & Hal).
    exists (j + 1), l. split; [lia|]. split; [|done].
    rewrite Z.add_mod_idemp_l in Hl by lia. by replace (idx + (j + 1)) with (idx + 1 + j) by lia.
Qed.

(** A walk of at most [n] buckets meets no entry twice. *)
Lemma walk_NoDup bs n budget idx :
  NoDup (mjoin bs) → 0 < n → 0 ≤ idx < n → Z.of_nat budget ≤ n → NoDup (walk bs n budget idx).
Proof.
  intros Hnd Hn. revert idx. induction budget as [|budget IH]; intros idx Hi Hb; cbn [walk]; [constructor|].
  pose proof (Z.mod_pos_bound (idx + 1) n Hn) as Hi1.
  apply NoDup_app. split_and!.
  - destruct (bs !! Z.to_nat idx) as [l|] eqn:E; [by eapply bucket_NoDup|constructor].
  - intros a Ha Ha'. destruct (bs !! Z.to_nat idx) as [l|] eqn:E; [|by apply not_elem_of_nil in Ha].
    destruct (elem_of_walk _ _ _ _ _ Hn Hi1 Ha') as (j & l' & Hj & Hl' & Hal').
    eapply (bucket_disjoint bs _ _ l l' a Hnd E Hl'); [|done|done].
    rewrite Z.add_mod_idemp_l by lia. pose proof (Z.mod_pos_bound (idx + 1 + j) n Hn).
    intros Heq. assert (idx = (idx + 1 + j) mod n) as Heq' by lia.
    destruct (Z.lt_ge_cases (idx + 1 + j) n); [rewrite Z.mod_small in Heq'; lia|].
    rewrite <-(Z.mod_unique (idx + 1 + j) n 1 (idx + 1 + j - n)) in Heq'; lia.
  - apply IH; [done|lia].
Qed.

Lemma sample_chain_spec t cap p l acc fuel :
  chain (shape <$> mem t) p l → (length l < fuel)%nat → zlen acc ≤ cap →
  sample_chain fuel cap t p acc = Ok (take (Z.to_nat cap) (acc ++ l)).
Proof.
  revert p acc fuel. induction l as [|a l IH]; intros p acc fuel Hc Hf Hcap;
    (destruct fuel as [|fuel]; [cbn in Hf; lia|]); cbn [length] in Hf; cbn [sample_chain].
  - cbn in Hc. subst p. rewrite app_nil_r, take_ge by lia. done.
  - apply seg_mem in Hc as (e & -> & He & Hc). destruct (Z.ltb_spec (zlen acc) cap) as [Hlt|Hge].
    + unfold entry_at. rewrite He. cbn [rbind]. rewrite (IH _ _ fuel Hc); [|lia|rewrite length_app; cbn; lia].
      by rewrite <-app_assoc.
    + rewrite take_app_le, take_ge by lia. done.
Qed.

Lemma take_app_take {A} n (l k : list A) : take n (take n l ++ k) = take n (l ++ k).
Proof.
  destruct (decide (length l ≤ n)%nat); [by rewrite (take_ge l)|].
  rewrite take_app_le, take_take, Nat.min_id, take_app_le by (rewrite ?length_take; lia). done.
Qed.

Lemma sample_buckets_spec t bs G cap budget idx acc :
  core_inv t bs G → 0 ≤ idx < bucketCount t → zlen acc ≤ cap →
  sample_buckets budget cap (bucketCount t - 1) idx t acc =
    Ok (take (Z.to_nat cap) (acc ++ walk bs (bucketCount t) budget idx)).
Proof.
  intros HI. revert idx acc. induction budget as [|budget IH]; intros idx acc Hi Hcap; cbn [sample_buckets walk].
  { rewrite app_nil_r, take_ge by lia. done. }
  destruct (Z.ltb_spec (zlen acc) cap) as [Hlt|Hge].
  2: { rewrite take_app_le, take_ge by lia. done. }
  destruct (core_bucket _ _ _ _ HI Hi) as (p & l & -> & Hp & Hl & Hc). cbn [rbind].
  rewrite (sample_chain_spec t cap p l acc _ Hc) by (done || by eapply bucket_fuel). cbn [rbind].
  rewrite Hl. cbn [default from_option id].
  pose proof (core_bucket_pos _ _ _ HI) as Hbp. pose proof (core_land _ _ _ (u64 (idx + 1)) HI) as Hland.
  assert (Z.land (u64 (idx + 1)) (bucketCount t - 1) = (idx + 1) mod bucketCount t) as Heq.
  { rewrite u64_small by lia. destruct (ti_pow _ _ _ HI) as (n & _ & ->). apply land_mask. }
  rewrite Heq, IH.
  - by rewrite take_app_take, <-app_assoc.
  - apply Z.mod_pos_bound. lia.
  - rewrite length_take. lia.
Qed.

(** [sampleSome]: distinct live entries, at most as many as there are slots; and
    at least one when the walk starts at a bucket that is not empty. *)
Lemma sampleSome_spec t bs G cap rng :
  core_inv t bs G → 1 ≤ cap ≤ 64 → (0 < base.size G)%nat →
  returns (sampleSome cap rng t) (λ '(l, rng'),
    NoDup l ∧ (∀ a, a ∈ l → is_Some (G !! a)) ∧ zlen l ≤ cap ∧ rng' = (splitmix64 rng).1 ∧
    (∀ i b, 0 ≤ i < bucketCount t → (splitmix64 rng).2 = i → bs !! Z.to_nat i = Some b → b ≠ [] → l ≠ [])).
Proof.
  intros HI Hcap Hsz. unfold sampleSome. rewrite (core_size _ _ _ HI).
  rewrite (proj2 (Z.eqb_neq _ 0)), (proj2 (Z.eqb_neq cap 0)) by lia. cbn [orb].
  pose proof (core_bucket_pos _ _ _ HI) as Hbp. rewrite (core_mask _ _ _ HI), u64_small by lia.
  pose proof (splitmix64_range rng) as Hr. destruct (splitmix64 rng) as [rng' r] eqn:Er. cbn [fst snd] in *.
  pose proof (core_land _ _ _ r HI ltac:(lia)) as Hi.
  rewrite (sample_buckets_spec _ _ _ _ _ _ _ HI Hi) by (cbn; lia). cbn [rbind returns app].
  set (budget := Z.min (cap * 10) (bucketCount t)).
  pose proof (walk_NoDup bs (bucketCount t) (Z.to_nat budget) (Z.land r (bucketCount t - 1))
                (lk_nodup _ _ _ _ (ti_links _ _ _ HI)) ltac:(lia) Hi ltac:(lia)) as Hnd.
  split_and!.
  - rewrite <-(take_drop (Z.to_nat cap) (walk _ _ _ _)) in Hnd. by apply NoDup_app in Hnd as (? & _).
  - intros a (n & Ha & _)%elem_of_take. apply list_elem_of_lookup_2, elem_of_walk in Ha as (j & l & Hj & Hl & Ha); [|lia|done].
    apply (core_elem _ _ _ _ HI). by eapply elem_of_bucket.
  - rewrite length_take. lia.
  - done.
  - intros i b Hib -> Hb Hne. replace (Z.to_nat budget) with (S (Z.to_nat (budget - 1))) by lia.
    cbn [walk].
    assert (Z.land i (bucketCount t - 1) = i) as ->.
    { destruct (ti_pow _ _ _ HI) as (n & _ & E). rewrite E in *. rewrite land_mask. by apply Z.mod_small. }
    rewrite Hb. cbn. destruct b as [|x b]; [done|].
    replace (Z.to_nat cap) with (S (Z.to_nat (cap - 1))) by lia. done.
Qed.

End walk.
End TblWalk.
