(* ===== verification/TableProps.v ===== *)
(** * What the table promises

    A refinement of a finite map, stability of entry pointers across growth, and
    the accounting of memory. *)

From Stdlib Require Import ZArith Lia Strings.Byte.
From stdpp Require Import base gmap numbers list strings.
From S2P Require Import Prelude Bits Hash Entry Table TableLinks TableData TableInv TableGrow.
From S2P Require Import TableAssign TableRemove TableWalk.

Local Open Scope Z_scope.

Module TblProps.
Import Ent Tbl Data TblInv TblGrow TblAssign TblRemove TblWalk.

Lemma nextPow2_ok n : 0 ≤ n ≤ 2 ^ 59 → ∃ k, (k ≤ 59)%nat ∧ nextPow2 n = Ok (2 ^ Z.of_nat k) ∧ n ≤ 2 ^ Z.of_nat k.
Proof.
  intros Hn. unfold nextPow2, bit_ceil. destruct (Z.eqb_spec n 0) as [->|Hn0].
  { exists 0%nat. split_and!; [lia|done|done]. }
  rewrite (proj2 (Z.leb_le _ _)) by lia. exists (Z.to_nat (Z.log2_up n)).
  rewrite Z2Nat.id by apply Z.log2_up_nonneg.
  pose proof (Z.log2_up_le_mono n (2 ^ 59) ltac:(lia)) as Hm. rewrite Z.log2_up_pow2 in Hm by lia.
  split; [lia|]. split; [done|]. destruct (Z.eq_dec n 1) as [->|]; [done|]. apply Z.log2_up_spec. lia.
Qed.

Section table.
Context {P : Type} `{!PoolAllocator P}.
Implicit Types (t : Table P).

(** A fresh table is empty and satisfies the invariant. *)
Lemma make_spec n seed :
  0 ≤ n ≤ 2 ^ 59 → 0 ≤ seed < 2 ^ 64 →
  ∃ t : Table P, make n seed = Ok t ∧ table_inv t (replicate (length (buckets_ t)) []) ∅ ∧
    n ≤ bucketCount t ∧ hashSeed_ t = seed.
Proof.
  intros Hn Hs. destruct (nextPow2_ok n Hn) as (k & Hk & E & Hle). unfold make. rewrite E. cbn [rbind].
  assert (∃ m, (2 ≤ m ≤ 59)%nat ∧ Z.max kMinBuckets (2 ^ Z.of_nat k) = 2 ^ Z.of_nat m) as (m & Hm & Hmax).
  { unfold kMinBuckets. destruct (decide (k < 2)%nat) as [Hk2|].
    - exists 2%nat. split; [lia|]. assert (2 ^ Z.of_nat k ≤ 2 ^ 1) by (apply Z.pow_le_mono_r; lia).
      change (2 ^ Z.of_nat 2) with 4. lia.
    - exists k. split; [lia|]. assert (2 ^ 2 ≤ 2 ^ Z.of_nat k) by (apply Z.pow_le_mono_r; lia). lia. }
  rewrite Hmax. assert (2 ^ Z.of_nat m ≤ 2 ^ 59) by (apply Z.pow_le_mono_r; lia). pose proof (pow2_pos m).
  rewrite (proj2 (Z.leb_le _ MAX_POINTERS)) by (unfold MAX_POINTERS; lia).
  eexists. split; [done|]. unfold bucketCount. cbn [buckets_ hashSeed_]. rewrite length_replicate.
  split; [|split; [lia|done]].
  assert (zlen (replicate (Z.to_nat (2 ^ Z.of_nat m)) (None : option addr)) = 2 ^ Z.of_nat m) as Hlen
    by (rewrite length_replicate; lia).
  split; [|unfold bucketCount; cbn [buckets_ liveCount_]; lia].
  split; unfold bucketCount; cbn [buckets_ pool_ liveCount_ hashSeed_ mem blocks]; rewrite ?Hlen.
  - done.
  - by exists m.
  - rewrite fmap_empty. apply links_empty.
  - intros a. rewrite mjoin_replicate_nil, lookup_empty. split; [by intros ?%not_elem_of_nil|by intros []].
  - split.
    + intros a. by rewrite !lookup_empty.
    + intros a e k' r He. by rewrite lookup_empty in He.
    + intros p [? He]. by rewrite lookup_empty in He.
    + intros a1 a2 e1 e2 p He. by rewrite lookup_empty in He.
    + intros a1 a2 k' r1 r2 He. by rewrite lookup_empty in He.
  - by rewrite map_size_empty.
  - by rewrite pool_empty_live, dom_empty_L.
  - by rewrite map_size_empty.
Qed.

(** ** Client programs *)

(** What a client does with a table: look up, then use the entry it got. *)
Inductive top :=
| TPut (k v : bytes)
| TGet (k : bytes)
| TDel (k : bytes)
| TClear.

(** [None] for a put means the pool was exhausted. *)
Definition run_top (o : top) t : result (option bytes * Table P) :=
  match o with
  | TGet k =>
      let* p := find k t in
      match p with
      | None => Ok (None, t)
      | Some a => let* e := entry_at t a in let* v := value (blocks t) e in Ok (Some v, t)
      end
  | TPut k v =>
      let* p := find k t in
      match p with
      | Some a => let* t := assign a v t in Ok (Some v, t)
      | None => let* (o, t) := insert k v t in Ok (match o with Some _ => Some v | None => None end, t)
      end
  | TDel k =>
      let* p := find k t in
      match p with
      | None => Ok (None, t)
      | Some a =>
          let* e := entry_at t a in
          let* v := value (blocks t) e in
          let* t := remove a t in
          Ok (Some v, t)
      end
  | TClear => let* t := clear t in Ok (None, t)
  end.

Fixpoint run_tops (os : list top) t : result (list (option bytes) * Table P) :=
  match os with
  | [] => Ok ([], t)
  | o :: os =>
      let* (r, t) := run_top o t in
      let* (rs, t) := run_tops os t in
      Ok (r :: rs, t)
  end.

End table.

(** The same on a finite map with the pool's capacity. *)
Definition map_top (o : top) (m : gmap bytes bytes) : option bytes * gmap bytes bytes :=
  match o with
  | TGet k => (m !! k, m)
  | TPut k v =>
      match m !! k with
      | Some _ => (Some v, <[k := v]> m)
      | None => if Z.of_nat (base.size m) <? kPoolCapacity then (Some v, <[k := v]> m) else (None, m)
      end
  | TDel k => (m !! k, delete k m)
  | TClear => (None, ∅)
  end.

Fixpoint map_tops (os : list top) (m : gmap bytes bytes) : list (option bytes) * gmap bytes bytes :=
  match os with
  | [] => ([], m)
  | o :: os =>
      let '(r, m) := map_top o m in
      let '(rs, m) := map_tops os m in
      (r :: rs, m)
  end.

Definition top_ok (o : top) : Prop :=
  match o with
  | TPut k v => zlen k + zlen v < 2 ^ 32
  | TGet k | TDel k => zlen k < 2 ^ 64
  | TClear => True
  end.

Section refine.
Context {P : Type} `{!PoolAllocator P}.
Implicit Types (t : Table P).

(** The table holds the map [m]. *)
Definition table_rep t (m : gmap bytes bytes) : Prop :=
  ∃ bs G (M : kvmap), table_inv t bs G ∧ abs G M ∧ a_value <$> M = m.

Lemma map_values_size (M : kvmap) (m : gmap bytes bytes) : a_value <$> M = m → base.size m = base.size M.
Proof. intros <-. apply map_size_fmap. Qed.

Lemma found_value t bs G M a k r :
  table_inv t bs G → abs G M → G !! a = Some (k, r) →
  (a_value <$> M) !! k = Some (a_value r) ∧
  ∃ e, entry_at t a = Ok e ∧ value (blocks t) e = Ok (a_value r).
Proof.
  intros HT HA Ha. split; [by rewrite lookup_fmap, (abs_lookup _ _ _ _ _ HA Ha)|].
  destruct (core_entry_at _ _ _ _ _ _ (ti_core _ _ _ HT) Ha) as (e & He & Hr).
  exists e. split; [done|]. by apply (rep_value _ _ _ _ _ Hr).
Qed.

Lemma missing_value G M k : abs G M → (∀ a, ¬ has_key G k a) → (a_value <$> M) !! k = None.
Proof.
  intros HA Hno. rewrite lookup_fmap, (abs_None G M k HA); [done|]. intros a r Ha. apply (Hno a). by exists r.
Qed.

Lemma rep_remove t bs G M a k r :
  table_inv t bs G → abs G M → G !! a = Some (k, r) →
  ∃ t', remove a t = Ok t' ∧ table_rep t' (delete k (a_value <$> M)).
Proof.
  intros HT HA Ha.
  destruct (remove_spec _ _ _ _ _ _ (ti_core _ _ _ HT) Ha) as (t' & i & l1 & l2 & E & _ & HI & Hb & Hl & _).
  exists t'. split; [done|]. eexists _, _, (delete k M). split; [split; [exact HI|]|split].
  - rewrite Hb, Hl. pose proof (ti_load _ _ _ HT). lia.
  - eapply abs_delete; [done| |done]. exact (do_keys _ _ _ _ (ti_data _ _ _ (ti_core _ _ _ HT))).
  - apply fmap_delete.
Qed.

Lemma rep_assign t bs G M a k r v :
  table_inv t bs G → abs G M → G !! a = Some (k, r) → zlen k + zlen v < 2 ^ 32 →
  returns (assign a v t) (λ t', table_rep t' (<[k := v]> (a_value <$> M))).
Proof.
  intros HT HA Ha Hlen. eapply returns_mono; [by apply (assign_spec _ _ _ _ _ _ _ (ti_core _ _ _ HT) Ha)|].
  intros t' (HI & Hb & Hl & _). eexists _, _, (<[k := rec_value v r]> M). split; [split; [exact HI|]|split].
  - rewrite Hb, Hl. apply HT.
  - apply abs_set; [done| |].
    + eapply other_keys; [|done]. apply (ti_core _ _ _ HT).
    + intros x Hx. assert (x = (k, r)) as -> by congruence. done.
  - by rewrite fmap_insert.
Qed.

Lemma rep_insert t bs G M k v :
  table_inv t bs G → abs G M → (∀ a, ¬ has_key G k a) → zlen k + zlen v < 2 ^ 32 →
  returns (insert k v t) (λ '(o, t'),
    if Z.of_nat (base.size (a_value <$> M)) <? kPoolCapacity
    then is_Some o ∧ table_rep t' (<[k := v]> (a_value <$> M))
    else o = None ∧ table_rep t' (a_value <$> M)).
Proof.
  intros HT HA Hno Hlen. rewrite map_size_fmap.
  rewrite (abs_size G M (do_keys _ _ _ _ (ti_data _ _ _ (ti_core _ _ _ HT))) HA).
  eapply returns_mono; [by apply (insert_spec _ _ _ _ _ HT Hlen Hno)|]. intros [[a|] t'].
  - intros (Ha & Hroom & bs' & HT' & _). rewrite (proj2 (Z.ltb_lt _ _)) by done. split; [by eexists|].
    eexists _, _, (<[k := mkRec v kNoExpiry 0]> M). split; [exact HT'|]. split; [|by rewrite fmap_insert].
    apply abs_set; [done| |congruence]. intros b r' _ Hb. apply (Hno b). by exists r'.
  - intros (Hfull & HT' & _). rewrite (proj2 (Z.ltb_ge _ _)) by done. split; [done|]. by exists bs, G, M.
Qed.

Lemma run_top_spec o t m :
  table_rep t m → top_ok o →
  returns (run_top o t) (λ '(r, t'), r = (map_top o m).1 ∧ table_rep t' (map_top o m).2).
Proof.
  intros (bs & G & M & HT & HA & <-) Hok. pose proof (ti_core _ _ _ HT) as HI.
  destruct o as [k v|k|k|]; cbn [run_top map_top].
  - assert (zlen k < 2 ^ 64) as Hk by (unfold top_ok in Hok; lia).
    eapply returns_bind; [by apply (find_spec t bs G k HI)|]. intros [a|].
    + intros (r & Ha). destruct (found_value _ _ _ _ _ _ _ HT HA Ha) as [-> _].
      eapply returns_bind; [by apply (rep_assign _ _ _ _ _ _ _ v HT HA Ha)|]. intros t' HR. by split.
    + intros Hno. rewrite (missing_value _ _ _ HA Hno).
      eapply returns_bind; [by apply (rep_insert _ _ _ _ k v HT HA Hno)|].
      intros [o t']. destruct (_ <? _); cbn; [by intros [[a ->] HR]|by intros [-> HR]].
  - eapply returns_bind; [by apply (find_spec t bs G k HI)|]. intros [a|].
    + intros (r & Ha). destruct (found_value _ _ _ _ _ _ _ HT HA Ha) as [-> (e & -> & Hv)].
      cbn [rbind]. rewrite Hv. cbn. split; [done|]. by exists bs, G, M.
    + intros Hno. rewrite (missing_value _ _ _ HA Hno). cbn. split; [done|]. by exists bs, G, M.
  - eapply returns_bind; [by apply (find_spec t bs G k HI)|]. intros [a|].
    + intros (r & Ha). destruct (found_value _ _ _ _ _ _ _ HT HA Ha) as [-> (e & -> & Hv)].
      cbn [rbind]. rewrite Hv. cbn [rbind].
      destruct (rep_remove _ _ _ _ _ _ _ HT HA Ha) as (t' & -> & HR). by cbn.
    + intros Hno. rewrite (missing_value _ _ _ HA Hno). cbn. split; [done|].
      exists bs, G, M. split; [done|]. split; [done|]. symmetry. apply delete_id. by apply (missing_value _ _ _ HA Hno).
  - eapply returns_bind; [apply (clear_spec _ _ _ HI)|]. intros t' (HT' & _). cbn. split; [done|].
    eexists _, _, ∅. split; [exact HT'|]. split; [apply abs_empty|by rewrite fmap_empty].
Qed.

Lemma run_tops_spec os t m :
  table_rep t m → Forall top_ok os →
  returns (run_tops os t) (λ '(rs, t'), rs = (map_tops os m).1 ∧ table_rep t' (map_tops os m).2).
Proof.
  revert t m. induction os as [|o os IH]; intros t m HR Hok; cbn [run_tops map_tops]; [done|].
  inversion_clear Hok as [|?? Ho Hos].
  eapply returns_bind; [by apply (run_top_spec o t m)|]. intros [r t1] [-> HR1].
  destruct (map_top o m) as [r m1]. cbn [fst snd] in *.
  eapply returns_bind; [by apply (IH t1 m1)|]. intros [rs t2] [-> HR2]. cbn.
  by destruct (map_tops os m1).
Qed.

Lemma make_rep n seed :
  0 ≤ n ≤ 2 ^ 59 → 0 ≤ seed < 2 ^ 64 → ∃ t : Table P, make n seed = Ok t ∧ table_rep t ∅.
Proof.
  intros Hn Hs. destruct (make_spec n seed Hn Hs) as (t & E & HT & _). exists t. split; [done|].
  eexists _, _, ∅. split; [exact HT|]. split; [apply abs_empty|by rewrite fmap_empty].
Qed.

End refine.

(** C6: the hash table refines a finite map.  From a fresh table, any sequence of
    puts, gets, deletes and clears, with growth, spilled values and reused blocks
    along the way, runs to the end without a fault (no dangling or null
    dereference, no read of an uninitialised byte, no double free, no failed
    assertion) and returns exactly what a finite map returns; a put is refused
    only when the pool's capacity is in use. *)
Theorem table_refines_map {P} `{!PoolAllocator P} (n seed : Z) (os : list top)
    (Hn : 0 ≤ n ≤ 2 ^ 59) (Hs : 0 ≤ seed < 2 ^ 64) (Hok : Forall top_ok os) :
  ∃ t t' : Table P, make n seed = Ok t ∧
    run_tops os t = Ok ((map_tops os ∅).1, t') ∧ table_rep t' (map_tops os ∅).2.
Proof.
  destruct (make_rep n seed Hn Hs) as (t & E & HR). exists t.
  pose proof (run_tops_spec os t ∅ HR Hok) as H. apply returns_inv in H as ([rs t'] & E' & -> & HR').
  exists t'. by split_and!.
Qed.

Definition demo_ops : list top :=
  [TPut (bstr "a") (bstr "1"); TPut (bstr "b") (replicate 40 x62); TGet (bstr "b");
   TPut (bstr "b") (bstr "short"); TGet (bstr "b"); TDel (bstr "a"); TGet (bstr "a")].

Lemma table_refines_map_witness :
  ∃ t t' : Table (gset addr), make 4 42 = Ok t ∧
    run_tops demo_ops t =
      Ok ([Some (bstr "1"); Some (replicate 40 x62); Some (replicate 40 x62); Some (bstr "short");
           Some (bstr "short"); Some (bstr "1"); None], t').
Proof.
  destruct (table_refines_map (P := gset addr) 4 42 demo_ops) as (t & t' & H1 & H2 & _).
  - vm_compute. split; discriminate.
  - vm_compute. split; [discriminate|reflexivity].
  - repeat constructor.
  - exists t, t'. split; [exact H1|exact H2].
Defined.

(** C26: growth never moves an entry.  Inserting a key, whether or not the table
    doubles, leaves every entry at its address with its key, value, deadline and
    clock; the new entry gets a fresh address, and the bucket count never
    shrinks. *)
Theorem insert_keeps_entries {P} `{!PoolAllocator P} (t : Table P) bs G (k v : bytes)
    (HT : table_inv t bs G) (Hlen : zlen k + zlen v < 2 ^ 32) (Hk : ∀ a, ¬ has_key G k a)
    (Hroom : Z.of_nat (base.size G) < kPoolCapacity) :
  ∃ a t' bs' G', insert k v t = Ok (Some a, t') ∧ table_inv t' bs' G' ∧ G !! a = None ∧
    G' !! a = Some (k, mkRec v kNoExpiry 0) ∧ (∀ b, b ≠ a → G' !! b = G !! b) ∧
    (∀ b kr, G !! b = Some kr → ∃ e, entry_at t' b = Ok e ∧
       key (blocks t') e = Ok kr.1 ∧ value (blocks t') e = Ok (a_value kr.2) ∧
       expiresAtMs e = a_expires kr.2 ∧ lruClock e = a_lru kr.2) ∧
    bucketCount t ≤ bucketCount t'.
Proof.
  pose proof (insert_spec t bs G k v HT Hlen Hk) as H. apply returns_inv in H as ([[a|] t'] & E & Hp).
  2: { destruct Hp as (Hfull & _). lia. }
  destruct Hp as (Ha & _ & bs' & HT' & Hb & _).
  exists a, t', bs', (<[a := (k, mkRec v kNoExpiry 0)]> G). split; [done|]. split; [done|]. split; [done|].
  split; [apply lookup_insert_eq|]. split; [intros b Hne; by rewrite lookup_insert_ne|]. split; [|done].
  intros b [kb rb] Hgb. destruct (core_entry_at _ _ _ b kb rb (ti_core _ _ _ HT')) as (e & He & Hr).
  { rewrite lookup_insert_ne; [done|]. congruence. }
  exists e. split; [done|]. split; [by apply (rep_key _ _ _ _ _ Hr)|]. split; [by apply (rep_value _ _ _ _ _ Hr)|].
  by destruct Hr as (_ & _ & _ & _ & Hx & Hl & _).
Qed.

(** The second insertion doubles the table; the first key stays where it is. *)
Lemma insert_keeps_entries_witness :
  ∃ t t1 t2 : Table (gset addr), make 1 7 = Ok t ∧
    ∃ a b, insert (bstr "k") (bstr "v") t = Ok (Some a, t1) ∧ insert (bstr "j") (bstr "w") t1 = Ok (Some b, t2) ∧
      bucketCount t1 ≤ bucketCount t2 ∧
      ∃ e, entry_at t2 a = Ok e ∧ key (blocks t2) e = Ok (bstr "k") ∧ value (blocks t2) e = Ok (bstr "v").
Proof.
  destruct (make_spec (P := gset addr) 1 7) as (t & E & HT & _);
    [vm_compute; split; discriminate|vm_compute; split; [discriminate|reflexivity]|].
  destruct (insert_keeps_entries t _ ∅ (bstr "k") (bstr "v") HT) as (a & t1 & bs1 & G1 & H1 & HT1 & Ha & Hk & Hne & _ & _).
  - vm_compute. reflexivity.
  - intros b [r Hb]. discriminate Hb.
  - vm_compute. reflexivity.
  - destruct (insert_keeps_entries t1 bs1 G1 (bstr "j") (bstr "w") HT1) as (b & t2 & bs2 & G2 & H2 & _ & _ & _ & _ & Hold & Hb).
    + vm_compute. reflexivity.
    + intros c [r Hc]. destruct (decide (c = a)) as [->|Hca]; [rewrite Hk in Hc; discriminate Hc|].
      rewrite Hne in Hc by exact Hca. discriminate Hc.
    + assert (G1 = {[a := (bstr "k", mkRec (bstr "v") kNoExpiry 0)]}) as ->; [|rewrite map_size_singleton; reflexivity].
      apply map_eq. intros c. destruct (decide (c = a)) as [->|Hca]; [by rewrite Hk, lookup_singleton_eq|].
      by rewrite Hne, lookup_singleton_ne by congruence.
    + exists t, t1, t2. split; [exact E|]. exists a, b. split; [exact H1|]. split; [exact H2|]. split; [exact Hb|].
      destruct (Hold a _ Hk) as (e & He & H3 & H4 & _). exists e. split; [exact He|]. split; [exact H3|exact H4].
Defined.

(** No leak and no double free.  Clearing a table, as its destructor does,
    frees every entry and every spill block, each exactly once, and leaves an
    empty table of the same size that is fit for use. *)
Theorem clear_frees_everything {P} `{!PoolAllocator P} (t : Table P) (m : gmap bytes bytes)
    (HR : table_rep t m) :
  ∃ t', clear t = Ok t' ∧ mem t' = ∅ ∧ blocks t' = ∅ ∧ pool_live (pool_ t') = ∅ ∧
    size t' = 0 ∧ bucketCount t' = bucketCount t ∧ table_rep t' ∅.
Proof.
  destruct HR as (bs & G & M & HT & _).
  pose proof (clear_spec t bs G (ti_core _ _ _ HT)) as H. apply returns_inv in H as (t' & E & HT' & Hm & Hb & Hc & _).
  exists t'. pose proof (ti_core _ _ _ HT') as HI'. split; [done|]. split; [done|]. split; [done|].
  split; [by rewrite (ti_pool _ _ _ HI'), Hm, dom_empty_L|].
  split; [unfold size; by rewrite (ti_live _ _ _ HI'), Hm, map_size_empty|]. split; [done|].
  eexists _, _, ∅. split; [exact HT'|]. split; [apply abs_empty|by rewrite fmap_empty].
Qed.

Lemma clear_frees_everything_witness :
  ∃ t t' t'' : Table (gset addr), make 4 42 = Ok t ∧
    run_tops [TPut (bstr "b") (replicate 40 x62)] t = Ok ([Some (replicate 40 x62)], t') ∧
    clear t' = Ok t'' ∧ mem t'' = ∅ ∧ blocks t'' = ∅.
Proof.
  destruct (make_rep (P := gset addr) 4 42) as (t & E & HR);
    [vm_compute; split; discriminate|vm_compute; split; [discriminate|reflexivity]|].
  pose proof (run_tops_spec [TPut (bstr "b") (replicate 40 x62)] t ∅ HR ltac:(repeat constructor)) as H.
  apply returns_inv in H as ([rs t'] & E' & Hrs & HR').
  destruct (clear_frees_everything t' _ HR') as (t'' & Hc & Hm & Hb & _).
  exists t, t', t''. split; [exact E|]. split; [rewrite E', Hrs; reflexivity|]. split; [exact Hc|].
  split; [exact Hm|exact Hb].
Defined.

End TblProps.
