(* ===== verification/Store.v ===== *)
(** * The store ([src/core/store.h], [src/core/store.cpp])

    Policy over the table: lazy expiry on every lookup, the key cap with its two
    eviction policies, and the active expire cycle. *)

From Stdlib Require Import ZArith Lia Strings.Byte.
From stdpp Require Import base list gmap numbers strings.
From S2P Require Import Prelude Bits Hash Entry Table.

Local Open Scope Z_scope.

Module Sto.
Import Ent.

Definition kMaxPasses : Z := 16.
Definition kKeepTtl : Z := -2.
Definition kRngSalt : Z := 0x9e3779b97f4a7c15.
Definition kLruSamplesMax : Z := 64.

Inductive EvictionPolicy := kNoEviction | kAllKeysLru.

Record ExpireCycleResult := mkExpireCycleResult { reaped : Z; passes : Z }.

Record Config := mkConfig {
  initialBuckets : Z;
  cfg_maxKeys : Z;
  cfg_seed : Z;
  lruSamples : Z;
  policy : EvictionPolicy;
}.

Definition default_Config : Config := mkConfig 1024 0 0 5 kNoEviction.

Section store.
Context {P : Type} `{!PoolAllocator P}.

Record Store := mkStore {
  rngState_ : Z;
  maxKeys_ : Z;
  expireCursor_ : Z;
  evictions_ : Z;
  expiredKeys_ : Z;
  lruSamples_ : Z;
  table_ : Tbl.Table P;
  policy_ : EvictionPolicy;
}.

Definition with_rng (x : Z) (s : Store) : Store :=
  mkStore x (maxKeys_ s) (expireCursor_ s) (evictions_ s) (expiredKeys_ s) (lruSamples_ s) (table_ s) (policy_ s).
Definition with_cursor (x : Z) (s : Store) : Store :=
  mkStore (rngState_ s) (maxKeys_ s) x (evictions_ s) (expiredKeys_ s) (lruSamples_ s) (table_ s) (policy_ s).
Definition with_evictions (x : Z) (s : Store) : Store :=
  mkStore (rngState_ s) (maxKeys_ s) (expireCursor_ s) x (expiredKeys_ s) (lruSamples_ s) (table_ s) (policy_ s).
Definition with_expiredKeys (x : Z) (s : Store) : Store :=
  mkStore (rngState_ s) (maxKeys_ s) (expireCursor_ s) (evictions_ s) x (lruSamples_ s) (table_ s) (policy_ s).
Definition with_table (x : Tbl.Table P) (s : Store) : Store :=
  mkStore (rngState_ s) (maxKeys_ s) (expireCursor_ s) (evictions_ s) (expiredKeys_ s) (lruSamples_ s) x (policy_ s).

(** ** Construction *)

(** [rd0] and [rd1] are the two draws of [std::random_device]. *)
Definition resolveSeed (seed rd0 rd1 : Z) : Z :=
  if negb (seed =? 0) then seed else Z.lor (u64 (Z.shiftl rd0 32)) rd1.

Definition resolveMaxKeys (maxKeys : Z) : result Z :=
  check maxKeys <=? kPoolCapacity or FAssert;
  Ok (if maxKeys =? 0 then kPoolCapacity else maxKeys).

Definition make_seeded (cfg : Config) (seed : Z) : result Store :=
  let* cap := resolveMaxKeys (cfg_maxKeys cfg) in
  let* t := Tbl.make (if cfg_maxKeys cfg =? 0 then initialBuckets cfg
                      else Z.max (initialBuckets cfg) (cfg_maxKeys cfg)) seed in
  check (1 <=? lruSamples cfg) && (lruSamples cfg <=? 64) or FAssert;
  Ok (mkStore (Z.lxor kRngSalt seed) cap 0 0 0 (lruSamples cfg) t (policy cfg)).

Definition make (cfg : Config) (rd0 rd1 : Z) : result Store :=
  make_seeded cfg (resolveSeed (cfg_seed cfg) rd0 rd1).

(** [Store()]. *)
Definition make_default (rd0 rd1 : Z) : result Store := make default_Config rd0 rd1.

(** ** Helpers *)

Definition size (s : Store) : Z := Tbl.size (table_ s).
Definition bucketCount (s : Store) : Z := Tbl.bucketCount (table_ s).
Definition maxKeys (s : Store) : Z := maxKeys_ s.
Definition evictions (s : Store) : Z := evictions_ s.
Definition expiredKeys (s : Store) : Z := expiredKeys_ s.

Definition idle (e : Entry) (now : Z) : Z := u32 (u32 now - lruClock e).

Definition remove (a : addr) (s : Store) : result Store :=
  let* t := Tbl.remove a (table_ s) in
  Ok (with_table t s).

Definition count_expired (n : Z) (s : Store) : Store :=
  with_expiredKeys (u64 (expiredKeys_ s + n)) s.

(** A store through an [Entry*] of this store. *)
Definition upd (a : addr) (f : Entry → Entry) (s : Store) : result Store :=
  let* t := Tbl.upd a f (table_ s) in
  Ok (with_table t s).

Definition lookup (k : bytes) (now : Z) (s : Store) : result (option addr * Store) :=
  let* found := Tbl.find k (table_ s) in
  match found with
  | None => Ok (None, s)
  | Some a =>
      let* e := Tbl.entry_at (table_ s) a in
      if expired now e then
        let* s := remove a s in
        Ok (None, count_expired 1 s)
      else Ok (Some a, s)
  end.

(** ** Eviction *)

(** One round of [while (n == 0) n += table_.sampleSome(out, rngState_)]. *)
Definition sample_step (cap : Z) (t : Tbl.Table P) (rng : Z) : Z + result (list addr * Z) :=
  match Tbl.sampleSome cap rng t with
  | Ok ([], rng) => inl rng
  | Ok (l, rng) => inr (Ok (l, rng))
  | Fault f => inr (Fault f)
  end.

(** The generator reaches every value within [2 ^ 64] draws, so this bound is
    never the reason to stop. *)
Definition sample_loop (cap : Z) (t : Tbl.Table P) (rng : Z) : result (list addr * Z) :=
  match iter_until (2 ^ 64)%positive (sample_step cap t) rng with
  | inl _ => Fault FFuel
  | inr r => r
  end.

(** The choice loop of [evictOne]. *)
Fixpoint evict_loop (l : list addr) (now : Z) (hasExpiredOne : bool) (toEvict : option addr)
    (s : Store) : result (bool * option addr * Store) :=
  match l with
  | [] => Ok (hasExpiredOne, toEvict, s)
  | a :: l =>
      let* e := Tbl.entry_at (table_ s) a in
      if expired now e then
        let* s := remove a s in
        evict_loop l now true toEvict (count_expired 1 s)
      else
        let* better :=
          (match toEvict with
           | None => Ok true
           | Some b => let* x := Tbl.entry_at (table_ s) b in Ok (idle x now <? idle e now)
           end) in
        evict_loop l now hasExpiredOne (if better : bool then Some a else toEvict) s
  end.

Definition evictOne (now : Z) (s : Store) : result Store :=
  check lruSamples_ s <=? kLruSamplesMax or FBounds;
  check negb (size s =? 0) or FAssert;
  let* (l, rng) := sample_loop (lruSamples_ s) (table_ s) (rngState_ s) in
  let s := with_rng rng s in
  let* (p, s) := evict_loop l now false None s in
  let '(hasExpiredOne, toEvict) := p in
  if hasExpiredOne : bool then Ok s
  else
    match toEvict with
    | None => Fault FNull
    | Some a =>
        let* s := remove a s in
        Ok (with_evictions (u64 (evictions_ s + 1)) s)
    end.

(** ** Operations *)

Definition find (k : bytes) (now : Z) (touch : bool) (s : Store) : result (option addr * Store) :=
  let* (found, s) := lookup k now s in
  match found with
  | None => Ok (None, s)
  | Some a =>
      let* s := (if touch then upd a (set_lruClock (u32 now)) s else Ok s) in
      Ok (Some a, s)
  end.

Definition set (k v : bytes) (expireAtMs now : Z) (s : Store) : result (bool * Store) :=
  let* (found, s) := lookup k now s in
  if negb (expireAtMs =? kNoExpiry) && negb (expireAtMs =? kKeepTtl) && (expireAtMs <? now) then
    match found with
    | Some a => let* s := remove a s in Ok (true, s)
    | None => Ok (true, s)
    end
  else
    match found with
    | Some a =>
        let* t := Tbl.assign a v (table_ s) in
        let s := with_table t s in
        let* s := (if negb (kKeepTtl =? expireAtMs) then upd a (set_expiresAtMs expireAtMs) s else Ok s) in
        let* s := upd a (set_lruClock (u32 now)) s in
        Ok (true, s)
    | None =>
        let* (full, s) :=
          (if maxKeys_ s <=? size s then
             match policy_ s with
             | kNoEviction => Ok (true, s)
             | kAllKeysLru => let* s := evictOne now s in Ok (false, s)
             end
           else Ok (false, s)) in
        if full : bool then Ok (false, s)
        else
          let* (e, t) := Tbl.insert k v (table_ s) in
          let s := with_table t s in
          match e with
          | None => Fault FAssert
          | Some a =>
              let* s := upd a (set_expiresAtMs (if expireAtMs =? kKeepTtl then kNoExpiry else expireAtMs)) s in
              let* s := upd a (set_lruClock (u32 now)) s in
              Ok (true, s)
          end
    end.

Definition erase (k : bytes) (now : Z) (s : Store) : result (bool * Store) :=
  let* (found, s) := lookup k now s in
  match found with
  | None => Ok (false, s)
  | Some a => let* s := remove a s in Ok (true, s)
  end.

Definition setExpireAt (k : bytes) (expireAtMs now : Z) (s : Store) : result (bool * Store) :=
  let* (found, s) := lookup k now s in
  match found with
  | None => Ok (false, s)
  | Some a =>
      check negb (expireAtMs =? kKeepTtl) or FAssert;
      check negb (expireAtMs =? kNoExpiry) or FAssert;
      if expireAtMs <? now then let* s := remove a s in Ok (true, s)
      else
        let* s := upd a (set_lruClock (u32 now)) s in
        let* s := upd a (set_expiresAtMs expireAtMs) s in
        Ok (true, s)
  end.

Definition int64_sub (x y : Z) : result Z :=
  check (INT64_MIN <=? x - y) && (x - y <=? INT64_MAX) or FOverflow;
  Ok (x - y).

Definition ttlMs (k : bytes) (now : Z) (s : Store) : result (Z * Store) :=
  let* (found, s) := lookup k now s in
  match found with
  | None => Ok (-2, s)
  | Some a =>
      let* e := Tbl.entry_at (table_ s) a in
      if expiresAtMs e =? kNoExpiry then Ok (kNoExpiry, s)
      else let* d := int64_sub (expiresAtMs e) now in Ok (d, s)
  end.

(** ** The active expire cycle *)

(** What the visitor's closure changes: the counters of a pass, and the store. *)
Record Pass := mkPass { sampled : Z; expired_ : Z; pass_store : Store }.

Definition expireVisitor (now : Z) (a : addr) (p : Pass) : result Pass :=
  let sampled' := u64 (sampled p + 1) in
  let* e := Tbl.entry_at (table_ (pass_store p)) a in
  if expired now e then
    let* s := remove a (pass_store p) in
    Ok (mkPass sampled' (u64 (expired_ p + 1)) s)
  else Ok (mkPass sampled' (expired_ p) (pass_store p)).

(** The bucket loop of a pass: whether the cursor wrapped, and the state.  The
    cursor wraps within [bucketCount] steps, which bounds the loop. *)
Fixpoint pass_loop (fuel : nat) (now sampleLimit maxBuckets buckets : Z) (p : Pass) :
    result (bool * Pass) :=
  match fuel with
  | O => Fault FFuel
  | S fuel =>
      if (sampled p <? sampleLimit) && (buckets <? maxBuckets) then
        let* (c, p) := Tbl.scanBucket (λ p, table_ (pass_store p)) (expireVisitor now)
                         (expireCursor_ (pass_store p)) p in
        let p := mkPass (sampled p) (expired_ p) (with_cursor c (pass_store p)) in
        if c =? 0 then Ok (true, p)
        else pass_loop fuel now sampleLimit maxBuckets (u64 (buckets + 1)) p
      else Ok (false, p)
  end.

(** The pass loop: [todo] passes left of [kMaxPasses]. *)
Fixpoint cycle_loop (todo : nat) (now sampleLimit maxBuckets reaped passes : Z) (s : Store) :
    result (ExpireCycleResult * Store) :=
  match todo with
  | O => Ok (mkExpireCycleResult reaped passes, s)
  | S todo =>
      let passes := passes + 1 in
      let* (wrapped, p) :=
        pass_loop (S (S (Z.to_nat (bucketCount s)))) now sampleLimit maxBuckets 0 (mkPass 0 0 s) in
      let reaped := u64 (reaped + expired_ p) in
      let s := count_expired (expired_ p) (pass_store p) in
      if wrapped || (u64 (expired_ p * 10) <=? sampled p)
      then Ok (mkExpireCycleResult reaped passes, s)
      else cycle_loop todo now sampleLimit maxBuckets reaped passes s
  end.

Definition activeExpireCycle (now sampleLimit : Z) (s : Store) : result (ExpireCycleResult * Store) :=
  cycle_loop (Z.to_nat kMaxPasses) now sampleLimit (u64 (sampleLimit * 20)) 0 0 s.

(** The destructor destroys the table. *)
Definition destroy (s : Store) : result Store :=
  let* t := Tbl.destroy (table_ s) in
  Ok (with_table t s).

Definition clear (s : Store) : result Store :=
  let* t := Tbl.clear (table_ s) in
  Ok (with_cursor 0 (with_table t s)).

End store.

Arguments Store P : clear implicits.
Arguments Pass P : clear implicits.

(** ** Examples *)

Definition get {P} `{!PoolAllocator P} (k : bytes) (now : Z) (s : Store P) : result (option bytes * Store P) :=
  let* (found, s) := find k now true s in
  match found with
  | None => Ok (None, s)
  | Some a =>
      let* e := Tbl.entry_at (table_ s) a in
      let* v := value (Tbl.blocks (table_ s)) e in
      Ok (Some v, s)
  end.

Definition lru_store : result (Store (gset addr)) := make (mkConfig 4 2 7 5 kAllKeysLru) 0 0.

(** Two keys fit; the third evicts the one idle longest. *)
Example lru_demo :
  (let* s := lru_store in
   let* (_, s) := set (bstr "a") (bstr "1") kNoExpiry 100 s in
   let* (_, s) := set (bstr "b") (bstr "2") kNoExpiry 200 s in
   let* (_, s) := get (bstr "a") 300 s in
   let* (ok, s) := set (bstr "c") (bstr "3") kNoExpiry 400 s in
   let* (a, s) := get (bstr "a") 500 s in
   let* (b, s) := get (bstr "b") 500 s in
   let* (c, s) := get (bstr "c") 500 s in
   Ok (ok, a, b, c, size s, evictions s)) =
  Ok (true, Some (bstr "1"), None, Some (bstr "3"), 2, 1).
Proof. vm_compute. reflexivity. Qed.

(** The cycle reaps what expired, and only that. *)
Example cycle_demo :
  (let* s := make (mkConfig 4 0 7 5 kNoEviction) 0 0 : result (Store (gset addr)) in
   let* (_, s) := set (bstr "a") (bstr "1") 150 100 s in
   let* (_, s) := set (bstr "b") (bstr "2") kNoExpiry 100 s in
   let* (_, s) := set (bstr "c") (bstr "3") 150 100 s in
   let* (r, s) := activeExpireCycle 151 20 s in
   let* (b, s) := get (bstr "b") 151 s in
   Ok (reaped r, passes r, b, size s, expiredKeys s)) =
  Ok (2, 1, Some (bstr "2"), 1, 2).
Proof. vm_compute. reflexivity. Qed.

End Sto.
