(* ===== verification/StoreInv.v ===== *)
(** * The store against a map from keys to records

    [store_inv] is the invariant of the store between calls: the contents of its
    table, addresses forgotten, are the map [M].  The lemmas here give the
    single steps' effect on [M]. *)

From Stdlib Require Import ZArith Lia Strings.Byte.
From stdpp Require Import base gmap numbers list.
From S2P Require Import Prelude Bits Hash Entry Table TableLinks TableData TableInv TableGrow.
From S2P Require Import TableAssign TableRemove TableWalk Store.

Local Open Scope Z_scope.

(** ** The invariant *)

Definition rec_expired (now : Z) (r : arec) : bool :=
  if a_expires r =? kNoExpiry then false else a_expires r <? now.

Module StoInv.
Import Ent Tbl Data TblInv TblGrow TblAssign TblRemove TblWalk Sto.

Section store.
Context {P : Type} `{!PoolAllocator P}.
Implicit Types (s : Store P) (M : kvmap) (G : contents).

Record store_inv s bs G M : Prop := {
  si_table : table_inv (table_ s) bs G;
  si_abs : abs G M;
  si_samples : 1 ≤ lruSamples_ s ≤ 64;
  si_cap : 1 ≤ maxKeys_ s ≤ kPoolCapacity;
  si_size : Z.of_nat (base.size M) ≤ maxKeys_ s;
  si_cursor : 0 ≤ expireCursor_ s < Sto.bucketCount s;
}.

(** The store represents [M]. *)
Definition Rep s M : Prop := ∃ bs G, store_inv s bs G M.

(** Configuration: set at construction, never changed. *)
Definition same_config s s' : Prop :=
  maxKeys_ s' = maxKeys_ s ∧ lruSamples_ s' = lruSamples_ s ∧ policy_ s' = policy_ s.

Lemma si_core s bs G M : store_inv s bs G M → core_inv (table_ s) bs G.
Proof. intros [[H _] _ _ _ _ _]. done. Qed.

Lemma si_ukeys s bs G M : store_inv s bs G M → ukeys G.
Proof. intros HS. exact (do_keys _ _ _ _ (ti_data _ _ _ (si_core _ _ _ _ HS))). Qed.

Lemma si_count s bs G M : store_inv s bs G M → Sto.size s = Z.of_nat (base.size M).
Proof.
  intros HS. unfold Sto.size. rewrite (core_size _ _ _ (si_core _ _ _ _ HS)).
  by rewrite (abs_size G M (si_ukeys _ _ _ _ HS) (si_abs _ _ _ _ HS)).
Qed.

Lemma Rep_size s M : Rep s M → Sto.size s = Z.of_nat (base.size M) ∧ Z.of_nat (base.size M) ≤ maxKeys_ s.
Proof. intros (bs & G & HS). split; [by eapply si_count|apply HS]. Qed.

(** Replacing the table of the store by another with the same bucket count or
    more, and fields that are not configuration by anything. *)
Lemma store_inv_table s s' bs' G' M' :
  table_inv (table_ s') bs' G' → abs G' M' → same_config s s' →
  1 ≤ lruSamples_ s ≤ 64 → 1 ≤ maxKeys_ s ≤ kPoolCapacity →
  Z.of_nat (base.size M') ≤ maxKeys_ s →
  0 ≤ expireCursor_ s' < Sto.bucketCount s' → store_inv s' bs' G' M'.
Proof. intros HT HA (H1 & H2 & H3) Hl Hc Hsz Hcur. split; by rewrite ?H1, ?H2. Qed.

Lemma abs_update s bs G M a k r r' :
  store_inv s bs G M → G !! a = Some (k, r) → abs (<[a := (k, r')]> G) (<[k := r']> M).
Proof.
  intros HS Ha. apply abs_set; [apply HS| |].
  - eapply other_keys; [|done]. apply (ti_data _ _ _ (si_core _ _ _ _ HS)).
  - intros x Hx. assert (x = (k, r)) as -> by congruence. done.
Qed.

Lemma size_update M k r r' : M !! k = Some r → base.size (<[k := r']> M) = base.size M.
Proof. intros Hk. apply map_size_insert_Some. by eexists. Qed.

(** ** Single steps on the table *)

Lemma upd_step s bs G M a k r f r' :
  store_inv s bs G M → G !! a = Some (k, r) →
  (∃ t', Tbl.upd a f (table_ s) = Ok t' ∧ core_inv t' bs (<[a := (k, r')]> G) ∧
         Tbl.bucketCount t' = Tbl.bucketCount (table_ s) ∧ liveCount_ t' = liveCount_ (table_ s) ∧
         hashSeed_ t' = hashSeed_ (table_ s)) →
  returns (Sto.upd a f s) (λ s', store_inv s' bs (<[a := (k, r')]> G) (<[k := r']> M) ∧
    ∃ t', s' = with_table t' s ∧ hashSeed_ t' = hashSeed_ (table_ s)).
Proof.
  intros HS Ha (t' & E & HI & Hb & Hl & Hsd). unfold Sto.upd. rewrite E. cbn [rbind returns].
  split; [|by exists t'].
  pose proof (abs_lookup _ _ _ _ _ (si_abs _ _ _ _ HS) Ha) as Hk.
  pose proof HS as [HT _ Hls Hc Hsz Hcur].
  apply (store_inv_table s); [|by eapply abs_update|done|done|done|by rewrite (size_update M k r r' Hk)|].
  - split; [done|]. cbn. rewrite Hl, Hb. apply HT.
  - unfold Sto.bucketCount in *. cbn. by rewrite Hb.
Qed.

Lemma set_lru_step s bs G M a k r x :
  store_inv s bs G M → G !! a = Some (k, r) →
  returns (Sto.upd a (set_lruClock x) s) (λ s',
    store_inv s' bs (<[a := (k, rec_lru x r)]> G) (<[k := rec_lru x r]> M) ∧
    ∃ t', s' = with_table t' s ∧ hashSeed_ t' = hashSeed_ (table_ s)).
Proof.
  intros HS Ha. eapply upd_step; [done|done|]. eapply upd_lru_spec; [by eapply si_core|done].
Qed.

Lemma set_expires_step s bs G M a k r x :
  store_inv s bs G M → G !! a = Some (k, r) →
  returns (Sto.upd a (set_expiresAtMs x) s) (λ s',
    store_inv s' bs (<[a := (k, rec_expires x r)]> G) (<[k := rec_expires x r]> M) ∧
    ∃ t', s' = with_table t' s ∧ hashSeed_ t' = hashSeed_ (table_ s)).
Proof.
  intros HS Ha. eapply upd_step; [done|done|]. eapply upd_expires_spec; [by eapply si_core|done].
Qed.

Lemma remove_step s bs G M a k r :
  store_inv s bs G M → G !! a = Some (k, r) →
  returns (Sto.remove a s) (λ s', ∃ bs', store_inv s' bs' (delete a G) (delete k M) ∧
    ∃ t', s' = with_table t' s ∧ hashSeed_ t' = hashSeed_ (table_ s) ∧
          Tbl.bucketCount t' = Tbl.bucketCount (table_ s)).
Proof.
  intros HS Ha.
  destruct (remove_spec _ _ _ _ _ _ (si_core _ _ _ _ HS) Ha) as (t' & i & l1 & l2 & E & _ & HI & Hb & Hl & Hsd).
  unfold Sto.remove. rewrite E. cbn [rbind returns]. eexists. split; [|by exists t'].
  pose proof HS as [HT HA Hls Hc Hsz Hcur]. pose proof (abs_lookup _ _ _ _ _ HA Ha) as Hk.
  apply (store_inv_table s); [|by eapply abs_delete; [done|by eapply si_ukeys|]|done|done|done| |].
  - split; [done|]. cbn. rewrite Hl, Hb. pose proof (ti_load _ _ _ HT). lia.
  - pose proof (map_size_delete_Some k M ltac:(by eexists)) as Hd. rewrite Hd. lia.
  - unfold Sto.bucketCount in *. cbn. by rewrite Hb.
Qed.

Lemma entry_of s bs G M a k r now :
  store_inv s bs G M → G !! a = Some (k, r) →
  ∃ e, Tbl.entry_at (table_ s) a = Ok e ∧
       entry_rep (hashSeed_ (table_ s)) (Tbl.blocks (table_ s)) e k r ∧ Ent.expired now e = rec_expired now r.
Proof.
  intros HS Ha. destruct (core_entry_at _ _ _ _ _ _ (si_core _ _ _ _ HS) Ha) as (e & He & Hr).
  exists e. split; [done|]. split; [done|]. by apply (rep_expired _ _ _ _ _ Hr).
Qed.

(** ** Lookup with lazy expiry *)

(** The map after a lookup of [k]: an expired record is gone. *)
Definition reap (now : Z) (k : bytes) M : kvmap :=
  match M !! k with
  | Some r => if rec_expired now r then delete k M else M
  | None => M
  end.

Definition live (now : Z) (k : bytes) M : option arec :=
  match M !! k with
  | Some r => if rec_expired now r then None else Some r
  | None => None
  end.

Lemma live_reap now k M : live now k M = reap now k M !! k.
Proof.
  unfold live, reap. destruct (M !! k) as [r|] eqn:E; [|done].
  destruct (rec_expired now r); [by rewrite lookup_delete_eq|done].
Qed.

Lemma reap_absent now k M : live now k M = None → reap now k M = delete k M.
Proof.
  unfold live, reap. destruct (M !! k) as [r|] eqn:E; [by destruct (rec_expired now r)|].
  intros _. by rewrite delete_id.
Qed.

Definition reap_count (now : Z) (k : bytes) M : Z :=
  match M !! k with Some r => if rec_expired now r then 1 else 0 | None => 0 end.

Lemma lookup_step s bs G M k now :
  store_inv s bs G M → zlen k < 2 ^ 64 →
  returns (Sto.lookup k now s) (λ '(o, s'), ∃ bs' G',
    store_inv s' bs' G' (reap now k M) ∧
    match o with
    | Some a => ∃ r, G' !! a = Some (k, r) ∧ live now k M = Some r ∧ s' = s
    | None => live now k M = None
    end ∧
    (∃ t', s' = with_expiredKeys (expiredKeys_ s') (with_table t' s) ∧
           Tbl.bucketCount t' = Tbl.bucketCount (table_ s)) ∧
    (0 ≤ expiredKeys_ s < 2 ^ 64 → expiredKeys_ s' = u64 (expiredKeys_ s + reap_count now k M))).
Proof.
  intros HS Hk. unfold Sto.lookup. eapply returns_bind; [apply (find_spec _ _ _ _ (si_core _ _ _ _ HS) Hk)|].
  unfold live, reap, reap_count. intros [a|].
  - intros (r & Ha). rewrite (abs_lookup _ _ _ _ _ (si_abs _ _ _ _ HS) Ha).
    destruct (entry_of _ _ _ _ _ _ _ now HS Ha) as (e & -> & _ & Hx). cbn [rbind]. rewrite Hx.
    destruct (rec_expired now r).
    + eapply returns_bind; [by apply (remove_step _ _ _ _ _ _ _ HS Ha)|].
      intros s' (bs' & HS' & t' & -> & Hsd & Hb). cbn [returns]. exists bs', (delete a G).
      split; [|split; [done|split; [by exists t'|done]]]. by destruct HS'; split.
    + cbn [returns]. exists bs, G. split; [done|]. split; [by exists r|].
      split; [exists (table_ s); split; [by destruct s|done]|]. intros Hek. by rewrite Z.add_0_r, u64_small.
  - intros Hno. rewrite (abs_None _ _ _ (si_abs _ _ _ _ HS)); [|intros a r Ha; apply (Hno a); by exists r].
    cbn [returns]. exists bs, G. split; [done|]. split; [done|].
    split; [exists (table_ s); split; [by destruct s|done]|]. intros Hek. by rewrite Z.add_0_r, u64_small.
Qed.

End store.
End StoInv.
