(* ===== verification/StoreEvict.v ===== *)
(** * Eviction

    Sampling ends, and the victim is the longest idle of the sample unless an
    expired entry turned up, in which case only expired ones go. *)

From Stdlib Require Import ZArith Lia Strings.Byte.
From stdpp Require Import base gmap numbers list.
From S2P Require Import Prelude Bits Hash Entry Table TableLinks TableData TableInv TableGrow.
From S2P Require Import TableAssign TableRemove TableWalk Store StoreInv.

Local Open Scope Z_scope.

Module StoEvict.
Import Ent Tbl Data TblInv TblGrow TblAssign TblRemove TblWalk Sto StoInv.

(** Milliseconds since last use, modulo the 32-bit clock. *)
Definition rec_idle (now : Z) (r : arec) : Z := u32 (u32 now - a_lru r).

Section evict.
Context {P : Type} `{!PoolAllocator P}.
Implicit Types (s : Store P) (M : kvmap) (G : contents).

(** ** Sampling terminates *)

Lemma some_bucket t bs G :
  core_inv t bs G → (0 < base.size G)%nat →
  ∃ i b, 0 ≤ i < Tbl.bucketCount t ∧ bs !! Z.to_nat i = Some b ∧ b ≠ [].
Proof.
  intros HI Hsz. assert (∃ a x, G !! a = Some x) as (a & x & Ha).
  { assert (G ≠ ∅) as Hne by (intros ->; rewrite map_size_empty in Hsz; lia). by apply map_choose in Hne. }
  assert (a ∈ mjoin bs) as (i & l & Hl & Hal)%elem_of_join_bucket
    by (apply (core_elem _ _ _ _ HI); by eexists).
  exists (Z.of_nat i), l. rewrite Nat2Z.id. split_and!; [lia| |done|].
  - apply lookup_lt_Some in Hl. unfold Tbl.bucketCount. rewrite <-(lk_len _ _ _ _ (ti_links _ _ _ HI)). lia.
  - intros ->. by apply not_elem_of_nil in Hal.
Qed.

Lemma sample_loop_spec t bs G cap rng :
  core_inv t bs G → 1 ≤ cap ≤ 64 → (0 < base.size G)%nat →
  returns (sample_loop cap t rng) (λ '(l, _),
    l ≠ [] ∧ NoDup l ∧ (∀ a, a ∈ l → is_Some (G !! a)) ∧ zlen l ≤ cap).
Proof.
  intros HI Hcap Hsz. destruct (some_bucket _ _ _ HI Hsz) as (i & b & Hi & Hb & Hne).
  pose proof (core_bucket_pos _ _ _ HI) as Hbp.
  destruct (splitmix64_hits rng i ltac:(lia)) as (n & Hn & Hhit).
  unfold sample_loop. rewrite iter_until_nat.
  pose proof (positive_nat_Z (2 ^ 64)%positive) as HN. change (Z.pos (2 ^ 64)) with (2 ^ 64) in HN.
  destruct (iter_nat_stops
    (λ j (g : Z), u64 g = splitmix64_skip (Z.of_nat j) rng ∧ Z.of_nat j ≤ n)
    (λ r, returns r (λ '(l, _), l ≠ [] ∧ NoDup l ∧ (∀ a, a ∈ l → is_Some (G !! a)) ∧ zlen l ≤ cap))
    (sample_step cap t) (Pos.to_nat (2 ^ 64)) rng) as (r & -> & Hr); [..|exact Hr].
  - split; [|lia]. unfold splitmix64_skip. f_equal. lia.
  - intros j g _ [Hg Hj]. unfold sample_step.
    pose proof (sampleSome_spec t bs G cap g HI Hcap Hsz) as HS.
    destruct (Tbl.sampleSome cap g t) as [[l g']|]; [|destruct HS]. cbn [returns] in HS.
    destruct HS as (H1 & H2 & H3 & -> & H5). destruct l as [|a l].
    2: { cbn [returns]. refine (conj _ (conj H1 (conj H2 H3))). discriminate. }
    rewrite <-splitmix64_u64, Hg in H5 |- *.
    destruct (Z.eq_dec (Z.of_nat j) n) as [Hjn|].
    + rewrite Hjn in H5. destruct (H5 i b Hi Hhit Hb Hne eq_refl).
    + rewrite splitmix64_skip_succ. split; [|lia].
      replace (Z.of_nat (S j)) with (Z.of_nat j + 1) by lia. apply u64_small, u64_range.
  - intros g [_ Hj]. lia.
Qed.

(** ** The victim *)

(** [s'] differs from [s] in its table, its generator and its counters. *)
Definition evict_frame s s' : Prop :=
  same_config s s' ∧ expireCursor_ s' = expireCursor_ s ∧ Sto.bucketCount s' = Sto.bucketCount s.

Lemma evict_frame_trans s1 s2 s3 : evict_frame s1 s2 → evict_frame s2 s3 → evict_frame s1 s3.
Proof. unfold evict_frame, same_config. intuition congruence. Qed.

(** What is gone between [M] and [M'] had expired. *)
Definition only_expired (now : Z) M M' : Prop :=
  M' ⊆ M ∧ ∀ k r, M !! k = Some r → M' !! k = None → rec_expired now r = true.

Lemma only_expired_refl now M : only_expired now M M.
Proof. split; [done|]. congruence. Qed.

Lemma rec_expired_mono now now' r : now ≤ now' → rec_expired now r = true → rec_expired now' r = true.
Proof. unfold rec_expired. destruct (_ =? _); [done|]. rewrite !Z.ltb_lt. lia. Qed.

Lemma only_expired_later now now' M M' : now ≤ now' → only_expired now M M' → only_expired now' M M'.
Proof. intros Hle [H1 H2]. split; [done|]. intros k r Hk Hn. by eapply rec_expired_mono, H2. Qed.

Lemma only_expired_delete now M M' k r :
  M !! k = Some r → rec_expired now r = true → only_expired now (delete k M) M' → only_expired now M M'.
Proof.
  intros Hk Hr [H1 H2]. split.
  - etrans; [exact H1|]. apply delete_subseteq.
  - intros k' r' Hk' Hn. destruct (decide (k = k')) as [<-|Hne]; [congruence|].
    apply (H2 k' r'); [|done]. by rewrite lookup_delete_ne.
Qed.

(** The keys of the entries at [l]. *)
Fixpoint keys_at (t : Tbl.Table P) (l : list addr) : result (list bytes) :=
  match l with
  | [] => Ok []
  | a :: l =>
      let* e := Tbl.entry_at t a in
      let* k := Ent.key (Tbl.blocks t) e in
      let* ks := keys_at t l in
      Ok (k :: ks)
  end.

(** The sample [evictOne] draws: what [sampleSome] returns when it first returns
    something, and the state of the generator after it. *)
Definition draw s : result (list bytes * Z) :=
  let* (l, rng) := sample_loop (lruSamples_ s) (table_ s) (rngState_ s) in
  let* ks := keys_at (table_ s) l in
  Ok (ks, rng).

(** The keys of [ks] whose deadline has passed. *)
Definition dead (now : Z) M (k : bytes) : bool :=
  match M !! k with Some r => rec_expired now r | None => false end.
Definition expired_in (now : Z) M (ks : list bytes) : list bytes := filter (λ k, dead now M k = true) ks.

(** [k] is the longest idle of [ks], the first one if there are several. *)
Definition idlest (now : Z) M (ks : list bytes) (k : bytes) : Prop :=
  ∃ l1 l2 r, ks = l1 ++ k :: l2 ∧ M !! k = Some r ∧
    (∀ k' r', k' ∈ l1 → M !! k' = Some r' → rec_idle now r' < rec_idle now r) ∧
    (∀ k' r', k' ∈ l2 → M !! k' = Some r' → rec_idle now r' ≤ rec_idle now r).

(** The effect of [evictOne] on the map, given the sample it drew. *)
Definition evicted (now : Z) s s' M M' : Prop :=
  ∃ ks, draw s = Ok (ks, rngState_ s') ∧ ks ≠ [] ∧ NoDup ks ∧ zlen ks ≤ lruSamples_ s ∧
    (∀ k, k ∈ ks → is_Some (M !! k)) ∧
    match expired_in now M ks with
    | [] => ∃ k, idlest now M ks k ∧ M' = delete k M ∧
        evictions_ s' = u64 (evictions_ s + 1) ∧ expiredKeys_ s' = expiredKeys_ s
    | gone => M' = foldr delete M gone ∧
        evictions_ s' = evictions_ s ∧ expiredKeys_ s' = u64 (expiredKeys_ s + zlen gone)
    end.

Lemma foldr_delete_comm (k : bytes) M (l : list bytes) : foldr delete (delete k M) l = delete k (foldr delete M l).
Proof. induction l as [|j l IH]; [done|]. cbn [foldr]. by rewrite IH, delete_delete. Qed.

Lemma expired_in_only now M ks : only_expired now M (foldr delete M (expired_in now M ks)).
Proof.
  assert (∀ k, k ∈ expired_in now M ks → dead now M k = true) as H by (intros k [? _]%list_elem_of_filter; done).
  revert H. generalize (expired_in now M ks) as l. induction l as [|k l IH]; intros H; [apply only_expired_refl|].
  cbn [foldr]. destruct (IH ltac:(intros; apply H; by right)) as [H1 H2]. split; [etrans; [apply delete_subseteq|done]|].
  intros j r Hj. destruct (decide (k = j)) as [<-|Hne]; [|rewrite lookup_delete_ne by done; by apply H2].
  intros _. specialize (H k ltac:(by left)). unfold dead in H. by rewrite Hj in H.
Qed.

Lemma expired_in_shrinks now M ks k :
  k ∈ expired_in now M ks → (base.size (foldr delete M (expired_in now M ks)) < base.size M)%nat.
Proof.
  intros Hin. pose proof (proj1 (expired_in_only now M ks)) as Hsub.
  apply list_elem_of_filter in Hin as Hd. destruct Hd as [Hd _]. unfold dead in Hd.
  destruct (M !! k) as [r|] eqn:Hk; [|done].
  assert (foldr delete M (expired_in now M ks) !! k = None) as Hn.
  { revert Hin. generalize (expired_in now M ks) as l. induction l as [|j l IH]; [by intros ?%not_elem_of_nil|].
    intros [->|Hin]%elem_of_cons; cbn [foldr]; [apply lookup_delete_eq|].
    destruct (decide (j = k)) as [->|]; [apply lookup_delete_eq|rewrite lookup_delete_ne by done; by apply IH]. }
  rewrite <-!(size_dom (D := gset bytes)). apply subset_size.
  split; [by apply subseteq_dom|]. intros Hdom. apply not_elem_of_dom in Hn. apply Hn, Hdom, elem_of_dom. by exists r.
Qed.

(** What a client of the map needs to know: keys expired, or one alive key gone. *)
Lemma evicted_split now s s' M M' :
  evicted now s s' M M' →
  (only_expired now M M' ∧ (base.size M' < base.size M)%nat) ∨
  (∃ k r, M !! k = Some r ∧ M' = delete k M ∧ rec_expired now r = false).
Proof.
  intros (ks & _ & _ & _ & _ & _ & H). destruct (expired_in now M ks) as [|j gone] eqn:E.
  - destruct H as (k & (l1 & l2 & r & -> & Hk & _) & -> & _). right. exists k, r. split; [done|]. split; [done|].
    destruct (rec_expired now r) eqn:Er; [|done].
    assert (k ∈ expired_in now M (l1 ++ k :: l2)) as Hin.
    { apply list_elem_of_filter. unfold dead. rewrite Hk. split; [done|]. apply elem_of_app. right. by left. }
    rewrite E in Hin. by apply not_elem_of_nil in Hin.
  - left. destruct H as (-> & _). rewrite <-E. split; [apply expired_in_only|].
    apply (expired_in_shrinks _ _ _ j). rewrite E. by left.
Qed.

(** ** The choice loop *)

(** [ks] are the keys at [l]. *)
Definition keyed G (l : list addr) (ks : list bytes) : Prop := Forall2 (λ a k, ∃ r, G !! a = Some (k, r)) l ks.

Lemma keys_at_spec s bs G M l ks : store_inv s bs G M → keyed G l ks → keys_at (table_ s) l = Ok ks.
Proof.
  intros HS. induction 1 as [|a k l ks [r Ha] _ IH]; [done|]. cbn [keys_at].
  destruct (entry_of _ _ _ _ _ _ _ 0 HS Ha) as (e & -> & Hrep & _). cbn [rbind].
  by rewrite (rep_key _ _ _ _ _ Hrep), IH.
Qed.

Lemma keyed_of G (l : list addr) : (∀ a, a ∈ l → is_Some (G !! a)) → ∃ ks, keyed G l ks.
Proof.
  induction l as [|a l IH]; intros H; [by exists []; constructor|]. destruct (H a ltac:(by left)) as [[k r] Ha].
  destruct IH as [ks Hks]; [intros b Hb; apply H; by right|]. exists (k :: ks). constructor; [by exists r|done].
Qed.

Lemma keyed_in G l ks k : keyed G l ks → k ∈ ks → ∃ a r, a ∈ l ∧ G !! a = Some (k, r).
Proof.
  induction 1 as [|a k' l ks [r Ha] _ IH]; [by intros ?%not_elem_of_nil|].
  intros [->|Hin]%elem_of_cons; [exists a, r; split; [by left|done]|]. destruct (IH Hin) as (b & r' & Hb & Hg).
  exists b, r'. split; [by right|done].
Qed.

Lemma keyed_NoDup s bs G M l ks : store_inv s bs G M → keyed G l ks → NoDup l → NoDup ks.
Proof.
  intros HS. induction 1 as [|a k l ks [r Ha] HK IH]; [by constructor|]. intros [Hal Hnd]%NoDup_cons. constructor; [|by apply IH].
  intros Hin. destruct (keyed_in _ _ _ _ HK Hin) as (b & r' & Hb & Hg).
  by rewrite (si_ukeys _ _ _ _ HS _ _ _ _ _ Ha Hg) in Hal.
Qed.

Lemma keyed_delete G l ks a : a ∉ l → keyed G l ks → keyed (delete a G) l ks.
Proof.
  intros Ha HK. induction HK as [|b k l ks Hb HK IH]; [constructor|]. apply not_elem_of_cons in Ha as [Hne Ha].
  constructor; [by rewrite lookup_delete_ne|by apply IH].
Qed.

Lemma expired_in_delete now M k ks : k ∉ ks → expired_in now (delete k M) ks = expired_in now M ks.
Proof.
  unfold expired_in. induction ks as [|j ks IH]; [done|]. intros [Hne Hk]%not_elem_of_cons. specialize (IH Hk).
  assert (dead now (delete k M) j = dead now M j) as E by (unfold dead; by rewrite lookup_delete_ne).
  destruct (dead now M j) eqn:Ej.
  - by rewrite !filter_cons_True, IH.
  - by rewrite !filter_cons_False, IH by congruence.
Qed.

(** What the loop knows of its candidate. *)
Definition candidate (now : Z) G M (l : list addr) (seen : list bytes) (he : bool) (te : option addr) : Prop :=
  match te with
  | Some b => (b ∉ l) ∧ ∃ k r, G !! b = Some (k, r) ∧ (he = false → idlest now M seen k)
  | None => he = false → seen = []
  end.

Lemma idlest_keep now M seen k r j r' :
  idlest now M seen k → M !! k = Some r → M !! j = Some r' → rec_idle now r' ≤ rec_idle now r →
  idlest now M (seen ++ [j]) k.
Proof.
  intros (l1 & l2 & r0 & -> & Hk0 & H1 & H2) Hk Hj Hle. assert (r0 = r) as -> by congruence.
  exists l1, (l2 ++ [j]), r. split; [by rewrite <-app_assoc|]. split; [done|]. split; [done|].
  intros k' r'' [Hin|Hin]%elem_of_app Hk'; [by eapply H2|]. apply list_elem_of_singleton in Hin as ->.
  assert (r'' = r') as -> by congruence. done.
Qed.

Lemma idlest_new now M seen k r j r' :
  idlest now M seen k → M !! k = Some r → M !! j = Some r' → rec_idle now r < rec_idle now r' →
  idlest now M (seen ++ [j]) j.
Proof.
  intros (l1 & l2 & r0 & -> & Hk0 & H1 & H2) Hk Hj Hlt. assert (r0 = r) as -> by congruence.
  exists (l1 ++ k :: l2), [], r'. split; [done|]. split; [done|]. split; [|by intros ? ? ?%not_elem_of_nil].
  intros k' r'' [Hin|[->|Hin]%elem_of_cons]%elem_of_app Hk'.
  - specialize (H1 _ _ Hin Hk'). lia.
  - assert (r'' = r) as -> by congruence. done.
  - specialize (H2 _ _ Hin Hk'). lia.
Qed.

Lemma rep_idle seed bl e k r now : entry_rep seed bl e k r → idle e now = rec_idle now r.
Proof. intros (_ & _ & _ & _ & _ & Hl & _). unfold idle, rec_idle. by rewrite Hl. Qed.

(** The comparison of the choice loop, and the candidate it leaves. *)
Lemma choose_step s bs G M now l seen he te a k r e :
  store_inv s bs G M → G !! a = Some (k, r) → a ∉ l →
  entry_rep (hashSeed_ (table_ s)) (Tbl.blocks (table_ s)) e k r →
  candidate now G M (a :: l) seen he te →
  ∃ better,
    (match te with
     | None => Ok true
     | Some b => let* x := Tbl.entry_at (table_ s) b in Ok (idle x now <? idle e now)
     end) = Ok better ∧
    candidate now G M l (seen ++ [k]) he (if better : bool then Some a else te).
Proof.
  intros HS Hg Ha Hrep Hte. pose proof (abs_lookup _ _ _ _ _ (si_abs _ _ _ _ HS) Hg) as Hk. destruct te as [b|].
  - destruct Hte as (Hb & kb & rb & Hgb & Hbest). apply not_elem_of_cons in Hb as [Hba Hb].
    pose proof (abs_lookup _ _ _ _ _ (si_abs _ _ _ _ HS) Hgb) as Hkb.
    destruct (entry_of _ _ _ _ _ _ _ now HS Hgb) as (x & -> & Hrepb & _). cbn [rbind].
    rewrite (rep_idle _ _ _ _ _ _ Hrepb), (rep_idle _ _ _ _ _ _ Hrep). eexists. split; [done|].
    destruct (Z.ltb_spec (rec_idle now rb) (rec_idle now r)) as [Hlt|Hge]; cbn.
    + split; [done|]. exists k, r. split; [done|]. intros Hhe. eapply idlest_new; [by apply Hbest|done..].
    + split; [done|]. exists kb, rb. split; [done|]. intros Hhe. eapply idlest_keep; [by apply Hbest|done..].
  - exists true. split; [done|]. cbn. split; [done|]. exists k, r. split; [done|].
    intros Hhe. rewrite (Hte Hhe). exists [], [], r. split; [done|]. split; [done|].
    by split; intros ? ? ?%not_elem_of_nil.
Qed.

Lemma count_expired_inv n s bs G M : store_inv s bs G M → store_inv (count_expired n s) bs G M.
Proof. intros []; by split. Qed.

(** How many expired keys are counted. *)
Definition counts (e : Z) (gone : list bytes) : Z := match gone with [] => e | _ => u64 (e + zlen gone) end.

Lemma evict_loop_spec l ks seen now he te s bs G M :
  store_inv s bs G M → NoDup l → keyed G l ks → NoDup ks → candidate now G M l seen he te →
  returns (evict_loop l now he te s) (λ '(he', te', s'), ∃ bs' G',
    store_inv s' bs' G' (foldr delete M (expired_in now M ks)) ∧ evict_frame s s' ∧
    evictions_ s' = evictions_ s ∧ rngState_ s' = rngState_ s ∧
    expiredKeys_ s' = counts (expiredKeys_ s) (expired_in now M ks) ∧
    he' = he || bool_decide (expired_in now M ks ≠ []) ∧
    (he' = false → G' = G ∧ candidate now G M [] (seen ++ ks) false te')).
Proof.
  intros HS Hnd HK. revert seen he te s bs G M HS Hnd HK.
  revert ks. induction l as [|a l IH]; intros ks seen he te s bs G M HS Hnd HK Hndk Hte; cbn [evict_loop].
  - inversion HK; subst. cbn [returns]. exists bs, G. rewrite app_nil_r, orb_false_r. do 6 (split; [done|]).
    intros ->. done.
  - inversion HK as [|? k ? ks' [r Hg] HK']; subst. apply NoDup_cons in Hnd as [Ha Hnd]. apply NoDup_cons in Hndk as [Hk Hndk].
    destruct (entry_of _ _ _ _ _ _ _ now HS Hg) as (e & -> & Hrep & Hx). cbn [rbind]. rewrite Hx.
    pose proof (abs_lookup _ _ _ _ _ (si_abs _ _ _ _ HS) Hg) as HkM.
    assert (dead now M k = rec_expired now r) as Hdead by (unfold dead; by rewrite HkM).
    destruct (rec_expired now r) eqn:Er.
    + assert (expired_in now M (k :: ks') = k :: expired_in now M ks') as -> by (by apply filter_cons_True).
      eapply returns_bind; [by apply (remove_step _ _ _ _ _ _ _ HS Hg)|].
      intros s1 (bs1 & HS1 & t1 & -> & Hsd & Hb). cbn beta.
      eapply returns_mono; [apply (IH ks' seen true te _ bs1 (delete a G) (delete k M));
                            [by apply count_expired_inv|done|by apply keyed_delete|done|]|].
      * destruct te as [b|]; [|done]. destruct Hte as (Hb1 & kb & rb & Hgb & _). apply not_elem_of_cons in Hb1 as [Hba Hb1].
        split; [done|]. exists kb, rb. by rewrite lookup_delete_ne.
      * intros [[he' te'] s'] (bs' & G' & HS' & Hf & Hev & Hrng & Hex & -> & _). rewrite expired_in_delete in * by done.
        rewrite foldr_delete_comm in HS'. exists bs', G'. split; [exact HS'|].
        split; [eapply evict_frame_trans; [|exact Hf]; split; [done|split; [done|exact Hb]]|].
        split; [done|]. split; [done|]. split; [|split; [by rewrite (bool_decide_true (_ :: _ ≠ [])), orb_true_r by done|done]].
        rewrite Hex. cbn -[u64 Z.of_nat]. unfold counts. destruct (expired_in now M ks') as [|j gone]; [done|].
        unfold u64. cbn [length]. rewrite Zplus_mod_idemp_l. f_equal. lia.
    + assert (expired_in now M (k :: ks') = expired_in now M ks') as -> by (apply filter_cons_False; congruence).
      destruct (choose_step s bs G M now l seen he te a k r e HS Hg Ha Hrep Hte) as (better & -> & Hte').
      cbn [rbind]. rewrite (cons_middle k seen ks'), (app_assoc seen [k] ks').
      by apply (IH ks' (seen ++ [k]) he _ s bs G M HS Hnd).
Qed.

Lemma evictOne_spec now s bs G M :
  store_inv s bs G M → (0 < base.size M)%nat →
  returns (evictOne now s) (λ s', ∃ bs' G' M',
    store_inv s' bs' G' M' ∧ evict_frame s s' ∧ M' ⊆ M ∧ (base.size M' < base.size M)%nat ∧
    evicted now s s' M M').
Proof.
  intros HS Hsz. pose proof (si_samples _ _ _ _ HS) as Hls. pose proof (si_core _ _ _ _ HS) as HI.
  unfold evictOne. rewrite (proj2 (Z.leb_le _ kLruSamplesMax)) by (unfold kLruSamplesMax; lia).
  rewrite (si_count _ _ _ _ HS), (proj2 (Z.eqb_neq _ 0)) by lia. cbn [negb].
  pose proof (abs_size _ _ (si_ukeys _ _ _ _ HS) (si_abs _ _ _ _ HS)) as HGsz.
  pose proof (sample_loop_spec _ _ _ (lruSamples_ s) (rngState_ s) HI Hls ltac:(lia)) as Hl.
  apply returns_inv in Hl as ([l rng] & El & Hne & Hnd & Hin & Hcap). rewrite El. cbn [rbind].
  destruct (keyed_of G l Hin) as [ks HK]. pose proof (keyed_NoDup _ _ _ _ _ _ HS HK Hnd) as Hndk.
  assert (∀ k, k ∈ ks → is_Some (M !! k)) as HinM.
  { intros k Hk. destruct (keyed_in _ _ _ _ HK Hk) as (a & r & _ & Ha). exists r. by eapply abs_lookup; [apply HS|]. }
  assert (draw s = Ok (ks, rng)) as Hdraw by (unfold draw; rewrite El; cbn [rbind]; by rewrite (keys_at_spec _ _ _ _ _ _ HS HK)).
  pose proof (Forall2_length _ _ _ HK) as Hlen. assert (ks ≠ []) as Hkne by (intros ->; by apply Hne, length_zero_iff_nil).
  assert (store_inv (with_rng rng s) bs G M) as HS0 by (by destruct HS; split).
  eapply returns_bind; [by apply (evict_loop_spec l ks [] now false None _ bs G M HS0 Hnd HK Hndk)|].
  intros [[he te] s'] (bs' & G' & HS' & Hf & Hev & Hrng & Hex & -> & Hc). cbn [orb] in *.
  destruct (expired_in now M ks) as [|j gone] eqn:Egone.
  - rewrite bool_decide_false in * by (by intros []). destruct (Hc eq_refl) as [-> Hcand]. cbn [app] in Hcand.
    destruct te as [b|]; [|by destruct Hkne, Hcand]. destruct Hcand as (_ & k & r & Hg & Hidl). specialize (Hidl eq_refl).
    cbn [foldr] in HS'. pose proof (abs_lookup _ _ _ _ _ (si_abs _ _ _ _ HS) Hg) as Hk.
    eapply returns_bind; [by apply (remove_step _ _ _ _ _ _ _ HS' Hg)|].
    intros s1 (bs1 & HS1 & t1 & -> & Hsd & Hbc). cbn [returns]. exists bs1, (delete b G), (delete k M).
    pose proof (map_size_delete_Some k M ltac:(by eexists)) as Hd.
    split; [by destruct HS1; split|].
    split; [eapply evict_frame_trans; [exact Hf|split; [done|split; [done|exact Hbc]]]|].
    split; [apply delete_subseteq|]. split; [lia|].
    exists ks. cbn. rewrite Hrng. split; [done|]. do 3 (split; [lia || done|]). split; [done|]. rewrite Egone, Hev. by exists k.
  - rewrite bool_decide_true in * by done. cbn [returns]. rewrite <-Egone in HS'.
    exists bs', G', (foldr delete M (expired_in now M ks)). split; [exact HS'|]. split; [exact Hf|].
    split; [apply expired_in_only|]. split; [apply (expired_in_shrinks _ _ _ j); rewrite Egone; by left|].
    exists ks. rewrite Hrng. split; [done|]. do 3 (split; [lia || done|]). split; [done|]. by rewrite Egone.
Qed.

End evict.
End StoEvict.
