(* ===== verification/StoreOps.v ===== *)
(** * The operations of the store on its map

    Each public operation, on every branch, as a change of the represented map. *)

From Stdlib Require Import ZArith Lia Strings.Byte.
From stdpp Require Import base gmap numbers list.
From S2P Require Import Prelude Bits Hash Entry Table TableLinks TableData TableInv TableGrow.
From S2P Require Import TableAssign TableRemove TableWalk Store StoreInv StoreEvict.

Local Open Scope Z_scope.

Module StoOps.
Import Ent Tbl Data TblInv TblGrow TblAssign TblRemove TblWalk Sto StoInv StoEvict.

Section ops.
Context {P : Type} `{!PoolAllocator P}.
Implicit Types (s : Store P) (M : kvmap) (G : contents).

(** [s'] is [s] with another table and other counters. *)
Lemma lookup_frame s s' t' :
  s' = with_expiredKeys (expiredKeys_ s') (with_table t' s) → same_config s s'.
Proof. by intros ->. Qed.

Lemma same_config_trans s1 s2 s3 : same_config s1 s2 → same_config s2 s3 → same_config s1 s3.
Proof. unfold same_config. intuition congruence. Qed.

Lemma reap_subseteq now k M : reap now k M ⊆ M.
Proof. unfold reap. destruct (M !! k) as [r|]; [|done]. destruct (rec_expired now r); [apply delete_subseteq|done]. Qed.

Lemma live_some now k M r : live now k M = Some r → M !! k = Some r ∧ rec_expired now r = false ∧ reap now k M = M.
Proof.
  unfold live, reap. destruct (M !! k) as [r'|]; [|done]. destruct (rec_expired now r') eqn:E; [done|].
  by intros [= ->].
Qed.

(** ** find *)

Lemma find_step s bs G M k now touch :
  store_inv s bs G M → zlen k < 2 ^ 64 →
  returns (Sto.find k now touch s) (λ '(o, s'), ∃ bs' G' M',
    store_inv s' bs' G' M' ∧ same_config s s' ∧
    match live now k M with
    | Some r => let r' := if touch then rec_lru (u32 now) r else r in
                M' = <[k := r']> M ∧ ∃ a, o = Some a ∧ G' !! a = Some (k, r')
    | None => M' = delete k M ∧ o = None
    end).
Proof.
  intros HS Hk. unfold Sto.find. eapply returns_bind; [by apply (lookup_step _ _ _ _ _ now HS)|].
  intros [[a|] s'] (bs' & G' & HS' & Ho & (t' & Hs' & _) & _).
  - destruct Ho as (r & Hg & Hl & ->). rewrite Hl. destruct (live_some _ _ _ _ Hl) as (HMk & _ & Hr).
    rewrite Hr in HS'. destruct touch.
    + eapply returns_bind; [by apply (set_lru_step _ _ _ _ _ _ _ (u32 now) HS' Hg)|].
      intros s1 (HS1 & t1 & -> & _). cbn [returns]. eexists _, _, _. split; [exact HS1|]. split; [done|].
      split; [done|]. exists a. split; [done|]. by rewrite lookup_insert_eq.
    + cbn [rbind returns]. exists bs', G', M. split; [done|]. split; [done|].
      split; [by rewrite insert_id|]. by exists a.
  - cbn [returns]. rewrite Ho. exists bs', G', (reap now k M). split; [done|].
    split; [by eapply lookup_frame|]. split; [by apply reap_absent|done].
Qed.

(** ** erase *)

Lemma erase_step s bs G M k now :
  store_inv s bs G M → zlen k < 2 ^ 64 →
  returns (Sto.erase k now s) (λ '(b, s'), ∃ bs' G',
    store_inv s' bs' G' (delete k M) ∧ same_config s s' ∧ b = bool_decide (is_Some (live now k M))).
Proof.
  intros HS Hk. unfold Sto.erase. eapply returns_bind; [by apply (lookup_step _ _ _ _ _ now HS)|].
  intros [[a|] s'] (bs' & G' & HS' & Ho & (t' & Hs' & _) & _).
  - destruct Ho as (r & Hg & Hl & ->). destruct (live_some _ _ _ _ Hl) as (HMk & _ & Hr). rewrite Hr in HS'.
    eapply returns_bind; [by apply (remove_step _ _ _ _ _ _ _ HS' Hg)|].
    intros s1 (bs1 & HS1 & t1 & -> & _). cbn [returns]. eexists _, _. split; [exact HS1|]. split; [done|].
    rewrite bool_decide_true; [done|]. rewrite Hl. by eexists.
  - cbn [returns]. exists bs', G'. rewrite <-(reap_absent now k M) by done. split; [done|].
    split; [by eapply lookup_frame|]. rewrite Ho, bool_decide_false; [done|]. by intros [].
Qed.

(** ** setExpireAt and ttlMs *)

Lemma setExpireAt_step s bs G M k x now :
  store_inv s bs G M → zlen k < 2 ^ 64 → x ≠ kKeepTtl → x ≠ kNoExpiry →
  returns (Sto.setExpireAt k x now s) (λ '(b, s'), ∃ bs' G' M',
    store_inv s' bs' G' M' ∧ same_config s s' ∧
    match live now k M with
    | Some r => b = true ∧
                M' = if x <? now then delete k M else <[k := mkRec (a_value r) x (u32 now)]> M
    | None => b = false ∧ M' = delete k M
    end).
Proof.
  intros HS Hk Hx1 Hx2. unfold Sto.setExpireAt. eapply returns_bind; [by apply (lookup_step _ _ _ _ _ now HS)|].
  intros [[a|] s'] (bs' & G' & HS' & Ho & (t' & Hs' & _) & _).
  - destruct Ho as (r & Hg & Hl & ->). rewrite Hl. destruct (live_some _ _ _ _ Hl) as (HMk & _ & Hr). rewrite Hr in HS'.
    rewrite (proj2 (Z.eqb_neq x kKeepTtl)), (proj2 (Z.eqb_neq x kNoExpiry)) by done. cbn [negb].
    destruct (x <? now).
    + eapply returns_bind; [by apply (remove_step _ _ _ _ _ _ _ HS' Hg)|].
      intros s1 (bs1 & HS1 & t1 & -> & _). cbn [returns]. eexists _, _, _. by split; [exact HS1|].
    + eapply returns_bind; [by apply (set_lru_step _ _ _ _ _ _ _ (u32 now) HS' Hg)|].
      intros s1 (HS1 & t1 & -> & _).
      eapply returns_bind; [apply (set_expires_step _ _ _ _ a k _ x HS1 (lookup_insert_eq _ _ _))|].
      intros s2 (HS2 & t2 & -> & _). cbn [returns]. rewrite !insert_insert_eq in HS2.
      eexists _, _, _. by split; [exact HS2|].
  - cbn [returns]. rewrite Ho. eexists _, _, _. split; [exact HS'|]. split; [by eapply lookup_frame|].
    split; [done|]. by apply reap_absent.
Qed.

Lemma ttlMs_step s bs G M k now :
  store_inv s bs G M → zlen k < 2 ^ 64 → 0 ≤ now →
  (∀ r, live now k M = Some r → a_expires r ≤ INT64_MAX) →
  returns (Sto.ttlMs k now s) (λ '(d, s'), ∃ bs' G',
    store_inv s' bs' G' (reap now k M) ∧ same_config s s' ∧
    d = match live now k M with
        | Some r => if a_expires r =? kNoExpiry then -1 else a_expires r - now
        | None => -2
        end).
Proof.
  intros HS Hk Hnow Hmax. unfold Sto.ttlMs. eapply returns_bind; [by apply (lookup_step _ _ _ _ _ now HS)|].
  intros [[a|] s'] (bs' & G' & HS' & Ho & (t' & Hs' & _) & _).
  - destruct Ho as (r & Hg & Hl & ->). specialize (Hmax r Hl).
    destruct (live_some _ _ _ _ Hl) as (HMk & Hx & Hr). rewrite Hl.
    destruct (entry_of _ _ _ _ _ _ _ now HS' Hg) as (e & -> & (_ & _ & _ & _ & He & _) & _). cbn [rbind].
    rewrite He. unfold rec_expired in Hx. destruct (a_expires r =? kNoExpiry).
    + cbn [returns]. by exists bs', G'.
    + apply Z.ltb_ge in Hx. unfold int64_sub.
      rewrite (proj2 (Z.leb_le INT64_MIN _)), (proj2 (Z.leb_le _ INT64_MAX)) by (unfold INT64_MIN; lia).
      cbn. by exists bs', G'.
  - cbn [returns]. rewrite Ho. exists bs', G'. split; [done|]. split; [by eapply lookup_frame|done].
Qed.

(** ** set *)

(** The record a successful [set] leaves, and the map after a [set] that needs a
    slot, as the key cap and the policy decide. *)
Definition set_record (old : option arec) (v : bytes) (expireAtMs now : Z) : arec :=
  mkRec v (if expireAtMs =? kKeepTtl
           then match old with Some r => a_expires r | None => kNoExpiry end
           else expireAtMs) (u32 now).

Lemma assign_step s bs G M a k r v :
  store_inv s bs G M → G !! a = Some (k, r) → zlen k + zlen v < 2 ^ 32 →
  returns (Tbl.assign a v (table_ s)) (λ t',
    store_inv (with_table t' s) bs (<[a := (k, rec_value v r)]> G) (<[k := rec_value v r]> M)).
Proof.
  intros HS Ha Hlen. eapply returns_mono; [by apply (assign_spec _ _ _ _ _ _ _ (si_core _ _ _ _ HS) Ha)|].
  intros t' (HI & Hb & Hl & Hsd). pose proof HS as [HT HA Hls Hc Hsz Hcur].
  pose proof (abs_lookup _ _ _ _ _ HA Ha) as Hk.
  apply (store_inv_table s); [|by eapply abs_update|done|done|done|by rewrite (size_update M k r _ Hk)|].
  - split; [done|]. cbn. rewrite Hl, Hb. apply HT.
  - unfold Sto.bucketCount in *. cbn. by rewrite Hb.
Qed.

Lemma insert_step s bs G M k v :
  store_inv s bs G M → M !! k = None → zlen k + zlen v < 2 ^ 32 →
  Z.of_nat (base.size M) < maxKeys_ s →
  returns (Tbl.insert k v (table_ s)) (λ '(o, t'), ∃ a bs', o = Some a ∧
    store_inv (with_table t' s) bs' (<[a := (k, mkRec v kNoExpiry 0)]> G) (<[k := mkRec v kNoExpiry 0]> M)).
Proof.
  intros HS Hk Hlen Hroom. pose proof HS as [HT HA Hls Hc Hsz Hcur].
  assert (∀ a, ¬ has_key G k a) as Hno by (intros a [r Ha]; pose proof (abs_lookup _ _ _ _ _ HA Ha); congruence).
  pose proof (abs_size _ _ (si_ukeys _ _ _ _ HS) HA) as HGsz.
  eapply returns_mono; [by apply (insert_spec _ _ _ _ _ HT Hlen Hno)|]. intros [[a|] t'].
  - intros (Ha & _ & bs' & HT' & Hb & Hsd). exists a, bs'. split; [done|].
    apply (store_inv_table s); [done| |done|done|done| |].
    + apply abs_set; [done| |congruence]. intros b r' _ Hb'. apply (Hno b). by exists r'.
    + rewrite map_size_insert_None by done. lia.
    + unfold Sto.bucketCount in *. cbn. lia.
  - intros (Hfull & _). lia.
Qed.

(** Inserting a key that is absent, with room. *)
Lemma set_insert_step s bs G M k v x now :
  store_inv s bs G M → M !! k = None → zlen k + zlen v < 2 ^ 32 →
  Z.of_nat (base.size M) < maxKeys_ s →
  returns
    (let* (e, t) := Tbl.insert k v (table_ s) in
     let s := with_table t s in
     match e with
     | None => Fault FAssert
     | Some a =>
         let* s := Sto.upd a (set_expiresAtMs (if x =? kKeepTtl then kNoExpiry else x)) s in
         let* s := Sto.upd a (set_lruClock (u32 now)) s in
         Ok (true, s)
     end)
    (λ '(b, s'), b = true ∧ same_config s s' ∧ Rep s' (<[k := set_record None v x now]> M) ∧
       ∃ t', s' = with_table t' s).
Proof.
  intros HS Hk Hlen Hroom. eapply returns_bind; [by apply (insert_step _ _ _ _ _ _ HS Hk)|].
  intros [o t'] (a & bs' & -> & HS1). cbv zeta.
  eapply returns_bind; [apply (set_expires_step _ _ _ _ a k _ (if x =? kKeepTtl then kNoExpiry else x) HS1 (lookup_insert_eq _ _ _))|].
  intros s2 (HS2 & t2 & -> & _).
  eapply returns_bind; [apply (set_lru_step _ _ _ _ a k _ (u32 now) HS2 (lookup_insert_eq _ _ _))|].
  intros s3 (HS3 & t3 & -> & _). cbn [returns]. split; [done|]. split; [done|].
  rewrite !insert_insert_eq in HS3. split; [|by exists t3]. by eexists _, _.
Qed.

(** Overwriting in place. *)
Lemma set_assign_step s bs G M a k r v x now :
  store_inv s bs G M → G !! a = Some (k, r) → zlen k + zlen v < 2 ^ 32 →
  returns
    (let* t := Tbl.assign a v (table_ s) in
     let s := with_table t s in
     let* s := (if negb (kKeepTtl =? x) then Sto.upd a (set_expiresAtMs x) s else Ok s) in
     let* s := Sto.upd a (set_lruClock (u32 now)) s in
     Ok (true, s))
    (λ '(b, s'), b = true ∧ same_config s s' ∧ Rep s' (<[k := set_record (Some r) v x now]> M)).
Proof.
  intros HS Ha Hlen. eapply returns_bind; [by apply (assign_step _ _ _ _ _ _ _ _ HS Ha Hlen)|].
  intros t1 HS1. cbv zeta. unfold set_record. rewrite (Z.eqb_sym kKeepTtl x).
  destruct (x =? kKeepTtl); cbn [negb].
  - cbn [rbind]. eapply returns_bind; [apply (set_lru_step _ _ _ _ a k _ (u32 now) HS1 (lookup_insert_eq _ _ _))|].
    intros s3 (HS3 & t3 & -> & _). cbn [returns]. split; [done|]. split; [done|].
    rewrite !insert_insert_eq in HS3. by eexists _, _.
  - eapply returns_bind; [apply (set_expires_step _ _ _ _ a k _ x HS1 (lookup_insert_eq _ _ _))|].
    intros s2 (HS2 & t2 & -> & _).
    eapply returns_bind; [apply (set_lru_step _ _ _ _ a k _ (u32 now) HS2 (lookup_insert_eq _ _ _))|].
    intros s3 (HS3 & t3 & -> & _). cbn [returns]. split; [done|]. split; [done|].
    rewrite !insert_insert_eq in HS3. by eexists _, _.
Qed.

(** The outcome of a [set] of a key that is not live: [M1] is the map without it.
    At the cap either nothing is stored, or [evictOne] runs, from [s1] to [s2]. *)
Definition set_new (k v : bytes) (x now : Z) s (M1 : kvmap) (b : bool) s' (M' : kvmap) : Prop :=
  let r := set_record None v x now in
  if Z.of_nat (base.size M1) <? maxKeys_ s then b = true ∧ M' = <[k := r]> M1
  else match policy_ s with
       | kNoEviction => b = false ∧ M' = M1
       | kAllKeysLru => b = true ∧ ∃ s1 s2 M2, Sto.lookup k now s = Ok (None, s1) ∧ evicted now s1 s2 M1 M2 ∧
           same_config s s1 ∧ evictions_ s1 = evictions_ s ∧ evictions_ s' = evictions_ s2 ∧ M' = <[k := r]> M2
       end.

Definition past (x now : Z) : bool := negb (x =? kNoExpiry) && negb (x =? kKeepTtl) && (x <? now).

Definition set_effect (k v : bytes) (x now : Z) s M (b : bool) s' (M' : kvmap) : Prop :=
  if past x now then b = true ∧ M' = delete k M
  else match live now k M with
       | Some r => b = true ∧ M' = <[k := set_record (Some r) v x now]> M
       | None => set_new k v x now s (delete k M) b s' M'
       end.

Lemma set_step s bs G M k v x now :
  store_inv s bs G M → zlen k + zlen v < 2 ^ 32 →
  returns (Sto.set k v x now s) (λ '(b, s'), ∃ M',
    Rep s' M' ∧ same_config s s' ∧ set_effect k v x now s M b s' M').
Proof.
  intros HS Hlen. unfold Sto.set. pose proof (lookup_step _ _ _ _ k now HS ltac:(lia)) as HL.
  apply returns_inv in HL as ([o s1] & EL & bs1 & G1 & HS1 & Ho & (t1 & Hs1 & _) & _). rewrite EL. cbn [rbind].
  pose proof (lookup_frame _ _ _ Hs1) as Hcfg. unfold set_effect. fold (past x now). destruct (past x now).
  - destruct o as [a|].
    + destruct Ho as (r & Hg & Hl & ->). destruct (live_some _ _ _ _ Hl) as (_ & _ & Hr). rewrite Hr in HS1.
      eapply returns_bind; [by apply (remove_step _ _ _ _ _ _ _ HS1 Hg)|].
      intros s2 (bs2 & HS2 & t2 & -> & _). cbn [returns]. exists (delete k M). split; [by eexists _, _|]. done.
    + cbn [returns]. exists (delete k M). rewrite <-(reap_absent now k M) by done. split; [by eexists _, _|]. done.
  - destruct o as [a|].
    + destruct Ho as (r & Hg & Hl & ->). rewrite Hl. destruct (live_some _ _ _ _ Hl) as (_ & _ & Hr). rewrite Hr in HS1.
      eapply returns_mono; [by apply (set_assign_step _ _ _ _ _ _ _ _ x now HS1 Hg)|].
      intros [b s2] (-> & Hc & HR). eexists. by split; [exact HR|].
    + rewrite Ho. rewrite (reap_absent now k M) in HS1 by done.
      set (M1 := delete k M) in *. assert (M1 !! k = None) as Hk1 by apply lookup_delete_eq.
      unfold set_new. pose proof Hcfg as (Hmax & Hlru & Hpol). rewrite (si_count _ _ _ _ HS1), Hmax.
      pose proof (si_size _ _ _ _ HS1) as Hsz1. rewrite Hmax in Hsz1.
      destruct (Z.ltb_spec (Z.of_nat (base.size M1)) (maxKeys_ s)) as [Hroom|Hfull].
      * rewrite (proj2 (Z.leb_gt _ _)) by done. cbn [rbind].
        eapply returns_mono; [apply (set_insert_step _ _ _ _ _ _ x now HS1 Hk1 Hlen); by rewrite Hmax|].
        intros [b s2] (-> & Hc & HR & _). eexists. split; [exact HR|]. split; [|done].
        eapply same_config_trans; [exact Hcfg|exact Hc].
      * rewrite (proj2 (Z.leb_le _ _)) by done. rewrite Hpol. destruct (policy_ s) eqn:Epol.
        { cbn [rbind returns]. exists M1. split; [by eexists _, _|]. split; [exact Hcfg|done]. }
        rewrite rbind_assoc. pose proof (si_cap _ _ _ _ HS1) as Hcap1. rewrite Hmax in Hcap1.
        eapply returns_bind; [apply (evictOne_spec now _ _ _ _ HS1); lia|].
        intros s2 (bs2 & G2 & M2 & HS2 & (Hc2 & _) & Hsub & Hlt & Hev). cbn [rbind].
        assert (M2 !! k = None) as Hk2 by (by eapply lookup_weaken_None).
        assert (same_config s s2) as Hc12 by (eapply same_config_trans; [exact Hcfg|exact Hc2]).
        eapply returns_mono; [apply (set_insert_step _ _ _ _ _ _ x now HS2 Hk2 Hlen);
                              destruct Hc12 as (-> & _); lia|].
        intros [b s3] (-> & Hc3 & HR & t3 & Hs3). eexists. split; [exact HR|].
        split; [by eapply same_config_trans|]. split; [done|]. exists s1, s2, M2.
        split; [done|]. split; [done|]. split; [exact Hcfg|]. split; [by rewrite Hs1|]. split; [by rewrite Hs3|done].
Qed.

(** ** clear *)

Lemma clear_step s bs G M :
  store_inv s bs G M →
  returns (Sto.clear s) (λ s', Rep s' ∅ ∧ same_config s s' ∧
    Tbl.mem (table_ s') = ∅ ∧ Tbl.blocks (table_ s') = ∅ ∧ Sto.bucketCount s' = Sto.bucketCount s).
Proof.
  intros HS. unfold Sto.clear. eapply returns_bind; [apply (clear_spec _ _ _ (si_core _ _ _ _ HS))|].
  intros t' (HT & Hm & Hb & Hbc & Hsd). cbn [returns]. pose proof HS as [_ _ Hls Hc Hsz Hcur].
  split; [|done]. eexists _, _. apply (store_inv_table s); [exact HT|apply abs_empty|done|done|done| |].
  - rewrite map_size_empty. lia.
  - unfold Sto.bucketCount in *. cbn. rewrite Hbc. lia.
Qed.

End ops.
End StoOps.
