(* ===== verification/StoreCycle.v ===== *)
(** * The active expire cycle

    Positions: the cursor, read backwards, counts up from 0 to the bucket count,
    so a pass sweeps an interval of positions.  A call of [activeExpireCycle]
    removes exactly the expired keys of the interval it sweeps, and every call
    makes progress. *)

From Stdlib Require Import ZArith Lia Strings.Byte.
From stdpp Require Import base gmap numbers list.
From S2P Require Import Prelude Bits Hash Entry Table TableLinks TableData TableInv TableGrow.
From S2P Require Import TableAssign TableRemove TableWalk Store StoreInv StoreEvict StoreOps.

Local Open Scope Z_scope.

Module StoCycle.
Import Ent Tbl Data TblInv TblGrow TblAssign TblRemove TblWalk Sto StoInv StoEvict StoOps.

(** ** Sweeps *)

Section sweep.
Context (rp : bytes → Z) (now : Z).

(** [M] without the expired keys at positions [lo] to [hi]. *)
Definition swept (lo hi : Z) (M : kvmap) : kvmap :=
  filter (λ kr, ¬ (rec_expired now kr.2 = true ∧ lo ≤ rp kr.1 < hi)) M.

Lemma swept_lookup lo hi M k r :
  swept lo hi M !! k = Some r ↔ M !! k = Some r ∧ ¬ (rec_expired now r = true ∧ lo ≤ rp k < hi).
Proof. unfold swept. by rewrite map_lookup_filter_Some. Qed.

Lemma swept_empty lo M : swept lo lo M = M.
Proof.
  apply map_eq. intros k. apply option_eq. intros r. rewrite swept_lookup. split; [by intros [? _]|].
  intros. split; [done|]. lia.
Qed.

Lemma swept_app lo mid hi M : lo ≤ mid ≤ hi → swept mid hi (swept lo mid M) = swept lo hi M.
Proof.
  intros Hm. apply map_eq. intros k. apply option_eq. intros r. rewrite !swept_lookup. split.
  - intros [[Hk H1] H2]. split; [done|]. intros [He Hr].
    destruct (Z.lt_ge_cases (rp k) mid); [apply H1|apply H2]; (split; [done|lia]).
  - intros [Hk H]. split; [split; [done|]|]; intros [He Hr]; apply H; (split; [done|lia]).
Qed.

Lemma swept_subseteq lo hi M : swept lo hi M ⊆ M.
Proof. apply map_filter_subseteq. Qed.

Lemma swept_size lo hi M : (base.size (swept lo hi M) ≤ base.size M)%nat.
Proof. apply map_subseteq_size, swept_subseteq. Qed.

Lemma swept_only_expired lo hi M : only_expired now M (swept lo hi M).
Proof.
  split; [apply swept_subseteq|]. intros k r Hk Hn.
  destruct (rec_expired now r) eqn:E; [done|]. assert (swept lo hi M !! k = Some r); [|congruence].
  apply swept_lookup. split; [done|]. rewrite E. by intros [].
Qed.

End sweep.

Section cycle.
Context {P : Type} `{!PoolAllocator P}.
Implicit Types (s : Store P) (M : kvmap) (G : contents).

(** The bucket of a key, and its position in the sweep of [2 ^ n] buckets. *)
Definition key_bucket (t : Table P) (k : bytes) : Z := bucketOf t (u32 (key_hash k (hashSeed_ t))).

(** ** One bucket *)

(** The contents once the entries [vis] were visited. *)
Definition cleaned (now : Z) (vis : list addr) (G0 : contents) : contents :=
  filter (λ x, ¬ (rec_expired now x.2.2 = true ∧ x.1 ∈ vis)) G0.

Lemma cleaned_lookup now vis G0 a k r :
  cleaned now vis G0 !! a = Some (k, r) ↔ G0 !! a = Some (k, r) ∧ ¬ (rec_expired now r = true ∧ a ∈ vis).
Proof. unfold cleaned. by rewrite map_lookup_filter_Some. Qed.

Lemma cleaned_nil now G0 : cleaned now [] G0 = G0.
Proof. apply map_filter_id. intros a x _ [_ H]. by apply not_elem_of_nil in H. Qed.

Lemma cleaned_keep now vis G0 a k r :
  G0 !! a = Some (k, r) → rec_expired now r = false → cleaned now (vis ++ [a]) G0 = cleaned now vis G0.
Proof.
  intros Ha Hr. apply map_filter_ext. intros b [kb rb] Hb. cbn. rewrite elem_of_app, list_elem_of_singleton.
  split; intros Hn [He Hin]; apply Hn; (split; [done|]); [by left|].
  destruct Hin as [| ->]; [done|]. congruence.
Qed.

Lemma cleaned_delete now vis G0 a k r :
  G0 !! a = Some (k, r) → rec_expired now r = true → cleaned now (vis ++ [a]) G0 = delete a (cleaned now vis G0).
Proof.
  intros Ha Hr. apply map_eq. intros b. apply option_eq. intros [kb rb].
  rewrite lookup_delete_Some, !cleaned_lookup, elem_of_app, list_elem_of_singleton. split.
  - intros [Hb Hn]. split; [|split; [done|]].
    + intros <-. apply Hn. split; [congruence|by right].
    + intros [He Hin]. apply Hn. split; [done|by left].
  - intros (Hab & Hb & Hn). split; [done|]. intros [He [Hin| ->]]; [by apply Hn|done].
Qed.

Section bucket.
Context (now : Z) (p0 : Pass P) (G0 : contents).

(** What the visitor has done after [vis]. *)
Record visited (vis : list addr) (p : Pass P) (G : contents) : Prop := {
  vs_cont : G = cleaned now vis G0;
  vs_nodup : NoDup vis;
  vs_in a : a ∈ vis → is_Some (G0 !! a);
  vs_sampled : sampled p = sampled p0 + zlen vis;
  vs_expired : expired_ p = expired_ p0 + Z.of_nat (base.size G0) - Z.of_nat (base.size G);
  vs_store : ∃ t', pass_store p = with_table t' (pass_store p0);
}.

Hypothesis Hs0 : 0 ≤ sampled p0 < 2 ^ 63.
Hypothesis He0 : 0 ≤ expired_ p0 < 2 ^ 63.
Hypothesis Hcap : Z.of_nat (base.size G0) ≤ kPoolCapacity.

Lemma visitor_spec vis a p bs G :
  visited vis p G → core_inv (table_ (pass_store p)) bs G → is_Some (G !! a) → a ∉ vis →
  returns (expireVisitor now a p) (λ p',
    table_ (pass_store p') = table_ (pass_store p) ∧ visited (vis ++ [a]) p' G ∨
    Tbl.remove a (table_ (pass_store p)) = Ok (table_ (pass_store p')) ∧ visited (vis ++ [a]) p' (delete a G)).
Proof.
  intros [Hv1 Hv2 Hv3 Hv4 Hv5 (t0 & Hv6)] HI [[k r] Hg] Ha.
  pose proof Hg as Hg0. rewrite Hv1 in Hg0. apply cleaned_lookup in Hg0 as [Hg0 _].
  assert (NoDup (vis ++ [a])) as Hnd.
  { apply NoDup_app. split; [done|]. split; [|apply NoDup_singleton].
    intros b Hb ->%list_elem_of_singleton. done. }
  assert (∀ b, b ∈ vis ++ [a] → is_Some (G0 !! b)) as Hin.
  { intros b [Hb| ->%list_elem_of_singleton]%elem_of_app; [by apply Hv3|by eexists]. }
  assert (length (vis ++ [a]) ≤ base.size G0)%nat as Hlen.
  { rewrite <-(size_dom (D := gset addr) G0), <-(size_list_to_set (C := gset addr) (vis ++ [a])) by done.
    apply subseteq_size. intros b Hb. apply elem_of_dom, Hin. by apply elem_of_list_to_set in Hb. }
  assert (kPoolCapacity = 2 ^ 18) as HcapE by done.
  rewrite length_app in Hlen. cbn [length] in Hlen.
  assert (u64 (sampled p + 1) = sampled p0 + zlen (vis ++ [a])) as Hs1.
  { rewrite Hv4, length_app. cbn [length]. rewrite u64_small; lia. }
  assert (zlen (vis ++ [a]) = zlen vis + 1) as Hl1 by (rewrite length_app; cbn [length]; lia).
  unfold expireVisitor.
  destruct (core_entry_at _ _ _ _ _ _ HI Hg) as (e & -> & Hrep). cbn [rbind].
  rewrite (rep_expired _ _ _ _ _ Hrep). fold (rec_expired now r).
  destruct (rec_expired now r) eqn:Er.
  - destruct (remove_spec _ _ _ _ _ _ HI Hg) as (t' & i & l1 & l2 & E & _).
    unfold Sto.remove. rewrite E. cbn [rbind returns pass_store table_ with_table]. right. split; [done|].
    assert (base.size (delete a G) = pred (base.size G)) as Hd by (apply map_size_delete_Some; by eexists).
    assert (base.size G ≠ 0)%nat as Hnz by (apply map_size_ne_0_lookup; eauto).
    assert (base.size G ≤ base.size G0)%nat as Hle by (rewrite Hv1; apply map_subseteq_size, map_filter_subseteq).
    split.
    + by rewrite (cleaned_delete now vis G0 a k r Hg0 Er), <-Hv1.
    + done.
    + done.
    + done.
    + cbn [expired_]. rewrite Hd, u64_small; lia.
    + exists t'. cbn [pass_store]. rewrite Hv6. done.
  - cbn [returns pass_store]. left. split; [done|]. split.
    + by rewrite (cleaned_keep now vis G0 a k r Hg0 Er).
    + done.
    + done.
    + done.
    + done.
    + by exists t0.
Qed.

End bucket.

(** The position of a key in a sweep of [2 ^ n] buckets. *)
Definition key_pos (n : nat) (t : Table P) (k : bytes) : Z := bitrev n (key_bucket t k).

Lemma key_bucket_range t bs G k : core_inv t bs G → 0 ≤ key_bucket t k < Tbl.bucketCount t.
Proof.
  intros HI. unfold key_bucket. rewrite (core_bucketOf _ _ _ _ HI). eapply core_land; [done|]. apply u32_nonneg.
Qed.

Lemma key_bucket_eq t t' k :
  Tbl.bucketCount t' = Tbl.bucketCount t → hashSeed_ t' = hashSeed_ t → key_bucket t' k = key_bucket t k.
Proof. intros H1 H2. unfold key_bucket, bucketOf. by rewrite H1, H2. Qed.

(** Cleaning the entries of one bucket sweeps one position. *)
Lemma cleaned_abs n t bs G M now c l :
  core_inv t bs G → abs G M → Tbl.bucketCount t = 2 ^ Z.of_nat n → 0 ≤ c < 2 ^ Z.of_nat n →
  bs !! Z.to_nat c = Some l →
  abs (cleaned now l G) (swept (key_pos n t) now (bitrev n c) (bitrev n c + 1) M).
Proof.
  intros HI HA Hn Hc Hl k r. rewrite swept_lookup, (HA k r).
  pose proof (key_bucket_range _ _ _ k HI) as Hkb. rewrite Hn in Hkb.
  assert (∀ a, G !! a = Some (k, r) → a ∈ l ↔ bitrev n c ≤ key_pos n t k < bitrev n c + 1) as Hiff.
  { intros a Ha. rewrite (core_bucket_elem _ _ _ _ _ _ _ _ HI Hl Ha). fold (key_bucket t k).
    rewrite Z2Nat.id by lia. unfold key_pos. split; [intros ->; lia|]. intros Hr.
    apply (bitrev_inj n); [lia|lia|lia]. }
  split.
  - intros [(a & Ha) Hnot]. exists a. apply cleaned_lookup. split; [exact Ha|].
    intros [He Hin]. apply Hnot. split; [exact He|]. exact (proj1 (Hiff a Ha) Hin).
  - intros (a & Ha'). apply cleaned_lookup in Ha' as [Ha Hnot]. split; [by exists a|].
    intros [He Hin]. apply Hnot. split; [exact He|]. exact (proj2 (Hiff a Ha) Hin).
Qed.

Lemma bucket_step n now p bs G M :
  store_inv (pass_store p) bs G M → Sto.bucketCount (pass_store p) = 2 ^ Z.of_nat n → (n ≤ 59)%nat →
  0 ≤ sampled p < 2 ^ 63 → 0 ≤ expired_ p < 2 ^ 63 →
  let c := expireCursor_ (pass_store p) in
  let M' := swept (key_pos n (table_ (pass_store p))) now (bitrev n c) (bitrev n c + 1) M in
  returns (Tbl.scanBucket (λ p, table_ (pass_store p)) (expireVisitor now) c p) (λ '(c', p'),
    c' = nextCursor c (2 ^ Z.of_nat n - 1) ∧
    (∃ bs' G', store_inv (with_cursor c' (pass_store p')) bs' G' M') ∧
    sampled p ≤ sampled p' ≤ sampled p + kPoolCapacity ∧
    expired_ p' = expired_ p + Z.of_nat (base.size M) - Z.of_nat (base.size M') ∧
    ∃ t', pass_store p' = with_table t' (pass_store p) ∧
          Tbl.bucketCount t' = 2 ^ Z.of_nat n ∧ hashSeed_ t' = hashSeed_ (table_ (pass_store p))).
Proof.
  intros HS Hb Hn Hs0 He0 c M'. pose proof (si_core _ _ _ _ HS) as HI.
  assert (Tbl.bucketCount (table_ (pass_store p)) = 2 ^ Z.of_nat n) as Hbt by exact Hb.
  pose proof (si_cursor _ _ _ _ HS) as Hc. fold c in Hc. rewrite Hb in Hc.
  assert (Z.of_nat (base.size G) ≤ kPoolCapacity) as Hcap.
  { rewrite (contents_size _ _ _ HI). apply HI. }
  eapply returns_mono.
  { apply (scanBucket_spec (λ p, table_ (pass_store p)) (expireVisitor now) (visited now p G)
             (visitor_spec now p G Hs0 He0 Hcap) c p bs G HI); [lia|].
    split; [by rewrite cleaned_nil|constructor|by intros a ?%not_elem_of_nil|cbn; lia|cbn; lia|].
    exists (table_ (pass_store p)). by destruct (pass_store p). }
  intros [c' p'] (-> & Hb' & Hsd' & l & bs' & G' & Hl & HI' & [Hv1 Hv2 Hv3 Hv4 Hv5 (t' & Hv6)]).
  rewrite Hbt in *. rewrite land_mask, Z.mod_small in Hl by done.
  pose proof (cleaned_abs n _ _ _ _ now c l HI (si_abs _ _ _ _ HS) Hbt Hc Hl) as HA'. rewrite <-Hv1 in HA'. fold M' in HA'.
  assert (table_ (pass_store p') = t') as Ht' by (by rewrite Hv6).
  pose proof HS as [HT HA Hls Hcp Hsz _].
  pose proof (abs_size _ _ (si_ukeys _ _ _ _ HS) HA) as Hsz0.
  assert (ukeys G') as HU' by exact (do_keys _ _ _ _ (ti_data _ _ _ HI')).
  pose proof (abs_size _ _ HU' HA') as Hsz1.
  split; [done|]. split; [|split; [|split; [by rewrite Hv5, Hsz1, Hsz0|]]].
  - exists bs', G'. apply (store_inv_table (pass_store p)); [|done|by rewrite Hv6|done|done| |].
    + split; [done|]. cbn. rewrite (ti_live _ _ _ HI'), <-(contents_size _ _ _ HI'), <-Hsz1, Hb'.
      pose proof (ti_load _ _ _ HT) as Hload. rewrite Hbt, (ti_live _ _ _ HI), <-(contents_size _ _ _ HI), <-Hsz0 in Hload.
      pose proof (swept_size (key_pos n (table_ (pass_store p))) now (bitrev n c) (bitrev n c + 1) M). subst M'. lia.
    + pose proof (swept_size (key_pos n (table_ (pass_store p))) now (bitrev n c) (bitrev n c + 1) M). subst M'. lia.
    + unfold Sto.bucketCount. cbn. rewrite Hb'. apply nextCursor_range; [lia|done].
  - rewrite Hv4.
    assert (length l ≤ base.size G)%nat as Hlen.
    { rewrite (contents_size _ _ _ HI). eapply bound_by_mem; [done|done|]. intros a Ha. by eapply elem_of_bucket. }
    lia.
  - exists t'. split; [done|]. rewrite <-Ht'. done.
Qed.

Lemma swept_ext rp rp' now lo hi M : (∀ k, rp k = rp' k) → swept rp now lo hi M = swept rp' now lo hi M.
Proof.
  intros Hrp. apply map_eq. intros k. apply option_eq. intros r. by rewrite !swept_lookup, Hrp.
Qed.

(** ** A pass *)

(** What a pass keeps of the store: all but the table and the cursor. *)
Definition pass_frame s s' : Prop := ∃ t' c', s' = with_cursor c' (with_table t' s).

Lemma pass_frame_trans s1 s2 s3 : pass_frame s1 s2 → pass_frame s2 s3 → pass_frame s1 s3.
Proof. intros (t1 & c1 & ->) (t2 & c2 & ->). by exists t2, c2. Qed.

Lemma pass_frame_config s s' : pass_frame s s' → same_config s s'.
Proof. by intros (t' & c' & ->). Qed.

Section pass.
Context (n : nat) (rp : bytes → Z) (now limit maxB : Z).
Hypothesis Hn : (n ≤ 59)%nat.
Hypothesis Hlimit : 0 ≤ limit ≤ 2 ^ 62.
Hypothesis HmaxB : 0 ≤ maxB < 2 ^ 64.

(** The store mid-sweep: its map, its geometry. *)
Record sweeping s bs G M : Prop := {
  sw_inv : store_inv s bs G M;
  sw_buckets : Sto.bucketCount s = 2 ^ Z.of_nat n;
  sw_pos k : key_pos n (table_ s) k = rp k;
}.

Abbreviation pos s := (bitrev n (expireCursor_ s)).

Lemma sweep_bucket p bs G M :
  sweeping (pass_store p) bs G M → 0 ≤ sampled p < 2 ^ 63 → 0 ≤ expired_ p < 2 ^ 63 →
  let M' := swept rp now (pos (pass_store p)) (pos (pass_store p) + 1) M in
  returns (Tbl.scanBucket (λ p, table_ (pass_store p)) (expireVisitor now) (expireCursor_ (pass_store p)) p)
    (λ '(c', p'), ∃ bs' G',
      let s' := with_cursor c' (pass_store p') in
      sweeping s' bs' G' M' ∧ pass_frame (pass_store p) s' ∧
      sampled p ≤ sampled p' ≤ sampled p + kPoolCapacity ∧
      expired_ p' = expired_ p + Z.of_nat (base.size M) - Z.of_nat (base.size M') ∧
      (c' = 0 ∧ pos (pass_store p) + 1 = 2 ^ Z.of_nat n ∨
       c' ≠ 0 ∧ pos s' = pos (pass_store p) + 1 ∧ pos (pass_store p) + 1 < 2 ^ Z.of_nat n)).
Proof.
  intros [HS Hb Hpos] Hs0 He0 M'.
  eapply returns_mono; [apply (bucket_step n now p bs G M HS Hb Hn Hs0 He0)|].
  intros [c' p'] (Hc' & (bs' & G' & HS') & Hsm & Hex & t' & Hst & Hb' & Hsd).
  rewrite (swept_ext _ rp _ _ _ _ Hpos) in HS', Hex. fold M' in HS', Hex.
  exists bs', G'. cbv zeta. split; [|split; [|split; [done|split; [done|]]]].
  - split; [done| |].
    + unfold Sto.bucketCount. cbn. by rewrite Hst.
    + intros k. rewrite <-Hpos. unfold key_pos. f_equal. apply key_bucket_eq; cbn; rewrite Hst; cbn; [|done].
      rewrite Hb'. symmetry. exact Hb.
  - exists t', c'. by rewrite Hst.
  - pose proof (si_cursor _ _ _ _ HS) as Hc. rewrite Hb in Hc. subst c'. cbn [expireCursor_ with_cursor].
    destruct (nextCursor_rev n (expireCursor_ (pass_store p)) ltac:(lia) Hc) as [[H1 H2]|(H1 & H2 & H3)];
      [left; done|right; done].
Qed.

(** The end of a pass that started at position [q] with map [M]. *)
Record pass_end (p : Pass P) (buckets : Z) M (wrapped : bool) (p' : Pass P) (q' : Z) : Prop := {
  pe_range : pos (pass_store p) ≤ q' ≤ 2 ^ Z.of_nat n;
  pe_inv : ∃ bs' G', sweeping (pass_store p') bs' G' (swept rp now (pos (pass_store p)) q' M);
  pe_frame : pass_frame (pass_store p) (pass_store p');
  pe_sampled : sampled p ≤ sampled p' ≤ Z.max (sampled p) (limit + kPoolCapacity);
  pe_expired : expired_ p' = expired_ p + Z.of_nat (base.size M) -
                 Z.of_nat (base.size (swept rp now (pos (pass_store p)) q' M));
  pe_progress : sampled p < limit → buckets < maxB → pos (pass_store p) < q';
  pe_cursor : if wrapped then q' = 2 ^ Z.of_nat n ∧ expireCursor_ (pass_store p') = 0
              else pos (pass_store p') = q' ∧ q' < 2 ^ Z.of_nat n ∧
                   (limit ≤ sampled p' ∨ maxB ≤ buckets + (q' - pos (pass_store p)));
}.

Lemma pass_stop buckets p bs G M :
  sweeping (pass_store p) bs G M → limit ≤ sampled p ∨ maxB ≤ buckets →
  pass_end p buckets M false p (pos (pass_store p)).
Proof.
  intros HW Hstop. pose proof (bitrev_range n (expireCursor_ (pass_store p))) as Hpr.
  split; rewrite ?swept_empty.
  - lia.
  - by exists bs, G.
  - exists (table_ (pass_store p)), (expireCursor_ (pass_store p)). by destruct (pass_store p).
  - lia.
  - lia.
  - lia.
  - split; [done|]. split; [lia|]. lia.
Qed.

Lemma pass_loop_spec fuel buckets p bs G M :
  sweeping (pass_store p) bs G M → 0 ≤ sampled p →
  0 ≤ expired_ p → expired_ p + Z.of_nat (base.size M) ≤ kPoolCapacity → 0 ≤ buckets →
  2 ^ Z.of_nat n - pos (pass_store p) < Z.of_nat fuel →
  returns (pass_loop fuel now limit maxB buckets p) (λ '(w, p'), ∃ q', pass_end p buckets M w p' q').
Proof.
  revert buckets p bs G M. induction fuel as [|fuel IH]; intros buckets p bs G M HW Hs0 He0 Hsz Hbk Hf.
  { pose proof (bitrev_range n (expireCursor_ (pass_store p))). lia. }
  assert (kPoolCapacity = 2 ^ 18) as HcapE by done.
  pose proof (bitrev_range n (expireCursor_ (pass_store p))) as Hpr. cbn [pass_loop].
  destruct (Z.ltb_spec (sampled p) limit) as [Hlt|Hge], (Z.ltb_spec buckets maxB) as [Hlb|Hgb]; cbn [andb].
  1: {
    eapply returns_bind; [apply (sweep_bucket p bs G M HW); lia|].
    intros [c' p1] (bs1 & G1 & HW1 & Hfr & Hsm & Hex & Hcur). cbn [pass_store sampled expired_].
    set (q := pos (pass_store p)) in *. set (M1 := swept rp now q (q + 1) M) in *.
    pose proof (swept_size rp now q (q + 1) M) as Hsz1. fold M1 in Hsz1.
    destruct Hcur as [[-> Hq]|(Hc' & Hq & Hqn)].
    - rewrite Z.eqb_refl. cbn [returns]. exists (q + 1). split; cbn [pass_store sampled expired_].
      + fold q. lia.
      + by exists bs1, G1.
      + done.
      + lia.
      + fold q M1. lia.
      + fold q. lia.
      + done.
    - rewrite (proj2 (Z.eqb_neq _ _)) by done.
      eapply returns_mono; [apply (IH _ (mkPass (sampled p1) (expired_ p1) (with_cursor c' (pass_store p1))) bs1 G1 M1 HW1)|];
        cbn [pass_store sampled expired_]; try lia.
      { rewrite u64_small by lia. lia. }
      intros [w p2] (q2 & [H1 H2 H3 H4 H5 H6 H7]). cbn [pass_store sampled expired_] in *.
      rewrite Hq in *. rewrite u64_small in H7 by lia.
      assert (swept rp now (q + 1) q2 M1 = swept rp now q q2 M) as Hsw by (apply swept_app; lia).
      rewrite Hsw in *. exists q2. split.
      + fold q. lia.
      + done.
      + by eapply pass_frame_trans.
      + lia.
      + fold q. lia.
      + fold q. lia.
      + fold q. destruct w; [done|]. destruct H7 as (H7a & H7b & H7c). split; [done|]. split; [done|]. lia. }
  all: cbn [returns]; exists (pos (pass_store p)); eapply pass_stop; [exact HW|lia].
Qed.

(** ** A call *)

(** The end of a call that started on [s] with map [M]: it swept up to [q']. *)
Record cycle_end s M (reaped0 passes0 : Z) (todo : nat) (res : ExpireCycleResult) s' (q' : Z) : Prop := {
  ce_range : pos s ≤ q' ≤ 2 ^ Z.of_nat n;
  ce_inv : ∃ bs' G', sweeping s' bs' G' (swept rp now (pos s) q' M);
  ce_config : same_config s s' ∧ evictions_ s' = evictions_ s ∧ rngState_ s' = rngState_ s;
  ce_reaped : reaped res = reaped0 + Z.of_nat (base.size M) -
                Z.of_nat (base.size (swept rp now (pos s) q' M));
  ce_passes : passes0 + Z.min 1 (Z.of_nat todo) ≤ passes res ≤ passes0 + Z.of_nat todo;
  ce_counter : 0 ≤ expiredKeys_ s < 2 ^ 64 →
    expiredKeys_ s' = u64 (expiredKeys_ s + (Z.of_nat (base.size M) -
                             Z.of_nat (base.size (swept rp now (pos s) q' M))));
  ce_progress : (0 < todo)%nat → 0 < limit → 0 < maxB → pos s < q';
  ce_cursor : q' = 2 ^ Z.of_nat n ∧ expireCursor_ s' = 0 ∨ q' < 2 ^ Z.of_nat n ∧ pos s' = q';
}.

Lemma count_sweeping k s bs G M : sweeping s bs G M → sweeping (count_expired k s) bs G M.
Proof. intros [H1 H2 H3]. split; [by apply count_expired_inv|done|done]. Qed.

Lemma u64_idem_add x y : u64 (u64 x + y) = u64 (x + y).
Proof. unfold u64. by rewrite Z.add_mod_idemp_l by lia. Qed.

Lemma cycle_loop_spec todo reaped0 passes0 s bs G M :
  sweeping s bs G M → 0 ≤ reaped0 → reaped0 + Z.of_nat (base.size M) ≤ kPoolCapacity →
  returns (cycle_loop todo now limit maxB reaped0 passes0 s) (λ '(res, s'), ∃ q',
    cycle_end s M reaped0 passes0 todo res s' q').
Proof.
  revert reaped0 passes0 s bs G M. induction todo as [|todo IH]; intros reaped0 passes0 s bs G M HW Hr0 Hcap;
    cbn [cycle_loop]; pose proof (bitrev_range n (expireCursor_ s)) as Hpr.
  { cbn [returns]. exists (pos s). split; rewrite ?swept_empty.
    - lia.
    - by exists bs, G.
    - done.
    - cbn. lia.
    - cbn. lia.
    - intros Hx. rewrite Z.sub_diag, Z.add_0_r. symmetry. by apply u64_small.
    - lia.
    - right. split; [lia|done]. }
  assert (kPoolCapacity = 2 ^ 18) as HcapE by done.
  eapply returns_bind.
  { apply (pass_loop_spec _ 0 (mkPass 0 0 s) bs G M HW); cbn [sampled expired_ pass_store]; try lia.
    rewrite (sw_buckets _ _ _ _ HW). lia. }
  intros [w p] (q & [H1 (bs1 & G1 & H2) H3 H4 H5 H6 H7]). cbn [sampled expired_ pass_store] in *.
  set (M1 := swept rp now (pos s) q M) in *.
  pose proof (swept_size rp now (pos s) q M) as Hsz. fold M1 in Hsz.
  assert (u64 (reaped0 + expired_ p) = reaped0 + expired_ p) as -> by (apply u64_small; lia).
  assert (expired_ p = Z.of_nat (base.size M) - Z.of_nat (base.size M1)) as Hexp by lia.
  pose proof H3 as (t1 & c1 & Hst). pose proof (pass_frame_config _ _ H3) as Hcfg.
  assert (expiredKeys_ (pass_store p) = expiredKeys_ s) as Hek by (by rewrite Hst).
  destruct (w || (u64 (expired_ p * 10) <=? sampled p)) eqn:Eb.
  - cbn [returns]. exists q. split; fold M1.
    + lia.
    + exists bs1, G1. by apply count_sweeping.
    + by rewrite Hst.
    + cbn. lia.
    + cbn. lia.
    + intros _. cbn. by rewrite Hek, Hexp.
    + intros _ Hl Hm. apply H6; done.
    + destruct w; [left; exact H7|right]. destruct H7 as (H7a & H7b & _). done.
  - apply orb_false_iff in Eb as [-> _]. destruct H7 as (Hpos & Hq & _).
    set (s1 := count_expired (expired_ p) (pass_store p)).
    assert (sweeping s1 bs1 G1 M1) as HW1 by (by apply count_sweeping).
    assert (pos s1 = q) as Hp1 by exact Hpos.
    eapply returns_mono; [apply (IH (reaped0 + expired_ p) (passes0 + 1) s1 bs1 G1 M1 HW1); lia|].
    intros [res s'] (q' & [C1 C2 C3 C4 C5 C6 C7 C8]). rewrite Hp1 in *.
    assert (swept rp now q q' M1 = swept rp now (pos s) q' M) as Hsw by (apply swept_app; lia).
    rewrite Hsw in *. exists q'. split.
    + lia.
    + done.
    + destruct C3 as (C3a & C3b & C3c). split; [eapply same_config_trans; [exact Hcfg|exact C3a]|].
      rewrite C3b, C3c. subst s1. cbn. by rewrite Hst.
    + lia.
    + lia.
    + intros Hx. rewrite C6 by (subst s1; cbn; rewrite Hek; apply u64_range). subst s1. cbn.
      rewrite u64_idem_add, Hek, Hexp. f_equal. lia.
    + intros _ Hl Hm. assert (pos s < q); [by apply H6|lia].
    + done.
Qed.

End pass.

(** Every store is at some point of a sweep. *)
Lemma inv_sweeping s bs G M :
  store_inv s bs G M → ∃ n, (n ≤ 59)%nat ∧ sweeping n (key_pos n (table_ s)) s bs G M.
Proof.
  intros HS. destruct (ti_pow _ _ _ (si_core _ _ _ _ HS)) as (n & Hn & Hb). exists n. split; [lia|]. by split.
Qed.

Lemma activeExpireCycle_step n rp now limit s bs G M :
  (n ≤ 59)%nat → sweeping n rp s bs G M → 1 ≤ limit ≤ 2 ^ 58 →
  returns (activeExpireCycle now limit s) (λ '(res, s'), ∃ q',
    cycle_end n rp now limit (limit * 20) s M 0 0 16 res s' q').
Proof.
  intros Hn HW Hl. unfold activeExpireCycle. rewrite u64_small by lia. change (Z.to_nat kMaxPasses) with 16%nat.
  eapply (cycle_loop_spec n rp now limit (limit * 20) Hn); [lia|lia|exact HW|lia|].
  pose proof (sw_inv _ _ _ _ _ _ HW) as HS. pose proof (si_size _ _ _ _ HS). pose proof (si_cap _ _ _ _ HS). lia.
Qed.

(** ** Repeated calls *)

(** Calls of the cycle, as successive ticks make them. *)
Fixpoint cycles (times : list Z) (limit : Z) s : result (Store P) :=
  match times with
  | [] => Ok s
  | now :: times => let* (_, s) := activeExpireCycle now limit s in cycles times limit s
  end.

(** No expired key at the positions from [lo] to [hi]. *)
Definition clean (rp : bytes → Z) (now lo hi : Z) M : Prop :=
  ∀ k r, M !! k = Some r → lo ≤ rp k < hi → rec_expired now r = false.

Lemma clean_subseteq rp now lo hi M M' : M' ⊆ M → clean rp now lo hi M → clean rp now lo hi M'.
Proof. intros Hsub Hc k r Hk. apply Hc. by eapply lookup_weaken. Qed.

Lemma clean_swept rp now lo hi M : clean rp now lo hi (swept rp now lo hi M).
Proof.
  intros k r [Hk Hn]%swept_lookup Hr. destruct (rec_expired now r); [|done]. by destruct Hn.
Qed.

Lemma clean_extend rp now t lo mid hi M :
  now ≤ t → clean rp now lo mid M → clean rp now lo hi (swept rp t mid hi M).
Proof.
  intros Ht Hc k r Hk Hr. destruct (Z.lt_ge_cases (rp k) mid) as [Hlt|Hge].
  - apply swept_lookup in Hk as [Hk _]. apply (Hc k r Hk). lia.
  - pose proof (clean_swept rp t mid hi M k r Hk ltac:(lia)) as Hn.
    destruct (rec_expired now r) eqn:E; [|done]. by rewrite (rec_expired_mono _ _ _ Ht E) in Hn.
Qed.

Lemma only_expired_trans now M1 M2 M3 : only_expired now M1 M2 → only_expired now M2 M3 → only_expired now M1 M3.
Proof.
  intros [H1 H2] [H3 H4]. split; [by etrans|]. intros k r Hk Hn.
  destruct (M2 !! k) as [r'|] eqn:E; [|by eapply H2]. apply (H4 k r); [|done].
  pose proof (lookup_weaken _ _ _ _ E H1). congruence.
Qed.

(** How far [j] calls from position [q0] have come at least. *)
Definition progress rp now (n : nat) (q0 j : Z) s M : Prop :=
  clean rp now 0 (2 ^ Z.of_nat n) M ∨
  (clean rp now q0 (bitrev n (expireCursor_ s)) M ∧ q0 + j ≤ bitrev n (expireCursor_ s)) ∨
  (clean rp now q0 (2 ^ Z.of_nat n) M ∧ clean rp now 0 (bitrev n (expireCursor_ s)) M ∧
   q0 + j ≤ 2 ^ Z.of_nat n + bitrev n (expireCursor_ s)).

Lemma progress_step n rp now t limit s M res s' q' q0 j :
  cycle_end n rp t limit (limit * 20) s M 0 0 16 res s' q' → 1 ≤ limit → 0 ≤ q0 → now ≤ t →
  progress rp now n q0 j s M →
  progress rp now n q0 (j + 1) s' (swept rp t (bitrev n (expireCursor_ s)) q' M).
Proof.
  intros [C1 C2 C3 C4 C5 C6 C7 C8] Hl Hq0 Ht HP. specialize (C7 ltac:(lia) ltac:(lia) ltac:(lia)).
  set (q := bitrev n (expireCursor_ s)) in *.
  pose proof (swept_subseteq rp t q q' M) as Hsub.
  assert (bitrev n 0 = 0) as Hb0 by apply bitrev_0.
  destruct HP as [Hall|[[Hc Hj]|(Hc1 & Hc2 & Hj)]].
  - left. by eapply clean_subseteq.
  - pose proof (clean_extend rp now t q0 q q' M Ht Hc) as Hx.
    destruct C8 as [[-> Hcur]|[Hlt <-]].
    + right. right. rewrite Hcur, Hb0. split; [done|]. split; [intros k r _ ?; lia|]. lia.
    + right. left. split; [done|lia].
  - pose proof (clean_extend rp now t 0 q q' M Ht Hc2) as Hx.
    destruct C8 as [[-> Hcur]|[Hlt <-]].
    + by left.
    + right. right. split; [by eapply clean_subseteq|]. split; [done|lia].
Qed.

Lemma cycles_spec n rp t0 t1 limit q0 times j s bs G M :
  (n ≤ 59)%nat → 1 ≤ limit ≤ 2 ^ 58 → 0 ≤ q0 → Forall (λ t, t0 ≤ t ≤ t1) times →
  sweeping n rp s bs G M → progress rp t0 n q0 j s M →
  returns (cycles times limit s) (λ s', ∃ bs' G' M',
    sweeping n rp s' bs' G' M' ∧ only_expired t1 M M' ∧ progress rp t0 n q0 (j + zlen times) s' M').
Proof.
  intros Hn Hl Hq0. revert j s bs G M. induction times as [|t times IH]; intros j s bs G M HT HW HP; cbn [cycles].
  { cbn [returns]. exists bs, G, M. split; [done|]. split; [apply only_expired_refl|]. by rewrite Z.add_0_r. }
  apply Forall_cons in HT as [Ht HT].
  eapply returns_bind; [by apply (activeExpireCycle_step n rp t limit s bs G M Hn HW)|].
  intros [res s1] (q' & HC). pose proof HC as [_ (bs1 & G1 & HW1) _ _ _ _ _ _].
  eapply returns_mono; [apply (IH (j + 1) s1 bs1 G1 _ HT HW1); eapply progress_step; [exact HC|lia|done|lia|exact HP]|].
  intros s' (bs' & G' & M' & H1 & H2 & H3). exists bs', G', M'. split; [done|].
  split; [eapply only_expired_trans; [apply (only_expired_later t); [lia|apply swept_only_expired]|exact H2]|].
  rewrite length_cons. by replace (j + Z.of_nat (S (length times))) with (j + 1 + zlen times) by lia.
Qed.

(** [M'] is [M] after everything that had expired by [t0] was removed, and of the
    rest only what had expired by [t1]. *)
Definition reaped_by (t0 t1 : Z) M M' : Prop :=
  only_expired t1 M M' ∧ ∀ k r, M' !! k = Some r → rec_expired t0 r = false.

Lemma reaped_at t M M' : reaped_by t t M M' → M' = filter (λ kr, rec_expired t kr.2 = false) M.
Proof.
  intros [[H1 H2] Hc]. apply map_eq. intros k. apply option_eq. intros r. rewrite map_lookup_filter_Some. cbn. split.
  - intros Hk. split; [by eapply lookup_weaken|by eapply Hc].
  - intros [Hk Hr]. destruct (M' !! k) as [r'|] eqn:E.
    + pose proof (lookup_weaken _ _ _ _ E H1). congruence.
    + rewrite (H2 k r Hk E) in Hr. done.
Qed.

(** Twice the bucket count is enough to reap everything. *)
Lemma cycles_reap_all times t0 t1 limit s M :
  Rep s M → 1 ≤ limit ≤ 2 ^ 58 → Forall (λ t, t0 ≤ t ≤ t1) times → 2 * Sto.bucketCount s ≤ zlen times →
  returns (cycles times limit s) (λ s', ∃ M', Rep s' M' ∧ reaped_by t0 t1 M M').
Proof.
  intros (bs & G & HS) Hl HT Hlen. destruct (inv_sweeping _ _ _ _ HS) as (n & Hn & HW).
  rewrite (sw_buckets _ _ _ _ _ _ HW) in Hlen. pose proof (bitrev_range n (expireCursor_ s)) as Hq.
  set (q0 := bitrev n (expireCursor_ s)) in *.
  eapply returns_mono; [eapply (cycles_spec n _ t0 t1 limit q0 _ 0 s bs G M Hn Hl); [lia|done|exact HW|]|].
  { right. left. fold q0. split; [intros k r _ ?; lia|]. lia. }
  intros s' (bs' & G' & M' & HW' & Hox & HP).
  pose proof (bitrev_range n (expireCursor_ s')) as Hq'.
  assert (clean (key_pos n (table_ s)) t0 0 (2 ^ Z.of_nat n) M') as Hc.
  { destruct HP as [Hall|[[_ Hj]|(_ & _ & Hj)]]; [done|lia|lia]. }
  exists M'. split; [exists bs', G'; apply HW'|]. split; [done|].
  intros k r Hk. apply (Hc k r Hk). apply bitrev_range.
Qed.

End cycle.
End StoCycle.
