(* ===== verification/StoreSpec.v ===== *)
(** * The store as a map with deadlines

    A trace of timed operations, run on the store and on an ideal map in which
    nothing is ever removed behind the caller's back: a key is simply absent once
    its deadline has passed.  As long as the keys in use fit the cap, the two
    give the same replies, whenever the expire cycle runs. *)

From Stdlib Require Import ZArith Lia Strings.Byte.
From stdpp Require Import base gmap numbers list strings.
From S2P Require Import Prelude Bits Hash Entry Table TableLinks TableData TableInv TableGrow.
From S2P Require Import TableAssign TableRemove TableWalk Store StoreInv StoreEvict StoreOps.
From S2P Require Import StoreCycle.

Local Open Scope Z_scope.

(** ** Traces *)

Inductive sop :=
| SSet (k v : bytes) (x : Z)     (* set, with deadline x, kNoExpiry or kKeepTtl *)
| SGet (k : bytes)
| SExists (k : bytes)
| SDel (k : bytes)
| SExpire (k : bytes) (x : Z)
| STtl (k : bytes)
| SClear
| STick (limit : Z).             (* the expire cycle *)

Inductive sreply :=
| RBool (b : bool)
| RVal (v : option bytes)
| RInt (z : Z)
| RUnit.

Definition sop_keys (o : sop) : gset bytes :=
  match o with
  | SSet k _ _ => {[k]}
  | _ => ∅
  end.

(** The contract of each call. *)
Definition sop_ok (now : Z) (o : sop) : Prop :=
  0 ≤ now ∧
  match o with
  | SSet k v x => zlen k + zlen v < 2 ^ 32 ∧ x ≤ INT64_MAX
  | SExpire k x => zlen k < 2 ^ 64 ∧ x ≤ INT64_MAX ∧ x ≠ Sto.kKeepTtl ∧ x ≠ kNoExpiry
  | SGet k | SExists k | SDel k | STtl k => zlen k < 2 ^ 64
  | SClear => True
  | STick limit => 1 ≤ limit ≤ 2 ^ 58
  end.

(** ** The ideal map *)

Abbreviation ideal := (gmap bytes (bytes * Z)).

Definition deadline_passed (now x : Z) : bool := if x =? kNoExpiry then false else x <? now.

Definition alive (now : Z) (k : bytes) (J : ideal) : option (bytes * Z) :=
  match J !! k with
  | Some (v, x) => if deadline_passed now x then None else Some (v, x)
  | None => None
  end.

Definition ideal_op (now : Z) (o : sop) (J : ideal) : sreply * ideal :=
  match o with
  | SSet k v x =>
      (RBool true,
       if StoOps.past x now then delete k J
       else <[k := (v, if x =? Sto.kKeepTtl
                       then match alive now k J with Some (_, y) => y | None => kNoExpiry end
                       else x)]> J)
  | SGet k => (RVal (fst <$> alive now k J), J)
  | SExists k => (RBool (bool_decide (is_Some (alive now k J))), J)
  | SDel k => (RBool (bool_decide (is_Some (alive now k J))), delete k J)
  | SExpire k x =>
      match alive now k J with
      | Some (v, _) => (RBool true, if x <? now then delete k J else <[k := (v, x)]> J)
      | None => (RBool false, J)
      end
  | STtl k =>
      (RInt (match alive now k J with
             | Some (_, x) => if x =? kNoExpiry then -1 else x - now
             | None => -2
             end), J)
  | SClear => (RUnit, ∅)
  | STick _ => (RUnit, J)
  end.

Fixpoint ideal_run (tr : list (Z * sop)) (J : ideal) : list sreply * ideal :=
  match tr with
  | [] => ([], J)
  | (now, o) :: tr =>
      let '(r, J) := ideal_op now o J in
      let '(rs, J) := ideal_run tr J in
      (r :: rs, J)
  end.

(** The keys that are not past their deadline. *)
Definition alive_keys (now : Z) (J : ideal) : gset bytes := filter (λ k, is_Some (alive now k J)) (dom J).

(** What the cap does to a new key: it finds room, is refused, or makes room by
    dropping another key or only ones that have expired. *)
Inductive pressure := Room | Refuse | Evict (victim : option bytes).

Definition drop_victim (u : option bytes) (J : ideal) : ideal :=
  match u with Some u => delete u J | None => J end.

(** [o] stores a key that is not there. *)
Definition needs_room (now : Z) (o : sop) (J : ideal) : bool :=
  match o with
  | SSet k _ x => negb (StoOps.past x now) && bool_decide (alive now k J = None)
  | _ => false
  end.

(** The ideal map with a cap: as without, except that a new key is under
    [pressure]. *)
Definition capped_op (p : pressure) (now : Z) (o : sop) (J : ideal) : sreply * ideal :=
  if needs_room now o J then
    match p with
    | Room => ideal_op now o J
    | Refuse => (RBool false, J)
    | Evict u => ideal_op now o (drop_victim u J)
    end
  else ideal_op now o J.

(** What may count as stored when [o] asks for room: at least what is alive, at
    most what was ever stored and not removed; expired keys may be gone or not. *)
Definition count_ok (now : Z) (o : sop) (J : ideal) (n : Z) : Prop :=
  match o with
  | SSet k _ _ => Z.of_nat (base.size (alive_keys now (delete k J))) ≤ n ≤ Z.of_nat (base.size (delete k J))
  | _ => True
  end.

(** The pressure there can be: none below the cap, and at the cap what the policy
    says.  Only an alive key is dropped, or an expired one has made room. *)
Definition pressure_ok (cap : Z) (pol : Sto.EvictionPolicy) (now : Z) (o : sop) (J : ideal) (p : pressure) : Prop :=
  needs_room now o J = true → ∃ n, count_ok now o J n ∧
    match p with
    | Room => n < cap
    | Refuse => cap ≤ n ∧ pol = Sto.kNoEviction
    | Evict (Some u) => cap ≤ n ∧ pol = Sto.kAllKeysLru ∧ is_Some (alive now u J)
    | Evict None => cap ≤ n ∧ pol = Sto.kAllKeysLru ∧ ∃ u, u ∈ dom J ∧ (u ∉ sop_keys o) ∧ alive now u J = None
    end.

(** Traces of it, with the replies. *)
Inductive capped_run (cap : Z) (pol : Sto.EvictionPolicy) : list (Z * sop) → ideal → list sreply → ideal → Prop :=
| capped_nil J : capped_run cap pol [] J [] J
| capped_cons now o tr J p r J1 rs J2 :
    pressure_ok cap pol now o J p → capped_op p now o J = (r, J1) →
    capped_run cap pol tr J1 rs J2 → capped_run cap pol ((now, o) :: tr) J (r :: rs) J2.

Module StoSpec.
Import Ent Tbl Data TblInv TblGrow TblAssign TblRemove TblWalk Sto StoInv StoEvict StoOps StoCycle.

Section run.
Context {P : Type} `{!PoolAllocator P}.
Implicit Types (s : Store P) (M : kvmap) (J : ideal).

Definition store_op (now : Z) (o : sop) s : result (sreply * Store P) :=
  match o with
  | SSet k v x => let* (b, s) := Sto.set k v x now s in Ok (RBool b, s)
  | SGet k => let* (v, s) := Sto.get k now s in Ok (RVal v, s)
  | SExists k => let* (p, s) := Sto.find k now false s in Ok (RBool (bool_decide (is_Some p)), s)
  | SDel k => let* (b, s) := Sto.erase k now s in Ok (RBool b, s)
  | SExpire k x => let* (b, s) := Sto.setExpireAt k x now s in Ok (RBool b, s)
  | STtl k => let* (d, s) := Sto.ttlMs k now s in Ok (RInt d, s)
  | SClear => let* s := Sto.clear s in Ok (RUnit, s)
  | STick limit => let* (_, s) := activeExpireCycle now limit s in Ok (RUnit, s)
  end.

Fixpoint store_run (tr : list (Z * sop)) s : result (list sreply * Store P) :=
  match tr with
  | [] => Ok ([], s)
  | (now, o) :: tr =>
      let* (r, s) := store_op now o s in
      let* (rs, s) := store_run tr s in
      Ok (r :: rs, s)
  end.

(** ** The simulation *)

Definition forget (r : arec) : bytes * Z := (a_value r, a_expires r).

(** At time [now] the two agree on what is alive. *)
Definition agree (now : Z) M J : Prop := ∀ k, forget <$> live now k M = alive now k J.

(** Deadlines fit 64 bits. *)
Definition deadlines M : Prop := ∀ k r, M !! k = Some r → a_expires r ≤ INT64_MAX.

Lemma rec_expired_forget now r : rec_expired now r = deadline_passed now (forget r).2.
Proof. done. Qed.

(** What is alive later is what is alive now and has not expired since. *)
Lemma live_later now now' k M :
  now ≤ now' →
  live now' k M = match live now k M with
                  | Some r => if rec_expired now' r then None else Some r
                  | None => None
                  end.
Proof.
  intros Hle. unfold live. destruct (M !! k) as [r|]; [|done].
  destruct (rec_expired now r) eqn:E; [|done]. by rewrite (rec_expired_mono now now' r Hle E).
Qed.

Lemma alive_later now now' k J :
  now ≤ now' →
  alive now' k J = match alive now k J with
                   | Some (v, x) => if deadline_passed now' x then None else Some (v, x)
                   | None => None
                   end.
Proof.
  intros Hle. unfold alive. destruct (J !! k) as [[v x]|]; [|done].
  destruct (deadline_passed now x) eqn:E; [|done].
  assert (deadline_passed now' x = true) as ->; [|done].
  apply (rec_expired_mono now now' (mkRec v x 0) Hle E).
Qed.

Lemma agree_later now now' M J : now ≤ now' → agree now M J → agree now' M J.
Proof.
  intros Hle HA k. rewrite (live_later now now' k M Hle), (alive_later now now' k J Hle), <-(HA k).
  destruct (live now k M) as [r|]; [|done]. cbn. rewrite rec_expired_forget. cbn.
  by destruct (deadline_passed now' (a_expires r)).
Qed.

Lemma live_insert now k r M k' :
  live now k' (<[k := r]> M) =
    if bool_decide (k = k') then (if rec_expired now r then None else Some r) else live now k' M.
Proof.
  unfold live. case_bool_decide as E; [subst; by rewrite lookup_insert_eq|by rewrite lookup_insert_ne].
Qed.

Lemma alive_insert now k v x J k' :
  alive now k' (<[k := (v, x)]> J) =
    if bool_decide (k = k') then (if deadline_passed now x then None else Some (v, x)) else alive now k' J.
Proof.
  unfold alive. case_bool_decide as E; [subst; by rewrite lookup_insert_eq|by rewrite lookup_insert_ne].
Qed.

Lemma live_delete now k M k' :
  live now k' (delete k M) = if bool_decide (k = k') then None else live now k' M.
Proof.
  unfold live. case_bool_decide as E; [subst; by rewrite lookup_delete_eq|by rewrite lookup_delete_ne].
Qed.

Lemma alive_delete now k J k' :
  alive now k' (delete k J) = if bool_decide (k = k') then None else alive now k' J.
Proof.
  unfold alive. case_bool_decide as E; [subst; by rewrite lookup_delete_eq|by rewrite lookup_delete_ne].
Qed.

Lemma agree_insert now k r M J :
  agree now M J → agree now (<[k := r]> M) (<[k := forget r]> J).
Proof.
  intros HA k'. unfold forget at 2. rewrite live_insert, alive_insert. case_bool_decide; [|apply HA].
  rewrite rec_expired_forget. cbn. by destruct (deadline_passed now (a_expires r)).
Qed.

Lemma agree_delete now k M J : agree now M J → agree now (delete k M) (delete k J).
Proof. intros HA k'. rewrite live_delete, alive_delete. case_bool_decide; [done|apply HA]. Qed.

(** Removing a dead key changes nothing. *)
Lemma agree_delete_dead now k M J : agree now M J → live now k M = None → agree now (delete k M) J.
Proof.
  intros HA Hk k'. rewrite live_delete. case_bool_decide as E; [|apply HA]. subst.
  by rewrite <-(HA k'), Hk.
Qed.

(** Touching a live record keeps what callers see. *)
Lemma agree_touch now k r r' M J :
  agree now M J → live now k M = Some r → forget r' = forget r → agree now (<[k := r']> M) J.
Proof.
  intros HA Hk Hf k'. rewrite live_insert. case_bool_decide as E; [|apply HA]. subst.
  rewrite <-(HA k'), Hk. rewrite rec_expired_forget, Hf, <-rec_expired_forget.
  destruct (live_some _ _ _ _ Hk) as (_ & -> & _). cbn. by rewrite Hf.
Qed.

Lemma agree_only_expired now M M' J : agree now M J → only_expired now M M' → agree now M' J.
Proof.
  intros HA [H1 H2] k. rewrite <-(HA k). unfold live. destruct (M' !! k) as [r|] eqn:E.
  - by rewrite (lookup_weaken _ _ _ _ E H1).
  - destruct (M !! k) as [r|] eqn:E2; [|done]. by rewrite (H2 k r E2 E).
Qed.

Lemma deadlines_subseteq M M' : M' ⊆ M → deadlines M → deadlines M'.
Proof. intros Hs HD k r Hk. apply (HD k r). by eapply lookup_weaken. Qed.

Lemma deadlines_insert k r M : deadlines M → a_expires r ≤ INT64_MAX → deadlines (<[k := r]> M).
Proof.
  intros HD Hr k' r'. destruct (decide (k = k')) as [<-|].
  - rewrite lookup_insert_eq. by intros [= <-].
  - rewrite lookup_insert_ne by done. apply HD.
Qed.

Lemma agree_alive now k M J : agree now M J → alive now k J = forget <$> live now k M.
Proof. intros HA. by rewrite (HA k). Qed.

(** The simulation relation, between maps and with the store. *)
Record sees (now : Z) M J : Prop := {
  se_agree : agree now M J;
  se_deadlines : deadlines M;
  se_dom : dom M ⊆ dom J;
}.

Record rel (now : Z) s M J : Prop := {
  rel_rep : Rep s M;
  rel_sees :> sees now M J;
}.

Lemma rel_agree now s M J : rel now s M J → agree now M J.
Proof. intros [_ []]. done. Qed.

Lemma rel_intro now s M J : Rep s M → agree now M J → deadlines M → dom M ⊆ dom J → rel now s M J.
Proof. intros. by split. Qed.

(** And all keys in use are in [D], for which there is room. *)
Record sim (now : Z) (D : gset bytes) s M J : Prop := {
  sim_rel : rel now s M J;
  sim_keys : dom J ⊆ D;
  sim_fits : Z.of_nat (base.size D) ≤ maxKeys_ s;
}.

Lemma rel_later now now' s M J : now ≤ now' → rel now s M J → rel now' s M J.
Proof. intros Hle [H1 [H2 H3 H4]]. by apply rel_intro; [|eapply agree_later| |]. Qed.

Lemma sim_later now now' D s M J : now ≤ now' → sim now D s M J → sim now' D s M J.
Proof. intros Hle [H1 H2 H3]. split; [by eapply rel_later|done..]. Qed.

Lemma dom_touch (k : bytes) (r r' : arec) (M : kvmap) :
  M !! k = Some r' → dom (<[k := r]> M) =@{gset bytes} dom M.
Proof. intros Hk. apply dom_insert_lookup_L. by eexists. Qed.

(** ** Maps that see each other *)

(** A record gone that was dead, or gone from both. *)
Lemma sees_delete_dead now k M J : sees now M J → live now k M = None → sees now (delete k M) J.
Proof.
  intros [HA HD Hdom] Hl. split; [by apply agree_delete_dead|by eapply deadlines_subseteq, HD; apply delete_subseteq|].
  rewrite dom_delete_L. set_solver.
Qed.

Lemma sees_delete now k M J : sees now M J → sees now (delete k M) (delete k J).
Proof.
  intros [HA HD Hdom]. split; [by apply agree_delete|by eapply deadlines_subseteq, HD; apply delete_subseteq|].
  rewrite !dom_delete_L. set_solver.
Qed.

Lemma sees_only_expired now M M' J : sees now M J → only_expired now M M' → sees now M' J.
Proof.
  intros [HA HD Hdom] Hox. pose proof (proj1 Hox) as Hsub.
  split; [by eapply agree_only_expired|by eapply deadlines_subseteq|]. etrans; [|exact Hdom]. by apply subseteq_dom.
Qed.

(** What is stored for a [set] is what the ideal map stores. *)
Lemma sees_set now M J k v x :
  sees now M J → x ≤ INT64_MAX →
  sees now (<[k := set_record (live now k M) v x now]> M)
    (<[k := (v, if x =? Sto.kKeepTtl then match alive now k J with Some (_, y) => y | None => kNoExpiry end else x)]> J).
Proof.
  intros [HA HD Hdom] Hx.
  assert ((v, if x =? Sto.kKeepTtl then match alive now k J with Some (_, y) => y | None => kNoExpiry end else x) =
          forget (set_record (live now k M) v x now)) as ->.
  { rewrite (agree_alive now k M J HA). unfold set_record, forget. cbn. by destruct (x =? kKeepTtl), (live now k M). }
  split; [by apply agree_insert| |].
  - apply deadlines_insert; [done|]. unfold set_record. cbn. destruct (x =? kKeepTtl); [|done].
    destruct (live now k M) as [r|] eqn:El; [|done]. apply live_some in El as (Hk' & _). by eapply HD.
  - rewrite !dom_insert_L. set_solver.
Qed.

(** The records that are in the way of a new [k]. *)
Lemma sees_count now M J k :
  sees now M J →
  Z.of_nat (base.size (alive_keys now (delete k J))) ≤ Z.of_nat (base.size (delete k M)) ≤ Z.of_nat (base.size (delete k J)).
Proof.
  intros [HA _ Hdom]. rewrite <-!(size_dom (D := gset bytes)), !dom_delete_L.
  split; apply Nat2Z.inj_le, subseteq_size; [|set_solver]. intros k' Hk'.
  unfold alive_keys in Hk'. apply elem_of_filter in Hk' as [Hk' _]. rewrite alive_delete in Hk'.
  case_bool_decide as E; [by destruct Hk'|]. rewrite <-(HA k'), fmap_is_Some in Hk'. destruct Hk' as [r Hr].
  apply live_some in Hr as (Hr & _). apply elem_of_difference. split; [apply elem_of_dom; by exists r|set_solver].
Qed.

(** Eviction makes a choice the ideal map is allowed. *)
Lemma sees_evicted now s s' M M2 J k :
  sees now M J → live now k M = None → evicted now s s' (delete k M) M2 →
  ∃ u, sees now M2 (drop_victim u J) ∧ M2 !! k = None ∧ alive now k (drop_victim u J) = None ∧
    match u with
    | Some u => is_Some (alive now u J)
    | None => ∃ u, u ∈ dom J ∧ u ≠ k ∧ alive now u J = None
    end.
Proof.
  intros HS Hl Hev. pose proof (sees_delete_dead _ _ _ _ HS Hl) as HS1. pose proof (se_agree _ _ _ HS) as HA.
  assert (alive now k J = None) as Hk by (by rewrite (agree_alive _ _ _ _ HA), Hl).
  destruct (evicted_split _ _ _ _ _ Hev) as [[Hox Hlt]|(u & r & Hu & -> & Hr)].
  - exists None. split; [by eapply sees_only_expired|]. split; [eapply lookup_weaken_None; [apply lookup_delete_eq|apply Hox]|].
    split; [done|]. assert (∃ u r, delete k M !! u = Some r ∧ M2 !! u = None) as (u & r & Hu & Hn).
    { destruct (decide (delete k M ∖ M2 = ∅)) as [He|He].
      - exfalso. assert (delete k M ⊆ M2) as Hsub.
        { apply map_subseteq_spec. intros u r Hu. destruct (M2 !! u) as [r2|] eqn:E2.
          - pose proof (lookup_weaken _ _ _ _ E2 (proj1 Hox)). congruence.
          - assert ((delete k M ∖ M2) !! u = Some r) as Hd by (by apply lookup_difference_Some). by rewrite He, lookup_empty in Hd. }
        apply map_subseteq_size in Hsub. lia.
      - apply map_choose in He as (u & r & [H1 H2]%lookup_difference_Some). by exists u, r. }
    exists u. pose proof (proj2 Hox u r Hu Hn) as Hexp. apply lookup_delete_Some in Hu as [Hne Hu].
    split; [apply (se_dom _ _ _ HS), elem_of_dom; by exists r|]. split; [done|].
    rewrite (agree_alive _ _ _ _ HA). unfold live. by rewrite Hu, Hexp.
  - exists (Some u). cbn [drop_victim]. split; [by apply sees_delete|]. apply lookup_delete_Some in Hu as [Hne Hu].
    split; [by rewrite lookup_delete_ne, lookup_delete_eq|]. split; [rewrite alive_delete; by case_bool_decide|].
    rewrite (agree_alive _ _ _ _ HA). unfold live. rewrite Hu, Hr. by eexists.
Qed.

(** ** One operation at a time *)

Section steps.
Context (now : Z) (s : Store P) (M : kvmap) (J : ideal).
Hypothesis HS : rel now s M J.

Abbreviation simulates o :=
  (returns (store_op now o s) (λ '(r, s'), ∃ M',
     r = (ideal_op now o J).1 ∧ rel now s' M' (ideal_op now o J).2 ∧ same_config s s')).

(** A new key is stored after what makes room for it. *)
Lemma rel_stored k v x s' M2 u :
  x ≤ INT64_MAX → past x now = false → sees now M2 (drop_victim u J) → M2 !! k = None → alive now k (drop_victim u J) = None →
  Rep s' (<[k := set_record None v x now]> M2) →
  rel now s' (<[k := set_record None v x now]> M2) (ideal_op now (SSet k v x) (drop_victim u J)).2.
Proof.
  intros Hx Hp HV Hk Ha HR. split; [done|]. cbn [ideal_op snd]. rewrite Hp.
  pose proof (sees_set now M2 _ k v x HV Hx) as H. unfold live in H. by rewrite Hk in H.
Qed.

Lemma rel_set k v x :
  zlen k + zlen v < 2 ^ 32 → x ≤ INT64_MAX →
  returns (store_op now (SSet k v x) s) (λ '(r, s'), ∃ M' p, pressure_ok (maxKeys_ s) (policy_ s) now (SSet k v x) J p ∧
    r = (capped_op p now (SSet k v x) J).1 ∧ rel now s' M' (capped_op p now (SSet k v x) J).2 ∧ same_config s s').
Proof.
  intros Hlen Hx. pose proof HS as [(bs & G & HI) HV]. pose proof (se_agree _ _ _ HV) as HA. cbn [store_op].
  eapply returns_bind; [by apply (set_step _ _ _ _ k v x now HI)|].
  intros [b s'] (M' & HR & Hc & He). cbn [returns]. exists M'. unfold set_effect in He.
  pose proof (agree_alive now k M J HA) as Hal. unfold pressure_ok, capped_op. cbn [needs_room].
  destruct (past x now) eqn:Ep; cbn [negb andb].
  { destruct He as [-> ->]. exists Room. split; [done|]. split; [done|]. split; [|done]. split; [done|].
    cbn [ideal_op snd]. rewrite Ep. by apply sees_delete. }
  destruct (live now k M) as [r|] eqn:El.
  { rewrite (bool_decide_false (alive now k J = None)) by (by rewrite Hal). destruct He as [-> ->]. exists Room. split; [done|]. split; [done|].
    split; [|done]. split; [done|]. cbn [ideal_op snd]. rewrite Ep. rewrite <-El in *. by apply sees_set. }
  assert (alive now k J = None) as Han by (by rewrite Hal). rewrite (bool_decide_true (alive now k J = None)) by done. unfold set_new in He. pose proof (sees_count now M J k HV) as Hcount.
  pose proof (sees_delete_dead _ _ _ _ HV El) as HV1. pose proof (lookup_delete_eq M k) as Hk1.
  destruct (Z.ltb_spec (Z.of_nat (base.size (delete k M))) (maxKeys_ s)) as [Hlt|Hge].
  { destruct He as [-> ->]. exists Room. split; [intros _; by exists (Z.of_nat (base.size (delete k M)))|].
    split; [done|]. split; [by apply (rel_stored k v x s' _ None)|done]. }
  destruct (policy_ s).
  { destruct He as [-> ->]. exists Refuse. split; [intros _; by exists (Z.of_nat (base.size (delete k M)))|]. by split. }
  destruct He as (-> & s1 & s2 & M2 & _ & Hev & _ & _ & _ & ->). destruct (sees_evicted _ _ _ _ _ _ _ HV El Hev) as (u & HV2 & Hk2 & Ha2 & Hu).
  exists (Evict u). split; [|split; [done|split; [by apply rel_stored|done]]].
  intros _. exists (Z.of_nat (base.size (delete k M))). split; [done|]. destruct u as [u|]; [done|].
  destruct Hu as (u & Hu & Hne & Hd). split; [done|]. split; [done|]. exists u. split; [done|]. split; [|done].
  cbn [sop_keys]. set_solver.
Qed.

(** The store after a lookup that found nothing. *)
Lemma rel_missing k s' bs' G' :
  store_inv s' bs' G' (delete k M) → same_config s s' → live now k M = None → rel now s' (delete k M) J.
Proof. intros HI' Hc Hl. split; [by exists bs', G'|by apply sees_delete_dead, Hl; apply HS]. Qed.

(** The store after a live record was replaced by one callers cannot tell apart. *)
Lemma rel_touched k r r' s' bs' G' :
  store_inv s' bs' G' (<[k := r']> M) → same_config s s' → live now k M = Some r → forget r' = forget r →
  rel now s' (<[k := r']> M) J.
Proof.
  intros HI' Hc Hl Hf. destruct HS as [_ [HA HD Hdom]]. pose proof (live_some _ _ _ _ Hl) as (Hk & _).
  apply rel_intro; [by exists bs', G'|by eapply agree_touch| |by rewrite (dom_touch k r' r M Hk)].
  apply deadlines_insert; [done|]. replace (a_expires r') with (a_expires r); [by eapply HD|]. by injection Hf.
Qed.

Lemma rel_get k : zlen k < 2 ^ 64 → simulates (SGet k).
Proof.
  intros Hlen. pose proof HS as [(bs & G & HI) [HA HD Hdom]]. cbn [store_op ideal_op fst snd]. unfold Sto.get.
  rewrite rbind_assoc. eapply returns_bind; [by apply (find_step _ _ _ _ k now true HI)|].
  intros [o s'] (bs' & G' & M' & HI' & Hc & Hm). rewrite (agree_alive now k M J HA).
  destruct (live now k M) as [r|] eqn:El.
  - destruct Hm as (-> & a & -> & Hg).
    destruct (entry_of _ _ _ _ _ _ _ now HI' Hg) as (e & -> & Hrep & _). cbn [rbind].
    rewrite (rep_value _ _ _ _ _ Hrep). cbn [rbind returns]. eexists. split; [done|]. split; [|done].
    by eapply rel_touched.
  - destruct Hm as (-> & ->). cbn [rbind returns]. eexists. split; [done|]. split; [|done]. by eapply rel_missing.
Qed.

Lemma rel_exists k : zlen k < 2 ^ 64 → simulates (SExists k).
Proof.
  intros Hlen. pose proof HS as [(bs & G & HI) [HA HD Hdom]]. cbn [store_op ideal_op fst snd].
  eapply returns_bind; [by apply (find_step _ _ _ _ k now false HI)|].
  intros [o s'] (bs' & G' & M' & HI' & Hc & Hm). rewrite (agree_alive now k M J HA). cbn [returns].
  destruct (live now k M) as [r|] eqn:El.
  - destruct Hm as (-> & a & -> & Hg). eexists. split; [done|]. split; [|done]. by eapply rel_touched.
  - destruct Hm as (-> & ->). eexists. split; [done|]. split; [|done]. by eapply rel_missing.
Qed.

Lemma rel_del k : zlen k < 2 ^ 64 → simulates (SDel k).
Proof.
  intros Hlen. pose proof HS as [(bs & G & HI) [HA HD Hdom]]. cbn [store_op ideal_op fst snd].
  eapply returns_bind; [by apply (erase_step _ _ _ _ k now HI)|].
  intros [b s'] (bs' & G' & HI' & Hc & ->). cbn [returns]. exists (delete k M).
  split; [|split; [|done]].
  - rewrite (agree_alive now k M J HA). f_equal. apply bool_decide_ext. by rewrite fmap_is_Some.
  - apply rel_intro; [by exists bs', G'|by apply agree_delete|
                       by eapply deadlines_subseteq, HD; apply delete_subseteq|].
    rewrite dom_delete_L. set_solver.
Qed.

Lemma rel_expire k x :
  zlen k < 2 ^ 64 → x ≤ INT64_MAX → x ≠ kKeepTtl → x ≠ kNoExpiry → simulates (SExpire k x).
Proof.
  intros Hlen Hx Hx1 Hx2. pose proof HS as [(bs & G & HI) [HA HD Hdom]]. cbn [store_op ideal_op].
  eapply returns_bind; [by apply (setExpireAt_step _ _ _ _ k x now HI)|].
  intros [b s'] (bs' & G' & M' & HI' & Hc & Hm). rewrite (agree_alive now k M J HA). cbn [returns].
  destruct (live now k M) as [r|] eqn:El; cbn [fmap option_fmap option_map forget fst snd].
  - destruct Hm as (-> & ->).
    exists (if x <? now then delete k M else <[k := mkRec (a_value r) x (u32 now)]> M).
    split; [done|]. split; [|done].
    pose proof (live_some _ _ _ _ El) as (Hk & _). destruct (x <? now).
    + apply rel_intro; [by exists bs', G'|by apply agree_delete|
                         by eapply deadlines_subseteq, HD; apply delete_subseteq|].
      rewrite dom_delete_L. set_solver.
    + apply rel_intro; [by exists bs', G'|apply (agree_insert now k (mkRec (a_value r) x (u32 now))), HA|by apply deadlines_insert|].
      rewrite !dom_insert_L. set_solver.
  - destruct Hm as (-> & ->). eexists. split; [done|]. split; [|done]. by eapply rel_missing.
Qed.

Lemma rel_ttl k : zlen k < 2 ^ 64 → 0 ≤ now → simulates (STtl k).
Proof.
  intros Hlen Hnow. pose proof HS as [(bs & G & HI) [HA HD Hdom]]. cbn [store_op ideal_op fst snd].
  eapply returns_bind; [apply (ttlMs_step _ _ _ _ k now HI Hlen Hnow)|].
  { intros r Hr. apply live_some in Hr as (Hk & _). by eapply HD. }
  intros [d s'] (bs' & G' & HI' & Hc & ->). cbn [returns]. exists (reap now k M).
  split; [|split; [|done]].
  - rewrite (agree_alive now k M J HA). by destruct (live now k M).
  - destruct (live now k M) as [r|] eqn:El.
    + destruct (live_some _ _ _ _ El) as (_ & _ & Hr). rewrite Hr in HI' |- *.
      apply rel_intro; [by exists bs', G'|done..].
    + rewrite (reap_absent now k M El) in HI' |- *. by eapply rel_missing.
Qed.

Lemma rel_clear : simulates SClear.
Proof.
  pose proof HS as [(bs & G & HI) [HA HD Hdom]]. cbn [store_op ideal_op fst snd].
  eapply returns_bind; [apply (clear_step _ _ _ _ HI)|]. intros s' (HR & Hc & _). cbn [returns]. exists ∅.
  split; [done|]. split; [|done]. apply rel_intro; [done|..].
  - intros k. unfold live, alive. by rewrite !lookup_empty.
  - intros k r Hk. by rewrite lookup_empty in Hk.
  - rewrite dom_empty_L. set_solver.
Qed.

Lemma rel_tick limit : 1 ≤ limit ≤ 2 ^ 58 → simulates (STick limit).
Proof.
  intros Hl. pose proof HS as [(bs & G & HI) [HA HD Hdom]]. cbn [store_op ideal_op fst snd].
  destruct (inv_sweeping _ _ _ _ HI) as (n & Hn & HW).
  eapply returns_bind; [by apply (activeExpireCycle_step n _ now limit s bs G M Hn HW)|].
  intros [res s'] (q' & [_ (bs' & G' & HW') (Hc & _) _ _ _ _ _]). cbn [returns].
  set (M' := swept _ _ _ _ _) in HW'. exists M'. split; [done|]. split; [|done].
  assert (M' ⊆ M) as Hsub by apply swept_subseteq.
  apply rel_intro; [exists bs', G'; apply HW'| |by eapply deadlines_subseteq|].
  - eapply agree_only_expired; [exact HA|]. apply swept_only_expired.
  - etrans; [|exact Hdom]. by apply subseteq_dom.
Qed.

End steps.

(** An operation that needs no room. *)
Local Ltac unpressed lem := eapply returns_mono; [by eapply lem|intros [? ?] (M' & ?); by exists M', Room].

Lemma rel_step now s M J o :
  rel now s M J → sop_ok now o →
  returns (store_op now o s) (λ '(r, s'), ∃ M' p, pressure_ok (maxKeys_ s) (policy_ s) now o J p ∧
    r = (capped_op p now o J).1 ∧ rel now s' M' (capped_op p now o J).2 ∧ same_config s s').
Proof.
  intros HS [Hnow Hok]. destruct o as [k v x|k|k|k|k x|k| |limit].
  - destruct Hok as [Hl Hx]. by eapply rel_set.
  - unpressed rel_get.
  - unpressed rel_exists.
  - unpressed rel_del.
  - destruct Hok as (Hl & Hx & H1 & H2). unpressed rel_expire.
  - unpressed rel_ttl.
  - unpressed rel_clear.
  - unpressed rel_tick.
Qed.

Lemma ideal_dom now o J : dom (ideal_op now o J).2 ⊆ sop_keys o ∪ dom J.
Proof.
  destruct o as [k v x|k|k|k|k x|k| |limit]; cbn [ideal_op snd sop_keys]; try set_solver.
  - destruct (StoOps.past x now); [rewrite dom_delete_L|rewrite dom_insert_L]; set_solver.
  - destruct (alive now k J) as [[v y]|] eqn:E; cbn [snd]; [|set_solver].
    assert (k ∈ dom J) by (apply elem_of_dom; unfold alive in E; destruct (J !! k); [by eexists|done]).
    destruct (x <? now); [rewrite dom_delete_L|rewrite dom_insert_L]; set_solver.
Qed.

Lemma sim_step now D s M J : sim now D s M J → ∀ o, sop_ok now o → sop_keys o ⊆ D →
  returns (store_op now o s) (λ '(r, s'), ∃ M',
    r = (ideal_op now o J).1 ∧ sim now D s' M' (ideal_op now o J).2 ∧ same_config s s').
Proof.
  intros [HS HK Hfit] o Hok Ho. eapply returns_mono; [by apply (rel_step now s M J o HS Hok)|].
  intros [r s'] (M' & p & Hp & -> & HR & Hc). exists M'.
  assert (capped_op p now o J = ideal_op now o J) as Heq.
  { unfold capped_op. destruct (needs_room now o J) eqn:En; [|done]. destruct (Hp En) as (n & Hn & Hpn).
    destruct o as [k v x|k|k|k|k x|k| |limit]; try done. cbn [count_ok sop_keys] in *.
    assert (base.size (delete k J) < base.size D)%nat.
    { rewrite <-(size_dom (D := gset bytes)), dom_delete_L. apply subset_size. split; set_solver. }
    destruct p as [| |[u|]]; [done|lia..]. }
  rewrite Heq in *. split; [done|]. split; [|done]. pose proof (ideal_dom now o J).
  split; [done|set_solver|]. destruct Hc as (-> & _). done.
Qed.

(** Times that do not go back, each operation within its contract. *)
Fixpoint trace_ok (t0 : Z) (tr : list (Z * sop)) : Prop :=
  match tr with
  | [] => True
  | (now, o) :: tr => t0 ≤ now ∧ sop_ok now o ∧ trace_ok now tr
  end.

Definition trace_keys (tr : list (Z * sop)) : gset bytes := ⋃ (sop_keys ∘ snd <$> tr).

(** ** Traces with a cap *)

Lemma rel_run tr t0 s M J :
  rel t0 s M J → trace_ok t0 tr →
  returns (store_run tr s) (λ '(rs, s'), ∃ M' J' t1,
    capped_run (maxKeys_ s) (policy_ s) tr J rs J' ∧ rel t1 s' M' J' ∧ same_config s s').
Proof.
  revert t0 s M J. induction tr as [|[now o] tr IH]; intros t0 s M J HS Hok; cbn [store_run].
  { exists M, J, t0. split; [constructor|done]. }
  destruct Hok as (Hle & Ho & Hok).
  eapply returns_bind; [apply (rel_step now s M J o (rel_later _ _ _ _ _ Hle HS) Ho)|].
  intros [r s1] (M1 & p & Hp & Hr & HS1 & Hc1). destruct (capped_op p now o J) as [r' J1] eqn:E. cbn [fst snd] in *. subst r'.
  eapply returns_bind; [by apply (IH now s1 M1 J1 HS1)|].
  intros [rs s2] (M2 & J2 & t1 & Hrun & HS2 & Hc2). cbn [returns]. exists M2, J2, t1.
  pose proof Hc1 as (Hm & _ & Hpol). rewrite Hm, Hpol in Hrun.
  split; [by econstructor|]. split; [done|by eapply same_config_trans].
Qed.

(** ** Traces that fit *)

Lemma sim_run tr t0 D s M J :
  sim t0 D s M J → trace_ok t0 tr → trace_keys tr ⊆ D →
  returns (store_run tr s) (λ '(rs, s'), ∃ M' t1,
    rs = (ideal_run tr J).1 ∧ sim t1 D s' M' (ideal_run tr J).2 ∧ same_config s s').
Proof.
  revert t0 s M J. induction tr as [|[now o] tr IH]; intros t0 s M J HS Hok HK; cbn [store_run ideal_run].
  { cbn. by exists M, t0. }
  destruct Hok as (Hle & Ho & Hok). unfold trace_keys in HK. csimpl in HK. cbn [union_list] in HK.
  apply union_subseteq in HK as [HK1 HK2].
  eapply returns_bind; [by apply (sim_step now D s M J (sim_later _ _ _ _ _ _ Hle HS) o Ho)|].
  intros [r s1] (M1 & -> & HS1 & Hc1).
  destruct (ideal_op now o J) as [r J1]. cbn [fst snd] in *.
  eapply returns_bind; [by apply (IH now s1 M1 J1 HS1 Hok)|].
  intros [rs s2] (M2 & t1 & -> & HS2 & Hc2). cbn [returns].
  destruct (ideal_run tr J1) as [rs J2]. cbn [fst snd] in *. exists M2, t1. split; [done|]. split; [done|].
  by eapply same_config_trans.
Qed.

End run.
End StoSpec.
