(* ===== verification/StoreProps.v ===== *)
(** * What the store promises *)

From Stdlib Require Import ZArith Lia Strings.Byte.
From stdpp Require Import base gmap numbers list strings.
From S2P Require Import Prelude Bits Hash Entry Table TableLinks TableData TableInv TableGrow.
From S2P Require Import TableAssign TableRemove TableWalk TableProps Store StoreInv StoreEvict.
From S2P Require Import StoreOps StoreCycle StoreSpec.

Local Open Scope Z_scope.

Module StoProps.
Import Ent Tbl Data TblInv Sto StoInv StoEvict StoOps StoCycle StoSpec.

(** ** Construction *)

(** A configuration the constructor accepts. *)
Definition config_ok (cfg : Config) : Prop :=
  0 ≤ initialBuckets cfg ≤ 2 ^ 59 ∧ 0 ≤ cfg_maxKeys cfg ≤ kPoolCapacity ∧
  0 ≤ cfg_seed cfg < 2 ^ 64 ∧ 1 ≤ lruSamples cfg ≤ 64.

Definition config_cap (cfg : Config) : Z :=
  if cfg_maxKeys cfg =? 0 then kPoolCapacity else cfg_maxKeys cfg.

Lemma resolveSeed_range seed rd0 rd1 :
  0 ≤ seed < 2 ^ 64 → 0 ≤ rd1 < 2 ^ 32 → 0 ≤ resolveSeed seed rd0 rd1 < 2 ^ 64.
Proof.
  intros Hs Hr. unfold resolveSeed. destruct (negb _); [done|].
  apply lor_range; [lia|apply u64_range|lia].
Qed.

Lemma make_Rep {P} `{!PoolAllocator P} cfg rd0 rd1 :
  config_ok cfg → 0 ≤ rd1 < 2 ^ 32 →
  ∃ s : Store P, Sto.make cfg rd0 rd1 = Ok s ∧ Rep s ∅ ∧
    maxKeys_ s = config_cap cfg ∧ policy_ s = policy cfg ∧ lruSamples_ s = lruSamples cfg.
Proof.
  intros (Hb & Hm & Hs & Hl) Hr. unfold Sto.make, make_seeded, resolveMaxKeys.
  rewrite (proj2 (Z.leb_le _ kPoolCapacity)) by lia. cbn [rbind].
  assert (kPoolCapacity = 2 ^ 18) as HcapE by done.
  set (n := if cfg_maxKeys cfg =? 0 then initialBuckets cfg else Z.max (initialBuckets cfg) (cfg_maxKeys cfg)).
  destruct (TblProps.make_spec (P := P) n (resolveSeed (cfg_seed cfg) rd0 rd1)) as (t & -> & HT & Hn & _).
  { subst n. destruct (_ =? _); lia. }
  { by apply resolveSeed_range. }
  cbn [rbind]. rewrite (proj2 (Z.leb_le 1 _)), (proj2 (Z.leb_le _ 64)) by lia. cbn [andb].
  eexists. split; [done|]. split; [|done]. eexists _, _. split; [exact HT|apply abs_empty|..]; cbn.
  - done.
  - destruct (Z.eqb_spec (cfg_maxKeys cfg) 0); lia.
  - rewrite map_size_empty. destruct (Z.eqb_spec (cfg_maxKeys cfg) 0); lia.
  - unfold Sto.bucketCount. cbn. pose proof (core_bucket_pos _ _ _ (ti_core _ _ _ HT)). lia.
Qed.

(** ** Traces *)

Lemma rel_start {P} `{!PoolAllocator P} now (s : Store P) : Rep s ∅ → rel now s ∅ ∅.
Proof.
  intros HR. apply rel_intro; [done| | |done].
  - intros k. unfold live, alive. by rewrite !lookup_empty.
  - intros k r Hk. by rewrite lookup_empty in Hk.
Qed.

Lemma sim_start {P} `{!PoolAllocator P} now D (s : Store P) :
  Rep s ∅ → Z.of_nat (base.size D) ≤ maxKeys_ s → sim now D s ∅ ∅.
Proof. intros HR Hf. split; [by apply rel_start|rewrite dom_empty_L; set_solver|done]. Qed.

(** C5: the store refines a map with deadlines.  Over any trace of sets, gets,
    existence checks, deletions, EXPIREs, TTLs, flushes and expire cycles at
    times that do not go back, a new store runs without a fault.  When its cap
    covers the keys in use it gives exactly the replies of an ideal map in which a
    key is absent once its deadline has passed: lazy expiry, the active cycle,
    rehashing and LRU bookkeeping are invisible.  And over any keys it gives the
    replies of that map with the cap: only when the keys alive, and perhaps some
    that have expired, are as many as the cap, is a new key refused, or does it
    make the map drop one other key, as the policy says. *)
Theorem store_refines_deadline_map {P} `{!PoolAllocator P} (cfg : Config) (rd0 rd1 : Z)
    (tr : list (Z * sop)) (Hcfg : config_ok cfg) (Hrd : 0 ≤ rd1 < 2 ^ 32) (Htr : trace_ok 0 tr) :
  ∃ s : Store P, Sto.make cfg rd0 rd1 = Ok s ∧
    (Z.of_nat (base.size (trace_keys tr)) ≤ config_cap cfg → ∃ s', store_run tr s = Ok ((ideal_run tr ∅).1, s')) ∧
    (∃ rs s' J, store_run tr s = Ok (rs, s') ∧ capped_run (config_cap cfg) (policy cfg) tr ∅ rs J).
Proof.
  destruct (make_Rep (P := P) cfg rd0 rd1 Hcfg Hrd) as (s & E & HR & Hm & Hp & _). exists s. rewrite <-Hm, <-Hp.
  split; [done|]. split.
  - intros Hfit. pose proof (sim_run tr 0 (trace_keys tr) s ∅ ∅ (sim_start _ _ _ HR Hfit) Htr ltac:(done)) as H.
    apply returns_inv in H as ([rs s'] & E' & M' & t1 & -> & _). by exists s'.
  - pose proof (rel_run tr 0 s ∅ ∅ (rel_start _ _ HR) Htr) as H.
    apply returns_inv in H as ([rs s'] & E' & M' & J' & t1 & H & _). by exists rs, s', J'.
Qed.

Definition demo_cfg : Config := mkConfig 4 3 7 5 kAllKeysLru.

Definition demo_trace : list (Z * sop) :=
  [(100, SSet (bstr "a") (bstr "1") 150); (100, SSet (bstr "b") (bstr "2") kNoExpiry);
   (150, SGet (bstr "a")); (151, STick 20); (151, SGet (bstr "a")); (151, STtl (bstr "b"));
   (160, SExpire (bstr "b") 200); (170, STtl (bstr "b")); (201, SExists (bstr "b"))].

Lemma demo_cfg_ok : config_ok demo_cfg.
Proof. vm_compute. repeat split; discriminate. Qed.

(** One key fits. *)
Definition full_cfg : Config := mkConfig 4 1 7 5 kNoEviction.
Definition lru_cfg : Config := mkConfig 4 1 7 5 kAllKeysLru.

Definition full_trace : list (Z * sop) :=
  [(100, SSet (bstr "a") (bstr "1") 150); (110, SSet (bstr "b") (bstr "2") kNoExpiry);
   (151, SGet (bstr "a")); (160, SSet (bstr "b") (bstr "2") kNoExpiry)].

Lemma store_refines_deadline_map_witness :
  (∃ s s' : Store (gset addr), Sto.make demo_cfg 0 0 = Ok s ∧
    store_run demo_trace s =
      Ok ([RBool true; RBool true; RVal (Some (bstr "1")); RUnit; RVal None; RInt (-1);
           RBool true; RInt 30; RBool false], s')) ∧
  (∀ cfg, cfg = full_cfg ∨ cfg = lru_cfg →
    ∃ (s s' : Store (gset addr)) rs J, Sto.make cfg 0 0 = Ok s ∧ store_run full_trace s = Ok (rs, s') ∧
      capped_run 1 (policy cfg) full_trace ∅ rs J).
Proof.
  split.
  - destruct (store_refines_deadline_map (P := gset addr) demo_cfg 0 0 demo_trace) as (s & H1 & H2 & _).
    + exact demo_cfg_ok.
    + vm_compute. split; [discriminate|reflexivity].
    + vm_compute. repeat split; discriminate.
    + destruct H2 as (s' & H2); [vm_compute; discriminate|]. exists s, s'. split; [exact H1|exact H2].
  - intros cfg Hcfg. destruct (store_refines_deadline_map (P := gset addr) cfg 0 0 full_trace) as (s & H1 & _ & H2).
    + destruct Hcfg as [-> | ->]; vm_compute; repeat split; discriminate.
    + vm_compute. split; [discriminate|reflexivity].
    + vm_compute. repeat split; discriminate.
    + destruct H2 as (rs & s' & J & H3 & H4). assert (config_cap cfg = 1) as Hone by (destruct Hcfg as [-> | ->]; reflexivity).
      rewrite Hone in H4. exists s, s', rs, J. split; [exact H1|]. split; [exact H3|exact H4].
Defined.

(** The second key is refused until the first has expired and was looked up. *)
Example full_replies :
  (let* s := Sto.make full_cfg 0 0 : result (Store (gset addr)) in
   let* (rs, _) := store_run full_trace s in Ok rs) = Ok [RBool true; RBool false; RVal None; RBool true].
Proof. vm_compute. reflexivity. Qed.

(** Or replaces the first, under the other policy. *)
Example lru_replies :
  (let* s := Sto.make lru_cfg 0 0 : result (Store (gset addr)) in
   let* (rs, _) := store_run full_trace s in Ok rs) = Ok [RBool true; RBool true; RVal None; RBool true].
Proof. vm_compute. reflexivity. Qed.

(** A store after a few operations, for the witnesses. *)
Definition demo_at (tr : list (Z * sop)) : result (Store (gset addr)) :=
  let* s := Sto.make demo_cfg 0 0 in
  let* (_, s) := store_run tr s in
  Ok s.

Lemma demo_at_Rep tr : trace_ok 0 tr → ∃ s M, demo_at tr = Ok s ∧ Rep s M.
Proof.
  intros Htr. unfold demo_at.
  destruct (make_Rep (P := gset addr) demo_cfg 0 0 demo_cfg_ok ltac:(vm_compute; split; [discriminate|reflexivity]))
    as (s & -> & HR & _). cbn [rbind].
  pose proof (rel_run tr 0 s ∅ ∅ (rel_start _ _ HR) Htr) as H.
  apply returns_inv in H as ([rs s'] & -> & M' & J' & t1 & _ & HS & _). exists s', M'. split; [done|apply HS].
Qed.

(** ** Single operations *)

(** C14: [set] on every branch.  It returns and keeps the invariant, so the key
    count never passes the cap.  A deadline in the past removes the key; a live
    key is overwritten in place, keeping its deadline under [kKeepTtl]; a new key
    is added when there is room; at the cap it is refused, with nothing else
    changed, under [kNoEviction], and makes room by one eviction round under
    [kAllKeysLru]. *)
Theorem set_outcome {P} `{!PoolAllocator P} (s : Store P) (M : kvmap) (k v : bytes) (x now : Z)
    (HR : Rep s M) (Hlen : zlen k + zlen v < 2 ^ 32) :
  ∃ b s' M', Sto.set k v x now s = Ok (b, s') ∧ Rep s' M' ∧ same_config s s' ∧
    set_effect k v x now s M b s' M'.
Proof.
  destruct HR as (bs & G & HI). pose proof (set_step _ _ _ _ k v x now HI Hlen) as H.
  apply returns_inv in H as ([b s'] & E & M' & HR' & Hc & He). by exists b, s', M'.
Qed.

Lemma set_outcome_witness :
  ∃ (s : Store (gset addr)), Sto.make demo_cfg 0 0 = Ok s ∧ Rep s ∅ ∧
    ∃ b s' M', Sto.set (bstr "k") (bstr "v") 500 100 s = Ok (b, s') ∧ Rep s' M' ∧
      b = true ∧ M' = {[bstr "k" := mkRec (bstr "v") 500 100]}.
Proof.
  destruct (make_Rep (P := gset addr) demo_cfg 0 0 demo_cfg_ok ltac:(vm_compute; split; [discriminate|reflexivity]))
    as (s & E & HR & _).
  exists s. split; [exact E|]. split; [exact HR|].
  destruct (set_outcome s ∅ (bstr "k") (bstr "v") 500 100 HR ltac:(vm_compute; reflexivity))
    as (b & s' & M' & H1 & H2 & _ & H3).
  exists b, s', M'. split; [exact H1|]. split; [exact H2|].
  vm_compute in E. injection E as <-. exact H3.
Defined.

(** The record a successful [set] left under [k]. *)
Lemma set_effect_lookup {P} `{!PoolAllocator P} (s s' : Store P) k v x now M M' :
  set_effect k v x now s M true s' M' → past x now = false →
  M' !! k = Some (set_record (live now k M) v x now).
Proof.
  unfold set_effect, set_new. intros He Hp. rewrite Hp in He. destruct (live now k M) as [r|].
  - destruct He as [_ ->]. by rewrite lookup_insert_eq.
  - destruct (_ <? _); [destruct He as [_ ->]; by rewrite lookup_insert_eq|].
    destruct (policy_ s); [by destruct He|]. destruct He as (_ & s1 & s2 & M2 & _ & _ & _ & _ & _ & ->). by rewrite lookup_insert_eq.
Qed.

(** C28: read your writes.  After a [set] that returned true with a deadline that
    is not past, a [get] returns the value at every later time up to the
    deadline, and nothing after it, even if the [set] had to evict. *)
Theorem set_then_get {P} `{!PoolAllocator P} (s s1 : Store P) (M : kvmap) (k v : bytes) (x now now' : Z)
    (HR : Rep s M) (Hlen : zlen k + zlen v < 2 ^ 32) (Hx : x ≠ kKeepTtl) (Hp : past x now = false)
    (Hset : Sto.set k v x now s = Ok (true, s1)) :
  ∃ s2, Sto.get k now' s1 = Ok (if deadline_passed now' x then None else Some v, s2).
Proof.
  destruct HR as (bs & G & HI). pose proof (set_step _ _ _ _ k v x now HI Hlen) as H. rewrite Hset in H.
  destruct H as (M1 & (bs1 & G1 & HI1) & _ & He). apply set_effect_lookup in He; [|done].
  pose proof (find_step _ _ _ _ k now' true HI1 ltac:(lia)) as Hf.
  unfold Sto.get. apply returns_inv in Hf as ([o s2] & -> & bs2 & G2 & M2 & HI2 & _ & Hm). cbn [rbind].
  unfold live at 1 in Hm. rewrite He in Hm. unfold set_record in Hm. rewrite (proj2 (Z.eqb_neq x kKeepTtl)) in Hm by done.
  unfold rec_expired in Hm. cbn [a_expires] in Hm. fold (deadline_passed now' x) in Hm.
  destruct (deadline_passed now' x).
  - destruct Hm as (-> & ->). by exists s2.
  - destruct Hm as (-> & a & -> & Hg). destruct (entry_of _ _ _ _ _ _ _ now' HI2 Hg) as (e & -> & Hrep & _).
    cbn [rbind]. rewrite (rep_value _ _ _ _ _ Hrep). cbn [rbind]. by exists s2.
Qed.

Lemma set_then_get_witness :
  ∃ (s s1 : Store (gset addr)), Sto.make demo_cfg 0 0 = Ok s ∧
    Sto.set (bstr "k") (bstr "v") 500 100 s = Ok (true, s1) ∧
    (∃ s2, Sto.get (bstr "k") 500 s1 = Ok (Some (bstr "v"), s2)) ∧
    (∃ s2, Sto.get (bstr "k") 501 s1 = Ok (None, s2)).
Proof.
  destruct (make_Rep (P := gset addr) demo_cfg 0 0 demo_cfg_ok ltac:(vm_compute; split; [discriminate|reflexivity]))
    as (s & E & HR & _).
  destruct (returns_inv (Sto.set (bstr "k") (bstr "v") 500 100 s) (λ '(b, _), b = true)) as [H _].
  destruct H as ([b s1] & Hset & ->).
  { vm_compute in E. injection E as <-. vm_compute. reflexivity. }
  exists s, s1. split; [exact E|]. split; [exact Hset|]. split.
  - apply (set_then_get s s1 ∅ (bstr "k") (bstr "v") 500 100 500 HR);
      [vm_compute; reflexivity|discriminate|reflexivity|exact Hset].
  - apply (set_then_get s s1 ∅ (bstr "k") (bstr "v") 500 100 501 HR);
      [vm_compute; reflexivity|discriminate|reflexivity|exact Hset].
Defined.

(** ** Eviction *)

(** C16: eviction makes room and chooses well.  On a non-empty store the sampling
    loop ends, with at most [lruSamples] different keys, and [evictOne] strictly
    shrinks the map.  If the deadline of a sampled key has passed, exactly the
    sampled keys of which that is true are removed, and counted as expired;
    otherwise exactly one key is, the longest idle of the sample, the first drawn
    when several are, and it is counted as an eviction. *)
Theorem eviction_policy {P} `{!PoolAllocator P} (s : Store P) (M : kvmap) (now : Z)
    (HR : Rep s M) (Hne : M ≠ ∅) :
  ∃ s' M', evictOne now s = Ok s' ∧ Rep s' M' ∧ (base.size M' < base.size M)%nat ∧ evicted now s s' M M'.
Proof.
  destruct HR as (bs & G & HI). pose proof (evictOne_spec now s bs G M HI) as H.
  assert (0 < base.size M)%nat as Hsz by (apply map_size_non_empty_iff in Hne; lia).
  specialize (H Hsz). apply returns_inv in H as (s' & E & bs' & G' & M' & HI' & _ & _ & Hlt & Hev).
  exists s', M'. split; [done|]. split; [by exists bs', G'|]. done.
Qed.

(** Three keys: ["c"] is the longest idle, and ["b"] expires at 150. *)
Definition three_keys : list (Z * sop) :=
  [(100, SSet (bstr "c") (bstr "3") kNoExpiry); (101, SSet (bstr "b") (bstr "2") 150);
   (102, SSet (bstr "a") (bstr "1") kNoExpiry); (120, SGet (bstr "a"))].

Lemma eviction_policy_witness :
  ∃ s M, demo_at three_keys = Ok s ∧ Sto.size s = 3 ∧ Rep s M ∧
    (∃ s' M', evictOne 130 s = Ok s' ∧ Rep s' M' ∧ (base.size M' < base.size M)%nat ∧ evicted 130 s s' M M') ∧
    (∃ s' M', evictOne 200 s = Ok s' ∧ Rep s' M' ∧ (base.size M' < base.size M)%nat ∧ evicted 200 s s' M M').
Proof.
  destruct (demo_at_Rep three_keys) as (s & M & E & HR); [vm_compute; repeat split; discriminate|].
  assert (match demo_at three_keys with Ok s => Sto.size s =? 3 | Fault _ => false end = true) as H3 by (vm_compute; reflexivity).
  rewrite E in H3. apply Z.eqb_eq in H3. exists s, M. split; [exact E|]. split; [exact H3|]. split; [exact HR|].
  assert (M ≠ ∅) as Hne.
  { intros ->. destruct (Rep_size _ _ HR) as [Hs _]. rewrite H3 in Hs. vm_compute in Hs. discriminate Hs. }
  split; [exact (eviction_policy s M 130 HR Hne)|exact (eviction_policy s M 200 HR Hne)].
Defined.

(** What is drawn at 130 and at 200 is the same; the longest idle key goes, or the
    expired one. *)
Example eviction_demo :
  (let* s := demo_at three_keys in
   let* (ks, _) := draw s in
   let left t := (let* s := evictOne t s in
                  let* (rs, _) := store_run ((pair t ∘ SGet) <$> [bstr "a"; bstr "b"; bstr "c"]) s in Ok rs) in
   let* l1 := left 130 in
   let* l2 := left 200 in
   Ok (ks, l1, l2)) =
  Ok ([bstr "a"; bstr "b"; bstr "c"],
      [RVal (Some (bstr "1")); RVal (Some (bstr "2")); RVal None],
      [RVal (Some (bstr "1")); RVal None; RVal (Some (bstr "3"))]).
Proof. vm_compute. reflexivity. Qed.

(** The 32-bit clock.  For an entry last used at [t], the idle time of
    eviction is the true difference as long as less than [2 ^ 32] milliseconds
    have passed, across a rollover of the clock too. *)
Theorem idle_survives_rollover (e : Entry) (t now : Z)
    (Hlru : lruClock e = u32 t) (Hgap : 0 ≤ now - t < 2 ^ 32) :
  idle e now = now - t.
Proof.
  unfold idle. rewrite Hlru. unfold u32. rewrite <-Zminus_mod. by apply Z.mod_small.
Qed.

Lemma idle_survives_rollover_witness :
  let e := set_lruClock (u32 4294967290) raw in
  lruClock e = u32 4294967290 ∧ 0 ≤ 4294967306 - 4294967290 < 2 ^ 32 ∧ idle e 4294967306 = 16.
Proof.
  set (e := set_lruClock (u32 4294967290) raw). split; [reflexivity|]. split; [lia|].
  apply (idle_survives_rollover e 4294967290 4294967306); [reflexivity|lia].
Defined.

(** ** The expire cycle *)

(** C25: one call of the active expire cycle.  It returns within sixteen passes,
    removes only keys whose deadline has passed, reports exactly how many, and
    adds that number to the expired-key counter; everything else about the store
    is unchanged. *)
Theorem expire_cycle_sound {P} `{!PoolAllocator P} (s : Store P) (M : kvmap) (now limit : Z)
    (HR : Rep s M) (Hl : 1 ≤ limit ≤ 2 ^ 58) (Hx : 0 ≤ expiredKeys_ s < 2 ^ 64) :
  ∃ res s' M', activeExpireCycle now limit s = Ok (res, s') ∧ Rep s' M' ∧
    only_expired now M M' ∧ 1 ≤ passes res ≤ kMaxPasses ∧
    reaped res = Z.of_nat (base.size M) - Z.of_nat (base.size M') ∧
    expiredKeys s' = u64 (expiredKeys s + reaped res) ∧
    same_config s s' ∧ evictions s' = evictions s.
Proof.
  destruct HR as (bs & G & HI). destruct (inv_sweeping _ _ _ _ HI) as (n & Hn & HW).
  pose proof (activeExpireCycle_step n _ now limit s bs G M Hn HW Hl) as H.
  apply returns_inv in H as ([res s'] & E & q' & [C1 (bs' & G' & C2) (C3 & C3b & _) C4 C5 C6 C7 C8]).
  set (M' := swept _ _ _ _ _) in *. exists res, s', M'. split; [done|].
  split; [exists bs', G'; apply C2|]. split; [apply swept_only_expired|].
  change kMaxPasses with 16. split; [lia|]. split; [lia|].
  split; [|done]. unfold expiredKeys. rewrite (C6 Hx). f_equal. lia.
Qed.

(** Two keys, one of which expires at 150. *)
Definition two_keys : list (Z * sop) :=
  [(100, SSet (bstr "a") (bstr "1") 150); (101, SSet (bstr "b") (bstr "2") kNoExpiry)].

Lemma two_keys_built : ∃ s M, demo_at two_keys = Ok s ∧ Rep s M ∧ Sto.size s = 2 ∧ Sto.bucketCount s = 4 ∧ expiredKeys_ s = 0.
Proof.
  destruct (demo_at_Rep two_keys) as (s & M & E & HR); [vm_compute; repeat split; discriminate|].
  assert (match demo_at two_keys with
          | Ok s => (Sto.size s =? 2) && (Sto.bucketCount s =? 4) && (expiredKeys_ s =? 0)
          | Fault _ => false end = true) as H by (vm_compute; reflexivity).
  rewrite E in H. apply andb_true_iff in H as [[H1%Z.eqb_eq H2%Z.eqb_eq]%andb_true_iff H3%Z.eqb_eq]. exists s, M. split; [exact E|]. split; [exact HR|]. split; [exact H1|]. split; [exact H2|exact H3].
Qed.

Lemma expire_cycle_sound_witness :
  ∃ s M, demo_at two_keys = Ok s ∧ Rep s M ∧ Sto.size s = 2 ∧
    ∃ res s' M', activeExpireCycle 200 20 s = Ok (res, s') ∧ Rep s' M' ∧ only_expired 200 M M' ∧
      reaped res = 2 - Z.of_nat (base.size M').
Proof.
  destruct two_keys_built as (s & M & E & HR & Hs & _ & Hx). exists s, M. split; [exact E|]. split; [exact HR|]. split; [exact Hs|].
  destruct (expire_cycle_sound s M 200 20 HR) as (res & s' & M' & H1 & H2 & H3 & _ & H4 & _).
  - vm_compute. split; discriminate.
  - rewrite Hx. lia.
  - exists res, s', M'. split; [exact H1|]. split; [exact H2|]. split; [exact H3|].
    destruct (Rep_size _ _ HR) as [Hsz _]. rewrite Hs in Hsz. rewrite H4, <-Hsz. reflexivity.
Defined.

(** One cycle removes the expired key here. *)
Example expire_demo :
  (let* s := demo_at two_keys in
   let* (res, s) := activeExpireCycle 200 20 s in
   Ok (reaped res, Sto.size s)) = Ok (1, 1).
Proof. vm_compute. reflexivity. Qed.

(** C15: nothing expired survives.  Whatever the cursor's position and the sample
    limit, twice as many calls as there are buckets, at any times from [t0] to
    [t1], return and leave no key whose deadline has passed by [t0], and remove
    none whose deadline has not passed by [t1]; at one time they leave exactly the
    keys whose deadline has not passed. *)
Theorem expire_cycles_complete {P} `{!PoolAllocator P} (s : Store P) (M : kvmap) (times : list Z) (t0 t1 limit : Z)
    (HR : Rep s M) (Hl : 1 ≤ limit ≤ 2 ^ 58) (HT : Forall (λ t, t0 ≤ t ≤ t1) times)
    (Hlen : 2 * Sto.bucketCount s ≤ zlen times) :
  ∃ s' M', cycles times limit s = Ok s' ∧ Rep s' M' ∧ reaped_by t0 t1 M M' ∧
    (t0 = t1 → M' = filter (λ kr, rec_expired t0 kr.2 = false) M).
Proof.
  pose proof (cycles_reap_all times t0 t1 limit s M HR Hl HT Hlen) as H.
  apply returns_inv in H as (s' & E & M' & HR' & HM). exists s', M'. split; [done|]. split; [done|]. split; [done|].
  intros <-. by apply reaped_at.
Qed.

Lemma expire_cycles_complete_witness :
  ∃ s M, demo_at two_keys = Ok s ∧ Rep s M ∧ Sto.size s = 2 ∧
    ∃ s' M', cycles (repeat 200 4 ++ repeat 201 4) 1 s = Ok s' ∧ Rep s' M' ∧ reaped_by 200 201 M M'.
Proof.
  destruct two_keys_built as (s & M & E & HR & Hs & Hb & _). exists s, M. split; [exact E|]. split; [exact HR|]. split; [exact Hs|].
  destruct (expire_cycles_complete s M (repeat 200 4 ++ repeat 201 4) 200 201 1 HR) as (s' & M' & H1 & H2 & H3 & _).
  - vm_compute. split; discriminate.
  - apply Forall_app. split; apply Forall_forall; intros t Ht%list_elem_of_In%repeat_spec; lia.
  - rewrite Hb. vm_compute. discriminate.
  - exists s', M'. split; [exact H1|]. split; [exact H2|exact H3].
Defined.

End StoProps.
