(* ===== verification/Command.v ===== *)
(** * Command dispatch ([src/core/command.h], [src/core/command.cpp])

    The command table, argument checks, and one handler per command, each taking
    the store and the output buffer it changes. *)

From Stdlib Require Import ZArith Lia Strings.Byte.
From stdpp Require Import base list gmap numbers strings.
From S2P Require Import Prelude Buffer Resp Entry Table Store.

Local Open Scope Z_scope.

Module Cmds.

(** ** The command table *)

Inductive DispatchResult := kContinue | kCloseConnection.

Inductive Cmd :=
| kGet | kSet | kDel | kExists | kExpire | kTtl | kPing | kEcho | kDbsize | kFlushall | kQuit.

Record Spec := mkSpec { name : bytes; cmd : Cmd; arity : Z }.

Definition kSpecs : list Spec := [
  mkSpec (bstr "get") kGet 2;
  mkSpec (bstr "set") kSet (-3);
  mkSpec (bstr "del") kDel (-2);
  mkSpec (bstr "exists") kExists (-2);
  mkSpec (bstr "expire") kExpire 3;
  mkSpec (bstr "ttl") kTtl 2;
  mkSpec (bstr "ping") kPing (-1);
  mkSpec (bstr "echo") kEcho 2;
  mkSpec (bstr "dbsize") kDbsize 1;
  mkSpec (bstr "flushall") kFlushall (-1);
  mkSpec (bstr "quit") kQuit (-1)
].

Definition kMsPerSec : Z := 1000.

Definition kNotInteger : bytes := bstr "ERR value is not an integer or out of range".
Definition kSyntax : bytes := bstr "ERR syntax error".
Definition kOom : bytes := bstr "OOM command not allowed when used memory > 'maxmemory'.".

Definition lower (c : byte) : byte :=
  if (code "A"%byte <=? code c) && (code c <=? code "Z"%byte)
  then byte_of_code (code c - code "A"%byte + code "a"%byte) else c.

Fixpoint iequals_loop (s lowerRef : bytes) : bool :=
  match s, lowerRef with
  | c :: s, r :: lowerRef => if negb (is_byte r (lower c)) then false else iequals_loop s lowerRef
  | _, _ => true
  end.

Definition iequals (s lowerRef : bytes) : bool :=
  if negb (zlen s =? zlen lowerRef) then false else iequals_loop s lowerRef.

Fixpoint lookup_loop (specs : list Spec) (n : bytes) : option Spec :=
  match specs with
  | [] => None
  | s :: specs => if iequals n (name s) then Some s else lookup_loop specs n
  end.

Definition lookup (n : bytes) : option Spec := lookup_loop kSpecs n.

Definition arityOk (spec : Spec) (argc : Z) : bool :=
  if 0 <? arity spec then argc =? arity spec else - arity spec <=? argc.

(** ** Integers *)

Definition is_digit (c : byte) : bool :=
  (code "0"%byte <=? code c) && (code c <=? code "9"%byte).

(** The longest prefix of digits. *)
Fixpoint digits_prefix (s : bytes) : bytes :=
  match s with
  | c :: s => if is_digit c then c :: digits_prefix s else []
  | [] => []
  end.

Definition digits_value (s : bytes) : Z := foldl (λ v c, v * 10 + (code c - code "0"%byte)) 0 s.

(** [std::from_chars], base 10, on a signed 64-bit target: the value and the
    number of bytes matched; [None] for either error code.  A leading minus sign
    is accepted, a plus sign is not. *)
Definition from_chars (s : bytes) : option (Z * Z) :=
  let '(neg, body) := match s with
                      | c :: t => if is_byte "-"%byte c then (true, t) else (false, s)
                      | [] => (false, s)
                      end in
  let ds := digits_prefix body in
  if bool_decide (ds = []) then None
  else
    let v := if neg : bool then - digits_value ds else digits_value ds in
    if (INT64_MIN <=? v) && (v <=? INT64_MAX)
    then Some (v, zlen ds + (if neg then 1 else 0)) else None.

Definition parseInt (s : bytes) : option Z :=
  match from_chars s with
  | None => None
  | Some (v, n) => if negb (n =? zlen s) || bool_decide (s = []) then None else Some v
  end.

Definition int64 (z : Z) : result Z :=
  check (INT64_MIN <=? z) && (z <=? INT64_MAX) or FOverflow;
  Ok z.

Definition deadline (n unitMs now : Z) : result (option Z) :=
  let* room := int64 (INT64_MAX - now) in
  if Z.quot room unitMs <? n then Ok None
  else
    let* d := int64 (n * unitMs) in
    let* at_ms := int64 (now + d) in
    Ok (Some at_ms).

(** ** Error replies *)

Definition appendSanitized (dst s : bytes) : bytes :=
  dst ++ ((λ c, if is_byte CR c || is_byte LF c then " "%byte else c) <$> take 128 s).

(** [cmd[i]]: unchecked access to the argument array. *)
Definition arg (c : Command) (i : Z) : result bytes := at_ (argv c) i.

Fixpoint unknown_args (todo : nat) (c : Command) (i : Z) (msg : bytes) : result bytes :=
  match todo with
  | O => Ok msg
  | S todo =>
      let msg := msg ++ bstr "'" in
      let* a := arg c i in
      let msg := appendSanitized msg a in
      let msg := msg ++ bstr "' " in
      unknown_args todo c (i + 1) msg
  end.

Definition unknownCommand (c : Command) (out : Buf.Buffer) : result Buf.Buffer :=
  let msg := bstr "ERR unknown command '" in
  let* a := arg c 0 in
  let msg := appendSanitized msg a in
  let msg := msg ++ bstr "', with args beginning with: " in
  let* msg := unknown_args (Z.to_nat (argc c - 1)) c 1 msg in
  reply.error msg out.

Definition wrongArity (n : bytes) (out : Buf.Buffer) : result Buf.Buffer :=
  reply.error (bstr "ERR wrong number of arguments for '" ++ n ++ bstr "' command") out.

Definition invalidExpire (n : bytes) (out : Buf.Buffer) : result Buf.Buffer :=
  reply.error (bstr "ERR invalid expire time in '" ++ n ++ bstr "' command") out.

(** ** Handlers *)

Section handlers.
Context {P : Type} `{!PoolAllocator P}.

(** What the option loop of [cmdSet] decides: the deadline to store, or the error
    to send. *)
Inductive SetOpts :=
| Opts (expireAt : Z)
| OptError (send : Buf.Buffer → result Buf.Buffer).

(** The option loop of [cmdSet] from index [i]; each round moves [i] on, so
    [argc] bounds the rounds. *)
Fixpoint set_opts (fuel : nat) (c : Command) (now i expireAt : Z) (haveExpiryOpt : bool) : result SetOpts :=
  match fuel with
  | O => Fault FFuel
  | S fuel =>
      if i <? argc c then
        let* opt := arg c i in
        if iequals opt (bstr "keepttl") && negb haveExpiryOpt then
          set_opts fuel c now (i + 1) Sto.kKeepTtl true
        else
          let ex := iequals opt (bstr "ex") in
          if negb (ex || iequals opt (bstr "px")) || haveExpiryOpt || (argc c <=? i + 1) then
            Ok (OptError (reply.error kSyntax))
          else
            let i := i + 1 in
            let* a := arg c i in
            match parseInt a with
            | None => Ok (OptError (reply.error kNotInteger))
            | Some n =>
                let* at_ms := (if 0 <? n then deadline n (if ex then kMsPerSec else 1) now else Ok None) in
                match at_ms with
                | None => Ok (OptError (invalidExpire (bstr "set")))
                | Some at_ms => set_opts fuel c now (i + 1) at_ms true
                end
            end
      else Ok (Opts expireAt)
  end.

Definition cmdSet (store : Sto.Store P) (c : Command) (now : Z) (out : Buf.Buffer) :
    result (Sto.Store P * Buf.Buffer) :=
  let* o := set_opts (S (Z.to_nat (argc c))) c now 3 kNoExpiry false in
  match o with
  | OptError send => let* out := send out in Ok (store, out)
  | Opts expireAt =>
      let* k := arg c 1 in
      let* v := arg c 2 in
      let* (b, store) := Sto.set k v expireAt now store in
      if negb b then let* out := reply.error kOom out in Ok (store, out)
      else let* out := reply.simpleString (bstr "OK") out in Ok (store, out)
  end.

Definition cmdExpire (store : Sto.Store P) (c : Command) (now : Z) (out : Buf.Buffer) :
    result (Sto.Store P * Buf.Buffer) :=
  let* a := arg c 2 in
  match parseInt a with
  | None => let* out := reply.error kNotInteger out in Ok (store, out)
  | Some secs =>
      let* k := arg c 1 in
      if secs <=? 0 then
        let* (b, store) := Sto.erase k now store in
        let* out := reply.integer (if b : bool then 1 else 0) out in
        Ok (store, out)
      else
        let* at_ms := deadline secs kMsPerSec now in
        match at_ms with
        | None => let* out := invalidExpire (bstr "expire") out in Ok (store, out)
        | Some at_ms =>
            let* (b, store) := Sto.setExpireAt k at_ms now store in
            let* out := reply.integer (if b : bool then 1 else 0) out in
            Ok (store, out)
        end
  end.

Definition cmdTtl (store : Sto.Store P) (c : Command) (now : Z) (out : Buf.Buffer) :
    result (Sto.Store P * Buf.Buffer) :=
  let* k := arg c 1 in
  let* (ms, store) := Sto.ttlMs k now store in
  let* secs := (if ms <? 0 then Ok ms
                else let* rounded := int64 (ms + Z.quot kMsPerSec 2) in Ok (Z.quot rounded kMsPerSec)) in
  let* out := reply.integer secs out in
  Ok (store, out).

Definition cmdGet (store : Sto.Store P) (c : Command) (now : Z) (out : Buf.Buffer) :
    result (Sto.Store P * Buf.Buffer) :=
  let* k := arg c 1 in
  let* (e, store) := Sto.find k now true store in
  match e with
  | None => let* out := reply.nullBulk out in Ok (store, out)
  | Some a =>
      let* x := Tbl.entry_at (Sto.table_ store) a in
      let* v := Ent.value (Tbl.blocks (Sto.table_ store)) x in
      let* out := reply.bulk v out in
      Ok (store, out)
  end.

Fixpoint del_loop (todo : nat) (c : Command) (now i n : Z) (store : Sto.Store P) :
    result (Z * Sto.Store P) :=
  match todo with
  | O => Ok (n, store)
  | S todo =>
      let* k := arg c i in
      let* (b, store) := Sto.erase k now store in
      del_loop todo c now (i + 1) (n + (if b : bool then 1 else 0)) store
  end.

Definition cmdDel (store : Sto.Store P) (c : Command) (now : Z) (out : Buf.Buffer) :
    result (Sto.Store P * Buf.Buffer) :=
  let* (n, store) := del_loop (Z.to_nat (argc c - 1)) c now 1 0 store in
  let* out := reply.integer n out in
  Ok (store, out).

Fixpoint exists_loop (todo : nat) (c : Command) (now i n : Z) (store : Sto.Store P) :
    result (Z * Sto.Store P) :=
  match todo with
  | O => Ok (n, store)
  | S todo =>
      let* k := arg c i in
      let* (e, store) := Sto.find k now false store in
      exists_loop todo c now (i + 1) (n + (if bool_decide (is_Some e) then 1 else 0)) store
  end.

Definition cmdExists (store : Sto.Store P) (c : Command) (now : Z) (out : Buf.Buffer) :
    result (Sto.Store P * Buf.Buffer) :=
  let* (n, store) := exists_loop (Z.to_nat (argc c - 1)) c now 1 0 store in
  let* out := reply.integer n out in
  Ok (store, out).

Definition cmdPing (c : Command) (out : Buf.Buffer) : result Buf.Buffer :=
  if 2 <? argc c then wrongArity (bstr "ping") out
  else if argc c =? 2 then let* a := arg c 1 in reply.bulk a out
  else reply.simpleString (bstr "PONG") out.

Definition cmdFlushall (store : Sto.Store P) (c : Command) (out : Buf.Buffer) :
    result (Sto.Store P * Buf.Buffer) :=
  let* bad :=
    (if 2 <? argc c then Ok true
     else if argc c =? 2 then
       let* a := arg c 1 in Ok (negb (iequals a (bstr "async")) && negb (iequals a (bstr "sync")))
     else Ok false) in
  if bad : bool then let* out := reply.error kSyntax out in Ok (store, out)
  else
    let* store := Sto.clear store in
    let* out := reply.simpleString (bstr "OK") out in
    Ok (store, out).

(** A handler's state as [dispatch] returns it. *)
Definition continue_ (r : result (Sto.Store P * Buf.Buffer)) : result (DispatchResult * Sto.Store P * Buf.Buffer) :=
  let* (store, out) := r in Ok (kContinue, store, out).

Definition reply_only (store : Sto.Store P) (r : result Buf.Buffer) : result (Sto.Store P * Buf.Buffer) :=
  let* out := r in Ok (store, out).

Definition dispatch (store : Sto.Store P) (c : Command) (now : Z) (out : Buf.Buffer) :
    result (DispatchResult * Sto.Store P * Buf.Buffer) :=
  if argc c =? 0 then Ok (kContinue, store, out)
  else
    let* n := arg c 0 in
    match lookup n with
    | None => continue_ (reply_only store (unknownCommand c out))
    | Some spec =>
        if negb (arityOk spec (argc c)) then continue_ (reply_only store (wrongArity (name spec) out))
        else
          match cmd spec with
          | kGet => continue_ (cmdGet store c now out)
          | kSet => continue_ (cmdSet store c now out)
          | kDel => continue_ (cmdDel store c now out)
          | kExists => continue_ (cmdExists store c now out)
          | kExpire => continue_ (cmdExpire store c now out)
          | kTtl => continue_ (cmdTtl store c now out)
          | kPing => continue_ (reply_only store (cmdPing c out))
          | kEcho => continue_ (reply_only store (let* a := arg c 1 in reply.bulk a out))
          | kDbsize => continue_ (reply_only store (reply.integer (Sto.size store) out))
          | kFlushall => continue_ (cmdFlushall store c out)
          | kQuit => let* out := reply.simpleString (bstr "OK") out in Ok (kCloseConnection, store, out)
          end
    end.

End handlers.

(** ** Examples *)

(** Runs inline commands, one per line, at given times; the bytes sent back. *)
Fixpoint session {P} `{!PoolAllocator P} (l : list (Z * string)) (s : Sto.Store P) (out : Buf.Buffer) :
    result bytes :=
  match l with
  | [] => Ok (Buf.readable out)
  | (now, line) :: l =>
      let* (r, c) := parseCommand (crlf_text line) emptyCommand in
      let* (p, out) := dispatch s c now out in
      session l p.2 out
  end.

Example session_demo :
  (let* s := Sto.make (Sto.mkConfig 4 0 7 5 Sto.kNoEviction) 0 0 : result (Sto.Store (gset addr)) in
   session [(1000, "SET k v EX 10|"%string); (2000, "TTL k|"%string); (2000, "get k|"%string);
            (3000, "EXPIRE k -1|"%string); (3000, "EXISTS k k|"%string); (3000, "SET k|"%string);
            (3000, "BLA 1|"%string)] s (Buf.mk [] 0 0)) =
  Ok (crlf_text "+OK|:9|$1|v|:1|:0|-ERR wrong number of arguments for 'set' command|-ERR unknown command 'BLA', with args beginning with: '1' |").
Proof. vm_compute. reflexivity. Qed.

End Cmds.
