(* ===== verification/CommandSpec.v ===== *)
(** * What each request means

    Replies as values, with their wire form and a client's decoder; and the
    meaning of a request: the store operations it stands for and the reply their
    results give.  The dispatcher is proved to run exactly that. *)

From Stdlib Require Import ZArith Lia Strings.Byte.
From stdpp Require Import base gmap numbers list strings.
From S2P Require Import Prelude Buffer Resp RespSpec RespFacts RespWire RespProps Entry Table.
From S2P Require Import Store StoreOps StoreSpec Command.

Local Open Scope Z_scope.

(** ** Replies *)

Inductive Reply :=
| Simple (s : bytes)
| Err (s : bytes)
| Int (z : Z)
| Bulk (s : bytes)
| Null.

Definition encode_reply (r : Reply) : bytes :=
  match r with
  | Simple s => "+"%byte :: s ++ CRLF
  | Err s => "-"%byte :: s ++ CRLF
  | Int z => ":"%byte :: to_chars z ++ CRLF
  | Bulk s => encode_bulk s
  | Null => bstr "$-1" ++ CRLF
  end.

Definition plain (c : byte) : Prop := c ≠ CR ∧ c ≠ LF.

(** A reply the wire format can carry. *)
Definition wf_reply (r : Reply) : Prop :=
  match r with
  | Simple s | Err s => Forall plain s
  | Int z => INT64_MIN ≤ z ≤ INT64_MAX
  | Bulk s => zlen s ≤ INT64_MAX
  | Null => True
  end.

(** The encoder for each kind of reply. *)
Definition emit_reply (r : Reply) : Buf.Buffer → result Buf.Buffer :=
  match r with
  | Simple s => reply.simpleString s
  | Err s => reply.error s
  | Int z => reply.integer z
  | Bulk s => reply.bulk s
  | Null => reply.nullBulk
  end.

(** A client: the line up to the first CRLF, and the reply it opens. *)
Fixpoint take_line (s : bytes) : option (bytes * bytes) :=
  match s with
  | [] => None
  | c :: s =>
      if is_byte CR c then
        match s with
        | d :: s => if is_byte LF d then Some ([], s) else None
        | [] => None
        end
      else match take_line s with Some (l, rest) => Some (c :: l, rest) | None => None end
  end.

(** An integer in its one decimal form. *)
Definition decode_int (l : bytes) : option Z :=
  match Cmds.parseInt l with
  | Some z => if bool_decide (to_chars z = l) then Some z else None
  | None => None
  end.

Definition decode_bulk (len : Z) (s : bytes) : option (Reply * bytes) :=
  if len =? -1 then Some (Null, s)
  else if (0 <=? len) && (len + 2 <=? zlen s) then
    if bool_decide (slice s len 2 = CRLF)
    then Some (Bulk (take (Z.to_nat len) s), drop (Z.to_nat (len + 2)) s) else None
  else None.

Definition decode_reply (s : bytes) : option (Reply * bytes) :=
  match s with
  | [] => None
  | t :: s =>
      match take_line s with
      | None => None
      | Some (l, rest) =>
          if is_byte "+"%byte t then Some (Simple l, rest)
          else if is_byte "-"%byte t then Some (Err l, rest)
          else if is_byte ":"%byte t then
            match decode_int l with Some z => Some (Int z, rest) | None => None end
          else if is_byte "$"%byte t then
            match decode_int l with Some len => decode_bulk len rest | None => None end
          else None
      end
  end.

(** All replies of a stream; each takes at least one byte. *)
Fixpoint decode_replies (fuel : nat) (s : bytes) : option (list Reply) :=
  match s, fuel with
  | [], _ => Some []
  | _, O => None
  | _, S fuel =>
      match decode_reply s with
      | Some (r, rest) =>
          match decode_replies fuel rest with Some rs => Some (r :: rs) | None => None end
      | None => None
      end
  end.

Definition decode_stream (s : bytes) : option (list Reply) := decode_replies (length s) s.

(** ** Requests *)

(** The operations on the store, in order, and the reply to their results. *)
Record meaning := Means { ops : list sop; answer : list sreply → result Reply; closes : bool }.

Definition says (r : Reply) : meaning := Means [] (λ _, Ok r) false.

Definition wrong_arity (n : bytes) : meaning :=
  says (Err (bstr "ERR wrong number of arguments for '" ++ n ++ bstr "' command")).
Definition invalid_expire (n : bytes) : bytes := bstr "ERR invalid expire time in '" ++ n ++ bstr "' command".

(** A result counts 1 when it is true. *)
Definition truth (r : sreply) : Z := match r with RBool true => 1 | _ => 0 end.
Definition count_true (rs : list sreply) : result Reply := Ok (Int (foldr Z.add 0 (truth <$> rs))).

Definition get_means (k : bytes) : meaning :=
  Means [SGet k] (λ rs, Ok (match rs with [RVal (Some v)] => Bulk v | _ => Null end)) false.

(** The deadline the options of SET ask for, or the error they deserve. *)
Definition set_deadline (now : Z) (opts : list bytes) : Z + bytes :=
  match opts with
  | [] => inl kNoExpiry
  | o :: rest =>
      let o := Cmds.lower <$> o in
      let only (x : Z) : Z + bytes := match rest with [] => inl x | _ => inr Cmds.kSyntax end in
      if bool_decide (o = bstr "keepttl") then only Sto.kKeepTtl
      else if bool_decide (o = bstr "ex" ∨ o = bstr "px") then
        match rest with
        | [] => inr Cmds.kSyntax
        | a :: rest =>
            match Cmds.parseInt a with
            | None => inr Cmds.kNotInteger
            | Some n =>
                let at_ms := now + n * (if bool_decide (o = bstr "ex") then 1000 else 1) in
                if (0 <? n) && (at_ms <=? INT64_MAX)
                then match rest with [] => inl at_ms | _ => inr Cmds.kSyntax end
                else inr (invalid_expire (bstr "set"))
            end
        end
      else inr Cmds.kSyntax
  end.

Definition set_means (now : Z) (k v : bytes) (opts : list bytes) : meaning :=
  match set_deadline now opts with
  | inr e => says (Err e)
  | inl x =>
      Means [SSet k v x]
        (λ rs, Ok (match rs with [RBool true] => Simple (bstr "OK") | _ => Err Cmds.kOom end)) false
  end.

Definition expire_means (now : Z) (k secs : bytes) : meaning :=
  match Cmds.parseInt secs with
  | None => says (Err Cmds.kNotInteger)
  | Some n =>
      if n <=? 0 then Means [SDel k] count_true false
      else if now + n * 1000 <=? INT64_MAX then Means [SExpire k (now + n * 1000)] count_true false
      else says (Err (invalid_expire (bstr "expire")))
  end.

(** The remaining time in seconds, rounded; the sum is a 64-bit one. *)
Definition ttl_means (k : bytes) : meaning :=
  Means [STtl k]
    (λ rs, match rs with
           | [RInt ms] =>
               if ms <? 0 then Ok (Int ms)
               else let* r := Cmds.int64 (ms + 500) in Ok (Int (Z.quot r 1000))
           | _ => Ok Null
           end) false.

(** An argument echoed in an error: at most 128 bytes, on one line. *)
Definition sanitized (s : bytes) : bytes :=
  (λ c, if is_byte CR c || is_byte LF c then " "%byte else c) <$> take 128 s.

Definition unknown_text (n : bytes) (rest : list bytes) : bytes :=
  bstr "ERR unknown command '" ++ sanitized n ++ bstr "', with args beginning with: " ++
  mjoin ((λ a, bstr "'" ++ sanitized a ++ bstr "' ") <$> rest).

(** The request [args] at time [now], on a store holding [n] keys. *)
Definition request_means (now n : Z) (args : list bytes) : meaning :=
  match args with
  | [] => says Null
  | name :: rest =>
      let c := Cmds.lower <$> name in
      if bool_decide (c = bstr "get") then
        match rest with [k] => get_means k | _ => wrong_arity c end
      else if bool_decide (c = bstr "set") then
        match rest with k :: v :: opts => set_means now k v opts | _ => wrong_arity c end
      else if bool_decide (c = bstr "del") then
        match rest with [] => wrong_arity c | _ => Means (SDel <$> rest) count_true false end
      else if bool_decide (c = bstr "exists") then
        match rest with [] => wrong_arity c | _ => Means (SExists <$> rest) count_true false end
      else if bool_decide (c = bstr "expire") then
        match rest with [k; secs] => expire_means now k secs | _ => wrong_arity c end
      else if bool_decide (c = bstr "ttl") then
        match rest with [k] => ttl_means k | _ => wrong_arity c end
      else if bool_decide (c = bstr "ping") then
        match rest with
        | [] => says (Simple (bstr "PONG"))
        | [m] => says (Bulk m)
        | _ => wrong_arity c
        end
      else if bool_decide (c = bstr "echo") then
        match rest with [m] => says (Bulk m) | _ => wrong_arity c end
      else if bool_decide (c = bstr "dbsize") then
        match rest with [] => says (Int n) | _ => wrong_arity c end
      else if bool_decide (c = bstr "flushall") then
        let flush := Means [SClear] (λ _, Ok (Simple (bstr "OK"))) false in
        match rest with
        | [] => flush
        | [o] => if bool_decide (Cmds.lower <$> o = bstr "async" ∨ Cmds.lower <$> o = bstr "sync")
                 then flush else says (Err Cmds.kSyntax)
        | _ => says (Err Cmds.kSyntax)
        end
      else if bool_decide (c = bstr "quit") then Means [] (λ _, Ok (Simple (bstr "OK"))) true
      else says (Err (unknown_text name rest))
  end.

(** Running a meaning on the store. *)
Definition interpret {P} `{!PoolAllocator P} (m : meaning) (now : Z) (s : Sto.Store P) (out : Buf.Buffer) :
    result (Cmds.DispatchResult * Sto.Store P * Buf.Buffer) :=
  let* (rs, s) := StoSpec.store_run (pair now <$> ops m) s in
  let* r := answer m rs in
  let* out := emit_reply r out in
  Ok (if closes m then Cmds.kCloseConnection else Cmds.kContinue, s, out).

Module CmdSpec.
Import Cmds.

(** ** Names and options *)

Lemma iequals_loop_spec s r : length s = length r → iequals_loop s r = bool_decide (lower <$> s = r).
Proof.
  revert r. induction s as [|c s IH]; intros [|d r] Hl; try done. cbn [iequals_loop fmap list_fmap].
  destruct (is_byte d (lower c)) eqn:E.
  - apply is_byte_true in E as <-. cbn [negb]. rewrite IH by (cbn in Hl; lia).
    apply bool_decide_ext. split; [by intros <-|by intros [= ->]].
  - cbn [negb]. rewrite bool_decide_false; [done|]. intros [= H _]. by apply is_byte_false in E.
Qed.

Lemma iequals_spec s r : iequals s r = bool_decide (lower <$> s = r).
Proof.
  unfold iequals. destruct (Z.eqb_spec (zlen s) (zlen r)) as [H|H]; cbn [negb].
  - apply iequals_loop_spec. lia.
  - rewrite bool_decide_false; [done|]. intros <-. rewrite length_fmap in H. lia.
Qed.

(** ** Arguments *)

Lemma argc_of args : argc (command_of args) = zlen args.
Proof. done. Qed.

Lemma arg_of args i a : 0 ≤ i → args !! Z.to_nat i = Some a → arg (command_of args) i = Ok a.
Proof.
  intros Hi Ha. unfold arg. apply at_Ok. split; [done|]. cbn [command_of argv].
  by apply lookup_app_l_Some.
Qed.

(** ** Integers *)

Lemma digits_prefix_all s : Forall (λ c, 48 ≤ code c ≤ 57) s → digits_prefix s = s.
Proof.
  induction 1 as [|c s Hc _ IH]; [done|]. cbn [digits_prefix]. unfold is_digit.
  change (code "0") with 48. change (code "9") with 57.
  rewrite (proj2 (Z.leb_le 48 _)), (proj2 (Z.leb_le _ 57)) by lia. cbn [andb]. by rewrite IH.
Qed.

Lemma digits_prefix_spec s : Forall (λ c, 48 ≤ code c ≤ 57) (digits_prefix s) ∧ digits_prefix s `prefix_of` s.
Proof.
  induction s as [|c s [IH1 IH2]]; [done|]. cbn [digits_prefix]. destruct (is_digit c) eqn:E.
  - apply andb_true_iff in E as [E1%Z.leb_le E2%Z.leb_le].
    change (code "0") with 48 in E1. change (code "9") with 57 in E2.
    split; [constructor; [lia|done]|by apply prefix_cons].
  - split; [done|apply prefix_nil].
Qed.

Lemma digits_value_snoc s c : digits_value (s ++ [c]) = digits_value s * 10 + (code c - 48).
Proof. unfold digits_value. rewrite foldl_app. done. Qed.

Lemma digits_value_dec f n : 0 ≤ n < 10 ^ Z.of_nat f → digits_value (dec f n) = n.
Proof.
  revert n. induction f as [|f IH]; intros n Hn; [cbn in *; lia|].
  rewrite dec_S, digits_value_snoc. rewrite Nat2Z.inj_succ, Z.pow_succ_r in Hn by lia.
  pose proof (Z.mod_pos_bound n 10 ltac:(lia)). rewrite code_digit by lia.
  destruct (Z.ltb_spec n 10).
  - change (digits_value []) with 0. rewrite Z.mod_small; lia.
  - rewrite IH by (Z.div_mod_to_equations; lia). Z.div_mod_to_equations. lia.
Qed.

(** A decimal numeral with an optional minus sign, and its value. *)
Definition numeral (neg : bool) (ds : bytes) : bytes := if neg then "-"%byte :: ds else ds.
Definition numeral_value (neg : bool) (ds : bytes) : Z := if neg then - digits_value ds else digits_value ds.

Lemma digit_not_minus c : 48 ≤ code c ≤ 57 → is_byte "-"%byte c = false.
Proof. intros Hc. apply is_byte_false. intros ->. vm_compute in Hc. naive_solver. Qed.

Lemma parseInt_numeral neg ds :
  ds ≠ [] → Forall (λ c, 48 ≤ code c ≤ 57) ds → INT64_MIN ≤ numeral_value neg ds ≤ INT64_MAX →
  parseInt (numeral neg ds) = Some (numeral_value neg ds).
Proof.
  intros Hne Hall Hr. unfold parseInt, from_chars.
  assert ((match numeral neg ds with
           | c :: t => if is_byte "-"%byte c then (true, t) else (false, numeral neg ds)
           | [] => (false, numeral neg ds)
           end) = (neg, ds)) as ->.
  { destruct neg; [done|]. cbn [numeral]. destruct ds as [|c ds]; [done|].
    inversion_clear Hall as [|?? Hc _]. by rewrite digit_not_minus. }
  rewrite digits_prefix_all by done. rewrite bool_decide_false by done.
  fold (numeral_value neg ds).
  rewrite (proj2 (Z.leb_le INT64_MIN _)), (proj2 (Z.leb_le _ INT64_MAX)) by lia. cbn [andb].
  rewrite (bool_decide_false (numeral neg ds = [])) by (by destruct neg).
  assert (zlen ds + (if neg then 1 else 0) = zlen (numeral neg ds)) as -> by (destruct neg; cbn [numeral length]; lia).
  by rewrite Z.eqb_refl.
Qed.

Lemma parseInt_inv s v :
  parseInt s = Some v →
  ∃ neg ds, s = numeral neg ds ∧ ds ≠ [] ∧ Forall (λ c, 48 ≤ code c ≤ 57) ds ∧
            v = numeral_value neg ds ∧ INT64_MIN ≤ v ≤ INT64_MAX.
Proof.
  unfold parseInt, from_chars.
  destruct (match s with
            | c :: t => if is_byte "-"%byte c then (true, t) else (false, s)
            | [] => (false, s)
            end) as [neg body] eqn:Eb.
  assert (s = numeral neg body) as Hs.
  { destruct s as [|c t]; [by injection Eb as <- <-|]. destruct (is_byte "-"%byte c) eqn:E; injection Eb as <- <-; [|done].
    apply is_byte_true in E. by subst. }
  case_bool_decide as Hne; [done|]. fold (numeral_value neg (digits_prefix body)).
  destruct (Z.leb_spec INT64_MIN (numeral_value neg (digits_prefix body))); [|done].
  destruct (Z.leb_spec (numeral_value neg (digits_prefix body)) INT64_MAX); [|done]. cbn [andb].
  destruct (Z.eqb_spec (zlen (digits_prefix body) + (if neg then 1 else 0)) (zlen s)) as [Hl|]; [|done].
  case_bool_decide; [done|]. cbn [negb orb]. intros [= <-].
  destruct (digits_prefix_spec body) as [Hall Hpre].
  assert (digits_prefix body = body) as Hb.
  { apply prefix_length_eq; [done|]. rewrite Hs in Hl. destruct neg; cbn [numeral length] in Hl; lia. }
  rewrite Hb in *. by exists neg, body.
Qed.

Lemma parseInt_to_chars v : INT64_MIN ≤ v ≤ INT64_MAX → parseInt (to_chars v) = Some v.
Proof.
  intros Hv. assert (INT64_MAX < 10 ^ Z.of_nat 20) as Hb by (by vm_compute).
  assert (- INT64_MIN < 10 ^ Z.of_nat 20) as Hb' by (by vm_compute).
  assert (∀ n, dec 20 n ≠ []) as Hne by (intros n H; rewrite dec_S in H; by apply app_nil in H as [_ ?]).
  unfold to_chars. destruct (Z.ltb_spec v 0).
  - assert (numeral_value true (dec 20 (- v)) = v) as E.
    { cbn [numeral_value]. rewrite digits_value_dec by lia. lia. }
    rewrite <-E at 2. apply (parseInt_numeral true); [done|apply dec_digits; lia|by rewrite E].
  - assert (numeral_value false (dec 20 v) = v) as E.
    { cbn [numeral_value]. rewrite digits_value_dec by lia. lia. }
    rewrite <-E at 2. apply (parseInt_numeral false); [done|apply dec_digits; lia|by rewrite E].
Qed.

Lemma deadline_spec n unit now :
  0 ≤ now ≤ INT64_MAX → 0 < n → 1 ≤ unit →
  deadline n unit now = Ok (if now + n * unit <=? INT64_MAX then Some (now + n * unit) else None).
Proof.
  intros Hnow Hn Hu. unfold deadline, int64.
  assert (INT64_MIN < 0) as Hmin by (by vm_compute).
  rewrite (proj2 (Z.leb_le INT64_MIN (INT64_MAX - now))), (proj2 (Z.leb_le (INT64_MAX - now) INT64_MAX)) by lia.
  cbn [andb rbind]. rewrite Z.quot_div_nonneg by lia.
  destruct (Z.ltb_spec ((INT64_MAX - now) / unit) n) as [Hlt|Hge].
  - rewrite (proj2 (Z.leb_gt _ _)); [done|].
    assert (INT64_MAX - now < n * unit); [|lia]. rewrite Z.mul_comm.
    apply Z.nle_gt. intros Hle. apply Z.div_le_lower_bound in Hle; lia.
  - assert (n * unit ≤ INT64_MAX - now) as Hle.
    { pose proof (Z.mul_div_le (INT64_MAX - now) unit ltac:(lia)). nia. }
    assert (0 < n * unit) as Hpos by nia.
    rewrite (proj2 (Z.leb_le INT64_MIN (n * unit))), (proj2 (Z.leb_le (n * unit) INT64_MAX)) by lia. cbn [andb rbind].
    rewrite (proj2 (Z.leb_le INT64_MIN (now + n * unit))), (proj2 (Z.leb_le (now + n * unit) INT64_MAX)) by lia.
    done.
Qed.

(** ** The encoders *)

Lemma find_idx_none (Q : byte → bool) s i : Forall (λ c, Q c = false) s → find_idx Q s i = npos.
Proof.
  intros H. revert i. induction H as [|c s Hc _ IH]; intros i; [done|]. cbn [find_idx]. rewrite Hc. apply IH.
Qed.

Lemma plain_false c : plain c → is_byte CR c || is_byte LF c = false.
Proof. intros [H1 H2]. apply orb_false_iff. split; by apply is_byte_false. Qed.

Lemma emits_reply r : wf_reply r → emits (emit_reply r) (encode_reply r).
Proof.
  destruct r as [s|s|z|s|]; cbn [emit_reply encode_reply wf_reply]; intros Hwf.
  - intros b Hb Hroom. unfold reply.simpleString.
    assert (sv_find_if (λ b, is_byte CR b || is_byte LF b) s 0 = npos) as ->.
    { unfold sv_find_if. rewrite (proj2 (Z.leb_le _ _)) by lia. apply find_idx_none. rewrite drop_0.
      eapply Forall_impl; [exact Hwf|]. intros c. apply plain_false. }
    rewrite Z.eqb_refl. by apply emits_appendLine.
  - apply emits_appendLine.
  - apply emits_appendNumber.
  - apply emits_bulk.
  - apply emits_append.
Qed.

(** ** The client reads back what was sent *)

Lemma take_line_text l rest : Forall plain l → take_line (l ++ CRLF ++ rest) = Some (l, rest).
Proof.
  induction 1 as [|c l [Hc _] _ IH]; [done|]. cbn [app take_line].
  rewrite (proj2 (is_byte_false _ _)) by done. cbn [app] in IH. by rewrite IH.
Qed.

Lemma plain_digit c : 48 ≤ code c ≤ 57 → plain c.
Proof. intros Hc. split; intros ->; vm_compute in Hc; naive_solver. Qed.

Lemma to_chars_plain v : Forall plain (to_chars v).
Proof.
  unfold to_chars. destruct (Z.ltb_spec v 0).
  - constructor; [by vm_compute|]. eapply Forall_impl; [apply dec_digits; lia|]. intros c. apply plain_digit.
  - eapply Forall_impl; [apply dec_digits; lia|]. intros c. apply plain_digit.
Qed.

Lemma decode_bulk_text s rest :
  decode_bulk (zlen s) (s ++ CRLF ++ rest) = Some (Bulk s, rest).
Proof.
  unfold decode_bulk. rewrite (proj2 (Z.eqb_neq _ (-1))) by lia. rewrite !length_app.
  rewrite (proj2 (Z.leb_le 0 _)), (proj2 (Z.leb_le _ (Z.of_nat _))) by (cbn; lia). cbn [andb].
  rewrite slice_app_r, Z.sub_diag, slice_app_l, slice_whole, bool_decide_true by (done || cbn; lia).
  rewrite take_app_length' by lia. do 2 f_equal. rewrite app_assoc, drop_app_length'; [done|].
  rewrite length_app. cbn. lia.
Qed.

Lemma decode_int_to_chars v : INT64_MIN ≤ v ≤ INT64_MAX → decode_int (to_chars v) = Some v.
Proof. intros Hv. unfold decode_int. by rewrite parseInt_to_chars, bool_decide_true. Qed.

Lemma decode_encode r rest : wf_reply r → decode_reply (encode_reply r ++ rest) = Some (r, rest).
Proof.
  destruct r as [s|s|z|s|]; cbn [wf_reply encode_reply]; intros Hwf.
  - cbn [app decode_reply]. rewrite <-app_assoc, take_line_text by done. done.
  - cbn [app decode_reply]. rewrite <-app_assoc, take_line_text by done. done.
  - cbn [app decode_reply]. rewrite <-app_assoc, take_line_text by apply to_chars_plain.
    change (is_byte "+" ":") with false. change (is_byte "-" ":") with false. change (is_byte ":" ":") with true.
    cbn [negb]. by rewrite decode_int_to_chars.
  - unfold encode_bulk. cbn [app decode_reply]. rewrite <-!app_assoc, take_line_text by apply to_chars_plain.
    change (is_byte "+" "$") with false. change (is_byte "-" "$") with false. change (is_byte ":" "$") with false.
    change (is_byte "$" "$") with true. cbn [negb].
    rewrite decode_int_to_chars; [apply decode_bulk_text|]. unfold INT64_MIN. lia.
  - done.
Qed.

(** What is decoded is what was encoded: no other bytes read as a reply. *)
Lemma take_line_inv s l rest : take_line s = Some (l, rest) → s = l ++ CRLF ++ rest.
Proof.
  revert l. induction s as [|c s IH]; intros l; cbn [take_line]; [done|]. destruct (is_byte CR c) eqn:Ec.
  - apply is_byte_true in Ec as ->. destruct s as [|d s]; [done|]. destruct (is_byte LF d) eqn:Ed; [|done].
    apply is_byte_true in Ed as ->. by intros [= <- <-].
  - destruct (take_line s) as [[l' rest']|]; [|done]. intros [= <- ->]. by rewrite (IH _ eq_refl).
Qed.

Lemma decode_int_inv l z : decode_int l = Some z → l = to_chars z.
Proof. unfold decode_int. destruct (Cmds.parseInt l); [|done]. case_bool_decide; [|done]. by intros [= <-]. Qed.

Lemma decode_bulk_inv len s r rest :
  decode_bulk len s = Some (r, rest) → "$"%byte :: to_chars len ++ CRLF ++ s = encode_reply r ++ rest.
Proof.
  unfold decode_bulk. destruct (Z.eqb_spec len (-1)) as [->|_]; [by intros [= <- <-]|].
  destruct (Z.leb_spec 0 len) as [H0|]; [|done]. destruct (Z.leb_spec (len + 2) (zlen s)) as [H2|]; [|done]. cbn [andb].
  case_bool_decide as Hc; [|done]. intros [= <- <-]. unfold encode_reply, encode_bulk.
  assert (zlen (take (Z.to_nat len) s) = len) as -> by (rewrite length_take; lia).
  cbn [app]. f_equal. rewrite <-!app_assoc. do 2 f_equal. rewrite <-Hc. unfold slice.
  change (Z.to_nat 2) with 2%nat. rewrite Z2Nat.inj_add by lia. change (Z.to_nat 2) with 2%nat.
  by rewrite <-drop_drop, !take_drop.
Qed.

Lemma decode_reply_inv s r rest : decode_reply s = Some (r, rest) → s = encode_reply r ++ rest.
Proof.
  destruct s as [|t s]; [done|]. cbn [decode_reply]. destruct (take_line s) as [[l rest']|] eqn:El; [|done].
  apply take_line_inv in El as ->.
  destruct (is_byte "+" t) eqn:E1; [apply is_byte_true in E1 as ->; intros [= <- <-]; cbn; by rewrite <-app_assoc|].
  destruct (is_byte "-" t) eqn:E2; [apply is_byte_true in E2 as ->; intros [= <- <-]; cbn; by rewrite <-app_assoc|].
  destruct (is_byte ":" t) eqn:E3.
  { apply is_byte_true in E3 as ->. destruct (decode_int l) as [z|] eqn:Ez; [|done]. apply decode_int_inv in Ez as ->.
    intros [= <- <-]. cbn. by rewrite <-app_assoc. }
  destruct (is_byte "$" t) eqn:E4; [|done]. apply is_byte_true in E4 as ->.
  destruct (decode_int l) as [z|] eqn:Ez; [|done]. apply decode_int_inv in Ez as ->. apply decode_bulk_inv.
Qed.

Lemma encode_nonempty r : (1 ≤ length (encode_reply r))%nat.
Proof. destruct r; cbn; lia. Qed.

Lemma stream_cons r rs :
  mjoin (encode_reply <$> r :: rs) = encode_reply r ++ mjoin (encode_reply <$> rs).
Proof. done. Qed.

Lemma decode_replies_encode rs fuel :
  Forall wf_reply rs → (length rs ≤ fuel)%nat →
  decode_replies fuel (mjoin (encode_reply <$> rs)) = Some rs.
Proof.
  intros Hall. revert fuel. induction Hall as [|r rs Hr _ IH]; intros fuel Hf; [by destruct fuel|].
  rewrite stream_cons. cbn [length] in Hf. destruct fuel as [|fuel]; [lia|].
  cbn [decode_replies].
  destruct (encode_reply r ++ _) as [|c w] eqn:E.
  { pose proof (encode_nonempty r) as Hn. apply (f_equal length) in E. rewrite length_app in E. cbn in E. lia. }
  rewrite <-E, decode_encode by done. by rewrite IH by lia.
Qed.

Lemma decode_stream_inv s rs : decode_stream s = Some rs → s = mjoin (encode_reply <$> rs).
Proof.
  unfold decode_stream. generalize (length s) as fuel. intros fuel. revert s rs.
  induction fuel as [|fuel IH]; intros [|c s] rs; cbn [decode_replies]; [by intros [= <-]|done|by intros [= <-]|].
  destruct (decode_reply (c :: s)) as [[r rest]|] eqn:Er; [|done]. apply decode_reply_inv in Er as ->.
  destruct (decode_replies fuel rest) as [rs'|] eqn:Ers; [|done]. intros [= <-]. rewrite stream_cons. by rewrite (IH _ _ Ers).
Qed.

Lemma decode_stream_encode rs :
  Forall wf_reply rs → decode_stream (mjoin (encode_reply <$> rs)) = Some rs.
Proof.
  intros Hall. apply decode_replies_encode; [done|].
  clear Hall. induction rs as [|r rs IH]; [done|]. rewrite stream_cons, length_app.
  pose proof (encode_nonempty r). cbn [length]. lia.
Qed.

(** ** The dispatcher runs the meaning of the request *)

Lemma arg_drop args i a rest :
  0 ≤ i → drop (Z.to_nat i) args = a :: rest →
  arg (command_of args) i = Ok a ∧ drop (Z.to_nat (i + 1)) args = rest ∧ i < zlen args.
Proof.
  intros Hi Hd. assert (args !! Z.to_nat i = Some a) as Ha.
  { rewrite <-(Nat.add_0_r (Z.to_nat i)), <-lookup_drop, Hd. done. }
  split; [by apply arg_of|]. split; [|apply lookup_lt_Some in Ha; lia].
  rewrite Z2Nat.inj_add, <-drop_drop, Hd by lia. done.
Qed.

Lemma unknown_args_spec args rest i msg :
  0 ≤ i → drop (Z.to_nat i) args = rest →
  unknown_args (length rest) (command_of args) i msg =
    Ok (msg ++ mjoin ((λ a, bstr "'" ++ sanitized a ++ bstr "' ") <$> rest)).
Proof.
  revert i msg. induction rest as [|a rest IH]; intros i msg Hi Hd; [cbn; by rewrite app_nil_r|].
  cbn [length unknown_args]. destruct (arg_drop _ _ _ _ Hi Hd) as (-> & Hd' & _). cbn [rbind].
  rewrite IH by (done || lia). f_equal. unfold appendSanitized. cbn [fmap list_fmap mjoin list_join].
  rewrite <-!app_assoc. done.
Qed.

(** The option loop once an expiry option was taken: nothing may follow. *)
Lemma set_opts_taken fuel args now i x rest :
  0 ≤ i → drop (Z.to_nat i) args = rest →
  set_opts (S fuel) (command_of args) now i x true =
    Ok (match rest with [] => Opts x | _ => OptError (reply.error kSyntax) end).
Proof.
  intros Hi Hd. cbn [set_opts]. rewrite argc_of. destruct rest as [|a rest].
  - assert (zlen args ≤ i) by (apply (f_equal length) in Hd; rewrite length_drop in Hd; cbn in Hd; lia).
    by rewrite (proj2 (Z.ltb_ge _ _)) by lia.
  - destruct (arg_drop _ _ _ _ Hi Hd) as (-> & _ & Hlt).
    rewrite (proj2 (Z.ltb_lt _ _)) by lia. cbn [rbind]. rewrite andb_false_r.
    by rewrite orb_true_r.
Qed.

Lemma set_opts_spec fuel args now i opts :
  0 ≤ now ≤ INT64_MAX → 0 ≤ i → drop (Z.to_nat i) args = opts →
  set_opts (S (S fuel)) (command_of args) now i kNoExpiry false =
    Ok (match set_deadline now opts with
        | inl x => Opts x
        | inr e => OptError (reply.error e)
        end).
Proof.
  intros Hnow Hi Hd. remember (S fuel) as fuel' eqn:Hf. cbn [set_opts]. rewrite argc_of.
  destruct opts as [|o rest].
  { assert (zlen args ≤ i) by (apply (f_equal length) in Hd; rewrite length_drop in Hd; cbn in Hd; lia).
    by rewrite (proj2 (Z.ltb_ge _ _)) by lia. }
  destruct (arg_drop _ _ _ _ Hi Hd) as (-> & Hd1 & Hlt). rewrite (proj2 (Z.ltb_lt i _)) by lia. cbn [rbind].
  rewrite !iequals_spec, andb_true_r. cbn [set_deadline]. cbv zeta.
  set (lo := lower <$> o). subst fuel'. case_bool_decide as E1.
  { rewrite (set_opts_taken _ _ _ _ _ rest) by (done || lia). by destruct rest. }
  rewrite orb_false_r.
  assert (bool_decide (lo = bstr "ex" ∨ lo = bstr "px") =
          bool_decide (lo = bstr "ex") || bool_decide (lo = bstr "px")) as -> by apply bool_decide_or.
  destruct (bool_decide (lo = bstr "ex") || bool_decide (lo = bstr "px")) eqn:E2; [|done]. cbn [negb orb].
  destruct rest as [|a rest].
  { rewrite (proj2 (Z.leb_le _ _)); [done|].
    apply (f_equal length) in Hd1. rewrite length_drop in Hd1. cbn in Hd1. lia. }
  destruct (arg_drop args (i + 1) a rest) as (-> & Hd2 & Hlt2); [lia|done|].
  rewrite (proj2 (Z.leb_gt _ _)) by lia. cbn [rbind].
  destruct (parseInt a) as [n|]; [|done]. destruct (Z.ltb_spec 0 n) as [Hn|]; [|done]. cbn [andb].
  change kMsPerSec with 1000. set (unit := if bool_decide (lo = bstr "ex") then 1000 else 1).
  rewrite deadline_spec by (done || subst unit; case_bool_decide; lia). cbn [rbind].
  destruct (now + n * unit <=? INT64_MAX); [|done].
  rewrite (set_opts_taken _ _ _ _ _ rest) by (done || lia). by destruct rest.
Qed.

Section dispatch.
Context {P : Type} `{!PoolAllocator P} (now : Z) (out : Buf.Buffer).
Implicit Types (s : Sto.Store P).

Lemma del_loop_spec args rest i n s :
  0 ≤ i → drop (Z.to_nat i) args = rest →
  del_loop (length rest) (command_of args) now i n s =
    (let* (rs, s) := StoSpec.store_run (pair now <$> (SDel <$> rest)) s in
     Ok (n + foldr Z.add 0 (truth <$> rs), s)).
Proof.
  revert i n s. induction rest as [|a rest IH]; intros i n s Hi Hd; [cbn; by rewrite Z.add_0_r|].
  cbn [length del_loop fmap list_fmap StoSpec.store_run StoSpec.store_op].
  destruct (arg_drop _ _ _ _ Hi Hd) as (-> & Hd' & _). cbn [rbind].
  destruct (Sto.erase a now s) as [[b s1]|]; [|done]. cbn [rbind]. rewrite IH by (done || lia).
  change (list_fmap ?A ?B) with (@fmap list _ A B).
  destruct (StoSpec.store_run _ s1) as [[rs s2]|]; [|done]. cbn [rbind fmap list_fmap foldr].
  do 2 f_equal. unfold truth at 2. destruct b; lia.
Qed.

Lemma exists_loop_spec args rest i n s :
  0 ≤ i → drop (Z.to_nat i) args = rest →
  exists_loop (length rest) (command_of args) now i n s =
    (let* (rs, s) := StoSpec.store_run (pair now <$> (SExists <$> rest)) s in
     Ok (n + foldr Z.add 0 (truth <$> rs), s)).
Proof.
  revert i n s. induction rest as [|a rest IH]; intros i n s Hi Hd; [cbn; by rewrite Z.add_0_r|].
  cbn [length exists_loop fmap list_fmap StoSpec.store_run StoSpec.store_op].
  destruct (arg_drop _ _ _ _ Hi Hd) as (-> & Hd' & _). cbn [rbind].
  destruct (Sto.find a now false s) as [[b s1]|]; [|done]. cbn [rbind]. rewrite IH by (done || lia).
  change (list_fmap ?A ?B) with (@fmap list _ A B).
  destruct (StoSpec.store_run _ s1) as [[rs s2]|]; [|done]. cbn [rbind fmap list_fmap foldr].
  do 2 f_equal. unfold truth at 2. case_bool_decide; lia.
Qed.

(** A reply that does not touch the store. *)
Lemma interpret_says r s : continue_ (reply_only s (emit_reply r out)) = interpret (says r) now s out.
Proof. unfold interpret. cbn. by destruct (emit_reply r out). Qed.

Lemma interpret_says_error e s :
  continue_ (let* out := reply.error e out in Ok (s, out)) = interpret (says (Err e)) now s out.
Proof. apply (interpret_says (Err e)). Qed.

(** One store operation, then a reply. *)
Lemma interpret_one o k b s :
  interpret (Means [o] k b) now s out =
    (let* (r, s) := StoSpec.store_op now o s in
     let* r := k [r] in
     let* out := emit_reply r out in
     Ok (if b then kCloseConnection else kContinue, s, out)).
Proof. unfold interpret. cbn. by destruct (StoSpec.store_op now o s) as [[r s']|]. Qed.

Lemma cmdGet_means n k s :
  continue_ (cmdGet s (command_of [n; k]) now out) = interpret (get_means k) now s out.
Proof.
  unfold get_means. rewrite interpret_one. cbn [StoSpec.store_op]. unfold cmdGet, Sto.get.
  rewrite (arg_of _ 1 k) by done. cbn [rbind].
  destruct (Sto.find k now true s) as [[[a|] s']|]; [| |done]; cbn [rbind emit_reply].
  2: { by destruct (reply.nullBulk out). }
  destruct (Tbl.entry_at _ a) as [e|]; [|done]. cbn [rbind].
  destruct (Ent.value _ e) as [v|]; [|done]. cbn. by destruct (reply.bulk v out).
Qed.

Lemma cmdSet_means n k v opts s :
  0 ≤ now ≤ INT64_MAX →
  continue_ (cmdSet s (command_of (n :: k :: v :: opts)) now out) = interpret (set_means now k v opts) now s out.
Proof.
  intros Hnow. unfold cmdSet. rewrite argc_of. set (args := n :: k :: v :: opts).
  replace (Z.to_nat (zlen args)) with (S (length (k :: v :: opts))) by (subst args; cbn [length]; lia).
  rewrite (set_opts_spec _ args now 3 opts) by done. cbn [rbind]. unfold set_means.
  destruct (set_deadline now opts) as [x|e]; [|apply interpret_says_error].
  rewrite interpret_one. rewrite (arg_of args 1 k), (arg_of args 2 v) by done. cbn [rbind StoSpec.store_op].
  destruct (Sto.set k v x now s) as [[[] s']|]; cbn; [by destruct (reply.simpleString _ out)|by destruct (reply.error _ out)|done].
Qed.

Lemma cmdExpire_means n k secs s :
  0 ≤ now ≤ INT64_MAX →
  continue_ (cmdExpire s (command_of [n; k; secs]) now out) = interpret (expire_means now k secs) now s out.
Proof.
  intros Hnow. unfold cmdExpire, expire_means. rewrite (arg_of _ 2 secs), (arg_of _ 1 k) by done. cbn [rbind].
  destruct (parseInt secs) as [z|]; [|apply interpret_says_error]. destruct (Z.leb_spec z 0) as [|Hz].
  - rewrite interpret_one. cbn [StoSpec.store_op].
    destruct (Sto.erase k now s) as [[[] s']|]; cbn; [by destruct (reply.integer _ out)..|done].
  - rewrite deadline_spec by (done || lia). cbn [rbind]. change kMsPerSec with 1000.
    destruct (now + z * 1000 <=? INT64_MAX); [|apply interpret_says_error].
    rewrite interpret_one. cbn [StoSpec.store_op].
    destruct (Sto.setExpireAt k _ now s) as [[[] s']|]; cbn; [by destruct (reply.integer _ out)..|done].
Qed.

Lemma cmdTtl_means n k s :
  continue_ (cmdTtl s (command_of [n; k]) now out) = interpret (ttl_means k) now s out.
Proof.
  unfold cmdTtl, ttl_means. rewrite (arg_of _ 1 k) by done. rewrite interpret_one. cbn [rbind StoSpec.store_op].
  destruct (Sto.ttlMs k now s) as [[ms s']|]; [|done]. cbn [rbind].
  change (Z.quot kMsPerSec 2) with 500. change kMsPerSec with 1000. destruct (ms <? 0).
  - cbn. by destruct (reply.integer _ out).
  - destruct (int64 (ms + 500)) as [r|]; [|done]. cbn. by destruct (reply.integer _ out).
Qed.

Lemma cmdDel_means n rest s :
  continue_ (cmdDel s (command_of (n :: rest)) now out) = interpret (Means (SDel <$> rest) count_true false) now s out.
Proof.
  unfold cmdDel, interpret. rewrite argc_of. cbn [ops].
  replace (Z.to_nat (zlen (n :: rest) - 1)) with (length rest) by (cbn [length]; lia).
  rewrite (del_loop_spec _ rest) by done. destruct (StoSpec.store_run _ s) as [[rs s']|]; [|done]. cbn.
  by destruct (reply.integer _ out).
Qed.

Lemma cmdExists_means n rest s :
  continue_ (cmdExists s (command_of (n :: rest)) now out) =
    interpret (Means (SExists <$> rest) count_true false) now s out.
Proof.
  unfold cmdExists, interpret. rewrite argc_of. cbn [ops].
  replace (Z.to_nat (zlen (n :: rest) - 1)) with (length rest) by (cbn [length]; lia).
  rewrite (exists_loop_spec _ rest) by done. destruct (StoSpec.store_run _ s) as [[rs s']|]; [|done]. cbn.
  by destruct (reply.integer _ out).
Qed.

Lemma flush_means s :
  continue_ (let* s := Sto.clear s in let* out := reply.simpleString (bstr "OK") out in Ok (s, out)) =
    interpret (Means [SClear] (λ _, Ok (Simple (bstr "OK"))) false) now s out.
Proof.
  rewrite interpret_one. cbn [StoSpec.store_op]. destruct (Sto.clear s) as [s'|]; [|done]. cbn.
  by destruct (reply.simpleString _ out).
Qed.

Lemma unknownCommand_means n rest s :
  continue_ (reply_only s (unknownCommand (command_of (n :: rest)) out)) =
    interpret (says (Err (unknown_text n rest))) now s out.
Proof.
  rewrite <-interpret_says. unfold unknownCommand. rewrite (arg_of _ 0 n) by done. cbn [rbind].
  rewrite argc_of. replace (Z.to_nat (zlen (n :: rest) - 1)) with (length rest) by (cbn [length]; lia).
  rewrite (unknown_args_spec _ rest) by done. cbn [rbind]. unfold unknown_text, appendSanitized.
  by rewrite <-!app_assoc.
Qed.

(** The arity checks, on the number of arguments after the name. *)
Lemma arity_exact sp n (rest : list bytes) :
  0 < arity sp → arityOk sp (zlen (n :: rest)) = (zlen rest =? arity sp - 1).
Proof.
  intros Ha. unfold arityOk. rewrite (proj2 (Z.ltb_lt _ _)) by done. cbn [length].
  destruct (Z.eqb_spec (zlen rest) (arity sp - 1)); [apply Z.eqb_eq|apply Z.eqb_neq]; lia.
Qed.

Lemma arity_min sp n (rest : list bytes) :
  arity sp ≤ 0 → arityOk sp (zlen (n :: rest)) = (- arity sp - 1 <=? zlen rest).
Proof.
  intros Ha. unfold arityOk. rewrite (proj2 (Z.ltb_ge _ _)) by done. cbn [length].
  destruct (Z.leb_spec (- arity sp - 1) (zlen rest)); [apply Z.leb_le|apply Z.leb_gt]; lia.
Qed.

Lemma wrongArity_means nm s :
  continue_ (reply_only s (wrongArity nm out)) = interpret (wrong_arity nm) now s out.
Proof. apply (interpret_says (Err _)). Qed.

Lemma cmdPing_means n rest s :
  continue_ (reply_only s (cmdPing (command_of (n :: rest)) out)) =
    interpret (match rest with
               | [] => says (Simple (bstr "PONG"))
               | [m] => says (Bulk m)
               | _ => wrong_arity (bstr "ping")
               end) now s out.
Proof.
  unfold cmdPing. rewrite argc_of. destruct rest as [|m [|x rest]].
  - apply (interpret_says (Simple _)).
  - rewrite (arg_of _ 1 m) by done. apply (interpret_says (Bulk m)).
  - rewrite (proj2 (Z.ltb_lt _ _)) by (cbn [length]; lia). apply wrongArity_means.
Qed.

Lemma cmdFlushall_means n rest s :
  continue_ (cmdFlushall s (command_of (n :: rest)) out) =
    interpret (match rest with
               | [] => Means [SClear] (λ _, Ok (Simple (bstr "OK"))) false
               | [o] => if bool_decide (lower <$> o = bstr "async" ∨ lower <$> o = bstr "sync")
                        then Means [SClear] (λ _, Ok (Simple (bstr "OK"))) false else says (Err kSyntax)
               | _ => says (Err kSyntax)
               end) now s out.
Proof.
  unfold cmdFlushall. rewrite argc_of. destruct rest as [|o [|x rest]].
  - apply flush_means.
  - rewrite (arg_of _ 1 o) by done. change (2 <? zlen [n; o]) with false. change (zlen [n; o] =? 2) with true.
    cbn [rbind]. rewrite !iequals_spec, <-negb_orb, bool_decide_or.
    destruct (_ || _); cbn [negb]; [apply flush_means|apply interpret_says_error].
  - rewrite (proj2 (Z.ltb_lt _ _)) by (cbn [length]; lia). apply interpret_says_error.
Qed.

(** One row of the command table: either the name matches, and the arity check
    is on the table's number, or the search goes on. *)
Ltac command_row :=
  let E := fresh "E" in
  case_bool_decide as E;
  [try rewrite E; clear E; cbn [cmd name];
   first [rewrite arity_exact by done | rewrite arity_min by done]; cbn [arity]
  |clear E].
Ltac bad_count := rewrite (proj2 (Z.eqb_neq _ _)) by (cbn [length]; lia); apply wrongArity_means.
Ltac good_count := rewrite (proj2 (Z.leb_le _ _)) by (cbn [length]; lia).

Lemma dispatch_request args s :
  0 ≤ now ≤ INT64_MAX → args ≠ [] →
  dispatch s (command_of args) now out = interpret (request_means now (Sto.size s) args) now s out.
Proof.
  intros Hnow Hne. destruct args as [|n rest]; [done|]. unfold dispatch. rewrite argc_of.
  rewrite (proj2 (Z.eqb_neq _ 0)) by (cbn [length]; lia). rewrite (arg_of _ 0 n) by done.
  cbn [rbind request_means]. unfold lookup, kSpecs. cbn [lookup_loop name]. rewrite !iequals_spec.
  set (c := lower <$> n). command_row.
  { destruct rest as [|k [|k' rest]]; [apply wrongArity_means|apply cmdGet_means|bad_count]. }
  command_row.
  { destruct rest as [|k [|v opts]]; [apply wrongArity_means..|]. good_count. by apply cmdSet_means. }
  command_row.
  { destruct rest as [|k rest]; [apply wrongArity_means|]. good_count. apply cmdDel_means. }
  command_row.
  { destruct rest as [|k rest]; [apply wrongArity_means|]. good_count. apply cmdExists_means. }
  command_row.
  { destruct rest as [|k [|secs [|x rest]]]; [apply wrongArity_means..|by apply cmdExpire_means|bad_count]. }
  command_row.
  { destruct rest as [|k [|k' rest]]; [apply wrongArity_means|apply cmdTtl_means|bad_count]. }
  command_row; [good_count; apply cmdPing_means|].
  command_row.
  { destruct rest as [|k [|k' rest]]; [apply wrongArity_means| |bad_count].
    rewrite (arg_of _ 1 k) by done. apply (interpret_says (Bulk k)). }
  command_row.
  { destruct rest as [|k rest]; [apply (interpret_says (Int _))|bad_count]. }
  command_row; [good_count; apply cmdFlushall_means|].
  command_row; [by good_count|]. apply unknownCommand_means.
Qed.

End dispatch.

End CmdSpec.
