(* ===== verification/CommandProps.v ===== *)
(** * What clients can rely on from the command layer

    The dispatcher never faults, answers every request with exactly one
    well-formed reply, and over a whole session gives the replies of an ideal
    map with deadlines. *)

From Stdlib Require Import ZArith Lia Strings.Byte.
From stdpp Require Import base gmap numbers list strings.
From S2P Require Import Prelude Buffer Resp RespSpec RespFacts RespWire RespProps Bits Hash Entry.
From S2P Require Import Table TableLinks TableData TableInv Store StoreInv StoreEvict StoreOps.
From S2P Require Import StoreCycle StoreSpec StoreProps Command CommandSpec.

Local Open Scope Z_scope.

Module CmdProps.
Import Ent Tbl Data TblInv Sto StoInv StoEvict StoOps StoCycle StoSpec StoProps Cmds CmdSpec.

Lemma returns_and {A} (r : result A) (Q1 Q2 : A → Prop) :
  returns r Q1 → returns r Q2 → returns r (λ a, Q1 a ∧ Q2 a).
Proof. destruct r; naive_solver. Qed.

(** ** The store under any key cap *)

(** The results an operation can give at time [now]. *)
Definition shaped (now : Z) (o : sop) (r : sreply) : Prop :=
  match o, r with
  | SGet _, RVal v => match v with Some w => zlen w ≤ kMaxBulkLength | None => True end
  | STtl _, RInt z => -2 ≤ z ∧ (0 ≤ z → z ≤ INT64_MAX - now)
  | (SSet _ _ _ | SExists _ | SDel _ | SExpire _ _), RBool _ => True
  | (SClear | STick _), RUnit => True
  | _, _ => False
  end.

Section safe.
Context {P : Type} `{!PoolAllocator P}.
Implicit Types (s : Store P) (M : kvmap).

(** Records requests can leave: a 64-bit deadline, a value the parser lets in. *)
Definition sane_rec (r : arec) : Prop := a_expires r ≤ INT64_MAX ∧ zlen (a_value r) ≤ kMaxBulkLength.
Definition sane M : Prop := ∀ k r, M !! k = Some r → sane_rec r.

(** A store between requests. *)
Definition sound_store s : Prop := ∃ M, Rep s M ∧ sane M.

Lemma sane_subseteq M M' : M' ⊆ M → sane M → sane M'.
Proof. intros Hs HD k r Hk. apply (HD k r). by eapply lookup_weaken. Qed.

Lemma sane_insert k r M : sane M → sane_rec r → sane (<[k := r]> M).
Proof.
  intros HD Hr k' r'. destruct (decide (k = k')) as [<-|].
  - rewrite lookup_insert_eq. by intros [= <-].
  - rewrite lookup_insert_ne by done. apply HD.
Qed.

Lemma sound_intro s' bs' G' M M' :
  store_inv s' bs' G' M' → M' ⊆ M → sane M → sound_store s'.
Proof. intros HI Hs HD. exists M'. split; [by exists bs', G'|by eapply sane_subseteq]. Qed.

Lemma sound_update s' bs' G' M k r :
  store_inv s' bs' G' (<[k := r]> M) → sane M → sane_rec r → sound_store s'.
Proof. intros HI HD Hr. exists (<[k := r]> M). split; [by exists bs', G'|by apply sane_insert]. Qed.

Lemma sane_set_record now k v x M :
  sane M → x ≤ INT64_MAX → zlen v ≤ kMaxBulkLength → sane_rec (set_record (live now k M) v x now).
Proof.
  intros HD Hx Hv. split; [|done]. cbn. destruct (x =? kKeepTtl); [|done].
  destruct (live now k M) as [r|] eqn:El; [|by vm_compute]. apply live_some in El as (Hk & _). by eapply HD.
Qed.

Lemma evicted_subseteq now s s' M M' : evicted now s s' M M' → M' ⊆ M.
Proof. intros [([H _] & _)|(k & r & _ & -> & _)]%evicted_split; [done|apply delete_subseteq]. Qed.

Lemma sane_set_effect s s' now k v x M b M' :
  set_effect k v x now s M b s' M' → sane M → x ≤ INT64_MAX → zlen v ≤ kMaxBulkLength → sane M'.
Proof.
  intros He HD Hx Hv. pose proof (sane_set_record now k v x M HD Hx Hv) as Hr.
  assert (sane (delete k M)) as HD1 by (eapply sane_subseteq, HD; apply delete_subseteq).
  unfold set_effect, set_new in He. destruct (past x now); [by destruct He as [_ ->]|].
  destruct (live now k M) as [r|]; [destruct He as [_ ->]; by apply sane_insert|].
  destruct (_ <? _); [destruct He as [_ ->]; by apply sane_insert|].
  destruct (policy_ s); [by destruct He as [_ ->]|]. destruct He as (_ & s1 & s2 & M2 & _ & Hev & _ & _ & _ & ->).
  apply sane_insert; [|done]. eapply sane_subseteq, HD1. by eapply evicted_subseteq.
Qed.

Section steps.
Context (now : Z) (s : Store P) (bs : list (list addr)) (G : contents) (M : kvmap).
Hypothesis HI : store_inv s bs G M.
Hypothesis HD : sane M.

Abbreviation safe o :=
  (returns (store_op now o s) (λ '(r, s'), shaped now o r ∧ sound_store s' ∧ same_config s s')).

Lemma safe_set k v x :
  zlen k + zlen v < 2 ^ 32 → x ≤ INT64_MAX → zlen v ≤ kMaxBulkLength → safe (SSet k v x).
Proof.
  intros Hl Hx Hv. cbn [store_op]. eapply returns_bind; [by apply (set_step _ _ _ _ k v x now HI)|].
  intros [b s'] (M' & HR & Hc & He). cbn [returns shaped]. split; [done|]. split; [|done].
  exists M'. split; [done|]. by eapply sane_set_effect.
Qed.

(** The store after a lookup of [k], touched or not. *)
Lemma sound_found k (touch : bool) s' bs' G' M' (o : option addr) :
  store_inv s' bs' G' M' →
  match live now k M with
  | Some r => let r' := if touch then rec_lru (u32 now) r else r in
              M' = <[k := r']> M ∧ ∃ a, o = Some a ∧ G' !! a = Some (k, r')
  | None => M' = delete k M ∧ o = None
  end → sound_store s'.
Proof.
  intros HI' Hm. destruct (live now k M) as [r|] eqn:El.
  - destruct Hm as (-> & _). apply live_some in El as (Hk & _). eapply sound_update; [exact HI'|done|].
    destruct touch; exact (HD _ _ Hk).
  - destruct Hm as (-> & _). eapply sound_intro, HD; [exact HI'|apply delete_subseteq].
Qed.

Lemma safe_get k : zlen k < 2 ^ 64 → safe (SGet k).
Proof.
  intros Hl. cbn [store_op]. unfold Sto.get. rewrite rbind_assoc.
  eapply returns_bind; [by apply (find_step _ _ _ _ k now true HI)|].
  intros [o s'] (bs' & G' & M' & HI' & Hc & Hm). pose proof (sound_found _ true _ _ _ _ _ HI' Hm) as Hs.
  destruct (live now k M) as [r|] eqn:El.
  - destruct Hm as (-> & a & -> & Hg). destruct (entry_of _ _ _ _ _ _ _ now HI' Hg) as (e & -> & Hrep & _).
    cbn [rbind]. rewrite (rep_value _ _ _ _ _ Hrep). cbn [rbind returns shaped].
    apply live_some in El as (Hk & _). split; [exact (proj2 (HD _ _ Hk))|]. by split.
  - destruct Hm as (-> & ->). by cbn [rbind returns shaped].
Qed.

Lemma safe_exists k : zlen k < 2 ^ 64 → safe (SExists k).
Proof.
  intros Hl. cbn [store_op]. eapply returns_bind; [by apply (find_step _ _ _ _ k now false HI)|].
  intros [o s'] (bs' & G' & M' & HI' & Hc & Hm). cbn [returns shaped]. split; [done|]. split; [|done].
  by eapply (sound_found k false).
Qed.

Lemma safe_del k : zlen k < 2 ^ 64 → safe (SDel k).
Proof.
  intros Hl. cbn [store_op]. eapply returns_bind; [by apply (erase_step _ _ _ _ k now HI)|].
  intros [b s'] (bs' & G' & HI' & Hc & _). cbn [returns shaped]. split; [done|]. split; [|done].
  eapply sound_intro, HD; [exact HI'|apply delete_subseteq].
Qed.

Lemma safe_expire k x :
  zlen k < 2 ^ 64 → x ≤ INT64_MAX → x ≠ kKeepTtl → x ≠ kNoExpiry → safe (SExpire k x).
Proof.
  intros Hl Hx H1 H2. cbn [store_op]. eapply returns_bind; [by apply (setExpireAt_step _ _ _ _ k x now HI)|].
  intros [b s'] (bs' & G' & M' & HI' & Hc & Hm). cbn [returns shaped]. split; [done|]. split; [|done].
  destruct (live now k M) as [r|] eqn:El; [destruct Hm as [_ Hm]; destruct (x <? now)|destruct Hm as [_ Hm]]; subst M'.
  - eapply sound_intro, HD; [exact HI'|apply delete_subseteq].
  - pose proof (live_some _ _ _ _ El) as (Hk & _). eapply sound_update; [exact HI'|done|].
    split; [exact Hx|exact (proj2 (HD _ _ Hk))].
  - eapply sound_intro, HD; [exact HI'|apply delete_subseteq].
Qed.

Lemma safe_ttl k : zlen k < 2 ^ 64 → 0 ≤ now → safe (STtl k).
Proof.
  intros Hl Hnow. cbn [store_op].
  assert (∀ r, live now k M = Some r → a_expires r ≤ INT64_MAX) as Hd.
  { intros r El. apply live_some in El as (Hk & _). by eapply HD. }
  eapply returns_bind; [by apply (ttlMs_step _ _ _ _ k now HI)|].
  intros [d s'] (bs' & G' & HI' & Hc & ->). cbn [returns]. split; [|split; [|done]].
  - cbn [shaped]. destruct (live now k M) as [r|] eqn:El; [|lia]. specialize (Hd r eq_refl).
    apply live_some in El as (_ & Hx & _). unfold rec_expired in Hx. destruct (a_expires r =? kNoExpiry); [lia|].
    apply Z.ltb_ge in Hx. lia.
  - eapply sound_intro, HD; [exact HI'|apply reap_subseteq].
Qed.

Lemma safe_clear : safe SClear.
Proof.
  cbn [store_op]. eapply returns_bind; [apply (clear_step _ _ _ _ HI)|]. intros s' (HR & Hc & _).
  cbn [returns shaped]. split; [done|]. split; [|done]. exists ∅. split; [done|].
  intros k r Hk. by rewrite lookup_empty in Hk.
Qed.

Lemma safe_tick limit : 1 ≤ limit ≤ 2 ^ 58 → safe (STick limit).
Proof.
  intros Hok. cbn [store_op]. destruct (inv_sweeping _ _ _ _ HI) as (n & Hn & HW).
  eapply returns_bind; [by apply (activeExpireCycle_step n _ now limit s bs G M Hn HW)|].
  intros [res s'] (q' & [_ (bs' & G' & HW') (Hc & _) _ _ _ _ _]). cbn [returns shaped]. split; [done|].
  split; [|done]. eapply sound_intro, HD; [apply HW'|apply swept_subseteq].
Qed.

End steps.

(** Values stay within what the parser lets in. *)
Definition sop_small (o : sop) : Prop :=
  match o with SSet _ v _ => zlen v ≤ kMaxBulkLength | _ => True end.

Lemma store_op_safe s now o :
  sound_store s → sop_ok now o → sop_small o →
  returns (store_op now o s) (λ '(r, s'), shaped now o r ∧ sound_store s' ∧ same_config s s').
Proof.
  intros (M & (bs & G & HI) & HD) [Hnow Hok] Hsm. destruct o as [k v x|k|k|k|k x|k| |limit].
  - destruct Hok as [Hl Hx]. by eapply safe_set.
  - by eapply safe_get.
  - by eapply safe_exists.
  - by eapply safe_del.
  - destruct Hok as (Hl & Hx & H1 & H2). by eapply safe_expire.
  - by eapply safe_ttl.
  - by eapply safe_clear.
  - by eapply safe_tick.
Qed.

Lemma store_ops_safe s now os :
  sound_store s → Forall (sop_ok now) os → Forall sop_small os →
  returns (store_run (pair now <$> os) s) (λ '(rs, s'),
    Forall2 (shaped now) os rs ∧ sound_store s' ∧ same_config s s').
Proof.
  intros HS Hos. revert s HS. induction Hos as [|o os Ho _ IH]; intros s HS Hsm; [cbn; by split|].
  inversion_clear Hsm. cbn [fmap list_fmap store_run]. eapply returns_bind; [by apply (store_op_safe s now o)|].
  intros [r s1] (Hr & HS1 & Hc1). eapply returns_bind; [by apply IH|].
  intros [rs s2] (Hrs & HS2 & Hc2). cbn [returns]. split; [by constructor|]. split; [done|].
  by eapply same_config_trans.
Qed.

End safe.

(** ** Every request has a well-formed reply *)

#[local] Instance plain_dec c : Decision (plain c).
Proof. unfold plain. apply _. Defined.

Ltac plain_text := refine (bool_decide_unpack _ _); vm_compute; exact Logic.I.

Lemma sanitized_plain s : Forall plain (sanitized s).
Proof.
  unfold sanitized. apply Forall_fmap, Forall_true. intros c. cbn.
  destruct (is_byte CR c || is_byte LF c) eqn:E; [by vm_compute|].
  apply orb_false_iff in E as [E1%is_byte_false E2%is_byte_false]. done.
Qed.

Lemma sanitized_length s : zlen (sanitized s) ≤ 128.
Proof. unfold sanitized. rewrite length_fmap, length_take. lia. Qed.

Lemma unknown_text_plain n rest : Forall plain (unknown_text n rest).
Proof.
  unfold unknown_text. apply Forall_app; split; [plain_text|].
  apply Forall_app; split; [apply sanitized_plain|]. apply Forall_app; split; [plain_text|].
  induction rest as [|a rest IH]; [done|]. cbn [fmap list_fmap mjoin list_join].
  apply Forall_app; split; [|exact IH]. apply Forall_app; split; [plain_text|].
  apply Forall_app; split; [apply sanitized_plain|plain_text].
Qed.

Lemma unknown_text_length n rest : zlen (unknown_text n rest) ≤ 200 + 131 * zlen rest.
Proof.
  unfold unknown_text. rewrite !length_app. pose proof (sanitized_length n).
  change (length (bstr "ERR unknown command '")) with 21%nat.
  change (length (bstr "', with args beginning with: ")) with 29%nat.
  assert (zlen (mjoin ((λ a, bstr "'" ++ sanitized a ++ bstr "' ") <$> rest)) ≤ 131 * zlen rest); [|lia].
  induction rest as [|a rest IH]; [done|].
  change (mjoin (?f <$> a :: rest)) with (f a ++ mjoin (f <$> rest)). rewrite !length_app. pose proof (sanitized_length a).
  change (length (bstr "'")) with 1%nat. change (length (bstr "' ")) with 2%nat. cbn [length]. lia.
Qed.

(** The largest reply: a value, its header and its trailer. *)
Definition kMaxReply : Z := 2 ^ 27.

Definition good_reply (r : Reply) : Prop := wf_reply r ∧ zlen (encode_reply r) ≤ kMaxReply.

Lemma good_err s : Forall plain s → zlen s ≤ 4096 → good_reply (Err s).
Proof.
  intros Hs Hl. split; [done|]. cbn [encode_reply length]. rewrite length_app.
  change (length CRLF) with 2%nat. unfold kMaxReply. lia.
Qed.

Lemma good_int z : INT64_MIN ≤ z ≤ INT64_MAX → good_reply (Int z).
Proof.
  intros Hz. split; [done|]. cbn [encode_reply length]. rewrite length_app. pose proof (to_chars_length z).
  change (length CRLF) with 2%nat. unfold kMaxReply. lia.
Qed.

Lemma good_bulk s : zlen s ≤ kMaxBulkLength → good_reply (Bulk s).
Proof.
  unfold kMaxBulkLength. intros Hs. split; [unfold wf_reply, INT64_MAX; lia|]. cbn [encode_reply]. unfold encode_bulk. cbn [length].
  rewrite !length_app. pose proof (to_chars_length (zlen s)). change (length CRLF) with 2%nat. unfold kMaxReply. lia.
Qed.

Lemma good_null : good_reply Null.
Proof. split; [done|]. by vm_compute. Qed.

Lemma good_ok : good_reply (Simple (bstr "OK")).
Proof. split; [plain_text|]. by vm_compute. Qed.

(** A request whose operations are within contract, and whose reply is good
    whatever they give. *)
Definition good_meaning (now : Z) (m : meaning) : Prop :=
  Forall (sop_ok now) (ops m) ∧ Forall sop_small (ops m) ∧
  ∀ rs, Forall2 (shaped now) (ops m) rs → ∃ r, answer m rs = Ok r ∧ good_reply r.

Lemma good_says now r : good_reply r → good_meaning now (says r).
Proof. intros Hr. split; [done|]. split; [done|]. intros rs _. by exists r. Qed.

Lemma good_one now o k b :
  sop_ok now o → sop_small o → (∀ r, shaped now o r → ∃ r', k [r] = Ok r' ∧ good_reply r') →
  good_meaning now (Means [o] k b).
Proof.
  intros Ho Hsm Hk. split; [by constructor|]. split; [by constructor|]. intros rs Hrs. cbn in Hrs.
  inversion Hrs as [|? r ? rs' Hr Hnil]; subst. inversion Hnil; subst. by apply Hk.
Qed.

Lemma good_count now os b :
  Forall (sop_ok now) os → Forall sop_small os → zlen os ≤ 16 → good_meaning now (Means os count_true b).
Proof.
  intros Ho Hsm Hl. split; [done|]. split; [done|]. intros rs Hrs%Forall2_length. cbn in Hrs. eexists. split; [done|]. apply good_int.
  assert (∀ l, 0 ≤ foldr Z.add 0 (truth <$> l) ≤ zlen l) as Hc.
  { induction l as [|r l IH]; [done|].
    change (foldr Z.add 0 (truth <$> r :: l)) with (truth r + foldr Z.add 0 (truth <$> l)).
    assert (0 ≤ truth r ≤ 1) by (destruct r as [[]| | |]; cbn; lia). cbn [length]. lia. }
  specialize (Hc rs). unfold INT64_MIN, INT64_MAX. lia.
Qed.

Lemma good_arity now c : zlen c ≤ 64 → Forall plain c → good_meaning now (wrong_arity c).
Proof.
  intros Hl Hc. apply good_says, good_err.
  - apply Forall_app; split; [plain_text|]. apply Forall_app; split; [done|plain_text].
  - rewrite !length_app. change (length (bstr "ERR wrong number of arguments for '")) with 35%nat.
    change (length (bstr "' command")) with 9%nat. lia.
Qed.

Lemma good_const now s : bool_decide (Forall plain s) && (zlen s <=? 4096) = true → good_meaning now (says (Err s)).
Proof. intros [H1%bool_decide_eq_true H2%Z.leb_le]%andb_true_iff. apply good_says, good_err; [exact H1|exact H2]. Qed.

Section requests.
Context (now : Z).
Hypothesis Hnow : 500 ≤ now ≤ INT64_MAX.

Lemma set_deadline_ok opts :
  match set_deadline now opts with
  | inl x => x ≤ INT64_MAX
  | inr e => good_meaning now (says (Err e))
  end.
Proof.
  assert (∀ rest : list bytes, match match rest with [] => inl Sto.kKeepTtl | _ => inr kSyntax end with
    | inl x => x ≤ INT64_MAX | inr e => good_meaning now (says (Err e)) end) as Hkeep.
  { intros [|? ?]; [by vm_compute|by apply good_const]. }
  unfold set_deadline. destruct opts as [|o rest]; [by vm_compute|]. case_bool_decide; [apply Hkeep|].
  case_bool_decide; [|by apply good_const]. destruct rest as [|a rest]; [by apply good_const|].
  destruct (parseInt a) as [n|]; [|by apply good_const].
  destruct (0 <? n); [|by apply good_const].
  destruct (Z.leb_spec (now + n * (if bool_decide (lower <$> o = bstr "ex") then 1000 else 1)) INT64_MAX) as [Hle|];
    [|by apply good_const].
  destruct rest; [exact Hle|by apply good_const].
Qed.

Lemma good_set k v opts : bulk_ok k → bulk_ok v → good_meaning now (set_means now k v opts).
Proof.
  unfold bulk_ok, kMaxBulkLength. intros Hk Hv. pose proof (set_deadline_ok opts) as Hd. unfold set_means.
  destruct (set_deadline now opts) as [x|e]; [|exact Hd]. apply good_one.
  - split; [lia|]. split; [lia|exact Hd].
  - exact Hv.
  - intros [[]| | |] Hr; try done; eexists; (split; [done|]); [apply good_ok|].
    apply good_err; [plain_text|by vm_compute].
Qed.

Lemma key_ok k : bulk_ok k → zlen k < 2 ^ 64.
Proof. unfold bulk_ok, kMaxBulkLength. lia. Qed.

Lemma good_get k : bulk_ok k → good_meaning now (get_means k).
Proof.
  intros Hk%key_ok. apply good_one; [split; [lia|done]|done|].
  intros [|[v|]| |] Hr; try done; eexists; (split; [done|]); [by apply good_bulk|apply good_null].
Qed.

Lemma good_expire k secs : bulk_ok k → good_meaning now (expire_means now k secs).
Proof.
  intros Hk%key_ok. unfold expire_means. destruct (parseInt secs) as [n|]; [|by apply good_const].
  destruct (Z.leb_spec n 0).
  - apply good_count; [|by constructor|done]. constructor; [|done]. split; [lia|done].
  - destruct (Z.leb_spec (now + n * 1000) INT64_MAX); [|by apply good_const].
    apply good_count; [|by constructor|done]. constructor; [|done]. split; [lia|]. split; [done|]. split; [done|].
    unfold Sto.kKeepTtl, kNoExpiry. lia.
Qed.

Lemma good_ttl k : bulk_ok k → good_meaning now (ttl_means k).
Proof.
  intros Hk%key_ok. apply good_one; [split; [lia|done]|done|].
  intros [| |z|] Hr; try done. destruct Hr as [Hz1 Hz2]. destruct (Z.ltb_spec z 0).
  - eexists. split; [done|]. apply good_int. unfold INT64_MIN, INT64_MAX. lia.
  - unfold int64. specialize (Hz2 ltac:(done)).
    rewrite (proj2 (Z.leb_le INT64_MIN _)), (proj2 (Z.leb_le _ INT64_MAX)) by (unfold INT64_MIN; lia).
    eexists. split; [done|]. apply good_int. rewrite Z.quot_div_nonneg by lia.
    pose proof (Z.div_pos (z + 500) 1000). pose proof (Z.div_le_upper_bound (z + 500) 1000 (z + 500)).
    unfold INT64_MIN. lia.
Qed.

Lemma good_each (f : bytes → sop) rest b :
  (∀ k, bulk_ok k → sop_ok now (f k)) → (∀ k, sop_small (f k)) → Forall bulk_ok rest → zlen rest ≤ 16 →
  good_meaning now (Means (f <$> rest) count_true b).
Proof.
  intros Hf Hs Hr Hl. apply good_count; [| |by rewrite length_fmap]; apply Forall_fmap.
  - eapply Forall_impl; [exact Hr|]. exact Hf.
  - apply Forall_true. exact Hs.
Qed.

Lemma good_flush : good_meaning now (Means [SClear] (λ _, Ok (Simple (bstr "OK"))) false).
Proof. apply good_one; [split; [lia|done]|done|]. intros r _. eexists. split; [done|apply good_ok]. Qed.

Ltac request_case nm :=
  let E := fresh "E" in
  case_bool_decide as E;
  [assert (good_meaning now (wrong_arity (lower <$> nm))) as Harity
     by (rewrite E; apply good_arity; [by vm_compute|plain_text]); clear E
  |clear E].

Lemma good_request n args :
  request_ok args → 0 ≤ n ≤ INT64_MAX → good_meaning now (request_means now n args).
Proof.
  intros [Hl Hall] Hn. destruct args as [|nm rest]; [apply good_says, good_null|].
  unfold kMaxArgs in Hl. cbn [length] in Hl. inversion_clear Hall as [|?? Hnm Hr].
  assert (∀ a, a ∈ rest → bulk_ok a) as Hin by (by apply Forall_forall).
  cbn [request_means]. request_case nm.
  { destruct rest as [|k [|? ?]]; [done| |done]. apply good_get, Hin. set_solver. }
  request_case nm.
  { destruct rest as [|k [|v opts]]; [done..|]. apply good_set; apply Hin; set_solver. }
  request_case nm.
  { destruct rest as [|k rest]; [done|]. apply good_each; [|done|done|lia]. intros a Ha%key_ok. split; [lia|done]. }
  request_case nm.
  { destruct rest as [|k rest]; [done|]. apply good_each; [|done|done|lia]. intros a Ha%key_ok. split; [lia|done]. }
  request_case nm.
  { destruct rest as [|k [|x [|? ?]]]; [done..| |done]. apply good_expire, Hin. set_solver. }
  request_case nm.
  { destruct rest as [|k [|? ?]]; [done| |done]. apply good_ttl, Hin. set_solver. }
  request_case nm.
  { destruct rest as [|m [|? ?]]; [|apply good_says, good_bulk, Hin; set_solver|done].
    apply good_says. split; [plain_text|by vm_compute]. }
  request_case nm.
  { destruct rest as [|m [|? ?]]; [done|apply good_says, good_bulk, Hin; set_solver|done]. }
  request_case nm.
  { destruct rest; [|done]. apply good_says, good_int. unfold INT64_MIN. lia. }
  request_case nm.
  { destruct rest as [|o [|? ?]]; [apply good_flush| |by apply good_const].
    case_bool_decide; [apply good_flush|by apply good_const]. }
  request_case nm.
  { split; [done|]. split; [done|]. intros rs _. eexists. split; [done|apply good_ok]. }
  apply good_says, good_err; [apply unknown_text_plain|]. pose proof (unknown_text_length nm rest). lia.
Qed.

End requests.

(** ** One request *)

Section one_request.
Context {P : Type} `{!PoolAllocator P}.
Implicit Types (s : Store P) (M : kvmap).

Lemma sound_size s : sound_store s → 0 ≤ Sto.size s ≤ maxKeys_ s ∧ maxKeys_ s ≤ kPoolCapacity.
Proof.
  intros (M & HR & _). pose proof (Rep_size _ _ HR) as [-> ?]. destruct HR as (bs & G & HI).
  pose proof (si_cap _ _ _ _ HI). lia.
Qed.

Lemma size_int64 s : sound_store s → 0 ≤ Sto.size s ≤ INT64_MAX.
Proof.
  intros HS%sound_size. assert (kPoolCapacity ≤ INT64_MAX) by (by vm_compute). lia.
Qed.

(** A request, given what its operations do: one reply, appended to the output. *)
Lemma dispatch_returns s args now out (Q : list sreply → Store P → Prop) :
  let m := request_means now (Sto.size s) args in
  sound_store s → request_ok args → args ≠ [] → 500 ≤ now ≤ INT64_MAX →
  Buf.wf out → Buf.size out + kMaxReply ≤ Buf.kMaxContent →
  returns (store_run (pair now <$> ops m) s) (λ '(rs, s'), Q rs s') →
  returns (dispatch s (command_of args) now out) (λ '(d, s', out'), ∃ rs r,
    Q rs s' ∧ answer m rs = Ok r ∧ wf_reply r ∧ zlen (encode_reply r) ≤ kMaxReply ∧
    sound_store s' ∧ same_config s s' ∧ Buf.wf out' ∧
    Buf.readable out' = Buf.readable out ++ encode_reply r ∧
    d = if closes m then kCloseConnection else kContinue).
Proof.
  cbv zeta. intros HS Hargs Hne Hnow Hout Hroom HQ.
  destruct (good_request now Hnow _ args Hargs (size_int64 _ HS)) as (Hops & Hsm & Hans).
  rewrite dispatch_request by (done || lia). set (m := request_means now (Sto.size s) args) in *. unfold interpret.
  eapply returns_bind; [eapply returns_and; [exact HQ|apply (store_ops_safe s now (ops m) HS Hops Hsm)]|].
  intros [rs s'] [HQrs (Hsh & HS' & Hc)]. destruct (Hans rs Hsh) as (r & E & Hwf & Hlen). rewrite E. cbn [rbind].
  eapply returns_bind; [apply (emits_reply r Hwf out Hout); lia|]. intros out' [Hout' Hrd]. cbn [returns].
  by exists rs, r.
Qed.

End one_request.

(** C12: the dispatcher is total.  On any request the parser can produce, at any
    key cap and under either policy, it returns without a failing assertion, a
    stray memory access or an overflow, keeps the store sound, and appends
    exactly one reply that a client decodes again whatever follows it; only the
    empty request gets none. *)
Theorem dispatch_total {P} `{!PoolAllocator P} (s : Store P) (args : list bytes) (now : Z) (out : Buf.Buffer)
    (HS : sound_store s) (Hargs : request_ok args) (Hnow : 500 ≤ now ≤ INT64_MAX)
    (Hout : Buf.wf out) (Hroom : Buf.size out + kMaxReply ≤ Buf.kMaxContent) :
  ∃ d s' out', dispatch s (command_of args) now out = Ok (d, s', out') ∧
    sound_store s' ∧ same_config s s' ∧ Buf.wf out' ∧
    if bool_decide (args = []) then out' = out
    else ∃ r, Buf.readable out' = Buf.readable out ++ encode_reply r ∧
              ∀ rest, decode_reply (encode_reply r ++ rest) = Some (r, rest).
Proof.
  case_bool_decide as Hne.
  { subst args. exists kContinue, s, out. split; [done|]. split; [done|]. by split. }
  pose proof (dispatch_returns s args now out (λ _ _, True) HS Hargs Hne Hnow Hout Hroom) as H.
  destruct (good_request now Hnow _ args Hargs (size_int64 _ HS)) as (Hops & Hsm & _).
  apply returns_inv in H as ([[d s'] out'] & E & rs & r & _ & _ & Hwf & _ & HS' & Hc & Hout' & Hrd & _).
  - exists d, s', out'. split; [exact E|]. split; [exact HS'|]. split; [exact Hc|]. split; [exact Hout'|].
    exists r. split; [exact Hrd|]. intros rest. by apply decode_encode.
  - eapply returns_mono; [apply (store_ops_safe s now _ HS Hops Hsm)|]. by intros [].
Qed.

Lemma empty_sound {P} `{!PoolAllocator P} (s : Store P) : Rep s ∅ → sound_store s.
Proof. intros HR. exists ∅. split; [done|]. intros k r Hk. by rewrite lookup_empty in Hk. Qed.

Definition no_output : Buf.Buffer := Buf.mk [] 0 0.

Lemma no_output_wf : Buf.wf no_output.
Proof. split; cbn; lia. Qed.

Lemma dispatch_total_witness :
  ∃ s : Store (gset addr), Sto.make demo_cfg 0 0 = Ok s ∧ sound_store s ∧
    ∃ d s' out', dispatch s (command_of [bstr "SET"; bstr "k"; bstr "v"; bstr "PX"; bstr "5"]) 1000 no_output
                   = Ok (d, s', out') ∧ sound_store s' ∧
      ∃ r, Buf.readable out' = encode_reply r ∧ ∀ rest, decode_reply (encode_reply r ++ rest) = Some (r, rest).
Proof.
  destruct (make_Rep (P := gset addr) demo_cfg 0 0 demo_cfg_ok ltac:(vm_compute; split; [discriminate|reflexivity]))
    as (s & E & HR & _).
  pose proof (empty_sound s HR) as HS. exists s. split; [exact E|]. split; [exact HS|].
  destruct (dispatch_total s [bstr "SET"; bstr "k"; bstr "v"; bstr "PX"; bstr "5"] 1000 no_output HS)
    as (d & s' & out' & H1 & H2 & _ & _ & H3).
  - split; [vm_compute; discriminate|repeat constructor; vm_compute; discriminate].
  - vm_compute. split; discriminate.
  - exact no_output_wf.
  - vm_compute. discriminate.
  - exists d, s', out'. split; [exact H1|]. split; [exact H2|exact H3].
Defined.

(** ** Sessions *)

Inductive event :=
| Request (args : list bytes)
| Tick (limit : Z).                (* the server's timer runs the expire cycle *)

(** The events of one connection, in order, until it is closed. *)
Fixpoint serve {P} `{!PoolAllocator P} (tr : list (Z * event)) (s : Store P) (out : Buf.Buffer) :
    result (Store P * Buf.Buffer) :=
  match tr with
  | [] => Ok (s, out)
  | (now, Tick limit) :: tr =>
      let* (_, s) := activeExpireCycle now limit s in
      serve tr s out
  | (now, Request args) :: tr =>
      let* (p, out) := dispatch s (command_of args) now out in
      match p.1 with
      | kContinue => serve tr p.2 out
      | kCloseConnection => Ok (p.2, out)
      end
  end.

(** A reply to a request, given its meaning for [n] keys, by a map that goes from
    [J] to [J']. *)
Section answers.
Context (run : list (Z * sop) → ideal → list sreply → ideal → Prop).

Definition answer_with (now n : Z) (args : list bytes) (J : ideal) (r : Reply) (J' : ideal) : Prop :=
  args ≠ [] ∧ ∃ results, run (pair now <$> ops (request_means now n args)) J results J' ∧
    answer (request_means now n args) results = Ok r.

End answers.

(** The ideal map with deadlines.  Only DBSIZE is not determined: it may count
    keys whose deadline has passed. *)
Definition ideal_answer (cap now : Z) (args : list bytes) (J : ideal) (r : Reply) (J' : ideal) : Prop :=
  ∃ n, Z.of_nat (base.size (alive_keys now J)) ≤ n ≤ cap ∧
    answer_with (λ tr J rs J', ideal_run tr J = (rs, J')) now n args J r J'.

(** The same with a cap on its keys, beyond which new ones are refused or make it
    drop others. *)
Definition capped_answer (cap : Z) (pol : EvictionPolicy) (now : Z) (args : list bytes) (J : ideal) (r : Reply) (J' : ideal) : Prop :=
  ∃ n, Z.of_nat (base.size (alive_keys now J)) ≤ n ≤ Z.of_nat (base.size J) ∧ n ≤ cap ∧
    answer_with (capped_run cap pol) now n args J r J'.

(** The replies of a map that answers by [ans], one per request that is not empty,
    up to the one that closes. *)
Inductive session (ans : Z → list bytes → ideal → Reply → ideal → Prop) : list (Z * event) → ideal → list Reply → Prop :=
| session_end J : session ans [] J []
| session_tick now limit tr J rs : session ans tr J rs → session ans ((now, Tick limit) :: tr) J rs
| session_empty now tr J rs : session ans tr J rs → session ans ((now, Request []) :: tr) J rs
| session_request now args tr J r J' rs :
    ans now args J r J' → closes (request_means now 0 args) = false → session ans tr J' rs →
    session ans ((now, Request args) :: tr) J (r :: rs)
| session_close now args tr J r J' :
    ans now args J r J' → closes (request_means now 0 args) = true → session ans ((now, Request args) :: tr) J [r].

Definition event_ok (now : Z) (e : event) : Prop :=
  500 ≤ now ≤ INT64_MAX ∧
  match e with
  | Request args => request_ok args
  | Tick limit => 1 ≤ limit ≤ 2 ^ 58
  end.

Fixpoint session_ok (t0 : Z) (tr : list (Z * event)) : Prop :=
  match tr with
  | [] => True
  | (now, e) :: tr => t0 ≤ now ∧ event_ok now e ∧ session_ok now tr
  end.

(** The keys a session stores values under. *)
Definition event_keys (te : Z * event) : gset bytes :=
  match te with
  | (now, Request args) => trace_keys (pair now <$> ops (request_means now 0 args))
  | (_, Tick _) => ∅
  end.

Definition session_keys (tr : list (Z * event)) : gset bytes := ⋃ (event_keys <$> tr).

Section session.
Context {P : Type} `{!PoolAllocator P}.
Implicit Types (s : Store P) (M : kvmap) (J : ideal).

(** The operations of one request, all at the same time. *)
Lemma sim_ops now D s M J os :
  sim now D s M J → Forall (sop_ok now) os → trace_keys (pair now <$> os) ⊆ D →
  returns (store_run (pair now <$> os) s) (λ '(rs, s'),
    rs = (ideal_run (pair now <$> os) J).1 ∧
    ∃ M', sim now D s' M' (ideal_run (pair now <$> os) J).2).
Proof.
  intros HS Hos. revert s M J HS. induction Hos as [|o os Ho _ IH]; intros s M J HS HK; [cbn; split; [done|by exists M]|].
  change (pair now <$> o :: os) with ((now, o) :: (pair now <$> os)) in *. cbn [store_run ideal_run].
  change (trace_keys ((now, o) :: (pair now <$> os))) with (sop_keys o ∪ trace_keys (pair now <$> os)) in HK.
  apply union_subseteq in HK as [HK1 HK2].
  eapply returns_bind; [by apply (sim_step now D s M J HS o Ho)|]. intros [r s1] (M1 & -> & HS1 & _).
  destruct (ideal_op now o J) as [r J1]. cbn [fst snd] in *.
  eapply returns_bind; [by apply (IH s1 M1 J1 HS1)|]. intros [rs s2] (-> & M2 & HS2). cbn [returns].
  destruct (ideal_run _ J1) as [rs J2]. cbn [fst snd] in *. split; [done|by exists M2].
Qed.

(** The same with the cap. *)
Lemma rel_ops now s M J os :
  rel now s M J → Forall (sop_ok now) os →
  returns (store_run (pair now <$> os) s) (λ '(rs, s'), ∃ M' J',
    capped_run (maxKeys_ s) (policy_ s) (pair now <$> os) J rs J' ∧ rel now s' M' J').
Proof.
  intros HS Hos. revert s M J HS. induction Hos as [|o os Ho _ IH]; intros s M J HS.
  { exists M, J. split; [constructor|done]. }
  change (pair now <$> o :: os) with ((now, o) :: (pair now <$> os)) in *. cbn [store_run].
  eapply returns_bind; [by apply (rel_step now s M J o HS Ho)|].
  intros [r s1] (M1 & p & Hp & Hr & HS1 & (Hm & _ & Hpol)). destruct (capped_op p now o J) as [r' J1] eqn:E. cbn [fst snd] in *. subst r'.
  eapply returns_bind; [by apply (IH s1 M1 J1 HS1)|].
  intros [rs s2] (M2 & J2 & Hrun & HS2). cbn [returns]. exists M2, J2. rewrite Hm, Hpol in Hrun. split; [by econstructor|done].
Qed.

Lemma rel_size now s M J :
  rel now s M J → Z.of_nat (base.size (alive_keys now J)) ≤ Sto.size s ≤ Z.of_nat (base.size J) ∧ Sto.size s ≤ maxKeys_ s.
Proof.
  intros HS. destruct (Rep_size _ _ (rel_rep _ _ _ _ HS)) as [-> Hle]. split; [|done].
  rewrite <-!(size_dom (D := gset bytes)). split; apply Nat2Z.inj_le, subseteq_size; [|apply (rel_sees _ _ _ _ HS)]. intros k Hk.
  unfold alive_keys in Hk. apply elem_of_filter in Hk as [Hk _].
  rewrite <-(rel_agree _ _ _ _ HS k), fmap_is_Some in Hk. destruct Hk as [r Hr].
  apply live_some in Hr as (Hr & _). apply elem_of_dom. by exists r.
Qed.

Lemma sim_size now D s M J :
  sim now D s M J → Z.of_nat (base.size (alive_keys now J)) ≤ Sto.size s ≤ maxKeys_ s.
Proof. intros HS. destruct (rel_size _ _ _ _ (sim_rel _ _ _ _ _ HS)) as [[? ?] ?]. lia. Qed.

Lemma request_ops now n n' args : ops (request_means now n args) = ops (request_means now n' args).
Proof.
  destruct args as [|nm rest]; [done|]. cbn [request_means].
  repeat (case_bool_decide; [first [reflexivity|by destruct rest]|]). reflexivity.
Qed.

Lemma request_closes now n n' args : closes (request_means now n args) = closes (request_means now n' args).
Proof.
  destruct args as [|nm rest]; [done|]. cbn [request_means].
  repeat (case_bool_decide; [first [reflexivity|by destruct rest]|]). reflexivity.
Qed.

End session.

(** ** What a map must do to answer for the store *)

(** [Q t s J]: at time [t] the map [J] stands for the store [s].  It answers the
    requests that are [ok] as the store does, and need not notice the time or the
    expire cycle. *)
Record answers_for {P} `{!PoolAllocator P} (ans : Z → list bytes → ideal → Reply → ideal → Prop)
    (Q : Z → Store P → ideal → Prop) (ok : Z → list bytes → Prop) : Prop := {
  af_later t t' s J : t ≤ t' → Q t s J → Q t' s J;
  af_answer now args s s' results r J :
    Q now s J → sound_store s → request_ok args → args ≠ [] → 500 ≤ now ≤ INT64_MAX → ok now args →
    store_run (pair now <$> ops (request_means now (Sto.size s) args)) s = Ok (results, s') →
    answer (request_means now (Sto.size s) args) results = Ok r → ∃ J', ans now args J r J' ∧ Q now s' J';
  af_tick now limit s J r s' :
    Q now s J → 500 ≤ now → 1 ≤ limit ≤ 2 ^ 58 → activeExpireCycle now limit s = Ok (r, s') → Q now s' J;
}.
Arguments af_later {P _} _ _ _ _.
Arguments af_answer {P _} _ _ _ _.
Arguments af_tick {P _} _ _ _ _.

Section maps.
Context {P : Type} `{!PoolAllocator P}.
Implicit Types (s : Store P).

(** While the keys fit, the ideal map does. *)
Lemma ideal_answers_for (cap : Z) (D : gset bytes) :
  answers_for (P := P) (ideal_answer cap) (λ t s J, maxKeys_ s = cap ∧ ∃ M, sim t D s M J)
    (λ now args, event_keys (now, Request args) ⊆ D).
Proof.
  split.
  - intros t t' s J Ht (Hc & M & HS). split; [done|]. exists M. by eapply sim_later.
  - intros now args s s' results r J (<- & M & HS) Hso Hargs Hne Hnow HK Hrun Ha.
    destruct (good_request now Hnow _ args Hargs (size_int64 _ Hso)) as (Hops & Hsm & _).
    pose proof (store_ops_safe s now _ Hso Hops Hsm) as Hsafe. rewrite Hrun in Hsafe. destruct Hsafe as (_ & _ & Hm & _).
    pose proof (sim_ops now D s M J _ HS Hops) as H. rewrite Hrun in H.
    destruct H as (Ers & M' & HS'); [by rewrite (request_ops now _ 0)|].
    eexists. split; [|split; [exact Hm|by exists M']]. exists (Sto.size s). split; [by eapply sim_size|].
    split; [done|]. exists results. split; [|done]. rewrite Ers. by destruct (ideal_run _ J).
  - intros now limit s J r s' (<- & M & HS) Hnow Hl Hrun. assert (sop_ok now (STick limit)) as Hop by (split; [lia|exact Hl]).
    pose proof (sim_step now D s M J HS (STick limit) Hop ltac:(done)) as H. cbn [store_op] in H. rewrite Hrun in H.
    destruct H as (M' & _ & HS' & Hm & _). split; [done|by exists M'].
Qed.

(** Whatever the keys, the capped map does. *)
Lemma capped_answers_for (cap : Z) (pol : EvictionPolicy) :
  answers_for (P := P) (capped_answer cap pol) (λ t s J, maxKeys_ s = cap ∧ policy_ s = pol ∧ ∃ M, rel t s M J)
    (λ _ _, True).
Proof.
  split.
  - intros t t' s J Ht (Hc & Hp & M & HS). split; [done|]. split; [done|]. exists M. by eapply rel_later.
  - intros now args s s' results r J (<- & <- & M & HS) Hso Hargs Hne Hnow _ Hrun Ha.
    destruct (good_request now Hnow _ args Hargs (size_int64 _ Hso)) as (Hops & Hsm & _).
    pose proof (store_ops_safe s now _ Hso Hops Hsm) as Hsafe. rewrite Hrun in Hsafe. destruct Hsafe as (_ & _ & Hm & _ & Hp').
    pose proof (rel_ops now s M J _ HS Hops) as H. rewrite Hrun in H. destruct H as (M' & J' & Hcap & HS').
    exists J'. split; [|split; [exact Hm|split; [congruence|by exists M']]]. destruct (rel_size _ _ _ _ HS) as [Hn Hle].
    exists (Sto.size s). split; [done|]. split; [done|]. split; [done|]. by exists results.
  - intros now limit s J r s' (<- & <- & M & HS) Hnow Hl Hrun. assert (sop_ok now (STick limit)) as Hop by (split; [lia|exact Hl]).
    pose proof (rel_step now s M J (STick limit) HS Hop) as H. cbn [store_op] in H. rewrite Hrun in H.
    destruct H as (M' & n & _ & _ & HS' & Hm & _ & Hp'). split; [done|]. split; [congruence|by exists M'].
Qed.

End maps.

Section serve.
Context {P : Type} `{!PoolAllocator P}.
Implicit Types (s : Store P).

(** The requests of a session are [ok]. *)
Definition asks (ok : Z → list bytes → Prop) (tr : list (Z * event)) : Prop :=
  Forall (λ te, match te.2 with Request args => ok te.1 args | Tick _ => True end) tr.

(** A session is served, and every map that answers for the store gives its
    replies. *)
Lemma serve_session tr t0 s out :
  sound_store s → session_ok t0 tr → Buf.wf out → Buf.size out + zlen tr * kMaxReply ≤ Buf.kMaxContent →
  returns (serve tr s out) (λ '(s', out'), ∃ rs,
    Forall wf_reply rs ∧ Buf.readable out' = Buf.readable out ++ mjoin (encode_reply <$> rs) ∧
    ∀ ans Q ok, answers_for ans Q ok → ∀ J, Q t0 s J → asks ok tr → session ans tr J rs).
Proof.
  revert t0 s out. induction tr as [|[now e] tr IH]; intros t0 s out Hso Hok Hout Hroom.
  { exists []. split; [done|]. split; [by rewrite app_nil_r|]. intros. constructor. }
  destruct Hok as (Hle & [Hnow He] & Hok). cbn [length] in Hroom.
  assert (0 ≤ zlen tr * kMaxReply) as Hpos by (unfold kMaxReply; lia).
  destruct e as [args|limit]; cbn [serve].
  - destruct (decide (args = [])) as [->|Hne].
    { eapply returns_mono; [apply (IH now s out Hso Hok Hout); unfold kMaxReply in *; lia|].
      intros [s' out'] (rs & H1 & H2 & H3). exists rs. split; [done|]. split; [done|].
      intros ans Q ok HQ J HJ [_ HK]%Forall_cons. constructor. eapply H3; [done|by eapply (af_later _ _ _ HQ)|done]. }
    destruct (good_request now Hnow _ args He (size_int64 _ Hso)) as (Hops & Hsm & _).
    eapply returns_bind; [apply (dispatch_returns s args now out
      (λ rs s', store_run (pair now <$> ops (request_means now (Sto.size s) args)) s = Ok (rs, s')) Hso He Hne Hnow Hout)|].
    { unfold kMaxReply in *. lia. }
    { pose proof (store_ops_safe s now _ Hso Hops Hsm) as H. by destruct (store_run _ s) as [[]|]. }
    intros [[d s1] out1] (results & r & Hrun & Ha & Hwf & Hlen & Hso1 & _ & Hout1 & Hrd & ->). cbn [fst snd].
    assert (∀ ans Q ok, answers_for ans Q ok → ∀ J, Q t0 s J → asks ok ((now, Request args) :: tr) →
      asks ok tr ∧ ∃ J', ans now args J r J' ∧ Q now s1 J') as Hstep.
    { intros ans Q ok HQ J HJ [HK HK']%Forall_cons. split; [done|].
      by eapply (af_answer _ _ _ HQ); [eapply (af_later _ _ _ HQ)|..]. }
    rewrite (request_closes now (Sto.size s) 0). destruct (closes (request_means now 0 args)) eqn:Ec.
    { exists [r]. split; [by repeat constructor|]. split; [rewrite Hrd; cbn; by rewrite app_nil_r|].
      intros ans Q ok HQ J HJ HK. destruct (Hstep ans Q ok HQ J HJ HK) as (_ & J' & Hans & _). by eapply session_close. }
    eapply returns_mono; [apply (IH now s1 out1 Hso1 Hok Hout1)|].
    { rewrite <-(Buf.readable_length out1), Hrd, length_app by done.
      rewrite <-(Buf.readable_length out) in Hroom by done. unfold kMaxReply in *. lia. }
    intros [s' out'] (rs & H1 & H2 & H3). exists (r :: rs).
    split; [by constructor|]. split; [by rewrite H2, Hrd, stream_cons, app_assoc|].
    intros ans Q ok HQ J HJ HK. destruct (Hstep ans Q ok HQ J HJ HK) as (HK' & J' & Hans & HJ'). eapply session_request; [done|done|by eapply H3].
  - assert (sop_ok now (STick limit)) as Hop by (split; [lia|exact He]).
    pose proof (store_op_safe s now (STick limit) Hso Hop Logic.I) as Ht. cbn [store_op] in Ht.
    destruct (activeExpireCycle now limit s) as [[res s1]|] eqn:Ea; [|done]. cbn [rbind returns] in Ht |- *.
    destruct Ht as (_ & Hso1 & _).
    eapply returns_mono; [apply (IH now s1 out Hso1 Hok Hout); unfold kMaxReply in *; lia|].
    intros [s' out'] (rs & H1 & H2 & H3). exists rs. split; [done|]. split; [done|].
    intros ans Q ok HQ J HJ [_ HK]%Forall_cons. constructor. eapply H3; [done| |done].
    eapply (af_tick _ _ _ HQ); [by eapply (af_later _ _ _ HQ)|lia|exact He|exact Ea].
Qed.

(** The keys of a session are enough for its requests. *)
Lemma session_asks tr : asks (λ now args, event_keys (now, Request args) ⊆ session_keys tr) tr.
Proof.
  apply Forall_forall. intros [now [args|limit]] Hin; [|done]. cbn [fst snd]. intros k Hk.
  unfold session_keys. apply elem_of_union_list. exists (event_keys (now, Request args)). split; [|done].
  apply list_elem_of_fmap. by exists (now, Request args).
Qed.

End serve.

(** C2: a session is the ideal one.  From a new store, any sequence of requests
    and timer ticks at times that do not go back is served without a fault, and
    the output is, byte for byte, the encoding of one reply per non-empty request
    up to QUIT.  When the cap covers the keys the session uses these are the
    replies of an ideal map with deadlines; and whatever the keys, those of that
    map with the cap, in which a new key is refused or another one dropped, as the
    policy says.  Only DBSIZE is not determined by the map: it may count keys
    whose deadline has passed. *)
Theorem session_refines_redis {P} `{!PoolAllocator P} (cfg : Config) (rd0 rd1 : Z) (tr : list (Z * event))
    (Hcfg : config_ok cfg) (Hrd : 0 ≤ rd1 < 2 ^ 32) (Htr : session_ok 500 tr)
    (Hroom : zlen tr * kMaxReply ≤ Buf.kMaxContent) :
  ∃ (s s' : Store P) out rs, Sto.make cfg rd0 rd1 = Ok s ∧ serve tr s no_output = Ok (s', out) ∧
    Buf.readable out = mjoin (encode_reply <$> rs) ∧ decode_stream (Buf.readable out) = Some rs ∧
    (Z.of_nat (base.size (session_keys tr)) ≤ config_cap cfg → session (ideal_answer (config_cap cfg)) tr ∅ rs) ∧
    session (capped_answer (config_cap cfg) (policy cfg)) tr ∅ rs.
Proof.
  destruct (make_Rep (P := P) cfg rd0 rd1 Hcfg Hrd) as (s & E & HR & Hm & Hp & _). rewrite <-Hm, <-Hp.
  pose proof (serve_session tr 500 s no_output (empty_sound _ HR) Htr no_output_wf Hroom) as H.
  apply returns_inv in H as ([s' out] & E' & rs & H1 & H2 & H3). exists s, s', out, rs. cbn [app] in H2.
  split; [done|]. split; [done|]. split; [exact H2|]. split; [rewrite H2; by apply decode_stream_encode|]. split.
  - intros Hfit. eapply H3; [apply (ideal_answers_for (maxKeys_ s) (session_keys tr))| |apply session_asks].
    split; [done|]. exists ∅. apply (sim_start _ _ _ HR Hfit).
  - eapply H3; [apply (capped_answers_for (maxKeys_ s) (policy_ s))| |by apply Forall_forall; intros [? []]].
    split; [done|]. split; [done|]. exists ∅. by apply rel_start.
Qed.

Definition demo_session : list (Z * event) :=
  [(1000, Request [bstr "SET"; bstr "k"; bstr "v"; bstr "EX"; bstr "10"]);
   (2000, Request [bstr "TTL"; bstr "k"]); (5000, Request [bstr "GET"; bstr "k"]);
   (11001, Tick 20); (11001, Request [bstr "get"; bstr "k"]); (12000, Request [bstr "QUIT"]);
   (13000, Request [bstr "PING"])].

Lemma session_refines_redis_witness :
  ∃ (s s' : Store (gset addr)) out rs, Sto.make demo_cfg 0 0 = Ok s ∧
    serve demo_session s no_output = Ok (s', out) ∧
    session (ideal_answer 3) demo_session ∅ rs ∧ session (capped_answer 3 kAllKeysLru) demo_session ∅ rs ∧
    Buf.readable out = mjoin (encode_reply <$> rs) ∧
    rs = [Simple (bstr "OK"); Int 9; Bulk (bstr "v"); Null; Simple (bstr "OK")].
Proof.
  destruct (session_refines_redis (P := gset addr) demo_cfg 0 0 demo_session)
    as (s & s' & out & rs & H1 & H2 & H3 & H4 & H5 & H6).
  - exact demo_cfg_ok.
  - vm_compute. split; [discriminate|reflexivity].
  - cbn [session_ok demo_session event_ok]. repeat split.
    all: first [apply Forall_nil_2 | repeat apply Forall_cons_2; try apply Forall_nil_2; vm_compute; discriminate].
  - vm_compute. discriminate.
  - exists s, s', out, rs. split; [exact H1|]. split; [exact H2|].
    split; [apply H5; vm_compute; discriminate|]. split; [exact H6|]. split; [exact H3|].
    vm_compute in H1. injection H1 as <-. vm_compute in H2. injection H2 as _ <-.
    vm_compute in H4. injection H4 as <-. reflexivity.
Defined.

(** ** The parts a client sees *)

(** C23: the dispatcher as a program over the store.  On a non-empty request it
    is equal, faults included, to running the store operations the request means
    in order and encoding the reply to their results: names and options are
    folded to lower case, arities and options are checked before anything is
    changed, and deadlines are computed as unbounded sums that must fit 64 bits. *)
Theorem dispatch_runs_meaning {P} `{!PoolAllocator P} (s : Store P) (args : list bytes) (now : Z)
    (out : Buf.Buffer) (Hnow : 0 ≤ now ≤ INT64_MAX) (Hne : args ≠ []) :
  dispatch s (command_of args) now out = interpret (request_means now (Sto.size s) args) now s out.
Proof. by apply dispatch_request. Qed.

Lemma dispatch_runs_meaning_witness :
  ∃ s : Store (gset addr), Sto.make demo_cfg 0 0 = Ok s ∧
    dispatch s (command_of [bstr "SET"; bstr "k"; bstr "v"; bstr "px"; bstr "7"]) 1000 no_output =
    interpret (Means [SSet (bstr "k") (bstr "v") 1007]
                 (λ rs, Ok (match rs with [RBool true] => Simple (bstr "OK") | _ => Err kOom end)) false)
      1000 s no_output.
Proof.
  destruct (make_Rep (P := gset addr) demo_cfg 0 0 demo_cfg_ok ltac:(vm_compute; split; [discriminate|reflexivity]))
    as (s & E & _).
  exists s. split; [exact E|].
  apply (dispatch_runs_meaning s [bstr "SET"; bstr "k"; bstr "v"; bstr "px"; bstr "7"] 1000 no_output).
  - vm_compute. split; discriminate.
  - discriminate.
Defined.

(** C32: replies survive the wire.  Each encoder appends one reply that a client
    decodes to the same value, whatever bytes come after it, and no other bytes
    decode to that value. *)
Theorem reply_roundtrip (r : Reply) (out : Buf.Buffer) (Hr : wf_reply r) (Hout : Buf.wf out)
    (Hroom : Buf.size out + zlen (encode_reply r) ≤ Buf.kMaxContent) :
  ∃ out' w, emit_reply r out = Ok out' ∧ Buf.readable out' = Buf.readable out ++ w ∧
    ∀ s rest, decode_reply s = Some (r, rest) ↔ s = w ++ rest.
Proof.
  pose proof (emits_reply r Hr out Hout Hroom) as H. apply returns_inv in H as (out' & E & _ & Hrd).
  exists out', (encode_reply r). split; [done|]. split; [done|]. intros s rest.
  split; [apply decode_reply_inv|intros ->; by apply decode_encode].
Qed.

Lemma reply_roundtrip_witness :
  ∃ out' w, emit_reply (Bulk (crlf_text "a|b")) no_output = Ok out' ∧ Buf.readable out' = w ∧
    ∀ rest, decode_reply (w ++ rest) = Some (Bulk (crlf_text "a|b"), rest).
Proof.
  destruct (reply_roundtrip (Bulk (crlf_text "a|b")) no_output) as (out' & w & H1 & H2 & H3).
  - vm_compute. discriminate.
  - exact no_output_wf.
  - vm_compute. discriminate.
  - exists out', w. split; [exact H1|]. split; [exact H2|]. intros rest. by apply H3.
Defined.

(** C38: integer arguments.  The whole argument must be a run of decimal digits,
    optionally after one minus sign, whose value is a 64-bit integer; the result
    is that value, and every 64-bit integer is read back from its own decimal
    form. *)
Theorem parseInt_spec (a : bytes) (v : Z) :
  (parseInt a = Some v ↔
     ∃ neg ds, a = numeral neg ds ∧ ds ≠ [] ∧ Forall (λ c, 48 ≤ code c ≤ 57) ds ∧
               v = numeral_value neg ds ∧ INT64_MIN ≤ v ≤ INT64_MAX) ∧
  (parseInt (to_chars v) = Some v ↔ INT64_MIN ≤ v ≤ INT64_MAX).
Proof.
  split; split.
  - apply parseInt_inv.
  - intros (neg & ds & -> & Hne & Hall & -> & Hv). by apply parseInt_numeral.
  - intros (_ & _ & _ & _ & _ & _ & Hv)%parseInt_inv. exact Hv.
  - apply parseInt_to_chars.
Qed.

(** What is left of a key's time: -2 without the key, -1 without a deadline. *)
Definition time_left (now : Z) (k : bytes) (M : kvmap) : Z :=
  match live now k M with
  | Some r => if a_expires r =? kNoExpiry then -1 else a_expires r - now
  | None => -2
  end.

(** C40: TTL, and when it overflows.  TTL answers -2 for a key that is not there or
    whose deadline has passed, -1 for one without a deadline, and otherwise the
    time left in seconds, rounded to the nearest; and it leaves the 64-bit range,
    which is undefined behaviour, exactly when the milliseconds left are within
    500 of the largest 64-bit number.  On a clock that has reached 500 ms that
    cannot happen. *)
Theorem ttl_rounding_overflow {P} `{!PoolAllocator P} (s : Store P) (M : kvmap) (k : bytes) (now : Z) (out : Buf.Buffer)
    (HR : Rep s M) (Hk : zlen k < 2 ^ 64) (Hnow : 0 ≤ now ≤ INT64_MAX)
    (Hmax : ∀ r, M !! k = Some r → a_expires r ≤ INT64_MAX)
    (Hout : Buf.wf out) (Hroom : Buf.size out + kMaxReply ≤ Buf.kMaxContent) :
  let ms := time_left now k M in
  (if INT64_MAX <? ms + 500 then dispatch s (command_of [bstr "TTL"; k]) now out = Fault FOverflow
   else ∃ s' out', dispatch s (command_of [bstr "TTL"; k]) now out = Ok (kContinue, s', out') ∧
     Rep s' (reap now k M) ∧
     Buf.readable out' = Buf.readable out ++ encode_reply (Int (if ms <? 0 then ms else Z.quot (ms + 500) 1000))) ∧
  (500 ≤ now → ms + 500 ≤ INT64_MAX).
Proof.
  intros ms. destruct HR as (bs & G & HI).
  assert (-2 ≤ ms ∧ ms + now ≤ INT64_MAX) as [Hlo Hhi].
  { subst ms. unfold time_left. destruct (live now k M) as [r|] eqn:El; [|lia].
    apply live_some in El as (HM & Hx & _). specialize (Hmax r HM). unfold rec_expired in Hx.
    destruct (a_expires r =? kNoExpiry); [lia|]. apply Z.ltb_ge in Hx. lia. }
  split; [|lia]. rewrite dispatch_request by done.
  change (request_means now (Sto.size s) [bstr "TTL"; k]) with (ttl_means k). unfold ttl_means.
  rewrite interpret_one. cbn [store_op].
  assert (∀ r, live now k M = Some r → a_expires r ≤ INT64_MAX) as Hlive.
  { intros r Hr. apply live_some in Hr as (HM & _). by apply Hmax. }
  pose proof (ttlMs_step s bs G M k now HI Hk (proj1 Hnow) Hlive) as H.
  apply returns_inv in H as ([d s'] & -> & bs' & G' & HI' & _ & ->). fold (time_left now k M). fold ms. cbn [rbind].
  assert (∀ z, INT64_MIN ≤ z ≤ INT64_MAX → ∃ out', emit_reply (Int z) out = Ok out' ∧
    Buf.readable out' = Buf.readable out ++ encode_reply (Int z)) as Hemit.
  { intros z Hz. pose proof (emits_reply (Int z) Hz out Hout) as H.
    apply returns_inv in H as (out' & E & _ & Hrd); [by exists out'|].
    pose proof (proj2 (good_int z Hz)). lia. }
  unfold int64. destruct (Z.ltb_spec ms 0) as [Hneg|Hpos]; cbn [rbind].
  - rewrite (proj2 (Z.ltb_ge _ _)) by (unfold INT64_MAX in *; lia). destruct (Hemit ms) as (out' & -> & Hrd).
    { unfold INT64_MIN, INT64_MAX in *. lia. }
    exists s', out'. split; [done|]. split; [by exists bs', G'|done].
  - rewrite (proj2 (Z.leb_le INT64_MIN _)) by (unfold INT64_MIN; lia). cbn [andb].
    destruct (Z.ltb_spec INT64_MAX (ms + 500)) as [Hov|Hok].
    { by rewrite (proj2 (Z.leb_gt _ _)). }
    rewrite (proj2 (Z.leb_le _ _)) by done. cbn [rbind].
    destruct (Hemit (Z.quot (ms + 500) 1000)) as (out' & -> & Hrd).
    { rewrite Z.quot_div_nonneg by lia. pose proof (Z.div_pos (ms + 500) 1000).
      pose proof (Z.div_le_upper_bound (ms + 500) 1000 INT64_MAX). unfold INT64_MIN, INT64_MAX in *. lia. }
    exists s', out'. split; [done|]. split; [by exists bs', G'|done].
Qed.

(** A key with the latest deadline, at time 0. *)
Lemma ttl_rounding_overflow_witness :
  ∃ (s s1 : Store (gset addr)) M1, Sto.make demo_cfg 0 0 = Ok s ∧
    Sto.set (bstr "k") (bstr "v") INT64_MAX 0 s = Ok (true, s1) ∧ Rep s1 M1 ∧
    time_left 0 (bstr "k") M1 = INT64_MAX ∧
    dispatch s1 (command_of [bstr "TTL"; bstr "k"]) 0 no_output = Fault FOverflow ∧
    ∃ s2 out, dispatch s1 (command_of [bstr "TTL"; bstr "k"]) 500 no_output = Ok (kContinue, s2, out) ∧
      Buf.readable out = bstr ":9223372036854775" ++ CRLF.
Proof.
  destruct (make_Rep (P := gset addr) demo_cfg 0 0 demo_cfg_ok ltac:(vm_compute; split; [discriminate|reflexivity]))
    as (s & E & (bs & G & HI) & _).
  pose proof (set_step _ _ _ _ (bstr "k") (bstr "v") INT64_MAX 0 HI ltac:(vm_compute; reflexivity)) as H.
  apply returns_inv in H as ([b s1] & Hset & M1 & HR1 & _ & He).
  assert (b = true ∧ M1 = {[bstr "k" := mkRec (bstr "v") INT64_MAX 0]}) as [-> ->]
    by (vm_compute in E; injection E as <-; vm_compute in Hset; injection Hset as <- _; exact He).
  assert (∀ r, ({[bstr "k" := mkRec (bstr "v") INT64_MAX 0]} : kvmap) !! bstr "k" = Some r → a_expires r ≤ INT64_MAX) as Hmax
    by (intros r; rewrite lookup_singleton_eq; intros [= <-]; vm_compute; discriminate).
  exists s, s1, {[bstr "k" := mkRec (bstr "v") INT64_MAX 0]}. split; [exact E|]. split; [exact Hset|]. split; [exact HR1|].
  split; [vm_compute; reflexivity|]. split.
  - apply (ttl_rounding_overflow s1 _ (bstr "k") 0 no_output HR1); try exact Hmax; try exact no_output_wf; vm_compute;
      first [reflexivity|split; discriminate|discriminate].
  - destruct (ttl_rounding_overflow s1 _ (bstr "k") 500 no_output HR1) as [H _]; try exact Hmax; try exact no_output_wf;
      [vm_compute; reflexivity|vm_compute; split; discriminate|vm_compute; discriminate|].
    change (INT64_MAX <? _) with false in H. destruct H as (s2 & out & H1 & _ & H2). exists s2, out. split; [exact H1|exact H2].
Defined.

(** SET accepts that deadline. *)
Definition latest_px : list bytes := [bstr "SET"; bstr "k"; bstr "v"; bstr "PX"; bstr "9223372036854775807"].

Example latest_px_accepted :
  (let* s := Sto.make (P := gset addr) demo_cfg 0 0 in
   let* (p, out) := dispatch s (command_of latest_px) 0 no_output in
   let* (_, out) := dispatch p.2 (command_of [bstr "GET"; bstr "k"]) 0 out in
   Ok (decode_stream (Buf.readable out))) = Ok (Some [Simple (bstr "OK"); Bulk (bstr "v")]).
Proof. vm_compute. reflexivity. Qed.

End CmdProps.
