(* ===== verification/Kernel.v ===== *)
(** * The operating system as the server sees it

    The system calls [net/] makes are not code of the repository: they are the
    operations of a class, on a state [K] nothing is known about beyond the
    observations and the documented behaviour stated as its laws.  [UniqueFd]
    ([net/unique_fd.cpp]) is the first client. *)

From Stdlib Require Import ZArith Lia Strings.Byte.
From stdpp Require Import base gmap numbers list.
From S2P Require Import Prelude Entry.

Local Open Scope Z_scope.

(** The error codes the source names, and the rest. *)
Inductive errno :=
| EAGAIN | EINTR | ECONNABORTED | EPERM | EPROTO | ENOPROTOOPT | ENETDOWN | ENETUNREACH | ENONET
| EHOSTDOWN | EHOSTUNREACH | EOPNOTSUPP | ETIMEDOUT | EMFILE | ENFILE | EBADF | ENOTSOCK | EINVAL
| EFAULT | ENOENT | EOTHER (n : Z).

#[global] Instance errno_eq_dec : EqDecision errno.
Proof. solve_decision. Defined.

Definition EWOULDBLOCK : errno := EAGAIN.

(** [std::system_error] in the generic category. *)
Record system_error := mkSystemError { err_code : errno; what_arg : bytes }.

(** [if (r == -1) throw std::system_error(errno, std::generic_category(), msg)]. *)
Definition throws (msg : bytes) (r : option errno) : option system_error := (λ e, mkSystemError e msg) <$> r.

Definition EPOLLIN : Z := 1.
Definition EPOLLOUT : Z := 4.
Definition EPOLLERR : Z := 8.
Definition EPOLLHUP : Z := 16.

(** The events one wait has room for. *)
Definition kMaxEvents : Z := 1024.

(** The object an [IoHandler*] points to. *)
Inductive handler := HAcceptor | HConn (a : addr).

#[global] Instance handler_eq_dec : EqDecision handler.
Proof. solve_decision. Defined.

Record epoll_event := mkEvent { ev_events : Z; ev_ptr : handler }.

#[global] Instance epoll_event_eq_dec : EqDecision epoll_event.
Proof. solve_decision. Defined.

(** accept(2) errors after which the queued connection is gone. *)
Definition accept_consumed (e : errno) : Prop :=
  e ∈ [EINTR; ECONNABORTED; EPERM; EPROTO; ENOPROTOOPT; ENETDOWN; ENETUNREACH; ENONET; EHOSTDOWN;
       EHOSTUNREACH; EOPNOTSUPP; ETIMEDOUT].

Class Kernel (K : Type) := {
  (* what can be observed: the descriptors these calls gave out and that are
     still open, those of them that are listening sockets, the interest list of
     the one epoll instance (an event loop makes no other, so the calls need not
     name it, and one that has been destroyed makes no call), the steady clock in nanoseconds, the bytes read
     from and written to each descriptor, and how many connections and signals, and how many bytes
     to read, the outside world still has in store *)
  k_open : K → gset Z;
  k_listening : K → gset Z;
  k_interest : K → gmap Z epoll_event;
  k_ns : K → Z;
  k_io : K → Z → bytes * bytes;
  k_budget : K → nat;
  k_bytes : K → Z;
  (* the calls *)
  sys_read : Z → Z → K → (bytes + errno) * K;
  sys_write : Z → bytes → K → (Z + errno) * K;
  sys_close : Z → K → K;
  sys_epoll_add : Z → epoll_event → K → option errno * K;
  sys_epoll_mod : Z → epoll_event → K → option errno * K;
  sys_epoll_del : Z → K → option errno * K;
  (* the events, or an error; and whether a signal handler ran meanwhile *)
  sys_epoll_wait : Z → K → (list epoll_event + errno) * bool * K;
  sys_accept4 : Z → K → (Z + errno) * K;
  sys_nodelay : Z → K → bool * K;
  sys_open_null : K → option Z * K;
  sys_steady : K → Z * K;
  (* fprintf to stderr, and the texts of the C++ library for an error *)
  sys_stderr : bytes → K → K;
  k_message : errno → bytes;
  k_what : errno → bytes → bytes;
  (* setting up *)
  sys_epoll_create : K → (Z + errno) * K;
  inet_pton : bytes → option Z;
  sys_socket : K → (Z + errno) * K;
  sys_reuseaddr : Z → K → option errno * K;
  sys_bind : Z → Z → Z → K → option errno * K;
  sys_listen : Z → Z → K → option errno * K;
}.

(** The bytes read from a descriptor, and those written to it, since it was opened. *)
Abbreviation k_received k fd := ((k_io k fd).1).
Abbreviation k_sent k fd := ((k_io k fd).2).

(** [e.what()]: the implementation's text for the code and the argument. *)
Definition what {K} `{!Kernel K} (e : system_error) : bytes := k_what (err_code e) (what_arg e).

(** The clock in milliseconds. *)
Definition k_clock {K} `{!Kernel K} (k : K) : Z := nowMs (k_ns k).

(** Time passes, and the outside world uses up what it had in store. *)
Definition later {K} `{!Kernel K} (k k' : K) : Prop :=
  k_clock k ≤ k_clock k' ∧ (k_budget k' ≤ k_budget k)%nat ∧ k_bytes k' ≤ k_bytes k.

(** A call that changes nothing else. *)
Definition idle_step {K} `{!Kernel K} (k k' : K) : Prop :=
  k_open k' = k_open k ∧ k_listening k' = k_listening k ∧ k_interest k' = k_interest k ∧
  (∀ fd', k_io k' fd' = k_io k fd') ∧ later k k'.

(** A new descriptor. *)
Definition opens {K} `{!Kernel K} (fd : Z) (k k' : K) : Prop :=
  0 ≤ fd ∧ (fd ∉ k_open k) ∧ k_open k' = {[fd]} ∪ k_open k ∧ k_listening k' = k_listening k ∧
  k_interest k' = k_interest k ∧ (∀ fd', fd' ≠ fd → k_io k' fd' = k_io k fd') ∧ k_io k' fd = ([], []) ∧
  later k k'.

(** A descriptor gone, from the interest list too. *)
Definition closes {K} `{!Kernel K} (fd : Z) (k k' : K) : Prop :=
  k_open k' = k_open k ∖ {[fd]} ∧ k_listening k' = k_listening k ∖ {[fd]} ∧
  k_interest k' = delete fd (k_interest k) ∧ (∀ fd', k_io k' fd' = k_io k fd') ∧ later k k'.

(** The interest list changes at [fd], to [x]. *)
Definition watches {K} `{!Kernel K} (fd : Z) (x : option epoll_event) (k k' : K) : Prop :=
  k_open k' = k_open k ∧ k_listening k' = k_listening k ∧
  k_interest k' = partial_alter (λ _, x) fd (k_interest k) ∧ (∀ fd', k_io k' fd' = k_io k fd') ∧
  later k k'.

(** [s] goes out on [fd]. *)
Definition sends {K} `{!Kernel K} (fd : Z) (s : bytes) (k k' : K) : Prop :=
  k_open k' = k_open k ∧ k_listening k' = k_listening k ∧ k_interest k' = k_interest k ∧
  (∀ fd', fd' ≠ fd → k_io k' fd' = k_io k fd') ∧ k_io k' fd = (k_received k fd, k_sent k fd ++ s) ∧ later k k'.

(** [s] comes in on [fd]. *)
Definition receives {K} `{!Kernel K} (fd : Z) (s : bytes) (k k' : K) : Prop :=
  k_open k' = k_open k ∧ k_listening k' = k_listening k ∧ k_interest k' = k_interest k ∧
  (∀ fd', fd' ≠ fd → k_io k' fd' = k_io k fd') ∧ k_io k' fd = (k_received k fd ++ s, k_sent k fd) ∧ later k k'.

(** [fd] becomes a listening socket. *)
Definition listens {K} `{!Kernel K} (fd : Z) (k k' : K) : Prop :=
  k_open k' = k_open k ∧ k_listening k' = {[fd]} ∪ k_listening k ∧ k_interest k' = k_interest k ∧
  (∀ fd', k_io k' fd' = k_io k fd') ∧ later k k'.

(** The documented behaviour the server relies on. *)
Class KernelLaws (K : Type) `{!Kernel K} := {
  ns_range k : 0 ≤ k_ns k ≤ INT64_MAX;
  bytes_range k : 0 ≤ k_bytes k;
  listening_open k : k_listening k ⊆ k_open k;
  (* read(2) stores at most the bytes asked for *)
  read_law fd n k r k' : sys_read fd n k = (r, k') →
    match r with
    | inl bs => receives fd bs k k' ∧ zlen bs ≤ n ∧ zlen bs + k_bytes k' ≤ k_bytes k
    | inr _ => idle_step k k'
    end;
  (* write(2) takes a prefix of the bytes given, or nothing; it is interrupted
     only by a signal *)
  write_law fd s k r k' : sys_write fd s k = (r, k') →
    match r with
    | inl n => 0 ≤ n ≤ zlen s ∧ sends fd (take (Z.to_nat n) s) k k'
    | inr e => idle_step k k' ∧ (e = EINTR → (k_budget k' < k_budget k)%nat)
    end;
  close_law fd k : fd ∈ k_open k → closes fd k (sys_close fd k);
  (* epoll_ctl(2) *)
  add_law fd ev k r k' : sys_epoll_add fd ev k = (r, k') →
    match r with None => watches fd (Some ev) k k' | Some _ => idle_step k k' end;
  mod_law fd ev k r k' : sys_epoll_mod fd ev k = (r, k') →
    match r with
    | None => watches fd (Some ev) k k'
    | Some e => idle_step k k' ∧ (e = ENOENT → k_interest k !! fd = None) ∧ (e = EBADF → fd ∉ k_open k)
    end;
  del_law fd k r k' : sys_epoll_del fd k = (r, k') → fd ∈ k_open k → is_Some (k_interest k !! fd) →
    r = None ∧ watches fd None k k';
  (* epoll_wait(2) reports handlers of the interest list *)
  wait_law t k r b k' : sys_epoll_wait t k = (r, b, k') →
    idle_step k k' ∧
    ∀ evs, r = inl evs → zlen evs ≤ kMaxEvents ∧
      ∀ ev, ev ∈ evs → ∃ fd ev0, k_interest k !! fd = Some ev0 ∧ ev_ptr ev = ev_ptr ev0;
  (* accept4(2) returns a new descriptor, or fails; success and the errors that
     lose the queued connection use it up *)
  accept_law fd k r k' : sys_accept4 fd k = (r, k') →
    match r with
    | inl fd' => opens fd' k k' ∧ (k_budget k' < k_budget k)%nat
    | inr e => idle_step k k' ∧ (accept_consumed e → (k_budget k' < k_budget k)%nat) ∧
               (fd ∈ k_listening k → e ∉ [EBADF; ENOTSOCK; EINVAL; EFAULT])
    end;
  nodelay_law fd k r k' : sys_nodelay fd k = (r, k') → idle_step k k';
  open_null_law k r k' : sys_open_null k = (r, k') →
    match r with Some fd => opens fd k k' | None => idle_step k k' end;
  steady_law k t k' : sys_steady k = (t, k') → idle_step k k' ∧ t = k_ns k';
  stderr_law s k : idle_step k (sys_stderr s k);
  epoll_create_law k r k' : sys_epoll_create k = (r, k') →
    match r with inl fd => opens fd k k' | inr _ => idle_step k k' end;
  socket_law k r k' : sys_socket k = (r, k') →
    match r with inl fd => opens fd k k' | inr _ => idle_step k k' end;
  reuseaddr_law fd k r k' : sys_reuseaddr fd k = (r, k') → idle_step k k';
  bind_law fd a p k r k' : sys_bind fd a p k = (r, k') → idle_step k k';
  listen_law fd n k r k' : sys_listen fd n k = (r, k') → fd ∈ k_open k →
    match r with None => listens fd k k' | Some _ => idle_step k k' end;
}.

Lemma clock_range {K} `{!Kernel K, !KernelLaws K} (k : K) : 0 ≤ k_clock k ≤ INT64_MAX.
Proof.
  pose proof (ns_range k). unfold k_clock, nowMs. rewrite Z.quot_div_nonneg by lia.
  pose proof (Z.div_pos (k_ns k) 1000000). pose proof (Z.div_le_upper_bound (k_ns k) 1000000 INT64_MAX).
  unfold INT64_MAX in *. lia.
Qed.

(** ** UniqueFd *)

Module UniqueFd.
Section ops.
Context {K : Type} `{!Kernel K}.

(** The object is its [fd_]; -1 owns nothing. *)
Definition bool_ (fd_ : Z) : bool := negb (fd_ =? -1).

Definition destroy (fd_ : Z) (k : K) : K := if fd_ =? -1 then k else sys_close fd_ k.

(** The descriptor given up, and the object after. *)
Definition release (fd_ : Z) : Z * Z := (fd_, -1).

Definition reset (newFd : Z) (fd_ : Z) (k : K) : Z * K :=
  if newFd =? fd_ then (fd_, k)
  else
    let k := if negb (fd_ =? -1) then sys_close fd_ k else k in
    (newFd, k).

(** Move construction: the new object, and the old one after. *)
Definition move (other : Z) : Z * Z := release other.

(** Move assignment, on the objects by name: [other] may be [this]. *)
Definition move_assign (this other : N) (objs : gmap N Z) (k : K) : option (gmap N Z * K) :=
  o ← objs !! other;
  let '(newFd, o) := release o in
  let objs := <[other := o]> objs in
  f ← objs !! this;
  let '(f, k) := reset newFd f k in
  Some (<[this := f]> objs, k).

End ops.
End UniqueFd.
