(* ===== verification/World.v ===== *)
(** * The server's objects ([net/server.h], [net/connection.h], [net/event_loop.h])

    Connections are heap objects the epoll instance points to, so the state is a
    heap of connections, the server that owns them, and the kernel.  The
    functions of the classes are state transformers over it. *)

From Stdlib Require Import ZArith Lia Strings.Byte Strings.String.
From stdpp Require Import base gmap numbers list.
From S2P Require Import Prelude Buffer Resp Entry Table Store Command Kernel.

Local Open Scope Z_scope.

(** ** Data *)

Inductive ConnectionState := kOpen | kClosing | kClosed.

Definition state_eqb (a b : ConnectionState) : bool :=
  match a, b with kOpen, kOpen | kClosing, kClosing | kClosed, kClosed => true | _, _ => false end.

Record Connection := mkConnection {
  fd_ : Z;
  in_ : Buf.Buffer;
  out_ : Buf.Buffer;
  state_ : ConnectionState;
  interest_ : Z;
}.

Definition with_in (x : Buf.Buffer) (c : Connection) : Connection :=
  mkConnection (fd_ c) x (out_ c) (state_ c) (interest_ c).
Definition with_out (x : Buf.Buffer) (c : Connection) : Connection :=
  mkConnection (fd_ c) (in_ c) x (state_ c) (interest_ c).
Definition with_state (x : ConnectionState) (c : Connection) : Connection :=
  mkConnection (fd_ c) (in_ c) (out_ c) x (interest_ c).
Definition with_interest (x : Z) (c : Connection) : Connection :=
  mkConnection (fd_ c) (in_ c) (out_ c) (state_ c) x.

(** The event loop's own fields; its epoll descriptor is [epollFd_]. *)
Record EventLoop := mkLoop { epollFd_ : Z; tickCount_ : Z; stopRequested_ : bool }.

Record Server (P : Type) := mkServer {
  expireIntervalMs : Z;
  expireSampleBuckets : Z;
  store_ : Sto.Store P;
  loop_ : EventLoop;
  acceptor_fd : Z;
  connections_ : gmap Z addr;
  retired_ : list addr;
  cachedNow_ : Z;
  lastSweepMs_ : Z;
  cachedTick_ : Z;
  reserveFd_ : Z;
  acceptPaused_ : bool;
}.
Arguments mkServer {P} _ _ _ _ _ _ _ _ _ _ _ _.
Arguments expireIntervalMs {P} _.
Arguments expireSampleBuckets {P} _.
Arguments store_ {P} _.
Arguments loop_ {P} _.
Arguments acceptor_fd {P} _.
Arguments connections_ {P} _.
Arguments retired_ {P} _.
Arguments cachedNow_ {P} _.
Arguments lastSweepMs_ {P} _.
Arguments cachedTick_ {P} _.
Arguments reserveFd_ {P} _.
Arguments acceptPaused_ {P} _.

Section with_server.
Context {P : Type}.
Implicit Types s : Server P.

Definition with_store (x : Sto.Store P) s : Server P :=
  mkServer (expireIntervalMs s) (expireSampleBuckets s) x (loop_ s) (acceptor_fd s) (connections_ s)
    (retired_ s) (cachedNow_ s) (lastSweepMs_ s) (cachedTick_ s) (reserveFd_ s) (acceptPaused_ s).
Definition with_loop (x : EventLoop) s : Server P :=
  mkServer (expireIntervalMs s) (expireSampleBuckets s) (store_ s) x (acceptor_fd s) (connections_ s)
    (retired_ s) (cachedNow_ s) (lastSweepMs_ s) (cachedTick_ s) (reserveFd_ s) (acceptPaused_ s).
Definition with_connections (x : gmap Z addr) (r : list addr) s : Server P :=
  mkServer (expireIntervalMs s) (expireSampleBuckets s) (store_ s) (loop_ s) (acceptor_fd s) x
    r (cachedNow_ s) (lastSweepMs_ s) (cachedTick_ s) (reserveFd_ s) (acceptPaused_ s).
Definition with_now (now tick : Z) s : Server P :=
  mkServer (expireIntervalMs s) (expireSampleBuckets s) (store_ s) (loop_ s) (acceptor_fd s) (connections_ s)
    (retired_ s) now (lastSweepMs_ s) tick (reserveFd_ s) (acceptPaused_ s).
Definition with_lastSweep (x : Z) s : Server P :=
  mkServer (expireIntervalMs s) (expireSampleBuckets s) (store_ s) (loop_ s) (acceptor_fd s) (connections_ s)
    (retired_ s) (cachedNow_ s) x (cachedTick_ s) (reserveFd_ s) (acceptPaused_ s).
Definition with_reserve (x : Z) s : Server P :=
  mkServer (expireIntervalMs s) (expireSampleBuckets s) (store_ s) (loop_ s) (acceptor_fd s) (connections_ s)
    (retired_ s) (cachedNow_ s) (lastSweepMs_ s) (cachedTick_ s) x (acceptPaused_ s).
Definition with_paused (x : bool) s : Server P :=
  mkServer (expireIntervalMs s) (expireSampleBuckets s) (store_ s) (loop_ s) (acceptor_fd s) (connections_ s)
    (retired_ s) (cachedNow_ s) (lastSweepMs_ s) (cachedTick_ s) (reserveFd_ s) x.

End with_server.

Record World (K P : Type) := mkWorld { kern : K; heap : gmap addr Connection; server : Server P }.
Arguments mkWorld {K P} _ _ _.
Arguments kern {K P} _.
Arguments heap {K P} _.
Arguments server {K P} _.

(** ** State transformers *)

Definition M (K P A : Type) : Type := World K P → result (A * World K P).

#[global] Instance M_ret {K P} : MRet (M K P) := λ A a w, Ok (a, w).
#[global] Instance M_bind {K P} : MBind (M K P) := λ A B f m w, let* (a, w) := m w in f a w.

Section access.
Context {K P : Type} `{!Kernel K}.

Definition lift {A} (r : result A) : M K P A := λ w, let* a := r in Ok (a, w).
Definition gets {A} (f : World K P → A) : M K P A := λ w, Ok (f w, w).
Definition fault {A} (f : fault) : M K P A := λ _, Fault f.

(** A system call. *)
Definition syscall {A} (f : K → A * K) : M K P A :=
  λ w, let '(a, k) := f (kern w) in Ok (a, mkWorld k (heap w) (server w)).

Definition upd_server (f : Server P → Server P) : M K P unit :=
  λ w, Ok (tt, mkWorld (kern w) (heap w) (f (server w))).

(** The connection [this] points to. *)
Definition get_conn (this : addr) : M K P Connection :=
  λ w, match heap w !! this with Some c => Ok (c, w) | None => Fault FNull end.

Definition upd_conn (this : addr) (f : Connection → Connection) : M K P unit :=
  λ w, match heap w !! this with
       | Some c => Ok (tt, mkWorld (kern w) (<[this := f c]> (heap w)) (server w))
       | None => Fault FNull
       end.

(** [new] and [delete] of a connection. *)
Definition new_conn (this : addr) (c : Connection) : M K P unit :=
  λ w, Ok (tt, mkWorld (kern w) (<[this := c]> (heap w)) (server w)).
Definition delete_conn (this : addr) : M K P unit :=
  λ w, Ok (tt, mkWorld (kern w) (delete this (heap w)) (server w)).

(** A line on stderr. *)
Definition newline : bytes := ["010"%byte].
Definition fprintf_stderr (s : bytes) : M K P unit := syscall (λ k, (tt, sys_stderr (s ++ newline) k)).

(** ** EventLoop *)

Definition buildEpollEvent (h : handler) (events : Z) : epoll_event := mkEvent events h.

Definition tick (l : EventLoop) : Z := tickCount_ l.

Inductive ctl_flag := EPOLL_CTL_ADD | EPOLL_CTL_MOD.

(** The exception it throws, if any. *)
Definition epollCtl (fd : Z) (flag : ctl_flag) (event : epoll_event) (msg : bytes) : M K P (option system_error) :=
  ctl ← syscall (match flag with
                 | EPOLL_CTL_ADD => sys_epoll_add fd event
                 | EPOLL_CTL_MOD => sys_epoll_mod fd event
                 end);
  mret (throws msg ctl).

Definition loop_add (h : handler) (fd events : Z) : M K P (option system_error) :=
  epollCtl fd EPOLL_CTL_ADD (buildEpollEvent h events) (bstr "EventLoop::add -> Failed to add with epoll_ctl").

Definition loop_modify (h : handler) (fd events : Z) : M K P (option system_error) :=
  epollCtl fd EPOLL_CTL_MOD (buildEpollEvent h events) (bstr "EventLoop::modify -> Failed to modify with epoll_ctl").

Definition loop_remove (fd : Z) : M K P unit :=
  ctl ← syscall (sys_epoll_del fd);
  match ctl with Some _ => fault FAssert | None => mret tt end.

(** ** Server: what connections call *)

(** [Server::now]: one reading of the clock per tick. *)
Definition server_now : M K P Z :=
  s ← gets server;
  let lt := tick (loop_ s) in
  if lt =? cachedTick_ s then mret (cachedNow_ s)
  else
    ns ← syscall sys_steady;
    upd_server (with_now (nowMs ns) lt);;
    mret (nowMs ns).

(** [Server::retire]: the connection moves from the map to the retired list. *)
Definition retire (this : addr) : M K P unit :=
  c ← get_conn this;
  s ← gets server;
  match connections_ s !! fd_ c with
  | None => fault FAssert
  | Some a => upd_server (with_connections (delete (fd_ c) (connections_ s)) (retired_ s ++ [a]))
  end.

End access.
