(* ===== verification/Stream.v ===== *)
(** * A connection as a consumer of a byte stream

    The effect of [processInput] as a relation on the store and the unread bytes:
    requests are cut off the front one by one and answered in order.  How the
    stream is cut into reads does not matter. *)

From Stdlib Require Import ZArith Lia Strings.Byte.
From stdpp Require Import base gmap numbers list.
From S2P Require Import Prelude Buffer Resp RespSpec RespFacts RespWire RespProps.
From S2P Require Import Entry Table Store StoreOps StoreSpec Command CommandSpec CommandProps World.

Local Open Scope Z_scope.

Module Stream.
Import CmdProps.

Section stream.
Context {P : Type} `{!PoolAllocator P} (now : Z).
Implicit Types (s : Sto.Store P).

(** What the request [args] sends back, and does to the store and the
    connection. *)
Definition answers s (args : list bytes) (o : bytes) s' (d : Cmds.DispatchResult) : Prop :=
  if bool_decide (args = []) then o = [] ∧ s' = s ∧ d = Cmds.kContinue
  else
    let m := request_means now (Sto.size s) args in
    ∃ rs r, StoSpec.store_run (pair now <$> ops m) s = Ok (rs, s') ∧ answer m rs = Ok r ∧
      o = encode_reply r ∧ d = if closes m then Cmds.kCloseConnection else Cmds.kContinue.

(** From store [s] and unread bytes [i]: the bytes sent, the store, the bytes
    still unread, and the connection's state. *)
Inductive drains : Sto.Store P → bytes → bytes → Sto.Store P → bytes → ConnectionState → Prop :=
| drains_wait s i : command_p i = More → drains s i [] s i kOpen
| drains_bad s i e : command_p i = Bad e → drains s i (encode_reply (Err (errorToString e))) s i kClosing
| drains_quit s i args n o s' :
    command_p i = Done args n → answers s args o s' Cmds.kCloseConnection →
    drains s i o s' (drop (Z.to_nat n) i) kClosing
| drains_next s i args n o s1 o' s' rest st :
    command_p i = Done args n → answers s args o s1 Cmds.kContinue →
    drains s1 (drop (Z.to_nat n) i) o' s' rest st → drains s i (o ++ o') s' rest st.

Lemma answers_det s args o1 s1 d1 o2 s2 d2 :
  answers s args o1 s1 d1 → answers s args o2 s2 d2 → o1 = o2 ∧ s1 = s2 ∧ d1 = d2.
Proof.
  unfold answers. case_bool_decide; [naive_solver|].
  intros (rs & r & H1 & H2 & -> & ->) (rs' & r' & H1' & H2' & -> & ->). rewrite H1 in H1'. injection H1' as <- <-.
  rewrite H2 in H2'. by injection H2' as <-.
Qed.

Lemma drains_det s i o1 s1 r1 st1 o2 s2 r2 st2 :
  drains s i o1 s1 r1 st1 → drains s i o2 s2 r2 st2 → o1 = o2 ∧ s1 = s2 ∧ r1 = r2 ∧ st1 = st2.
Proof.
  intros H. revert o2 s2 r2 st2.
  induction H as [s i E|s i e E|s i args n o s' E Ha|s i args n o s1 o' s' rest st E Ha _ IH];
    intros o2 s2 r2 st2 H2.
  - inversion H2; subst; congruence || done.
  - inversion H2; subst; congruence || (assert (e = e0) as -> by congruence; done).
  - inversion H2 as [| |? ? args' n' ? ? E' Ha'|? ? args' n' ? ? ? ? ? ? E' Ha']; subst; try congruence;
      rewrite E in E'; injection E' as <- <-; destruct (answers_det _ _ _ _ _ _ _ _ Ha Ha') as (-> & -> & ?); done.
  - inversion H2 as [| |? ? args' n' ? ? E' Ha'|? ? args' n' ? ? ? ? ? ? E' Ha' Hd]; subst; try congruence;
      rewrite E in E'; injection E' as <- <-; destruct (answers_det _ _ _ _ _ _ _ _ Ha Ha') as (-> & -> & ?); [done|].
    by destruct (IH _ _ _ _ Hd) as (-> & -> & -> & ->).
Qed.

Lemma drains_state s i o s' rest st : drains s i o s' rest st → st ≠ kClosed.
Proof. by induction 1. Qed.

(** More input after the fact: a closing connection ignores it. *)
Lemma drains_closing s a b o s' rest :
  drains s a o s' rest kClosing → drains s (a ++ b) o s' (rest ++ b) kClosing.
Proof.
  intros H. remember kClosing as st eqn:Hst.
  induction H as [|s i e E|s i args n o s' E Ha|s i args n o s1 o' s' rest st E Ha _ IH]; [done|..].
  - apply drains_bad. by apply inc_bad.
  - pose proof (inc_len _ _ _ E). rewrite <-drop_app_Z by done. eapply drains_quit; [by apply inc_ext|done].
  - pose proof (inc_len _ _ _ E). eapply drains_next; [by apply inc_ext|exact Ha|].
    rewrite drop_app_Z by done. by apply IH.
Qed.

(** An open connection goes on where it stopped. *)
Lemma drains_app s a b o s1 rest o' s2 rest' st :
  drains s a o s1 rest kOpen → drains s1 (rest ++ b) o' s2 rest' st →
  drains s (a ++ b) (o ++ o') s2 rest' st.
Proof.
  intros H. remember kOpen as st0 eqn:Hst0.
  induction H as [s i E|s i e E|s i args n o s1 E Ha|s i args n o s1 o1 s' rest st0 E Ha _ IH]; intros H2;
    [exact H2|done|done|].
  pose proof (inc_len _ _ _ E). rewrite <-app_assoc. eapply drains_next; [by apply inc_ext|exact Ha|].
  rewrite drop_app_Z by done. by apply IH.
Qed.

(** Whole requests, one after the other: the replies, the store, and the requests
    after one that closes the connection. *)
Inductive serves : Sto.Store P → list (list bytes) → bytes → Sto.Store P → list (list bytes) → ConnectionState → Prop :=
| serves_nil s : serves s [] [] s [] kOpen
| serves_quit s args reqs o s' : answers s args o s' Cmds.kCloseConnection → serves s (args :: reqs) o s' reqs kClosing
| serves_next s args reqs o s1 o' s' left st :
    answers s args o s1 Cmds.kContinue → serves s1 reqs o' s' left st → serves s (args :: reqs) (o ++ o') s' left st.

Lemma serves_open s reqs o s' left : serves s reqs o s' left kOpen → left = [].
Proof. intros H. remember kOpen as st eqn:Hst. by induction H; auto. Qed.

(** A stream of requests is those requests, up to an incomplete one at the end. *)
Lemma drains_serves s reqs partial o s' rest st :
  Forall request_ok reqs → command_p partial = More →
  drains s (mjoin (encode_request <$> reqs) ++ partial) o s' rest st →
  ∃ left, serves s reqs o s' left st ∧ rest = mjoin (encode_request <$> left) ++ partial.
Proof.
  intros Hok Hp. revert s o. induction Hok as [|args reqs Ha _ IH]; intros s o.
  - change (mjoin (encode_request <$> []) ++ partial) with partial. inversion 1 as [? ? E|? ? ? E|? ? ? ? ? ? E|? ? ? ? ? ? ? ? ? ? E]; subst; try congruence.
    exists []. split; [constructor|done].
  - change (mjoin (encode_request <$> args :: reqs)) with (encode_request args ++ mjoin (encode_request <$> reqs)).
    rewrite <-app_assoc. pose proof (command_p_request args (mjoin (encode_request <$> reqs) ++ partial) Ha) as Ep.
    assert (drop (Z.to_nat (zlen (encode_request args))) (encode_request args ++ mjoin (encode_request <$> reqs) ++ partial) =
            mjoin (encode_request <$> reqs) ++ partial) as Hd by (by rewrite Nat2Z.id, drop_app_length).
    revert Ep Hd. generalize (zlen (encode_request args)) as m. intros m Ep Hd.
    inversion 1 as [? ? E|? ? ? E|? ? ? ? ? ? E Hans|? ? ? ? ? ? ? ? ? ? E Hans Hrest]; subst; try congruence;
      rewrite Ep in E; injection E as <- <-.
    + exists reqs. rewrite Hd. split; [by constructor|done].
    + rewrite Hd in Hrest. destruct (IH _ _ Hrest) as (left & Hs & ->). exists left. split; [by econstructor|done].
Qed.

End stream.

(** ** The requests of a stream *)

(** The complete requests at the front of [i], and what is left. *)
Inductive cuts : bytes → list (list bytes) → bytes → Prop :=
| cuts_wait i : command_p i = More → cuts i [] i
| cuts_next i args n reqs rest :
    command_p i = Done args n → cuts (drop (Z.to_nat n) i) reqs rest → cuts i (args :: reqs) rest.

Lemma cuts_app a b reqs reqs' rest rest' :
  cuts a reqs rest → cuts (rest ++ b) reqs' rest' → cuts (a ++ b) (reqs ++ reqs') rest'.
Proof.
  induction 1 as [i E|i args n reqs rest E _ IH]; [done|]. intros H. pose proof (inc_len _ _ _ E).
  cbn. eapply cuts_next; [by apply inc_ext|]. rewrite drop_app_Z by done. by apply IH.
Qed.

End Stream.
