(* ===== verification/Connection.v ===== *)
(** * Connections ([net/connection.cpp])

    One client socket: reading, running requests, writing replies, closing. *)

From Stdlib Require Import ZArith Lia Strings.Byte Strings.String.
From stdpp Require Import base gmap numbers list.
From S2P Require Import Prelude Buffer Resp Entry Table Store Command Kernel World.

Local Open Scope Z_scope.

Module Conn.
Section handlers.
Context {K P : Type} `{!Kernel K} `{!PoolAllocator P}.

Definition closed (c : Connection) : bool := state_eqb (state_ c) kClosed.

(** The constructor, on a heap cell of its own: [Some] is the error
    [EventLoop::add] throws, which takes the object with it. *)
Definition make (this : addr) (fd : Z) : M K P (option system_error) :=
  i ← lift (Buf.make Buf.kDefaultCapacity);
  o ← lift (Buf.make Buf.kDefaultCapacity);
  r ← loop_add (HConn this) fd EPOLLIN;
  match r with
  | Some e => syscall (λ k, (tt, UniqueFd.destroy fd k));; mret (Some e)
  | None => new_conn this (mkConnection fd i o kOpen EPOLLIN);; mret None
  end.

(** The destructor: off the interest list, then the descriptor is closed. *)
Definition destroy (this : addr) : M K P unit :=
  c ← get_conn this;
  loop_remove (fd_ c);;
  syscall (λ k, (tt, UniqueFd.destroy (fd_ c) k));;
  delete_conn this.

Definition markClosed (this : addr) : M K P unit :=
  c ← get_conn this;
  if closed c then mret tt
  else
    upd_conn this (with_state kClosed);;
    retire this.

Definition updateInterest (this : addr) : M K P unit :=
  c ← get_conn this;
  let wanted := 0 in
  let wanted := if negb (Buf.empty (out_ c)) then Z.lor wanted EPOLLOUT else wanted in
  let wanted := if state_eqb (state_ c) kOpen then Z.lor wanted EPOLLIN else wanted in
  if wanted =? interest_ c then mret tt
  else
    r ← loop_modify (HConn this) (fd_ c) wanted;
    match r with
    | Some e =>
        if bool_decide (err_code e ≠ ENOENT) && bool_decide (err_code e ≠ EBADF) then
          fprintf_stderr (bstr "Connection::updateInterest -> " ++ what e);;
          markClosed this
        else fault FAssert
    | None => upd_conn this (with_interest wanted)
    end.

(** The write loop of [flushOutput]: whether to go on to the end of the
    function.  A round either takes bytes or was interrupted, so the content and
    the signals to come bound the rounds. *)
Fixpoint flush_loop (fuel : nat) (this : addr) : M K P bool :=
  match fuel with
  | O => fault FFuel
  | S fuel =>
      c ← get_conn this;
      if Buf.empty (out_ c) then mret true
      else
        r ← syscall (sys_write (fd_ c) (Buf.readable (out_ c)));
        match r with
        | inl written =>
            if 0 <? written then
              o ← lift (Buf.consume written (out_ c));
              upd_conn this (with_out o);;
              flush_loop fuel this
            else mret true
        | inr e =>
            if bool_decide (e = EAGAIN) || bool_decide (e = EWOULDBLOCK) then mret true
            else if bool_decide (e = EINTR) then flush_loop fuel this
            else markClosed this;; mret false
        end
  end.

Definition flush_fuel (this : addr) : M K P nat :=
  gets (λ w, match heap w !! this with
             | Some c => S (Z.to_nat (Buf.size (out_ c)) + k_budget (kern w))
             | None => 1%nat
             end).

Definition flushOutput (this : addr) : M K P unit :=
  fuel ← flush_fuel this;
  go ← flush_loop fuel this;
  if go : bool then
    c ← get_conn this;
    if Buf.empty (out_ c) && state_eqb (state_ c) kClosing then markClosed this
    else updateInterest this
  else mret tt.

(** The request loop of [processInput]; every request takes at least one byte of
    the input. *)
Fixpoint process_loop (fuel : nat) (this : addr) (now : Z) (cmd : Command) : M K P unit :=
  match fuel with
  | O => fault FFuel
  | S fuel =>
      c ← get_conn this;
      if Buf.empty (in_ c) then mret tt
      else
        '(parseRes, cmd) ← lift (parseCommand (Buf.readable (in_ c)) cmd);
        match status parseRes with
        | PS_kIncomplete => mret tt
        | PS_kProtocolError =>
            o ← lift (reply.error (error parseRes) (out_ c));
            upd_conn this (with_out o);;
            upd_conn this (with_state kClosing)
        | PS_kOk =>
            s ← gets server;
            '(dispatchRes, store, o) ← lift (Cmds.dispatch (store_ s) cmd now (out_ c));
            upd_server (with_store store);;
            upd_conn this (with_out o);;
            i ← lift (Buf.consume (consumed parseRes) (in_ c));
            upd_conn this (with_in i);;
            match dispatchRes with
            | Cmds.kCloseConnection => upd_conn this (with_state kClosing)
            | Cmds.kContinue => process_loop fuel this now cmd
            end
        end
  end.

Definition processInput (this : addr) : M K P unit :=
  c ← get_conn this;
  if negb (state_eqb (state_ c) kOpen) then mret tt
  else
    now ← server_now;
    process_loop (S (Z.to_nat (Buf.size (in_ c)))) this now emptyCommand.

Definition onReadable (this : addr) : M K P unit :=
  c ← get_conn this;
  if closed c then mret tt
  else
    i ← lift (Buf.ensureWritable Buf.kDefaultCapacity (in_ c));
    upd_conn this (with_in i);;
    ready ← syscall (sys_read (fd_ c) (Buf.writableBytes i));
    match ready with
    | inl [] => markClosed this
    | inl bs =>
        i ← lift (Buf.fill bs i);
        i ← lift (Buf.commit (zlen bs) i);
        upd_conn this (with_in i);;
        processInput this;;
        flushOutput this
    | inr e =>
        if bool_decide (e = EAGAIN) || bool_decide (e = EWOULDBLOCK) || bool_decide (e = EINTR) then mret tt
        else markClosed this
    end.

Definition onWritable (this : addr) : M K P unit :=
  c ← get_conn this;
  if closed c then mret tt else flushOutput this.

End handlers.
End Conn.
