(* ===== verification/Server.v ===== *)
(** * The server and its loop ([net/server.cpp], [net/event_loop.cpp])

    Accepting clients, running out of descriptors, the timer, shutting down; and
    the epoll loop that calls the handlers. *)

From Stdlib Require Import ZArith Lia Strings.Byte Strings.String.
From stdpp Require Import base gmap numbers list.
From S2P Require Import Prelude Buffer Resp Entry Table Store Command Kernel World Connection.

Local Open Scope Z_scope.

Module Srv.

Inductive AcceptFailure := kDrained | kRetry | kShed | kPause.

Definition classifyAcceptErrno (err : errno) : result AcceptFailure :=
  match err with
  | EAGAIN => Ok kDrained
  | EINTR | ECONNABORTED | EPERM | EPROTO | ENOPROTOOPT | ENETDOWN | ENETUNREACH | ENONET | EHOSTDOWN
  | EHOSTUNREACH | EOPNOTSUPP | ETIMEDOUT => Ok kRetry
  | EMFILE | ENFILE => Ok kShed
  | EBADF | ENOTSOCK | EINVAL | EFAULT => Fault FAssert
  | _ => Ok kPause
  end.

(** [Server::Config]. *)
Record Config := mkConfig {
  bindAddr : bytes;
  port : Z;
  backlog : Z;
  cfg_expireIntervalMs : Z;
  cfg_expireSampleBuckets : Z;
  store_cfg : Sto.Config;
}.

Definition default_Config : Config :=
  mkConfig (bstr "127.0.0.1"%string) 6380 512 100 20 Sto.default_Config.

(** What the constructor may throw. *)
Inductive SetupError := SysError (e : system_error) | InvalidArgument (what_arg : bytes).

(** [throwSys]. *)
Definition throwSys (msg : String.string) (e : errno) : SetupError := SysError (mkSystemError e (bstr msg)).

Section server.
Context {K P : Type} `{!Kernel K} `{!PoolAllocator P}.

(** ** Construction *)

(** An exception in [openListener] closes the socket it had. *)
Definition openListener (cfg : Config) (k : K) : (Z + SetupError) * K :=
  match inet_pton (bindAddr cfg) with
  | None => (inr (InvalidArgument (bstr "Server -> invalid bind address: " ++ bindAddr cfg)), k)
  | Some sin_addr =>
      match sys_socket k with
      | (inr e, k) => (inr (throwSys "Server -> failed to create socket" e), k)
      | (inl fd, k) =>
          match sys_reuseaddr fd k with
          | (Some e, k) => (inr (throwSys "Server -> failed to set SO_REUSEADDR" e), UniqueFd.destroy fd k)
          | (None, k) =>
              match sys_bind fd sin_addr (port cfg) k with
              | (Some e, k) => (inr (throwSys "Server -> failed to bind" e), UniqueFd.destroy fd k)
              | (None, k) =>
                  match sys_listen fd (backlog cfg) k with
                  | (Some e, k) => (inr (throwSys "Server -> failed to listen" e), UniqueFd.destroy fd k)
                  | (None, k) => (inl fd, k)
                  end
              end
          end
      end
  end.

(** The acceptor: its listening descriptor, registered. *)
Definition make_acceptor (cfg : Config) (k : K) : (Z + SetupError) * K :=
  match openListener cfg k with
  | (inr e, k) => (inr e, k)
  | (inl fd, k) =>
      match sys_epoll_add fd (buildEpollEvent HAcceptor EPOLLIN) k with
      | (Some e, k) => (inr (throwSys "EventLoop::add -> Failed to add with epoll_ctl" e), UniqueFd.destroy fd k)
      | (None, k) => (inl fd, k)
      end
  end.

Definition make_loop (k : K) : (EventLoop + SetupError) * K :=
  match sys_epoll_create k with
  | (inr e, k) => (inr (throwSys "EventLoop::EventLoop -> Failed to create an epfd" e), k)
  | (inl epfd, k) =>
      let '(fd, k) := UniqueFd.reset epfd (-1) k in
      (inl (mkLoop fd 0 false), k)
  end.

(** The server of a store already built: its loop, its acceptor, its reserve. *)
Definition construct (cfg : Config) (store : Sto.Store P) (k : K) : (World K P + SetupError) * K :=
  match make_loop k with
  | (inr e, k) => (inr e, k)
  | (inl loop, k) =>
      match make_acceptor cfg k with
      | (inr e, k) => (inr e, UniqueFd.destroy (epollFd_ loop) k)
      | (inl fd, k) =>
          let '(r, k) := sys_open_null k in
          let reserve := match r with Some fd => fd | None => -1 end in
          let s := mkServer (cfg_expireIntervalMs cfg) (cfg_expireSampleBuckets cfg) store
                     loop fd ∅ [] 0 0 (2 ^ 64 - 1) reserve false in
          (inl (mkWorld k ∅ s), k)
      end
  end.

(** ** Descriptors *)

(** [openReserve]: -1 when it fails. *)
Definition openReserve : M K P Z :=
  r ← syscall sys_open_null;
  mret (match r with Some fd => fd | None => -1 end).

(** [reserveFd_ = openReserve()]. *)
Definition refillReserve : M K P unit :=
  n ← openReserve;
  s ← gets server;
  fd ← syscall (UniqueFd.reset n (reserveFd_ s));
  upd_server (with_reserve fd).

Definition destroyFd (fd : Z) : M K P unit := syscall (λ k, (tt, UniqueFd.destroy fd k)).

(** ** Running out of descriptors *)

Definition shedPending : M K P bool :=
  s ← gets server;
  if negb (UniqueFd.bool_ (reserveFd_ s)) then mret false
  else
    fd ← syscall (UniqueFd.reset (-1) (reserveFd_ s));
    upd_server (with_reserve fd);;
    r ← syscall (sys_accept4 (acceptor_fd s));
    let shed := match r with inl fd => fd | inr _ => -1 end in
    let validShed := UniqueFd.bool_ shed in
    _ ← syscall (UniqueFd.reset (-1) shed);
    refillReserve;;
    mret validShed.

Definition pauseAccepting (err : errno) : M K P unit :=
  s ← gets server;
  if acceptPaused_ s then mret tt
  else
    r ← loop_modify HAcceptor (acceptor_fd s) 0;
    match r with
    | Some e => fprintf_stderr (bstr "Server::pauseAccepting -> " ++ what e)
    | None =>
        upd_server (with_paused true);;
        fprintf_stderr (bstr "Server::pauseAccepting -> accept paused: " ++ k_message err)
    end.

Definition resumeAccepting : M K P unit :=
  s ← gets server;
  if negb (acceptPaused_ s) then mret tt
  else
    refillReserve;;
    s ← gets server;
    if negb (UniqueFd.bool_ (reserveFd_ s)) then mret tt
    else
      r ← loop_modify HAcceptor (acceptor_fd s) EPOLLIN;
      match r with
      | Some e => fprintf_stderr (bstr "Server::resumeAccepting -> " ++ what e)
      | None => upd_server (with_paused false)
      end.

(** Whether [acceptPending] should keep accepting. *)
Definition handleAcceptFailure (err : errno) : M K P bool :=
  f ← lift (classifyAcceptErrno err);
  match f with
  | kDrained => mret false
  | kRetry => mret true
  | kShed =>
      b ← shedPending;
      if b : bool then mret true else pauseAccepting err;; mret false
  | kPause => pauseAccepting err;; mret false
  end.

(** ** Accepting *)

(** [make_unique<Connection>] and [connections_.emplace]: an element whose key
    is taken is dropped, the connection with it. *)
Definition addConnection (fd : Z) : M K P unit :=
  a ← gets (λ w, fresh (dom (heap w)));
  r ← Conn.make a fd;
  match r with
  | Some e => fprintf_stderr (bstr "Server::acceptPending -> " ++ what e)
  | None =>
      s ← gets server;
      match connections_ s !! fd with
      | Some _ => Conn.destroy a
      | None => upd_server (with_connections (<[fd := a]> (connections_ s)) (retired_ s))
      end
  end.

(** The accept loop; a round that goes on has used up a queued connection or a
    signal. *)
Fixpoint accept_loop (fuel : nat) : M K P unit :=
  match fuel with
  | O => fault FFuel
  | S fuel =>
      s ← gets server;
      r ← syscall (sys_accept4 (acceptor_fd s));
      match r with
      | inr e =>
          go ← handleAcceptFailure e;
          if go : bool then accept_loop fuel else mret tt
      | inl pendingFd =>
          ok ← syscall (sys_nodelay pendingFd);
          if negb ok then
            fprintf_stderr (bstr "Server::acceptPending -> failed to set TCP_NODELAY on connection");;
            destroyFd pendingFd;;
            accept_loop fuel
          else addConnection pendingFd;; accept_loop fuel
      end
  end.

Definition acceptPending : M K P unit :=
  fuel ← gets (λ w, S (k_budget (kern w)));
  accept_loop fuel.

(** ** The timer *)

Fixpoint destroy_all (l : list addr) : M K P unit :=
  match l with
  | [] => mret tt
  | a :: l => Conn.destroy a;; destroy_all l
  end.

Definition destroyRetired : M K P unit :=
  s ← gets server;
  destroy_all (retired_ s);;
  s ← gets server;
  upd_server (with_connections (connections_ s) []).

Definition onTick : M K P unit :=
  destroyRetired;;
  resumeAccepting;;
  tNow ← server_now;
  s ← gets server;
  elapsed ← lift (Cmds.int64 (tNow - lastSweepMs_ s));
  if expireIntervalMs s <=? elapsed then
    '(_, store) ← lift (Sto.activeExpireCycle tNow (expireSampleBuckets s) (store_ s));
    upd_server (with_store store);;
    upd_server (with_lastSweep tNow)
  else mret tt.

(** ** The loop *)

(** The acceptor's handlers. *)
Definition acceptor_onReadable : M K P unit := acceptPending.
Definition acceptor_onWritable : M K P unit := mret tt.

Definition dispatchEvent (ev : epoll_event) : M K P unit :=
  (if negb (Z.land (ev_events ev) (Z.lor (Z.lor EPOLLIN EPOLLERR) EPOLLHUP) =? 0) then
     match ev_ptr ev with HAcceptor => acceptor_onReadable | HConn a => Conn.onReadable a end
   else mret tt);;
  (if negb (Z.land (ev_events ev) EPOLLOUT =? 0) then
     match ev_ptr ev with HAcceptor => acceptor_onWritable | HConn a => Conn.onWritable a end
   else mret tt).

Fixpoint dispatchEvents (evs : list epoll_event) : M K P unit :=
  match evs with
  | [] => mret tt
  | ev :: evs => dispatchEvent ev;; dispatchEvents evs
  end.

(** How the loop was left. *)
Inductive Exit := Stopped | Threw (e : system_error).

Definition set_stop (b : bool) (s : Server P) : Server P :=
  with_loop (mkLoop (epollFd_ (loop_ s)) (tickCount_ (loop_ s)) b) s.

(** [Server::stop]. *)
Definition stop (s : Server P) : Server P := set_stop true s.

Definition count_tick (s : Server P) : Server P :=
  with_loop (mkLoop (epollFd_ (loop_ s)) (u64 (tickCount_ (loop_ s) + 1)) (stopRequested_ (loop_ s))) s.

(** One round of the loop of [EventLoop::run], with [Server]'s [onTick].  A signal
    handler calls [stop]; since the flag is read only at the top of the loop, one
    that runs anywhere in a round is counted as running during its wait. *)
Definition loop_round : M K P (option Exit) :=
  s ← gets server;
  if stopRequested_ (loop_ s) then mret (Some Stopped)
  else
    '(eventsReady, sig) ← syscall (λ k, let '(r, b, k) := sys_epoll_wait (expireIntervalMs s) k in ((r, b), k));
    (if sig : bool then upd_server stop else mret tt);;
    match eventsReady with
    | inr e =>
        if bool_decide (e = EINTR) then mret None
        else mret (Some (Threw (mkSystemError e (bstr "EventLoop::run -> Failed to run epoll_wait"))))
    | inl evs =>
        upd_server count_tick;;
        dispatchEvents evs;;
        onTick;;
        mret None
    end.

(** [rounds] rounds of [EventLoop::run]; [None] while it is still running. *)
Fixpoint loop_run (rounds : nat) : M K P (option Exit) :=
  match rounds with
  | O => mret None
  | S rounds =>
      e ← loop_round;
      match e with
      | None => loop_run rounds
      | Some e => upd_server (set_stop false);; mret (Some e)
      end
  end.

(** [Server::run]: an exception of the loop passes it by. *)
Definition run (rounds : nat) : M K P (option Exit) :=
  e ← loop_run rounds;
  match e with
  | Some Stopped => destroyRetired;; mret e
  | _ => mret e
  end.

Definition connectionCount (s : Server P) : Z := Z.of_nat (size (connections_ s)).

(** ** Shutdown

    The members in reverse order of declaration: the reserve, the retired and
    the live connections (in some order), the acceptor, the loop, the store. *)
Definition destroy_acceptor : M K P unit :=
  s ← gets server;
  loop_remove (acceptor_fd s);;
  destroyFd (acceptor_fd s).

Definition destroy_loop : M K P unit :=
  s ← gets server;
  destroyFd (epollFd_ (loop_ s)).

Definition destroy_server : M K P unit :=
  s ← gets server;
  destroyFd (reserveFd_ s);;
  destroy_all (retired_ s);;
  destroy_all (map_to_list (connections_ s)).*2;;
  destroy_acceptor;;
  destroy_loop;;
  store ← lift (Sto.destroy (store_ s));
  upd_server (with_store store).

End server.
End Srv.
