(* ===== verification/Main.v ===== *)
(** * The program ([main.cpp])

    The command line, the signals and the life of the server object, as a function
    from the arguments and a kernel to an exit code and what is left of the
    process. *)

From Stdlib Require Import ZArith Lia Strings.Byte Strings.String.
From stdpp Require Import base gmap numbers list.
From S2P Require Import Prelude Buffer Resp Entry Table Store Command Kernel World Connection Server.

Local Open Scope Z_scope.

Module Main.
Import Srv.

(** ** Numbers on the command line *)

Definition isspace (c : byte) : bool := (code c =? 32) || ((9 <=? code c) && (code c <=? 13)).

Fixpoint skip_spaces (s : bytes) : bytes :=
  match s with
  | c :: s' => if isspace c then skip_spaces s' else s
  | [] => []
  end.

(** [std::strtoull(s, nullptr, 10)], and [std::strtoul], whose result has 64 bits
    too: blanks, a sign, digits; no number is 0, too large a one is the largest,
    and a minus sign negates modulo 2^64. *)
Definition strtoull (s : bytes) : Z :=
  let s := skip_spaces s in
  let '(neg, s) :=
    match s with
    | "-"%byte :: s => (true, s)
    | "+"%byte :: s => (false, s)
    | _ => (false, s)
    end in
  let v := Cmds.digits_value (Cmds.digits_prefix s) in
  if 2 ^ 64 - 1 <? v then 2 ^ 64 - 1 else if neg : bool then u64 (- v) else v.

(** ** The arguments *)

(** [static_cast<std::uint16_t>]. *)
Definition u16 (z : Z) : Z := z mod 2 ^ 16.

Definition with_bindAddr (x : bytes) (c : Config) : Config :=
  mkConfig x (port c) (backlog c) (cfg_expireIntervalMs c) (cfg_expireSampleBuckets c) (store_cfg c).
Definition with_port (x : Z) (c : Config) : Config :=
  mkConfig (bindAddr c) x (backlog c) (cfg_expireIntervalMs c) (cfg_expireSampleBuckets c) (store_cfg c).
Definition with_store_cfg (x : Sto.Config) (c : Config) : Config :=
  mkConfig (bindAddr c) (port c) (backlog c) (cfg_expireIntervalMs c) (cfg_expireSampleBuckets c) x.
Definition with_maxKeys (x : Z) (c : Sto.Config) : Sto.Config :=
  Sto.mkConfig (Sto.initialBuckets c) x (Sto.cfg_seed c) (Sto.lruSamples c) (Sto.policy c).
Definition with_initialBuckets (x : Z) (c : Sto.Config) : Sto.Config :=
  Sto.mkConfig x (Sto.cfg_maxKeys c) (Sto.cfg_seed c) (Sto.lruSamples c) (Sto.policy c).

(** The loop over [argv[1..]]; [None] when it prints the usage. *)
Fixpoint parse_args (args : list bytes) (cfg : Config) : option Config :=
  match args with
  | [] => Some cfg
  | arg :: value :: rest =>
      if bool_decide (arg = bstr "--bind") then parse_args rest (with_bindAddr value cfg)
      else if bool_decide (arg = bstr "--port") then parse_args rest (with_port (u16 (strtoull value)) cfg)
      else if bool_decide (arg = bstr "--maxkeys") then
        parse_args rest (with_store_cfg (with_maxKeys (strtoull value) (store_cfg cfg)) cfg)
      else if bool_decide (arg = bstr "--buckets") then
        parse_args rest (with_store_cfg (with_initialBuckets (strtoull value) (store_cfg cfg)) cfg)
      else None
  | _ :: [] => None
  end.

(** ** The process *)

Inductive Signal := SIGPIPE | SIGINT | SIGTERM.
Inductive Disposition := SIG_DFL | SIG_IGN | OnSignal.

#[global] Instance Signal_eq : EqDecision Signal.
Proof. solve_decision. Defined.

(** The exceptions [main] catches. *)
Inductive Exn := LengthError | Setup (e : SetupError) | RunError (e : system_error).

Section process.
Context {K P : Type} `{!Kernel K} `{!PoolAllocator P} (length_what : bytes).

(** [e.what()]; for [std::length_error], [std::vector]'s own text. *)
Definition exn_what (e : Exn) : bytes :=
  match e with
  | LengthError => length_what
  | Setup (SysError e) | RunError e => what e
  | Setup (InvalidArgument m) => m
  end.

(** [gServer] is null or points to the server object, which may be gone. *)
Record Process := mkProcess {
  gServer : bool;
  object : World K P + K;       (* the server and the kernel, or the kernel alone *)
  disposition : Signal → Disposition;
  cout : bytes;
}.

Implicit Types p : Process.

Definition with_object (x : World K P + K) p : Process :=
  mkProcess (gServer p) x (disposition p) (cout p).
Definition set_gServer p : Process :=
  mkProcess true (object p) (disposition p) (cout p).
Definition signal (sig : Signal) (d : Disposition) p : Process :=
  mkProcess (gServer p) (object p) (λ s, if decide (s = sig) then d else disposition p s) (cout p).
Definition print_out (s : bytes) p : Process :=
  mkProcess (gServer p) (object p) (disposition p) (cout p ++ s).
(** [std::cerr], unbuffered. *)
Definition print_err (s : bytes) p : Process :=
  with_object (match object p with
               | inl w => inl (mkWorld (sys_stderr s (kern w)) (heap w) (server w))
               | inr k => inr (sys_stderr s k)
               end) p.

(** [gServer->stop()], through a pointer to a live server or a stale one. *)
Definition onSignal p : result Process :=
  if gServer p then
    match object p with
    | inl w => Ok (with_object (inl (mkWorld (kern w) (heap w) (stop (server w)))) p)
    | inr _ => Fault FNull
    end
  else Ok p.

Definition usage_text : bytes :=
  bstr "usage: tiny-redis-server [--bind ADDR] [--port N] [--maxkeys N] [--buckets N]" ++ newline.
Definition usage p : Process := print_err usage_text p.

Definition listening (cfg : Config) (store : Sto.Store P) : bytes :=
  bstr "tiny-redis listening on " ++ bindAddr cfg ++ bstr ":" ++ to_chars (port cfg) ++
  bstr " (max keys " ++ to_chars (Sto.maxKeys store) ++ bstr ")" ++ newline.

Definition fatal_text (e : Exn) : bytes := bstr "fatal: " ++ exn_what e ++ newline.
Definition fatal (e : Exn) p : option Z * Process := (Some 1, print_err (fatal_text e) p).

(** The server object, from its construction to the end of the [try] block:
    [rounds] rounds of its loop; [None] while it is still running. *)
Definition serve (rounds : nat) (cfg : Config) (w : World K P) p : result (option Z * Process) :=
  let p := set_gServer (with_object (inl w) p) in
  let p := signal SIGTERM OnSignal (signal SIGINT OnSignal p) in
  let p := print_out (listening cfg (store_ (server w))) p in
  let* (e, w) := run rounds w in
  match e with
  | None => Ok (None, with_object (inl w) p)
  | Some e =>
      let* (_, w) := destroy_server w in
      let p := with_object (inr (kern w)) p in
      match e with
      | Stopped => Ok (Some 0, p)
      | Threw err => Ok (fatal (RunError err) p)
      end
  end.

(** [main] with the arguments after the program's name; [rd0] and [rd1] are what
    the store draws from [std::random_device]. *)
Definition main (rounds : nat) (args : list bytes) (rd0 rd1 : Z) (k : K) : result (option Z * Process) :=
  let p := mkProcess false (inr k) (λ _, SIG_DFL) [] in
  match parse_args args default_Config with
  | None => Ok (Some 2, usage p)
  | Some cfg =>
      let p := signal SIGPIPE SIG_IGN p in
      match Sto.make (store_cfg cfg) rd0 rd1 with
      | Fault FLength => Ok (fatal LengthError p)
      | Fault f => Fault f
      | Ok store =>
          match construct cfg store k with
          | (inr e, k) =>
              let* _ := Sto.destroy store in
              Ok (fatal (Setup e) (with_object (inr k) p))
          | (inl w, _) => serve rounds cfg w p
          end
      end
  end.

End process.

Arguments Process K P : clear implicits.
Arguments mkProcess {K P} _ _ _ _.

Example strtoull_forms :
  strtoull <$> [bstr "42"; bstr "  +7x"; bstr "-1"; bstr "x"; bstr "99999999999999999999"] = [42; 7; 2 ^ 64 - 1; 0; 2 ^ 64 - 1].
Proof. vm_compute. reflexivity. Qed.

End Main.
