(* ===== verification/NetInv.v ===== *)
(** * The invariant of the running server

    Who owns which descriptor and which connection, what epoll watches, and that
    buffers, store and clock are in order; with the rules to reason about state
    transformers. *)

From Stdlib Require Import ZArith Lia Strings.Byte Strings.String.
From stdpp Require Import base gmap numbers list.
From S2P Require Import Prelude Buffer Resp Entry Table Store Command CommandSpec CommandProps.
From S2P Require Import Kernel World Connection Server.

Local Open Scope Z_scope.

(** ** Rules for state transformers *)

(** [m] returns from [w], in a state and with a value that satisfy [Q]. *)
Definition wp {K P A} (m : M K P A) (w : World K P) (Q : A → World K P → Prop) : Prop :=
  returns (m w) (λ '(a, w'), Q a w').

Section rules.
Context {K P : Type} `{!Kernel K}.
Implicit Types (w : World K P).

Lemma wp_mono {A} (m : M K P A) w (Q Q' : A → World K P → Prop) :
  wp m w Q → (∀ a w', Q a w' → Q' a w') → wp m w Q'.
Proof. intros H HQ. eapply returns_mono; [exact H|]. intros [a w']. apply HQ. Qed.

Lemma wp_and {A} (m : M K P A) w (Q Q' : A → World K P → Prop) :
  wp m w Q → wp m w Q' → wp m w (λ a w', Q a w' ∧ Q' a w').
Proof. unfold wp. by destruct (m w) as [[a w']|]. Qed.

Lemma wp_bind {A B} (m : M K P A) (f : A → M K P B) w Q :
  wp m w (λ a w', wp (f a) w' Q) → wp (m ≫= f) w Q.
Proof. intros H. eapply returns_bind; [exact H|]. intros [a w']. done. Qed.

Lemma wp_ret {A} (a : A) w Q : Q a w → wp (mret a : M K P A) w Q.
Proof. done. Qed.

Lemma wp_lift {A} (r : result A) w Q : returns r (λ a, Q a w) → wp (lift r) w Q.
Proof. unfold wp, lift. by destruct r. Qed.

Lemma wp_gets {A} (f : World K P → A) w Q : Q (f w) w → wp (gets f) w Q.
Proof. done. Qed.

Lemma wp_syscall {A} (f : K → A * K) w Q :
  (∀ a k', f (kern w) = (a, k') → Q a (mkWorld k' (heap w) (server w))) → wp (syscall f) w Q.
Proof. unfold wp, syscall. intros H. destruct (f (kern w)) as [a k']. by apply H. Qed.

(** A call of epoll_ctl. *)
Lemma wp_add h fd ev w Q :
  (∀ r k', sys_epoll_add fd (mkEvent ev h) (kern w) = (r, k') →
     Q (throws (bstr "EventLoop::add -> Failed to add with epoll_ctl") r) (mkWorld k' (heap w) (server w))) →
  wp (loop_add h fd ev) w Q.
Proof. intros H. apply wp_bind, wp_syscall. intros r k' Hk. by apply wp_ret, H. Qed.

Lemma wp_modify h fd ev w Q :
  (∀ r k', sys_epoll_mod fd (mkEvent ev h) (kern w) = (r, k') →
     Q (throws (bstr "EventLoop::modify -> Failed to modify with epoll_ctl") r) (mkWorld k' (heap w) (server w))) →
  wp (loop_modify h fd ev) w Q.
Proof. intros H. apply wp_bind, wp_syscall. intros r k' Hk. by apply wp_ret, H. Qed.

Lemma wp_upd_server f w Q : Q tt (mkWorld (kern w) (heap w) (f (server w))) → wp (upd_server f) w Q.
Proof. done. Qed.

Lemma wp_get_conn this w c Q : heap w !! this = Some c → Q c w → wp (get_conn this) w Q.
Proof. unfold wp, get_conn. by intros ->. Qed.

Lemma wp_upd_conn this f w c Q :
  heap w !! this = Some c → Q tt (mkWorld (kern w) (<[this := f c]> (heap w)) (server w)) →
  wp (upd_conn this f) w Q.
Proof. unfold wp, upd_conn. by intros ->. Qed.

End rules.

(** ** The invariant *)

(** The events a connection should be woken for. *)
Definition wanted (c : Connection) : Z :=
  let wanted := 0 in
  let wanted := if negb (Buf.empty (out_ c)) then Z.lor wanted EPOLLOUT else wanted in
  if state_eqb (state_ c) kOpen then Z.lor wanted EPOLLIN else wanted.

(** A live connection between events: registered for what it waits for, and
    kept only while there is something to send once it is closing. *)
Definition settled (c : Connection) : Prop :=
  state_ c ≠ kClosed → interest_ c = wanted c ∧ (state_ c = kClosing → Buf.readable (out_ c) ≠ []).

(** Buffers in order, with room for the replies to everything that [bytes] more
    input can ask for. *)
Record conn_ok (bytes : Z) (c : Connection) : Prop := {
  co_fd : 0 ≤ fd_ c;
  co_in : Buf.wf (in_ c);
  co_out : Buf.wf (out_ c);
  co_room_in : Buf.size (in_ c) + bytes ≤ 2 ^ 60;
  co_room : state_ c = kOpen →
    (Buf.size (in_ c) + bytes) * CmdProps.kMaxReply + Buf.size (out_ c) ≤ Buf.kMaxContent;
}.

Section inv.
Context {K P : Type} `{!Kernel K} `{!PoolAllocator P}.
Implicit Types (w : World K P) (k : K) (h : gmap addr Connection) (s : Server P).

(** Descriptors: each owned by one object, all of them open, nothing else open. *)
Record fds_ok k h s : Prop := {
  fo_epoll : 0 ≤ epollFd_ (loop_ s);
  fo_acceptor : 0 ≤ acceptor_fd s;
  fo_reserve : -1 ≤ reserveFd_ s;
  fo_distinct : epollFd_ (loop_ s) ≠ acceptor_fd s ∧ epollFd_ (loop_ s) ≠ reserveFd_ s ∧ acceptor_fd s ≠ reserveFd_ s;
  fo_conn a c : h !! a = Some c →
    0 ≤ fd_ c ∧ fd_ c ≠ epollFd_ (loop_ s) ∧ fd_ c ≠ acceptor_fd s ∧ fd_ c ≠ reserveFd_ s;
  fo_inj a1 a2 c1 c2 : h !! a1 = Some c1 → h !! a2 = Some c2 → fd_ c1 = fd_ c2 → a1 = a2;
  fo_open fd : fd ∈ k_open k ↔
    fd = epollFd_ (loop_ s) ∨ fd = acceptor_fd s ∨ (fd = reserveFd_ s ∧ fd ≠ -1) ∨
    ∃ a c, h !! a = Some c ∧ fd_ c = fd;
}.

(** Epoll watches the listener and every connection, pointing to the right
    object. *)
Record epoll_ok k h s : Prop := {
  eo_acceptor : k_interest k !! acceptor_fd s =
    Some (mkEvent (if acceptPaused_ s then 0 else EPOLLIN) HAcceptor);
  eo_conn a c : h !! a = Some c → k_interest k !! fd_ c = Some (mkEvent (interest_ c) (HConn a));
  eo_only fd ev : k_interest k !! fd = Some ev →
    fd = acceptor_fd s ∨ ∃ a c, h !! a = Some c ∧ fd_ c = fd;
}.

(** The map holds the connections that are not closed, the retired list the
    others. *)
Record owners_ok h s : Prop := {
  oo_live fd a : connections_ s !! fd = Some a ↔ ∃ c, h !! a = Some c ∧ fd_ c = fd ∧ state_ c ≠ kClosed;
  oo_retired a : a ∈ retired_ s ↔ ∃ c, h !! a = Some c ∧ state_ c = kClosed;
  oo_nodup : NoDup (retired_ s);
}.

(** The clock, and that what is still to come fits the buffers. *)
Record clock_ok k s : Prop := {
  ck_now : 500 ≤ k_clock k;
  ck_past : cachedNow_ s ≤ k_clock k;
  ck_cached : cachedTick_ s = tickCount_ (loop_ s) → 500 ≤ cachedNow_ s;
  ck_sweep : 0 ≤ lastSweepMs_ s ≤ k_clock k;
  ck_limit : 1 ≤ expireSampleBuckets s ≤ 2 ^ 58;
  ck_bytes : k_bytes k * CmdProps.kMaxReply ≤ Buf.kMaxContent;
}.

Record inv w : Prop := {
  in_fds : fds_ok (kern w) (heap w) (server w);
  in_epoll : epoll_ok (kern w) (heap w) (server w);
  in_owners : owners_ok (heap w) (server w);
  in_clock : clock_ok (kern w) (server w);
  in_conns a c : heap w !! a = Some c → conn_ok (k_bytes (kern w)) c;
  in_listening : acceptor_fd (server w) ∈ k_listening (kern w);
  in_store : CmdProps.sound_store (store_ (server w));
}.

(** All connections but [this] are settled. *)
Definition settled_but (this : addr) w : Prop := ∀ a c, heap w !! a = Some c → a ≠ this → settled c.
Definition all_settled w : Prop := ∀ a c, heap w !! a = Some c → settled c.

(** ** Steps that keep it *)

Lemma conn_ok_later b b' c : b' ≤ b → 0 ≤ b' → conn_ok b c → conn_ok b' c.
Proof.
  intros Hb Hb' [H1 H2 H3 H4 H5]. split; [done|done|done|lia|]. intros Hs. specialize (H5 Hs).
  unfold CmdProps.kMaxReply in *. lia.
Qed.

Context `{!KernelLaws K}.

Lemma clock_ok_later k k' s : later k k' → clock_ok k s → clock_ok k' s.
Proof.
  intros (Hc & _ & Hb) [H1 H2 H3 H4 H5 H6]. split; [lia|lia|done|lia|done|unfold CmdProps.kMaxReply in *; lia].
Qed.

(** A system call that only passes time. *)
Lemma inv_kern_later w k' :
  inv w → k_open k' = k_open (kern w) → k_listening k' = k_listening (kern w) →
  k_interest k' = k_interest (kern w) → later (kern w) k' → inv (mkWorld k' (heap w) (server w)).
Proof.
  intros [[F1 F2 F3 F4 F5 F6 F7] [E1 E2 E3] O C N L S] Ho Hl Hi Ht. pose proof Ht as (_ & _ & Hb). split; cbn.
  - split; try done. by rewrite Ho.
  - split; by rewrite Hi.
  - done.
  - by eapply clock_ok_later.
  - intros a c Hc. eapply conn_ok_later; [exact Hb|apply bytes_range|by eapply N].
  - by rewrite Hl.
  - done.
Qed.

Lemma later_trans (k1 k2 k3 : K) : later k1 k2 → later k2 k3 → later k1 k3.
Proof. intros (? & ? & ?) (? & ? & ?). split; [lia|]. split; [by etrans|lia]. Qed.

Lemma idle_trans (k1 k2 k3 : K) : idle_step k1 k2 → idle_step k2 k3 → idle_step k1 k3.
Proof.
  intros (A1 & A2 & A3 & A4 & A5) (B1 & B2 & B3 & B4 & B5). split; [congruence|]. split; [congruence|]. split; [congruence|].
  split; [intros fd; by rewrite B4|by eapply later_trans].
Qed.

(** What is printed matters to nobody. *)
Lemma wp_stderr (s : bytes) w Q :
  (∀ k', idle_step (kern w) k' → Q tt (mkWorld k' (heap w) (server w))) → wp (fprintf_stderr s) w Q.
Proof. intros H. apply wp_syscall. intros [] k' [= <-]. apply H, stderr_law. Qed.

Lemma inv_idle w k' : inv w → idle_step (kern w) k' → inv (mkWorld k' (heap w) (server w)).
Proof. intros HI (Ho & Hl & Hi & _ & Ht). by apply inv_kern_later. Qed.

Lemma inv_sends w fd d k' : inv w → sends fd d (kern w) k' → inv (mkWorld k' (heap w) (server w)).
Proof. intros HI (Ho & Hl & Hi & _ & _ & Ht). by apply inv_kern_later. Qed.

(** Two heaps with the same connections as far as ownership goes. *)
Definition alike (h h' : gmap addr Connection) : Prop :=
  ∀ a, match h !! a, h' !! a with
       | Some c, Some c' => fd_ c' = fd_ c ∧ (state_ c' = kClosed ↔ state_ c = kClosed)
       | None, None => True
       | _, _ => False
       end.

Lemma alike_fwd h h' a c :
  alike h h' → h !! a = Some c →
  ∃ c', h' !! a = Some c' ∧ fd_ c' = fd_ c ∧ (state_ c' = kClosed ↔ state_ c = kClosed).
Proof. intros H Ha. specialize (H a). rewrite Ha in H. destruct (h' !! a) as [c'|]; [|done]. by exists c'. Qed.

Lemma alike_sym h h' : alike h h' → alike h' h.
Proof. intros H a. specialize (H a). destruct (h !! a), (h' !! a); naive_solver. Qed.

Lemma alike_update h this c c' :
  h !! this = Some c → fd_ c' = fd_ c → (state_ c' = kClosed ↔ state_ c = kClosed) → alike h (<[this := c']> h).
Proof.
  intros Hc Hfd Hst a. destruct (decide (this = a)) as [<-|].
  - by rewrite Hc, lookup_insert_eq.
  - rewrite lookup_insert_ne by done. by destruct (h !! a).
Qed.

Definition same_fds (h h' : gmap addr Connection) : Prop := ∀ a, fd_ <$> h !! a = fd_ <$> h' !! a.

Lemma same_fds_fwd h h' a c : same_fds h h' → h !! a = Some c → ∃ c', h' !! a = Some c' ∧ fd_ c' = fd_ c.
Proof. intros H Ha. specialize (H a). rewrite Ha in H. destruct (h' !! a) as [c'|]; [|done]. exists c'. by injection H. Qed.

Lemma same_fds_ex h h' fd :
  same_fds h h' → (∃ a c, h !! a = Some c ∧ fd_ c = fd) → ∃ a c, h' !! a = Some c ∧ fd_ c = fd.
Proof. intros H (a & c & Hc & <-). destruct (same_fds_fwd _ _ _ _ H Hc) as (c' & Hc' & <-). by exists a, c'. Qed.

Lemma same_fds_update h this c c' : h !! this = Some c → fd_ c' = fd_ c → same_fds h (<[this := c']> h).
Proof.
  intros Hc Hfd a. destruct (decide (this = a)) as [<-|]; [by rewrite Hc, lookup_insert_eq; cbn; rewrite Hfd|].
  by rewrite lookup_insert_ne.
Qed.

Lemma fds_same k h h' s : same_fds h h' → fds_ok k h s → fds_ok k h' s.
Proof.
  intros H [F1 F2 F3 F4 F5 F6 F7]. assert (same_fds h' h) as H' by (intros a; by rewrite (H a)). split; try done.
  - intros a c Hc. destruct (same_fds_fwd _ _ _ _ H' Hc) as (y & Hy & <-). by eapply F5.
  - intros a1 a2 c1 c2 H1 H2. destruct (same_fds_fwd _ _ _ _ H' H1) as (y1 & Hy1 & <-).
    destruct (same_fds_fwd _ _ _ _ H' H2) as (y2 & Hy2 & <-). by eapply F6.
  - intros fd. rewrite F7. split; (intros [?|[?|[?|Hx]]]; [by eauto..|]); do 3 right; by eapply same_fds_ex.
Qed.

Lemma owners_alike h h' s : alike h h' → owners_ok h s → owners_ok h' s.
Proof.
  intros H [O1 O2 O3]. pose proof (alike_sym _ _ H) as H'. split; [| |done].
  - intros fd a. rewrite O1. split; intros (x & Hx & <- & Hs).
    + destruct (alike_fwd _ _ _ _ H Hx) as (y & Hy & <- & Hs'). exists y. by rewrite Hs'.
    + destruct (alike_fwd _ _ _ _ H' Hx) as (y & Hy & <- & Hs'). exists y. by rewrite Hs'.
  - intros a. rewrite O2. split; intros (x & Hx & Hs).
    + destruct (alike_fwd _ _ _ _ H Hx) as (y & Hy & _ & Hs'). exists y. by rewrite Hs'.
    + destruct (alike_fwd _ _ _ _ H' Hx) as (y & Hy & _ & Hs'). exists y. by rewrite Hs'.
Qed.

(** A change to one connection that the kernel knows about. *)
Lemma epoll_update k k' h s this c c' :
  epoll_ok k h s → h !! this = Some c → fd_ c' = fd_ c → fd_ c ≠ acceptor_fd s →
  (∀ a1 a2 c1 c2, h !! a1 = Some c1 → h !! a2 = Some c2 → fd_ c1 = fd_ c2 → a1 = a2) →
  k_interest k' = partial_alter (λ _, Some (mkEvent (interest_ c') (HConn this))) (fd_ c) (k_interest k) →
  epoll_ok k' (<[this := c']> h) s.
Proof.
  intros [E1 E2 E3] Hc Hfd Hacc Hinj Hi. split.
  - by rewrite Hi, lookup_partial_alter_ne.
  - intros a x. rewrite Hi. destruct (decide (this = a)) as [<-|Hne].
    + rewrite lookup_insert_eq. intros [= <-]. by rewrite Hfd, lookup_partial_alter_eq.
    + rewrite lookup_insert_ne by done. intros Hx. rewrite lookup_partial_alter_ne; [by apply E2|].
      intros Hf. by apply Hne, (Hinj _ _ _ _ Hc Hx).
  - intros fd ev. rewrite Hi. destruct (decide (fd_ c = fd)) as [<-|Hne].
    + intros _. right. exists this, c'. by rewrite lookup_insert_eq.
    + rewrite lookup_partial_alter_ne by done. intros [?|(a & x & Hx & <-)]%E3; [by left|]. right.
      exists a, x. rewrite lookup_insert_ne; [done|]. intros <-. by assert (x = c) as -> by congruence.
Qed.

Lemma conns_update b h this c' :
  (∀ a c, h !! a = Some c → conn_ok b c) → conn_ok b c' →
  ∀ a c, <[this := c']> h !! a = Some c → conn_ok b c.
Proof.
  intros N Hok a x. destruct (decide (this = a)) as [<-|].
  - rewrite lookup_insert_eq. by intros [= <-].
  - rewrite lookup_insert_ne by done. apply N.
Qed.

(** Changing the buffers or the state, short of closing, of one connection. *)
Lemma inv_conn w this c c' :
  inv w → heap w !! this = Some c → fd_ c' = fd_ c → interest_ c' = interest_ c →
  (state_ c' = kClosed ↔ state_ c = kClosed) → conn_ok (k_bytes (kern w)) c' →
  inv (mkWorld (kern w) (<[this := c']> (heap w)) (server w)).
Proof.
  intros [F E O C N L S] Hc Hfd Hi Hst Hok. pose proof (alike_update _ _ _ _ Hc Hfd Hst) as Ha. split; cbn; try done.
  - eapply fds_same; [by eapply same_fds_update|done].
  - eapply epoll_update; [exact E|exact Hc|done|by eapply (fo_conn _ _ _ F)|apply F|].
    symmetry. apply partial_alter_id. rewrite Hi. symmetry. by apply (eo_conn _ _ _ E).
  - by eapply owners_alike.
  - by eapply conns_update.
Qed.

End inv.
