(* ===== verification/ConnFacts.v ===== *)
(** * What the connection's handlers do

    Each handler on every branch: it returns, keeps the invariant, and leaves the
    connection settled. *)

From Stdlib Require Import ZArith Lia Strings.Byte.
From stdpp Require Import base gmap numbers list.
From S2P Require Import Prelude Buffer Resp RespSpec RespFacts RespWire RespProps.
From S2P Require Import Entry Table Store Command CommandSpec CommandProps.
From S2P Require Import StoreSpec Kernel World Stream Connection Server NetInv.

Local Open Scope Z_scope.

Module ConnFacts.
Import Conn CmdProps Stream.

Section facts.
Context {K P : Type} `{!Kernel K} `{!PoolAllocator P} `{!KernelLaws K}.
Implicit Types (w : World K P) (c : Connection).

(** ** Closing *)

Lemma owners_close h (s : Server P) this c :
  owners_ok h s → (∀ a1 a2 c1 c2, h !! a1 = Some c1 → h !! a2 = Some c2 → fd_ c1 = fd_ c2 → a1 = a2) →
  h !! this = Some c → state_ c ≠ kClosed →
  owners_ok (<[this := with_state kClosed c]> h)
    (with_connections (delete (fd_ c) (connections_ s)) (retired_ s ++ [this]) s).
Proof.
  intros [O1 O2 O3] Hinj Hc Hst. split; cbn.
  - intros fd a. rewrite lookup_delete_Some, O1. split.
    + intros (Hfd & x & Hx & <- & Hs). exists x. rewrite lookup_insert_ne; [done|].
      intros <-. by assert (x = c) as -> by congruence.
    + intros (x & Hx & <- & Hs). destruct (decide (this = a)) as [<-|Hne].
      { rewrite lookup_insert_eq in Hx. by injection Hx as <-. }
      rewrite lookup_insert_ne in Hx by done. split; [|by exists x]. intros Hf. by apply Hne, (Hinj _ _ _ _ Hc Hx).
  - intros a. rewrite elem_of_app, list_elem_of_singleton, O2. destruct (decide (this = a)) as [<-|Hne].
    + rewrite lookup_insert_eq. split; [|by right]. intros _. by eexists.
    + rewrite lookup_insert_ne by done. split; [intros [?| ->]; [done|done]|by left].
  - apply NoDup_app. split; [done|]. split; [|apply NoDup_singleton].
    intros a (x & Hx & Hs)%O2 ->%list_elem_of_singleton. by assert (x = c) as -> by congruence.
Qed.

Definition closed_server s this c : Server P :=
  with_connections (delete (fd_ c) (connections_ s)) (retired_ s ++ [this]) s.

Lemma conn_ok_closed b c : conn_ok b c → conn_ok b (with_state kClosed c).
Proof. intros [H1 H2 H3 H4 H5]. by split. Qed.

Lemma markClosed_spec w this c :
  inv w → heap w !! this = Some c → state_ c ≠ kClosed →
  wp (markClosed this) w (λ _ w',
    w' = mkWorld (kern w) (<[this := with_state kClosed c]> (heap w)) (closed_server (server w) this c) ∧ inv w').
Proof.
  intros HI Hc Hst. unfold markClosed. apply wp_bind, (wp_get_conn _ _ c); [done|].
  assert (closed c = false) as -> by (unfold closed; by destruct (state_ c)).
  apply wp_bind, (wp_upd_conn _ _ _ c); [done|]. unfold retire.
  apply wp_bind, (wp_get_conn _ _ (with_state kClosed c)); [cbn; by rewrite lookup_insert_eq|].
  apply wp_bind, wp_gets. cbn [server with_state fd_].
  assert (connections_ (server w) !! fd_ c = Some this) as -> by (apply (in_owners _ HI); by exists c).
  apply wp_upd_server. split; [done|]. destruct HI as [F E O C N L S]. split; cbn; try done.
  - apply (fds_same _ _ _ _ (same_fds_update _ this c (with_state kClosed c) Hc eq_refl)). by destruct F; split.
  - assert (epoll_ok (kern w) (<[this := with_state kClosed c]> (heap w)) (server w)) as [E1 E2 E3]; [|by split].
    eapply epoll_update; [exact E|exact Hc|done|by eapply (fo_conn _ _ _ F)|apply F|].
    symmetry. apply partial_alter_id. symmetry. exact (eo_conn _ _ _ E this c Hc).
  - eapply owners_close; [exact O|apply F|done|done].
  - by destruct C; split.
  - eapply conns_update; [exact N|]. apply conn_ok_closed. by eapply N.
Qed.

(** ** Interest *)

(** Neither the store nor the server's idea of the time changes. *)
Definition quiet w w' : Prop :=
  store_ (server w') = store_ (server w) ∧ cachedNow_ (server w') = cachedNow_ (server w).

Lemma quiet_trans w1 w2 w3 : quiet w1 w2 → quiet w2 w3 → quiet w1 w3.
Proof. intros [A1 A2] [B1 B2]. split; congruence. Qed.

(** Only [this] changes, and it stays allocated. *)
Definition keeps (this : addr) w w' : Prop :=
  (∀ a, a ≠ this → heap w' !! a = heap w !! a) ∧ is_Some (heap w' !! this) ∧
  loop_ (server w') = loop_ (server w) ∧ later (kern w) (kern w').

Lemma later_refl (k : K) : later k k.
Proof. split; [lia|]. split; [done|lia]. Qed.

Lemma keeps_refl this w : is_Some (heap w !! this) → keeps this w w.
Proof. intros H. split; [done|]. split; [done|]. split; [done|apply later_refl]. Qed.

Lemma keeps_trans this w1 w2 w3 : keeps this w1 w2 → keeps this w2 w3 → keeps this w1 w3.
Proof.
  intros (A1 & _ & C1 & D1) (A2 & B2 & C2 & D2). split; [|split; [done|split; [congruence|by eapply later_trans]]].
  intros a Ha. by rewrite A2, A1.
Qed.

Lemma settled_but_keeps this w w' : keeps this w w' → settled_but this w → settled_but this w'.
Proof. intros (H & _) HS a c Hc Ha. rewrite H in Hc by done. by eapply HS. Qed.

Lemma keeps_close this w c k' :
  later (kern w) k' →
  keeps this w (mkWorld k' (<[this := with_state kClosed c]> (heap w)) (closed_server (server w) this c)).
Proof.
  intros Hl. split; [|split; [|done]]; cbn.
  - intros a Ha. by rewrite lookup_insert_ne.
  - rewrite lookup_insert_eq. by eexists.
Qed.

(** The kernel learns the new mask. *)
Lemma inv_interest w k' this c n :
  inv w → heap w !! this = Some c → watches (fd_ c) (Some (mkEvent n (HConn this))) (kern w) k' →
  inv (mkWorld k' (<[this := with_interest n c]> (heap w)) (server w)).
Proof.
  intros [F E O C N L S] Hc (Ho & Hl & Hi & _ & Ht). split; cbn; try done.
  - apply (fds_same _ _ _ _ (same_fds_update _ this c (with_interest n c) Hc eq_refl)).
    destruct F as [F1 F2 F3 F4 F5 F6 F7]. split; try done. by rewrite Ho.
  - eapply epoll_update; [exact E|exact Hc|done|by eapply (fo_conn _ _ _ F)|apply F|exact Hi].
  - eapply owners_alike; [|exact O]. by apply (alike_update _ _ c).
  - by eapply clock_ok_later.
  - pose proof Ht as (_ & _ & Hb). apply conns_update.
    + intros a x Hx. eapply conn_ok_later; [exact Hb|apply bytes_range|by eapply N].
    + eapply conn_ok_later; [exact Hb|apply bytes_range|]. destruct (N _ _ Hc) as [H1 H2 H3 H4 H5]. by split.
  - by rewrite Hl.
Qed.

(** After a handler's last step: [c'] is [c] up to its mask, unless the mask could
    not be changed and the connection was closed. *)
Definition settles (this : addr) w w' c : Prop :=
  inv w' ∧ keeps this w w' ∧ quiet w w' ∧
  (∀ fd, k_io (kern w') fd = k_io (kern w) fd) ∧
  ∃ c', heap w' !! this = Some c' ∧ settled c' ∧ fd_ c' = fd_ c ∧ in_ c' = in_ c ∧ out_ c' = out_ c ∧
        (state_ c' = state_ c ∨ state_ c' = kClosed).

Lemma settles_closed this w c k' :
  inv (mkWorld k' (<[this := with_state kClosed c]> (heap w)) (closed_server (server w) this c)) →
  later (kern w) k' → (∀ fd, k_io k' fd = k_io (kern w) fd) →
  settles this w (mkWorld k' (<[this := with_state kClosed c]> (heap w)) (closed_server (server w) this c)) c.
Proof.
  intros HI Hl Hs. split; [exact HI|]. split; [by apply keeps_close|]. split; [done|]. split; [done|].
  exists (with_state kClosed c). cbn. rewrite lookup_insert_eq. split; [done|]. split; [by intros []|]. by eauto.
Qed.

Lemma updateInterest_spec w this c :
  inv w → heap w !! this = Some c → state_ c ≠ kClosed → (state_ c = kClosing → Buf.readable (out_ c) ≠ []) →
  wp (updateInterest this) w (λ _ w', settles this w w' c).
Proof.
  intros HI Hc Hst Hcl. unfold updateInterest. apply wp_bind, (wp_get_conn _ _ c); [done|]. cbv zeta.
  fold (wanted c). destruct (Z.eqb_spec (wanted c) (interest_ c)) as [Hw|Hw].
  { apply wp_ret. split; [done|]. split; [apply keeps_refl; by eexists|]. split; [done|]. split; [done|].
    exists c. split; [done|]. split; [by intros _|]. by eauto. }
  apply wp_bind, wp_modify. intros r k' Hk.
  pose proof (mod_law _ _ _ _ _ Hk) as Hlaw. destruct r as [e|]; cbn [throws fmap option_fmap option_map].
  - destruct Hlaw as (Hid & He1 & He2).
    assert (e ≠ ENOENT) as Hne1 by (intros ->; pose proof (eo_conn _ _ _ (in_epoll _ HI) _ _ Hc) as H; by rewrite He1 in H).
    assert (e ≠ EBADF) as Hne2.
    { intros ->. apply (He2 eq_refl), (fo_open _ _ _ (in_fds _ HI)). do 3 right. by exists this, c. }
    cbn [err_code]. rewrite !bool_decide_true by done. cbn [andb]. apply wp_bind, wp_stderr. intros k2 Hid2.
    pose proof (idle_trans _ _ _ Hid Hid2) as Hid3. pose proof Hid3 as (_ & _ & _ & Hs & Hl).
    eapply wp_mono; [apply (markClosed_spec _ _ c (inv_idle _ _ HI Hid3)); done|].
    intros _ w' [-> HI']. cbn [kern heap server] in *. by apply settles_closed.
  - apply (wp_upd_conn _ _ _ c); [done|]. cbn [kern heap server]. pose proof Hlaw as (_ & _ & _ & Hs & Hl).
    split; [by apply inv_interest|]. split; [|split; [done|split; [done|]]].
    + split; [|split; [|done]]; cbn.
      * intros a Ha. by rewrite lookup_insert_ne.
      * rewrite lookup_insert_eq. by eexists.
    + exists (with_interest (wanted c) c). cbn. rewrite lookup_insert_eq. split; [done|]. split; [|by eauto].
      intros _. by split.
Qed.

(** ** Writing *)

(** The bytes on their way to the client: what the kernel took, then what is
    buffered. *)
Definition outgoing w (c : Connection) : bytes := k_sent (kern w) (fd_ c) ++ Buf.readable (out_ c).

(** The bytes read from the client. *)
Definition heard w (c : Connection) : bytes := k_received (kern w) (fd_ c).

(** Bytes moved from the buffer of [c] to the kernel, and nothing else. *)
Record flushed (this : addr) w w' c c' : Prop := {
  fl_inv : inv w';
  fl_keeps : keeps this w w';
  fl_quiet : quiet w w';
  fl_conn : heap w' !! this = Some c';
  fl_fd : fd_ c' = fd_ c;
  fl_in : in_ c' = in_ c;
  fl_outgoing : outgoing w' c' = outgoing w c;
  fl_heard : heard w' c' = heard w c;
  fl_others fd : fd ≠ fd_ c → k_io (kern w') fd = k_io (kern w) fd;
}.

Lemma flushed_refl this w c : inv w → heap w !! this = Some c → flushed this w w c c.
Proof. intros HI Hc. split; try done; try by apply keeps_refl; eexists. Qed.

Lemma flushed_trans this w1 w2 w3 c1 c2 c3 :
  flushed this w1 w2 c1 c2 → flushed this w2 w3 c2 c3 → flushed this w1 w3 c1 c3.
Proof.
  intros [A1 A2 A3 A4 A5 A6 A7 A8 A9] [B1 B2 B3 B4 B5 B6 B7 B8 B9].
  split; [done|by eapply keeps_trans|by eapply quiet_trans|done|congruence|congruence|congruence|congruence|].
  intros fd Hfd. rewrite B9 by (by rewrite A5). by apply A9.
Qed.

(** A system call that passes time. *)
Lemma flushed_idle this w c k' :
  inv w → heap w !! this = Some c → idle_step (kern w) k' → flushed this w (mkWorld k' (heap w) (server w)) c c.
Proof.
  intros HI Hc Hid. pose proof Hid as (_ & _ & _ & Hs & Hl). split; cbn; try done.
  - by apply inv_idle.
  - unfold outgoing. cbn. by rewrite Hs.
  - unfold heard. cbn. by rewrite Hs.
Qed.

Lemma flushed_closed this w c :
  inv w → heap w !! this = Some c →
  inv (mkWorld (kern w) (<[this := with_state kClosed c]> (heap w)) (closed_server (server w) this c)) →
  flushed this w (mkWorld (kern w) (<[this := with_state kClosed c]> (heap w)) (closed_server (server w) this c))
    c (with_state kClosed c).
Proof.
  intros HI Hc HI'. split; cbn; try done.
  - apply keeps_close, later_refl.
  - by rewrite lookup_insert_eq.
Qed.

(** One successful write. *)
Lemma flushed_write this w c k' n o :
  inv w → heap w !! this = Some c → 0 < n ≤ zlen (Buf.readable (out_ c)) →
  sends (fd_ c) (take (Z.to_nat n) (Buf.readable (out_ c))) (kern w) k' →
  Buf.wf o → Buf.readable o = drop (Z.to_nat n) (Buf.readable (out_ c)) →
  flushed this w (mkWorld k' (<[this := with_out o c]> (heap w)) (server w)) c (with_out o c).
Proof.
  intros HI Hc Hn Hsend Ho Hr. pose proof Hsend as (_ & _ & _ & Hs & Hs' & Hl). pose proof Hl as (_ & _ & Hb).
  destruct (in_conns _ HI _ _ Hc) as [H1 H2 H3 H4 H5]. split; cbn; try done.
  - apply (inv_conn (mkWorld k' (heap w) (server w)) this c); [by eapply inv_sends|done..|].
    eapply conn_ok_later; [exact Hb|apply bytes_range|]. split; cbn; try done. intros Hst. specialize (H5 Hst).
    rewrite <-(Buf.readable_length o), Hr, length_drop by done.
    rewrite <-(Buf.readable_length (out_ c)) in H5 by done. lia.
  - split; [|split; [|done]]; cbn.
    + intros a Ha. by rewrite lookup_insert_ne.
    + rewrite lookup_insert_eq. by eexists.
  - by rewrite lookup_insert_eq.
  - unfold outgoing. cbn. by rewrite Hs'; cbn; rewrite Hr, <-app_assoc, take_drop.
  - unfold heard. cbn. by rewrite Hs'.
Qed.

Lemma flush_loop_spec fuel this w c :
  inv w → heap w !! this = Some c → state_ c ≠ kClosed →
  (Z.to_nat (Buf.size (out_ c)) + k_budget (kern w) < fuel)%nat →
  wp (flush_loop fuel this) w (λ go w', ∃ c', flushed this w w' c c' ∧
    if go then state_ c' = state_ c else state_ c' = kClosed).
Proof.
  revert w c. induction fuel as [|fuel IH]; intros w c HI Hc Hst Hf; [lia|]. cbn [flush_loop].
  apply wp_bind, (wp_get_conn _ _ c); [done|].
  pose proof (co_out _ _ (in_conns _ HI _ _ Hc)) as Hwf.
  destruct (Buf.empty (out_ c)) eqn:Ee. { apply wp_ret. exists c. split; [by apply flushed_refl|done]. }
  assert (Buf.readable (out_ c) ≠ []) as Hne by (intros H%Buf.empty_readable; [congruence|done]).
  apply wp_bind, wp_syscall. intros r k' Hk. pose proof (write_law _ _ _ _ _ Hk) as Hlaw. destruct r as [n|e].
  - destruct Hlaw as (Hn & Hsend). destruct (Z.ltb_spec 0 n) as [Hpos|Hz].
    + rewrite <-(Buf.readable_length (out_ c)) in Hf by done.
      apply wp_bind, wp_lift. eapply returns_mono;
        [apply (Buf.consume_spec n (out_ c) Hwf); rewrite <-Buf.readable_length by done; lia|].
      intros o [Ho Hr]. apply wp_bind, (wp_upd_conn _ _ _ c); [done|]. cbn [kern heap server].
      assert (flushed this w (mkWorld k' (<[this := with_out o c]> (heap w)) (server w)) c (with_out o c)) as HF
        by (apply (flushed_write _ _ _ _ n); [done|done|lia|done..]).
      eapply wp_mono; [apply (IH _ (with_out o c) (fl_inv _ _ _ _ _ HF) (fl_conn _ _ _ _ _ HF)); [done|]|].
      * cbn. rewrite <-(Buf.readable_length o), Hr, length_drop by done. destruct Hsend as (_ & _ & _ & _ & _ & _ & Hb & _). lia.
      * intros go w' (c' & HF' & Hgo). exists c'. split; [by eapply flushed_trans|done].
    + apply wp_ret. assert (n = 0) as -> by lia. exists c. split; [|done]. apply flushed_idle; [done|done|].
      destruct Hsend as (H1 & H2 & H3 & H4 & H5 & H6). split; [done|]. split; [done|]. split; [done|]. split; [|done].
      intros fd. destruct (decide (fd = fd_ c)) as [->|]; [rewrite H5, app_nil_r; by destruct (k_io (kern w) (fd_ c))|by apply H4].
  - destruct Hlaw as (Hid & Hint). pose proof (flushed_idle this w c k' HI Hc Hid) as HF.
    destruct (bool_decide (e = EAGAIN) || bool_decide (e = EWOULDBLOCK)). { apply wp_ret. by exists c. }
    case_bool_decide as Ei.
    + eapply wp_mono; [apply (IH _ c (fl_inv _ _ _ _ _ HF)); [done|done|cbn; specialize (Hint Ei); lia]|].
      intros go w' (c' & HF' & Hgo). exists c'. split; [by eapply flushed_trans|done].
    + apply wp_bind. eapply wp_mono; [apply (markClosed_spec _ _ c (fl_inv _ _ _ _ _ HF)); done|].
      intros _ w' [-> HI']. apply wp_ret. exists (with_state kClosed c). split; [|done].
      eapply flushed_trans; [exact HF|]. apply flushed_closed; [apply HF|done|done].
Qed.

(** After [flushOutput]: closed, or settled in the state it was in.  It is closed
    while bytes are left only when the kernel refused them. *)
Lemma flushOutput_spec this w c :
  inv w → heap w !! this = Some c → state_ c ≠ kClosed →
  wp (flushOutput this) w (λ _ w', ∃ c', flushed this w w' c c' ∧ settled c' ∧
    (state_ c' = state_ c ∨ state_ c' = kClosed)).
Proof.
  intros HI Hc Hst. unfold flushOutput, flush_fuel. apply wp_bind, wp_gets. rewrite Hc.
  apply wp_bind. eapply wp_mono; [by apply (flush_loop_spec _ this w c); [..|lia]|].
  intros go w1 (c1 & HF & Hgo). destruct go.
  - apply wp_bind, (wp_get_conn _ _ c1); [apply HF|]. pose proof (fl_inv _ _ _ _ _ HF) as HI1.
    pose proof (co_out _ _ (in_conns _ HI1 _ _ (fl_conn _ _ _ _ _ HF))) as Hwf.
    destruct (Buf.empty (out_ c1) && state_eqb (state_ c1) kClosing) eqn:Ec.
    + eapply wp_mono; [apply (markClosed_spec _ _ c1 HI1); [apply HF|by rewrite Hgo]|].
      intros _ w' [-> HI']. exists (with_state kClosed c1). split; [|split; [by intros []|by right]].
      eapply flushed_trans; [exact HF|]. apply flushed_closed; [done|apply HF|done].
    + eapply wp_mono; [apply (updateInterest_spec _ _ c1 HI1); [apply HF|by rewrite Hgo|]|].
      * intros Hcl He%Buf.empty_readable; [|done]. by rewrite He, Hcl in Ec.
      * intros _ w' (HI' & Hk & Hs & Hsent & c' & Hc' & Hset & Hfd & Hin & Hout & Hst').
        exists c'. split; [|split; [done|]].
        -- eapply flushed_trans; [exact HF|]. split; try done.
           ++ unfold outgoing. by rewrite Hsent, Hfd, Hout.
           ++ unfold heard. by rewrite Hsent, Hfd.
        -- rewrite <-Hgo. done.
  - apply wp_ret. exists c1. split; [done|]. split; [|by right]. by intros H.
Qed.

(** ** Requests *)

Lemma returns_self {A} (r : result A) (Q : A → Prop) : returns r Q → returns r (λ a, r = Ok a).
Proof. by destruct r. Qed.

(** The dispatcher as a step of the stream. *)
Lemma dispatch_answers (s : Sto.Store P) args now out :
  sound_store s → request_ok args → 500 ≤ now ≤ INT64_MAX →
  Buf.wf out → Buf.size out + kMaxReply ≤ Buf.kMaxContent →
  returns (Cmds.dispatch s (command_of args) now out) (λ '(d, s', out'), ∃ o,
    answers now s args o s' d ∧ zlen o ≤ kMaxReply ∧ sound_store s' ∧ (args ≠ [] → ∃ r, wf_reply r ∧ o = encode_reply r) ∧
    Buf.wf out' ∧ Buf.readable out' = Buf.readable out ++ o).
Proof.
  intros HS Hargs Hnow Hout Hroom. unfold answers. case_bool_decide as Hne.
  { subst args. cbn. exists []. rewrite app_nil_r. split; [done|]. split; [|done]. unfold kMaxReply. cbn. lia. }
  destruct (good_request now Hnow _ args Hargs (size_int64 _ HS)) as (Hops & Hsm & _).
  eapply returns_mono; [apply (dispatch_returns s args now out
    (λ rs s', StoSpec.store_run (pair now <$> ops (request_means now (Sto.size s) args)) s = Ok (rs, s'))
    HS Hargs Hne Hnow Hout Hroom)|].
  { eapply returns_mono; [eapply returns_self, (store_ops_safe s now _ HS Hops Hsm)|]. by intros []. }
  intros [[d s'] out'] (rs & r & Hrun & Ha & Hwf & Hlen & HS' & _ & Hout' & Hrd & ->).
  exists (encode_reply r). split; [by exists rs, r|]. split; [done|]. split; [done|]. split; [by intros _; exists r|]. done.
Qed.

Lemma answers_sound now (s s' : Sto.Store P) args o d :
  sound_store s → request_ok args → 500 ≤ now ≤ INT64_MAX → answers now s args o s' d →
  zlen o ≤ kMaxReply ∧ sound_store s' ∧ (args ≠ [] → ∃ r, wf_reply r ∧ o = encode_reply r).
Proof.
  intros HS Hargs Hnow Ha.
  pose proof (dispatch_answers s args now no_output HS Hargs Hnow no_output_wf ltac:(vm_compute; discriminate)) as H.
  apply returns_inv in H as ([[d' s1] out'] & _ & o' & Ha' & Hlen & HS1 & Hr & _).
  by destruct (answers_det _ _ _ _ _ _ _ _ _ Ha Ha') as (-> & -> & _).
Qed.

(** Replies are paid for by the input they answer. *)
Lemma drains_room now (s s' : Sto.Store P) i o rest :
  sound_store s → 500 ≤ now ≤ INT64_MAX → drains now s i o s' rest kOpen →
  zlen rest ≤ zlen i ∧ zlen o ≤ (zlen i - zlen rest) * kMaxReply ∧ sound_store s'.
Proof.
  intros HS Hnow H. remember kOpen as st eqn:Hst.
  induction H as [s i E|s i e E|s i args n o s' E Ha|s i args n o s1 o' s' rest st E Ha Hd IH]; [|done|done|].
  { split; [lia|]. split; [cbn; lia|done]. }
  destruct (answers_sound _ _ _ _ _ _ HS (command_p_ok _ _ _ E) Hnow Ha) as (Ho & HS1 & _).
  destruct (IH HS1 Hst) as (Hr & Ho' & HS'). pose proof (inc_len _ _ _ E) as Hn. pose proof (command_p_pos _ _ _ E) as Hpos.
  rewrite length_drop in *. rewrite length_app. unfold kMaxReply in *. split; [lia|]. split; [lia|done].
Qed.

(** [r] answers [args], at some time, on some store. *)
Definition replied (args : list bytes) (r : Reply) : Prop :=
  ∃ now (s s' : Sto.Store P) d, sound_store s ∧ 500 ≤ now ≤ INT64_MAX ∧ wf_reply r ∧ answers now s args (encode_reply r) s' d.

Definition is_request (args : list bytes) : Prop := args ≠ [].
#[global] Instance is_request_dec args : Decision (is_request args).
Proof. unfold is_request. apply _. Defined.

(** One reply per request, in order. *)
Definition replies_to (reqs : list (list bytes)) (o : bytes) : Prop :=
  ∃ rs, Forall2 replied (filter is_request reqs) rs ∧ o = mjoin (encode_reply <$> rs).

Lemma replies_to_app reqs reqs' o o' : replies_to reqs o → replies_to reqs' o' → replies_to (reqs ++ reqs') (o ++ o').
Proof.
  intros (rs & H & ->) (rs' & H' & ->). exists (rs ++ rs'). rewrite filter_app, fmap_app, join_app.
  split; [by apply Forall2_app|done].
Qed.

Lemma replies_to_one now (s s' : Sto.Store P) args o d :
  sound_store s → request_ok args → 500 ≤ now ≤ INT64_MAX → answers now s args o s' d → replies_to [args] o.
Proof.
  intros HS Hargs Hnow Ha. destruct (answers_sound _ _ _ _ _ _ HS Hargs Hnow Ha) as (_ & _ & Hr).
  unfold replies_to. destruct (decide (is_request args)) as [Hne|He].
  - destruct (Hr Hne) as (r & Hwf & ->). exists [r]. rewrite filter_cons_True by done. cbn. rewrite app_nil_r.
    split; [|done]. constructor; [|constructor]. by exists now, s, s', d.
  - exists []. rewrite filter_cons_False by done. split; [constructor|]. unfold answers in Ha.
    rewrite bool_decide_true in Ha by (destruct args; [done|by exfalso; apply He]). by destruct Ha as [-> _].
Qed.

Lemma drains_replies now (s s' : Sto.Store P) i o rest st :
  sound_store s → 500 ≤ now ≤ INT64_MAX → drains now s i o s' rest st →
  sound_store s' ∧ (st = kOpen → ∃ reqs, cuts i reqs rest ∧ replies_to reqs o).
Proof.
  intros HS Hnow H. induction H as [s i E|s i e E|s i args n o s' E Ha|s i args n o s1 o' s' rest st E Ha Hd IH].
  - split; [done|]. intros _. exists []. split; [by constructor|]. exists []. split; [constructor|done].
  - by split.
  - split; [|done]. by destruct (answers_sound _ _ _ _ _ _ HS (command_p_ok _ _ _ E) Hnow Ha) as (_ & ? & _).
  - pose proof (command_p_ok _ _ _ E) as Hargs.
    destruct (answers_sound _ _ _ _ _ _ HS Hargs Hnow Ha) as (_ & HS1 & _). destruct (IH HS1) as [HS' Hst].
    split; [done|]. intros Hop. destruct (Hst Hop) as (reqs & Hc & Hr). exists (args :: reqs).
    split; [by eapply cuts_next|]. apply (replies_to_app [args] reqs); [by apply (replies_to_one now s s1 args o Cmds.kContinue)|done].
Qed.

(** What [processInput] did, on the unread and the outgoing bytes. *)
Definition processed (now : Z) (this : addr) w w' c : Prop :=
  ∃ c' o, drains now (store_ (server w)) (Buf.readable (in_ c)) o (store_ (server w')) (Buf.readable (in_ c')) (state_ c') ∧
    inv w' ∧ kern w' = kern w ∧ heap w' = <[this := c']> (heap w) ∧
    server w' = with_store (store_ (server w')) (server w) ∧
    fd_ c' = fd_ c ∧ interest_ c' = interest_ c ∧ Buf.readable (out_ c') = Buf.readable (out_ c) ++ o.

Lemma inv_set_store w (x : Sto.Store P) :
  inv w → sound_store x → inv (mkWorld (kern w) (heap w) (with_store x (server w))).
Proof.
  intros [F E O C N L S] Hx. split; cbn; try done.
  - by destruct F; split.
  - by destruct E; split.
  - by destruct O; split.
  - by destruct C; split.
Qed.

(** One request taken from the input and answered. *)
Lemma conn_ok_step b c i o r n :
  conn_ok b c → state_ c = kOpen → Buf.wf i → Buf.wf o →
  Buf.readable i = drop (Z.to_nat n) (Buf.readable (in_ c)) → 0 < n ≤ zlen (Buf.readable (in_ c)) →
  Buf.readable o = Buf.readable (out_ c) ++ r → zlen r ≤ kMaxReply →
  conn_ok b (with_in i (with_out o c)).
Proof.
  intros [H1 H2 H3 H4 H5] Hst Hi Ho Hri Hn Hro Hr. specialize (H5 Hst).
  assert (Buf.size i = Buf.size (in_ c) - n) as Hsi.
  { rewrite <-(Buf.readable_length i), <-(Buf.readable_length (in_ c)), Hri, length_drop by done. lia. }
  assert (Buf.size o = Buf.size (out_ c) + zlen r) as Hso.
  { rewrite <-(Buf.readable_length o), <-(Buf.readable_length (out_ c)), Hro, length_app by done. lia. }
  rewrite <-(Buf.readable_length (in_ c)) in * by done.
  split; cbn; [done|done|done|lia|]. intros _. unfold kMaxReply in *. lia.
Qed.

Lemma conn_room b c : 0 ≤ b → conn_ok b c → state_ c = kOpen → Buf.readable (in_ c) ≠ [] →
  Buf.size (out_ c) + kMaxReply ≤ Buf.kMaxContent ∧ zlen (Buf.readable (in_ c)) < 2 ^ 63.
Proof.
  intros Hb [H1 H2 H3 H4 H5] Hst Hne. specialize (H5 Hst). rewrite <-(Buf.readable_length (in_ c)) in * by done.
  destruct (Buf.readable (in_ c)) as [|x l]; [done|]. cbn [length] in *. unfold kMaxReply in *. lia.
Qed.

Lemma processed_refl now this w c :
  inv w → heap w !! this = Some c → state_ c = kOpen → command_p (Buf.readable (in_ c)) = More → processed now this w w c.
Proof.
  intros HI Hc Hst Hm. exists c, []. rewrite Hst, app_nil_r, insert_id by done. split; [by constructor|].
  split; [done|]. split; [done|]. split; [done|]. split; [by destruct (server w)|]. done.
Qed.

(** The protocol error: its text, and no more requests. *)
Lemma processed_bad now this w c e o :
  inv w → heap w !! this = Some c → state_ c = kOpen → command_p (Buf.readable (in_ c)) = Bad e →
  Buf.wf o → Buf.readable o = Buf.readable (out_ c) ++ encode_reply (Err (errorToString e)) →
  processed now this w (mkWorld (kern w) (<[this := with_state kClosing (with_out o c)]> (heap w)) (server w)) c.
Proof.
  intros HI Hc Hst Hb Ho Hr. exists (with_state kClosing (with_out o c)), (encode_reply (Err (errorToString e))).
  split; [by constructor|]. split; [|split; [done|split; [done|split; [by destruct (server w)|done]]]].
  apply (inv_conn _ _ c); [done|done|done|done|by rewrite Hst|].
  destruct (in_conns _ HI _ _ Hc) as [H1 H2 H3 H4 H5]. by split.
Qed.

(** A request answered, then the rest of the loop. *)
Definition after_request w this c (store : Sto.Store P) (i o : Buf.Buffer) : World K P :=
  mkWorld (kern w) (<[this := with_in i (with_out o c)]> (heap w)) (with_store store (server w)).

Lemma processed_step now this w w' c args n r store i o :
  heap w !! this = Some c → command_p (Buf.readable (in_ c)) = Done args n →
  answers now (store_ (server w)) args r store Cmds.kContinue →
  Buf.readable i = drop (Z.to_nat n) (Buf.readable (in_ c)) → Buf.readable o = Buf.readable (out_ c) ++ r →
  processed now this (after_request w this c store i o) w' (with_in i (with_out o c)) →
  processed now this w w' c.
Proof.
  intros Hc Hp Ha Hi Ho (c' & o' & Hd & HI & Hk & Hh & Hs & Hfd & Hin & Hout). cbn in *.
  exists c', (r ++ o'). split; [|split; [done|split; [done|split; [|split; [|split; [done|split; [done|]]]]]]].
  - eapply drains_next; [exact Hp|exact Ha|]. by rewrite <-Hi.
  - by rewrite Hh, insert_insert_eq.
  - rewrite Hs. by destruct (server w).
  - by rewrite Hout, Ho, app_assoc.
Qed.

Lemma emits_error e : emits (reply.error (errorToString e)) (encode_reply (Err (errorToString e))).
Proof. apply emits_appendLine. Qed.

Lemma error_reply_length e : zlen (encode_reply (Err (errorToString e))) ≤ kMaxReply.
Proof. by destruct e. Qed.

Lemma process_loop_spec fuel this now cmd w c :
  inv w → heap w !! this = Some c → state_ c = kOpen → 500 ≤ now ≤ INT64_MAX → length (argv cmd) = 16%nat →
  (length (Buf.readable (in_ c)) < fuel)%nat →
  wp (process_loop fuel this now cmd) w (λ _ w', processed now this w w' c).
Proof.
  revert w c cmd. induction fuel as [|fuel IH]; intros w c cmd HI Hc Hst Hnow Hcmd Hf; [lia|].
  cbn [process_loop]. apply wp_bind, (wp_get_conn _ _ c); [done|].
  pose proof (in_conns _ HI _ _ Hc) as Hok. pose proof (co_in _ _ Hok) as Hwi. pose proof (co_out _ _ Hok) as Hwo.
  destruct (Buf.empty (in_ c)) eqn:Ee.
  { apply wp_ret, processed_refl; [done..|]. apply Buf.empty_readable in Ee; [|done]. by rewrite Ee. }
  assert (Buf.readable (in_ c) ≠ []) as Hne by (intros H%Buf.empty_readable; [congruence|done]).
  destruct (conn_room _ _ (bytes_range _) Hok Hst Hne) as [Hroom Hlen].
  apply wp_bind, wp_lift. rewrite parseCommand_spec by done. cbn [returns].
  destruct (command_p (Buf.readable (in_ c))) as [args n| |e] eqn:Ep; cbn [parsed status incomplete fail].
  - pose proof (inc_len _ _ _ Ep) as Hn. pose proof (command_p_pos _ _ _ Ep) as Hpos.
    apply wp_bind, wp_gets, wp_bind, wp_lift.
    eapply returns_mono; [apply (dispatch_answers _ _ now _ (in_store _ HI) (command_p_ok _ _ _ Ep) Hnow Hwo Hroom)|].
    intros [[d store] o] (r & Ha & Hr & HS & _ & Hwo' & Hro).
    apply wp_bind, wp_upd_server, wp_bind, (wp_upd_conn _ _ _ c); [done|]. apply wp_bind, wp_lift. cbn [kern heap server consumed].
    eapply returns_mono; [apply (Buf.consume_spec n (in_ c) Hwi); rewrite <-Buf.readable_length by done; lia|].
    intros i [Hwi' Hri]. apply wp_bind, (wp_upd_conn _ _ _ (with_out o c)); [cbn; by rewrite lookup_insert_eq|].
    cbn [kern heap server]. rewrite insert_insert_eq. fold (after_request w this c store i o).
    assert (inv (after_request w this c store i o)) as HI1.
    { apply (inv_conn (mkWorld (kern w) (heap w) (with_store store (server w))) this c); [by apply inv_set_store|done..|].
      apply (conn_ok_step _ _ _ _ r n); [done|done|done|done|done|lia|done|done]. }
    assert (heap (after_request w this c store i o) !! this = Some (with_in i (with_out o c))) as Hc1
      by (cbn; by rewrite lookup_insert_eq).
    destruct d.
    + eapply wp_mono; [apply (IH _ _ (command_of args) HI1 Hc1); [done|done|apply command_of_wf; by eapply command_p_ok|]|].
      * cbn. rewrite Hri, length_drop. lia.
      * intros [] w'. by eapply processed_step.
    + apply (wp_upd_conn _ _ _ _ _ Hc1). exists (with_state kClosing (with_in i (with_out o c))), r.
      cbn [server store_ with_store in_ with_state with_in state_ kern heap after_request]. rewrite Hri.
      split; [by eapply drains_quit|]. split; [|split; [done|split; [by rewrite insert_insert_eq|done]]].
      apply (inv_conn (after_request w this c store i o) this _ _ HI1 Hc1); [done..|cbn; by rewrite Hst|].
      destruct (in_conns _ HI1 _ _ Hc1) as [H1 H2 H3 H4 H5]. by split.
  - apply wp_ret. by apply processed_refl.
  - pose proof (error_reply_length e). apply wp_bind, wp_lift. eapply returns_mono; [apply (emits_error e _ Hwo); lia|].
    intros o [Ho Hro]. apply wp_bind, (wp_upd_conn _ _ _ c); [done|].
    apply (wp_upd_conn _ _ _ (with_out o c)); [cbn; by rewrite lookup_insert_eq|]. cbn [kern heap server].
    rewrite insert_insert_eq. by eapply processed_bad.
Qed.

(** ** The clock *)

(** The time of the current tick. *)
Definition tick_time w : Z :=
  if tickCount_ (loop_ (server w)) =? cachedTick_ (server w) then cachedNow_ (server w)
  else nowMs (sys_steady (kern w)).1.

(** Only the clock's cache may change. *)
Definition reads_clock (t : Z) w w' : Prop :=
  inv w' ∧ 500 ≤ t ≤ INT64_MAX ∧ cachedNow_ (server w) ≤ t ∧ t = tick_time w ∧ heap w' = heap w ∧ idle_step (kern w) (kern w') ∧
  server w' = with_now (cachedNow_ (server w')) (cachedTick_ (server w')) (server w) ∧
  cachedNow_ (server w') = t ∧ cachedTick_ (server w') = tickCount_ (loop_ (server w)).

Lemma idle_refl (k : K) : idle_step k k.
Proof. split; [done|]. split; [done|]. split; [done|]. split; [done|apply later_refl]. Qed.

Lemma server_now_spec w : inv w → wp server_now w (λ t w', reads_clock t w w').
Proof.
  intros HI. unfold server_now, reads_clock, tick_time, tick. apply wp_bind, wp_gets.
  destruct (Z.eqb_spec (tickCount_ (loop_ (server w))) (cachedTick_ (server w))) as [Et|Et].
  - apply wp_ret. pose proof (ck_cached _ _ (in_clock _ HI) (eq_sym Et)). pose proof (clock_range (kern w)).
    pose proof (ck_past _ _ (in_clock _ HI)). split; [done|]. split; [lia|]. split; [lia|]. split; [done|]. split; [done|]. split; [apply idle_refl|]. split; [by destruct (server w)|done].
  - apply wp_bind, wp_syscall. intros ns k' Hk. destruct (steady_law _ _ _ Hk) as [Hid Ht].
    assert (nowMs ns = k_clock k') as Hn by (by rewrite Ht).
    apply wp_bind, wp_upd_server, wp_ret. cbn [kern heap server].
    pose proof (ck_now _ _ (in_clock _ HI)). pose proof (clock_range k'). pose proof Hid as (_ & _ & _ & _ & Hl & _).
    pose proof (ck_past _ _ (in_clock _ HI)).
    split; [|split; [lia|split; [lia|split; [by rewrite Hk|split; [done|split; [done|split; [done|done]]]]]]].
    destruct (inv_idle _ _ HI Hid) as [F E O C N L S]. split; cbn; try done.
    + by destruct F; split.
    + by destruct E; split.
    + by destruct O; split.
    + destruct C as [C1 C2 C3 C4 C5]. split; cbn in *; try done; [lia|]. intros _. lia.
Qed.

(** ** The handlers *)

Lemma processInput_spec this w c :
  inv w → heap w !! this = Some c → state_ c ≠ kClosed →
  wp (processInput this) w (λ _ w', ∃ c', inv w' ∧ keeps this w w' ∧ heap w' !! this = Some c' ∧
    fd_ c' = fd_ c ∧ state_ c' ≠ kClosed ∧ (∀ fd, k_io (kern w') fd = k_io (kern w) fd) ∧
    if state_eqb (state_ c) kOpen then
      ∃ now o, reads_clock now w (mkWorld (kern w') (heap w) (with_store (store_ (server w)) (server w'))) ∧
        drains now (store_ (server w)) (Buf.readable (in_ c)) o (store_ (server w'))
          (Buf.readable (in_ c')) (state_ c') ∧
        Buf.readable (out_ c') = Buf.readable (out_ c) ++ o
    else c' = c ∧ quiet w w').
Proof.
  intros HI Hc Hst. unfold processInput. apply wp_bind, (wp_get_conn _ _ c); [done|].
  destruct (state_eqb (state_ c) kOpen) eqn:Es; cbn [negb].
  2: { apply wp_ret. exists c. split; [done|]. split; [by apply keeps_refl; eexists|]. done. }
  assert (state_ c = kOpen) as Hop by (by destruct (state_ c)).
  apply wp_bind. eapply wp_mono; [by apply server_now_spec|]. intros now w1 HR.
  pose proof HR as (HI1 & Hnow & _ & _ & Hh & (_ & _ & _ & Hs & Hl) & Hsv & _ & _).
  assert (heap w1 !! this = Some c) as Hc1 by (by rewrite Hh).
  assert (store_ (server w1) = store_ (server w)) as Hst1 by (by rewrite Hsv).
  eapply wp_mono; [apply (process_loop_spec _ this now emptyCommand w1 c HI1 Hc1 Hop Hnow); [done|]|].
  { rewrite <-(Buf.readable_length (in_ c)), Nat2Z.id by apply (in_conns _ HI _ _ Hc). lia. }
  intros [] w' (c' & o & Hd & HI' & Hk & Hh' & Hs' & Hfd & _ & Hout). exists c'.
  split; [done|]. rewrite Hk. split; [|split; [by rewrite Hh', lookup_insert_eq|]].
  { split; [|split; [|split]].
    - intros a Ha. by rewrite Hh', lookup_insert_ne, Hh.
    - rewrite Hh', lookup_insert_eq. by eexists.
    - rewrite Hs'. cbn. by rewrite Hsv.
    - by rewrite Hk. }
  split; [done|]. split; [by eapply drains_state|]. split; [done|]. exists now, o.
  split; [|by rewrite <-Hst1]. rewrite <-Hst1.
  assert (with_store (store_ (server w1)) (server w') = server w1) as -> by (rewrite Hs'; by destruct (server w1)).
  rewrite <-Hh. by destruct w1.
Qed.

(** The input buffer with bytes just read. *)
Lemma conn_ok_read b b' c i bs :
  conn_ok b c → zlen bs + b' ≤ b → 0 ≤ b' → Buf.wf i → Buf.readable i = Buf.readable (in_ c) ++ bs →
  conn_ok b' (with_in i c).
Proof.
  intros [H1 H2 H3 H4 H5] Hb Hb' Hi Hr.
  assert (Buf.size i = Buf.size (in_ c) + zlen bs) as Hs.
  { rewrite <-(Buf.readable_length i), <-(Buf.readable_length (in_ c)), Hr, length_app by done. lia. }
  split; cbn; [done|done|done|lia|]. intros Hst. specialize (H5 Hst). unfold kMaxReply in *. lia.
Qed.

(** What became of a connection that was woken to read: nothing came of it, it
    was closed, or some bytes were read and the requests they complete were
    answered. *)
Inductive read_outcome (w w' : World K P) (c c' : Connection) : Prop :=
| read_nothing : quiet w w' → heard w' c' = heard w c → outgoing w' c' = outgoing w c →
    Buf.readable (in_ c') = Buf.readable (in_ c) → state_ c' = state_ c → read_outcome w w' c c'
| read_closed : quiet w w' → heard w' c' = heard w c → outgoing w' c' = outgoing w c →
    state_ c' = kClosed → read_outcome w w' c c'
| read_ignored bs : state_ c = kClosing → Buf.readable (in_ c') = Buf.readable (in_ c) ++ bs →
    quiet w w' → heard w' c' = heard w c ++ bs → outgoing w' c' = outgoing w c →
    state_ c' = kClosing ∨ state_ c' = kClosed → read_outcome w w' c c'
| read_requests bs now o st : state_ c = kOpen → bs ≠ [] → 500 ≤ now ≤ INT64_MAX →
    cachedNow_ (server w) ≤ now → cachedNow_ (server w') = now →
    drains now (store_ (server w)) (Buf.readable (in_ c) ++ bs) o (store_ (server w')) (Buf.readable (in_ c')) st →
    heard w' c' = heard w c ++ bs → outgoing w' c' = outgoing w c ++ o → state_ c' = st ∨ state_ c' = kClosed →
    read_outcome w w' c c'.

Definition handled (this : addr) w w' c c' : Prop :=
  inv w' ∧ keeps this w w' ∧ heap w' !! this = Some c' ∧ settled c' ∧ fd_ c' = fd_ c ∧
  ∀ fd, fd ≠ fd_ c → k_io (kern w') fd = k_io (kern w) fd.

Lemma handled_refl this w c : inv w → heap w !! this = Some c → settled c → handled this w w c c.
Proof. intros HI Hc Hs. split; [done|]. split; [by apply keeps_refl; eexists|]. done. Qed.

(** The world with another input buffer for [this]. *)
Definition put_in (this : addr) (i : Buf.Buffer) c w (k' : K) : World K P :=
  mkWorld k' (<[this := with_in i c]> (heap w)) (server w).

Lemma idle_receives fd (k k' : K) : idle_step k k' → receives fd [] k k'.
Proof.
  intros (H1 & H2 & H3 & H4 & H5). split; [done|]. split; [done|]. split; [done|]. split; [by intros ? _|].
  split; [|done]. rewrite H4, app_nil_r. by destruct (k_io k fd).
Qed.

Lemma receives_nil fd (k k' : K) : receives fd [] k k' → ∀ fd', k_io k' fd' = k_io k fd'.
Proof.
  intros (_ & _ & _ & H4 & H5 & _) fd'. destruct (decide (fd' = fd)) as [->|]; [|by apply H4].
  rewrite H5, app_nil_r. by destruct (k_io k fd).
Qed.

Lemma put_in_inv this i c w k' bs :
  inv w → heap w !! this = Some c → receives (fd_ c) bs (kern w) k' → zlen bs + k_bytes k' ≤ k_bytes (kern w) →
  Buf.wf i → Buf.readable i = Buf.readable (in_ c) ++ bs → inv (put_in this i c w k').
Proof.
  intros HI Hc (H1 & H2 & H3 & _ & _ & H6) Hb Hi Hr.
  apply (inv_conn (mkWorld k' (heap w) (server w)) this c); [by apply inv_kern_later|done..|].
  cbn. eapply conn_ok_read; [by eapply (in_conns _ HI)|exact Hb|apply bytes_range|done|done].
Qed.

Lemma put_in_keeps this i c w k' : later (kern w) k' → keeps this w (put_in this i c w k').
Proof.
  intros Hl. split; [|split; [|done]]; cbn.
  - intros a Ha. by rewrite lookup_insert_ne.
  - rewrite lookup_insert_eq. by eexists.
Qed.

Lemma flushed_handled this w w1 w' c c1 c' :
  keeps this w w1 → fd_ c1 = fd_ c → (∀ fd, fd ≠ fd_ c → k_io (kern w1) fd = k_io (kern w) fd) →
  flushed this w1 w' c1 c' → settled c' → handled this w w' c c'.
Proof.
  intros Hk Hfd Hs HF Hset. split; [apply HF|]. split; [eapply keeps_trans; [exact Hk|apply HF]|].
  split; [apply HF|]. split; [done|]. split; [by rewrite (fl_fd _ _ _ _ _ HF)|].
  intros fd Hne. rewrite (fl_others _ _ _ _ _ HF) by (by rewrite Hfd). by apply Hs.
Qed.

(** Bytes have been read into the buffer: requests, then replies. *)
Lemma read_data this w c i k' bs :
  inv w → heap w !! this = Some c → state_ c ≠ kClosed → receives (fd_ c) bs (kern w) k' →
  zlen bs + k_bytes k' ≤ k_bytes (kern w) → bs ≠ [] → Buf.wf i → Buf.readable i = Buf.readable (in_ c) ++ bs →
  wp (processInput this;; flushOutput this) (put_in this i c w k')
    (λ _ w', ∃ c', handled this w w' c c' ∧ read_outcome w w' c c').
Proof.
  intros HI Hc Hst Hrc Hb Hbs Hi Hr. pose proof (put_in_inv _ _ _ _ _ _ HI Hc Hrc Hb Hi Hr) as HI1.
  pose proof Hrc as (_ & _ & _ & Hoth & Hio & Hl). pose proof (put_in_keeps this i c w k' Hl) as Hk1.
  assert (heap (put_in this i c w k') !! this = Some (with_in i c)) as Hc1 by (cbn; by rewrite lookup_insert_eq).
  apply wp_bind. eapply wp_mono; [by apply (processInput_spec this _ _ HI1 Hc1)|].
  intros _ w2 (c2 & HI2 & Hk2 & Hc2 & Hfd2 & Hst2 & Hs2 & Hp). cbn [kern put_in] in Hs2. cbn [with_in fd_] in Hfd2.
  eapply wp_mono; [by apply (flushOutput_spec this _ _ HI2 Hc2)|]. intros _ w' (c' & HF & Hset & Hst').
  exists c'. split.
  { eapply flushed_handled; [by eapply keeps_trans|exact Hfd2|intros fd Hfd; rewrite Hs2; by apply Hoth|exact HF|done]. }
  assert (outgoing w2 c2 = k_sent (kern w) (fd_ c) ++ Buf.readable (out_ c2)) as Hout
    by (unfold outgoing; by rewrite Hs2, Hfd2, Hio).
  assert (heard w' c' = heard w c ++ bs) as Hh by (rewrite (fl_heard _ _ _ _ _ HF); unfold heard; by rewrite Hs2, Hfd2, Hio).
  cbn [with_in state_ out_ in_ put_in server] in Hp. destruct (state_eqb (state_ c) kOpen) eqn:Eo.
  - destruct Hp as (now & o & (_ & Hnow & Hpast & _ & _ & _ & _ & Hcn & _) & Hd & Ho). cbn in Hcn.
    apply (read_requests _ _ _ _ bs now o (state_ c2)); try done.
    + by destruct (state_ c).
    + by rewrite (proj2 (fl_quiet _ _ _ _ _ HF)).
    + by rewrite (proj1 (fl_quiet _ _ _ _ _ HF)), (fl_in _ _ _ _ _ HF), <-Hr.
    + rewrite (fl_outgoing _ _ _ _ _ HF), Hout, Ho. unfold outgoing. by rewrite app_assoc.
  - destruct Hp as [-> Hsto]. assert (state_ c = kClosing) as Hcl by (by destruct (state_ c)).
    apply (read_ignored _ _ _ _ bs); [done|by rewrite (fl_in _ _ _ _ _ HF)|by apply (quiet_trans _ w2); [|apply HF]|done| |].
    + by rewrite (fl_outgoing _ _ _ _ _ HF), Hout.
    + cbn in Hst'. by rewrite Hcl in Hst'.
Qed.

Lemma closed_handled this w w1 c c1 :
  inv w → heap w1 !! this = Some c1 → keeps this w w1 → fd_ c1 = fd_ c → out_ c1 = out_ c → inv w1 →
  server w1 = server w → (∀ fd, k_io (kern w1) fd = k_io (kern w) fd) → state_ c1 ≠ kClosed →
  wp (markClosed this) w1 (λ _ w', ∃ c', handled this w w' c c' ∧ read_outcome w w' c c').
Proof.
  intros HI Hc1 Hk Hfd Ho HI1 Hsv Hs Hst. eapply wp_mono; [by apply (markClosed_spec _ _ c1 HI1)|].
  intros _ w' [-> HI']. exists (with_state kClosed c1). split.
  - apply (flushed_handled this w w1 _ c c1); [done|done|by intros ? _|by apply flushed_closed|by intros []].
  - apply read_closed; [split; cbn; by rewrite Hsv|unfold heard; cbn; by rewrite Hs, Hfd| |done].
    unfold outgoing. cbn. by rewrite Hs, Hfd, Ho.
Qed.

Lemma onReadable_spec this w c :
  inv w → heap w !! this = Some c → settled c →
  wp (onReadable this) w (λ _ w', ∃ c', handled this w w' c c' ∧ read_outcome w w' c c').
Proof.
  intros HI Hc Hset. unfold onReadable. apply wp_bind, (wp_get_conn _ _ c); [done|].
  destruct (closed c) eqn:Ecl.
  { apply wp_ret. exists c. split; [by apply handled_refl|by apply read_nothing]. }
  assert (state_ c ≠ kClosed) as Hst by (unfold closed in Ecl; by destruct (state_ c)).
  pose proof (in_conns _ HI _ _ Hc) as Hok. pose proof (co_room_in _ _ Hok) as Hroom. pose proof (bytes_range (kern w)).
  apply wp_bind, wp_lift. eapply returns_mono;
    [apply (Buf.ensureWritable_spec Buf.kDefaultCapacity (in_ c)); [apply Hok|done|]|].
  { unfold Buf.kDefaultCapacity, Buf.kMaxContent. lia. }
  intros i (Hwi & Hri & _). apply wp_bind, (wp_upd_conn _ _ _ c); [done|].
  apply wp_bind, wp_syscall. cbn [kern heap server]. intros r k' Hk. pose proof (read_law _ _ _ _ _ Hk) as Hlaw.
  fold (put_in this i c w k').
  assert (heap (put_in this i c w k') !! this = Some (with_in i c)) as Hc1 by (cbn; by rewrite lookup_insert_eq).
  assert (receives (fd_ c) [] (kern w) k' → inv (put_in this i c w k') ∧
    wp (markClosed this) (put_in this i c w k') (λ _ w', ∃ c', handled this w w' c c' ∧ read_outcome w w' c c')) as Hnone.
  { intros Hrc. pose proof Hrc as (_ & _ & _ & _ & _ & Hl). pose proof (receives_nil _ _ _ Hrc) as Hs.
    assert (inv (put_in this i c w k')) as HI1.
    { apply (put_in_inv _ _ _ _ _ [] HI Hc Hrc); [destruct Hl as (_ & _ & ?); cbn; lia|done|by rewrite app_nil_r]. }
    split; [done|]. apply (closed_handled this w _ c (with_in i c)); try done. by apply put_in_keeps. }
  destruct r as [[|b bs]|e]; [by apply Hnone, Hlaw| |].
  - destruct Hlaw as (Hrc & Hlen & Hbytes). apply wp_bind, wp_lift.
    pose proof (Buf.fill_commit_spec (b :: bs) i Hwi Hlen) as Hfc.
    apply returns_inv in Hfc as (i2 & E & Hwi2 & Hri2). apply rbind_Ok in E as (i1 & -> & E2). cbn [returns].
    apply wp_bind, wp_lift. rewrite E2. cbn [returns].
    apply wp_bind, (wp_upd_conn _ _ _ (with_in i c)); [done|]. cbn [kern heap server put_in]. rewrite insert_insert_eq.
    apply (read_data this w c i2 k' (b :: bs)); try done. by rewrite Hri2, Hri.
  - pose proof (idle_receives (fd_ c) _ _ Hlaw) as Hrc. destruct (Hnone Hrc) as [HI1 Hclose].
    destruct (bool_decide (e = EAGAIN) || bool_decide (e = EWOULDBLOCK) || bool_decide (e = EINTR)); [|exact Hclose].
    pose proof Hlaw as (_ & _ & _ & Hs & Hl). apply wp_ret. exists (with_in i c). split.
    + split; [done|]. split; [by apply put_in_keeps|]. split; [done|]. split; [exact Hset|]. split; [done|]. intros fd _. apply Hs.
    + apply read_nothing; [done|unfold heard; cbn; by rewrite Hs| |exact Hri|done]. unfold outgoing. cbn. by rewrite Hs.
Qed.

Lemma onWritable_spec this w c :
  inv w → heap w !! this = Some c → settled c →
  wp (onWritable this) w (λ _ w', ∃ c', handled this w w' c c' ∧ quiet w w' ∧
    in_ c' = in_ c ∧ heard w' c' = heard w c ∧ outgoing w' c' = outgoing w c ∧ (state_ c' = state_ c ∨ state_ c' = kClosed)).
Proof.
  intros HI Hc Hset. unfold onWritable. apply wp_bind, (wp_get_conn _ _ c); [done|].
  destruct (closed c) eqn:Ecl.
  { apply wp_ret. exists c. split; [by apply handled_refl|]. split; [done|]. by eauto. }
  assert (state_ c ≠ kClosed) as Hst by (unfold closed in Ecl; by destruct (state_ c)).
  eapply wp_mono; [by apply (flushOutput_spec this w c)|]. intros _ w' (c' & HF & Hs & Hst'). exists c'.
  split; [|split; [apply HF|split; [apply HF|split; [apply HF|split; [apply HF|done]]]]].
  apply (flushed_handled this w w w' c c); [by apply keeps_refl; eexists|done|done|done|done].
Qed.

End facts.
End ConnFacts.
