(* ===== verification/NetSpec.v ===== *)
(** * What the server promises its clients

    An abstract server: a store, the time, and for each client all the bytes read
    from it, those of them that are not yet a request, all the bytes sent back to
    it, and whether it is still heard.  Sockets, buffers, epoll and the order of events are gone;
    the running server takes steps of this one. *)

From Stdlib Require Import ZArith Lia Strings.Byte.
From stdpp Require Import base gmap numbers list relations.
From S2P Require Import Prelude Buffer Resp RespSpec RespFacts Entry Table Store StoreSpec Command CommandSpec CommandProps.
From S2P Require Import Kernel World Stream Connection Server NetInv ConnFacts.

Local Open Scope Z_scope.

Record Client := mkClient { input : bytes; unread : bytes; replies : bytes; phase : ConnectionState }.

Record Net (P : Type) := mkNet { n_now : Z; n_store : Sto.Store P; n_clients : gmap addr Client }.
Arguments mkNet {P} _ _ _.
Arguments n_now {P} _.
Arguments n_store {P} _.
Arguments n_clients {P} _.

(** Input nobody will read is dropped. *)
Definition client_of (input unread replies : bytes) (st : ConnectionState) : Client :=
  mkClient input (if state_eqb st kOpen then unread else []) replies st.

Section spec.
Context {P : Type} `{!PoolAllocator P}.

Inductive nstep : Net P → Net P → Prop :=
| nstep_connect t s m a :
    m !! a = None → nstep (mkNet t s m) (mkNet t s (<[a := client_of [] [] [] kOpen]> m))
(* more bytes from [a]: the requests they complete are answered, at time [now] *)
| nstep_request t s m a c bs now o s' rest st st' :
    m !! a = Some c → phase c = kOpen → bs ≠ [] → t ≤ now → 500 ≤ now ≤ INT64_MAX →
    Stream.drains now s (unread c ++ bs) o s' rest st → st' = st ∨ st' = kClosed →
    nstep (mkNet t s m) (mkNet now s' (<[a := client_of (input c ++ bs) rest (replies c ++ o) st']> m))
(* bytes from a client that is no longer heard *)
| nstep_ignore t s m a c bs :
    m !! a = Some c → phase c ≠ kOpen →
    nstep (mkNet t s m) (mkNet t s (<[a := client_of (input c ++ bs) [] (replies c) (phase c)]> m))
| nstep_hangup t s m a c :
    m !! a = Some c → nstep (mkNet t s m) (mkNet t s (<[a := client_of (input c) [] (replies c) kClosed]> m))
| nstep_forget t s m a c :
    m !! a = Some c → phase c = kClosed → nstep (mkNet t s m) (mkNet t s (delete a m))
(* time is read, and perhaps some expired keys are collected *)
| nstep_clock t s m now : t ≤ now → nstep (mkNet t s m) (mkNet now s m)
| nstep_expire t s m limit n s' :
    500 ≤ t ≤ INT64_MAX → 1 ≤ limit ≤ 2 ^ 58 → Sto.activeExpireCycle t limit s = Ok (n, s') → nstep (mkNet t s m) (mkNet t s' m).

Context {K : Type} `{!Kernel K}.
Implicit Types (w : World K P) (c : Connection).

Definition view_client w c : Client :=
  client_of (ConnFacts.heard w c) (Buf.readable (in_ c)) (ConnFacts.outgoing w c) (state_ c).

(** The abstract server a state of the program stands for. *)
Definition view w : Net P :=
  mkNet (cachedNow_ (server w)) (store_ (server w)) (view_client w <$> heap w).

Lemma view_client_same w w' c :
  k_io (kern w') (fd_ c) = k_io (kern w) (fd_ c) → view_client w' c = view_client w c.
Proof. intros H. unfold view_client, ConnFacts.heard, ConnFacts.outgoing. by rewrite H. Qed.

(** Nothing clients can see has changed. *)
Lemma view_same w w' :
  heap w' = heap w → ConnFacts.quiet w w' →
  (∀ a c, heap w !! a = Some c → k_io (kern w') (fd_ c) = k_io (kern w) (fd_ c)) → view w' = view w.
Proof.
  intros Hh [Hs Hn] Hk. unfold view. rewrite Hh, Hs, Hn. f_equal. apply map_fmap_ext. intros a c Hc.
  by eapply view_client_same, Hk.
Qed.

(** Only one client is concerned. *)
Lemma view_update this w w' c c' :
  inv w → heap w !! this = Some c → ConnFacts.handled this w w' c c' →
  n_clients (view w') = <[this := view_client w' c']> (n_clients (view w)).
Proof.
  intros HI Hc (_ & (Hk & _) & Hc' & _ & _ & Hs). cbn. apply map_eq. intros a. destruct (decide (this = a)) as [<-|Hne].
  - by rewrite lookup_insert_eq, lookup_fmap, Hc'.
  - rewrite lookup_insert_ne, !lookup_fmap, Hk by done. destruct (heap w !! a) as [x|] eqn:Hx; [|done]. cbn.
    rewrite (view_client_same w); [done|]. apply Hs. intros E.
    by apply Hne, (fo_inj _ _ _ (in_fds _ HI) _ _ _ _ Hc Hx).
Qed.

Lemma view_split w : view w = mkNet (cachedNow_ (server w)) (store_ (server w)) (n_clients (view w)).
Proof. done. Qed.

Lemma view_lookup w this c : heap w !! this = Some c → n_clients (view w) !! this = Some (view_client w c).
Proof. intros Hc. cbn. by rewrite lookup_fmap, Hc. Qed.

(** A connection that is at most closed. *)
Lemma view_quiet this w w' c c' :
  inv w → heap w !! this = Some c → ConnFacts.handled this w w' c c' → ConnFacts.quiet w w' →
  ConnFacts.heard w' c' = ConnFacts.heard w c → ConnFacts.outgoing w' c' = ConnFacts.outgoing w c →
  (state_ c' = state_ c ∧ (state_ c = kOpen → Buf.readable (in_ c') = Buf.readable (in_ c))) ∨ state_ c' = kClosed →
  rtc nstep (view w) (view w').
Proof.
  intros HI Hc HH [Hs Hn] Hh Ho Hst. rewrite (view_split w'), (view_update _ _ _ _ _ HI Hc HH), Hs, Hn.
  pose proof (view_lookup _ _ _ Hc) as Hv. destruct Hst as [[Hst Hin]|Hst].
  - assert (view_client w' c' = view_client w c) as ->.
    { unfold view_client, client_of. rewrite Hh, Ho, Hst. destruct (state_ c); cbn; [|done|done]. by rewrite Hin. }
    by rewrite insert_id.
  - apply rtc_once.
    assert (view_client w' c' = client_of (input (view_client w c)) [] (replies (view_client w c)) kClosed) as ->
      by (unfold view_client, client_of; by rewrite Hst, Hh, Ho).
    by apply nstep_hangup.
Qed.

(** A connection that is closing, and is sent more. *)
Lemma view_ignored this w w' c c' bs :
  inv w → heap w !! this = Some c → ConnFacts.handled this w w' c c' → ConnFacts.quiet w w' → state_ c = kClosing →
  ConnFacts.heard w' c' = ConnFacts.heard w c ++ bs → ConnFacts.outgoing w' c' = ConnFacts.outgoing w c →
  state_ c' = kClosing ∨ state_ c' = kClosed → rtc nstep (view w) (view w').
Proof.
  intros HI Hc HH [Hs Hn] Hcl Hh Ho Hst. rewrite (view_split w'), (view_update _ _ _ _ _ HI Hc HH), Hs, Hn.
  set (x := client_of (input (view_client w c) ++ bs) [] (replies (view_client w c)) (phase (view_client w c))).
  apply rtc_l with (mkNet (cachedNow_ (server w)) (store_ (server w)) (<[this := x]> (n_clients (view w)))).
  { apply nstep_ignore; [by apply view_lookup|]. cbn. by rewrite Hcl. }
  destruct Hst as [Hst|Hst].
  - assert (view_client w' c' = x) as ->; [|apply rtc_refl].
    subst x. unfold view_client, client_of. cbn. by rewrite Hst, Hh, Ho, Hcl.
  - apply rtc_once. assert (view_client w' c' = client_of (input x) [] (replies x) kClosed) as ->
      by (subst x; unfold view_client, client_of; cbn; by rewrite Hst, Hh, Ho).
    rewrite <-(insert_insert_eq (n_clients (view w)) this (client_of _ _ _ kClosed) x). apply nstep_hangup. by rewrite lookup_insert_eq.
Qed.

Lemma view_read this w w' c c' :
  inv w → heap w !! this = Some c → ConnFacts.handled this w w' c c' → ConnFacts.read_outcome w w' c c' →
  rtc nstep (view w) (view w').
Proof.
  intros HI Hc HH HR.
  destruct HR as [Hq Hh Ho Hin Hst|Hq Hh Ho Hst|bs Hcl Hin Hq Hh Ho Hst|bs now o st Hop Hne Hnow Hle Hn Hd Hh Ho Hst].
  - eapply view_quiet; [done..|]. by left.
  - eapply view_quiet; [done..|]. by right.
  - by eapply view_ignored.
  - apply rtc_once. rewrite (view_split w'), (view_update _ _ _ _ _ HI Hc HH), Hn.
    unfold view_client at 1. rewrite Hh, Ho.
    eapply (nstep_request _ _ _ this (view_client w c)); [by apply view_lookup|done|exact Hne|done|done| |exact Hst].
    unfold view_client, client_of. by rewrite Hop.
Qed.

(** ** What a client of the abstract server gets *)

Lemma expire_cycle_safe (st : Sto.Store P) now limit :
  CmdProps.sound_store st → 500 ≤ now ≤ INT64_MAX → 1 ≤ limit ≤ 2 ^ 58 →
  returns (Sto.activeExpireCycle now limit st) (λ '(n, st'),
    CmdProps.sound_store st' ∧ Sto.activeExpireCycle now limit st = Ok (n, st')).
Proof.
  intros HS Hnow Hl. assert (sop_ok now (STick limit)) as Hop by (split; [lia|done]).
  pose proof (CmdProps.store_op_safe st now (STick limit) HS Hop Logic.I) as H. cbn in H.
  destruct (Sto.activeExpireCycle now limit st) as [[n st']|]; [|done]. split; [apply H|done].
Qed.

(** What was read from an open client is requests, each with its reply, and a
    beginning of the next one. *)
Definition client_ok (c : Client) : Prop :=
  phase c = kOpen → ∃ reqs, Stream.cuts (input c) reqs (unread c) ∧ ConnFacts.replies_to (P:=P) reqs (replies c).

Definition net_ok (n : Net P) : Prop :=
  CmdProps.sound_store (n_store n) ∧ map_Forall (λ _, client_ok) (n_clients n).

Lemma client_ok_request (c : Client) now (s s' : Sto.Store P) bs o rest st :
  client_ok c → phase c = kOpen → CmdProps.sound_store s → 500 ≤ now ≤ INT64_MAX →
  Stream.drains now s (unread c ++ bs) o s' rest st →
  CmdProps.sound_store s' ∧ (st = kOpen → client_ok (client_of (input c ++ bs) rest (replies c ++ o) kOpen)).
Proof.
  intros Hc Hop HS Hnow Hd. destruct (ConnFacts.drains_replies _ _ _ _ _ _ _ HS Hnow Hd) as [HS' Hst].
  split; [done|]. intros Ho _. destruct (Hst Ho) as (reqs' & Hc' & Hr'), (Hc Hop) as (reqs & Hcut & Hr).
  exists (reqs ++ reqs'). split; [by eapply Stream.cuts_app|by apply ConnFacts.replies_to_app].
Qed.

Lemma nstep_ok n n' : net_ok n → nstep n n' → net_ok n'.
Proof.
  intros [HS HC] H. destruct H as [t s m a Ha|t s m a c bs now o s' rest st st' Ha Hop Hne Ht Hnow Hd Hst|
    t s m a c bs Ha Hcl|t s m a c Ha|t s m a c Ha Hcl|t s m now Ht|t s m limit n s' Ht Hlim Hrun]; cbn in *.
  - split; [done|]. apply map_Forall_insert_2; [|done]. intros _. exists []. split; [by constructor|].
    exists []. split; [constructor|done].
  - destruct (client_ok_request _ _ _ _ _ _ _ _ (HC _ _ Ha) Hop HS Hnow Hd) as [HS' Hc]. split; [done|].
    apply map_Forall_insert_2; [|done]. intros Hop'. cbn in Hop'. subst st'. apply Hc; [|done].
    by destruct Hst as [<-|?].
  - split; [done|]. apply map_Forall_insert_2; [|done]. intros Hop. done.
  - split; [done|]. apply map_Forall_insert_2; [|done]. intros Hop. done.
  - split; [done|]. by apply map_Forall_delete.
  - by split.
  - split; [|done]. pose proof (expire_cycle_safe s t limit HS Ht Hlim) as H. by rewrite Hrun in H; destruct H.
Qed.

Lemma nsteps_ok n n' : rtc nstep n n' → net_ok n → net_ok n'.
Proof. induction 1 as [|x y z H _ IH]; [done|]. intros HN. by eapply IH, nstep_ok. Qed.

End spec.
