(* ===== verification/NetIdeal.v ===== *)
(** * The server as one ideal map

    The abstract server still answers from the real store.  Here its clients'
    requests, in the one order they are served in, are answered by an ideal map
    with deadlines: what every client is sent is what that map replies to it. *)

From Stdlib Require Import ZArith Lia Strings.Byte.
From stdpp Require Import base gmap numbers list relations.
From S2P Require Import Prelude Buffer Resp RespSpec RespFacts RespWire RespProps Entry Table Store StoreInv StoreOps StoreSpec StoreProps.
From S2P Require Import Command CommandSpec CommandProps Kernel World Stream Connection Server NetInv ConnFacts NetSpec.

Local Open Scope Z_scope.

Module NetIdeal.
Import Sto StoInv StoSpec StoProps CmdSpec CmdProps Stream ConnFacts.

(** ** Traces *)

(** What a client asked, nothing if it broke the protocol, and what it was told. *)
Definition item : Type := option (list bytes) * Reply.

Inductive nevent :=
| NConnect (a : addr)
| NReply (now : Z) (a : addr) (i : item).

(** The exchanges with the client that is at [a] now. *)
Definition note (a : addr) (l : list item) (e : nevent) : list item :=
  match e with
  | NConnect b => if decide (b = a) then [] else l
  | NReply _ b i => if decide (b = a) then l ++ [i] else l
  end.

Definition own (a : addr) (tr : list nevent) : list item := foldl (note a) [] tr.

(** The keys the requests of a trace store values under. *)
Definition nevent_keys (e : nevent) : gset bytes :=
  match e with
  | NReply now _ (Some args, _) => event_keys (now, Request args)
  | _ => ∅
  end.

Definition net_keys (tr : list nevent) : gset bytes := ⋃ (nevent_keys <$> tr).

(** The traces of a map that starts empty and answers by [ans]: where it is after
    one, and a time no event is later than. *)
Section trace.
Context (ans : Z → list bytes → ideal → Reply → ideal → Prop).

Inductive ideal_trace : list nevent → Z → ideal → Prop :=
| ideal_start t : ideal_trace [] t ∅
| ideal_wait tr t t' J : ideal_trace tr t J → t ≤ t' → ideal_trace tr t' J
| ideal_connect tr t a J : ideal_trace tr t J → ideal_trace (tr ++ [NConnect a]) t J
| ideal_reply tr t a args J r J' :
    ideal_trace tr t J → ans t args J r J' → ideal_trace (tr ++ [NReply t a (Some args, r)]) t J'
| ideal_refuse tr t a e J :
    ideal_trace tr t J → ideal_trace (tr ++ [NReply t a (None, Err (errorToString e))]) t J.

End trace.

Lemma own_app a tr tr' : own a (tr ++ tr') = foldl (note a) (own a tr) tr'.
Proof. apply foldl_app. Qed.

Lemma own_replies now a b xs tr :
  own a (tr ++ (NReply now b <$> xs)) = if decide (b = a) then own a tr ++ xs else own a tr.
Proof.
  rewrite own_app. generalize (own a tr). induction xs as [|i xs IH]; intros l; [by destruct (decide _); rewrite ?app_nil_r|].
  cbn. rewrite IH. destruct (decide (b = a)); [|done]. by rewrite <-app_assoc.
Qed.

Lemma own_connect a b tr : own a (tr ++ [NConnect b]) = if decide (b = a) then [] else own a tr.
Proof. by rewrite own_app. Qed.

(** ** The requests taken off a stream *)

(** The first requests of [i], and what comes after them. *)
Inductive takes : bytes → list (list bytes) → bytes → Prop :=
| takes_none i : takes i [] i
| takes_next i args n reqs rest :
    command_p i = Done args n → takes (drop (Z.to_nat n) i) reqs rest → takes i (args :: reqs) rest.

Lemma takes_more i b reqs rest : takes i reqs rest → takes (i ++ b) reqs (rest ++ b).
Proof.
  induction 1 as [i|i args n reqs rest E _ IH]; [constructor|]. pose proof (inc_len _ _ _ E).
  eapply takes_next; [by apply inc_ext|]. by rewrite drop_app_Z.
Qed.

Lemma takes_trans i reqs j reqs' rest : takes i reqs j → takes j reqs' rest → takes i (reqs ++ reqs') rest.
Proof. induction 1 as [|i args n reqs j E _ IH]; [done|]. intros H. cbn. eapply takes_next; [done|by apply IH]. Qed.

Lemma takes_cuts i reqs rest : takes i reqs rest → command_p rest = More → cuts i reqs rest.
Proof. induction 1 as [|i args n reqs rest E _ IH]; intros H; [by constructor|]. eapply cuts_next; [done|by apply IH]. Qed.

(** ** One request *)

Section ideal.
Context {P : Type} `{!PoolAllocator P}.
Implicit Types (s : Store P) (n : Net P).

(** The requests of a trace are [ok]. *)
Definition all_ok (ok : Z → list bytes → Prop) (tr : list nevent) : Prop :=
  Forall (λ e, match e with NReply now _ (Some args, _) => ok now args | _ => True end) tr.

(** What the client at [a] is told while the server is at [now]. *)
Definition extends now a (xs : list item) s s' : Prop :=
  ∀ ans Q ok, answers_for ans Q ok → ∀ tr J, ideal_trace ans tr now J → Q now s J → all_ok ok (NReply now a <$> xs) →
    ∃ J', ideal_trace ans (tr ++ (NReply now a <$> xs)) now J' ∧ Q now s' J'.

Lemma extends_nil now a s : extends now a [] s s.
Proof. intros ans Q ok HQ tr J HT HS _. exists J. by rewrite app_nil_r. Qed.

Lemma extends_refuse now a e s : extends now a [(None, Err (errorToString e))] s s.
Proof. intros ans Q ok HQ tr J HT HS _. exists J. split; [by apply ideal_refuse|done]. Qed.

Lemma extends_app now a xs xs' s s1 s' :
  extends now a xs s s1 → extends now a xs' s1 s' → extends now a (xs ++ xs') s s'.
Proof.
  intros H H' ans Q ok HQ tr J HT HS HK. rewrite fmap_app in HK. apply Forall_app in HK as [HK HK'].
  destruct (H ans Q ok HQ tr J HT HS HK) as (J1 & HT1 & HS1).
  destruct (H' ans Q ok HQ _ J1 HT1 HS1 HK') as (J2 & HT2 & HS2). exists J2. by rewrite fmap_app, app_assoc.
Qed.

Lemma error_plain e : wf_reply (Err (errorToString e)).
Proof. destruct e; apply (bool_decide_unpack _); vm_compute; done. Qed.

(** One request: its exchange, unless it is empty. *)
Lemma request_items now a s s' args o d :
  answers now s args o s' d → sound_store s → request_ok args → 500 ≤ now ≤ INT64_MAX →
  ∃ xs : list item, filter is_request [args] = omap fst xs ∧ Forall (λ i, is_Some i.1 ∧ wf_reply i.2) xs ∧
    o = mjoin (encode_reply ∘ snd <$> xs) ∧ sound_store s' ∧ extends now a xs s s'.
Proof.
  intros Ha HS Hargs Hnow. unfold answers in Ha. case_bool_decide as Hne.
  - subst args. destruct Ha as (-> & -> & _). exists []. split; [by rewrite filter_cons_False by (intros []; done)|].
    split; [done|]. split; [done|]. split; [done|apply extends_nil].
  - destruct Ha as (rs & r & Hrun & Hans & -> & _).
    destruct (good_request now Hnow _ args Hargs (size_int64 _ HS)) as (Hops & Hsm & Hgood).
    pose proof (store_ops_safe s now _ HS Hops Hsm) as Hsafe. rewrite Hrun in Hsafe. destruct Hsafe as (Hsh & HS' & _).
    destruct (Hgood rs Hsh) as (r' & Hr' & Hwf & _). assert (r' = r) as -> by congruence.
    exists [(Some args, r)]. split; [by rewrite filter_cons_True|]. split; [by repeat constructor|].
    split; [cbn; by rewrite app_nil_r|]. split; [done|]. intros ans Q ok HQ tr J HT HJ HK. apply Forall_cons in HK as [HK _].
    destruct (af_answer _ _ _ HQ _ _ _ _ _ _ _ HJ HS Hargs Hne Hnow HK Hrun Hans) as (J' & Hr & HJ').
    exists J'. split; [by apply ideal_reply with J|done].
Qed.

(** All that one read lets a client ask. *)
Lemma drains_items now a s s' i o rest st :
  drains now s i o s' rest st → sound_store s → 500 ≤ now ≤ INT64_MAX →
  ∃ (xs : list item) reqs, takes i reqs rest ∧ filter is_request reqs = omap fst xs ∧
    o = mjoin (encode_reply ∘ snd <$> xs) ∧ Forall (λ i, wf_reply i.2) xs ∧
    (st = kOpen → command_p rest = More ∧ Forall (λ i, is_Some i.1) xs) ∧ extends now a xs s s'.
Proof.
  intros H HS Hnow. induction H as [s i E|s i e E|s i args n o s' E Ha|s i args n o s1 o' s' rest st E Ha Hd IH].
  - exists [], []. split; [constructor|]. do 4 (split; [done|]). apply extends_nil.
  - exists [(None, Err (errorToString e))], []. split; [constructor|]. split; [done|]. split; [cbn; by rewrite app_nil_r|].
    split; [apply Forall_singleton, error_plain|]. split; [done|]. apply extends_refuse.
  - destruct (request_items now a _ _ _ _ _ Ha HS (command_p_ok _ _ _ E) Hnow) as (xs & H1 & H2 & H3 & _ & H6).
    exists xs, [args]. split; [eapply takes_next; [done|constructor]|]. split; [done|]. split; [done|].
    split; [eapply Forall_impl; [done|]; by intros ? []|]. by split.
  - destruct (request_items now a _ _ _ _ _ Ha HS (command_p_ok _ _ _ E) Hnow) as (xs & H1 & H2 & -> & HS1 & Hx).
    destruct (IH HS1) as (xs' & reqs & G1 & G2 & -> & G4 & G5 & Gx). exists (xs ++ xs'), (args :: reqs).
    split; [by eapply takes_next|].
    split; [change (args :: reqs) with ([args] ++ reqs); by rewrite filter_app, H1, G2, omap_app|].
    split; [by rewrite fmap_app, join_app|].
    split; [apply Forall_app; split; [eapply Forall_impl; [done|]; by intros ? []|done]|].
    split; [|by eapply extends_app].
    intros Hst. destruct (G5 Hst) as [? ?]. split; [done|]. apply Forall_app. split; [|done].
    eapply Forall_impl; [done|]. by intros ? [].
Qed.

(** ** Every client *)

(** What a client sent and was sent back are its exchanges; an open one has sent
    the beginning of one more request, at most. *)
Definition client_ideal (tr : list nevent) (a : addr) (c : Client) : Prop :=
  ∃ reqs rest, takes (input c) reqs rest ∧ filter is_request reqs = omap fst (own a tr) ∧
    replies c = mjoin (encode_reply ∘ snd <$> own a tr) ∧ Forall (λ i, wf_reply i.2) (own a tr) ∧
    (phase c = kOpen → rest = unread c ∧ command_p rest = More ∧ Forall (λ i, is_Some i.1) (own a tr)).

(** Every map that answers for the store the server began with, [s0]. *)
Record net_ideal s0 (tr : list nevent) n : Prop := {
  ni_sound : sound_store (n_store n);
  ni_clients : map_Forall (client_ideal tr) (n_clients n);
  ni_store ans Q ok : answers_for ans Q ok → Q 0 s0 ∅ → all_ok ok tr →
    ∃ J, ideal_trace ans tr (n_now n) J ∧ Q (n_now n) (n_store n) J;
}.

Lemma client_ideal_frame tr tr' a c : own a tr' = own a tr → client_ideal tr a c → client_ideal tr' a c.
Proof. intros E. unfold client_ideal. by rewrite E. Qed.

Lemma client_ideal_closed tr a c bs st :
  client_ideal tr a c → st ≠ kOpen → client_ideal tr a (client_of (input c ++ bs) [] (replies c) st).
Proof.
  intros (reqs & rest & H1 & H2 & H3 & H4 & _) Hst. exists reqs, (rest ++ bs). split; [by apply takes_more|].
  split; [done|]. split; [done|]. by split.
Qed.

Lemma ideal_connected s0 t s (m : gmap addr Client) tr a :
  net_ideal s0 tr (mkNet t s m) → m !! a = None →
  net_ideal s0 (tr ++ [NConnect a]) (mkNet t s (<[a := client_of [] [] [] kOpen]> m)).
Proof.
  intros [N1 N3 N4] Ha. split; [done| |]; cbn in *.
  - apply map_Forall_insert_2.
    + exists [], []. rewrite own_connect, decide_True by done. split; [constructor|]. by repeat split.
    + intros b c Hb. eapply client_ideal_frame, N3, Hb. rewrite own_connect, decide_False; [done|]. intros ->. congruence.
  - intros ans Q ok HQ H0 HK. apply Forall_app in HK as [HK _]. destruct (N4 ans Q ok HQ H0 HK) as (J & HT & HS).
    exists J. split; [by apply ideal_connect|done].
Qed.

Lemma ideal_requested s0 t s (m : gmap addr Client) tr a c bs now o s' rest st st' :
  net_ideal s0 tr (mkNet t s m) → m !! a = Some c → phase c = kOpen → t ≤ now → 500 ≤ now ≤ INT64_MAX →
  drains now s (unread c ++ bs) o s' rest st → st' = st ∨ st' = kClosed →
  ∃ tr', net_ideal s0 tr' (mkNet now s' (<[a := client_of (input c ++ bs) rest (replies c ++ o) st']> m)).
Proof.
  intros [N1 N3 N4] Ha Hop Ht Hnow Hd Hst. cbn in *.
  destruct (drains_items now a _ _ _ _ _ _ Hd N1 Hnow) as (xs & reqs' & G1 & G2 & -> & G4 & G5 & Gx).
  destruct (N3 a c Ha) as (reqs & rest0 & H1 & H2 & H3 & H4 & H5). destruct (H5 Hop) as (-> & _ & H6).
  exists (tr ++ (NReply now a <$> xs)). split; cbn.
  - by eapply drains_replies.
  - intros b x [[<- <-]|[Hne Hb]]%lookup_insert_Some.
    + exists (reqs ++ reqs'), rest. rewrite own_replies, decide_True by done.
      split; [eapply takes_trans; [by apply takes_more|done]|]. split; [by rewrite filter_app, H2, G2, omap_app|].
      split; [cbn; by rewrite H3, fmap_app, join_app|]. split; [by apply Forall_app|]. cbn. intros ->. cbn.
      assert (st = kOpen) as Hst' by (by destruct Hst as [<-|]). destruct (G5 Hst') as [? ?].
      split; [done|]. split; [done|]. by apply Forall_app.
    + eapply client_ideal_frame, N3, Hb. by rewrite own_replies, decide_False.
  - intros ans Q ok HQ H0 HK. apply Forall_app in HK as [HK HK'].
    destruct (N4 ans Q ok HQ H0 HK) as (J & HT & HS). apply (Gx ans Q ok HQ tr J); [by eapply ideal_wait| |done].
    by eapply (af_later _ _ _ HQ).
Qed.

Lemma ideal_changed s0 tr t s (m : gmap addr Client) a c :
  net_ideal s0 tr (mkNet t s m) → client_ideal tr a c → net_ideal s0 tr (mkNet t s (<[a := c]> m)).
Proof. intros [N1 N3 N4] Hc. split; [done|by apply map_Forall_insert_2|done]. Qed.

Lemma ideal_expired s0 tr t s (m : gmap addr Client) limit r s' :
  net_ideal s0 tr (mkNet t s m) → 500 ≤ t ≤ INT64_MAX → 1 ≤ limit ≤ 2 ^ 58 →
  activeExpireCycle t limit s = Ok (r, s') → net_ideal s0 tr (mkNet t s' m).
Proof.
  intros [N1 N3 N4] Ht Hl Hrun. cbn in *. split; cbn; [|done|].
  - pose proof (expire_cycle_safe s t limit N1 Ht Hl) as H. rewrite Hrun in H. apply H.
  - intros ans Q ok HQ H0 HK. destruct (N4 ans Q ok HQ H0 HK) as (J & HT & HS). exists J. split; [done|].
    by eapply (af_tick _ _ _ HQ); [|lia| |].
Qed.

(** The abstract server, step by step, is the ideal one. *)
Lemma nstep_ideal s0 n n' tr : net_ideal s0 tr n → nstep n n' → ∃ tr', net_ideal s0 tr' n'.
Proof.
  intros HN H. destruct H as [t s m a Ha|t s m a c bs now o s' rest st st' Ha Hop Hne Ht Hnow Hd Hst|
    t s m a c bs Ha Hcl|t s m a c Ha|t s m a c Ha Hcl|t s m now Ht|t s m limit r s' Ht Hlim Hrun].
  - eexists. by apply ideal_connected.
  - by eapply ideal_requested.
  - exists tr. apply ideal_changed; [done|]. apply client_ideal_closed; [|done]. by apply (ni_clients _ _ _ HN).
  - exists tr. apply ideal_changed; [done|]. rewrite <-(app_nil_r (input c)).
    apply client_ideal_closed; [|done]. by apply (ni_clients _ _ _ HN).
  - exists tr. destruct HN as [N1 N3 N4]. split; [done|by apply map_Forall_delete|done].
  - exists tr. destruct HN as [N1 N3 N4]. split; [done..|]. intros ans Q ok HQ H0 HK.
    destruct (N4 ans Q ok HQ H0 HK) as (J & HT & HS). exists J. split; [by eapply ideal_wait|by eapply (af_later _ _ _ HQ)].
  - exists tr. by eapply ideal_expired.
Qed.

Lemma nsteps_ideal s0 n n' tr : rtc nstep n n' → net_ideal s0 tr n → ∃ tr', net_ideal s0 tr' n'.
Proof.
  intros H. revert tr. induction H as [|n n1 n' H _ IH]; intros tr HN; [by exists tr|].
  destruct (nstep_ideal _ _ _ _ HN H) as (tr1 & HN1). by eapply IH.
Qed.

Lemma keys_ok (D : gset bytes) tr : net_keys tr ⊆ D → all_ok (λ now args, event_keys (now, Request args) ⊆ D) tr.
Proof.
  induction tr as [|e tr IH]; intros HK; [constructor|].
  change (net_keys (e :: tr)) with (nevent_keys e ∪ net_keys tr) in HK. apply union_subseteq in HK as [HK HK'].
  apply Forall_cons. split; [by destruct e as [|? ? [[]]]|by apply IH].
Qed.

Lemma start_ideal s : sound_store s → net_ideal s [] (mkNet 0 s ∅).
Proof.
  intros HS. split; cbn; [done|apply map_Forall_empty|]. intros ans Q ok HQ H0 _. exists ∅. split; [constructor|done].
Qed.

End ideal.
End NetIdeal.
