(* ===== verification/AcceptFacts.v ===== *)
(** * What the acceptor does

    Accepting, shedding and pausing: each call returns, keeps the invariant and
    leaves every other connection alone, whatever the kernel answers. *)

From Stdlib Require Import ZArith Lia Strings.Byte.
From stdpp Require Import base gmap numbers list relations.
From S2P Require Import Prelude Buffer Resp Entry Table Store Command CommandSpec CommandProps.
From S2P Require Import Kernel World Stream Connection Server NetInv ConnFacts NetSpec.

Local Open Scope Z_scope.

Module AcceptFacts.
Import ConnFacts Srv.

Section facts.
Context {K P : Type} `{!Kernel K} `{!PoolAllocator P} `{!KernelLaws K}.
Implicit Types (w : World K P) (c : Connection).

(** ** Progress of the whole server *)

(** From one good state to another, by steps of the abstract server. *)
Record advances w w' : Prop := {
  ad_inv : inv w';
  ad_settled : all_settled w';
  ad_loop : loop_ (server w') = loop_ (server w);
  ad_later : later (kern w) (kern w');
  ad_view : rtc nstep (view w) (view w');
}.

(** No connection is freed meanwhile. *)
Definition live_on w w' : Prop := ∀ a, is_Some (heap w !! a) → is_Some (heap w' !! a).

(** Connections are only added, and the store is left alone. *)
Definition grows w w' : Prop := heap w ⊆ heap w' ∧ store_ (server w') = store_ (server w).

Lemma advances_refl w : inv w → all_settled w → advances w w.
Proof. intros HI HS. split; [done|done|done|apply later_refl|apply rtc_refl]. Qed.

Lemma advances_trans w1 w2 w3 : advances w1 w2 → advances w2 w3 → advances w1 w3.
Proof.
  intros [A1 A2 A3 A4 A5] [B1 B2 B3 B4 B5].
  split; [done|done|congruence|by eapply later_trans|by etrans].
Qed.

(** Of the server, only how it accepts changes. *)
Record shuffles w w' : Prop := {
  sh_inv : inv w';
  sh_heap : heap w' = heap w;
  sh_server : server w' = with_paused (acceptPaused_ (server w')) (with_reserve (reserveFd_ (server w')) (server w));
  sh_later : later (kern w) (kern w');
  sh_sent a c : heap w !! a = Some c → k_io (kern w') (fd_ c) = k_io (kern w) (fd_ c);
}.

Lemma shuffles_refl w : inv w → shuffles w w.
Proof. intros HI. split; [done|done|by destruct (server w)|apply later_refl|done]. Qed.

Lemma shuffles_trans w1 w2 w3 : shuffles w1 w2 → shuffles w2 w3 → shuffles w1 w3.
Proof.
  intros [A1 A2 A3 A4 A5] [B1 B2 B3 B4 B5]. split; [done|congruence| |by eapply later_trans|].
  - rewrite B3. by rewrite A3.
  - intros a c Hc. rewrite B5 with (a := a) by (by rewrite A2). by eapply A5.
Qed.

Lemma shuffles_advances w w' : all_settled w → shuffles w w' → advances w w'.
Proof.
  intros HS [A1 A2 A3 A4 A5]. split; [done| |by rewrite A3|done|].
  - intros a c. rewrite A2. apply HS.
  - rewrite (view_same w w'); [apply rtc_refl|done| |done]. split; by rewrite A3.
Qed.

(** A call that changes nothing the server owns. *)
Lemma shuffles_kern w k' :
  inv w → k_open k' = k_open (kern w) → acceptor_fd (server w) ∈ k_listening k' →
  k_interest k' = k_interest (kern w) → later (kern w) k' →
  (∀ a c, heap w !! a = Some c → k_io k' (fd_ c) = k_io (kern w) (fd_ c)) →
  shuffles w (mkWorld k' (heap w) (server w)).
Proof.
  intros [[F1 F2 F3 F4 F5 F6 F7] [E1 E2 E3] O C N L S] Ho Hl Hi Ht Hs. pose proof Ht as (_ & _ & Hb).
  split; cbn; [|done|by destruct (server w)|done|done]. split; cbn; [| |done| | |done|done].
  - split; try done. by rewrite Ho.
  - split; by rewrite Hi.
  - by eapply clock_ok_later.
  - intros a c Hc. eapply conn_ok_later; [exact Hb|apply bytes_range|by eapply N].
Qed.

Lemma shuffles_idle w k' : inv w → idle_step (kern w) k' → shuffles w (mkWorld k' (heap w) (server w)).
Proof.
  intros HI (Ho & Hl & Hi & Hs & Ht). apply shuffles_kern; try done. rewrite Hl. by apply (in_listening _ HI).
Qed.

(** ** Descriptors that come and go *)

Lemma conn_open w a c : inv w → heap w !! a = Some c → fd_ c ∈ k_open (kern w).
Proof. intros HI Hc. apply (fo_open _ _ _ (in_fds _ HI)). do 3 right. by exists a, c. Qed.

Lemma acceptor_open w : inv w → acceptor_fd (server w) ∈ k_open (kern w).
Proof. intros HI. apply (fo_open _ _ _ (in_fds _ HI)). right. by left. Qed.

Lemma interest_open w fd : inv w → fd ∉ k_open (kern w) → k_interest (kern w) !! fd = None.
Proof.
  intros HI Hfd. destruct (k_interest (kern w) !! fd) as [ev|] eqn:E; [|done].
  apply (eo_only _ _ _ (in_epoll _ HI)) in E as [->|(a & c & Hc & <-)];
    exfalso; apply Hfd; [by apply acceptor_open|by eapply conn_open].
Qed.

(** [fd] was opened, and nobody owns it yet. *)
Definition adopted (fd : Z) w w1 : Prop :=
  inv w ∧ heap w1 = heap w ∧ server w1 = server w ∧ opens fd (kern w) (kern w1).

Lemma adopted_idle fd w w1 k' :
  adopted fd w w1 → idle_step (kern w1) k' → adopted fd w (mkWorld k' (heap w1) (server w1)).
Proof.
  intros (HI & Hh & Hs & H1 & H2 & H3 & H4 & H5 & H6 & H7 & H8) (I1 & I2 & I3 & I4 & I5).
  split; [done|]. split; [done|]. split; [done|]. cbn. split; [done|]. split; [done|]. split; [by rewrite I1|].
  split; [by rewrite I2|]. split; [by rewrite I3|]. split; [intros fd' Hne; rewrite I4; by apply H6|].
  split; [by rewrite I4|by eapply later_trans].
Qed.

(** Closing it again leaves no trace. *)
Lemma adopted_close fd w w1 k' :
  adopted fd w w1 → closes fd (kern w1) k' → shuffles w (mkWorld k' (heap w1) (server w1)).
Proof.
  intros (HI & Hh & Hs & H1 & H2 & H3 & H4 & H5 & H6 & H7 & H8) (I1 & I2 & I3 & I4 & I5). rewrite Hh, Hs.
  pose proof (in_listening _ HI) as HL. apply shuffles_kern; [done| | | |by eapply later_trans|].
  - rewrite I1, H3. set_solver.
  - rewrite I2, H4. apply elem_of_difference. split; [done|]. rewrite elem_of_singleton. intros <-.
    by apply H2, acceptor_open.
  - rewrite I3, H5. apply delete_id. by apply interest_open.
  - intros a c Hc. rewrite I4. apply H6. intros <-. by apply H2, (conn_open _ a).
Qed.

Lemma adopted_destroy fd w w1 :
  adopted fd w w1 → wp (destroyFd fd) w1 (λ _ w', shuffles w w' ∧ later (kern w1) (kern w')).
Proof.
  intros HA. pose proof HA as (HI & Hh & Hs & H1 & H2 & H3 & _). unfold destroyFd, UniqueFd.destroy.
  apply wp_syscall. intros [] k'. destruct (Z.eqb_spec fd (-1)) as [|_]; [lia|]. intros [= <-].
  assert (closes fd (kern w1) (sys_close fd (kern w1))) as Hcl by (apply close_law; rewrite H3; set_solver).
  split; [by eapply adopted_close|by apply Hcl].
Qed.

(** ** The reserve *)

Lemma reserve_open w :
  inv w → reserveFd_ (server w) ≠ -1 → reserveFd_ (server w) ∈ k_open (kern w).
Proof. intros HI Hr. apply (fo_open _ _ _ (in_fds _ HI)). by do 2 right; left. Qed.

(** The reserve is neither the listener nor a connection. *)
Lemma reserve_apart w :
  inv w → reserveFd_ (server w) ≠ acceptor_fd (server w) ∧
  k_interest (kern w) !! reserveFd_ (server w) = None ∧
  ∀ a c, heap w !! a = Some c → fd_ c ≠ reserveFd_ (server w).
Proof.
  intros HI. pose proof (in_fds _ HI) as F. destruct (fo_distinct _ _ _ F) as (_ & _ & Hd).
  assert (∀ a c, heap w !! a = Some c → fd_ c ≠ reserveFd_ (server w)) as Hc by (intros a c H; by eapply (fo_conn _ _ _ F)).
  split; [done|]. split; [|done]. destruct (k_interest _ !! _) as [ev|] eqn:E; [|done].
  apply (eo_only _ _ _ (in_epoll _ HI)) in E as [?|(a & c & H & E)]; [done|]. by apply Hc in H.
Qed.

(** Another reserve, the old one closed. *)
Lemma shuffles_reserve w k' r :
  inv w → -1 ≤ r → (r ≠ -1 → r ∉ k_open (kern w)) →
  (∀ fd, fd ∈ k_open k' ↔ (fd ∈ k_open (kern w) ∧ fd ≠ reserveFd_ (server w)) ∨ (fd = r ∧ r ≠ -1)) →
  acceptor_fd (server w) ∈ k_listening k' → k_interest k' = k_interest (kern w) → later (kern w) k' →
  (∀ a c, heap w !! a = Some c → k_io k' (fd_ c) = k_io (kern w) (fd_ c)) →
  shuffles w (mkWorld k' (heap w) (with_reserve r (server w))).
Proof.
  intros HI Hr Hfresh Ho Hl Hi Ht Hs. pose proof (reserve_apart _ HI) as (Ra & _ & Rc).
  destruct HI as [[F1 F2 F3 F4 F5 F6 F7] [E1 E2 E3] [O1 O2 O3] C N L S]. pose proof Ht as (_ & _ & Hb).
  assert (∀ fd, fd ∈ k_open (kern w) → 0 ≤ fd → fd ≠ r) as Hne by (intros fd Hfd Hp ->; apply Hfresh; [lia|done]).
  split; cbn; [|done|by destruct (server w)|done|done]. split; cbn; [| | | | |done|done].
  - split; cbn; [done|done|done| | |done|].
    + split; [apply F4|]. split; apply Hne; try done; apply F7; [by left|by right; left].
    + intros a c Hc. destruct (F5 _ _ Hc) as (G1 & G2 & G3 & G4). split; [done|]. split; [done|]. split; [done|].
      apply Hne; [|done]. apply F7. do 3 right. by exists a, c.
    + intros fd. rewrite Ho, F7. destruct F4 as (D1 & D2 & D3). split.
      * intros [[[->|[->|[[-> _]|Hx]]] H]|[-> H]]; [by left|by right; left|done|by do 3 right|by do 2 right; left].
      * intros [->|[->|[[-> H]|(a & c & Hc & <-)]]]; [left|left|by right|left].
        -- split; [by left|done].
        -- split; [by right; left|done].
        -- split; [do 3 right; by exists a, c|]. by eapply Rc.
  - split; cbn; by rewrite Hi.
  - by split.
  - eapply clock_ok_later; [exact Ht|]. by destruct C; split.
  - intros a c Hc. eapply conn_ok_later; [exact Hb|apply bytes_range|by eapply N].
Qed.

(** [reserveFd_ = -1], from a state in which perhaps a descriptor was opened. *)
Lemma drop_reserve w :
  inv w → reserveFd_ (server w) ≠ -1 →
  shuffles w (mkWorld (sys_close (reserveFd_ (server w)) (kern w)) (heap w) (with_reserve (-1) (server w))).
Proof.
  intros HI Hr. destruct (close_law _ _ (reserve_open _ HI Hr)) as (I1 & I2 & I3 & I4 & I5).
  pose proof (reserve_apart _ HI) as (Ra & Ri & Rc). pose proof (in_listening _ HI).
  apply shuffles_reserve; [done|lia|done| | | |done|].
  - intros fd. rewrite I1. set_solver.
  - rewrite I2. set_solver.
  - by rewrite I3, delete_id.
  - intros a c _. apply I4.
Qed.

Lemma swap_reserve fd w w1 :
  adopted fd w w1 →
  wp (r ← syscall (UniqueFd.reset fd (reserveFd_ (server w1))); upd_server (with_reserve r)) w1
    (λ _ w', shuffles w w' ∧ reserveFd_ (server w') = fd).
Proof.
  intros (HI & Hh & Hs & H1 & H2 & H3 & H4 & H5 & H6 & H7 & H8). rewrite Hs. pose proof (in_listening _ HI) as HL.
  pose proof (reserve_apart _ HI) as (Ra & Ri & Rc).
  assert (∀ a c, heap w !! a = Some c → fd_ c ≠ fd) as Hc by (intros a c Hc <-; by apply H2, (conn_open _ a)).
  unfold UniqueFd.reset. apply wp_bind, wp_syscall. intros r k'.
  destruct (Z.eqb_spec fd (reserveFd_ (server w))) as [E|Hne].
  { exfalso. destruct (decide (reserveFd_ (server w) = -1)) as [|Hr]; [lia|]. apply H2. rewrite E. by apply reserve_open. }
  destruct (Z.eqb_spec (reserveFd_ (server w)) (-1)) as [Hr|Hr]; cbn [negb]; intros [= <- <-];
    apply wp_upd_server; cbn [kern heap server]; (split; [|done]); rewrite Hh, Hs.
  - apply shuffles_reserve; [done|lia|done| |by rewrite H4|done|done|].
    + intros fd'. rewrite H3, Hr, elem_of_union, elem_of_singleton. split; [|intros [[]|[-> _]]; [by right|by left]].
      intros [->|Hx]; [by right; split; [|lia]|left]. split; [done|]. intros ->.
      apply (fo_open _ _ _ (in_fds _ HI)) in Hx as [E|[E|[[_ E]|(a & c & Hc' & E)]]]; [| |done|];
        destruct (in_fds _ HI) as [F1 F2 F3 F4 F5 F6 F7]; [lia|lia|]. destruct (F5 _ _ Hc') as [? _]. lia.
    + intros a c Hx. apply H6. by eapply Hc.
  - destruct (close_law (reserveFd_ (server w)) (kern w1)) as (I1 & I2 & I3 & I4 & I5).
    { rewrite H3. apply elem_of_union_r. by apply reserve_open. }
    apply shuffles_reserve; [done|lia|done| | | |by eapply later_trans|].
    + intros fd'. rewrite I1, H3, elem_of_difference, elem_of_union, !elem_of_singleton.
      split; [intros [[->|?] ?]; [right; split; [done|lia]|by left]|]. intros [[]|[-> _]]; [by split; [right|]|].
      by split; [left|].
    + rewrite I2, H4. set_solver.
    + by rewrite I3, H5, delete_id.
    + intros a c Hx. rewrite I4. apply H6. by eapply Hc.
Qed.

Lemma refillReserve_spec w : inv w → wp refillReserve w (λ _ w', shuffles w w').
Proof.
  intros HI. unfold refillReserve, openReserve. apply wp_bind, wp_bind, wp_syscall. intros r k' Hk.
  pose proof (open_null_law _ _ _ Hk) as Hlaw. apply wp_ret, wp_bind, wp_gets. destruct r as [fd|].
  - eapply wp_mono; [by apply (swap_reserve fd w (mkWorld k' (heap w) (server w)))|]. by intros [] w' [].
  - pose proof (shuffles_idle _ _ HI Hlaw) as HS. unfold UniqueFd.reset. apply wp_bind, wp_syscall.
    cbn [kern heap server]. intros r k2.
    destruct (Z.eqb_spec (-1) (reserveFd_ (server w))) as [E|Hne].
    { intros [= <- <-]. apply wp_upd_server. cbn [kern heap server].
      assert (with_reserve (reserveFd_ (server w)) (server w) = server w) as -> by (by destruct (server w)). done. }
    destruct (Z.eqb_spec (reserveFd_ (server w)) (-1)) as [Hr|Hr]; cbn [negb]; [lia|]. intros [= <- <-].
    apply wp_upd_server. cbn [kern heap server]. eapply shuffles_trans; [exact HS|].
    by apply (drop_reserve (mkWorld k' (heap w) (server w))); [apply HS|].
Qed.

(** ** Shedding and pausing *)

Lemma accept_outcome w r k' :
  inv w → sys_accept4 (acceptor_fd (server w)) (kern w) = (r, k') →
  match r with
  | inl fd => adopted fd w (mkWorld k' (heap w) (server w)) ∧ (k_budget k' < k_budget (kern w))%nat
  | inr e => shuffles w (mkWorld k' (heap w) (server w)) ∧ (e ∉ [EBADF; ENOTSOCK; EINVAL; EFAULT]) ∧
             (accept_consumed e → (k_budget k' < k_budget (kern w))%nat)
  end.
Proof.
  intros HI Hk. pose proof (accept_law _ _ _ _ Hk) as Hlaw. destruct r as [fd|e].
  - destruct Hlaw as [Hop Hb]. by split.
  - destruct Hlaw as (Hid & Hb & He). split; [by apply shuffles_idle|]. split; [|done].
    apply He. by apply (in_listening _ HI).
Qed.

Lemma budget_le w w' : shuffles w w' → (k_budget (kern w') ≤ k_budget (kern w))%nat.
Proof. intros [_ _ _ (_ & H & _) _]. exact H. Qed.

Lemma shedPending_spec w :
  inv w → wp shedPending w (λ b w', shuffles w w' ∧ (b = true → (k_budget (kern w') < k_budget (kern w))%nat)).
Proof.
  intros HI. unfold shedPending. apply wp_bind, wp_gets. unfold UniqueFd.bool_ at 1.
  destruct (Z.eqb_spec (reserveFd_ (server w)) (-1)) as [Hr|Hr]; cbn [negb].
  { apply wp_ret. split; [by apply shuffles_refl|done]. }
  apply wp_bind, wp_syscall. unfold UniqueFd.reset at 1. intros fd k1.
  destruct (Z.eqb_spec (-1) (reserveFd_ (server w))) as [|_]; [lia|].
  destruct (Z.eqb_spec (reserveFd_ (server w)) (-1)) as [|_]; [lia|]. cbn [negb]. intros [= <- <-].
  apply wp_bind, wp_upd_server. cbn [kern heap server]. pose proof (drop_reserve _ HI Hr) as H1.
  set (w1 := mkWorld _ _ _) in *. pose proof (sh_inv _ _ H1) as HI1. pose proof (budget_le _ _ H1) as Hb1.
  apply wp_bind, wp_syscall. intros r k2 Hk. change (acceptor_fd (server w)) with (acceptor_fd (server w1)) in Hk.
  pose proof (accept_outcome w1 _ _ HI1 Hk) as Ho. apply wp_bind, wp_syscall. unfold UniqueFd.reset.
  intros x k3. destruct r as [fd|e]; cbn [kern heap server].
  - destruct Ho as [HA Hb]. pose proof HA as (_ & _ & _ & Hp & _ & Hop & _).
    destruct (Z.eqb_spec (-1) fd) as [|_]; [lia|]. destruct (Z.eqb_spec fd (-1)) as [|_]; [lia|].
    cbn [negb]. intros [= <- <-]. cbn in Hop.
    assert (shuffles w1 (mkWorld (sys_close fd k2) (heap w1) (server w1))) as H3.
    { apply (adopted_close fd w1 (mkWorld k2 (heap w1) (server w1))); [exact HA|]. apply close_law. cbn. rewrite Hop. set_solver. }
    apply wp_bind. eapply wp_mono; [by apply refillReserve_spec, H3|]. intros [] w' H4. apply wp_ret.
    split; [by eapply shuffles_trans; [|eapply shuffles_trans]|]. intros _.
    pose proof (budget_le _ _ H4) as Hb4. destruct (close_law fd k2) as (_ & _ & _ & _ & _ & Hb3 & _); [cbn; rewrite Hop; set_solver|].
    cbn in *. lia.
  - destruct Ho as [H2 _]. cbn [Z.eqb Z.compare Pos.compare Pos.compare_cont]. intros [= <- <-].
    apply wp_bind. eapply wp_mono; [by apply refillReserve_spec, H2|]. intros [] w' H4. apply wp_ret.
    split; [by eapply shuffles_trans; [|eapply shuffles_trans]|done].
Qed.

(** The listener's mask and the flag go together. *)
Lemma shuffles_mask w k' (b : bool) :
  inv w →
  watches (acceptor_fd (server w)) (Some (mkEvent (if b then 0 else EPOLLIN) HAcceptor)) (kern w) k' →
  shuffles w (mkWorld k' (heap w) (with_paused b (server w))).
Proof.
  intros [[F1 F2 F3 F4 F5 F6 F7] [E1 E2 E3] [O1 O2 O3] C N L S] (Ho & Hl & Hi & Hs & Ht).
  pose proof Ht as (_ & _ & Hb). split; cbn; [|done|by destruct (server w)|done|done]. split; cbn; [| | | | | |done].
  - split; cbn; try done. by rewrite Ho.
  - split; cbn; rewrite Hi.
    + by rewrite lookup_partial_alter_eq.
    + intros a c Hc. rewrite lookup_partial_alter_ne; [by apply E2|]. destruct (F5 _ _ Hc) as (_ & _ & ? & _). done.
    + intros fd ev. destruct (decide (acceptor_fd (server w) = fd)) as [<-|]; [by left|].
      rewrite lookup_partial_alter_ne by done. by apply E3.
  - by split.
  - eapply clock_ok_later; [exact Ht|]. by destruct C; split.
  - intros a c Hc. eapply conn_ok_later; [exact Hb|apply bytes_range|by eapply N].
  - by rewrite Hl.
Qed.

(** A line on stderr. *)
Lemma shuffles_stderr (s : bytes) w w1 : shuffles w w1 → wp (fprintf_stderr s) w1 (λ _ w', shuffles w w').
Proof. intros H. apply wp_stderr. intros k' Hid. eapply shuffles_trans; [exact H|]. by apply shuffles_idle; [apply H|]. Qed.

(** The mask changes with the flag, or the failure is reported. *)
Lemma modify_acceptor w (b : bool) (k : option system_error → M K P unit) :
  inv w →
  (∀ e w1, shuffles w w1 → wp (k (Some e)) w1 (λ _ w', shuffles w w')) →
  (∀ w1, shuffles w (mkWorld (kern w1) (heap w1) (with_paused b (server w1))) → wp (k None) w1 (λ _ w', shuffles w w')) →
  wp (r ← loop_modify HAcceptor (acceptor_fd (server w)) (if b then 0 else EPOLLIN); k r) w (λ _ w', shuffles w w').
Proof.
  intros HI He Hn. apply wp_bind, wp_modify. intros r k' Hk.
  pose proof (mod_law _ _ _ _ _ Hk) as Hlaw. destruct r as [e|]; cbn [throws fmap option_fmap option_map].
  - by apply He, shuffles_idle, Hlaw.
  - apply Hn. cbn [kern heap server]. by apply shuffles_mask.
Qed.

Lemma pauseAccepting_spec w err : inv w → wp (pauseAccepting err) w (λ _ w', shuffles w w').
Proof.
  intros HI. unfold pauseAccepting. apply wp_bind, wp_gets.
  destruct (acceptPaused_ (server w)); [by apply wp_ret, shuffles_refl|].
  apply (modify_acceptor w true); [done|intros e w1; apply shuffles_stderr|].
  intros w1 H1. by apply wp_bind, wp_upd_server, shuffles_stderr.
Qed.

Lemma resumeAccepting_spec w : inv w → wp resumeAccepting w (λ _ w', shuffles w w').
Proof.
  intros HI. unfold resumeAccepting. apply wp_bind, wp_gets.
  destruct (acceptPaused_ (server w)); cbn [negb]; [|by apply wp_ret, shuffles_refl].
  apply wp_bind. eapply wp_mono; [by apply refillReserve_spec|]. intros [] w1 H1. apply wp_bind, wp_gets.
  destruct (negb (UniqueFd.bool_ _)); [by apply wp_ret|].
  eapply wp_mono; [apply (modify_acceptor w1 false); [apply H1|intros e w2; apply shuffles_stderr|done]|].
  intros [] w' H2. by eapply shuffles_trans.
Qed.

Lemma pause_stops err w w1 :
  shuffles w w1 → ∀ Q : bool → World K P → Prop, (∀ w', shuffles w w' → Q false w') →
  wp (pauseAccepting err;; mret false : M K P bool) w1 Q.
Proof.
  intros H1 Q HQ. apply wp_bind. eapply wp_mono; [by apply pauseAccepting_spec, H1|].
  intros [] w2 H2. by apply wp_ret, HQ, (shuffles_trans _ w1).
Qed.

(** It asks to go on only after something queued was used up. *)
Lemma handleAcceptFailure_spec w e :
  inv w → e ∉ [EBADF; ENOTSOCK; EINVAL; EFAULT] →
  wp (handleAcceptFailure e) w (λ b w', shuffles w w' ∧
    (b = true → accept_consumed e ∨ (k_budget (kern w') < k_budget (kern w))%nat)).
Proof.
  intros HI He. unfold handleAcceptFailure. pose proof (shuffles_refl _ HI) as HR.
  assert (wp (b ← shedPending; if b : bool then mret true else pauseAccepting e;; mret false : M K P bool) w
    (λ b w', shuffles w w' ∧ (b = true → accept_consumed e ∨ (k_budget (kern w') < k_budget (kern w))%nat))) as Hshed.
  { apply wp_bind. eapply wp_mono; [by apply shedPending_spec|]. intros [] w1 [H1 Hb].
    - apply wp_ret. split; [done|]. intros _. right. by apply Hb.
    - by apply (pause_stops _ _ _ H1). }
  assert (wp (pauseAccepting e;; mret false : M K P bool) w
    (λ b w', shuffles w w' ∧ (b = true → accept_consumed e ∨ (k_budget (kern w') < k_budget (kern w))%nat))) as Hpause
    by (by apply (pause_stops _ _ _ HR)).
  assert (accept_consumed e → wp (mret true : M K P bool) w
    (λ b w', shuffles w w' ∧ (b = true → accept_consumed e ∨ (k_budget (kern w') < k_budget (kern w))%nat))) as Hretry
    by (intros ?; apply wp_ret; split; [done|by left]).
  apply wp_bind, wp_lift.
  destruct e; cbn [classifyAcceptErrno returns];
    first [exact Hshed | exact Hpause | (apply Hretry; unfold accept_consumed; set_solver) | idtac].
  { apply wp_ret. by split. }
  all: exfalso; apply He; set_solver.
Qed.

(** ** New connections *)

Lemma adopted_fresh fd w w1 : adopted fd w w1 →
  fd ≠ epollFd_ (loop_ (server w)) ∧ fd ≠ acceptor_fd (server w) ∧ fd ≠ reserveFd_ (server w) ∧
  (∀ a c, heap w !! a = Some c → fd_ c ≠ fd) ∧ connections_ (server w) !! fd = None.
Proof.
  intros (HI & _ & _ & Hp & Hn & _). pose proof (fo_open _ _ _ (in_fds _ HI)) as Ho.
  split; [|split; [|split; [|split]]].
  - intros ->. apply Hn, Ho. by left.
  - intros ->. by apply Hn, acceptor_open.
  - intros ->. apply Hn, reserve_open; [done|lia].
  - intros a c Hc <-. by apply Hn, (conn_open _ a).
  - destruct (connections_ (server w) !! fd) as [a|] eqn:E; [|done].
    apply (oo_live _ _ (in_owners _ HI)) in E as (c & Hc & <- & _). exfalso. by apply Hn, (conn_open _ a).
Qed.

Definition new_connection (fd : Z) (i o : Buf.Buffer) : Connection := mkConnection fd i o kOpen EPOLLIN.

(** The world with the new connection in its map. *)
Definition joined w (a : addr) (fd : Z) (c : Connection) (k' : K) : World K P :=
  mkWorld k' (<[a := c]> (heap w))
    (with_connections (<[fd := a]> (connections_ (server w))) (retired_ (server w)) (server w)).

Lemma joined_fds fd w w1 a i o k' :
  adopted fd w w1 → heap w !! a = None → k_open k' = k_open (kern w1) →
  fds_ok k' (<[a := new_connection fd i o]> (heap w)) (server (joined w a fd (new_connection fd i o) k')).
Proof.
  intros HA Ha Ho. pose proof (adopted_fresh _ _ _ HA) as (N1 & N2 & N3 & N4 & N5).
  destruct HA as (HI & _ & _ & Hp & Hn & Hop & _). destruct (in_fds _ HI) as [F1 F2 F3 F4 F5 F6 F7].
  split; cbn; try done.
  - intros b c. rewrite lookup_insert_Some. intros [[<- <-]|[_ Hc]]; [done|by eapply F5].
  - intros b1 b2 c1 c2. rewrite !lookup_insert_Some. intros [[<- <-]|[_ H1]] [[<- <-]|[_ H2]] E; cbn in E; try done.
    + by apply N4 in H2.
    + by apply N4 in H1.
    + by eapply F6.
  - intros fd'. rewrite Ho, Hop, elem_of_union, elem_of_singleton, F7. split.
    + intros [->|[?|[?|[?|(b & c & Hc & <-)]]]]; try by eauto.
      * do 3 right. exists a, (new_connection fd i o). by rewrite lookup_insert_eq.
      * do 3 right. exists b, c. rewrite lookup_insert_ne; [done|]. by intros <-; rewrite Ha in Hc.
    + intros [?|[?|[?|(b & c & Hc & <-)]]]; try by eauto.
      rewrite lookup_insert_Some in Hc. destruct Hc as [[<- <-]|[_ Hc]]; [by left|]. do 4 right. by exists b, c.
Qed.

Lemma joined_inv fd w w1 a i o k' :
  adopted fd w w1 → heap w !! a = None → watches fd (Some (mkEvent EPOLLIN (HConn a))) (kern w1) k' →
  Buf.wf i → Buf.wf o → Buf.readable i = [] → Buf.readable o = [] →
  inv (joined w a fd (new_connection fd i o) k').
Proof.
  intros HA Ha (Ho & Hl & Hi & Hs & Ht) Hwi Hwo Hri Hro.
  pose proof (adopted_fresh _ _ _ HA) as (N1 & N2 & N3 & N4 & N5).
  pose proof HA as (HI & _ & _ & Hp & Hn & Hop & Hll & Hii & _ & _ & Ht').
  pose proof (later_trans _ _ _ Ht' Ht) as Hlt. pose proof Hlt as (_ & _ & Hb).
  assert (Buf.size i = 0) as Hsi by (by rewrite <-Buf.readable_length, Hri).
  assert (Buf.size o = 0) as Hso by (by rewrite <-Buf.readable_length, Hro).
  split; cbn.
  - by apply (joined_fds fd w w1 a i o k').
  - destruct (in_epoll _ HI) as [E1 E2 E3]. split; cbn; rewrite Hi, Hii.
    + by rewrite lookup_partial_alter_ne.
    + intros b c. rewrite lookup_insert_Some. intros [[<- <-]|[_ Hc]]; cbn; [by rewrite lookup_partial_alter_eq|].
      rewrite lookup_partial_alter_ne; [by apply E2|]. by apply not_eq_sym, N4 with b.
    + intros fd' ev. destruct (decide (fd = fd')) as [<-|Hne].
      { intros _. right. exists a, (new_connection fd i o). by rewrite lookup_insert_eq. }
      rewrite lookup_partial_alter_ne by done. intros [?|(b & c & Hc & <-)]%E3; [by left|right].
      exists b, c. rewrite lookup_insert_ne; [done|]. by intros <-; rewrite Ha in Hc.
  - destruct (in_owners _ HI) as [O1 O2 O3]. split; cbn; [| |done].
    + intros fd' b. rewrite lookup_insert_Some, O1. split.
      * intros [[<- <-]|[Hne (c & Hc & <- & Hst)]]; [exists (new_connection fd i o); by rewrite lookup_insert_eq|].
        exists c. rewrite lookup_insert_ne; [done|]. by intros <-; rewrite Ha in Hc.
      * intros (c & Hc & <- & Hst). rewrite lookup_insert_Some in Hc. destruct Hc as [[<- <-]|[Hne Hc]]; [by left|].
        right. split; [by apply not_eq_sym, N4 with b|by exists c].
    + intros b. rewrite O2. split; intros (c & Hc & Hst).
      * exists c. rewrite lookup_insert_ne; [done|]. by intros <-; rewrite Ha in Hc.
      * rewrite lookup_insert_Some in Hc. destruct Hc as [[<- <-]|[_ Hc]]; [done|by exists c].
  - eapply clock_ok_later; [exact Hlt|]. by destruct (in_clock _ HI); split.
  - apply conns_update.
    + intros b c Hc. eapply conn_ok_later; [exact Hb|apply bytes_range|by eapply (in_conns _ HI)].
    + pose proof (ck_bytes _ _ (in_clock _ HI)) as Hby. pose proof (bytes_range k').
      split; cbn; [done|done|done| |intros _]; rewrite Hsi; unfold CmdProps.kMaxReply, Buf.kMaxContent in *; lia.
  - rewrite Hl, Hll. by apply (in_listening _ HI).
  - by apply (in_store _ HI).
Qed.

Lemma joined_advances fd w w1 a i o k' :
  all_settled w → adopted fd w w1 → heap w !! a = None →
  watches fd (Some (mkEvent EPOLLIN (HConn a))) (kern w1) k' →
  Buf.wf i → Buf.wf o → Buf.readable i = [] → Buf.readable o = [] →
  advances w (joined w a fd (new_connection fd i o) k') ∧ grows w (joined w a fd (new_connection fd i o) k').
Proof.
  intros HS HA Ha Hw Hwi Hwo Hri Hro. pose proof (joined_inv _ _ _ _ _ _ _ HA Ha Hw Hwi Hwo Hri Hro) as HI'.
  pose proof (adopted_fresh _ _ _ HA) as (_ & _ & _ & N4 & _).
  destruct HA as (HI & _ & _ & Hp & Hn & Hop & Hll & Hii & Hs1 & Hs2 & Ht'). destruct Hw as (_ & _ & _ & Hs & Ht).
  split; [split; [done| |done|by eapply later_trans|]|].
  - intros b c. cbn. rewrite lookup_insert_Some. intros [[<- <-]|[_ Hc]]; [|by eapply HS].
    intros _. split; [|done]. unfold wanted. cbn. rewrite (proj2 (Buf.empty_readable o Hwo)); done.
  - apply rtc_once. unfold view. cbn. rewrite fmap_insert.
    assert (view_client (joined w a fd (new_connection fd i o) k') (new_connection fd i o) = client_of [] [] [] kOpen) as ->.
    { unfold view_client, heard, outgoing. cbn. by rewrite Hri, Hro, Hs, Hs2. }
    assert (view_client (joined w a fd (new_connection fd i o) k') <$> heap w = view_client w <$> heap w) as ->;
      [apply map_fmap_ext|apply nstep_connect; by rewrite lookup_fmap, Ha].
    intros b c Hc. apply view_client_same. cbn. rewrite Hs. apply Hs1. by eapply N4.
  - split; [by apply insert_subseteq|done].
Qed.

Lemma live_refl w w' : heap w' = heap w → live_on w w'.
Proof. intros H a. by rewrite H. Qed.

Lemma live_trans w1 w2 w3 : live_on w1 w2 → live_on w2 w3 → live_on w1 w3.
Proof. intros H1 H2 a Ha. by apply H2, H1. Qed.

Lemma grows_live w w' : grows w w' → live_on w w'.
Proof. intros [H _] a [c Hc]. exists c. by eapply lookup_weaken. Qed.

Lemma grows_trans w1 w2 w3 : grows w1 w2 → grows w2 w3 → grows w1 w3.
Proof. intros [H1 S1] [H2 S2]. split; [by etrans|congruence]. Qed.

Lemma shuffles_live w w' : all_settled w → shuffles w w' → advances w w' ∧ grows w w'.
Proof.
  intros HS H. split; [by apply shuffles_advances|]. destruct H as [_ Hh Hs _ _]. split; [by rewrite Hh|by rewrite Hs].
Qed.

Lemma addConnection_spec fd w w1 :
  all_settled w → adopted fd w w1 →
  wp (addConnection fd) w1 (λ _ w', (advances w w' ∧ grows w w') ∧ later (kern w1) (kern w')).
Proof.
  intros HS HA. unfold addConnection, Conn.make. apply wp_bind, wp_gets, wp_bind.
  set (a := fresh (dom (heap w1))).
  assert (heap w !! a = None) as Ha.
  { destruct HA as (_ & <- & _). apply not_elem_of_dom, is_fresh. }
  apply wp_bind, wp_lift. eapply returns_mono; [apply (Buf.buffer_make_spec Buf.kDefaultCapacity); done|].
  intros i (Hwi & Hri & _). apply wp_bind, wp_lift.
  eapply returns_mono; [apply (Buf.buffer_make_spec Buf.kDefaultCapacity); done|]. intros o (Hwo & Hro & _).
  apply wp_bind, wp_add. intros r k' Hk.
  pose proof (add_law _ _ _ _ _ Hk) as Hlaw. destruct r as [e|]; cbn [throws fmap option_fmap option_map].
  - pose proof (adopted_idle _ _ _ _ HA Hlaw) as HA'. pose proof Hlaw as (_ & _ & _ & _ & Hl).
    apply wp_bind. fold (destroyFd (K:=K) (P:=P) fd).
    eapply wp_mono; [by apply (adopted_destroy fd w)|]. intros [] w' [H Hl']. apply wp_ret, wp_stderr.
    intros k2 Hid2. pose proof (shuffles_idle w' k2 (sh_inv _ _ H) Hid2) as H2. split.
    + by eapply shuffles_live, shuffles_trans.
    + eapply later_trans; [exact Hl|]. eapply later_trans; [exact Hl'|apply Hid2].
  - pose proof (adopted_fresh _ _ _ HA) as (_ & _ & _ & _ & Hnone). pose proof HA as (_ & Hh & Hs & _).
    pose proof (joined_advances _ _ _ _ _ _ _ HS HA Ha Hlaw Hwi Hwo Hri Hro) as HJ.
    rewrite <-Hs in Hnone.
    apply wp_bind. unfold new_conn. apply wp_ret, wp_bind, wp_gets. cbn [server]. rewrite Hnone.
    apply wp_upd_server. cbn [kern heap server]. rewrite Hs, Hh. split; [done|]. by destruct Hlaw as (_ & _ & _ & _ & ?).
Qed.

(** ** The accept loop *)

Lemma accept_loop_spec fuel w :
  inv w → all_settled w → (k_budget (kern w) < fuel)%nat →
  wp (accept_loop fuel) w (λ _ w', advances w w' ∧ grows w w').
Proof.
  revert w. induction fuel as [|fuel IH]; intros w HI HS Hf; [lia|]. cbn [accept_loop].
  assert (∀ w1, advances w w1 ∧ grows w w1 → (k_budget (kern w1) < k_budget (kern w))%nat →
    wp (accept_loop fuel) w1 (λ _ w', advances w w' ∧ grows w w')) as Hgo.
  { intros w1 [H1 L1] Hb. eapply wp_mono; [apply IH; [apply H1|apply H1|lia]|]. intros [] w' [H2 L2].
    split; [by eapply advances_trans|by eapply grows_trans]. }
  apply wp_bind, wp_gets, wp_bind, wp_syscall. intros r k' Hk. pose proof (accept_outcome _ _ _ HI Hk) as Ho.
  destruct r as [fd|e].
  - destruct Ho as [HA Hb]. apply wp_bind, wp_syscall. cbn [kern heap server]. intros ok k2 Hk2.
    pose proof (nodelay_law _ _ _ _ Hk2) as Hid. pose proof (adopted_idle _ _ _ _ HA Hid) as HA2.
    cbn [kern heap server] in HA2. pose proof Hid as (_ & _ & _ & _ & _ & Hb2 & _). destruct ok; cbn [negb]; apply wp_bind.
    + eapply wp_mono; [by apply (addConnection_spec fd w)|]. intros [] w' [H (_ & Hb3 & _)]. apply Hgo; [done|].
      cbn in Hb3. lia.
    + apply wp_stderr. cbn [kern heap server]. intros k3 Hid3. pose proof (adopted_idle _ _ _ _ HA2 Hid3) as HA3.
      pose proof Hid3 as (_ & _ & _ & _ & _ & Hb4 & _). apply wp_bind.
      eapply wp_mono; [by apply (adopted_destroy fd w)|]. intros [] w' [H (_ & Hb3 & _)].
      apply Hgo; [by apply shuffles_live|]. cbn in Hb3. lia.
  - destruct Ho as (H1 & He & Hb). apply wp_bind.
    eapply wp_mono; [by apply (handleAcceptFailure_spec _ e (sh_inv _ _ H1))|].
    intros go w' [H2 Hgob]. pose proof (shuffles_trans _ _ _ H1 H2) as H. destruct go; [|by apply wp_ret, shuffles_live].
    apply Hgo; [by apply shuffles_live|]. pose proof (budget_le _ _ H1). pose proof (budget_le _ _ H2). cbn in *.
    destruct (Hgob eq_refl) as [Hc|Hc]; [specialize (Hb Hc)|]; lia.
Qed.

Lemma acceptPending_spec w :
  inv w → all_settled w → wp acceptPending w (λ _ w', advances w w' ∧ grows w w').
Proof. intros HI HS. unfold acceptPending. apply wp_bind, wp_gets, accept_loop_spec; [done|done|lia]. Qed.

End facts.
End AcceptFacts.
