(* ===== verification/ServerFacts.v ===== *)
(** * The server from construction to destruction

    Connections are freed between rounds, events are dispatched to live objects,
    and any number of rounds keeps the invariant. *)

From Stdlib Require Import ZArith Lia Strings.Byte.
From stdpp Require Import base gmap numbers list relations.
From S2P Require Import Prelude Buffer Resp Entry Table TableInv TableWalk Store StoreInv StoreSpec Command CommandSpec CommandProps.
From S2P Require Import Kernel World Stream Connection Server NetInv ConnFacts NetSpec AcceptFacts.

Local Open Scope Z_scope.

Module ServerFacts.
Import ConnFacts AcceptFacts Srv.

(** [h] without the objects of [l]. *)
Definition delete_all {A} (l : list addr) (h : gmap addr A) : gmap addr A := foldl (λ h a, delete a h) h l.

Lemma delete_all_lookup {A} l (h : gmap addr A) a :
  delete_all l h !! a = if bool_decide (a ∈ l) then None else h !! a.
Proof.
  revert h. induction l as [|b l IH]; intros h; [done|].
  change (delete_all (b :: l) h) with (delete_all l (delete b h)). rewrite IH.
  destruct (decide (b = a)) as [<-|Hne].
  - rewrite lookup_delete_eq, (bool_decide_true (b ∈ b :: l)) by set_solver. by destruct (bool_decide _).
  - rewrite lookup_delete_ne by done. by rewrite (bool_decide_ext (a ∈ l) (a ∈ b :: l)) by set_solver.
Qed.

Section facts.
Context {K P : Type} `{!Kernel K} `{!PoolAllocator P} `{!KernelLaws K}.
Implicit Types (w : World K P) (c : Connection) (k : K) (h : gmap addr Connection) (s : Server P).

(** ** Freeing connections *)

(** [~Connection] on an object of the heap, whoever owns it. *)
Lemma destroy_fds k k' h s a c :
  fds_ok k h s → h !! a = Some c → k_open k' = k_open k ∖ {[fd_ c]} → fds_ok k' (delete a h) s.
Proof.
  intros [F1 F2 F3 F4 F5 F6 F7] Hc Ho. split; try done.
  - intros b x. rewrite lookup_delete_Some. intros [_ Hx]. by eapply F5.
  - intros b1 b2 x1 x2. rewrite !lookup_delete_Some. intros [_ H1] [_ H2]. by eapply F6.
  - intros fd. destruct (F5 _ _ Hc) as (G1 & G2 & G3 & G4). rewrite Ho, elem_of_difference, elem_of_singleton, F7. split.
    + intros [[?|[?|[?|(b & x & Hx & <-)]]] Hne]; [by eauto..|]. do 3 right. exists b, x. rewrite lookup_delete_Some.
      split; [|done]. split; [|done]. intros <-. by assert (x = c) as -> by congruence.
    + intros [->|[->|[[-> ?]|(b & x & [Hb Hx]%lookup_delete_Some & <-)]]].
      * split; [by left|done].
      * split; [by right; left|done].
      * split; [by do 2 right; left|done].
      * split; [do 3 right; by exists b, x|]. intros E. by apply Hb, (F6 _ _ _ _ Hc Hx).
Qed.

Lemma destroy_epoll k k' h s a c :
  fds_ok k h s → epoll_ok k h s → h !! a = Some c → k_interest k' = delete (fd_ c) (k_interest k) →
  epoll_ok k' (delete a h) s.
Proof.
  intros F [E1 E2 E3] Hc Hi. destruct (fo_conn _ _ _ F _ _ Hc) as (G1 & G2 & G3 & G4). split; rewrite Hi.
  - by rewrite lookup_delete_ne.
  - intros b x [Hb Hx]%lookup_delete_Some. rewrite lookup_delete_ne; [by apply E2|].
    intros E. by apply Hb, (fo_inj _ _ _ F _ _ _ _ Hc Hx).
  - intros fd ev [Hfd Hev]%lookup_delete_Some. destruct (E3 _ _ Hev) as [->|(b & x & Hx & <-)]; [by left|].
    right. exists b, x. rewrite lookup_delete_Some. split; [|done]. split; [|done].
    intros <-. by assert (x = c) as -> by congruence.
Qed.

(** What freeing the objects of [l] leaves; [s] says who owns the other
    descriptors. *)
Record freed s (l : list addr) w w' : Prop := {
  fr_fds : fds_ok (kern w') (heap w') s;
  fr_epoll : epoll_ok (kern w') (heap w') s;
  fr_heap : heap w' = delete_all l (heap w);
  fr_server : server w' = server w;
  fr_later : later (kern w) (kern w');
  fr_sent fd : k_io (kern w') fd = k_io (kern w) fd;
  fr_listening : acceptor_fd s ∈ k_listening (kern w) → acceptor_fd s ∈ k_listening (kern w');
}.

Lemma destroy_spec s w a c :
  fds_ok (kern w) (heap w) s → epoll_ok (kern w) (heap w) s → heap w !! a = Some c →
  wp (Conn.destroy a) w (λ _ w', freed s [a] w w').
Proof.
  intros F E Hc. destruct (fo_conn _ _ _ F _ _ Hc) as (G1 & G2 & G3 & G4).
  assert (fd_ c ∈ k_open (kern w)) as Hop by (apply (fo_open _ _ _ F); do 3 right; by exists a, c).
  unfold Conn.destroy. apply wp_bind, (wp_get_conn _ _ c); [done|]. apply wp_bind. unfold loop_remove.
  apply wp_bind, wp_syscall. intros r k1 Hk.
  destruct (del_law _ _ _ _ Hk Hop) as [-> (I1 & I2 & I3 & I4 & I5)]; [by rewrite (eo_conn _ _ _ E _ _ Hc); eexists|].
  apply wp_ret, wp_bind, wp_syscall. cbn [kern heap server]. intros [] k2. unfold UniqueFd.destroy.
  destruct (Z.eqb_spec (fd_ c) (-1)) as [|_]; [lia|]. intros [= <-].
  destruct (close_law (fd_ c) k1) as (J1 & J2 & J3 & J4 & J5); [by rewrite I1|].
  assert (k_open (sys_close (fd_ c) k1) = k_open (kern w) ∖ {[fd_ c]}) as Ho by (by rewrite J1, I1).
  assert (k_interest (sys_close (fd_ c) k1) = delete (fd_ c) (k_interest (kern w))) as Hi.
  { rewrite J3, I3. apply map_eq. intros fd. destruct (decide (fd_ c = fd)) as [<-|]; [by rewrite !lookup_delete_eq|].
    by rewrite !lookup_delete_ne, lookup_partial_alter_ne. }
  split; cbn; [by eapply destroy_fds|by eapply destroy_epoll|done|done|by eapply later_trans|by intros; rewrite J4|].
  intros HL. rewrite J2, I2. set_solver.
Qed.

Lemma freed_app s l1 l2 w1 w2 w3 : freed s l1 w1 w2 → freed s l2 w2 w3 → freed s (l1 ++ l2) w1 w3.
Proof.
  intros [A1 A2 A3 A4 A5 A6 A7] [B1 B2 B3 B4 B5 B6 B7].
  split; [done|done| |congruence|by eapply later_trans|by intros; rewrite B6|by eauto].
  rewrite B3, A3. unfold delete_all. by rewrite foldl_app.
Qed.

Lemma destroy_all_spec s l w :
  fds_ok (kern w) (heap w) s → epoll_ok (kern w) (heap w) s →
  NoDup l → (∀ a, a ∈ l → is_Some (heap w !! a)) →
  wp (destroy_all l) w (λ _ w', freed s l w w').
Proof.
  revert w. induction l as [|a l IH]; intros w F E Hnd Hl; cbn [destroy_all].
  - apply wp_ret. by split; try apply later_refl.
  - apply NoDup_cons in Hnd as [Ha Hnd]. destruct (Hl a) as [c Hc]; [set_solver|].
    apply wp_bind. eapply wp_mono; [by apply (destroy_spec s _ _ c)|]. intros [] w1 H1.
    eapply wp_mono; [apply IH; [apply H1|apply H1|done|]|].
    + intros b Hb. rewrite (fr_heap _ _ _ _ H1), delete_all_lookup, bool_decide_false by set_solver.
      apply Hl. set_solver.
    + intros [] w' H2. by apply (freed_app s [a] l w w1 w').
Qed.

(** ** The retired *)

Lemma forget_all (t : Z) (st : Sto.Store P) (l : list addr) (m : gmap addr Client) :
  NoDup l → (∀ a, a ∈ l → ∃ c : Client, m !! a = Some c ∧ phase c = kClosed) →
  rtc nstep (mkNet t st m) (mkNet t st (delete_all l m)).
Proof.
  revert m. induction l as [|a l IH]; intros m Hnd Hl; [apply rtc_refl|]. apply NoDup_cons in Hnd as [Ha Hnd].
  destruct (Hl a) as (c & Hc & Hph); [set_solver|]. eapply rtc_l; [by eapply nstep_forget|].
  apply IH; [done|]. intros b Hb. destruct (Hl b) as (x & Hx & ?); [set_solver|]. exists x.
  rewrite lookup_delete_ne; [done|]. by intros <-.
Qed.

Lemma fmap_delete_all {A B} (f : A → B) l (m : gmap addr A) : f <$> delete_all l m = delete_all l (f <$> m).
Proof.
  apply map_eq. intros a. rewrite lookup_fmap, !delete_all_lookup, lookup_fmap. by destruct (bool_decide _).
Qed.

(** The world once the retired list is gone. *)
Lemma freed_inv w w' :
  inv w → freed (server w) (retired_ (server w)) w w' →
  inv (mkWorld (kern w') (heap w') (with_connections (connections_ (server w)) [] (server w))).
Proof.
  intros [F E [O1 O2 O3] C N L S] [A1 A2 A3 A4 A5 A6 A7].
  assert (∀ a c, heap w' !! a = Some c → heap w !! a = Some c ∧ state_ c ≠ kClosed) as Hh.
  { intros a c. rewrite A3, delete_all_lookup. case_bool_decide as Ha; [done|]. intros Hc. split; [done|].
    intros Hst. apply Ha, O2. by exists c. }
  split; cbn; [by destruct A1; split|by destruct A2; split| | | |by apply A7|done].
  - split; cbn; [|intros a; split; [by intros ?%not_elem_of_nil|]|by apply NoDup_nil].
    + intros fd a. rewrite O1. split; intros (c & Hc & <- & Hst); exists c; [|by apply Hh in Hc as [? _]].
      rewrite A3, delete_all_lookup, bool_decide_false; [done|]. intros (x & Hx & ?)%O2. congruence.
    + intros (c & [_ Hc]%Hh & Hst). done.
  - eapply clock_ok_later; [exact A5|]. by destruct C; split.
  - intros a c [Hc _]%Hh. destruct A5 as (_ & _ & Hb). eapply conn_ok_later; [exact Hb|apply bytes_range|by eapply N].
Qed.

(** Freed between rounds: nothing is left of the closed connections, and the
    others do not notice. *)
Lemma destroyRetired_spec w :
  inv w → all_settled w → wp destroyRetired w (λ _ w', advances w w' ∧ retired_ (server w') = [] ∧
    server w' = with_connections (connections_ (server w)) [] (server w)).
Proof.
  intros HI HS. unfold destroyRetired. apply wp_bind, wp_gets, wp_bind. pose proof (in_owners _ HI) as [O1 O2 O3].
  eapply wp_mono; [apply (destroy_all_spec (server w)); [apply HI|apply HI|done|]|].
  { intros a (c & Hc & _)%O2. by eexists. }
  intros [] w1 HF. pose proof (freed_inv _ _ HI HF) as HI'. destruct HF as [A1 A2 A3 A4 A5 A6 A7].
  apply wp_bind, wp_gets, wp_upd_server. rewrite A4. split; [|done]. split; [exact HI'| |done|done|].
  - intros a c. cbn. rewrite A3, delete_all_lookup. case_bool_decide; [done|]. apply HS.
  - unfold view at 2. cbn [server with_connections cachedNow_ store_ kern heap].
    rewrite A3, fmap_delete_all.
    rewrite (map_fmap_ext _ (view_client w)) by (intros a c _; apply view_client_same, A6).
    apply forget_all; [done|]. intros a (c & Hc & Hst)%O2. exists (view_client w c). by rewrite lookup_fmap, Hc.
Qed.

(** ** The timer *)

Lemma inv_lastSweep w t :
  inv w → 0 ≤ t ≤ k_clock (kern w) → inv (mkWorld (kern w) (heap w) (with_lastSweep t (server w))).
Proof.
  intros [F E O C N L S] Ht. split; cbn; try done.
  - by destruct F; split.
  - by destruct E; split.
  - by destruct O; split.
  - by destruct C; split.
Qed.

(** What the timer does to the store, at the time it reads. *)
Definition timer_ran w w' : Prop :=
  let t := cachedNow_ (server w') in
  (tickCount_ (loop_ (server w)) ≠ cachedTick_ (server w) → k_clock (kern w) ≤ t) ∧
  expireIntervalMs (server w') = expireIntervalMs (server w) ∧
  expireSampleBuckets (server w') = expireSampleBuckets (server w) ∧
  if expireIntervalMs (server w) <=? t - lastSweepMs_ (server w)
  then ∃ n, Sto.activeExpireCycle t (expireSampleBuckets (server w)) (store_ (server w)) = Ok (n, store_ (server w'))
  else store_ (server w') = store_ (server w).

Lemma tick_time_fresh w :
  tickCount_ (loop_ (server w)) ≠ cachedTick_ (server w) → k_clock (kern w) ≤ tick_time w.
Proof.
  intros Hne. unfold tick_time. rewrite (proj2 (Z.eqb_neq _ _)) by done.
  destruct (sys_steady (kern w)) as [ns k'] eqn:Hk. destruct (steady_law _ _ _ Hk) as [(_ & _ & _ & _ & Hl & _) ->]. exact Hl.
Qed.

(** The rest of [onTick] once it knows the time, as it stands there. *)
Abbreviation timer_end tNow :=
  (s ← gets server;
   elapsed ← lift (Cmds.int64 (tNow - lastSweepMs_ s));
   if expireIntervalMs s <=? elapsed then
     '(_, store) ← lift (Sto.activeExpireCycle tNow (expireSampleBuckets s) (store_ s));
     upd_server (with_store store);;
     upd_server (with_lastSweep tNow)
   else mret tt).

Lemma timer_end_spec w t :
  inv w → all_settled w → cachedNow_ (server w) = t → 500 ≤ t →
  wp (timer_end t) w (λ _ w', advances w w' ∧ ∃ st x, server w' = with_lastSweep x (with_store st (server w)) ∧
    if expireIntervalMs (server w) <=? t - lastSweepMs_ (server w)
    then ∃ n, Sto.activeExpireCycle t (expireSampleBuckets (server w)) (store_ (server w)) = Ok (n, st)
    else st = store_ (server w)).
Proof.
  intros HI HS Hcn Ht. apply wp_bind, wp_gets, wp_bind, wp_lift. pose proof (ck_sweep _ _ (in_clock _ HI)) as Hsw.
  pose proof (ck_past _ _ (in_clock _ HI)) as Hpast. pose proof (clock_range (kern w)) as Hcr.
  unfold Cmds.int64. rewrite (proj2 (Z.leb_le INT64_MIN _)), (proj2 (Z.leb_le _ INT64_MAX)) by (unfold INT64_MAX, INT64_MIN in *; lia).
  cbn [andb returns]. destruct (_ <=? _).
  2: { apply wp_ret. split; [by apply advances_refl|]. exists (store_ (server w)), (lastSweepMs_ (server w)). by destruct (server w). }
  pose proof (ck_limit _ _ (in_clock _ HI)) as Hlim.
  pose proof (expire_cycle_safe (store_ (server w)) t (expireSampleBuckets (server w)) (in_store _ HI) ltac:(lia) Hlim) as Hc.
  apply returns_inv in Hc as ([n st'] & E & HS' & Hrun). apply wp_bind, wp_lift. rewrite E.
  cbn [returns]. apply wp_bind, wp_upd_server, wp_upd_server. cbn [kern heap server]. split; [|by eauto].
  split; [|exact HS|done|apply later_refl|].
  - apply (inv_lastSweep (mkWorld (kern w) (heap w) (with_store st' (server w)))); [by apply inv_set_store|cbn; lia].
  - apply rtc_once. rewrite (view_split w). unfold view. cbn. rewrite Hcn. apply (nstep_expire _ _ _ (expireSampleBuckets (server w)) n); [lia|done|done].
Qed.

Lemma onTick_spec w :
  inv w → all_settled w → wp onTick w (λ _ w', advances w w' ∧ timer_ran w w' ∧
    cachedTick_ (server w') = tickCount_ (loop_ (server w')) ∧ retired_ (server w') = []).
Proof.
  intros HI HS. unfold onTick. apply wp_bind. eapply wp_mono; [by apply destroyRetired_spec|].
  intros [] w1 (H1 & Hr1 & Hs1). apply wp_bind. eapply wp_mono; [apply resumeAccepting_spec, H1|]. intros [] w2 H2.
  pose proof (shuffles_advances _ _ (ad_settled _ _ H1) H2) as H2'. pose proof (advances_trans _ _ _ H1 H2') as H02.
  apply wp_bind. eapply wp_mono; [apply server_now_spec, H2|].
  intros t w3 (HI3 & [Ht _] & Hle & Htt & Hh & (_ & _ & _ & Hsent & Hlat) & Hsv & Hcn & Hct).
  assert (∃ cs p r, server w2 = with_paused p (with_reserve r (with_connections cs [] (server w)))) as (cs & p & r & Hs2).
  { exists (connections_ (server w)), (acceptPaused_ (server w2)), (reserveFd_ (server w2)). rewrite <-Hs1. apply H2. }
  assert (tickCount_ (loop_ (server w)) ≠ cachedTick_ (server w) → k_clock (kern w) ≤ t) as Hfresh.
  { intros Hne. destruct (ad_later _ _ H02) as [Hl _]. etrans; [exact Hl|]. rewrite Htt. apply tick_time_fresh. by rewrite Hs2. }
  assert (advances w2 w3) as H3.
  { split; [done| |by rewrite Hsv|done|].
    - intros a x. rewrite Hh. apply (ad_settled _ _ H02).
    - apply rtc_once. rewrite (view_split w3), Hcn.
      assert (n_clients (view w3) = n_clients (view w2)) as ->.
      { cbn. rewrite Hh. apply map_fmap_ext. intros a x _. apply view_client_same, Hsent. }
      assert (store_ (server w3) = store_ (server w2)) as -> by (by rewrite Hsv). by apply nstep_clock. }
  eapply wp_mono; [apply timer_end_spec; [done|apply H3|done|done]|].
  intros [] w4 (H4 & st & x & Hs4 & Hrun). pose proof (advances_trans _ _ _ H02 (advances_trans _ _ _ H3 H4)) as H04.
  split; [exact H04|]. unfold timer_ran. rewrite Hs4. cbn. rewrite Hcn, Hct. rewrite Hsv, Hs2 in Hrun |- *. cbn in *.
  split; [|done]. split; [exact Hfresh|]. split; [done|]. split; [done|exact Hrun].
Qed.

(** ** Events *)

(** The handler an event points to is alive. *)
Definition points_to w (x : handler) : Prop := match x with HAcceptor => True | HConn a => is_Some (heap w !! a) end.

Lemma points_live w w' x : live_on w w' → points_to w x → points_to w' x.
Proof. destruct x as [|a]; [done|]. intros H. apply H. Qed.

Lemma handled_advances a w w' c c' :
  all_settled w → heap w !! a = Some c → handled a w w' c c' → rtc nstep (view w) (view w') →
  advances w w' ∧ live_on w w'.
Proof.
  intros HS Hc (HI & (Hk & Hs & Hl & Ht) & Hc' & Hset & _) Hv. split; [split; [done| |done|done|done]|].
  - intros b x Hx. destruct (decide (b = a)) as [->|]; [by assert (x = c') as -> by congruence|].
    rewrite Hk in Hx by done. by eapply HS.
  - intros b Hb. destruct (decide (b = a)) as [->|]; [done|]. by rewrite Hk.
Qed.

Lemma readable_spec w x :
  inv w → all_settled w → points_to w x →
  wp (match x with HAcceptor => acceptor_onReadable | HConn a => Conn.onReadable a end) w
    (λ _ w', advances w w' ∧ live_on w w').
Proof.
  intros HI HS Hx. destruct x as [|a].
  { eapply wp_mono; [by apply acceptPending_spec|]. intros [] w' [H HG]. split; [done|by apply grows_live]. }
  destruct Hx as [c Hc]. eapply wp_mono; [apply (onReadable_spec _ _ _ HI Hc); by eapply HS|]. intros [] w' (c' & HH & HR).
  eapply handled_advances; [done..|]. by eapply view_read.
Qed.

Lemma writable_spec w x :
  inv w → all_settled w → points_to w x →
  wp (match x with HAcceptor => acceptor_onWritable | HConn a => Conn.onWritable a end : M K P unit) w
    (λ _ w', advances w w' ∧ live_on w w').
Proof.
  intros HI HS Hx. destruct x as [|a]; [by apply wp_ret; split; [apply advances_refl|apply live_refl]|].
  destruct Hx as [c Hc]. eapply wp_mono; [apply (onWritable_spec _ _ _ HI Hc); by eapply HS|].
  intros [] w' (c' & HH & Hq & Hin & Hh & Ho & Hst). eapply handled_advances; [done..|].
  eapply view_quiet; [done..|]. destruct Hst; [left|by right]. split; [done|]. by rewrite Hin.
Qed.

Lemma advances_stay w : inv w → all_settled w → advances w w ∧ live_on w w.
Proof. intros HI HS. split; [by apply advances_refl|by apply live_refl]. Qed.

Lemma dispatchEvent_spec w ev :
  inv w → all_settled w → points_to w (ev_ptr ev) →
  wp (dispatchEvent ev) w (λ _ w', advances w w' ∧ live_on w w').
Proof.
  intros HI HS Hp. unfold dispatchEvent. apply wp_bind.
  apply (wp_mono _ _ (λ _ w', advances w w' ∧ live_on w w')).
  { destruct (negb _); [by apply readable_spec|by apply wp_ret, advances_stay]. }
  intros [] w1 [H1 L1]. apply (wp_mono _ _ (λ _ w', advances w1 w' ∧ live_on w1 w')).
  { destruct (negb _); [|by apply wp_ret, advances_stay; apply H1].
    apply writable_spec; [apply H1|apply H1|by eapply points_live]. }
  intros [] w2 [H2 L2]. split; [by eapply advances_trans|by eapply live_trans].
Qed.

Lemma dispatchEvents_spec evs w :
  inv w → all_settled w → (∀ ev, ev ∈ evs → points_to w (ev_ptr ev)) →
  wp (dispatchEvents evs) w (λ _ w', advances w w').
Proof.
  revert w. induction evs as [|ev evs IH]; intros w HI HS Hp; cbn [dispatchEvents].
  - by apply wp_ret, advances_refl.
  - apply wp_bind. eapply wp_mono; [apply dispatchEvent_spec; [done|done|apply Hp; set_solver]|].
    intros [] w1 [H1 L1]. eapply wp_mono; [apply IH; [apply H1|apply H1|]|].
    + intros x Hx. eapply points_live; [exact L1|]. apply Hp. set_solver.
    + intros [] w2 H2. by eapply advances_trans.
Qed.

(** ** Rounds *)

(** Between rounds: the cached time is that of the last tick, or none was taken. *)
Definition ticked (s : Server P) : Prop :=
  0 ≤ tickCount_ (loop_ s) < 2 ^ 64 ∧
  (cachedTick_ s = tickCount_ (loop_ s) ∨ (tickCount_ (loop_ s) = 0 ∧ cachedTick_ s = 2 ^ 64 - 1)).

(** A state the loop may be in between two waits. *)
Record resting w : Prop := {
  re_inv : inv w;
  re_settled : all_settled w;
  re_ticked : ticked (server w);
}.

Lemma inv_loop w (x : EventLoop) :
  inv w → epollFd_ x = epollFd_ (loop_ (server w)) →
  (cachedTick_ (server w) = tickCount_ x → 500 ≤ cachedNow_ (server w)) →
  inv (mkWorld (kern w) (heap w) (with_loop x (server w))).
Proof.
  intros [F E O C N L S] He Hc. split; cbn; try done.
  - destruct F. split; cbn; rewrite ?He; done.
  - by destruct E; split.
  - by destruct O; split.
  - by destruct C; split.
Qed.

Lemma resting_stop w b :
  resting w → resting (mkWorld (kern w) (heap w) (set_stop b (server w))).
Proof.
  intros [HI HS HT]. split; [|done|done]. apply inv_loop; [done|done|]. apply (ck_cached _ _ (in_clock _ HI)).
Qed.

Lemma next_tick_fresh s : ticked s → cachedTick_ s ≠ u64 (tickCount_ (loop_ s) + 1).
Proof.
  intros [Hr Hc] E. unfold u64 in E. destruct Hc as [Hc|[Ht Hc]].
  - rewrite Hc in E. destruct (decide (tickCount_ (loop_ s) = 2 ^ 64 - 1)) as [Em|]; [by rewrite Em in E|].
    rewrite Z.mod_small in E by lia. lia.
  - by rewrite Ht, Hc in E.
Qed.

(** Counting a tick makes the cached time stale. *)
Lemma inv_tick w :
  inv w → ticked (server w) → inv (mkWorld (kern w) (heap w) (count_tick (server w))).
Proof. intros HI HT. apply inv_loop; [done|done|]. cbn. intros E. by apply next_tick_fresh in HT. Qed.

Lemma wait_points t w r b k' evs :
  inv w → sys_epoll_wait t (kern w) = (r, b, k') → r = inl evs → ∀ ev, ev ∈ evs → points_to w (ev_ptr ev).
Proof.
  intros HI Hk -> ev Hev. destruct (wait_law _ _ _ _ _ Hk) as [_ Hw].
  destruct (Hw _ eq_refl) as [_ Hin]. destruct (Hin _ Hev) as (fd & ev0 & Hi & ->).
  pose proof (in_epoll _ HI) as [E1 E2 E3]. destruct (E3 _ _ Hi) as [->|(a & c & Hc & <-)].
  - rewrite E1 in Hi. by injection Hi as <-.
  - rewrite (E2 _ _ Hc) in Hi. injection Hi as <-. cbn. by eexists.
Qed.

Definition rests w w' : Prop :=
  resting w' ∧ later (kern w) (kern w') ∧ rtc nstep (view w) (view w').

Lemma rests_trans w1 w2 w3 : rests w1 w2 → rests w2 w3 → rests w1 w3.
Proof. intros (_ & L1 & V1) (R2 & L2 & V2). split; [done|]. split; [by eapply later_trans|by etrans]. Qed.

Lemma rests_stop w b : resting w → rests w (mkWorld (kern w) (heap w) (set_stop b (server w))).
Proof. intros HR. split; [by apply resting_stop|]. split; [apply later_refl|apply rtc_refl]. Qed.

Lemma rests_idle w k' : resting w → idle_step (kern w) k' → rests w (mkWorld k' (heap w) (server w)).
Proof.
  intros [HI HS HT] Hid. pose proof (shuffles_idle _ _ HI Hid) as H.
  destruct (shuffles_advances _ _ HS H) as [A1 A2 A3 A4 A5]. by split.
Qed.

(** One tick: the events, then the timer. *)
Lemma tick_spec w evs :
  resting w → (∀ ev, ev ∈ evs → points_to w (ev_ptr ev)) →
  wp (upd_server count_tick;; dispatchEvents evs;; onTick;; mret None : M K P (option Exit)) w
    (λ e w', e = None ∧ rests w w' ∧ stopRequested_ (loop_ (server w')) = stopRequested_ (loop_ (server w))).
Proof.
  intros [HI HS HT] Hp. apply wp_bind, wp_upd_server. pose proof (inv_tick _ HI HT) as HI1.
  set (w1 := mkWorld _ _ _) in *. assert (tickCount_ (loop_ (server w1)) = u64 (tickCount_ (loop_ (server w)) + 1)) as Ht1 by done.
  apply wp_bind. eapply wp_mono; [by apply dispatchEvents_spec|]. intros [] w2 H2.
  apply wp_bind. eapply wp_mono; [apply onTick_spec; apply H2|]. intros [] w3 (H3 & _ & Hct & _). apply wp_ret.
  pose proof (advances_trans _ _ _ H2 H3) as H. split; [done|]. split; [|by rewrite (ad_loop _ _ H)].
  split; [|split; [apply H|apply H]]. split; [apply H|apply H|]. split; [|by left]. rewrite (ad_loop _ _ H), Ht1. unfold u64. apply Z.mod_pos_bound. lia.
Qed.

Lemma loop_round_spec w : resting w → wp loop_round w (λ _ w', rests w w').
Proof.
  intros HR. unfold loop_round. apply wp_bind, wp_gets.
  destruct (stopRequested_ (loop_ (server w))).
  { apply wp_ret. split; [done|]. split; [apply later_refl|apply rtc_refl]. }
  apply wp_bind, wp_syscall. intros [r sig] k'. destruct (sys_epoll_wait _ _) as [[r' b'] k''] eqn:Hk. intros [= -> -> ->].
  pose proof (wait_law _ _ _ _ _ Hk) as [Hid _]. pose proof (rests_idle _ _ HR Hid) as H1.
  apply wp_bind. apply (wp_mono _ _ (λ _ w2, rests w w2 ∧ heap w2 = heap w)).
  { destruct sig; [apply wp_upd_server|by apply wp_ret]. split; [|done].
    eapply rests_trans; [exact H1|]. apply (rests_stop (mkWorld k' (heap w) (server w)) true), H1. }
  intros [] w2 [H2 Hh]. destruct r as [evs|e]; [|by case_bool_decide; apply wp_ret].
  eapply wp_mono; [apply tick_spec; [apply H2|]|].
  - intros ev Hev. pose proof (wait_points _ _ _ _ _ _ (re_inv _ HR) Hk eq_refl _ Hev) as Hp.
    unfold points_to in *. by rewrite Hh.
  - intros e w3 (_ & H3 & _). by eapply rests_trans.
Qed.

Lemma loop_run_spec n w : resting w → wp (loop_run n) w (λ _ w', rests w w').
Proof.
  revert w. induction n as [|n IH]; intros w HR; cbn [loop_run].
  { apply wp_ret. split; [done|]. split; [apply later_refl|apply rtc_refl]. }
  apply wp_bind. eapply wp_mono; [by apply loop_round_spec|]. intros [e|] w1 H1.
  - apply wp_bind, wp_upd_server, wp_ret. eapply rests_trans; [exact H1|]. apply rests_stop, H1.
  - eapply wp_mono; [by apply IH, H1|]. intros r w2 H2. by eapply rests_trans.
Qed.

Lemma run_spec n w : resting w → wp (run n) w (λ _ w', rests w w').
Proof.
  intros HR. unfold run. apply wp_bind. eapply wp_mono; [by apply loop_run_spec|]. intros e w1 H1.
  assert (wp (mret e : M K P (option Exit)) w1 (λ _ w', rests w w')) as Hret by (by apply wp_ret).
  destruct e as [[|err]|]; [|exact Hret..].
  apply wp_bind. eapply wp_mono; [apply destroyRetired_spec; apply H1|]. intros [] w2 (H2 & _ & Hs2). apply wp_ret.
  eapply rests_trans; [exact H1|]. split; [|split; apply H2]. split; [apply H2|apply H2|]. rewrite Hs2. apply H1.
Qed.

(** ** Shutdown *)

(** Once the reserve is closed nobody owns it. *)
Lemma release_reserve w :
  inv w →
  wp (destroyFd (reserveFd_ (server w))) w (λ _ w', heap w' = heap w ∧ server w' = server w ∧
    fds_ok (kern w') (heap w') (with_reserve (-1) (server w)) ∧
    epoll_ok (kern w') (heap w') (with_reserve (-1) (server w))).
Proof.
  intros HI. unfold destroyFd, UniqueFd.destroy. apply wp_syscall. intros [] k'.
  destruct (Z.eqb_spec (reserveFd_ (server w)) (-1)) as [Hr|Hr]; intros [= <-]; cbn [heap kern].
  - split; [done|]. split; [done|]. rewrite <-Hr. destruct (in_fds _ HI), (in_epoll _ HI). by split; split.
  - destruct (drop_reserve _ HI Hr) as [HI' _ _ _ _]. split; [done|]. split; [done|]. split; apply HI'.
Qed.

(** The last two descriptors. *)
Lemma release_loop w :
  fds_ok (kern w) ∅ (with_reserve (-1) (server w)) → epoll_ok (kern w) ∅ (with_reserve (-1) (server w)) →
  wp (destroy_acceptor;; destroy_loop) w
    (λ _ w', heap w' = heap w ∧ server w' = server w ∧ k_open (kern w') = ∅ ∧ k_interest (kern w') = ∅).
Proof.
  intros [F1 F2 F3 (F4 & _) F5 F6 F7] [E1 E2 E3]. cbn in *.
  unfold destroy_acceptor, destroy_loop, destroyFd, UniqueFd.destroy, loop_remove.
  apply wp_bind, wp_bind, wp_gets, wp_bind, wp_bind, wp_syscall.
  intros r k1 Hk. destruct (del_law _ _ _ _ Hk) as [-> (I1 & I2 & I3 & I4 & I5)];
    [apply F7; by right; left|by rewrite E1; eexists|].
  apply wp_ret, wp_syscall. cbn [kern heap server].
  destruct (Z.eqb_spec (acceptor_fd (server w)) (-1)) as [|_]; [lia|]. intros [] k2 [= <-].
  destruct (close_law (acceptor_fd (server w)) k1) as (J1 & J2 & J3 & J4 & J5); [rewrite I1; apply F7; by right; left|].
  apply wp_bind, wp_gets, wp_syscall. cbn [kern heap server].
  destruct (Z.eqb_spec (epollFd_ (loop_ (server w))) (-1)) as [|_]; [lia|]. intros [] k3 [= <-].
  destruct (close_law (epollFd_ (loop_ (server w))) (sys_close (acceptor_fd (server w)) k1)) as (L1 & L2 & L3 & L4 & L5).
  { rewrite J1, I1. apply elem_of_difference. split; [apply F7; by left|]. by rewrite elem_of_singleton. }
  cbn. split; [done|]. split; [done|]. split.
  - rewrite L1, J1, I1. apply elem_of_equiv_empty_L. intros fd.
    rewrite !elem_of_difference, !elem_of_singleton, F7. intros [[[?|[?|[[? ?]|(a & c & Hc & _)]]] ?] ?]; by congruence || set_solver.
  - rewrite L3, J3, I3. apply map_eq. intros fd. rewrite lookup_empty. apply eq_None_not_Some. intros [ev Hev].
    apply lookup_delete_Some in Hev as [_ [Hne Hev]%lookup_delete_Some]. rewrite lookup_partial_alter_ne in Hev by done.
    by destruct (E3 _ _ Hev) as [->|(a & c & ? & _)].
Qed.

(** No entry, no spill block, nothing taken from the pool. *)
Definition emptied (st : Sto.Store P) : Prop :=
  let t := Sto.table_ st in Tbl.mem t = ∅ ∧ Tbl.blocks t = ∅ ∧ pool_live (Tbl.pool_ t) = ∅.

Lemma release_store (st : Sto.Store P) : CmdProps.sound_store st → returns (Sto.destroy st) emptied.
Proof.
  intros (M & (bs & G & HI) & _). unfold Sto.destroy, Tbl.destroy.
  eapply returns_bind; [apply (TblWalk.clear_spec _ bs G), (TblInv.ti_core _ _ _ (StoInv.si_table _ _ _ _ HI))|].
  intros t (HT & Hm & Hb & _). cbn. unfold emptied. cbn. split; [done|]. split; [done|].
  by rewrite (TblInv.ti_pool _ _ _ (TblInv.ti_core _ _ _ HT)), Hm, dom_empty_L.
Qed.

Lemma live_nodup w : inv w → NoDup (map_to_list (connections_ (server w))).*2.
Proof.
  intros HI. apply NoDup_fmap_2_strong; [|apply NoDup_map_to_list].
  intros [f1 a1] [f2 a2] H1%elem_of_map_to_list H2%elem_of_map_to_list E. cbn in *. subst a2.
  apply (oo_live _ _ (in_owners _ HI)) in H1 as (c1 & Hc1 & <- & _), H2 as (c2 & Hc2 & <- & _).
  by assert (c1 = c2) as -> by congruence.
Qed.

Lemma live_elem w a :
  inv w → a ∈ (map_to_list (connections_ (server w))).*2 ↔ ∃ c, heap w !! a = Some c ∧ state_ c ≠ kClosed.
Proof.
  intros HI. rewrite list_elem_of_fmap. split.
  - intros ([fd b] & -> & H%elem_of_map_to_list). apply (oo_live _ _ (in_owners _ HI)) in H as (c & Hc & _ & ?). by exists c.
  - intros (c & Hc & Hst). exists (fd_ c, a). split; [done|]. apply elem_of_map_to_list, (oo_live _ _ (in_owners _ HI)). by exists c.
Qed.

Lemma bind_assoc {A} (m1 m2 : M K P unit) (m : M K P A) w Q : wp ((m1;; m2);; m) w Q → wp (m1;; m2;; m) w Q.
Proof. unfold wp, mbind, M_bind. by destruct (m1 w) as [[[] w1]|]. Qed.

Lemma destroy_server_spec w :
  inv w → wp destroy_server w (λ _ w',
    k_open (kern w') = ∅ ∧ k_interest (kern w') = ∅ ∧ heap w' = ∅ ∧ emptied (store_ (server w'))).
Proof.
  intros HI. unfold destroy_server. apply wp_bind, wp_gets, wp_bind. pose proof (in_owners _ HI) as [O1 O2 O3].
  eapply wp_mono; [by apply release_reserve|]. intros [] w1 (Hh1 & Hs1 & F1 & E1). apply wp_bind.
  eapply wp_mono; [apply (destroy_all_spec _ _ _ F1 E1 O3)|].
  { intros a (c & Hc & _)%O2. rewrite Hh1. by eexists. }
  intros [] w2 [A1 A2 A3 A4 A5 A6 A7]. apply wp_bind.
  eapply wp_mono; [apply (destroy_all_spec _ _ _ A1 A2 (live_nodup _ HI))|].
  { intros a (c & Hc & Hst)%live_elem; [|done]. rewrite A3, delete_all_lookup, bool_decide_false, Hh1; [by eexists|].
    intros (x & Hx & ?)%O2. congruence. }
  intros [] w3 [B1 B2 B3 B4 B5 B6 B7].
  assert (heap w3 = ∅) as Hh3.
  { apply map_eq. intros a. rewrite B3, delete_all_lookup, A3, delete_all_lookup, Hh1, lookup_empty.
    case_bool_decide as Ha; [done|]. case_bool_decide as Hb; [done|].
    apply eq_None_not_Some. intros [c Hc]. assert (state_ c = kClosed ∨ state_ c ≠ kClosed) as [Hst|Hst] by (destruct (state_ c); auto).
    - apply Hb, O2. by exists c.
    - apply Ha, live_elem; [done|]. by exists c. }
  assert (server w3 = server w) as Hs3 by congruence. rewrite Hh3, <-Hs3 in B1, B2. apply bind_assoc, wp_bind.
  eapply wp_mono; [by apply release_loop|]. intros [] w4 (Hh4 & _ & Ho & Hi). apply wp_bind, wp_lift.
  eapply returns_mono; [apply release_store, HI|]. intros st Hst. apply wp_upd_server. cbn. by rewrite Hh4.
Qed.

(** ** Construction *)

(** Nothing but time separates [k'] from [k], before anything is watched. *)
Definition tidy k k' : Prop := k_open k' = k_open k ∧ k_interest k' = ∅ ∧ later k k'.

(** One descriptor more. *)
Definition holds (fd : Z) k k' : Prop :=
  0 ≤ fd ∧ (fd ∉ k_open k) ∧ k_open k' = {[fd]} ∪ k_open k ∧ k_interest k' = ∅ ∧ later k k'.

Lemma tidy_idle k k1 k2 : tidy k k1 → idle_step k1 k2 → tidy k k2.
Proof.
  intros (H1 & H2 & H3) (I1 & _ & I3 & _ & I5). split; [congruence|]. split; [congruence|by eapply later_trans].
Qed.

Lemma tidy_opens fd k k1 k2 : tidy k k1 → opens fd k1 k2 → holds fd k k2.
Proof.
  intros (H1 & H2 & H3) (I1 & I2 & I3 & _ & I5 & _ & _ & I8). rewrite H1 in *.
  split; [done|]. split; [done|]. split; [done|]. split; [congruence|by eapply later_trans].
Qed.

Lemma holds_idle fd k k1 k2 : holds fd k k1 → idle_step k1 k2 → holds fd k k2.
Proof.
  intros (H1 & H2 & H3 & H4 & H5) (I1 & _ & I3 & _ & I5).
  split; [done|]. split; [done|]. split; [congruence|]. split; [congruence|by eapply later_trans].
Qed.

Lemma holds_destroy fd k k1 : holds fd k k1 → tidy k (UniqueFd.destroy fd k1).
Proof.
  intros (H1 & H2 & H3 & H4 & H5). unfold UniqueFd.destroy. destruct (Z.eqb_spec fd (-1)) as [|_]; [lia|].
  destruct (close_law fd k1) as (I1 & _ & I3 & _ & I5); [rewrite H3; set_solver|].
  split; [rewrite I1, H3; set_solver|]. split; [by rewrite I3, H4, delete_empty|by eapply later_trans].
Qed.

Lemma openListener_spec cfg k0 k r k' :
  tidy k0 k → openListener cfg k = (r, k') →
  match r with inl fd => holds fd k0 k' ∧ fd ∈ k_listening k' | inr _ => tidy k0 k' end.
Proof.
  intros H0. unfold openListener. destruct (inet_pton _) as [sa|]; [|by intros [= <- <-]].
  destruct (sys_socket k) as [[fd|e] k1] eqn:E1; pose proof (socket_law _ _ _ E1) as L1.
  2: { intros [= <- <-]. by eapply tidy_idle. }
  pose proof (tidy_opens _ _ _ _ H0 L1) as H1.
  destruct (sys_reuseaddr fd k1) as [[e|] k2] eqn:E2; pose proof (holds_idle _ _ _ _ H1 (reuseaddr_law _ _ _ _ E2)) as H2.
  { intros [= <- <-]. by apply holds_destroy. }
  destruct (sys_bind fd sa (port cfg) k2) as [[e|] k3] eqn:E3; pose proof (holds_idle _ _ _ _ H2 (bind_law _ _ _ _ _ _ E3)) as H3.
  { intros [= <- <-]. by apply holds_destroy. }
  pose proof H3 as (_ & _ & Ho & _). destruct (sys_listen fd (backlog cfg) k3) as [r4 k4] eqn:E4.
  pose proof (listen_law _ _ _ _ _ E4) as L4. destruct r4 as [e|]; intros [= <- <-].
  { apply holds_destroy. eapply holds_idle; [exact H3|]. apply L4. rewrite Ho. set_solver. }
  destruct L4 as (I1 & I2 & I3 & I4 & I5); [rewrite Ho; set_solver|]. destruct H3 as (J1 & J2 & J3 & J4 & J5).
  split; [|rewrite I2; set_solver]. split; [done|]. split; [done|]. split; [congruence|]. split; [congruence|by eapply later_trans].
Qed.

Lemma make_acceptor_spec cfg k0 k r k' :
  tidy k0 k → make_acceptor cfg k = (r, k') →
  match r with
  | inl fd => 0 ≤ fd ∧ (fd ∉ k_open k0) ∧ k_open k' = {[fd]} ∪ k_open k0 ∧ fd ∈ k_listening k' ∧
              k_interest k' = {[fd := mkEvent EPOLLIN HAcceptor]} ∧ later k0 k'
  | inr _ => tidy k0 k'
  end.
Proof.
  intros H0. unfold make_acceptor. destruct (openListener cfg k) as [rl k2] eqn:E2.
  pose proof (openListener_spec _ _ _ _ _ H0 E2) as L2. destruct rl as [fd|e]. 2: { by intros [= <- <-]. }
  destruct L2 as [H2 Hlis]. destruct (sys_epoll_add _ _ _) as [ra k3] eqn:E3. pose proof (add_law _ _ _ _ _ E3) as L3.
  destruct ra as [e|]; intros [= <- <-].
  { apply holds_destroy. by eapply holds_idle. }
  destruct L3 as (A1 & A2 & A3 & _ & A5). destruct H2 as (P2 & N2 & O2 & I2 & T2).
  split; [done|]. split; [done|]. split; [congruence|]. split; [by rewrite A2|]. split; [|by eapply later_trans].
  rewrite A3, I2. apply map_eq. intros x. destruct (decide (fd = x)) as [<-|].
  - by rewrite lookup_partial_alter_eq, lookup_singleton_eq.
  - by rewrite lookup_partial_alter_ne, lookup_singleton_ne.
Qed.

Lemma make_loop_spec k0 k r k' :
  tidy k0 k → make_loop k = (r, k') →
  match r with inl x => ∃ fd, x = mkLoop fd 0 false ∧ holds fd k0 k' | inr _ => tidy k0 k' end.
Proof.
  intros H0. unfold make_loop. destruct (sys_epoll_create k) as [[fd|e] k1] eqn:E; pose proof (epoll_create_law _ _ _ E) as L.
  - pose proof (tidy_opens _ _ _ _ H0 L) as H. pose proof H as (Hp & _). unfold UniqueFd.reset.
    destruct (Z.eqb_spec fd (-1)) as [|_]; [lia|]. intros [= <- <-]. by exists fd.
  - intros [= <- <-]. by eapply tidy_idle.
Qed.

(** What a server may be started with. *)
Record can_start (cfg : Config) (st : Sto.Store P) k : Prop := {
  cs_open : k_open k = ∅;
  cs_interest : k_interest k = ∅;
  cs_clock : 500 ≤ k_clock k;
  cs_bytes : k_bytes k * CmdProps.kMaxReply ≤ Buf.kMaxContent;
  cs_limit : 1 ≤ cfg_expireSampleBuckets cfg ≤ 2 ^ 58;
  cs_store : CmdProps.sound_store st;
}.

(** The state before the first round. *)
Lemma built_resting cfg st k0 k epfd fd reserve :
  can_start cfg st k0 → later k0 k → 0 ≤ epfd → 0 ≤ fd → -1 ≤ reserve → epfd ≠ fd → epfd ≠ reserve → fd ≠ reserve →
  (∀ x, x ∈ k_open k ↔ x = epfd ∨ x = fd ∨ (x = reserve ∧ x ≠ -1)) →
  fd ∈ k_listening k → k_interest k = {[fd := mkEvent EPOLLIN HAcceptor]} →
  resting (mkWorld k ∅ (mkServer (cfg_expireIntervalMs cfg) (cfg_expireSampleBuckets cfg) st
                          (mkLoop epfd 0 false) fd ∅ [] 0 0 (2 ^ 64 - 1) reserve false)).
Proof.
  intros [C1 C2 C3 C4 C5 C6] (L1 & L2 & L3) H1 H2 H3 D1 D2 D3 Ho Hl Hi.
  assert (∀ (a : addr) (c : Connection), (∅ : gmap addr Connection) !! a = Some c → False) as Hno
    by (intros a c; by rewrite lookup_empty).
  pose proof (clock_range k). pose proof (bytes_range k).
  split; [split; cbn|by intros a c ?%Hno|split; [cbn; lia|by right]]; try done.
  - split; cbn; try done. intros x. rewrite Ho. naive_solver.
  - split; cbn; rewrite Hi; [by rewrite lookup_singleton_eq|by intros a c ?%Hno|].
    intros x ev [-> _]%lookup_singleton_Some. by left.
  - split; cbn; [|intros a; split; [by intros ?%not_elem_of_nil|by intros (c & ?%Hno & _)]|by apply NoDup_nil].
    intros x a. rewrite lookup_empty. split; [done|]. by intros (c & ?%Hno & _).
  - split; cbn; try lia; try done. unfold CmdProps.kMaxReply in *. lia.
Qed.

(** Construction leads to a state the loop can run from, or throws and leaves
    no descriptor open. *)
Lemma construct_spec cfg st k r k' :
  can_start cfg st k → construct cfg st k = (r, k') →
  match r with
  | inl w => kern w = k' ∧ resting w ∧ view w = mkNet 0 st ∅
  | inr _ => k_open k' = ∅
  end.
Proof.
  intros HC. unfold construct. pose proof HC as [C1 C2 C3 C4 C5 C6].
  assert (tidy k k) as H0 by (split; [done|]; split; [done|apply later_refl]).
  destruct (make_loop k) as [[loop|e] k1] eqn:E1; pose proof (make_loop_spec _ _ _ _ H0 E1) as L1.
  2: { intros [= <- <-]. destruct L1 as [-> _]. done. }
  destruct L1 as (epfd & -> & H1). pose proof H1 as (P1 & _ & O1 & I1 & T1). cbn [epollFd_].
  destruct (make_acceptor cfg k1) as [[fd|e] k3] eqn:E2;
    assert (tidy k1 k1) as H01 by (split; [done|]; split; [done|apply later_refl]);
    pose proof (make_acceptor_spec _ _ _ _ _ H01 E2) as L2.
  2: { intros [= <- <-]. destruct L2 as (O3 & I3 & T3), H1 as (H1 & H1' & H1'' & _).
    assert (holds epfd k k3) as H3.
    { split; [done|]. split; [done|]. split; [congruence|]. split; [done|by eapply later_trans]. }
    destruct (holds_destroy _ _ _ H3) as [-> _]. done. }
  destruct L2 as (P2 & N2 & O2 & Hlis & Hi3 & T2).
  destruct (sys_open_null k3) as [rn k4] eqn:E4. pose proof (open_null_law _ _ _ E4) as L4.
  intros [= <- <-]. split; [done|]. split; [|done].
  assert (∀ x, x ∈ k_open k3 ↔ x = epfd ∨ x = fd) as Ho3 by (intros x; rewrite O2, O1, C1; set_solver).
  assert (epfd ≠ fd) as Hne by (intros <-; apply N2; rewrite O1; set_solver).
  assert (later k k3) as T3 by (by eapply later_trans).
  destruct rn as [rfd|].
  - destruct L4 as (B1 & B2 & B3 & B4 & B5 & _ & _ & B8).
    assert (∀ x, x ∈ k_open k3 → x ≠ rfd) as Hr by (by intros x Hx ->).
    apply built_resting with k; try done; [by eapply later_trans|lia|apply Hr, Ho3; by left|apply Hr, Ho3; by right| | |].
    + intros x. rewrite B3, elem_of_union, elem_of_singleton, Ho3. split; [intros [->|[?|?]]; auto|].
      * do 2 right. split; [done|lia].
      * naive_solver.
    + by rewrite B4.
    + by rewrite B5.
  - destruct L4 as (B1 & B2 & B3 & B4 & B5).
    apply built_resting with k; try done; [by eapply later_trans|lia|lia| | |].
    + intros x. rewrite B1, Ho3. naive_solver.
    + by rewrite B2.
    + by rewrite B3.
Qed.

End facts.
End ServerFacts.
