(* ===== verification/Loopback.v ===== *)
(** * A kernel to run the server on

    An executable instance of [Kernel]: clients queue up, each with the chunks it
    will send; a few bytes can be written between two waits; when nothing is left to
    report a wait times out, some times, and then a signal arrives.  It has the documented behaviour, so the laws can hold, and
    whole runs of the server can be evaluated on it. *)

From Stdlib Require Import ZArith Lia Strings.Byte Strings.String.
From stdpp Require Import base gmap numbers list fin_maps.
From S2P Require Import Prelude Entry Kernel.

Local Open Scope Z_scope.

Module Loopback.

Record Sim := mkSim {
  s_open : gset Z;
  s_listening : gset Z;
  s_interest : gmap Z epoll_event;
  s_clock : Z;
  s_io : gmap Z (bytes * bytes);
  s_queue : list (list bytes);
  s_chunks : gmap Z (list bytes);
  s_bytes : nat;
  s_credit : nat;
  s_stderr : bytes;
  s_idle : nat;
}.

Definition io (k : Sim) (fd : Z) : bytes * bytes := default ([], []) (s_io k !! fd).

Definition set_clock (t : Z) (k : Sim) : Sim :=
  mkSim (s_open k) (s_listening k) (s_interest k) t (s_io k) (s_queue k) (s_chunks k) (s_bytes k) (s_credit k) (s_stderr k) (s_idle k).

(** A number that is not open. *)
Definition new_fd (k : Sim) : Z := Z.of_N (fresh (set_map Z.to_N (s_open k) : gset N)).

(** A new descriptor, with what will come in on it. *)
Definition open_fd (fd : Z) (chunks : list bytes) (queue : list (list bytes)) (k : Sim) : Sim :=
  mkSim ({[fd]} ∪ s_open k) (s_listening k ∩ s_open k) (s_interest k) (s_clock k) (delete fd (s_io k)) queue
    (<[fd := chunks]> (s_chunks k)) (s_bytes k) (s_credit k) (s_stderr k) (s_idle k).

Definition open_plain (k : Sim) : Z * Sim := let fd := new_fd k in (fd, open_fd fd [] (s_queue k) k).

Definition read (fd n : Z) (k : Sim) : (bytes + errno) * Sim :=
  if n <? 0 then (inr EINVAL, k)
  else
    match s_chunks k !! fd with
    | Some (x :: xs) =>
        let m := Nat.min (Z.to_nat n) (s_bytes k) in
        let bs := take m x in
        let rest := drop m x in
        (inl bs, mkSim (s_open k) (s_listening k) (s_interest k) (s_clock k)
                   (<[fd := ((io k fd).1 ++ bs, (io k fd).2)]> (s_io k)) (s_queue k)
                   (<[fd := if rest is [] then xs else rest :: xs]> (s_chunks k)) (s_bytes k - length bs) (s_credit k) (s_stderr k) (s_idle k))
    | _ => (inr EAGAIN, k)
    end.

(** Writes take bytes until the credit of this round is used up. *)
Definition write (fd : Z) (s : bytes) (k : Sim) : (Z + errno) * Sim :=
  let n := Nat.min (s_credit k) (length s) in
  if (0 <? n)%nat then
    (inl (Z.of_nat n), mkSim (s_open k) (s_listening k) (s_interest k) (s_clock k)
       (<[fd := ((io k fd).1, (io k fd).2 ++ take n s)]> (s_io k)) (s_queue k) (s_chunks k) (s_bytes k)
       (s_credit k - n) (s_stderr k) (s_idle k))
  else (inr EAGAIN, k).

Definition close (fd : Z) (k : Sim) : Sim :=
  mkSim (s_open k ∖ {[fd]}) (s_listening k ∖ {[fd]}) (delete fd (s_interest k)) (s_clock k) (s_io k) (s_queue k)
    (s_chunks k) (s_bytes k) (s_credit k) (s_stderr k) (s_idle k).

Definition watch (fd : Z) (x : option epoll_event) (k : Sim) : Sim :=
  mkSim (s_open k) (s_listening k) (partial_alter (λ _, x) fd (s_interest k)) (s_clock k) (s_io k) (s_queue k)
    (s_chunks k) (s_bytes k) (s_credit k) (s_stderr k) (s_idle k).

(** What is ready on [fd], among what is watched. *)
Definition ready (k : Sim) (fd : Z) (ev : epoll_event) : Z :=
  let input :=
    match ev_ptr ev with
    | HAcceptor => if s_queue k is [] then 0 else EPOLLIN
    | HConn _ => if s_chunks k !! fd is Some (_ :: _) then EPOLLIN else 0
    end in
  Z.land (ev_events ev) (Z.lor input EPOLLOUT).

Definition report (k : Sim) (x : Z * epoll_event) : list epoll_event :=
  let m := ready k x.1 x.2 in
  if m =? 0 then [] else [mkEvent m (ev_ptr x.2)].

(** Bytes that can be written between two waits. *)
Definition kCredit : nat := 7.

Definition wait (t : Z) (k : Sim) : (list epoll_event + errno) * bool * Sim :=
  let evs := take (Z.to_nat kMaxEvents) (mjoin (report k <$> map_to_list (s_interest k))) in
  let clock := if evs is [] then s_clock k + Z.max 0 t * 1000000 else s_clock k in
  let idle := if evs is [] then pred (s_idle k) else s_idle k in
  (inl evs, if evs is [] then (s_idle k =? 0)%nat else false,
   mkSim (s_open k) (s_listening k) (s_interest k) clock (s_io k) (s_queue k) (s_chunks k) (s_bytes k) kCredit
     (s_stderr k) idle).

Definition accept4 (k : Sim) : (Z + errno) * Sim :=
  match s_queue k with
  | [] => (inr EAGAIN, k)
  | c :: cs => let fd := new_fd k in (inl fd, open_fd fd c cs k)
  end.

(** What is printed is kept. *)
Definition print (s : bytes) (k : Sim) : Sim :=
  mkSim (s_open k) (s_listening k) (s_interest k) (s_clock k) (s_io k) (s_queue k) (s_chunks k) (s_bytes k)
    (s_credit k) (s_stderr k ++ s) (s_idle k).

Definition clamp (t : Z) : Z := Z.max 0 (Z.min INT64_MAX t).

#[global] Instance sim_kernel : Kernel Sim := {
  k_open := s_open;
  k_listening k := s_listening k ∩ s_open k;
  k_interest := s_interest;
  k_ns k := clamp (s_clock k);
  k_io := io;
  k_budget k := length (s_queue k);
  k_bytes k := Z.of_nat (s_bytes k);
  sys_read := read;
  sys_write := write;
  sys_close := close;
  sys_epoll_add fd ev k := (None, watch fd (Some ev) k);
  sys_epoll_mod fd ev k := (None, watch fd (Some ev) k);
  sys_epoll_del fd k := (None, watch fd None k);
  sys_epoll_wait := wait;
  sys_accept4 _ := accept4;
  sys_nodelay _ k := (true, k);
  sys_open_null k := let '(fd, k) := open_plain k in (Some fd, k);
  sys_steady k := let k := set_clock (s_clock k + 1000000) k in (clamp (s_clock k), k);
  sys_stderr := print;
  k_message _ := [];
  k_what _ msg := msg;
  sys_epoll_create k := let '(fd, k) := open_plain k in (inl fd, k);
  inet_pton a := if bool_decide (a = bstr "127.0.0.1"%string) then Some 2130706433 else None;
  sys_socket k := let '(fd, k) := open_plain k in (inl fd, k);
  sys_reuseaddr _ k := (None, k);
  sys_bind _ _ _ k := (None, k);
  sys_listen fd _ k :=
    (None, mkSim (s_open k) ({[fd]} ∪ s_listening k) (s_interest k) (s_clock k) (s_io k) (s_queue k) (s_chunks k)
             (s_bytes k) (s_credit k) (s_stderr k) (s_idle k));
}.

Lemma clamp_range t : 0 ≤ clamp t ≤ INT64_MAX.
Proof. unfold clamp, INT64_MAX. lia. Qed.

Lemma clamp_mono t t' : t ≤ t' → clamp t ≤ clamp t'.
Proof. unfold clamp. lia. Qed.

Lemma new_fd_fresh k : 0 ≤ new_fd k ∧ new_fd k ∉ s_open k.
Proof.
  unfold new_fd. split; [lia|]. set (x := fresh _). intros H.
  apply (is_fresh (set_map Z.to_N (s_open k) : gset N)). fold x. apply elem_of_map. exists (Z.of_N x). split; [lia|done].
Qed.

Lemma later_of (k k' : Sim) :
  s_clock k ≤ s_clock k' → (length (s_queue k') ≤ length (s_queue k))%nat → (s_bytes k' ≤ s_bytes k)%nat → later k k'.
Proof.
  intros H1 H2 H3. split; [|split; [done|cbn; lia]]. unfold k_clock, nowMs. cbn.
  apply Z.quot_le_mono; [lia|by apply clamp_mono].
Qed.

Lemma idle_self (k : Sim) : idle_step k k.
Proof. split; [done|]. split; [done|]. split; [done|]. split; [done|by apply later_of]. Qed.

Lemma open_fd_opens c q k : (length q ≤ length (s_queue k))%nat → opens (new_fd k) k (open_fd (new_fd k) c q k).
Proof.
  intros Hq. destruct (new_fd_fresh k) as [Hp Hn]. split; [done|]. split; [done|]. split; [done|]. split; [|split; [done|]].
  - cbn. set_solver.
  - split; [intros fd Hfd; cbn; unfold io; cbn; by rewrite lookup_delete_ne|]. split; [cbn; unfold io; cbn; by rewrite lookup_delete_eq|].
    by apply later_of.
Qed.

Lemma watch_watches fd x k : watches fd x k (watch fd x k).
Proof. split; [done|]. split; [done|]. split; [done|]. split; [done|by apply later_of]. Qed.

Lemma read_sim fd n k r k' :
  read fd n k = (r, k') →
  match r with
  | inl bs => receives fd bs k k' ∧ zlen bs ≤ n ∧ zlen bs + k_bytes k' ≤ k_bytes k
  | inr _ => idle_step k k'
  end.
Proof.
  unfold read. destruct (Z.ltb_spec n 0) as [|Hn]; [intros [= <- <-]; apply idle_self|].
  destruct (s_chunks k !! fd) as [[|x xs]|]; intros [= <- <-]; try apply idle_self.
  set (bs := take _ x). assert (length bs ≤ Nat.min (Z.to_nat n) (s_bytes k))%nat as Hlen by (unfold bs; rewrite length_take; lia).
  split; [|cbn; lia]. split; [done|]. split; [done|]. split; [done|].
  split; [intros fd' Hfd; cbn; unfold io at 1; cbn; by rewrite lookup_insert_ne|].
  split; [cbn; unfold io at 1; cbn; by rewrite lookup_insert_eq|]. apply later_of; [done|done|cbn; lia].
Qed.

Lemma write_sim fd s k r k' :
  write fd s k = (r, k') →
  match r with
  | inl n => 0 ≤ n ≤ zlen s ∧ sends fd (take (Z.to_nat n) s) k k'
  | inr e => idle_step k k' ∧ (e = EINTR → (k_budget k' < k_budget k)%nat)
  end.
Proof.
  unfold write. destruct (_ <? _)%nat; intros [= <- <-]; [|by split; [apply idle_self|]].
  rewrite Nat2Z.id. split; [lia|]. split; [done|]. split; [done|]. split; [done|].
  split; [intros fd' Hfd; cbn; unfold io at 1; cbn; by rewrite lookup_insert_ne|].
  split; [cbn; unfold io at 1; cbn; by rewrite lookup_insert_eq|by apply later_of].
Qed.

Lemma close_sim fd k : closes fd k (close fd k).
Proof.
  split; [done|]. split; [cbn; set_solver|]. split; [done|]. split; [done|by apply later_of].
Qed.

Lemma wait_sim t k r b k' :
  wait t k = (r, b, k') →
  idle_step k k' ∧
  ∀ evs, r = inl evs → zlen evs ≤ kMaxEvents ∧
    ∀ ev, ev ∈ evs → ∃ fd ev0, k_interest k !! fd = Some ev0 ∧ ev_ptr ev = ev_ptr ev0.
Proof.
  unfold wait. intros [= <- <- <-].
  split; [split; [done|]; split; [done|]; split; [done|]; split; [done|apply later_of; [|done|done]]|].
  { case_match; cbn; lia. }
  intros evs [= <-]. split; [rewrite length_take; unfold kMaxEvents; lia|].
  intros ev Hev%subseteq_take. apply list_elem_of_join in Hev as (l & Hev & Hl).
  apply list_elem_of_fmap in Hl as ([fd ev0] & -> & Hin%elem_of_map_to_list). unfold report in Hev.
  destruct (_ =? 0); [by apply not_elem_of_nil in Hev|]. apply list_elem_of_singleton in Hev as ->. by exists fd, ev0.
Qed.

Lemma accept_sim (fd : Z) k r k' :
  accept4 k = (r, k') →
  match r with
  | inl fd' => opens fd' k k' ∧ (k_budget k' < k_budget k)%nat
  | inr e => idle_step k k' ∧ (accept_consumed e → (k_budget k' < k_budget k)%nat) ∧
             (fd ∈ k_listening k → e ∉ [EBADF; ENOTSOCK; EINVAL; EFAULT])
  end.
Proof.
  unfold accept4. destruct (s_queue k) as [|c q] eqn:Eq; intros [= <- <-].
  - split; [apply idle_self|]. split; [|intros _; set_solver]. unfold accept_consumed. set_solver.
  - split; [apply open_fd_opens; rewrite Eq; cbn; lia|]. cbn. rewrite Eq. cbn. lia.
Qed.

Lemma open_plain_opens k fd k' : open_plain k = (fd, k') → opens fd k k'.
Proof. intros [= <- <-]. by apply open_fd_opens. Qed.

#[global] Instance sim_laws : KernelLaws Sim.
Proof.
  split; cbn -[open_plain].
  - intros k. apply clamp_range.
  - intros k. lia.
  - intros k. set_solver.
  - apply read_sim.
  - apply write_sim.
  - intros fd k _. apply close_sim.
  - intros fd ev k r k' [= <- <-]. apply watch_watches.
  - intros fd ev k r k' [= <- <-]. apply watch_watches.
  - intros fd k r k' [= <- <-] _ _. split; [done|apply watch_watches].
  - apply wait_sim.
  - apply accept_sim.
  - intros fd k r k' [= <- <-]. apply idle_self.
  - intros k r k'. destruct (open_plain k) as [fd k1] eqn:E. intros [= <- <-]. by apply open_plain_opens.
  - intros k t k' [= <- <-]. split; [|done]. split; [done|]. split; [done|]. split; [done|]. split; [done|].
    apply later_of; [cbn; lia|done|done].
  - intros s k. split; [done|]. split; [done|]. split; [done|]. split; [done|by apply later_of].
  - intros k r k'. destruct (open_plain k) as [fd k1] eqn:E. intros [= <- <-]. by apply open_plain_opens.
  - intros k r k'. destruct (open_plain k) as [fd k1] eqn:E. intros [= <- <-]. by apply open_plain_opens.
  - intros fd k r k' [= <- <-]. apply idle_self.
  - intros fd a p k r k' [= <- <-]. apply idle_self.
  - intros fd n k r k' [= <- <-] Hop. split; [done|]. split; [cbn; set_solver|]. split; [done|]. split; [done|by apply later_of].
Qed.

(** A machine with nothing open, at second one, and clients on their way. *)
Definition boot_idle (idle : nat) (clients : list (list bytes)) : Sim :=
  mkSim ∅ ∅ ∅ 1000000000 ∅ clients ∅ 4096 kCredit [] idle.

Definition boot : list (list bytes) → Sim := boot_idle 0.

End Loopback.
