(* ===== verification/FdProps.v ===== *)
(** * Owning descriptors ([net/unique_fd.cpp])

    Any program over [UniqueFd] objects, with its moves and self-moves, closes
    every descriptor it opened, none twice, and no other. *)

From Stdlib Require Import ZArith Lia Strings.Byte.
From stdpp Require Import base gmap numbers list.
From S2P Require Import Prelude Entry Kernel Loopback.

Local Open Scope Z_scope.

Module FdProps.

(** What a program can do with named objects. *)
Inductive fd_op :=
| FOpen (i : N)         (* an object on a newly opened descriptor, if there is one *)
| FDestroy (i : N)
| FReset (i : N)        (* to nothing *)
| FReopen (i : N)       (* to a newly opened descriptor *)
| FMove (i j : N)       (* a new object, from another *)
| FAssign (i j : N).

Section fds.
Context {K : Type} `{!Kernel K}.
Implicit Types (objs : gmap N Z) (k : K).

Definition fd_of (r : option Z) : Z := default (-1) r.

(** One operation; [None] is a program that names an object that is not there. *)
Definition fd_step (op : fd_op) (st : gmap N Z * K) : option (gmap N Z * K) :=
  let '(objs, k) := st in
  match op with
  | FOpen i =>
      match objs !! i with
      | Some _ => None
      | None => let '(r, k) := sys_open_null k in Some (<[i := fd_of r]> objs, k)
      end
  | FDestroy i => fd ← objs !! i; Some (delete i objs, UniqueFd.destroy fd k)
  | FReset i => fd ← objs !! i; let '(fd, k) := UniqueFd.reset (-1) fd k in Some (<[i := fd]> objs, k)
  | FReopen i =>
      fd ← objs !! i;
      let '(r, k) := sys_open_null k in
      let '(fd, k) := UniqueFd.reset (fd_of r) fd k in Some (<[i := fd]> objs, k)
  | FMove i j =>
      fd ← objs !! j;
      match objs !! i with
      | Some _ => None
      | None => let '(n, fd) := UniqueFd.move fd in Some (<[i := n]> (<[j := fd]> objs), k)
      end
  | FAssign i j => UniqueFd.move_assign i j objs k
  end.

Fixpoint fd_run (ops : list fd_op) (st : gmap N Z * K) : option (gmap N Z * K) :=
  match ops with
  | [] => Some st
  | op :: ops => st ← fd_step op st; fd_run ops st
  end.

(** The descriptors of the objects and those of others, [base], are the open
    ones, and no two objects share one. *)
Record owns (base : gset Z) objs (open : gset Z) : Prop := {
  ow_range i fd : objs !! i = Some fd → fd = -1 ∨ (0 ≤ fd ∧ fd ∉ base);
  ow_inj i j fd : objs !! i = Some fd → objs !! j = Some fd → fd ≠ -1 → i = j;
  ow_open fd : fd ∈ open ↔ fd ∈ base ∨ (fd ≠ -1 ∧ ∃ i, objs !! i = Some fd);
}.

Context `{!KernelLaws K}.

Section base.
Context (base : gset Z).
Implicit Types (op : gset Z).

Lemma owns_held objs op i fd : owns base objs op → objs !! i = Some fd → fd ≠ -1 → fd ∈ op.
Proof. intros HO Hi Hfd. apply (ow_open _ _ _ HO). right. split; [done|by exists i]. Qed.

(** An object that owns nothing takes a descriptor nobody owns. *)
Lemma owns_take objs op op' i fd :
  owns base objs op → objs !! i = None ∨ objs !! i = Some (-1) → 0 ≤ fd → fd ∉ op →
  op' = {[fd]} ∪ op → owns base (<[i := fd]> objs) op'.
Proof.
  intros HO Hi Hp Hn Ho. pose proof (owns_held objs op) as Hh. pose proof HO as [H1 H2 H3].
  assert (∀ j, objs !! j ≠ Some fd) as Hno by (intros j Hj; apply Hn, (Hh j); [done|done|lia]). split.
  - intros j x. rewrite lookup_insert_Some. intros [[<- <-]|[_ Hj]]; [|by eapply H1]. right. split; [done|].
    intros Hb. apply Hn, H3. by left.
  - intros a b x. rewrite !lookup_insert_Some. intros [[<- <-]|[_ Ha]] [[<- E]|[_ Hb]] Hx; try done.
    + by apply Hno in Hb.
    + subst x. by apply Hno in Ha.
    + by eapply H2.
  - intros x. rewrite Ho, elem_of_union, elem_of_singleton, H3. split.
    + intros [->|[?|[Hx [j Hj]]]]; [|by left|].
      { right. split; [lia|]. exists i. by rewrite lookup_insert_eq. }
      right. split; [done|]. exists j. rewrite lookup_insert_ne; [done|]. intros <-. destruct Hi as [Hi|Hi]; rewrite Hi in Hj; [done|]. by injection Hj as <-.
    + intros [?|[Hx [j Hj]]]; [by right; left|]. rewrite lookup_insert_Some in Hj.
      destruct Hj as [[<- <-]|[_ Hj]]; [by left|right; right]. split; [done|by exists j].
Qed.

(** An object gives its descriptor up, or to the kernel. *)
Lemma owns_drop objs op op' i fd :
  owns base objs op → objs !! i = Some fd → fd ≠ -1 → op' = op ∖ {[fd]} →
  owns base (<[i := -1]> objs) op' ∧ owns base (delete i objs) op'.
Proof.
  intros [H1 H2 H3] Hi Hfd Ho.
  assert (∀ x, x ≠ -1 → (∃ j, <[i := -1]> objs !! j = Some x) ↔ x ≠ fd ∧ ∃ j, objs !! j = Some x) as Hex.
  { intros x Hx. split.
    - intros [j Hj]. rewrite lookup_insert_Some in Hj. destruct Hj as [[_ <-]|[Hne Hj]]; [done|].
      split; [|by exists j]. intros ->. by apply Hne, (H2 i j fd).
    - intros [Hne [j Hj]]. exists j. rewrite lookup_insert_ne; [done|]. intros <-. congruence. }
  assert (∀ x, x ∈ op' ↔ x ∈ base ∨ x ≠ -1 ∧ x ≠ fd ∧ ∃ j, objs !! j = Some x) as Hop.
  { intros x. rewrite Ho, elem_of_difference, elem_of_singleton, H3. split; [naive_solver|].
    intros [Hb|(? & ? & ?)]; [|by auto]. split; [by left|]. intros ->. by destruct (H1 _ _ Hi) as [|[_ ?]]. }
  split; split.
  - intros j x. rewrite lookup_insert_Some. intros [[_ <-]|[_ Hj]]; [by left|by eapply H1].
  - intros a b x. rewrite !lookup_insert_Some. intros [[_ <-]|[_ Ha]] [[_ E]|[_ Hb]] Hx; try congruence; by eapply H2.
  - intros x. rewrite Hop. destruct (decide (x = -1)) as [->|Hx]; [naive_solver|]. rewrite Hex by done. naive_solver.
  - intros j x [_ Hj]%lookup_delete_Some. by eapply H1.
  - intros a b x [_ Ha]%lookup_delete_Some [_ Hb]%lookup_delete_Some. by eapply H2.
  - intros x. rewrite Hop. destruct (decide (x = -1)) as [->|Hx]; [naive_solver|].
    rewrite <-Hex by done. split; (intros [?|[_ [j Hj]]]; [by left|right; split; [done|]; exists j]).
    + rewrite lookup_insert_Some in Hj. destruct Hj as [[_ <-]|[Hne Hj]]; [done|]. by rewrite lookup_delete_ne.
    + apply lookup_delete_Some in Hj as [Hne Hj]. by rewrite lookup_insert_ne.
Qed.

(** An object that owns nothing comes or goes. *)
Lemma owns_empty objs op i :
  owns base objs op → (objs !! i = None → owns base (<[i := -1]> objs) op) ∧
                     (objs !! i = Some (-1) → owns base (delete i objs) op).
Proof.
  intros [H1 H2 H3]. split; intros Hi; split.
  - intros j x. rewrite lookup_insert_Some. intros [[_ <-]|[_ Hj]]; [by left|by eapply H1].
  - intros a b x. rewrite !lookup_insert_Some. intros [[_ <-]|[_ Ha]] [[_ E]|[_ Hb]] Hx; try congruence; by eapply H2.
  - intros x. rewrite H3. split; (intros [?|[Hx [j Hj]]]; [by left|right; split; [done|]; exists j]).
    + rewrite lookup_insert_ne; [done|]. intros <-. congruence.
    + rewrite lookup_insert_Some in Hj. by destruct Hj as [[_ <-]|[_ ?]].
  - intros j x [_ Hj]%lookup_delete_Some. by eapply H1.
  - intros a b x [_ Ha]%lookup_delete_Some [_ Hb]%lookup_delete_Some. by eapply H2.
  - intros x. rewrite H3. split; (intros [?|[Hx [j Hj]]]; [by left|right; split; [done|]; exists j]).
    + rewrite lookup_delete_ne; [done|]. intros <-. congruence.
    + by apply lookup_delete_Some in Hj as [_ ?].
Qed.

(** The descriptor [fd], if it is one, is open and in nobody's hands. *)
Definition in_flight (fd : Z) (op op' : gset Z) : Prop :=
  (fd = -1 ∧ op' = op) ∨ (0 ≤ fd ∧ (fd ∉ op) ∧ op' = {[fd]} ∪ op).

Lemma open_null_flight k r k' : sys_open_null k = (r, k') → in_flight (fd_of r) (k_open k) (k_open k').
Proof.
  intros E. pose proof (open_null_law _ _ _ E) as H. destruct r as [fd|].
  - destruct H as (H1 & H2 & H3 & _). by right.
  - destruct H as (H & _). by left.
Qed.

(** The object [i] lets go of what it has. *)
Lemma release_flight objs op i fd :
  owns base objs op → objs !! i = Some fd →
  ∃ op0, in_flight fd op0 op ∧ owns base (<[i := -1]> objs) op0.
Proof.
  intros HO Hi. destruct (decide (fd = -1)) as [->|Hfd]; [exists op; split; [by left|]; by rewrite insert_id|].
  exists (op ∖ {[fd]}). pose proof (owns_held _ _ _ _ HO Hi Hfd) as Hin. split; [right|by eapply owns_drop].
  split; [|split; [set_solver|]].
  - destruct (ow_range _ _ _ HO _ _ Hi) as [?|[? _]]; [done|done].
  - apply set_eq. intros x. rewrite elem_of_union, elem_of_difference, elem_of_singleton.
    destruct (decide (x = fd)) as [->|]; naive_solver.
Qed.

Lemma insert_flight objs op0 i fd op :
  owns base objs op0 → in_flight fd op0 op → objs !! i = None ∨ objs !! i = Some (-1) → owns base (<[i := fd]> objs) op.
Proof.
  intros HO [[-> ->]|(Hp & Hn & Ho)] Hi; [|by eapply owns_take].
  destruct Hi as [Hi|Hi]; [by apply owns_empty|by rewrite insert_id].
Qed.

Lemma reset_owns objs op0 i old newFd k f k' :
  owns base objs op0 → objs !! i = Some old → in_flight newFd op0 (k_open k) →
  UniqueFd.reset newFd old k = (f, k') → owns base (<[i := f]> objs) (k_open k').
Proof.
  intros HO Hi Hfl. unfold UniqueFd.reset. destruct (Z.eqb_spec newFd old) as [<-|Hne].
  { intros [= <- <-]. rewrite insert_id by done. destruct Hfl as [[-> ->]|(Hp & Hn & _)]; [done|].
    exfalso. apply Hn. eapply owns_held; [done..|lia]. }
  destruct (Z.eqb_spec old (-1)) as [->|Hold]; cbn [negb]; intros [= <- <-]; [by eapply insert_flight; [| |right]|].
  pose proof (owns_held _ _ _ _ HO Hi Hold) as Hin.
  destruct (close_law old k) as (J1 & _); [destruct Hfl as [[_ ->]|(_ & _ & ->)]; set_solver|].
  rewrite <-(insert_insert_eq objs i newFd (-1)).
  eapply (insert_flight _ (op0 ∖ {[old]})); [by eapply owns_drop| |right; by rewrite lookup_insert_eq].
  rewrite J1. destruct Hfl as [[-> ->]|(Hp & Hn & ->)]; [by left|right]. split; [done|]. split; set_solver.
Qed.

Lemma destroy_owns objs i fd k :
  owns base objs (k_open k) → objs !! i = Some fd → owns base (delete i objs) (k_open (UniqueFd.destroy fd k)).
Proof.
  intros HO Hi. unfold UniqueFd.destroy. destruct (Z.eqb_spec fd (-1)) as [->|Hfd]; [by apply owns_empty|].
  destruct (close_law fd k) as (J1 & _); [by eapply owns_held|]. by eapply owns_drop.
Qed.

Lemma fd_step_owns (o : fd_op) objs k objs' k' :
  owns base objs (k_open k) → fd_step o (objs, k) = Some (objs', k') → owns base objs' (k_open k').
Proof.
  intros HO. destruct o as [i|i|i|i|i j|i j]; cbn [fd_step].
  - destruct (objs !! i) eqn:Hi; [done|]. destruct (sys_open_null k) as [r k1] eqn:E. intros [= <- <-].
    eapply insert_flight; [done|by apply open_null_flight|by left].
  - destruct (objs !! i) as [fd|] eqn:Hi; [|done]. cbn. intros [= <- <-]. by eapply destroy_owns.
  - destruct (objs !! i) as [fd|] eqn:Hi; [|done]. cbn. destruct (UniqueFd.reset _ _ _) as [f k1] eqn:E. intros [= <- <-].
    eapply reset_owns; [done|done|by left|done].
  - destruct (objs !! i) as [fd|] eqn:Hi; [|done]. cbn. destruct (sys_open_null k) as [r k1] eqn:E.
    destruct (UniqueFd.reset _ _ _) as [f k2] eqn:E2. intros [= <- <-].
    eapply reset_owns; [done|done|by apply open_null_flight|done].
  - destruct (objs !! j) as [fd|] eqn:Hj; [|done]. cbn. destruct (objs !! i) eqn:Hi; [done|]. intros [= <- <-].
    destruct (release_flight _ _ _ _ HO Hj) as (op0 & Hfl & HO'). eapply insert_flight; [done|done|].
    left. rewrite lookup_insert_ne; [done|]. intros <-. congruence.
  - unfold UniqueFd.move_assign. destruct (objs !! j) as [fd|] eqn:Hj; [|done]. cbn.
    destruct (release_flight _ _ _ _ HO Hj) as (op0 & Hfl & HO').
    destruct (<[j := -1]> objs !! i) as [old|] eqn:Hi; [|done]. cbn.
    destruct (UniqueFd.reset _ _ _) as [f k1] eqn:E. intros [= <- <-]. by eapply reset_owns.
Qed.

Lemma fd_run_owns ops objs k objs' k' :
  owns base objs (k_open k) → fd_run ops (objs, k) = Some (objs', k') → owns base objs' (k_open k').
Proof.
  revert objs k. induction ops as [|o ops IH]; intros objs k HO; [by intros [= <- <-]|]. cbn [fd_run].
  destruct (fd_step o (objs, k)) as [[objs1 k1]|] eqn:E; [|done]. cbn. apply IH. by eapply fd_step_owns.
Qed.

Lemma owns_none op : owns base ∅ op ↔ op = base.
Proof.
  split.
  - intros [_ _ H]. apply set_eq. intros x. rewrite H. split; [intros [?|[_ [i Hi]]]; [done|by rewrite lookup_empty in Hi]|by left].
  - intros ->. split; [by intros ? ?; rewrite lookup_empty|by intros ? ? ?; rewrite lookup_empty|].
    intros x. split; [by left|]. intros [?|[_ [i Hi]]]; [done|by rewrite lookup_empty in Hi].
Qed.

End base.

(** C31: descriptors are owned.  After any sequence of operations on [UniqueFd]
    objects, moves from an object to itself included, the open descriptors are
    those there were at the start and those the objects hold, no descriptor is
    held twice; and once every object is destroyed, exactly the descriptors there
    were at the start are open. *)
Theorem unique_fd_ownership (ops : list fd_op) (k : K) (objs : gmap N Z) (k' : K)
    (Hrun : fd_run ops (∅, k) = Some (objs, k')) :
  (∀ fd, fd ∈ k_open k' ↔ fd ∈ k_open k ∨ (fd ≠ -1 ∧ ∃ i, objs !! i = Some fd)) ∧
  (∀ i j fd, objs !! i = Some fd → objs !! j = Some fd → fd ≠ -1 → i = j) ∧
  (∀ i fd, objs !! i = Some fd → UniqueFd.bool_ fd = true → 0 ≤ fd ∧ fd ∉ k_open k) ∧
  (objs = ∅ → k_open k' = k_open k).
Proof.
  assert (owns (k_open k) objs (k_open k')) as HO by (eapply fd_run_owns; [by apply owns_none|exact Hrun]).
  split; [apply HO|]. split; [apply HO|]. split.
  - intros i fd Hi Hb. unfold UniqueFd.bool_ in Hb. apply negb_true_iff, Z.eqb_neq in Hb.
    by destruct (ow_range _ _ _ HO _ _ Hi).
  - intros ->. by apply owns_none in HO.
Qed.

End fds.

Definition demo_ops : list fd_op :=
  [FOpen 0; FOpen 1; FAssign 0 0; FAssign 0 1; FMove 2 0; FReopen 1; FReset 2; FDestroy 0; FDestroy 2; FAssign 1 1].

Lemma unique_fd_ownership_witness :
  ∃ objs k', fd_run demo_ops (∅, Loopback.boot []) = Some (objs, k') ∧ objs = {[1%N := 2]} ∧
    ∀ fd, fd ∈ k_open k' ↔ fd ∈ k_open (Loopback.boot []) ∨ (fd ≠ -1 ∧ ∃ i, objs !! i = Some fd).
Proof.
  destruct (fd_run demo_ops (∅, Loopback.boot [])) as [[objs k']|] eqn:E.
  - exists objs, k'. split; [reflexivity|]. split.
    + assert (fst <$> fd_run demo_ops (∅, Loopback.boot []) = Some {[1%N := 2]}) as H by (vm_compute; reflexivity).
      rewrite E in H. injection H as ->. reflexivity.
    + exact (proj1 (unique_fd_ownership demo_ops (Loopback.boot []) objs k' E)).
  - exfalso. assert (is_Some (fst <$> fd_run demo_ops (∅, Loopback.boot []))) as [x H] by (vm_compute; eauto).
    rewrite E in H. discriminate H.
Defined.

End FdProps.
