(* ===== verification/ConnProps.v ===== *)
(** * What a connection guarantees

    The claims about one client: its requests are answered in order, however the
    stream was cut; what is to be sent is sent; closing is final.  The witnesses
    run the server on the loopback kernel. *)

From Stdlib Require Import ZArith Lia Strings.Byte Strings.String.
From stdpp Require Import base gmap numbers list relations.
From S2P Require Import Prelude Bits Buffer Resp RespSpec RespFacts RespWire RespProps.
From S2P Require Import Entry Table Store StoreSpec StoreProps Command CommandSpec CommandProps.
From S2P Require Import Kernel World Stream Connection Server NetInv ConnFacts NetSpec AcceptFacts ServerFacts Loopback.

Local Open Scope Z_scope.

Module ConnProps.
Import Conn StoProps CmdProps Stream ConnFacts AcceptFacts ServerFacts.

(** ** Worlds to try the claims on *)

Definition demo_idle (idle : nat) (clients : list (list bytes)) (rounds : nat) : option (World Loopback.Sim (gset addr)) :=
  match Sto.make demo_cfg 0 0 with
  | Ok st =>
      match Srv.construct Srv.default_Config st (Loopback.boot_idle idle clients) with
      | (inl w, _) => match Srv.run rounds w with Ok (_, w) => Some w | Fault _ => None end
      | (inr _, _) => None
      end
  | Fault _ => None
  end.

Definition demo_world : list (list bytes) → nat → option (World Loopback.Sim (gset addr)) := demo_idle 0.

Lemma demo_store : ∃ st : Sto.Store (gset addr), Sto.make demo_cfg 0 0 = Ok st ∧ sound_store st.
Proof.
  destruct (make_Rep (P := gset addr) demo_cfg 0 0 demo_cfg_ok ltac:(vm_compute; split; [discriminate|reflexivity]))
    as (st & E & HR & _). exists st. split; [exact E|by apply empty_sound].
Qed.

Lemma demo_start_idle idle clients (st : Sto.Store (gset addr)) :
  sound_store st → can_start Srv.default_Config st (Loopback.boot_idle idle clients).
Proof. intros HS. by split; try done; cbn; vm_compute. Qed.

Lemma demo_start clients (st : Sto.Store (gset addr)) :
  sound_store st → can_start Srv.default_Config st (Loopback.boot clients).
Proof. apply demo_start_idle. Qed.

Lemma demo_idle_resting idle clients rounds w : demo_idle idle clients rounds = Some w → resting w.
Proof.
  unfold demo_idle. destruct demo_store as (st & -> & HS).
  destruct (Srv.construct _ _ _) as [[w0|] k'] eqn:E; [|done].
  destruct (construct_spec _ _ _ _ _ (demo_start_idle idle clients st HS) E) as (_ & HR & _).
  pose proof (run_spec rounds w0 HR) as H. apply returns_inv in H as ([e w1] & -> & H & _). by intros [= <-].
Qed.

Lemma demo_resting clients rounds w : demo_world clients rounds = Some w → resting w.
Proof. apply demo_idle_resting. Qed.

(** The demo world has a connection at [a] that passes the test [f]. *)
Lemma demo_conn clients rounds a (f : World Loopback.Sim (gset addr) → Connection → bool) :
  match demo_world clients rounds with
  | Some w => match heap w !! a with Some c => f w c | None => false end
  | None => false
  end = true →
  ∃ w c, demo_world clients rounds = Some w ∧ resting w ∧ heap w !! a = Some c ∧ f w c = true.
Proof.
  destruct (demo_world clients rounds) as [w|] eqn:E; [|done]. destruct (heap w !! a) as [c|] eqn:Hc; [|done].
  intros Hf. exists w, c. split; [done|]. split; [by eapply demo_resting|done].
Qed.

Section props.
Context {K P : Type} `{!Kernel K} `{!PoolAllocator P} `{!KernelLaws K}.
Implicit Types (w : World K P).

(** The same world with another input buffer for [this]. *)
Definition set_in (this : addr) (i : Buf.Buffer) w : World K P :=
  mkWorld (kern w) (alter (with_in i) this (heap w)) (server w).

Lemma set_in_lookup this i w c : heap w !! this = Some c → heap (set_in this i w) !! this = Some (with_in i c).
Proof. intros Hc. cbn. by rewrite lookup_alter_eq, Hc. Qed.

Lemma set_in_inv this i w c :
  inv w → heap w !! this = Some c → conn_ok (k_bytes (kern w)) (with_in i c) → inv (set_in this i w).
Proof.
  intros HI Hc Hok. unfold set_in.
  assert (alter (with_in i) this (heap w) = <[this := with_in i c]> (heap w)) as ->.
  { apply map_eq. intros a. destruct (decide (this = a)) as [<-|].
    - by rewrite lookup_alter_eq, lookup_insert_eq, Hc.
    - by rewrite lookup_alter_ne, lookup_insert_ne. }
  by apply (inv_conn w this c).
Qed.

(** Less input. *)
Lemma set_in_prefix this i w c a b :
  inv w → heap w !! this = Some c → state_ c = kOpen → Buf.readable (in_ c) = a ++ b →
  Buf.wf i → Buf.readable i = a → inv (set_in this i w).
Proof.
  intros HI Hc Hst Hin Hi Ha. apply (set_in_inv _ _ _ c HI Hc).
  destruct (in_conns _ HI _ _ Hc) as [H1 H2 H3 H4 H5]. specialize (H5 Hst).
  rewrite <-(Buf.readable_length (in_ c)), Hin, length_app in * by done.
  split; cbn; [done|done|done| |intros _]; rewrite <-(Buf.readable_length i), Ha by done; unfold kMaxReply in *; lia.
Qed.

(** What was left of the input [a], with the rest of [a ++ b] behind it. *)
Lemma set_in_rest this i w w1 c c1 (rest a b o : bytes) :
  inv w → heap w !! this = Some c → state_ c = kOpen → Buf.readable (in_ c) = a ++ b →
  inv w1 → heap w1 !! this = Some c1 → k_bytes (kern w1) ≤ k_bytes (kern w) →
  zlen rest ≤ zlen a → zlen o ≤ (zlen a - zlen rest) * kMaxReply →
  Buf.readable (out_ c1) = Buf.readable (out_ c) ++ o → Buf.wf i → Buf.readable i = rest ++ b →
  inv (set_in this i w1).
Proof.
  intros HI Hc Hst Hin HI1 Hc1 Hb Hlen Hroom Ho Hi Hr. apply (set_in_inv _ _ _ c1 HI1 Hc1).
  destruct (in_conns _ HI1 _ _ Hc1) as [G1 G2 G3 G4 G5], (in_conns _ HI _ _ Hc) as [H1 H2 H3 H4 H5]. specialize (H5 Hst).
  rewrite <-(Buf.readable_length (in_ c)), Hin, <-(Buf.readable_length (out_ c)), length_app in * by done.
  pose proof (bytes_range (kern w1)). split; cbn; [done|done|done| |intros _];
    rewrite <-(Buf.readable_length i), ?Hr, <-?(Buf.readable_length (out_ c1)), ?Ho, ?length_app by done;
    unfold kMaxReply in *; lia.
Qed.

(** ** One pass over the input *)

Lemma processInput_open this w c :
  inv w → heap w !! this = Some c → state_ c = kOpen →
  ∃ w' c' o, processInput this w = Ok (tt, w') ∧ inv w' ∧ heap w' !! this = Some c' ∧
    drains (tick_time w) (store_ (server w)) (Buf.readable (in_ c)) o (store_ (server w')) (Buf.readable (in_ c')) (state_ c') ∧
    Buf.readable (out_ c') = Buf.readable (out_ c) ++ o ∧ tick_time w' = tick_time w ∧ 500 ≤ tick_time w ≤ INT64_MAX ∧
    k_bytes (kern w') ≤ k_bytes (kern w).
Proof.
  intros HI Hc Hst. assert (state_ c ≠ kClosed) as Hnc by (by rewrite Hst).
  pose proof (processInput_spec this w c HI Hc Hnc) as H. rewrite Hst in H.
  apply returns_inv in H as ([[] w'] & E & c' & HI' & (_ & _ & Hl & _ & _ & Hb) & Hc' & _ & _ & _ & now & o & HR & Hd & Ho).
  destruct HR as (_ & Hnow & _ & -> & _ & _ & _ & Hcn & Hct). cbn in Hcn, Hct. exists w', c', o.
  assert (tick_time w' = tick_time w) as Ht.
  { unfold tick_time at 1. rewrite Hl, Hct, Z.eqb_refl. exact Hcn. }
  done.
Qed.

(** C10: however the stream is cut.  Reading [a ++ b] and processing it gives the
    same replies, store, unread input and state as reading and processing [a],
    then [b]; and when [a] alone closes the connection, [b] changes nothing. *)
Theorem chunks_do_not_matter (this : addr) (a b : bytes) (ia : Buf.Buffer) w c
    (HI : inv w) (Hc : heap w !! this = Some c) (Hst : state_ c = kOpen)
    (Hin : Buf.readable (in_ c) = a ++ b) (Hia : Buf.wf ia) (Ha : Buf.readable ia = a) :
  ∃ w' c' w1 c1,
    processInput this w = Ok (tt, w') ∧ heap w' !! this = Some c' ∧
    processInput this (set_in this ia w) = Ok (tt, w1) ∧ heap w1 !! this = Some c1 ∧
    (state_ c1 ≠ kOpen →
       Buf.readable (out_ c1) = Buf.readable (out_ c') ∧ store_ (server w1) = store_ (server w') ∧ state_ c1 = state_ c') ∧
    (state_ c1 = kOpen → ∀ ib, Buf.wf ib → Buf.readable ib = Buf.readable (in_ c1) ++ b →
       ∃ w2 c2, processInput this (set_in this ib w1) = Ok (tt, w2) ∧ heap w2 !! this = Some c2 ∧
         Buf.readable (out_ c2) = Buf.readable (out_ c') ∧ store_ (server w2) = store_ (server w') ∧
         Buf.readable (in_ c2) = Buf.readable (in_ c') ∧ state_ c2 = state_ c').
Proof.
  destruct (processInput_open this w c HI Hc Hst) as (w' & c' & o & E & _ & Hc' & Hd & Ho & _ & Hnow & _).
  rewrite Hin in Hd.
  pose proof (set_in_prefix _ _ _ _ a b HI Hc Hst Hin Hia Ha) as HIa.
  destruct (processInput_open this _ _ HIa (set_in_lookup _ ia _ _ Hc) Hst)
    as (w1 & c1 & o1 & E1 & HI1 & Hc1 & Hd1 & Ho1 & Ht1 & _ & Hb1).
  cbn [with_in in_ out_] in *. rewrite Ha in Hd1. change (tick_time (set_in this ia w)) with (tick_time w) in *.
  exists w', c', w1, c1. do 4 (split; [done|]). cbn in Hd1. split.
  - intros Hcl. assert (state_ c1 = kClosing) as Hcl1 by (pose proof (drains_state _ _ _ _ _ _ _ Hd1); by destruct (state_ c1)).
    rewrite Hcl1 in Hd1. pose proof (drains_closing _ _ _ b _ _ _ Hd1) as Hd2.
    destruct (drains_det _ _ _ _ _ _ _ _ _ _ _ Hd Hd2) as (-> & -> & _ & ->). by rewrite Ho1, Ho.
  - intros Hop ib Hib Hrb. rewrite Hop in Hd1.
    destruct (drains_room _ _ _ _ _ _ (in_store _ HI) Hnow Hd1) as (Hlen & Hroom & _).
    pose proof (set_in_rest _ _ _ _ _ _ _ a b o1 HI Hc Hst Hin HI1 Hc1 Hb1 Hlen Hroom Ho1 Hib Hrb) as HIb.
    destruct (processInput_open this _ _ HIb (set_in_lookup _ ib _ _ Hc1) Hop)
      as (w2 & c2 & o2 & E2 & HI2 & Hc2 & Hd2 & Ho2 & Ht2 & _ & _).
    cbn [with_in in_ out_] in *. rewrite Hrb in Hd2. change (tick_time (set_in this ib w1)) with (tick_time w1) in *.
    rewrite Ht1 in Hd2. pose proof (drains_app _ _ _ _ _ _ _ _ _ _ _ Hd1 Hd2) as Hd12. cbn in Hd12.
    destruct (drains_det _ _ _ _ _ _ _ _ _ _ _ Hd Hd12) as (-> & -> & -> & ->).
    exists w2, c2. rewrite Ho2, Ho1, Ho. by rewrite app_assoc.
Qed.

(** C11: requests are answered in order.  When the unread input is a sequence of
    requests and an incomplete one, [processInput] answers them one after the
    other, all at the time of the tick, and leaves the incomplete one unread; a
    request that closes the connection leaves those after it unread too. *)
Theorem pipeline_in_order (this : addr) (reqs : list (list bytes)) (partial : bytes) w c
    (HI : inv w) (Hc : heap w !! this = Some c) (Hst : state_ c = kOpen)
    (Hin : Buf.readable (in_ c) = mjoin (encode_request <$> reqs) ++ partial)
    (Hok : Forall request_ok reqs) (Hp : command_p partial = More) :
  ∃ w' c' o left,
    processInput this w = Ok (tt, w') ∧ heap w' !! this = Some c' ∧
    serves (tick_time w) (store_ (server w)) reqs o (store_ (server w')) left (state_ c') ∧
    Buf.readable (out_ c') = Buf.readable (out_ c) ++ o ∧
    Buf.readable (in_ c') = mjoin (encode_request <$> left) ++ partial ∧ (state_ c' = kOpen → left = []).
Proof.
  destruct (processInput_open this w c HI Hc Hst) as (w' & c' & o & E & _ & Hc' & Hd & Ho & _).
  rewrite Hin in Hd. destruct (drains_serves _ _ _ _ _ _ _ _ Hok Hp Hd) as (left & Hs & Hr).
  exists w', c', o, left. do 5 (split; [done|]). intros Hop. rewrite Hop in Hs. by eapply serves_open.
Qed.

(** C18: what is buffered is what is sent.  [flushOutput] returns whatever the
    kernel answers, in a number of writes bounded by the bytes and signals there
    are; the bytes the kernel took and those still buffered are together the same
    stream as before, no other client's bytes move, and a connection that is
    still up waits for exactly what it needs. *)
Theorem flush_delivers (this : addr) w c (HI : inv w) (Hc : heap w !! this = Some c) (Hst : state_ c ≠ kClosed) :
  ∃ w' c', flushOutput this w = Ok (tt, w') ∧ heap w' !! this = Some c' ∧
    k_sent (kern w') (fd_ c) ++ Buf.readable (out_ c') = k_sent (kern w) (fd_ c) ++ Buf.readable (out_ c) ∧
    in_ c' = in_ c ∧ store_ (server w') = store_ (server w) ∧
    (∀ fd, fd ≠ fd_ c → k_io (kern w') fd = k_io (kern w) fd) ∧
    (state_ c' = state_ c ∧ interest_ c' = wanted c' ∧ (state_ c' = kClosing → Buf.readable (out_ c') ≠ []) ∨
     state_ c' = kClosed).
Proof.
  pose proof (flushOutput_spec this w c HI Hc Hst) as H. apply returns_inv in H as ([[] w'] & E & c' & HF & Hset & Hs).
  exists w', c'. split; [done|]. split; [apply HF|]. split.
  { pose proof (fl_outgoing _ _ _ _ _ HF) as Hout. unfold outgoing in Hout. by rewrite (fl_fd _ _ _ _ _ HF) in Hout. }
  split; [apply HF|]. split; [apply HF|]. split; [apply HF|]. destruct Hs as [Hs|Hs]; [left|by right].
  split; [done|]. apply Hset. by rewrite Hs.
Qed.

(** C20: closing is final.  Once a connection is no longer open neither handler
    runs a request, changes the store or adds a reply, whatever arrives; a closed
    one is not touched at all. *)
Theorem closing_is_final (this : addr) w c (HI : inv w) (HS : all_settled w) (Hc : heap w !! this = Some c)
    (Hst : state_ c ≠ kOpen) :
  (∃ w' c', onReadable this w = Ok (tt, w') ∧ heap w' !! this = Some c' ∧
     store_ (server w') = store_ (server w) ∧ outgoing w' c' = outgoing w c ∧ (state_ c' = state_ c ∨ state_ c' = kClosed)) ∧
  (∃ w' c', onWritable this w = Ok (tt, w') ∧ heap w' !! this = Some c' ∧
     store_ (server w') = store_ (server w) ∧ outgoing w' c' = outgoing w c ∧ (state_ c' = state_ c ∨ state_ c' = kClosed)) ∧
  (state_ c = kClosed → onReadable this w = Ok (tt, w) ∧ onWritable this w = Ok (tt, w)).
Proof.
  split; [|split].
  - pose proof (onReadable_spec this w c HI Hc (HS _ _ Hc)) as H.
    apply returns_inv in H as ([[] w'] & E & c' & (_ & _ & Hc' & _) & HR). exists w', c'. split; [done|]. split; [done|].
    destruct HR as [[Hq _] _ Ho _ Hs|[Hq _] _ Ho Hs|bs Hcl _ [Hq _] _ Ho Hs|]; [by auto|by auto| |done].
    rewrite Hcl. by auto.
  - pose proof (onWritable_spec this w c HI Hc (HS _ _ Hc)) as H.
    apply returns_inv in H as ([[] w'] & E & c' & (_ & _ & Hc' & _) & [Hq _] & _ & _ & Ho & Hs). by exists w', c'.
  - intros Hcl. unfold onReadable, onWritable, get_conn, mbind, M_bind. rewrite Hc. cbn. unfold closed. by rewrite Hcl.
Qed.

End props.

(** ** Witnesses *)

Definition line (s : string) : bytes := bstr s ++ [x0d; x0a].

(** An open connection with nothing buffered, given the input [bs]. *)
Definition fresh_conn (w : World Loopback.Sim (gset addr)) (c : Connection) : bool :=
  state_eqb (state_ c) kOpen && Buf.empty (out_ c) && (k_bytes (kern w) <=? 4096).

Lemma demo_input w a c bs :
  resting w → heap w !! a = Some c → fresh_conn w c = true → zlen bs ≤ 4096 →
  inv (set_in a (Buf.mk bs 0 (zlen bs)) w) ∧ state_ c = kOpen.
Proof.
  intros HR Hc Hf Hbs. unfold fresh_conn in Hf. apply andb_prop in Hf as [[Hst He]%andb_prop Hb%Z.leb_le].
  assert (state_ c = kOpen) as Hop by (by destruct (state_ c)). split; [|done].
  apply (set_in_inv _ _ _ c (re_inv _ HR) Hc). destruct (in_conns _ (re_inv _ HR) _ _ Hc) as [H1 H2 H3 H4 H5].
  apply Buf.empty_readable in He; [|done].
  assert (Buf.size (out_ c) = 0) as Hso by (by rewrite <-Buf.readable_length, He).
  assert (Buf.size (Buf.mk bs 0 (zlen bs)) = zlen bs) as Hsi.
  { unfold Buf.size. cbn [Buf.writeIdx_ Buf.readIdx_]. rewrite Z.sub_0_r. apply u64_small. lia. }
  split; cbn [fd_ in_ out_ state_ with_in]; [done|by split; cbn; lia|done| |intros _];
    rewrite Hsi, ?Hso; unfold kMaxReply, Buf.kMaxContent; lia.
Qed.

Definition demo_a : bytes := line "SET k v" ++ bstr "GE".
Definition demo_b : bytes := line "T k".

Lemma chunks_do_not_matter_witness :
  ∃ w c, demo_world [[line "PING"]] 1 = Some w ∧ heap w !! 1%positive = Some c ∧
    let w0 := set_in 1%positive (Buf.mk (demo_a ++ demo_b) 0 (zlen (demo_a ++ demo_b))) w in
    ∃ w' c' w1 c1,
      processInput 1%positive w0 = Ok (tt, w') ∧ heap w' !! 1%positive = Some c' ∧
      processInput 1%positive (set_in 1%positive (Buf.mk demo_a 0 (zlen demo_a)) w0) = Ok (tt, w1) ∧
      heap w1 !! 1%positive = Some c1 ∧
      (state_ c1 = kOpen → ∀ ib, Buf.wf ib → Buf.readable ib = Buf.readable (in_ c1) ++ demo_b →
         ∃ w2 c2, processInput 1%positive (set_in 1%positive ib w1) = Ok (tt, w2) ∧ heap w2 !! 1%positive = Some c2 ∧
           Buf.readable (out_ c2) = Buf.readable (out_ c')).
Proof.
  destruct (demo_conn [[line "PING"]] 1 1%positive fresh_conn ltac:(vm_compute; reflexivity)) as (w & c & E & HR & Hc & Hf).
  destruct (demo_input w 1%positive c (demo_a ++ demo_b) HR Hc Hf ltac:(vm_compute; discriminate)) as [HI Hst].
  exists w, c. split; [exact E|]. split; [exact Hc|]. cbv zeta.
  destruct (chunks_do_not_matter 1%positive demo_a demo_b (Buf.mk demo_a 0 (zlen demo_a)) _ _ HI (set_in_lookup _ _ _ _ Hc))
    as (w' & c' & w1 & c1 & H1 & H2 & H3 & H4 & _ & H6).
  - exact Hst.
  - reflexivity.
  - split; vm_compute; discriminate.
  - reflexivity.
  - exists w', c', w1, c1. split; [exact H1|]. split; [exact H2|]. split; [exact H3|]. split; [exact H4|].
    intros Hop ib Hib Hrb. destruct (H6 Hop ib Hib Hrb) as (w2 & c2 & G1 & G2 & G3 & _).
    exists w2, c2. split; [exact G1|]. split; [exact G2|exact G3].
Defined.

Definition demo_reqs : list (list bytes) := [[bstr "SET"; bstr "k"; bstr "v"]; [bstr "GET"; bstr "k"]].

Definition demo_pipe : bytes := mjoin (encode_request <$> demo_reqs) ++ bstr "*1".

Lemma pipeline_in_order_witness :
  ∃ w c, demo_world [[line "PING"]] 1 = Some w ∧ heap w !! 1%positive = Some c ∧
    let w0 := set_in 1%positive (Buf.mk demo_pipe 0 (zlen demo_pipe)) w in
    ∃ w' c' o left,
      processInput 1%positive w0 = Ok (tt, w') ∧ heap w' !! 1%positive = Some c' ∧
      serves (tick_time w0) (store_ (server w0)) demo_reqs o (store_ (server w')) left (state_ c') ∧
      Buf.readable (out_ c') = Buf.readable (out_ c) ++ o.
Proof.
  destruct (demo_conn [[line "PING"]] 1 1%positive fresh_conn ltac:(vm_compute; reflexivity)) as (w & c & E & HR & Hc & Hf).
  destruct (demo_input w 1%positive c demo_pipe HR Hc Hf ltac:(vm_compute; discriminate)) as [HI Hst].
  exists w, c. split; [exact E|]. split; [exact Hc|]. cbv zeta.
  destruct (pipeline_in_order 1%positive demo_reqs (bstr "*1") _ _ HI (set_in_lookup _ _ _ _ Hc))
    as (w' & c' & o & left & H1 & H2 & H3 & H4 & _).
  - exact Hst.
  - reflexivity.
  - repeat constructor; vm_compute; discriminate.
  - reflexivity.
  - exists w', c', o, left. split; [exact H1|]. split; [exact H2|]. split; [exact H3|exact H4].
Defined.

(** Two replies and a QUIT: seven bytes are out, the rest is waiting. *)
Definition demo_quit : list (list bytes) := [[line "PING" ++ line "PING" ++ line "QUIT"]].

Definition waits_to_close (w : World Loopback.Sim (gset addr)) (c : Connection) : bool :=
  state_eqb (state_ c) kClosing && negb (Buf.empty (out_ c)) && (interest_ c =? EPOLLOUT).

Lemma flush_delivers_witness :
  ∃ w c, demo_world demo_quit 2 = Some w ∧ heap w !! 1%positive = Some c ∧ waits_to_close w c = true ∧
    ∃ w' c', flushOutput 1%positive w = Ok (tt, w') ∧ heap w' !! 1%positive = Some c' ∧
      k_sent (kern w') (fd_ c) ++ Buf.readable (out_ c') = k_sent (kern w) (fd_ c) ++ Buf.readable (out_ c).
Proof.
  destruct (demo_conn demo_quit 2 1%positive waits_to_close ltac:(vm_compute; reflexivity)) as (w & c & E & HR & Hc & Hf).
  exists w, c. split; [exact E|]. split; [exact Hc|]. split; [exact Hf|].
  destruct (flush_delivers 1%positive w c (re_inv _ HR) Hc) as (w' & c' & H1 & H2 & H3 & _).
  - intros H. unfold waits_to_close in Hf. rewrite H in Hf. discriminate Hf.
  - exists w', c'. split; [exact H1|]. split; [exact H2|exact H3].
Defined.

Lemma closing_is_final_witness :
  ∃ w c, demo_world demo_quit 2 = Some w ∧ heap w !! 1%positive = Some c ∧ state_ c = kClosing ∧
    ∃ w' c', onReadable 1%positive w = Ok (tt, w') ∧ heap w' !! 1%positive = Some c' ∧
      store_ (server w') = store_ (server w) ∧ outgoing w' c' = outgoing w c.
Proof.
  destruct (demo_conn demo_quit 2 1%positive waits_to_close ltac:(vm_compute; reflexivity)) as (w & c & E & HR & Hc & Hf).
  assert (state_ c = kClosing) as Hst by (unfold waits_to_close in Hf; destruct (state_ c); [discriminate Hf|reflexivity|discriminate Hf]).
  exists w, c. split; [exact E|]. split; [exact Hc|]. split; [exact Hst|].
  destruct (closing_is_final 1%positive w c (re_inv _ HR) (re_settled _ HR) Hc) as ((w' & c' & H1 & H2 & H3 & H4 & _) & _).
  - rewrite Hst. discriminate.
  - exists w', c'. split; [exact H1|]. split; [exact H2|]. split; [exact H3|exact H4].
Defined.

End ConnProps.
