(* ===== verification/ExpiryProps.v ===== *)
(** * What an idle server does

    A server nobody talks to still runs its timer: wait after wait times out, and
    each round sweeps a little further, until nothing expired is left. *)

From Stdlib Require Import ZArith Lia Strings.Byte Strings.String.
From stdpp Require Import base gmap numbers list relations.
From S2P Require Import Prelude Bits Buffer Resp Entry Table TableData Store StoreInv StoreEvict StoreCycle StoreSpec StoreProps.
From S2P Require Import Command CommandSpec CommandProps Kernel World Stream Connection Server.
From S2P Require Import NetInv ConnFacts NetSpec AcceptFacts ServerFacts Loopback ConnProps.

Local Open Scope Z_scope.

Module ExpiryProps.
Import Data StoInv StoCycle Srv ConnFacts AcceptFacts ServerFacts ConnProps.

Section idle.
Context {K P : Type} `{!Kernel K} `{!PoolAllocator P} `{!KernelLaws K}.
Implicit Types w : World K P.

(** The next wait reports nothing, after its whole timeout. *)
Definition times_out w : bool :=
  match sys_epoll_wait (expireIntervalMs (server w)) (kern w) with
  | (inl [], false, k') => k_clock (kern w) + expireIntervalMs (server w) <=? k_clock k'
  | _ => false
  end.

(** So do the next [n]. *)
Fixpoint idle (n : nat) w : bool :=
  match n with
  | O => true
  | S n => times_out w && match loop_round w with Ok (_, w') => idle n w' | Fault _ => true end
  end.

(** A round that reports nothing is a sweep at the time it reads. *)
Definition sweeps w w' : Prop :=
  rests w w' ∧ stopRequested_ (loop_ (server w')) = false ∧
  expireSampleBuckets (server w') = expireSampleBuckets (server w) ∧
  ∃ t n, k_clock (kern w) ≤ t ≤ k_clock (kern w') ∧
    Sto.activeExpireCycle t (expireSampleBuckets (server w)) (store_ (server w)) = Ok (n, store_ (server w')).

Lemma idle_round w :
  resting w → stopRequested_ (loop_ (server w)) = false → times_out w = true →
  wp loop_round w (λ e w', e = None ∧ sweeps w w').
Proof.
  intros HR Hstop Hto.
  eapply wp_mono; [apply (wp_and _ _ (λ e w', e = None ∧ (rests w w' → sweeps w w')) (λ _ w', rests w w')); [|by apply loop_round_spec]|].
  2: { intros e w' [[-> H] HR']. auto. }
  unfold loop_round. apply wp_bind, wp_gets. rewrite Hstop. apply wp_bind, wp_syscall.
  unfold times_out in Hto. intros [r sig] k'. destruct (sys_epoll_wait _ _) as [[[evs|e] b] k''] eqn:Hk; [|done].
  destruct evs, b; try done. intros [= <- <- <-]. apply Z.leb_le in Hto. apply wp_bind, wp_ret.
  pose proof (wait_law _ _ _ _ _ Hk) as [Hid _]. destruct (rests_idle _ _ HR Hid) as ([HI1 HS1 HT1] & _).
  apply wp_bind, wp_upd_server, wp_bind. cbn [kern heap server dispatchEvents]. apply wp_ret, wp_bind.
  pose proof (inv_tick _ HI1 HT1) as HI2. cbn [kern heap server] in HI2.
  eapply wp_mono; [by apply onTick_spec|]. intros [] w' (HA & (Hf & _ & Hb & Hrun) & _). apply wp_ret. split; [done|].
  cbn in Hf, Hb, Hrun. specialize (Hf (not_eq_sym (next_tick_fresh _ HT1))).
  pose proof (ck_sweep _ _ (in_clock _ (re_inv _ HR))) as Hls. pose proof (ck_past _ _ (in_clock _ (ad_inv _ _ HA))) as Hp.
  rewrite (proj2 (Z.leb_le _ _)) in Hrun by lia. destruct Hrun as [n Hrun]. pose proof Hid as (_ & _ & _ & _ & Hl & _).
  intros HR'. split; [done|]. split; [by rewrite (ad_loop _ _ HA)|]. split; [done|].
  exists (cachedNow_ (server w')), n. split; [lia|done].
Qed.

(** [n] of them are [n] calls of the expire cycle. *)
Lemma idle_rounds n w :
  resting w → stopRequested_ (loop_ (server w)) = false → idle n w = true →
  wp (loop_run n) w (λ e w', e = None ∧ rests w w' ∧ ∃ times, length times = n ∧
    Forall (λ t, k_clock (kern w) ≤ t ≤ k_clock (kern w')) times ∧
    cycles times (expireSampleBuckets (server w)) (store_ (server w)) = Ok (store_ (server w'))).
Proof.
  revert w. induction n as [|n IH]; intros w HR Hstop Hidle; cbn [loop_run].
  { apply wp_ret. split; [done|]. split; [split; [done|split; [apply later_refl|apply rtc_refl]]|]. by exists []. }
  cbn [idle] in Hidle. apply andb_true_iff in Hidle as [Hto Hidle]. apply wp_bind.
  pose proof (idle_round w HR Hstop Hto) as H. apply returns_inv in H as ([e w1] & E & -> & H).
  unfold wp. rewrite E in Hidle |- *. cbn [returns]. destruct H as (HR1 & Hs1 & Hb1 & t & m & Ht & Hcyc).
  eapply wp_mono; [apply (IH w1); [apply HR1|done|done]|].
  intros e w2 (-> & HR2 & times & Hlen & HT & Hall). split; [done|]. split; [by eapply rests_trans|].
  exists (t :: times). split; [cbn; by rewrite Hlen|]. pose proof HR1 as (_ & [Hl1 _] & _). pose proof HR2 as (_ & [Hl2 _] & _).
  split; [apply Forall_cons; split; [lia|]|].
  - eapply Forall_impl; [exact HT|]. intros x Hx. cbn in Hx |- *. lia.
  - cbn [cycles]. rewrite Hcyc. cbn [rbind]. by rewrite <-Hb1.
Qed.

(** C22: an idle server cleans up.  Between requests, as many waits that time out
    as twice the buckets of the table end with nothing stored whose deadline had
    passed when they began: the timer's sweeps together reach every bucket.
    Nothing whose deadline has not passed at the end is lost.  So an expired key
    that nobody reads does wait no longer than that on an idle server, though the
    comment on [Server::Config] says that there is no bound. *)
Theorem idle_server_expires w (n : nat) (M : kvmap) (HR : resting w)
    (Hstop : stopRequested_ (loop_ (server w)) = false) (HM : Rep (store_ (server w)) M)
    (Hidle : idle n w = true) (Hn : 2 * Sto.bucketCount (store_ (server w)) ≤ Z.of_nat n) :
  ∃ w' M', run n w = Ok (None, w') ∧ Rep (store_ (server w')) M' ∧
    reaped_by (k_clock (kern w)) (k_clock (kern w')) M M'.
Proof.
  pose proof (idle_rounds n w HR Hstop Hidle) as H. apply returns_inv in H as ([e w'] & E & -> & _ & times & Hlen & HT & Hc).
  pose proof (ck_limit _ _ (in_clock _ (re_inv _ HR))) as Hlim.
  pose proof (cycles_reap_all times _ _ _ _ M HM Hlim HT ltac:(by rewrite Hlen)) as H.
  rewrite Hc in H. destruct H as (M' & HM' & Hr). exists w', M'. split; [|done].
  unfold run. change (loop_run n w = Ok (None, w')) in E. unfold mbind, M_bind. by rewrite E.
Qed.

End idle.

(** ** Witness *)

(** A client leaves a key that lives for a millisecond. *)
Definition idle_clients : list (list bytes) := [[bstr "SET a 1 PX 1" ++ CRLF]].

Definition stored (w : World Loopback.Sim (gset addr)) : Z := Sto.size (store_ (server w)).

Lemma idle_server_expires_witness :
  ∃ w, demo_idle 20 idle_clients 2 = Some w ∧ stored w = 1 ∧ idle 8 w = true ∧
    ∃ M w' M', Rep (store_ (server w)) M ∧ run 8 w = Ok (None, w') ∧ Rep (store_ (server w')) M' ∧
      reaped_by (k_clock (kern w)) (k_clock (kern w')) M M'.
Proof.
  assert (match demo_idle 20 idle_clients 2 with
          | Some w => (stored w =? 1) && idle 8 w && negb (stopRequested_ (loop_ (server w))) &&
                      (2 * Sto.bucketCount (store_ (server w)) <=? 8)
          | None => false end = true) as H by (vm_compute; reflexivity).
  destruct (demo_idle 20 idle_clients 2) as [w|] eqn:E; [|discriminate H]. pose proof (demo_idle_resting _ _ _ _ E) as HR.
  apply andb_true_iff in H as [[[H1 H2]%andb_true_iff H3]%andb_true_iff H4].
  exists w. split; [reflexivity|]. split; [by apply Z.eqb_eq|]. split; [exact H2|].
  destruct (in_store _ (re_inv _ HR)) as (M & HM & _).
  destruct (idle_server_expires w 8 M HR (proj1 (negb_true_iff _) H3) HM H2 (proj1 (Z.leb_le _ _) H4)) as (w' & M' & G1 & G2 & G3).
  exists M, w', M'. split; [exact HM|]. split; [exact G1|]. split; [exact G2|exact G3].
Defined.

(** Eight rounds later the key is gone. *)
Example idle_demo :
  match demo_idle 20 idle_clients 2 with
  | Some w => match run 8 w with Ok (_, w') => (stored w, stored w') | Fault _ => (0, 0) end
  | None => (0, 0)
  end = (1, 0).
Proof. vm_compute. reflexivity. Qed.

End ExpiryProps.
