(* ===== verification/ServerProps.v ===== *)
(** * What the server guarantees

    The claims about whole runs, on any kernel with the documented behaviour:
    nothing faults, clients see the abstract server, no wake-up is lost, nothing
    leaks, accepting and stopping come to an end. *)

From Stdlib Require Import ZArith Lia Strings.Byte Strings.String.
From stdpp Require Import base gmap numbers list relations.
From S2P Require Import Prelude Bits Buffer Resp Entry Table Store StoreSpec StoreProps Command CommandSpec CommandProps.
From S2P Require Import Kernel World Stream Connection Server NetInv ConnFacts NetSpec AcceptFacts ServerFacts Loopback.
From S2P Require Import ConnProps.

Local Open Scope Z_scope.

Module ServerProps.
Import Srv CmdSpec CmdProps ConnFacts AcceptFacts ServerFacts ConnProps.

Section props.
Context {K P : Type} `{!Kernel K} `{!PoolAllocator P} `{!KernelLaws K}.
Implicit Types (w : World K P).

Lemma run_from cfg (st : Sto.Store P) (k k' : K) w n :
  can_start cfg st k → construct cfg st k = (inl w, k') →
  ∃ e w', run n w = Ok (e, w') ∧ resting w' ∧ rtc nstep (mkNet 0 st ∅) (view w').
Proof.
  intros HC E. destruct (construct_spec _ _ _ _ _ HC E) as (_ & HR & Hv).
  pose proof (run_spec n w HR) as H. apply returns_inv in H as ([e w'] & Er & H1 & _ & H3).
  exists e, w'. by rewrite <-Hv.
Qed.

(** C3: the server is the abstract server.  Once constructed it runs any number
    of rounds, on any kernel that behaves as documented, without an assertion
    failing, a freed connection being touched or an integer or a buffer
    overflowing; and what every client has sent and been sent back is what steps
    of the abstract server produce: clients connect and leave, each client's
    bytes are cut into requests answered in order against the one store, at times
    that never go back, and expired keys are collected between. *)
Theorem server_refines_net (cfg : Config) (st : Sto.Store P) (k k' : K) w (n : nat)
    (HC : can_start cfg st k) (Hmake : construct cfg st k = (inl w, k')) :
  ∃ e w', run n w = Ok (e, w') ∧ rtc nstep (mkNet 0 st ∅) (view w').
Proof. destruct (run_from _ _ _ _ _ n HC Hmake) as (e & w' & E & _ & H). by exists e, w'. Qed.

(** C8: nothing leaks.  A constructor that throws has closed every descriptor it
    opened; and after any number of rounds the destructors close every descriptor
    exactly once, empty the interest list, free every connection, and free every
    entry and every spill block of the store. *)
Theorem server_leaks_nothing (cfg : Config) (st : Sto.Store P) (k : K) (HC : can_start cfg st k) :
  match construct cfg st k with
  | (inr _, k') => k_open k' = ∅
  | (inl w, _) => ∀ n, ∃ e w' w'', run n w = Ok (e, w') ∧ destroy_server w' = Ok (tt, w'') ∧
                    k_open (kern w'') = ∅ ∧ k_interest (kern w'') = ∅ ∧ heap w'' = ∅ ∧ emptied (store_ (server w''))
  end.
Proof.
  destruct (construct cfg st k) as [[w|e] k'] eqn:E; [|exact (construct_spec _ _ _ _ _ HC E)]. intros n.
  destruct (run_from _ _ _ _ _ n HC E) as (e & w' & Er & HR & _).
  pose proof (destroy_server_spec w' (re_inv _ HR)) as H. apply returns_inv in H as ([[] w''] & Ed & H).
  by exists e, w', w''.
Qed.

(** C4: every client gets its replies.  After any number of rounds, the bytes read
    from a connection that is open are a sequence of requests and the beginning of
    one, which is what is buffered; and the bytes written to it, with those
    waiting to be written, decode to one reply for each of these requests that is
    not empty, in the order they were sent, each an answer of the dispatcher. *)
Theorem clients_get_replies (cfg : Config) (st : Sto.Store P) (k k' : K) w (n : nat)
    (HC : can_start cfg st k) (Hmake : construct cfg st k = (inl w, k')) :
  ∃ e w', run n w = Ok (e, w') ∧
    ∀ a c, heap w' !! a = Some c → state_ c = kOpen → ∃ reqs rs,
      Stream.cuts (k_received (kern w') (fd_ c)) reqs (Buf.readable (in_ c)) ∧
      decode_stream (k_sent (kern w') (fd_ c) ++ Buf.readable (out_ c)) = Some rs ∧
      Forall2 (replied (P:=P)) (filter is_request reqs) rs.
Proof.
  destruct (run_from _ _ _ _ _ n HC Hmake) as (e & w' & E & _ & Hv). exists e, w'. split; [done|]. intros a c Hc Hst.
  destruct (nsteps_ok _ _ Hv) as [_ HN]; [split; [apply HC|apply map_Forall_empty]|].
  destruct (HN a (view_client w' c) (view_lookup _ _ _ Hc) Hst) as (reqs & Hcut & rs & Hr & Ho).
  unfold view_client, client_of in Hcut, Ho. cbn in Hcut, Ho. rewrite Hst in Hcut. exists reqs, rs.
  split; [done|]. split; [|done]. unfold outgoing in Ho. rewrite Ho. apply decode_stream_encode.
  apply Forall_forall. intros r [i Hi]%list_elem_of_lookup.
  destruct (Forall2_lookup_r _ _ _ _ _ Hr Hi) as (args & _ & now & s & s' & d & _ & _ & Hwf & _). done.
Qed.

(** The events of a mask. *)
Lemma wanted_bits c : Buf.wf (out_ c) →
  (Z.land (wanted c) EPOLLIN ≠ 0 ↔ state_ c = kOpen) ∧ (Z.land (wanted c) EPOLLOUT ≠ 0 ↔ Buf.readable (out_ c) ≠ []).
Proof.
  intros Hwf. unfold wanted. pose proof (Buf.empty_readable (out_ c) Hwf) as He.
  destruct (Buf.empty (out_ c)), (state_ c); cbn; split; split; try done; try (by rewrite (proj1 He eq_refl));
    intros _ H; by apply He in H.
Qed.

(** C7: no wake-up is lost.  Between rounds epoll watches the listener, unless
    accepting is paused, and every live connection, through a pointer to the
    object the map holds: for input exactly while it is open, and for output
    exactly while it has bytes to send, which a closing one always has.  Closed
    connections are in nobody's map, and their descriptors stay open until they
    are freed. *)
Theorem no_lost_wakeups (cfg : Config) (st : Sto.Store P) (k k' : K) w (n : nat)
    (HC : can_start cfg st k) (Hmake : construct cfg st k = (inl w, k')) :
  ∃ e w', run n w = Ok (e, w') ∧
    k_interest (kern w') !! acceptor_fd (server w') =
      Some (mkEvent (if acceptPaused_ (server w') then 0 else EPOLLIN) HAcceptor) ∧
    (∀ fd a, connections_ (server w') !! fd = Some a → ∃ c m, heap w' !! a = Some c ∧ fd_ c = fd ∧
       k_interest (kern w') !! fd = Some (mkEvent m (HConn a)) ∧
       (Z.land m EPOLLIN ≠ 0 ↔ state_ c = kOpen) ∧ (Z.land m EPOLLOUT ≠ 0 ↔ Buf.readable (out_ c) ≠ []) ∧
       (state_ c = kClosing → Buf.readable (out_ c) ≠ [])) ∧
    (∀ a c, heap w' !! a = Some c → fd_ c ∈ k_open (kern w') ∧
       (state_ c = kClosed ↔ connections_ (server w') !! fd_ c ≠ Some a)).
Proof.
  destruct (run_from _ _ _ _ _ n HC Hmake) as (e & w' & E & [HI HS _] & _). exists e, w'.
  split; [done|]. split; [apply HI|]. pose proof (in_owners _ HI) as [O1 O2 O3]. split.
  - intros fd a (c & Hc & <- & Hst)%O1. destruct (HS _ _ Hc Hst) as [Hi Hcl]. exists c, (wanted c).
    destruct (wanted_bits c (co_out _ _ (in_conns _ HI _ _ Hc))) as [H1 H2].
    split; [done|]. split; [done|]. split; [by rewrite <-Hi; apply HI|done].
  - intros a c Hc. split; [by eapply conn_open|]. rewrite O1. split.
    + intros Hst (x & Hx & _ & Hx'). congruence.
    + intros Hno. assert (state_ c = kClosed ∨ state_ c ≠ kClosed) as [?|Hst] by (destruct (state_ c); auto); [done|].
      exfalso. apply Hno. by exists c.
Qed.

(** C19: accepting ends.  However many clients are queued, and whatever errors
    accept, setsockopt and epoll report, [acceptPending] returns: every round it
    starts anew has used up a queued connection or a signal.  Connections are
    only added, each accepted descriptor is either owned by one of them or closed
    again, and neither the other connections nor the store are touched. *)
Theorem accept_terminates w (HI : inv w) (HS : all_settled w) :
  ∃ w', acceptPending w = Ok (tt, w') ∧ heap w ⊆ heap w' ∧ store_ (server w') = store_ (server w) ∧
    (∀ a c, heap w' !! a = Some c → state_ c ≠ kClosed → connections_ (server w') !! fd_ c = Some a) ∧
    (∀ fd, fd ∈ k_open (kern w') ↔
       fd = epollFd_ (loop_ (server w')) ∨ fd = acceptor_fd (server w') ∨
       (fd = reserveFd_ (server w') ∧ fd ≠ -1) ∨ ∃ a c, heap w' !! a = Some c ∧ fd_ c = fd).
Proof.
  pose proof (acceptPending_spec w HI HS) as H. apply returns_inv in H as ([[] w'] & E & HA & Hh & Hs).
  exists w'. pose proof (ad_inv _ _ HA) as HI'. split; [done|]. split; [done|]. split; [done|]. split; [|apply HI'].
  intros a c Hc Hst. apply (oo_live _ _ (in_owners _ HI')). by exists c.
Qed.

(** ** Stopping *)

(** The loop was left, and is as it was before it was entered. *)
Definition left_loop (e : option Exit) w : Prop :=
  ∃ x, e = Some x ∧ stopRequested_ (loop_ (server w)) = false ∧ (x = Stopped → retired_ (server w) = []).

Lemma stopped_round w n :
  resting w → stopRequested_ (loop_ (server w)) = true →
  wp (loop_run (S n)) w (λ e w', e = Some Stopped ∧ resting w' ∧ stopRequested_ (loop_ (server w')) = false).
Proof.
  intros HR Hs. cbn [loop_run]. apply wp_bind. unfold loop_round. apply wp_bind, wp_gets. rewrite Hs.
  apply wp_ret, wp_bind, wp_upd_server, wp_ret. split; [done|]. split; [|done]. by apply (resting_stop _ false).
Qed.

Lemma signalled_round w n r (k' : K) :
  resting w → sys_epoll_wait (expireIntervalMs (server w)) (kern w) = (r, true, k') →
  wp (loop_run (S (S n))) w (λ e w', is_Some e ∧ resting w' ∧ stopRequested_ (loop_ (server w')) = false).
Proof.
  intros HR Hsig. destruct (stopRequested_ (loop_ (server w))) eqn:Es.
  { eapply wp_mono; [by apply stopped_round|]. intros e w' (-> & H). split; [by eexists|done]. }
  pose proof (wait_law _ _ _ _ _ Hsig) as [Hid _]. pose proof (rests_idle _ _ HR Hid) as [HR1 _].
  pose proof (resting_stop _ true HR1) as HR2.
  change (loop_run (S (S n))) with (e ← loop_round;
    match e with None => loop_run (S n) | Some e => upd_server (set_stop false);; mret (Some e) end : M K P (option Exit)).
  apply wp_bind. unfold loop_round at 1. apply wp_bind, wp_gets. rewrite Es. apply wp_bind, wp_syscall.
  intros [r' b'] k'' Hk. rewrite Hsig in Hk. injection Hk as <- <- <-. apply wp_bind, wp_upd_server. cbn [kern heap server] in *.
  assert (∀ w3, resting w3 → stopRequested_ (loop_ (server w3)) = true → wp (loop_run (S n)) w3
    (λ e w', is_Some e ∧ resting w' ∧ stopRequested_ (loop_ (server w')) = false)) as Hnext.
  { intros w3 HR3 Hs3. eapply wp_mono; [by apply stopped_round|]. intros e w' (-> & H). split; [by eexists|done]. }
  destruct r as [evs|e].
  - eapply wp_mono; [apply (tick_spec _ evs HR2)|].
    + intros ev Hev. by apply (wait_points _ _ _ _ _ _ (re_inv _ HR) Hsig eq_refl).
    + intros e w3 (-> & (HR3 & _) & Hs3). by apply Hnext.
  - case_bool_decide; apply wp_ret; [by apply Hnext|]. apply wp_bind, wp_upd_server, wp_ret.
    split; [by eexists|]. split; [|done]. by apply (resting_stop _ false).
Qed.

Lemma signalled_run w n r (k' : K) :
  resting w → sys_epoll_wait (expireIntervalMs (server w)) (kern w) = (r, true, k') → wp (run (S (S n))) w left_loop.
Proof.
  intros HR Hsig. unfold run. apply wp_bind. eapply wp_mono; [by eapply signalled_round|].
  intros e w1 ([x ->] & HR1 & Hs). destruct x as [|err]; [|apply wp_ret; by exists (Threw err)].
  apply wp_bind. eapply wp_mono; [apply (destroyRetired_spec _ (re_inv _ HR1) (re_settled _ HR1))|].
  intros [] w' (_ & Hr & Hsv). apply wp_ret. exists Stopped. split; [done|]. split; [by rewrite Hsv|done].
Qed.

(** C21: stopping works.  When a signal arrives during a wait, the loop serves the
    events of that wait and is left by the next round, or at once when the wait
    itself fails; the flag is down again, so the server could be run anew, and
    after a stop no closed connection is left. *)
Theorem signal_stops_run w (n : nat) r (k' : K) (HR : resting w)
    (Hsig : sys_epoll_wait (expireIntervalMs (server w)) (kern w) = (r, true, k')) :
  ∃ e w', run (S (S n)) w = Ok (Some e, w') ∧ stopRequested_ (loop_ (server w')) = false ∧
    (e = Stopped → retired_ (server w') = []).
Proof.
  pose proof (signalled_run w n r k' HR Hsig) as H. apply returns_inv in H as ([e w'] & E & x & -> & H1 & H2).
  by exists x, w'.
Qed.

End props.

(** ** Witnesses *)

Definition demo_clients : list (list bytes) := [[line "PING" ++ line "SET a 1"; line "GET a"]; [line "SET b 2"; line "QUIT"]].

(** What the clients of a world have been sent. *)
Definition sent_by (w : World Loopback.Sim (gset addr)) : list (Z * bytes) :=
  prod_map id snd <$> map_to_list (Loopback.s_io (kern w)).

Lemma demo_built :
  ∃ (st : Sto.Store (gset addr)) w k', Sto.make StoProps.demo_cfg 0 0 = Ok st ∧
    can_start default_Config st (Loopback.boot demo_clients) ∧
    construct default_Config st (Loopback.boot demo_clients) = (inl w, k').
Proof.
  destruct demo_store as (st & E & HS). exists st.
  pose proof (demo_start demo_clients st HS) as HC.
  destruct (construct default_Config st (Loopback.boot demo_clients)) as [[w|e] k'] eqn:Ec.
  - by exists w, k'.
  - exfalso. unfold demo_world, demo_idle in *.
    assert (match demo_world demo_clients 0 with Some _ => true | None => false end = true) as H by (vm_compute; reflexivity).
    unfold demo_world, demo_idle in H. change (Loopback.boot_idle 0 demo_clients) with (Loopback.boot demo_clients) in H. by rewrite E, Ec in H.
Qed.

Lemma server_refines_net_witness :
  ∃ (st : Sto.Store (gset addr)) w k', Sto.make StoProps.demo_cfg 0 0 = Ok st ∧
    construct default_Config st (Loopback.boot demo_clients) = (inl w, k') ∧
    ∃ e w', run 30 w = Ok (e, w') ∧ rtc nstep (mkNet 0 st ∅) (view w').
Proof.
  destruct demo_built as (st & w & k' & E & HC & Ec). exists st, w, k'. split; [exact E|]. split; [exact Ec|].
  exact (server_refines_net default_Config st (Loopback.boot demo_clients) k' w 30 HC Ec).
Defined.

(** The same run, evaluated. *)
Example demo_output :
  sent_by <$> demo_world demo_clients 30 = Some [(3, crlf_text "+PONG|+OK|$1|1|"); (4, crlf_text "+OK|+OK|")].
Proof. vm_compute. reflexivity. Qed.

Lemma clients_get_replies_witness :
  ∃ (st : Sto.Store (gset addr)) w k', Sto.make StoProps.demo_cfg 0 0 = Ok st ∧
    construct default_Config st (Loopback.boot demo_clients) = (inl w, k') ∧
    ∃ e w', run 3 w = Ok (e, w') ∧
      ∀ a c, heap w' !! a = Some c → state_ c = kOpen → ∃ reqs rs,
        Stream.cuts (k_received (kern w') (fd_ c)) reqs (Buf.readable (in_ c)) ∧
        decode_stream (k_sent (kern w') (fd_ c) ++ Buf.readable (out_ c)) = Some rs ∧
        Forall2 (replied (P:=gset addr)) (filter is_request reqs) rs.
Proof.
  destruct demo_built as (st & w & k' & E & HC & Ec). exists st, w, k'. split; [exact E|]. split; [exact Ec|].
  exact (clients_get_replies default_Config st (Loopback.boot demo_clients) k' w 3 HC Ec).
Defined.

Lemma server_leaks_nothing_witness :
  ∃ st : Sto.Store (gset addr), Sto.make StoProps.demo_cfg 0 0 = Ok st ∧
    match construct default_Config st (Loopback.boot demo_clients) with
    | (inr _, k') => k_open k' = ∅
    | (inl w, _) => ∀ n, ∃ e w' w'', run n w = Ok (e, w') ∧ destroy_server w' = Ok (tt, w'') ∧
                      k_open (kern w'') = ∅ ∧ k_interest (kern w'') = ∅ ∧ heap w'' = ∅ ∧ emptied (store_ (server w''))
    end.
Proof.
  destruct demo_built as (st & w & k' & E & HC & Ec). exists st. split; [exact E|].
  exact (server_leaks_nothing default_Config st (Loopback.boot demo_clients) HC).
Defined.

Lemma no_lost_wakeups_witness :
  ∃ (st : Sto.Store (gset addr)) w k', Sto.make StoProps.demo_cfg 0 0 = Ok st ∧
    construct default_Config st (Loopback.boot demo_clients) = (inl w, k') ∧
    ∃ e w', run 3 w = Ok (e, w') ∧
      k_interest (kern w') !! acceptor_fd (server w') =
        Some (mkEvent (if acceptPaused_ (server w') then 0 else EPOLLIN) HAcceptor).
Proof.
  destruct demo_built as (st & w & k' & E & HC & Ec). exists st, w, k'. split; [exact E|]. split; [exact Ec|].
  destruct (no_lost_wakeups default_Config st (Loopback.boot demo_clients) k' w 3 HC Ec) as (e & w' & H1 & H2 & _).
  exists e, w'. split; [exact H1|exact H2].
Defined.

Lemma accept_terminates_witness :
  ∃ w, demo_world demo_clients 0 = Some w ∧ k_budget (kern w) = 2%nat ∧
    ∃ w', acceptPending w = Ok (tt, w') ∧ heap w ⊆ heap w' ∧ store_ (server w') = store_ (server w).
Proof.
  destruct (demo_world demo_clients 0) as [w|] eqn:E.
  - exists w. split; [reflexivity|]. pose proof (demo_resting _ _ _ E) as HR. split.
    + assert (match demo_world demo_clients 0 with Some w => k_budget (kern w) | None => 0%nat end = 2%nat) as H
        by (vm_compute; reflexivity).
      rewrite E in H. exact H.
    + destruct (accept_terminates w (re_inv _ HR) (re_settled _ HR)) as (w' & H1 & H2 & H3 & _).
      exists w'. split; [exact H1|]. split; [exact H2|exact H3].
  - exfalso. assert (match demo_world demo_clients 0 with Some _ => true | None => false end = true) as H by (vm_compute; reflexivity).
    rewrite E in H. discriminate H.
Defined.

(** With nobody connecting, the first wait of the loopback kernel is interrupted. *)
Lemma signal_stops_run_witness :
  ∃ w, demo_world [] 0 = Some w ∧
    ∃ e w', run 2 w = Ok (Some e, w') ∧ stopRequested_ (loop_ (server w')) = false ∧
      (e = Stopped → retired_ (server w') = []).
Proof.
  destruct (demo_world [] 0) as [w|] eqn:E.
  - exists w. split; [reflexivity|]. pose proof (demo_resting _ _ _ E) as HR.
    assert (match demo_world [] 0 with Some w => (Loopback.wait (expireIntervalMs (server w)) (kern w)).1.2 | None => false end = true) as H
      by (vm_compute; reflexivity).
    rewrite E in H. destruct (Loopback.wait (expireIntervalMs (server w)) (kern w)) as [[r b] k'] eqn:Ew. cbn in H. subst b.
    exact (signal_stops_run w 0 r k' HR Ew).
  - exfalso. assert (match demo_world [] 0 with Some _ => true | None => false end = true) as H by (vm_compute; reflexivity).
    rewrite E in H. discriminate H.
Defined.

End ServerProps.
