(* ===== verification/IdealProps.v ===== *)
(** * The running server as one ideal map

    The claim that composes the whole development: on any kernel with the
    documented behaviour, the clients of the running program talk to an ideal map
    with deadlines. *)

From Stdlib Require Import ZArith Lia Strings.Byte Strings.String.
From stdpp Require Import base gmap numbers list relations.
From S2P Require Import Prelude Bits Buffer Resp RespSpec Entry Table Store StoreInv StoreSpec StoreProps Command CommandSpec CommandProps.
From S2P Require Import Kernel World Stream Connection Server NetInv ConnFacts NetSpec NetIdeal AcceptFacts ServerFacts.
From S2P Require Import Loopback ConnProps ServerProps.

Local Open Scope Z_scope.

Module IdealProps.
Import Srv StoProps CmdSpec CmdProps Stream ConnFacts NetIdeal AcceptFacts ServerFacts ConnProps ServerProps.

Section props.
Context {K P : Type} `{!Kernel K} `{!PoolAllocator P} `{!KernelLaws K}.
Implicit Types (w : World K P).

(** C1: the running server is one map with deadlines.  After any number of
    rounds there is one sequence in which the requests of all clients were served,
    at times that never go back, such that each client still connected has sent
    exactly its requests of the sequence, then what is not a request yet, and the
    bytes it was or will be sent decode to the replies of the sequence to them.
    When the keys stored fit the key cap these are the replies of a single ideal
    map, changed by the whole sequence; and they are always those of that map with
    the cap, in which a new key is refused or another one is dropped, as the policy
    says, only when the keys alive and perhaps some that have expired are as many. *)
Theorem server_is_ideal_redis (cfg : Config) (rd0 rd1 : Z) (st : Sto.Store P) (k k' : K) w (n : nat)
    (Hcfg : config_ok (store_cfg cfg)) (Hrd : 0 ≤ rd1 < 2 ^ 32) (Hst : Sto.make (store_cfg cfg) rd0 rd1 = Ok st)
    (HC : can_start cfg st k) (Hmake : construct cfg st k = (inl w, k')) :
  let cap := config_cap (store_cfg cfg) in
  ∃ e w' tr, run n w = Ok (e, w') ∧
    (Z.of_nat (base.size (net_keys tr)) ≤ cap → ∃ J, ideal_trace (ideal_answer cap) tr (cachedNow_ (server w')) J) ∧
    (∃ J, ideal_trace (capped_answer cap (Sto.policy (store_cfg cfg))) tr (cachedNow_ (server w')) J) ∧
    ∀ a c, heap w' !! a = Some c → ∃ reqs rest,
      takes (k_received (kern w') (fd_ c)) reqs rest ∧ filter is_request reqs = omap fst (own a tr) ∧
      decode_stream (k_sent (kern w') (fd_ c) ++ Buf.readable (out_ c)) = Some (own a tr).*2 ∧
      (state_ c = kOpen → rest = Buf.readable (in_ c) ∧ command_p rest = More ∧ Forall (λ i, is_Some i.1) (own a tr)).
Proof.
  intros cap. destruct (make_Rep (P := P) _ rd0 rd1 Hcfg Hrd) as (st' & E & HR & Hcap & Hpol & _).
  assert (st' = st) as -> by congruence.
  destruct (run_from _ _ _ _ _ n HC Hmake) as (e & w' & Er & _ & Hv).
  destruct (nsteps_ideal _ _ _ _ Hv (start_ideal st (cs_store _ _ _ HC))) as (tr & HN). exists e, w', tr. split; [done|].
  split; [|split].
  - intros Hfit. edestruct (ni_store _ _ _ HN) as (J & HT & _).
    + apply (ideal_answers_for cap (net_keys tr)).
    + split; [done|]. exists ∅. apply sim_start; [done|by rewrite Hcap].
    + by apply keys_ok.
    + by exists J.
  - edestruct (ni_store _ _ _ HN) as (J & HT & _).
    + apply (capped_answers_for cap (Sto.policy (store_cfg cfg))).
    + split; [done|]. split; [done|]. exists ∅. by apply rel_start.
    + apply Forall_forall. by intros [|? ? [[]]].
    + by exists J.
  - intros a c Hc. destruct (ni_clients _ _ _ HN a _ (view_lookup _ _ _ Hc)) as (reqs & rest & H1 & H2 & H3 & H4 & H5).
    exists reqs, rest. split; [exact H1|]. split; [exact H2|]. split.
    + change (k_sent _ _ ++ _) with (replies (view_client w' c)). rewrite H3, list_fmap_compose.
      by apply decode_stream_encode, Forall_fmap.
    + intros Hop. destruct (H5 Hop) as (-> & Hm & Hs). revert Hm Hs. unfold view_client, client_of. cbn. by rewrite Hop.
Qed.

End props.

(** Two clients on the loopback kernel share a map of one key. *)
Definition small_cfg : Config := mkConfig (bstr "127.0.0.1"%string) 6380 512 100 20 full_cfg.

Lemma small_built :
  ∃ (st : Sto.Store (gset addr)) w k', Sto.make full_cfg 0 0 = Ok st ∧
    can_start small_cfg st (Loopback.boot demo_clients) ∧
    construct small_cfg st (Loopback.boot demo_clients) = (inl w, k').
Proof.
  destruct (make_Rep (P := gset addr) full_cfg 0 0 ltac:(vm_compute; repeat split; discriminate)
    ltac:(vm_compute; split; [discriminate|reflexivity])) as (st & E & HR & _).
  exists st. destruct (construct small_cfg st (Loopback.boot demo_clients)) as [[w|e] k'] eqn:Ec.
  - exists w, k'. split; [done|]. split; [|done]. split; try done; by apply empty_sound.
  - exfalso. assert (match construct small_cfg st (Loopback.boot demo_clients) with (inl _, _) => true | _ => false end = true)
      as H by (vm_compute; reflexivity). by rewrite Ec in H.
Qed.

Lemma server_is_ideal_redis_witness :
  ∃ (st : Sto.Store (gset addr)) w k', Sto.make full_cfg 0 0 = Ok st ∧
    construct small_cfg st (Loopback.boot demo_clients) = (inl w, k') ∧
    ∃ e w' tr, run 3 w = Ok (e, w') ∧
      (∃ J, ideal_trace (capped_answer 1 Sto.kNoEviction) tr (cachedNow_ (server w')) J) ∧
      ∀ a c, heap w' !! a = Some c →
        decode_stream (k_sent (kern w') (fd_ c) ++ Buf.readable (out_ c)) = Some (own a tr).*2.
Proof.
  destruct small_built as (st & w & k' & E & HC & Ec). exists st, w, k'. split; [exact E|]. split; [exact Ec|].
  destruct (server_is_ideal_redis small_cfg 0 0 st (Loopback.boot demo_clients) k' w 3) as (e & w' & tr & H1 & _ & H2 & H3).
  - vm_compute. repeat split; discriminate.
  - vm_compute. split; [discriminate|reflexivity].
  - exact E.
  - exact HC.
  - exact Ec.
  - exists e, w', tr. split; [exact H1|]. split; [exact H2|]. intros a c Hc.
    destruct (H3 a c Hc) as (_ & _ & _ & _ & H & _). exact H.
Defined.

End IdealProps.
