(* ===== verification/MainProps.v ===== *)
(** * What the program guarantees

    Which command lines are accepted and what they mean; and that the program,
    whatever its arguments, ends with nothing left open. *)

From Stdlib Require Import ZArith Lia Strings.Byte Strings.String.
From stdpp Require Import base gmap numbers list relations.
From S2P Require Import Prelude Bits Buffer Resp RespWire Entry Table TableInv Store StoreInv StoreSpec StoreProps.
From S2P Require Import Command CommandSpec CommandProps Kernel World Stream Connection Server Main.
From S2P Require Import NetInv ConnFacts NetSpec NetIdeal AcceptFacts ServerFacts Loopback.

Local Open Scope Z_scope.

Module MainProps.
Import Srv Main NetIdeal AcceptFacts ServerFacts.

(** ** Numbers *)

Lemma digits_value_pos ds : Forall (λ c, 48 ≤ code c ≤ 57) ds → 0 ≤ Cmds.digits_value ds.
Proof.
  intros H. induction ds as [|c ds IH] using rev_ind; [done|]. apply Forall_app in H as [H [Hc _]%Forall_cons].
  rewrite CmdSpec.digits_value_snoc. specialize (IH H). lia.
Qed.

Lemma strtoull_range s : 0 ≤ strtoull s < 2 ^ 64.
Proof.
  unfold strtoull. destruct (match skip_spaces s with "-"%byte :: _ => _ | "+"%byte :: _ => _ | _ => _ end) as [neg s'].
  pose proof (digits_value_pos _ (proj1 (CmdSpec.digits_prefix_spec s'))).
  destruct (Z.ltb_spec (2 ^ 64 - 1) (Cmds.digits_value (Cmds.digits_prefix s'))); [lia|].
  destruct neg; [apply u64_range|lia].
Qed.

(** A number in decimal is read back. *)
Lemma strtoull_dec n : 0 ≤ n < 2 ^ 64 → strtoull (to_chars n) = n.
Proof.
  intros Hn. rewrite to_chars_nonneg by lia. pose proof (CmdSpec.digits_value_dec 20 n ltac:(lia)) as Hv.
  pose proof (dec_digits 20 n ltac:(lia)) as Hd. unfold strtoull. destruct (dec 20 n) as [|c s] eqn:E.
  { cbn in Hv. subst n. done. }
  pose proof (CmdSpec.digits_prefix_all _ Hd) as Hp. apply Forall_cons in Hd as [Hc _]. cbn [skip_spaces].
  assert (isspace c = false) as ->.
  { unfold isspace. apply orb_false_iff. split; [apply Z.eqb_neq; lia|]. apply andb_false_iff. right. apply Z.leb_gt. lia. }
  assert (match c :: s with "-"%byte :: s => (true, s) | "+"%byte :: s => (false, s) | _ => (false, c :: s) end = (false, c :: s)) as ->.
  { destruct c; try done; exfalso; destruct Hc as [Hc _]; by apply Hc. }
  rewrite Hp, Hv. by rewrite (proj2 (Z.ltb_ge _ _)) by lia.
Qed.

(** ** The command line *)

Inductive flag := FBind | FPort | FMaxKeys | FBuckets.

Definition flag_name (f : flag) : bytes :=
  match f with
  | FBind => bstr "--bind" | FPort => bstr "--port" | FMaxKeys => bstr "--maxkeys" | FBuckets => bstr "--buckets"
  end.

(** What an option sets. *)
Definition set_flag (cfg : Config) (o : flag * bytes) : Config :=
  match o with
  | (FBind, v) => with_bindAddr v cfg
  | (FPort, v) => with_port (strtoull v mod 2 ^ 16) cfg
  | (FMaxKeys, v) => with_store_cfg (with_maxKeys (strtoull v) (store_cfg cfg)) cfg
  | (FBuckets, v) => with_store_cfg (with_initialBuckets (strtoull v) (store_cfg cfg)) cfg
  end.

Definition command_line (opts : list (flag * bytes)) : list bytes := mjoin ((λ '(f, v), [flag_name f; v]) <$> opts).

Lemma parse_flag f v args cfg : parse_args (flag_name f :: v :: args) cfg = parse_args args (set_flag cfg (f, v)).
Proof. by destruct f. Qed.

Lemma parse_inv arg v args cfg cfg' :
  parse_args (arg :: v :: args) cfg = Some cfg' → ∃ f, arg = flag_name f ∧ parse_args args (set_flag cfg (f, v)) = Some cfg'.
Proof.
  cbn [parse_args]. repeat case_bool_decide; subst; intros H'; [by exists FBind|by exists FPort|by exists FMaxKeys|by exists FBuckets|done].
Qed.

Lemma parse_args_iff args cfg cfg' :
  parse_args args cfg = Some cfg' ↔ ∃ opts, args = command_line opts ∧ cfg' = foldl set_flag cfg opts.
Proof.
  split.
  - revert cfg. induction args as [args IH] using (induction_ltof1 _ (@List.length bytes)). unfold ltof in IH. intros cfg.
    destruct args as [|arg [|v args]]; [intros [= <-]; by exists []|done|].
    intros (f & -> & H)%parse_inv. apply IH in H as (opts & -> & ->); [|cbn; lia]. by exists ((f, v) :: opts).
  - intros (opts & -> & ->). revert cfg. induction opts as [|[f v] opts IH]; intros cfg; [done|].
    change (command_line ((f, v) :: opts)) with (flag_name f :: v :: command_line opts). rewrite parse_flag. apply IH.
Qed.

(** What options cannot change, and the ranges they leave. *)
Definition cfg_sane (cfg : Config) : Prop :=
  0 ≤ port cfg < 2 ^ 16 ∧ 0 ≤ Sto.cfg_maxKeys (store_cfg cfg) < 2 ^ 64 ∧ 0 ≤ Sto.initialBuckets (store_cfg cfg) < 2 ^ 64 ∧
  backlog cfg = backlog default_Config ∧ cfg_expireIntervalMs cfg = cfg_expireIntervalMs default_Config ∧
  cfg_expireSampleBuckets cfg = cfg_expireSampleBuckets default_Config ∧
  Sto.cfg_seed (store_cfg cfg) = 0 ∧ Sto.lruSamples (store_cfg cfg) = 5 ∧ Sto.policy (store_cfg cfg) = Sto.kNoEviction.

Lemma set_flag_sane cfg o : cfg_sane cfg → cfg_sane (set_flag cfg o).
Proof.
  intros (H1 & H2 & H3 & H). pose proof (strtoull_range o.2) as Hv.
  pose proof (Z.mod_pos_bound (strtoull o.2) (2 ^ 16) ltac:(lia)) as Hp.
  destruct o as [[] v]; (split; [|split; [|split; [|exact H]]]); assumption.
Qed.

Lemma parse_args_sane args cfg : parse_args args default_Config = Some cfg → cfg_sane cfg.
Proof.
  intros (opts & _ & ->)%parse_args_iff. assert (cfg_sane default_Config) as H by done. revert H. generalize default_Config.
  induction opts as [|o opts IH]; intros c Hc; [done|]. by apply IH, set_flag_sane.
Qed.

(** C27: the command line.  Exactly the sequences of known options, each with a
    value, are accepted, and they take effect from left to right; the port then
    has 16 bits, the two sizes 64, and nothing else changes.  A number in decimal
    is read as itself. *)
Theorem options_accepted (args : list bytes) :
  (∀ cfg', parse_args args default_Config = Some cfg' ↔
     ∃ opts, args = command_line opts ∧ cfg' = foldl set_flag default_Config opts) ∧
  (∀ cfg', parse_args args default_Config = Some cfg' → cfg_sane cfg') ∧
  (∀ n, 0 ≤ n < 2 ^ 64 → strtoull (to_chars n) = n).
Proof.
  split; [intros; apply parse_args_iff|]. split; [intros cfg'; apply parse_args_sane|intros n; apply strtoull_dec].
Qed.

(** ** The life of the process *)

Section life.
Context {K P : Type} `{!Kernel K} `{!PoolAllocator P} `{!KernelLaws K} (length_what : bytes).
Implicit Types (w : World K P) (p : Process K P).

(** A machine to start on. *)
Record machine_ok (k : K) : Prop := {
  mo_open : k_open k = ∅;
  mo_interest : k_interest k = ∅;
  mo_clock : 500 ≤ k_clock k;
  mo_bytes : k_bytes k * CmdProps.kMaxReply ≤ Buf.kMaxContent;
}.

(** How a run of the program stands: over, with nothing open, or still serving. *)
Definition over_or_serving (cfg : Config) (o : option Z) p : Prop :=
  disposition p SIGPIPE = SIG_IGN ∧
  match o with
  | Some code => ∃ k, object p = inr k ∧ k_open k = ∅ ∧
      (code = 0 ∨ code = 1 ∧ ∃ e k0, k = sys_stderr (fatal_text length_what e) k0)
  | None => ∃ w tr J, object p = inl w ∧ resting w ∧
      ideal_trace (CmdProps.capped_answer (StoProps.config_cap (store_cfg cfg)) Sto.kNoEviction) tr (cachedNow_ (server w)) J ∧
      map_Forall (client_ideal tr) (n_clients (view w)) ∧
      gServer p = true ∧ disposition p SIGINT = OnSignal ∧ disposition p SIGTERM = OnSignal ∧
      cout p = bstr "tiny-redis listening on " ++ bindAddr cfg ++ bstr ":" ++ to_chars (port cfg) ++
               bstr " (max keys " ++ to_chars (StoProps.config_cap (store_cfg cfg)) ++ bstr ")" ++ newline
  end.

Lemma fatal_over cfg e k p :
  object p = inr k → k_open k = ∅ → disposition p SIGPIPE = SIG_IGN →
  let '(o, p') := fatal length_what e p in over_or_serving cfg o p'.
Proof.
  intros Hp Hk Hd. unfold fatal. split; [exact Hd|]. exists (sys_stderr (fatal_text length_what e) k).
  split; [unfold print_err; by rewrite Hp|]. split; [|by eauto]. by rewrite (proj1 (stderr_law _ _)).
Qed.

Lemma make_huge (cfg : Sto.Config) rd0 rd1 :
  0 ≤ Sto.cfg_maxKeys cfg ≤ kPoolCapacity → 2 ^ 59 < Sto.initialBuckets cfg ≤ 2 ^ 63 →
  Sto.make (P := P) cfg rd0 rd1 = Fault FLength.
Proof.
  intros Hm Hb. unfold Sto.make, Sto.make_seeded, Sto.resolveMaxKeys. rewrite (proj2 (Z.leb_le _ kPoolCapacity)) by lia.
  cbn [rbind]. assert (kPoolCapacity = 2 ^ 18) as HcapE by done.
  set (n := if Sto.cfg_maxKeys cfg =? 0 then Sto.initialBuckets cfg else _).
  assert (n = Sto.initialBuckets cfg) as -> by (subst n; destruct (_ =? _); lia).
  unfold Tbl.make. destruct (nextPow2 (Sto.initialBuckets cfg)) as [q|f] eqn:E.
  - apply nextPow2_pow in E as (j & Hj & -> & Hle); [|lia]. cbn [rbind].
    assert (59 < Z.of_nat j) by (apply (Z.pow_lt_mono_r_iff 2); lia).
    assert (2 ^ 60 ≤ 2 ^ Z.of_nat j) by (apply Z.pow_le_mono_r; lia).
    by rewrite (proj2 (Z.leb_gt _ Tbl.MAX_POINTERS)) by (unfold Tbl.MAX_POINTERS; lia).
  - exfalso. revert E. unfold nextPow2, bit_ceil. destruct (_ =? 0); [done|].
    by rewrite (proj2 (Z.leb_le _ (2 ^ 63))) by lia.
Qed.

(** The server serves a map with a cap. *)
Lemma serving_capped w (st : Sto.Store P) :
  StoInv.Rep st ∅ → rtc nstep (mkNet 0 st ∅) (view w) →
  ∃ tr J, ideal_trace (CmdProps.capped_answer (Sto.maxKeys_ st) (Sto.policy_ st)) tr (cachedNow_ (server w)) J ∧
    map_Forall (client_ideal tr) (n_clients (view w)).
Proof.
  intros HR Hv. destruct (nsteps_ideal _ _ _ _ Hv (start_ideal st (CmdProps.empty_sound _ HR))) as (tr & HN).
  edestruct (ni_store _ _ _ HN) as (J & HT & _).
  - apply (CmdProps.capped_answers_for (Sto.maxKeys_ st) (Sto.policy_ st)).
  - split; [done|]. split; [done|]. exists ∅. by apply StoProps.rel_start.
  - apply Forall_forall. by intros [|? ? [[]]].
  - exists tr, J. split; [exact HT|apply HN].
Qed.

Lemma serve_spec rounds cfg w p (st : Sto.Store P) :
  resting w → view w = mkNet 0 st ∅ → StoInv.Rep st ∅ → Sto.policy_ st = Sto.kNoEviction →
  Sto.maxKeys_ st = StoProps.config_cap (store_cfg cfg) → disposition p SIGPIPE = SIG_IGN → cout p = [] →
  returns (serve length_what rounds cfg w p) (λ '(o, p'), over_or_serving cfg o p').
Proof.
  intros HR Hv HS Hpol Hcap Hd Hc. unfold serve. eapply returns_bind; [apply (run_spec rounds w HR)|].
  assert (store_ (server w) = st) as Hst by (by injection Hv).
  intros [e w'] (HR' & _ & Hsteps). rewrite Hv in Hsteps. destruct e as [e|].
  - eapply returns_bind; [apply (destroy_server_spec w' (re_inv _ HR'))|]. intros [_ w''] (Ho & _).
    destruct e as [|err]; [split; [exact Hd|exists (kern w''); auto]|by apply (fatal_over cfg _ (kern w''))].
  - split; [exact Hd|]. destruct (serving_capped w' st HS Hsteps) as (tr & J & HT & HC). rewrite Hcap, Hpol in HT.
    exists w', tr, J. split; [done|]. split; [done|]. split; [exact HT|]. split; [exact HC|].
    cbn. unfold listening, Sto.maxKeys. by rewrite Hc, Hst, Hcap.
Qed.

Lemma main_spec rounds args rd0 rd1 (k : K) cfg :
  machine_ok k → 0 ≤ rd1 < 2 ^ 32 → parse_args args default_Config = Some cfg →
  Sto.cfg_maxKeys (store_cfg cfg) ≤ kPoolCapacity → Sto.initialBuckets (store_cfg cfg) ≤ 2 ^ 63 →
  returns (main (P := P) length_what rounds args rd0 rd1 k) (λ '(o, p), over_or_serving cfg o p).
Proof.
  intros [K1 K2 K3 K4] Hrd E Hm Hb. destruct (parse_args_sane _ _ E) as (_ & Hm0 & Hb0 & _ & _ & Hl & Hs & Hlru & Hno).
  unfold main. rewrite E. destruct (Z.le_gt_cases (Sto.initialBuckets (store_cfg cfg)) (2 ^ 59)) as [Hle|Hgt].
  2: { rewrite make_huge by lia. by apply (fatal_over cfg _ k). }
  destruct (StoProps.make_Rep (P := P) (store_cfg cfg) rd0 rd1) as (st & -> & HR & Hcap & Hpol & _);
    [split; [lia|]; split; [lia|]; rewrite Hs, Hlru; lia|done|].
  pose proof (CmdProps.empty_sound _ HR) as HS.
  assert (can_start cfg st k) as HC by (split; try done; rewrite Hl; cbn; lia).
  destruct (construct cfg st k) as [[w|e] k'] eqn:Ec; pose proof (construct_spec _ _ _ _ _ HC Ec) as H.
  - destruct H as (_ & HR' & Hv). eapply serve_spec; [done|done|done|congruence|done..].
  - eapply returns_bind; [by apply release_store|]. intros st' _. by apply (fatal_over cfg _ k').
Qed.

Lemma make_huge_keys (cfg : Sto.Config) rd0 rd1 :
  kPoolCapacity < Sto.cfg_maxKeys cfg → Sto.make (P := P) cfg rd0 rd1 = Fault FAssert.
Proof. intros H. unfold Sto.make, Sto.make_seeded, Sto.resolveMaxKeys. by rewrite (proj2 (Z.leb_gt _ _) H). Qed.

Lemma make_unroundable (cfg : Sto.Config) rd0 rd1 :
  0 ≤ Sto.cfg_maxKeys cfg ≤ kPoolCapacity → 2 ^ 63 < Sto.initialBuckets cfg →
  Sto.make (P := P) cfg rd0 rd1 = Fault FOverflow.
Proof.
  intros Hm Hb. unfold Sto.make, Sto.make_seeded, Sto.resolveMaxKeys. rewrite (proj2 (Z.leb_le _ kPoolCapacity)) by lia.
  cbn [rbind]. assert (kPoolCapacity = 2 ^ 18) as HcapE by done.
  set (n := if Sto.cfg_maxKeys cfg =? 0 then Sto.initialBuckets cfg else _).
  assert (n = Sto.initialBuckets cfg) as -> by (subst n; destruct (_ =? _); lia).
  unfold Tbl.make, nextPow2, bit_ceil. by rewrite (proj2 (Z.eqb_neq _ 0)), (proj2 (Z.leb_gt _ (2 ^ 63))) by lia.
Qed.

(** C13: the program.  On any machine with the documented behaviour and with any
    arguments, [main] prints the usage and exits with 2, having done nothing
    else; or fails the store's assertion, asked for more keys than the pool has; or
    overflows, asked for more buckets than [std::bit_ceil] can round; or it does
    not fault: it ends with 0, or with 1 and the exception reported on stderr, and
    in both cases not one descriptor open; or it is still serving clients, who are
    told what one ideal map with deadlines and the printed key cap replies, with
    SIGINT and SIGTERM handled.  SIGPIPE is ignored throughout. *)
Theorem main_outcomes (rounds : nat) (args : list bytes) (rd0 rd1 : Z) (k : K)
    (Hk : machine_ok k) (Hrd : 0 ≤ rd1 < 2 ^ 32) :
  match parse_args args default_Config with
  | None => ∃ p : Process K P, main length_what rounds args rd0 rd1 k = Ok (Some 2, p) ∧
      object p = inr (sys_stderr usage_text k) ∧ cout p = []
  | Some cfg =>
      if kPoolCapacity <? Sto.cfg_maxKeys (store_cfg cfg) then main (P := P) length_what rounds args rd0 rd1 k = Fault FAssert
      else if 2 ^ 63 <? Sto.initialBuckets (store_cfg cfg) then main (P := P) length_what rounds args rd0 rd1 k = Fault FOverflow
      else ∃ o (p : Process K P), main length_what rounds args rd0 rd1 k = Ok (o, p) ∧ over_or_serving cfg o p
  end.
Proof.
  destruct (parse_args args default_Config) as [cfg|] eqn:E.
  - destruct (Z.ltb_spec kPoolCapacity (Sto.cfg_maxKeys (store_cfg cfg))) as [Hm|Hm].
    { unfold main. by rewrite E, make_huge_keys. }
    destruct (parse_args_sane _ _ E) as (_ & Hm0 & _).
    destruct (Z.ltb_spec (2 ^ 63) (Sto.initialBuckets (store_cfg cfg))) as [Hb|Hb].
    { unfold main. rewrite E, make_unroundable; [done|lia|done]. }
    pose proof (main_spec rounds args rd0 rd1 k cfg Hk Hrd E Hm Hb) as H.
    apply returns_inv in H as ([o p] & Em & H). by exists o, p.
  - unfold main. rewrite E. eexists. split; [done|]. by split.
Qed.

(** [gServer] outlives the server: a signal after the server has stopped reaches a
    dead object. *)
Theorem late_signal_dangles (rounds : nat) (args : list bytes) (rd0 rd1 : Z) (k : K) p
    (Hmain : main length_what rounds args rd0 rd1 k = Ok (Some 0, p)) :
  disposition p SIGINT = OnSignal ∧ onSignal p = Fault FNull.
Proof.
  revert Hmain. unfold main. destruct (parse_args _ _) as [cfg|]; [|done].
  destruct (Sto.make _ _ _) as [st|[]]; try done. destruct (construct cfg st k) as [[w|e] k'].
  - unfold serve. intros ([e w'] & _ & H)%rbind_Ok. destruct e as [e|]; [|done].
    apply rbind_Ok in H as ([[] w''] & _ & H). destruct e; [|done]. by injection H as <-.
  - by intros (st' & _ & H)%rbind_Ok.
Qed.

End life.

(** ** Witnesses *)

Definition demo_args : list bytes := [bstr "--port"; bstr "7000"; bstr "--maxkeys"; bstr "8"; bstr "--buckets"; bstr "8"].

Lemma options_accepted_witness :
  parse_args [bstr "--port"; bstr "65537"; bstr "--maxkeys"] default_Config = None ∧
  ∃ cfg, parse_args [bstr "--port"; bstr "65537"; bstr "--maxkeys"; bstr "8"] default_Config = Some cfg ∧
    port cfg = 1 ∧ Sto.cfg_maxKeys (store_cfg cfg) = 8 ∧ cfg_sane cfg.
Proof.
  split; [reflexivity|]. eexists. split; [reflexivity|]. split; [reflexivity|]. split; [reflexivity|].
  apply (options_accepted [bstr "--port"; bstr "65537"; bstr "--maxkeys"; bstr "8"]). reflexivity.
Defined.

(** A run cut short is still serving; an unknown option prints the usage. *)
Lemma main_outcomes_witness :
  (∃ cfg, parse_args demo_args default_Config = Some cfg ∧
     ∃ o (p : Process Loopback.Sim (gset addr)),
       main (bstr "vector") 1 demo_args 0 0 (Loopback.boot [[bstr "PING"]]) = Ok (o, p) ∧ over_or_serving (bstr "vector") cfg o p) ∧
  main (P := gset addr) (bstr "vector") 1 [bstr "--maxkeys"; bstr "-1"] 0 0 (Loopback.boot []) = Fault FAssert ∧
  ∃ p : Process Loopback.Sim (gset addr),
    main (bstr "vector") 1 [bstr "--help"] 0 0 (Loopback.boot []) = Ok (Some 2, p) ∧ 
      object p = inr (Loopback.print usage_text (Loopback.boot [])) ∧ cout p = [].
Proof.
  assert (machine_ok (Loopback.boot [[bstr "PING"]]) ∧ machine_ok (Loopback.boot [])) as [H1 H2]
    by (split; split; try reflexivity; vm_compute; discriminate).
  assert (0 ≤ 0 < 2 ^ 32) as H0 by lia.
  split; [|split].
  - eexists. split; [reflexivity|]. exact (main_outcomes (P := gset addr) (bstr "vector") 1 demo_args 0 0 _ H1 H0).
  - exact (main_outcomes (P := gset addr) (bstr "vector") 1 [bstr "--maxkeys"; bstr "-1"] 0 0 _ H2 H0).
  - exact (main_outcomes (P := gset addr) (bstr "vector") 1 [bstr "--help"] 0 0 _ H2 H0).
Defined.

(** A whole life: one client, then a signal, then exit code 0. *)
Example demo_main :
  match main (P := gset addr) (bstr "vector") 30 demo_args 0 0 (Loopback.boot [[bstr "PING" ++ CRLF]]) with
  | Ok (o, p) => (o, cout p) | Fault _ => (None, [])
  end = (Some 0, bstr "tiny-redis listening on 127.0.0.1:7000 (max keys 8)" ++ newline).
Proof. vm_compute. reflexivity. Qed.

(** An address that is none. *)
Example demo_fatal :
  match main (P := gset addr) (bstr "vector") 30 [bstr "--bind"; bstr "nowhere"] 0 0 (Loopback.boot []) with
  | Ok (o, mkProcess _ (inr k) _ _) => (o, Loopback.s_stderr k) | _ => (None, [])
  end = (Some 1, bstr "fatal: Server -> invalid bind address: nowhere" ++ newline).
Proof. vm_compute. reflexivity. Qed.

End MainProps.
